(* ===== verification/_CoqProject ===== *)
-Q . S2P
Prelude.v
Job.v
Store.v
Crash.v
Kernel.v
FsOps.v
DirList.v
Mover.v
Interference.v
Events.v
PubThreads.v
Calendar.v
EventLog.v
RenameTemplate.v
Config.v
Manager.v
Dispatch.v
Threads.v
Scheduling.v
Refinement.v
Runs.v
Settling.v
Safekeeping.v
HttpParser.v
Json.v
ApiCodec.v
Router.v
Server.v
Pool.v
HttpService.v
Delivery.v
Singleton.v
Supervision.v
Service.v
