(* ===== verification/Prelude.v ===== *)
(** Background File Mover: a verification of the C++ daemon under src/cpp.

    * The program

    The daemon moves files between directories in the background and never loses one.  A
    client submits a job over HTTP; the job is recorded in a SQLite database before anything
    happens; a worker moves the file through a staging name in the destination directory,
    recording its progress; the result is recorded and announced.  From the bottom up:

    - the job core (job.cpp): a record and a state machine of five states;
    - the job store (store.cpp): jobs in a SQLite table, written before they are acted on;
    - the filesystem layer (fsops.cpp): system calls relative to directory descriptors;
    - the move engine (mover.cpp): a move in phases with one commit point, and its recovery;
    - the manager (manager.cpp): queues, worker threads, retries and the commands;
    - events, event log, rename templates, configuration (events.cpp, event_log.cpp,
      rename_template.cpp, config.cpp);
    - the control plane: parser, JSON, codec, router, connection server and the loop that
      joins them (http_parser.cpp, json.cpp, api_codec.cpp, router.cpp, server.cpp,
      http_service.cpp);
    - the daemon: the singleton lock, supervision, start and stop, main (singleton.cpp,
      service.cpp, main.cpp).

    A request goes down this list: [HttpService.serve_connection] calls
    [Router.route_request], which calls [Manager.submit], which calls
    [Store.record_intent] and queues; a worker calls [Mover.execute], which calls [FsOps]
    and [Store.record_transition].

    * The files

    - Prelude: byte strings, decimal text, C strings, machine integers, [result], reachable
      states ([star]) and the shared tactics.
    - Job (job.cpp): [Job], [transition], [is_legal_transition].
    - Store (store.cpp): [JobStore] with one definition per method over the statements it
      runs; a schedule of failures stands for SQLite.  [spec_step] is what the store promises.
    - Crash: programs as trees of calls.  [run] runs one alone, stopping anywhere, with a
      Hoare logic ([triple]); [next] makes one call, for interleaving.
    - Kernel: the class of system calls, its laws, and an in-memory instance.
    - FsOps (fsops.cpp): [classify], [open_regular], [move_within], [publish] and the rest.
    - DirList (fsops.cpp): [read_entries] over the directory stream.
    - Mover (mover.cpp): [execute], one definition per phase; [recover] and [redrive].
    - Interference: the filesystem layer and the engine among other processes and threads
      ([among]), with a logic for what survives them ([shared]).
    - Events (events.cpp): the publisher; [pub_step] interleaves its critical sections.
      PubThreads: the same statement by statement ([pub_turn]), with the mutex and the wait
      of [unsubscribe].
    - Calendar, EventLog, RenameTemplate (event_log.cpp, rename_template.cpp).
    - Config (config.cpp): the loader, line by line.
    - Manager (manager.cpp): [manager] is the state under the mutex; every critical section
      is a function, and what a worker does without the mutex is a program.
    - Dispatch (manager.cpp): critical sections, store calls, worker calls and events as the
      atomic steps of any number of threads, and the invariants of the queues.
    - Threads (manager.cpp): every function of the manager and the worker as [code], with its
      mutexes, condition variable, assertion, thread creation and joins; the machine that
      runs any number of them ([run_turn]).
    - Scheduling: the locking discipline of that code, and that it never blocks for ever.
    - Refinement: every run of the threads is a run of Dispatch, so its invariants hold of
      the code.  Runs: concrete runs, evaluated.
    - Settling: the threads of the manager cannot run for ever.
    - Safekeeping: the engine as the workers of the running manager, any number at a time,
      with the process killed and started again.
    - HttpParser, Json, ApiCodec, Router: as their sources, pure functions.
    - Server (server.cpp): bounded I/O over the answers of the kernel, the handler pool
      ([pool_step]), start and shutdown.  Pool: its threads statement by statement
      ([handler_turn], [acceptor_code_turn], [owner_turn]), with the mutex, [work_ready] and the joins.
    - HttpService (http_service.cpp): [receive] and [serve_connection].
    - Delivery: the composition of router, manager, store and engine.
    - Singleton (singleton.cpp): [acquire] as a script of system calls; [sched_step]
      interleaves processes.
    - Supervision, Service (service.cpp, main.cpp): signals, watchdog and notification;
      [service_start], [service_stop], [daemon].

    * What is shown

    - No loss: whatever fails and wherever the process dies, the object stays under the
      source, staging or final name, and a healthy recovery completes the move (Mover); so it
      does under any number of workers and any number of restarts (Safekeeping); an
      acknowledged submission is delivered (Delivery).
    - The database is truthful: operations refine an abstract store in which jobs only move
      forward; what is acknowledged has been recorded (Store, Manager, Router).
    - Threads of the manager: locks are taken in order and guard what they should, there is
      no deadlock and no lost wake-up, a job is run by one worker at a time and a queued job
      is durable, in every interleaving (Scheduling, Refinement); without new calls they come
      to rest with the queue empty, so accepted jobs are run (Settling).
    - Shared directories: whatever others do between two system calls, the engine touches
      only its three names and opens only the object it has classified (Interference).
    - Concurrency elsewhere: an unsubscribed listener is not called and unsubscribing always
      returns (Events, PubThreads), connections are accounted for and every accepted one is
      served, shutdown included (Server, Pool), one daemon runs per database, a stop signal
      is not lost (Singleton, Supervision).
    - Input is read by its grammar: request heads, bodies, JSON, configuration and templates
      are accepted exactly when the documented grammar says so, within bounds (HttpParser,
      Json, ApiCodec, Config, RenameTemplate, HttpService).
    - Order: the daemon starts bottom up or not at all, stops top down, and can be started
      again (Service).
    - Behaviour that departs from the documents is stated too, as a theorem about the code as
      it is, for example [Mover.destination_overwritten], [Mover.interrupted_never_finishes],
      [Runs.refused_cancel_duplicates_job], [Safekeeping.crossing_moves_lose_a_file],
      [Server.unavailable_body_misdeclared] and [Supervision.watchdog_wraps_to_zero].

    * Bounds

    Integers are [Z] with the wrap-around of their C++ type written out where they can reach
    it.  Recursion that is not structural carries fuel, with a proof that the fuel given is
    enough: the JSON parser by the length of its input ([Json.json_parse_sound]), the reading
    loops by what the socket holds ([HttpService.connection_always_served]), the search for a
    retry id by the number of ids in use ([Manager.retry_search_finds_fresh]).

    * Not modelled

    - The kernel, SQLite and the C library are not in the repository.  They are classes with
      the laws of their documentation, arguments, or schedules of answers, and each class has
      an instance.  Time and durability of fsync are not modelled: a call that has returned
      has happened.
    - Test seams: a clock reading is any number and a phase hook is a callback recorded by
      the engine; which of them is installed is not state.
    - The watchdog thread sleeps in slices of a fixed length; the clock it sleeps by is not
      modelled.
    - Fairness of the scheduler and of the mutexes, and the C++ memory model: threads
      interleave at the actions of [Threads.run_turn], [Pool.net_turn] and
      [PubThreads.pub_turn].  Liveness is that the threads cannot run for ever and where they
      come to rest, for every choice of the scheduler.
    - Loss of power: a process that is killed leaves the names it has made, whether or not they
      had reached the disk.
    - Tests, scripts and packaging. *)

From Stdlib Require Export Ascii String ZArith Lia.
From stdpp Require Export base tactics gmap strings list fin_maps sets sorting.

#[global] Open Scope Z_scope.
#[global] Open Scope list_scope.

(** * Byte strings

    [std::string] is a sequence of bytes, embedded NULs included: a list of
    [ascii].  Literals are written [str "..."]; [qstr] writes the double quotes
    of a C++ literal as single quotes. *)

Abbreviation bytes := (list ascii).

Definition str (s : string) : bytes := list_ascii_of_string s.
Arguments str s%_string : simpl never.

Definition dq : ascii := ascii_of_nat 34.
Definition nul : ascii := ascii_of_nat 0.
Definition ht : ascii := ascii_of_nat 9.
Definition lf : ascii := ascii_of_nat 10.
Definition cr : ascii := ascii_of_nat 13.

Definition qstr (s : string) : bytes :=
  (fun c => if Ascii.eqb c "'" then dq else c) <$> str s.
Arguments qstr s%_string : simpl never.

Definition crlf : bytes := [cr; lf].

(** The value of a byte as [unsigned char], and the conversion back
    ([static_cast<char>] keeps the low eight bits). *)
Definition code (c : ascii) : Z := Z.of_N (N_of_ascii c).
Definition chr (n : Z) : ascii := ascii_of_N (Z.to_N (n mod 256)).

Definition slen (s : bytes) : Z := Z.of_nat (length s).

(** [std::string::operator==]. *)
Definition beq (s t : bytes) : bool := bool_decide (s = t).

Infix "=?" := Ascii.eqb : char_scope.
Infix "==" := beq (at level 70, no associativity) : list_scope.

Lemma code_bound c : 0 <= code c < 256.
Proof. unfold code. pose proof (N_ascii_bounded c). lia. Qed.

Lemma chr_code c : chr (code c) = c.
Proof.
  unfold chr. rewrite Z.mod_small by apply code_bound.
  unfold code. rewrite N2Z.id. apply ascii_N_embedding.
Qed.

Lemma code_chr_mod n : code (chr n) = n mod 256.
Proof.
  unfold code, chr. pose proof (Z.mod_pos_bound n 256 ltac:(lia)).
  rewrite N_ascii_embedding by lia. lia.
Qed.

Lemma code_chr n : 0 <= n < 256 -> code (chr n) = n.
Proof. intros. rewrite code_chr_mod. by apply Z.mod_small. Qed.

Lemma code_inj c d : code c = code d -> c = d.
Proof. intros H. by rewrite <- (chr_code c), H, chr_code. Qed.

Lemma code_neq c d : c <> d -> code c <> code d.
Proof. intros H E. by apply H, code_inj. Qed.

Lemma slen_nonneg s : 0 <= slen s.
Proof. unfold slen. lia. Qed.

Lemma slen_app s t : slen (s ++ t) = slen s + slen t.
Proof. unfold slen. rewrite length_app. lia. Qed.

Lemma slen_cons c s : slen (c :: s) = 1 + slen s.
Proof. unfold slen. simpl. lia. Qed.

Lemma slen_nil : slen [] = 0.
Proof. done. Qed.

Lemma beq_eq s t : (s == t) = true <-> s = t.
Proof. apply bool_decide_eq_true. Qed.

Lemma beq_neq s t : (s == t) = false <-> s <> t.
Proof. apply bool_decide_eq_false. Qed.

Lemma beq_refl s : (s == s) = true.
Proof. by apply beq_eq. Qed.

(** * Searching in byte strings *)

(** [s.find(c)]: index of the first occurrence. *)
Fixpoint find_char (c : ascii) (s : bytes) : option nat :=
  match s with
  | [] => None
  | d :: s' => if Ascii.eqb d c then Some O else S <$> find_char c s'
  end.

(** [s.rfind(c)]: index of the last occurrence. *)
Fixpoint rfind_char (c : ascii) (s : bytes) : option nat :=
  match s with
  | [] => None
  | d :: s' =>
      match rfind_char c s' with
      | Some i => Some (S i)
      | None => if Ascii.eqb d c then Some O else None
      end
  end.

(** [s.compare(0, pat.size(), pat) == 0]. *)
Fixpoint starts_with (pat s : bytes) : bool :=
  match pat, s with
  | [], _ => true
  | p :: pat', c :: s' => Ascii.eqb p c && starts_with pat' s'
  | _ :: _, [] => false
  end.

(** [s.find(pat)] and [s.rfind(pat)] for a string pattern. *)
Fixpoint find_sub (pat s : bytes) : option nat :=
  if starts_with pat s then Some O
  else match s with
       | [] => None
       | _ :: s' => S <$> find_sub pat s'
       end.

Fixpoint rfind_sub (pat s : bytes) : option nat :=
  match s with
  | [] => if starts_with pat [] then Some O else None
  | _ :: s' =>
      match rfind_sub pat s' with
      | Some i => Some (S i)
      | None => if starts_with pat s then Some O else None
      end
  end.

Definition contains (c : ascii) (s : bytes) : bool :=
  match find_char c s with Some _ => true | None => false end.

Lemma find_char_None c s : find_char c s = None <-> c ∉ s.
Proof.
  induction s as [|d s IH]; simpl; [set_solver|].
  destruct (Ascii.eqb_spec d c) as [->|Hne]; [set_solver|].
  destruct (find_char c s); simpl; set_solver.
Qed.

Lemma find_char_Some c s i :
  find_char c s = Some i ->
  exists pre post, s = pre ++ c :: post /\ length pre = i /\ c ∉ pre.
Proof.
  revert i. induction s as [|d s IH]; intros i; simpl; [done|].
  destruct (Ascii.eqb_spec d c) as [->|Hne].
  - intros [= <-]. exists [], s. split_and!; [done|done|set_solver].
  - destruct (find_char c s) as [j|]; [|done]. intros [= <-].
    destruct (IH j eq_refl) as (pre & post & -> & <- & Hnin).
    exists (d :: pre), post. split_and!; [done|done|set_solver].
Qed.

Lemma find_char_app c pre post :
  c ∉ pre -> find_char c (pre ++ c :: post) = Some (length pre).
Proof.
  induction pre as [|d pre IH]; intros Hnin; simpl.
  - by rewrite Ascii.eqb_refl.
  - destruct (Ascii.eqb_spec d c) as [->|Hne]; [set_solver|].
    rewrite IH by set_solver. done.
Qed.

Lemma rfind_char_None c s : rfind_char c s = None <-> c ∉ s.
Proof.
  induction s as [|d s IH]; simpl; [set_solver|].
  destruct (rfind_char c s) as [i|].
  - split; [done|]. intros Hn. exfalso.
    assert (c ∉ s) as H%IH by set_solver. done.
  - destruct (Ascii.eqb_spec d c) as [->|Hne]; [set_solver|].
    destruct IH as [IH _]. specialize (IH eq_refl). set_solver.
Qed.

Lemma rfind_char_Some c s i :
  rfind_char c s = Some i ->
  exists pre post, s = pre ++ c :: post /\ length pre = i /\ c ∉ post.
Proof.
  revert i. induction s as [|d s IH]; intros i; simpl; [done|].
  destruct (rfind_char c s) as [j|] eqn:E.
  - intros [= <-]. destruct (IH j eq_refl) as (pre & post & -> & <- & Hn).
    exists (d :: pre), post. done.
  - destruct (Ascii.eqb_spec d c) as [->|Hne]; [|done]. intros [= <-].
    exists [], s. split_and!; [done|done|]. by apply rfind_char_None.
Qed.

Lemma drop_S_app (s t : bytes) c : drop (S (length s)) (s ++ c :: t) = t.
Proof. induction s; simpl; [by rewrite drop_0|done]. Qed.

Lemma rfind_char_app c pre post :
  c ∉ post -> rfind_char c (pre ++ c :: post) = Some (length pre).
Proof.
  intros Hn. induction pre as [|d pre IH]; simpl.
  - by rewrite (proj2 (rfind_char_None c post) Hn), Ascii.eqb_refl.
  - by rewrite IH.
Qed.

Lemma contains_false c s : contains c s = false <-> c ∉ s.
Proof.
  unfold contains. rewrite <- find_char_None. by destruct (find_char c s).
Qed.

Lemma contains_true c s : contains c s = true <-> c ∈ s.
Proof.
  destruct (contains c s) eqn:E.
  - split; [|done]. intros _. destruct (decide (c ∈ s)) as [|Hn]; [done|].
    apply contains_false in Hn. congruence.
  - apply contains_false in E. split; [done|]. set_solver.
Qed.

Lemma starts_with_prefix pat s :
  starts_with pat s = true <-> pat `prefix_of` s.
Proof.
  revert s. induction pat as [|p pat IH]; intros s; simpl.
  - split; [intros _; apply prefix_nil|done].
  - destruct s as [|c s]; simpl.
    + split; [done|]. intros [k Hk]. done.
    + rewrite andb_true_iff, Ascii.eqb_eq, IH. split.
      * intros [-> H]. by apply prefix_cons.
      * intros H. split; [by eapply prefix_cons_inv_1|by eapply prefix_cons_inv_2].
Qed.

Lemma starts_with_app pat s : starts_with pat (pat ++ s) = true.
Proof. apply starts_with_prefix. by exists s. Qed.

Lemma starts_with_length pat s :
  starts_with pat s = true -> (length pat <= length s)%nat.
Proof. intros H%starts_with_prefix. by apply prefix_length. Qed.

(** A match of a pattern only inspects the first [length pat] bytes. *)
Lemma starts_with_app_l pat s t :
  (length pat <= length s)%nat -> starts_with pat (s ++ t) = starts_with pat s.
Proof.
  revert s. induction pat as [|p pat IH]; intros s Hl; [done|].
  destruct s as [|c s]; simpl in *; [lia|]. by rewrite IH by lia.
Qed.

Lemma find_sub_Some pat s i :
  find_sub pat s = Some i ->
  exists pre post, s = pre ++ pat ++ post /\ length pre = i.
Proof.
  revert i. induction s as [|c s IH]; intros i; simpl.
  - destruct (starts_with pat []) eqn:E; [|done]. intros [= <-].
    apply starts_with_prefix in E as [k Hk]. exists [], k. done.
  - destruct (starts_with pat (c :: s)) eqn:E.
    + intros [= <-]. apply starts_with_prefix in E as [k Hk]. exists [], k. done.
    + destruct (find_sub pat s) as [j|]; [|done]. intros [= <-].
      destruct (IH j eq_refl) as (pre & post & -> & <-).
      by exists (c :: pre), post.
Qed.

(** The first match stays the first match when bytes are appended. *)
Lemma find_sub_app pat s t i :
  find_sub pat s = Some i -> find_sub pat (s ++ t) = Some i.
Proof.
  revert i. induction s as [|c s IH]; intros i; simpl.
  - destruct (starts_with pat []) eqn:E; [|done]. intros [= <-].
    apply starts_with_length in E. simpl in E. destruct pat; [|simpl in E; lia].
    by destruct t.
  - destruct (starts_with pat (c :: s)) eqn:E.
    + intros [= <-]. change (c :: s ++ t) with ((c :: s) ++ t).
      rewrite starts_with_app_l, E; [done|]. by apply starts_with_length.
    + destruct (find_sub pat s) as [j|] eqn:Ej; [|done]. intros [= <-].
      change (c :: s ++ t) with ((c :: s) ++ t).
      assert (length pat <= length (c :: s))%nat as Hl.
      { apply find_sub_Some in Ej as (p & q & -> & _).
        simpl. rewrite !length_app. lia. }
      rewrite (starts_with_app_l _ _ _ Hl), E. by rewrite (IH j).
Qed.

(** A prefix shorter than the end of the first match has no match. *)
Lemma find_sub_take pat s i n :
  find_sub pat s = Some i -> (n < i + length pat)%nat ->
  find_sub pat (take n s) = None.
Proof.
  intros Hf Hn. destruct (find_sub pat (take n s)) as [j|] eqn:E; [|done].
  pose proof (find_sub_app _ _ (drop n s) _ E) as E'.
  rewrite take_drop in E'. assert (i = j) as -> by congruence.
  apply find_sub_Some in E as (pre & post & Heq & <-).
  apply (f_equal length) in Heq. rewrite !length_app, length_take in Heq. lia.
Qed.

(** * Lines and trimming *)

(** [std::getline] until it fails: a final newline ends the last line. *)
Fixpoint split_lines (cur text : bytes) : list bytes :=
  match text with
  | [] => match cur with [] => [] | _ => [cur] end
  | c :: text' => if Ascii.eqb c lf then cur :: split_lines [] text' else split_lines (cur ++ [c]) text'
  end.
Definition getlines (text : bytes) : list bytes := split_lines [] text.

(** [find_first_not_of] / [find_last_not_of]: [s] without the characters of a class
    at its two ends. *)
Fixpoint drop_while (p : ascii -> bool) (s : bytes) : bytes :=
  match s with
  | c :: s' => if p c then drop_while p s' else s
  | [] => []
  end.
Definition strip (p : ascii -> bool) (s : bytes) : bytes :=
  reverse (drop_while p (reverse (drop_while p s))).

Lemma split_lines_app cur line rest :
  lf ∉ line -> split_lines cur (line ++ lf :: rest) = (cur ++ line) :: split_lines [] rest.
Proof.
  revert cur. induction line as [|c line IH]; intros cur Hn; simpl.
  - by rewrite app_nil_r.
  - destruct (Ascii.eqb_spec c lf) as [->|_]; [set_solver|].
    rewrite IH by set_solver. by rewrite <- app_assoc.
Qed.

(** The lines of a text that ends with a newline. *)
Lemma getlines_concat ls :
  Forall (fun l => lf ∉ l) ls -> getlines (flat_map (fun l => l ++ [lf]) ls) = ls.
Proof.
  unfold getlines. induction 1 as [|l ls Hl _ IH]; simpl; [done|].
  rewrite <- app_assoc. simpl. by rewrite split_lines_app, IH.
Qed.

Lemma split_lines_inv cur text :
  lf ∉ cur -> Forall (fun l => lf ∉ l) (split_lines cur text) /\
  (cur ++ text = [] /\ split_lines cur text = [] \/
   exists init l, split_lines cur text = init ++ [l] /\
     (cur ++ text = flat_map (fun l => l ++ [lf]) init ++ l /\ l <> [] \/
      cur ++ text = flat_map (fun l => l ++ [lf]) init ++ l ++ [lf])).
Proof.
  revert cur. induction text as [|c text IH]; intros cur Hc; simpl.
  - destruct cur as [|d cur]; [split; [constructor|by left]|]. split; [by repeat constructor|].
    right. exists [], (d :: cur). split; [done|]. left. by rewrite app_nil_r.
  - destruct (Ascii.eqb_spec c lf) as [->|Hne].
    + destruct (IH []) as [Hf Ht]; [set_solver|]. split; [by constructor|]. right.
      destruct Ht as [[E1 E2]|(init & l & E1 & E2)].
      * simpl in E1. subst text. exists [], cur. rewrite E2. split; [done|]. by right.
      * exists (cur :: init), l. rewrite E1. split; [done|]. simpl in *.
        destruct E2 as [[E2 Hl]|E2]; [left; split; [|done]|right]; rewrite E2;
          by rewrite <- !app_assoc.
    + destruct (IH (cur ++ [c])) as [Hf Ht]; [set_solver|]. split; [done|].
      rewrite <- app_assoc in Ht. simpl in Ht. destruct Ht as [[E1 _]|Ht]; [by destruct cur|]. by right.
Qed.

(** A text that ends with a newline is the concatenation of its lines. *)
Lemma getlines_inv text :
  Forall (fun l => lf ∉ l) (getlines (text ++ [lf])) /\
  text ++ [lf] = flat_map (fun l => l ++ [lf]) (getlines (text ++ [lf])).
Proof.
  unfold getlines. destruct (split_lines_inv [] (text ++ [lf])) as [Hf Ht]; [set_solver|].
  split; [done|]. destruct Ht as [[E _]|(init & l & E1 & E2)]; [by destruct text|].
  rewrite E1 in *. rewrite flat_map_app. simpl in *. rewrite app_nil_r.
  destruct E2 as [[E2 Hl]|E2]; [|done]. exfalso.
  destruct (exists_last Hl) as (l' & c & ->). rewrite app_assoc in E2.
  apply app_inj_tail in E2 as [_ <-]. apply Forall_app in Hf as [_ Hf].
  apply Forall_inv in Hf. set_solver.
Qed.

Lemma drop_while_split p s :
  exists l, s = l ++ drop_while p s /\ Forall (fun c => p c = true) l /\
    (forall c, head (drop_while p s) = Some c -> p c = false).
Proof.
  induction s as [|c s (l & E & Hl & Hh)]; simpl; [by exists []|].
  destruct (p c) eqn:Ec.
  - exists (c :: l). rewrite E at 1. split_and!; [done|by constructor|done].
  - exists []. split_and!; [done|constructor|]. by intros ? [= <-].
Qed.

(** What [strip] keeps, and what it drops. *)
Lemma strip_split p s :
  exists l r, s = l ++ strip p s ++ r /\
    Forall (fun c => p c = true) l /\ Forall (fun c => p c = true) r.
Proof.
  unfold strip. destruct (drop_while_split p s) as (l & El & Hl & _).
  destruct (drop_while_split p (reverse (drop_while p s))) as (r & Er & Hr & _).
  exists l, (reverse r). rewrite <- reverse_app, <- Er, reverse_involutive.
  split_and!; [done|done|]. by apply Forall_reverse.
Qed.

(** * Decimal output: [operator<<] and [printf] of integers *)

Definition digit_char (d : Z) : ascii := chr (48 + d).

Fixpoint dec_loop (fuel : nat) (n : Z) (acc : bytes) : bytes :=
  match fuel with
  | O => acc
  | S f =>
      let acc' := digit_char (n mod 10) :: acc in
      if n <? 10 then acc' else dec_loop f (n / 10) acc'
  end.

(** Decimal digits of a non-negative integer; [log2 n + 1] iterations are
    enough because every iteration divides by more than two. *)
Definition dec (n : Z) : bytes := dec_loop (S (Z.to_nat (Z.log2 n))) n [].

(** [%lld] / [operator<<] of a signed value. *)
Definition dec_signed (n : Z) : bytes :=
  if n <? 0 then "-"%char :: dec (- n) else dec n.

(** [%0<w>d]: zero padding after the sign. *)
Definition zeros (w : Z) (s : bytes) : bytes :=
  replicate (Z.to_nat (w - slen s)) "0"%char ++ s.
Definition dec_padded (w n : Z) : bytes :=
  if n <? 0 then "-"%char :: zeros (w - 1) (dec (- n)) else zeros w (dec n).

Definition hex_char (d : Z) : ascii :=
  if d <? 10 then chr (48 + d) else chr (87 + d).

Definition is_digit (c : ascii) : bool := (48 <=? code c) && (code c <=? 57).

(** The value of a digit string, most significant digit first. *)
Definition dec_value (s : bytes) : Z :=
  fold_left (fun acc c => acc * 10 + (code c - 48)) s 0.

Lemma is_digit_range c : is_digit c = true <-> 48 <= code c <= 57.
Proof. unfold is_digit. lia. Qed.

Lemma code_digit_char d : 0 <= d < 10 -> code (digit_char d) = 48 + d.
Proof. intros. apply code_chr. lia. Qed.

Lemma is_digit_char d : 0 <= d < 10 -> is_digit (digit_char d) = true.
Proof. intros. apply is_digit_range. rewrite code_digit_char; lia. Qed.

Lemma dec_loop_acc fuel n acc : dec_loop fuel n acc = dec_loop fuel n [] ++ acc.
Proof.
  revert n acc. induction fuel as [|f IH]; intros n acc; simpl; [done|].
  destruct (n <? 10); [done|].
  rewrite (IH _ (_ :: acc)), (IH _ [_]). by rewrite <- app_assoc.
Qed.

Lemma dec_loop_S fuel n :
  dec_loop (S fuel) n [] =
    if n <? 10 then [digit_char (n mod 10)]
    else dec_loop fuel (n / 10) [] ++ [digit_char (n mod 10)].
Proof. simpl. destruct (n <? 10); [done|]. apply dec_loop_acc. Qed.

Lemma dec_value_snoc s c : dec_value (s ++ [c]) = dec_value s * 10 + (code c - 48).
Proof. unfold dec_value. by rewrite fold_left_app. Qed.

Lemma log2_div10 n : 10 <= n -> Z.log2 (n / 10) < Z.log2 n.
Proof.
  intros H. assert (1 <= n / 10) by (apply Z.div_le_lower_bound; lia).
  apply Z.log2_lt_pow2; [lia|]. pose proof (Z.log2_spec n ltac:(lia)) as [_ Hu].
  pose proof (Z.log2_nonneg n). rewrite Z.pow_succ_r in Hu by lia.
  apply Z.div_lt_upper_bound; lia.
Qed.

Lemma dec_loop_spec fuel n :
  0 <= n -> (Z.to_nat (Z.log2 n) < fuel)%nat ->
  dec_value (dec_loop fuel n []) = n /\
  Forall (fun c => is_digit c = true) (dec_loop fuel n []) /\
  dec_loop fuel n [] <> [] /\
  (0 < n -> head (dec_loop fuel n []) <> Some "0"%char).
Proof.
  revert n. induction fuel as [|f IH]; intros n Hn Hf; [lia|].
  rewrite dec_loop_S. pose proof (Z.mod_pos_bound n 10 ltac:(lia)).
  destruct (Z.ltb_spec n 10).
  - rewrite Z.mod_small by lia. split_and!; [|repeat constructor; apply is_digit_char; lia|done|].
    + unfold dec_value. simpl. rewrite code_digit_char; lia.
    + intros Hp [= E]. apply (f_equal code) in E. rewrite code_digit_char in E by lia.
      change (code "0") with 48 in E. lia.
  - pose proof (log2_div10 n ltac:(lia)). pose proof (Z.log2_nonneg (n / 10)).
    assert (1 <= n / 10) by (apply Z.div_le_lower_bound; lia).
    destruct (IH (n / 10) ltac:(lia) ltac:(lia)) as (Hv & Hd & Hne & Hh).
    split_and!.
    + rewrite dec_value_snoc, Hv, code_digit_char by lia.
      pose proof (Z.div_mod n 10 ltac:(lia)). lia.
    + apply Forall_app. split; [done|]. repeat constructor. by apply is_digit_char.
    + by destruct (dec_loop f _ _).
    + intros _. specialize (Hh ltac:(lia)). by destruct (dec_loop f _ _).
Qed.

Lemma dec_value_dec n : 0 <= n -> dec_value (dec n) = n.
Proof. intros. by apply dec_loop_spec; lia. Qed.

Lemma dec_digits n : 0 <= n -> Forall (fun c => is_digit c = true) (dec n).
Proof. intros. by apply dec_loop_spec; lia. Qed.

Lemma dec_nonempty n : dec n <> [].
Proof.
  unfold dec. rewrite dec_loop_S. destruct (n <? 10); [done|].
  by destruct (dec_loop _ _ _).
Qed.

Lemma dec_inj n m : 0 <= n -> 0 <= m -> dec n = dec m -> n = m.
Proof. intros ? ? E. by rewrite <- (dec_value_dec n), E, dec_value_dec. Qed.

Lemma dec_head n : 0 < n -> head (dec n) <> Some "0"%char.
Proof. intros. apply dec_loop_spec; lia. Qed.

(** The digits at the front of [s] and what follows them. *)
Fixpoint span_digits (s : bytes) : bytes * bytes :=
  match s with
  | c :: s' => if is_digit c then let '(d, r) := span_digits s' in (c :: d, r) else ([], s)
  | [] => ([], [])
  end.

Lemma span_digits_spec s d r :
  span_digits s = (d, r) ->
  s = d ++ r /\ Forall (fun c => is_digit c = true) d /\
  (forall c, head r = Some c -> is_digit c = false).
Proof.
  revert d r. induction s as [|c s IH]; intros d r; simpl.
  - intros [= <- <-]. split_and!; [done|constructor|done].
  - destruct (is_digit c) eqn:E.
    + destruct (span_digits s) as [d' r']. intros [= <- <-].
      destruct (IH d' r' eq_refl) as (-> & ? & ?). split_and!; [done|by constructor|done].
    + intros [= <- <-]. split_and!; [done|constructor|]. by intros ? [= <-].
Qed.

Lemma span_digits_all s : Forall (fun c => is_digit c = true) s -> span_digits s = (s, []).
Proof.
  induction 1 as [|c s Hc _ IH]; simpl; [done|]. by rewrite Hc, IH.
Qed.

(** The value of [s] read after the digits of [p]. *)
Definition value_from (p : Z) (s : bytes) : Z :=
  fold_left (fun acc c => acc * 10 + (code c - 48)) s p.

Lemma value_from_ge p s :
  0 <= p -> Forall (fun c => is_digit c = true) s -> p <= value_from p s.
Proof.
  intros Hp Hs. revert p Hp. induction Hs as [|c s Hc Hs IH]; intros p Hp; simpl; [unfold value_from; simpl; lia|].
  apply is_digit_range in Hc. change (value_from p (c :: s)) with (value_from (p * 10 + (code c - 48)) s).
  specialize (IH (p * 10 + (code c - 48)) ltac:(lia)). lia.
Qed.

(** * Machine integers *)

Definition INT64_MIN : Z := -2 ^ 63.
Definition INT64_MAX : Z := 2 ^ 63 - 1.
Definition UINT64_MAX : Z := 2 ^ 64 - 1.

Definition is_int64 (n : Z) : Prop := INT64_MIN <= n <= INT64_MAX.
Definition is_uint64 (n : Z) : Prop := 0 <= n <= UINT64_MAX.
Definition is_uint32 (n : Z) : Prop := 0 <= n < 2 ^ 32.

(** Conversions between fixed-width types keep the low bits. *)
Definition wrap_u64 (n : Z) : Z := n mod 2 ^ 64.
Definition wrap_i64 (n : Z) : Z := (n + 2 ^ 63) mod 2 ^ 64 - 2 ^ 63.
Definition wrap_i32 (n : Z) : Z := (n + 2 ^ 31) mod 2 ^ 32 - 2 ^ 31.

Lemma wrap_i64_small n : is_int64 n -> wrap_i64 n = n.
Proof. unfold is_int64, INT64_MIN, INT64_MAX, wrap_i64. intros. rewrite Z.mod_small; lia. Qed.

Lemma wrap_i32_small n : - 2 ^ 31 <= n < 2 ^ 31 -> wrap_i32 n = n.
Proof. unfold wrap_i32. intros. rewrite Z.mod_small; lia. Qed.

Lemma wrap_u64_i64 n : is_uint64 n -> wrap_u64 (wrap_i64 n) = n.
Proof.
  unfold is_uint64, UINT64_MAX, wrap_u64, wrap_i64. intros.
  rewrite Zminus_mod_idemp_l. replace (n + 2 ^ 63 - 2 ^ 63) with n by lia.
  apply Z.mod_small. lia.
Qed.

(** * Results: a C++ [bool f(..., T& out, std::string& error)] *)

#[export] Instance result_ret {E} : MRet (fun A => result A E) := fun _ => Ok.
#[export] Instance result_bind {E} : MBind (fun A => result A E) :=
  fun A B f m => match m with Ok a => f a | Error e => Error e end.

Definition is_ok {A E} (r : result A E) : bool :=
  match r with Ok _ => true | Error _ => false end.

(** * Reachability *)

Section Star.
Context {S : Type} (R : S -> S -> Prop).

Inductive star : S -> S -> Prop :=
| star_refl s : star s s
| star_step s t u : R s t -> star t u -> star s u.

Lemma star_trans s t u : star s t -> star t u -> star s u.
Proof. induction 1; eauto using star. Qed.

(** An invariant of every step is an invariant of every run. *)
Lemma star_invariant (P : S -> Prop) :
  (forall s t, P s -> R s t -> P t) -> forall s t, star s t -> P s -> P t.
Proof. intros H s t Hst. induction Hst; eauto. Qed.
End Star.
#[export] Hint Constructors star : core.

(** * Automation *)

Create HintDb fm discriminated.
#[export] Hint Resolve code_bound slen_nonneg dec_nonempty : fm.

(** Splits the [match] and [if] of the goal or of a hypothesis, keeping the
    equations, and discards the impossible branches. *)
Ltac split_match :=
  match goal with
  | H : context [match ?x with _ => _ end] |- _ => destruct x eqn:?
  | |- context [match ?x with _ => _ end] => destruct x eqn:?
  end.
Ltac crush_match := repeat (split_match; simplify_eq/=; try done).

(** Turns boolean byte-string and integer tests into propositions. *)
Ltac bool_prop :=
  repeat match goal with
  | H : (_ == _) = true |- _ => apply beq_eq in H
  | H : (_ == _) = false |- _ => apply beq_neq in H
  | H : _ && _ = true |- _ => apply andb_true_iff in H as [? ?]
  | H : _ || _ = false |- _ => apply orb_false_iff in H as [? ?]
  | H : negb _ = true |- _ => apply negb_true_iff in H
  | H : negb _ = false |- _ => apply negb_false_iff in H
  | H : bool_decide _ = true |- _ => apply bool_decide_eq_true in H
  | H : bool_decide _ = false |- _ => apply bool_decide_eq_false in H
  | H : Ascii.eqb _ _ = true |- _ => apply Ascii.eqb_eq in H
  | H : Ascii.eqb _ _ = false |- _ => apply Ascii.eqb_neq in H
  end.

(** * C strings and byte order *)

(** [s.c_str()] read by a C API: everything before the first NUL. *)
Definition c_str (s : bytes) : bytes :=
  match find_char nul s with Some i => take i s | None => s end.

Lemma c_str_id s : nul ∉ s -> c_str s = s.
Proof. intros H%find_char_None. unfold c_str. by rewrite H. Qed.

Lemma c_str_no_nul s : nul ∉ c_str s.
Proof.
  unfold c_str. destruct (find_char nul s) as [i|] eqn:E.
  - apply find_char_Some in E as (pre & post & -> & <- & H).
    by rewrite take_app_length.
  - by apply find_char_None.
Qed.

Lemma c_str_cons c s : c_str (c :: s) = if Ascii.eqb c nul then [] else c :: c_str s.
Proof. unfold c_str. simpl. destruct (Ascii.eqb c nul); [done|]. by destruct (find_char nul s). Qed.

Lemma c_str_idemp s : c_str (c_str s) = c_str s.
Proof. apply c_str_id, c_str_no_nul. Qed.

(** Byte-wise lexicographic order: [memcmp], [std::string::operator<] and
    SQLite's BINARY collation. *)
Fixpoint bytes_compare (s t : bytes) : comparison :=
  match s, t with
  | [], [] => Eq
  | [], _ :: _ => Lt
  | _ :: _, [] => Gt
  | c :: s', d :: t' =>
      match code c ?= code d with
      | Eq => bytes_compare s' t'
      | o => o
      end
  end.

Definition bytes_le (s t : bytes) : Prop := bytes_compare s t <> Gt.

#[export] Instance bytes_le_dec : RelDecision bytes_le.
Proof. intros s t. unfold bytes_le. apply _. Defined.

Lemma bytes_compare_refl s : bytes_compare s s = Eq.
Proof. induction s as [|c s IH]; simpl; [done|]. by rewrite Z.compare_refl. Qed.

Lemma bytes_compare_eq s t : bytes_compare s t = Eq <-> s = t.
Proof.
  split; [|intros ->; apply bytes_compare_refl]. revert t.
  induction s as [|c s IH]; intros [|d t]; simpl; try done.
  destruct (Z.compare_spec (code c) (code d)) as [H| |]; try done.
  intros Ht%IH. subst. by apply code_inj in H as ->.
Qed.

Lemma bytes_compare_antisym s t : bytes_compare t s = CompOpp (bytes_compare s t).
Proof.
  revert t. induction s as [|c s IH]; intros [|d t]; simpl; try done.
  rewrite (Z.compare_antisym (code c)). destruct (code c ?= code d); simpl; auto.
Qed.

Lemma bytes_compare_trans_le s t u :
  bytes_compare s t <> Gt -> bytes_compare t u <> Gt -> bytes_compare s u <> Gt.
Proof.
  revert t u. induction s as [|c s IH]; intros [|d t] [|e u]; simpl; try done.
  destruct (Z.compare_spec (code c) (code d)), (Z.compare_spec (code d) (code e)),
    (Z.compare_spec (code c) (code e)); try done; try lia. apply IH.
Qed.

#[export] Instance bytes_le_total : Total bytes_le.
Proof.
  intros s t. unfold bytes_le. rewrite (bytes_compare_antisym s t).
  destruct (bytes_compare s t); simpl; [by left|by left|by right].
Qed.

#[export] Instance bytes_le_trans : Transitive bytes_le.
Proof. intros s t u. apply bytes_compare_trans_le. Qed.

#[export] Instance bytes_le_refl : Reflexive bytes_le.
Proof. intros s. unfold bytes_le. by rewrite bytes_compare_refl. Qed.

#[export] Instance bytes_le_antisymm : AntiSymm eq bytes_le.
Proof.
  intros s t. unfold bytes_le. rewrite (bytes_compare_antisym s t).
  destruct (bytes_compare s t) eqn:E; simpl; try done.
  by apply bytes_compare_eq in E.
Qed.
