(* ===== verification/Job.v ===== *)
(** Core job types and the job state machine: src/cpp/src/job.cpp and
    src/cpp/include/filemover/job.hpp.

    [Job] is the struct, [transition] the only mutator of its state.  The file
    proves that the five-state machine is a DAG whose terminal states absorb,
    that the struct invariant documented in job.hpp ([error] non-empty iff
    FAILED, [finished_at_ms] zero until terminal) holds of every job reachable
    from the constructor, and that the state tokens round-trip. *)

From S2P Require Import Prelude.

(** * States *)

Inductive JobState := Queued | Renaming | Transferring | Done | Failed.

#[export] Instance JobState_eq_dec : EqDecision JobState.
Proof. solve_decision. Defined.

Definition to_string (state : JobState) : bytes :=
  match state with
  | Queued => str "QUEUED"
  | Renaming => str "RENAMING"
  | Transferring => str "TRANSFERRING"
  | Done => str "DONE"
  | Failed => str "FAILED"
  end.

Definition from_string (token : bytes) : option JobState :=
  if token == str "QUEUED" then Some Queued
  else if token == str "RENAMING" then Some Renaming
  else if token == str "TRANSFERRING" then Some Transferring
  else if token == str "DONE" then Some Done
  else if token == str "FAILED" then Some Failed
  else None.

Definition is_terminal (state : JobState) : bool :=
  bool_decide (state = Done) || bool_decide (state = Failed).

Definition is_legal_transition (from to : JobState) : bool :=
  match from with
  | Queued => bool_decide (to = Renaming) || bool_decide (to = Failed)
  | Renaming => bool_decide (to = Transferring) || bool_decide (to = Failed)
  | Transferring => bool_decide (to = Done) || bool_decide (to = Failed)
  | Done | Failed => false
  end.

(** * The job record *)

Record Job := mkJob {
  id : bytes;
  source_path : bytes;
  dest_path : bytes;
  state : JobState;
  created_at_ms : Z;
  updated_at_ms : Z;
  finished_at_ms : Z;
  bytes_total : Z;
  bytes_moved : Z;
  error : bytes
}.

#[export] Instance Job_eq_dec : EqDecision Job.
Proof. solve_decision. Defined.

(** [Job::Job]. *)
Definition new_job (job_id source dest : bytes) (now_ms : Z) : Job :=
  {| id := job_id; source_path := source; dest_path := dest;
     state := Queued; created_at_ms := now_ms; updated_at_ms := now_ms;
     finished_at_ms := 0; bytes_total := 0; bytes_moved := 0; error := [] |}.

(** [Job::transition]: the new job, or [None] when the transition is refused
    and the job is left unmodified. *)
Definition transition (job : Job) (to : JobState) (now_ms : Z)
    (error_message : bytes) : option Job :=
  if negb (is_legal_transition (state job) to) then None
  else if bool_decide (to = Failed) && (error_message == []) then None
  else if negb (bool_decide (to = Failed)) && negb (error_message == []) then None
  else Some
    {| id := id job; source_path := source_path job; dest_path := dest_path job;
       state := to;
       created_at_ms := created_at_ms job;
       updated_at_ms := now_ms;
       finished_at_ms := if is_terminal to then now_ms else finished_at_ms job;
       bytes_total := bytes_total job;
       bytes_moved := bytes_moved job;
       error := if bool_decide (to = Failed) then error_message else error job |}.

(** * The machine *)

(** One accepted call of [transition], whatever its arguments. *)
Inductive job_step : Job -> Job -> Prop :=
| job_step_intro j to now msg j' :
    transition j to now msg = Some j' -> job_step j j'.

(** Distance to a terminal state along the success path. *)
Definition rank (s : JobState) : nat :=
  match s with
  | Queued => 3 | Renaming => 2 | Transferring => 1 | Done | Failed => 0
  end.

(** The invariant of the struct as job.hpp states it. *)
Definition job_wf (j : Job) : Prop :=
  (error j <> [] <-> state j = Failed) /\
  (is_terminal (state j) = false -> finished_at_ms j = 0).

(** Forward order of the states. *)
Definition state_le (s t : JobState) : Prop :=
  star (fun a b => is_legal_transition a b = true) s t.

(** * Lemmas *)

Lemma transition_Some j to now msg j' :
  transition j to now msg = Some j' ->
  is_legal_transition (state j) to = true /\
  (to = Failed <-> msg <> []) /\
  j' = mkJob (id j) (source_path j) (dest_path j) to (created_at_ms j) now
         (if is_terminal to then now else finished_at_ms j)
         (bytes_total j) (bytes_moved j)
         (if bool_decide (to = Failed) then msg else error j).
Proof.
  unfold transition. intros H.
  destruct (is_legal_transition (state j) to); simpl in H; [|done].
  destruct (bool_decide (to = Failed)) eqn:Ef, (msg == []) eqn:Em;
    simpl in H; simplify_eq; bool_prop; naive_solver.
Qed.

Lemma legal_rank s t : is_legal_transition s t = true -> (rank t < rank s)%nat.
Proof. destruct s, t; simpl; intros; try done; lia. Qed.

Lemma terminal_no_step s t : is_terminal s = true -> is_legal_transition s t = false.
Proof. by destruct s. Qed.

Lemma new_job_wf i s d now : job_wf (new_job i s d now).
Proof. split; simpl; naive_solver. Qed.

Lemma transition_wf j to now msg j' :
  job_wf j -> transition j to now msg = Some j' -> job_wf j'.
Proof.
  intros [He Hf] (Hl & Hm & ->)%transition_Some.
  assert (is_terminal (state j) = false) as Hnt.
  { destruct (is_terminal (state j)) eqn:E; [|done].
    rewrite (terminal_no_step _ to E) in Hl. done. }
  assert (state j <> Failed) as Hnf by (intros E; by rewrite E in Hnt).
  split; simpl.
  - case_bool_decide; naive_solver.
  - intros ->. by apply Hf.
Qed.

Lemma job_step_identity j j' :
  job_step j j' ->
  id j' = id j /\ source_path j' = source_path j /\ dest_path j' = dest_path j /\
  created_at_ms j' = created_at_ms j.
Proof. by intros [??? ? ? (_ & _ & ->)%transition_Some]. Qed.

Lemma job_step_rank j j' : job_step j j' -> (rank (state j') < rank (state j))%nat.
Proof. intros [??? ? ? (Hl & _ & ->)%transition_Some]. by apply legal_rank. Qed.

Lemma later_rank j j' : star job_step j j' -> (rank (state j') <= rank (state j))%nat.
Proof.
  induction 1 as [|? ? ? Hs _ IH]; [lia|]. apply job_step_rank in Hs. lia.
Qed.

Lemma legal_star_absorb s t : is_terminal s = true -> state_le s t -> t = s.
Proof.
  intros Ht H. destruct H as [|? ? ? H]; [done|].
  by rewrite (terminal_no_step _ _ Ht) in H.
Qed.

#[export] Hint Resolve new_job_wf transition_wf : fm.

Lemma from_to_string token s : from_string token = Some s <-> token = to_string s.
Proof.
  split.
  - unfold from_string. intros H. repeat case_match; simplify_eq; bool_prop; done.
  - intros ->. by destruct s.
Qed.

(** * Properties *)

(** The legal transitions are exactly the six edges the requirement
    lists, and no others: the machine goes Queued, Renaming, Transferring, Done,
    with an edge to Failed from each non-terminal state. *)
Theorem legal_transition_edges from to :
  is_legal_transition from to = true <->
  (from, to) ∈ [(Queued, Renaming); (Renaming, Transferring); (Transferring, Done);
                (Queued, Failed); (Renaming, Failed); (Transferring, Failed)].
Proof.
  destruct from, to; simpl; rewrite ?elem_of_cons, elem_of_nil; naive_solver.
Qed.

(** Every job reachable from the constructor by any sequence of accepted
    transitions satisfies the invariant of the struct: [error] is non-empty
    exactly when the state is FAILED and [finished_at_ms] is zero until a
    terminal state is reached. *)
Theorem reachable_job_wf i s d now j :
  star job_step (new_job i s d now) j -> job_wf j.
Proof.
  intros H. eapply (star_invariant job_step job_wf); [|exact H|apply new_job_wf].
  intros ? ? Hw Hs. inversion Hs; subst. eauto using transition_wf.
Qed.

(** The machine has no infinite run from any job, and the states it stops in
    are the terminal ones: a job accepts no transition at all exactly when its
    state is terminal. *)
Theorem job_runs_terminate j :
  Acc (fun j2 j1 => job_step j1 j2) j /\
  (is_terminal (state j) = true <-> forall to now msg, transition j to now msg = None).
Proof.
  split.
  - remember (rank (state j)) as n eqn:E. revert j E.
    induction n as [n IH] using lt_wf_ind. intros j ->.
    constructor. intros j' Hs. by apply (IH _ (job_step_rank _ _ Hs)).
  - split.
    + intros Ht to now msg. unfold transition. by rewrite (terminal_no_step _ to Ht).
    + intros Hn. specialize (Hn Failed 0 (str "x")). unfold transition in Hn.
      by destruct (state j).
Qed.

(** [from_string] is the exact inverse of [to_string]: it accepts the token
    of every state and nothing else, and the five tokens are distinct. *)
Theorem state_token_roundtrip token s t :
  (from_string token = Some s <-> token = to_string s) /\
  (to_string s = to_string t <-> s = t).
Proof. split; [apply from_to_string|]. split; [by destruct s, t|by intros ->]. Qed.

(** ** Witnesses *)

Lemma reachable_job_wf_witness :
  exists j, star job_step (new_job (str "j") (str "/a") (str "/b") 1) j /\
            state j = Failed /\ job_wf j.
Proof.
  assert (star job_step (new_job (str "j") (str "/a") (str "/b") 1)
            (mkJob (str "j") (str "/a") (str "/b") Failed 1 2 2 0 0 (str "gone"))) as H.
  { econstructor; [|constructor]. apply (job_step_intro _ Failed 2 (str "gone")). reflexivity. }
  eexists. split; [exact H|]. split; [reflexivity|].
  exact (reachable_job_wf _ _ _ _ _ H).
Defined.
