(* ===== verification/Store.v ===== *)
(** The durable job store: src/cpp/src/store.cpp and
    src/cpp/include/filemover/store.hpp.

    The database file is its content ([database]: the rows of the [job] table,
    the counter of [job_sequence], PRAGMA user_version); a [JobStore] is one
    connection to it.  Every SQL statement of store.cpp is the function on
    [database] that the statement denotes; the PRIMARY KEY and the CHECK
    constraints of [kSchemaSql] are evaluated on every INSERT and UPDATE.

    Every SQLite call that can fail consumes one element of [sqlite_faults], the
    schedule of failures the environment chose: [Some msg] makes the call return
    an error whose [sqlite3_errmsg] is [msg] and which has no effect on the file,
    [None] (or an exhausted schedule) lets it run.  The theorems hold for every
    schedule.  Text is bound with [c_str()] and length -1, so a bound string
    ends at its first NUL. *)

From S2P Require Import Prelude Job.

(** * Data *)

Inductive StoreOpenResult := OpenedExisting | CreatedFresh.
Inductive CommitPhase := BeforeCommitPoint | AfterCommitPoint.
Inductive WriteFailureAction := NoAction | AbortJob | HaltProcess.
Inductive WriteFault := NoFault | Refused | Full.

#[export] Instance WriteFailureAction_eq_dec : EqDecision WriteFailureAction.
Proof. solve_decision. Defined.
#[export] Instance CommitPhase_eq_dec : EqDecision CommitPhase.
Proof. solve_decision. Defined.

(** One row of the [job] table of [kSchemaSql]. *)
Record row := mkRow {
  r_id : bytes;
  r_source_path : bytes;
  r_dest_path : bytes;
  r_state : bytes;
  r_created_at_ms : Z;
  r_updated_at_ms : Z;
  r_finished_at_ms : Z;
  r_bytes_total : Z;
  r_bytes_moved : Z;
  r_error : bytes;
  r_needs_attention : Z;
  r_attention_reason : bytes;
  r_attempts : Z;
  r_next_retry_ms : Z;
  r_last_error : bytes;
  r_retry_of : bytes
}.

Record database := mkDatabase {
  job_table : gmap bytes row;
  sequence_next : Z;
  user_version : Z
}.

Record JobStore := mkStore {
  is_open : bool;
  query_only : bool;
  max_page_count : Z;
  db : database;
  sqlite_faults : list (option bytes)
}.

Record RetryState := mkRetryState {
  attempts : Z;
  next_retry_ms : Z;
  last_error : bytes;
  retry_of : bytes
}.

Definition kSchemaVersion : Z := 1.

Definition set_db (d : database) (s : JobStore) : JobStore :=
  mkStore (is_open s) (query_only s) (max_page_count s) d (sqlite_faults s).
Definition set_table (t : gmap bytes row) (d : database) : database :=
  mkDatabase t (sequence_next d) (user_version d).

(** The CHECK constraints of the [job] table, with the text SQLite reports. *)
Definition check_row (r : row) : option bytes :=
  match from_string (r_state r) with
  | None => Some (str "CHECK constraint failed: state IN ('QUEUED','RENAMING','TRANSFERRING','DONE','FAILED')")
  | Some _ =>
      if negb (Bool.eqb (0 <? slen (r_error r)) (r_state r == str "FAILED"))
      then Some (str "CHECK constraint failed: (length(error) > 0) = (state = 'FAILED')")
      else if negb ((r_needs_attention r =? 0) || (r_needs_attention r =? 1))
      then Some (str "CHECK constraint failed: needs_attention IN (0,1)")
      else None
  end.

(** * The SQLite calls *)

(** One fallible call: the environment decides whether it fails. *)
Definition sqlite_call (s : JobStore) : option bytes * JobStore :=
  match sqlite_faults s with
  | [] => (None, s)
  | f :: fs =>
      (f, mkStore (is_open s) (query_only s) (max_page_count s) (db s) fs)
  end.

(** [fail(db, what)]: the message of the last error appended to [what]. *)
Definition fail (what errmsg : bytes) : bytes :=
  str "store: " ++ what ++ str ": " ++ errmsg.

Definition readonly_errmsg : bytes := str "attempt to write a readonly database".

Definition not_open : bytes := str "store: not open".

(** prepare + step of a SELECT: [prep] and [what] label the two failures. *)
Definition sql_read {A} (prep what : bytes) (q : database -> A) (s : JobStore)
    : result A bytes * JobStore :=
  let '(f1, s1) := sqlite_call s in
  match f1 with
  | Some m => (Error (fail prep m), s1)
  | None =>
      let '(f2, s2) := sqlite_call s1 in
      match f2 with
      | Some m => (Error (fail what m), s2)
      | None => (Ok (q (db s2)), s2)
      end
  end.

(** prepare + step of a data-changing statement.  [stmt] yields the new content
    and [sqlite3_changes], or the message of a violated constraint. *)
Definition sql_write (prep what : bytes)
    (stmt : database -> result (database * Z) bytes) (s : JobStore)
    : result Z bytes * JobStore :=
  let '(f1, s1) := sqlite_call s in
  match f1 with
  | Some m => (Error (fail prep m), s1)
  | None =>
      let '(f2, s2) := sqlite_call s1 in
      match f2 with
      | Some m => (Error (fail what m), s2)
      | None =>
          if query_only s2 then (Error (fail what readonly_errmsg), s2)
          else match stmt (db s2) with
               | Error m => (Error (fail what m), s2)
               | Ok (d, n) => (Ok n, set_db d s2)
               end
      end
  end.

(** [exec]: one sqlite3_exec of a statement that does not touch the content;
    [writes] tells whether it needs the write lock, which query_only refuses. *)
Definition exec (writes : bool) (what : bytes) (s : JobStore)
    : result unit bytes * JobStore :=
  let '(f, s1) := sqlite_call s in
  match f with
  | Some m => (Error (fail what m), s1)
  | None => if writes && query_only s1 then (Error (fail what readonly_errmsg), s1)
            else (Ok tt, s1)
  end.

Definition rollback_quietly (s : JobStore) : JobStore :=
  snd (exec false (str "rolling back") s).

(** UPDATE job SET ... WHERE id = ?. *)
Definition update_where (key : bytes) (f : row -> row) (d : database)
    : result (database * Z) bytes :=
  match job_table d !! key with
  | None => Ok (d, 0)
  | Some r =>
      match check_row (f r) with
      | Some m => Error m
      | None => Ok (set_table (<[key := f r]> (job_table d)) d, 1)
      end
  end.

(** INSERT INTO job: the CHECKs, then the uniqueness of the primary key. *)
Definition insert_row (r : row) (d : database) : result (database * Z) bytes :=
  match check_row r with
  | Some m => Error m
  | None =>
      match job_table d !! r_id r with
      | Some _ => Error (str "UNIQUE constraint failed: job.id")
      | None => Ok (set_table (<[r_id r := r]> (job_table d)) d, 1)
      end
  end.

(** * Operations of JobStore *)

(** The columns an INSERT of record_intent writes; the others take their
    DEFAULT.  [bytes_total] and [bytes_moved] are cast to sqlite3_int64. *)
Definition row_of_job (job : Job) (retry : bytes) : row :=
  {| r_id := c_str (id job);
     r_source_path := c_str (source_path job);
     r_dest_path := c_str (dest_path job);
     r_state := to_string (state job);
     r_created_at_ms := created_at_ms job;
     r_updated_at_ms := updated_at_ms job;
     r_finished_at_ms := finished_at_ms job;
     r_bytes_total := wrap_i64 (bytes_total job);
     r_bytes_moved := wrap_i64 (bytes_moved job);
     r_error := c_str (error job);
     r_needs_attention := 0; r_attention_reason := [];
     r_attempts := 0; r_next_retry_ms := 0; r_last_error := [];
     r_retry_of := c_str retry |}.

Definition record_intent_retry (job : Job) (retry : bytes) (s : JobStore)
    : result unit bytes * JobStore :=
  if negb (is_open s) then (Error not_open, s)
  else
    let '(r, s1) :=
      sql_write (str "preparing record_intent")
        (str "recording intent for job '" ++ id job ++ str "'")
        (insert_row (row_of_job job retry)) s in
    match r with
    | Error e => (Error e, s1)
    | Ok _ => (Ok tt, s1)
    end.

Definition record_intent (job : Job) (s : JobStore) : result unit bytes * JobStore :=
  record_intent_retry job [] s.

(** Decoding of the ten columns a SELECT of a job returns. *)
Definition job_of_row (label : bytes) (r : row) : result Job bytes :=
  match from_string (r_state r) with
  | None => Error (str "store: job '" ++ label ++ str "' has unrecognised state '"
                   ++ r_state r ++ str "'")
  | Some st =>
      Ok {| id := r_id r; source_path := r_source_path r;
            dest_path := r_dest_path r; state := st;
            created_at_ms := r_created_at_ms r;
            updated_at_ms := r_updated_at_ms r;
            finished_at_ms := r_finished_at_ms r;
            bytes_total := wrap_u64 (r_bytes_total r);
            bytes_moved := wrap_u64 (r_bytes_moved r);
            error := r_error r |}
  end.

(** [load]: [Ok None] is "no such job" ([found] stays false). *)
Definition load (key : bytes) (s : JobStore) : result (option Job) bytes * JobStore :=
  if negb (is_open s) then (Error not_open, s)
  else
    let '(r, s1) :=
      sql_read (str "preparing load") (str "loading job '" ++ key ++ str "'")
        (fun d => job_table d !! c_str key) s in
    match r with
    | Error e => (Error e, s1)
    | Ok None => (Ok None, s1)
    | Ok (Some r) =>
        match job_of_row key r with
        | Error e => (Error e, s1)
        | Ok j => (Ok (Some j), s1)
        end
    end.

Definition illegal_transition_message (key : bytes) (from to : JobState)
    (error_message : bytes) : bytes :=
  str "store: illegal transition for job '" ++ key ++ str "': "
  ++ to_string from ++ str " -> " ++ to_string to
  ++ (if bool_decide (to = Failed) && (error_message == [])
      then str " (a transition to FAILED requires an error message)"
      else if negb (bool_decide (to = Failed)) && negb (error_message == [])
      then str " (an error message is only valid for FAILED)"
      else []).

Definition set_state_columns (j : Job) (r : row) : row :=
  {| r_id := r_id r; r_source_path := r_source_path r; r_dest_path := r_dest_path r;
     r_state := to_string (state j);
     r_created_at_ms := r_created_at_ms r;
     r_updated_at_ms := updated_at_ms j;
     r_finished_at_ms := finished_at_ms j;
     r_bytes_total := r_bytes_total r; r_bytes_moved := r_bytes_moved r;
     r_error := c_str (error j);
     r_needs_attention := r_needs_attention r;
     r_attention_reason := r_attention_reason r;
     r_attempts := r_attempts r; r_next_retry_ms := r_next_retry_ms r;
     r_last_error := r_last_error r; r_retry_of := r_retry_of r |}.

Definition update_state (key : bytes) (to : JobState) (now_ms : Z)
    (error_message : bytes) (s : JobStore) : result unit bytes * JobStore :=
  if negb (is_open s) then (Error not_open, s)
  else
    let '(r, s1) := load key s in
    match r with
    | Error e => (Error e, s1)
    | Ok None => (Error (str "store: no such job '" ++ key ++ str "'"), s1)
    | Ok (Some job) =>
        match transition job to now_ms error_message with
        | None =>
            (Error (illegal_transition_message key (state job) to error_message), s1)
        | Some job' =>
            let '(w, s2) :=
              sql_write (str "preparing update_state")
                (str "updating job '" ++ key ++ str "'")
                (update_where (c_str key) (set_state_columns job')) s1 in
            match w with
            | Error e => (Error e, s2)
            | Ok _ => (Ok tt, s2)
            end
        end
    end.

(** [record_transition]: the action, and the error on a failure. *)
Definition record_transition (key : bytes) (to : JobState) (now_ms : Z)
    (error_message : bytes) (phase : CommitPhase) (s : JobStore)
    : WriteFailureAction * bytes * JobStore :=
  let '(r, s1) := update_state key to now_ms error_message s in
  match r with
  | Ok _ => (NoAction, [], s1)
  | Error e =>
      match phase with
      | BeforeCommitPoint =>
          (AbortJob,
           e ++ str " [before the commit point: aborting the job. Nothing has happened and the source is untouched.]",
           s1)
      | AfterCommitPoint =>
          (HaltProcess,
           e ++ str " [AFTER the commit point: halting. The move is real but unrecorded. The source must NOT be deleted and this needs an operator.]",
           s1)
      end
  end.

Definition set_attention (reason : bytes) (r : row) : row :=
  {| r_id := r_id r; r_source_path := r_source_path r; r_dest_path := r_dest_path r;
     r_state := r_state r; r_created_at_ms := r_created_at_ms r;
     r_updated_at_ms := r_updated_at_ms r; r_finished_at_ms := r_finished_at_ms r;
     r_bytes_total := r_bytes_total r; r_bytes_moved := r_bytes_moved r;
     r_error := r_error r;
     r_needs_attention := 1; r_attention_reason := c_str reason;
     r_attempts := r_attempts r; r_next_retry_ms := r_next_retry_ms r;
     r_last_error := r_last_error r; r_retry_of := r_retry_of r |}.

(** Shared tail of the UPDATEs that check sqlite3_changes. *)
Definition require_changed (key : bytes) (ws : result Z bytes * JobStore)
    : result unit bytes * JobStore :=
  let '(w, s) := ws in
  match w with
  | Error e => (Error e, s)
  | Ok n => if n =? 0 then (Error (str "store: no such job '" ++ key ++ str "'"), s)
            else (Ok tt, s)
  end.

Definition mark_needs_attention (key reason : bytes) (s : JobStore)
    : result unit bytes * JobStore :=
  if negb (is_open s) then (Error not_open, s)
  else if reason == [] then
    (Error (str "store: mark_needs_attention requires a reason"), s)
  else
    require_changed key
      (sql_write (str "preparing mark_needs_attention")
         (str "flagging job '" ++ key ++ str "'")
         (update_where (c_str key) (set_attention reason)) s).

Definition bump_attempts (next_retry : Z) (reason : bytes) (r : row) : row :=
  {| r_id := r_id r; r_source_path := r_source_path r; r_dest_path := r_dest_path r;
     r_state := r_state r; r_created_at_ms := r_created_at_ms r;
     r_updated_at_ms := r_updated_at_ms r; r_finished_at_ms := r_finished_at_ms r;
     r_bytes_total := r_bytes_total r; r_bytes_moved := r_bytes_moved r;
     r_error := r_error r; r_needs_attention := r_needs_attention r;
     r_attention_reason := r_attention_reason r;
     r_attempts := r_attempts r + 1; r_next_retry_ms := next_retry;
     r_last_error := c_str reason; r_retry_of := r_retry_of r |}.

Definition record_attempt (key : bytes) (next_retry : Z) (reason : bytes)
    (s : JobStore) : result unit bytes * JobStore :=
  if negb (is_open s) then (Error not_open, s)
  else
    require_changed key
      (sql_write (str "preparing record_attempt")
         (str "recording attempt for job '" ++ key ++ str "'")
         (update_where (c_str key) (bump_attempts next_retry reason)) s).

Definition load_retry_state (key : bytes) (s : JobStore)
    : result (option RetryState) bytes * JobStore :=
  if negb (is_open s) then (Error not_open, s)
  else
    let '(r, s1) :=
      sql_read (str "preparing load_retry_state")
        (str "loading retry state for '" ++ key ++ str "'")
        (fun d => job_table d !! c_str key) s in
    match r with
    | Error e => (Error e, s1)
    | Ok None => (Ok None, s1)
    | Ok (Some r) =>
        (Ok (Some (mkRetryState (wrap_i32 (r_attempts r)) (r_next_retry_ms r)
                     (r_last_error r) (r_retry_of r))), s1)
    end.

(** PRAGMA user_version through [query_int]. *)
Definition schema_version (s : JobStore) : result Z bytes * JobStore :=
  if negb (is_open s) then (Error not_open, s)
  else
    sql_read (str "preparing 'PRAGMA user_version;'")
      (str "no result from 'PRAGMA user_version;'")
      (fun d => wrap_i32 (user_version d)) s.

(** ** Queries that return several rows *)

(** ORDER BY clauses: [created_at_ms, id] and [next_retry_ms, created_at_ms, id],
    text compared with the BINARY collation. *)
Definition order_created (a b : row) : Prop :=
  r_created_at_ms a < r_created_at_ms b \/
  (r_created_at_ms a = r_created_at_ms b /\ bytes_le (r_id a) (r_id b)).
Definition order_due (a b : row) : Prop :=
  r_next_retry_ms a < r_next_retry_ms b \/
  (r_next_retry_ms a = r_next_retry_ms b /\ order_created a b).

#[export] Instance order_created_dec : RelDecision order_created.
Proof. intros a b. unfold order_created. apply _. Defined.
#[export] Instance order_due_dec : RelDecision order_due.
Proof. intros a b. unfold order_due. apply _. Defined.

Definition rows (d : database) : list row := (map_to_list (job_table d)).*2.

(** The sqlite3_step loop: one call per row and one for SQLITE_DONE. *)
Fixpoint step_loop {A} (what : bytes) (each : A -> row -> result A bytes)
    (rs : list row) (acc : A) (s : JobStore) : result A bytes * JobStore :=
  let '(f, s1) := sqlite_call s in
  match f with
  | Some m => (Error (fail what m), s1)
  | None =>
      match rs with
      | [] => (Ok acc, s1)
      | r :: rs' =>
          match each acc r with
          | Error e => (Error e, s1)
          | Ok acc' => step_loop what each rs' acc' s1
          end
      end
  end.

(** prepare, then the loop over the rows the statement selects. *)
Definition sql_select {A} (prep what : bytes) (q : database -> list row)
    (each : A -> row -> result A bytes) (init : A) (s : JobStore)
    : result A bytes * JobStore :=
  let '(f, s1) := sqlite_call s in
  match f with
  | Some m => (Error (fail prep m), s1)
  | None => step_loop what each (q (db s1)) init s1
  end.

Definition push_job (acc : list Job) (r : row) : result (list Job) bytes :=
  match job_of_row (r_id r) r with
  | Error e => Error e
  | Ok j => Ok (acc ++ [j])
  end.

Definition list_by_state (st : JobState) (s : JobStore)
    : result (list Job) bytes * JobStore :=
  if negb (is_open s) then (Error not_open, s)
  else
    sql_select (str "preparing list_by_state") (str "listing jobs")
      (fun d => merge_sort order_created
                  (filter (fun r => r_state r = to_string st) (rows d)))
      push_job [] s.

Definition due_jobs (now_ms : Z) (s : JobStore) : result (list bytes) bytes * JobStore :=
  if negb (is_open s) then (Error not_open, s)
  else
    sql_select (str "preparing due_jobs") (str "listing due jobs")
      (fun d => merge_sort order_due
                  (filter (fun r => r_state r = str "QUEUED" /\ r_next_retry_ms r <= now_ms)
                     (rows d)))
      (fun acc r => Ok (acc ++ [r_id r])) [] s.

(** [std::map<JobState, uint64_t>] with every state seeded to zero. *)
Definition zero_counts : JobState -> Z := fun _ => 0.
Definition set_count (st : JobState) (n : Z) (m : JobState -> Z) : JobState -> Z :=
  fun x => if bool_decide (x = st) then n else m x.

(** SELECT state, COUNT of rows GROUP BY state: one result row per distinct
    token, represented by a row carrying it and the number of rows that do. *)
Definition group_rows (d : database) : list row :=
  let fix go (seen : list bytes) (rs : list row) : list row :=
    match rs with
    | [] => []
    | r :: rs' => if bool_decide (r_state r ∈ seen) then go seen rs'
                  else r :: go (r_state r :: seen) rs'
    end in
  go [] (rows d).
Definition count_token (token : bytes) (d : database) : Z :=
  Z.of_nat (length (filter (fun r => r_state r = token) (rows d))).

Definition counts_by_state (s : JobStore) : result (JobState -> Z) bytes * JobStore :=
  if negb (is_open s) then (Error not_open, s)
  else
    let d := db s in
    sql_select (str "preparing counts_by_state") (str "counting jobs")
      group_rows
      (fun acc r =>
         match from_string (r_state r) with
         | None => Error (str "store: unrecognised state '" ++ r_state r
                          ++ str "' in job table")
         | Some st => Ok (set_count st (wrap_u64 (count_token (r_state r) d)) acc)
         end)
      zero_counts s.

(** ** The durable sequence *)

(** BEGIN IMMEDIATE; UPDATE; SELECT; COMMIT.  The bumped content becomes the
    content of the file only when the COMMIT succeeds. *)
Definition next_sequence (s : JobStore) : result Z bytes * JobStore :=
  if negb (is_open s) then (Error not_open, s)
  else
    let '(r1, s1) := exec true (str "beginning sequence bump") s in
    match r1 with
    | Error e => (Error e, s1)
    | Ok _ =>
    let '(r2, s2) := exec true (str "bumping sequence") s1 in
    match r2 with
    | Error e => (Error e, rollback_quietly s2)
    | Ok _ =>
    let bumped := mkDatabase (job_table (db s2)) (sequence_next (db s2) + 1)
                    (user_version (db s2)) in
    let '(r3, s3) :=
      sql_read (str "preparing 'SELECT next FROM job_sequence WHERE id = 1;'")
        (str "no result from 'SELECT next FROM job_sequence WHERE id = 1;'")
        (fun _ => wrap_i32 (sequence_next bumped)) s2 in
    match r3 with
    | Error e => (Error e, rollback_quietly s3)
    | Ok value =>
    let '(r4, s4) := exec false (str "committing sequence bump") s3 in
    match r4 with
    | Error e => (Error e, rollback_quietly s4)
    | Ok _ => (Ok (wrap_u64 value), set_db bumped s4)
    end end end end.

(** ** Fault injection *)

(** [pages] is the answer to PRAGMA page_count. *)
Definition inject_write_fault (fault : WriteFault) (pages : Z) (s : JobStore)
    : result unit bytes * JobStore :=
  if negb (is_open s) then (Error not_open, s)
  else
    match fault with
    | NoFault =>
        let '(r1, s1) := exec false (str "clearing query_only") s in
        match r1 with
        | Error e => (Error e, s1)
        | Ok _ =>
            let s1 := mkStore (is_open s1) false (max_page_count s1) (db s1)
                        (sqlite_faults s1) in
            let '(r2, s2) := exec false (str "clearing the page limit") s1 in
            match r2 with
            | Error e => (Error e, s2)
            | Ok _ => (Ok tt, mkStore (is_open s2) (query_only s2) 1073741823 (db s2)
                                (sqlite_faults s2))
            end
        end
    | Refused =>
        let '(r1, s1) := exec false (str "arming a write refusal") s in
        match r1 with
        | Error e => (Error e, s1)
        | Ok _ => (Ok tt, mkStore (is_open s1) true (max_page_count s1) (db s1)
                            (sqlite_faults s1))
        end
    | Full =>
        let '(r0, s0) :=
          sql_read (str "preparing 'PRAGMA page_count;'")
            (str "no result from 'PRAGMA page_count;'") (fun _ => pages) s in
        match r0 with
        | Error e => (Error e, s0)
        | Ok p =>
            let '(r1, s1) := exec false (str "arming a full store") s0 in
            match r1 with
            | Error e => (Error e, s1)
            | Ok _ => (Ok tt, mkStore (is_open s1) (query_only s1) p (db s1)
                                (sqlite_faults s1))
            end
        end
    end.

(** ** Opening and closing *)

(** What the environment answers while a file is opened: whether [stat] found
    it, whether sqlite3_open_v2 failed, and what the PRAGMAs read back. *)
Record open_answers := mkAnswers {
  existed : bool;
  open_error : option bytes;
  integrity_verdict : bytes;
  journal_mode : bytes;
  synchronous : Z;
  foreign_keys : Z;
  file_content : database
}.

Definition close (s : JobStore) : JobStore :=
  mkStore false (query_only s) (max_page_count s) (db s) (sqlite_faults s).

Definition pragma (sql : bytes) : bytes * bytes :=
  (str "preparing '" ++ sql ++ str "'", str "no result from '" ++ sql ++ str "'").
Definition query {A} (sql : bytes) (v : A) (s : JobStore) : result A bytes * JobStore :=
  sql_read (fst (pragma sql)) (snd (pragma sql)) (fun _ => v) s.

(** L2-JOB-012: the integrity check of a file that was already there. *)
Definition check_integrity (path : bytes) (a : open_answers) (s : JobStore)
    : result unit bytes * JobStore :=
  if negb (existed a) then (Ok tt, s)
  else
    let '(r, s1) := query (str "PRAGMA integrity_check;") (integrity_verdict a) s in
    match r with
    | Error e =>
        (Error (str "store: '" ++ path
                ++ str "' is present but unreadable as a database (" ++ e
                ++ str "). Refusing to start: continuing would discard the record of jobs whose source files may still exist."), s1)
    | Ok v =>
        if v == str "ok" then (Ok tt, s1)
        else (Error (str "store: '" ++ path ++ str "' is corrupt: " ++ v
                     ++ str ". Refusing to start: corruption is never silently skipped or partially recovered."), s1)
    end.

(** L2-JOB-002: set the three PRAGMAs, then read each one back. *)
Definition apply_pragmas (a : open_answers) (s : JobStore)
    : result unit bytes * JobStore :=
  let '(r1, s1) := exec false (str "enabling foreign keys") s in
  match r1 with Error e => (Error e, s1) | Ok _ =>
  let '(r2, s2) := exec false (str "enabling WAL") s1 in
  match r2 with Error e => (Error e, s2) | Ok _ =>
  let '(r3, s3) := exec false (str "setting synchronous=FULL") s2 in
  match r3 with Error e => (Error e, s3) | Ok _ =>
  let '(r4, s4) := query (str "PRAGMA journal_mode;") (journal_mode a) s3 in
  match r4 with Error e => (Error e, s4) | Ok jm =>
  if negb (jm == str "wal") then
    (Error (str "store: journal_mode is '" ++ jm ++ str "', expected 'wal' (ADR-0010)"), s4)
  else
  let '(r5, s5) := query (str "PRAGMA synchronous;") (synchronous a) s4 in
  match r5 with Error e => (Error e, s5) | Ok sy =>
  if negb (sy =? 2) then
    (Error (str "store: synchronous is " ++ dec_signed sy
            ++ str ", expected 2 (FULL) (ADR-0010)"), s5)
  else
  let '(r6, s6) := query (str "PRAGMA foreign_keys;") (foreign_keys a) s5 in
  match r6 with Error e => (Error e, s6) | Ok fk =>
  if negb (fk =? 1) then
    (Error (str "store: foreign_keys did not take effect"), s6)
  else (Ok tt, s6)
  end end end end end end.

(** L2-JOB-004: refuse a foreign schema version, create the schema of an empty
    file in one transaction. *)
Definition ensure_schema (s : JobStore) : result unit bytes * JobStore :=
  let '(r1, s1) := query (str "PRAGMA user_version;") (wrap_i32 (user_version (db s))) s in
  match r1 with
  | Error e => (Error e, s1)
  | Ok version =>
      if negb (version =? 0) && negb (version =? kSchemaVersion) then
        (Error (str "store: database schema version " ++ dec_signed version
                ++ str " does not match this build's version " ++ dec kSchemaVersion
                ++ str ". This is a pre-v1.0.0 build and carries no migration path: delete the database file and restart. Refusing to open it rather than misread it."), s1)
      else if version =? 0 then
        let '(b, s2) := exec true (str "beginning schema creation") s1 in
        match b with Error e => (Error e, rollback_quietly s2) | Ok _ =>
        let '(c, s3) := exec true (str "applying schema") s2 in
        match c with Error e => (Error e, rollback_quietly s3) | Ok _ =>
        let '(v, s4) := exec true (str "recording schema version") s3 in
        match v with Error e => (Error e, rollback_quietly s4) | Ok _ =>
        let '(k, s5) := exec false (str "committing schema creation") s4 in
        match k with Error e => (Error e, rollback_quietly s5) | Ok _ =>
          (Ok tt, set_db (mkDatabase (job_table (db s5)) (sequence_next (db s5))
                            kSchemaVersion) s5)
        end end end end
      else (Ok tt, s1)
  end.

Definition open (path : bytes) (a : open_answers) (s : JobStore)
    : result StoreOpenResult bytes * JobStore :=
  let s0 := close s in
  match open_error a with
  | Some m => (Error (str "store: cannot open '" ++ path ++ str "': " ++ m), s0)
  | None =>
      (* a new connection: no injected fault survives, and it sees the file *)
      let s1 := mkStore false false 1073741823 (file_content a) (sqlite_faults s0) in
      let '(i, s2) := check_integrity path a s1 in
      match i with Error e => (Error e, s2) | Ok _ =>
      let '(p, s3) := apply_pragmas a s2 in
      match p with Error e => (Error e, s3) | Ok _ =>
      let '(v, s4) := ensure_schema s3 in
      match v with Error e => (Error e, s4) | Ok _ =>
        (Ok (if existed a then OpenedExisting else CreatedFresh),
         mkStore true (query_only s4) (max_page_count s4) (db s4) (sqlite_faults s4))
      end end end
  end.

(** * Abstract specification

    What the rest of the program may assume of the store: a finite map from job
    ids to jobs in which a fresh id can be inserted and a present job can take
    one step of the core state machine.  Nothing is ever deleted. *)

Definition decode (r : row) : option Job :=
  match job_of_row [] r with Ok j => Some j | Error _ => None end.
Definition view (d : database) : gmap bytes Job := omap decode (job_table d).

Inductive spec_step : gmap bytes Job -> gmap bytes Job -> Prop :=
| spec_stutter m : spec_step m m
| spec_insert m k j :
    m !! k = None -> id j = k -> (error j <> [] <-> state j = Failed) ->
    spec_step m (<[k := j]> m)
| spec_transition m k j j' :
    m !! k = Some j -> job_step j j' -> spec_step m (<[k := j']> m).

(** Every operation of the class that reaches the database. *)
Inductive store_op :=
| OpRecordIntent (j : Job) (retry : bytes)
| OpUpdateState (key : bytes) (to : JobState) (now : Z) (msg : bytes)
| OpRecordTransition (key : bytes) (to : JobState) (now : Z) (msg : bytes) (ph : CommitPhase)
| OpMarkAttention (key reason : bytes)
| OpRecordAttempt (key : bytes) (next : Z) (reason : bytes)
| OpLoad (key : bytes)
| OpLoadRetry (key : bytes)
| OpListByState (st : JobState)
| OpDueJobs (now : Z)
| OpCounts
| OpNextSequence
| OpSchemaVersion
| OpInject (f : WriteFault) (pages : Z)
| OpClose.

Definition run_op (o : store_op) (s : JobStore) : JobStore :=
  match o with
  | OpRecordIntent j retry => snd (record_intent_retry j retry s)
  | OpUpdateState k to now msg => snd (update_state k to now msg s)
  | OpRecordTransition k to now msg ph => snd (record_transition k to now msg ph s)
  | OpMarkAttention k reason => snd (mark_needs_attention k reason s)
  | OpRecordAttempt k next reason => snd (record_attempt k next reason s)
  | OpLoad k => snd (load k s)
  | OpLoadRetry k => snd (load_retry_state k s)
  | OpListByState st => snd (list_by_state st s)
  | OpDueJobs now => snd (due_jobs now s)
  | OpCounts => snd (counts_by_state s)
  | OpNextSequence => snd (next_sequence s)
  | OpSchemaVersion => snd (schema_version s)
  | OpInject f pages => snd (inject_write_fault f pages s)
  | OpClose => close s
  end.

Definition run_ops (os : list store_op) (s : JobStore) : JobStore :=
  fold_left (fun s o => run_op o s) os s.

(** Well-formed content: what the schema enforces of every stored row. *)
Definition table_wf (t : gmap bytes row) : Prop :=
  forall k r, t !! k = Some r ->
    r_id r = k /\ nul ∉ k /\ nul ∉ r_error r /\ check_row r = None.
Definition db_wf (d : database) : Prop := table_wf (job_table d).

(** * Lemmas *)

(** What a call that only reads leaves alone. *)
Definition same_file (s s' : JobStore) : Prop :=
  db s' = db s /\ is_open s' = is_open s /\ query_only s' = query_only s.

Lemma same_file_refl s : same_file s s.
Proof. done. Qed.
Lemma same_file_trans s1 s2 s3 : same_file s1 s2 -> same_file s2 s3 -> same_file s1 s3.
Proof. unfold same_file. intuition congruence. Qed.
#[export] Hint Resolve same_file_refl : fm.

Lemma sqlite_call_same s f s' : sqlite_call s = (f, s') -> same_file s s'.
Proof. unfold sqlite_call. destruct (sqlite_faults s); intros [= <- <-]; done. Qed.

Lemma fail_nonempty what m : fail what m <> [].
Proof. done. Qed.

Lemma sql_read_spec {A} prep what (q : database -> A) s r s' :
  sql_read prep what q s = (r, s') ->
  same_file s s' /\ match r with Ok v => v = q (db s) | Error e => e <> [] end.
Proof.
  unfold sql_read. destruct (sqlite_call s) as [f1 s1] eqn:E1.
  apply sqlite_call_same in E1. destruct f1; [intros [= <- <-]; done|].
  destruct (sqlite_call s1) as [f2 s2] eqn:E2. apply sqlite_call_same in E2.
  pose proof (same_file_trans _ _ _ E1 E2) as E.
  destruct f2; intros [= <- <-]; [done|]. split; [done|]. by destruct E as [-> _].
Qed.

Lemma exec_spec w what s r s' :
  exec w what s = (r, s') ->
  same_file s s' /\ match r with Ok _ => w && query_only s = false | Error e => e <> [] end.
Proof.
  unfold exec. destruct (sqlite_call s) as [f1 s1] eqn:E1.
  apply sqlite_call_same in E1 as (Hd & Ho & Hq).
  destruct f1; [intros [= <- <-]; done|]. rewrite Hq.
  destruct (w && query_only s); intros [= <- <-]; done.
Qed.

Lemma rollback_same s : same_file s (rollback_quietly s).
Proof.
  unfold rollback_quietly. destruct (exec false _ s) as [r s'] eqn:E.
  by apply exec_spec in E as [E _].
Qed.

Lemma sql_write_spec prep what stmt s r s' :
  sql_write prep what stmt s = (r, s') ->
  is_open s' = is_open s /\
  match r with
  | Ok n => stmt (db s) = Ok (db s', n) /\ query_only s = false
  | Error e => db s' = db s /\ e <> []
  end.
Proof.
  unfold sql_write. destruct (sqlite_call s) as [f1 s1] eqn:E1.
  apply sqlite_call_same in E1. destruct f1; [intros [= <- <-]; by destruct E1 as (?&?&?)|].
  destruct (sqlite_call s1) as [f2 s2] eqn:E2. apply sqlite_call_same in E2.
  destruct (same_file_trans _ _ _ E1 E2) as (Hd & Ho & Hq).
  destruct f2; [intros [= <- <-]; done|]. rewrite Hq, Hd.
  destruct (query_only s); [intros [= <- <-]; done|].
  destruct (stmt (db s)) as [[d n]|m]; intros [= <- <-]; done.
Qed.

Lemma step_loop_spec {A} what each rs (acc : A) s r s' :
  step_loop what each rs acc s = (r, s') ->
  same_file s s' /\
  match r with
  | Ok v => foldl (fun a x => match a with Ok a => each a x | Error e => Error e end)
              (Ok acc) rs = Ok v
  | Error _ => True
  end.
Proof.
  revert acc s r s'. induction rs as [|x rs IH]; intros acc s r s'; simpl;
    destruct (sqlite_call s) as [f s1] eqn:E; apply sqlite_call_same in E;
    destruct f; try (intros [= <- <-]; done).
  destruct (each acc x) as [acc'|e] eqn:Ee; [|intros [= <- <-]; done].
  intros [H1 H2]%IH. split; [by eapply same_file_trans|done].
Qed.

Lemma sql_select_spec {A} prep what q each (init : A) s r s' :
  sql_select prep what q each init s = (r, s') ->
  same_file s s' /\
  match r with
  | Ok v => foldl (fun a x => match a with Ok a => each a x | Error e => Error e end)
              (Ok init) (q (db s)) = Ok v
  | Error _ => True
  end.
Proof.
  unfold sql_select. destruct (sqlite_call s) as [f s1] eqn:E.
  apply sqlite_call_same in E. destruct f; [intros [= <- <-]; done|].
  intros [H1 H2]%step_loop_spec. split; [by eapply same_file_trans|].
  destruct E as [Hd _]. by rewrite Hd in H2.
Qed.

(** ** Rows and jobs *)

Lemma slen_pos (s : bytes) : (0 <? slen s) = negb (s == []).
Proof.
  destruct s as [|c s]; [done|]. unfold slen, beq.
  rewrite bool_decide_eq_false_2 by done. apply Z.ltb_lt. cbn [length]. lia.
Qed.

Lemma check_row_None r :
  check_row r = None <->
  exists st, r_state r = to_string st /\ (r_error r <> [] <-> st = Failed) /\
             (r_needs_attention r = 0 \/ r_needs_attention r = 1).
Proof.
  unfold check_row. rewrite slen_pos.
  destruct (from_string (r_state r)) as [st|] eqn:E.
  - apply from_to_string in E. rewrite E.
    assert (to_string st == str "FAILED" = bool_decide (st = Failed)) as ->
      by (by destruct st).
    split.
    + intros H. exists st. destruct (r_error r == []) eqn:Ee, (bool_decide (st = Failed)) eqn:Es;
        simpl in H; try done; bool_prop;
        (destruct (_ || _) eqn:En in H; [|done]); split_and!; try done; try naive_solver; lia.
    + intros (st' & Hst & He & Hn).
      assert (st' = st) as -> by (by destruct st, st').
      destruct (r_error r == []) eqn:Ee, (bool_decide (st = Failed)) eqn:Es;
        bool_prop; simpl; try tauto.
      all: by destruct Hn as [-> | ->].
  - split; [done|]. intros (st & Hst & _).
    rewrite Hst, (proj2 (from_to_string _ st) eq_refl) in E. done.
Qed.

Lemma decode_Some r j :
  decode r = Some j <->
  r_state r = to_string (state j) /\
  j = mkJob (r_id r) (r_source_path r) (r_dest_path r) (state j)
        (r_created_at_ms r) (r_updated_at_ms r) (r_finished_at_ms r)
        (wrap_u64 (r_bytes_total r)) (wrap_u64 (r_bytes_moved r)) (r_error r).
Proof.
  unfold decode, job_of_row. destruct (from_string (r_state r)) as [st|] eqn:E.
  - apply from_to_string in E. split.
    + by intros [= <-].
    + intros [H ->]. assert (st = state j) as ->; [|done].
      rewrite E in H. by destruct st, (state j).
  - split; [done|]. intros [H _].
    rewrite H, (proj2 (from_to_string _ (state j)) eq_refl) in E. done.
Qed.

Lemma job_of_row_Ok key r j : job_of_row key r = Ok j <-> decode r = Some j.
Proof. unfold decode, job_of_row. destruct (from_string _); naive_solver. Qed.

Lemma checked_row_decodes r : check_row r = None -> is_Some (decode r).
Proof.
  intros (st & Hst & _)%check_row_None. unfold decode, job_of_row.
  by rewrite Hst, (proj2 (from_to_string _ st) eq_refl).
Qed.

Lemma view_lookup d k : view d !! k = job_table d !! k ≫= decode.
Proof. apply lookup_omap. Qed.

Lemma view_insert d k r j :
  decode r = Some j -> view (set_table (<[k := r]> (job_table d)) d) = <[k := j]> (view d).
Proof. intros H. unfold view. simpl. by apply omap_insert_Some. Qed.

(** An update that keeps the decoded job keeps the view. *)
Lemma view_insert_same d k r r' :
  job_table d !! k = Some r -> decode r' = decode r -> is_Some (decode r) ->
  view (set_table (<[k := r']> (job_table d)) d) = view d.
Proof.
  intros Hr Hd [j Hj]. rewrite (view_insert _ _ _ j) by congruence.
  apply insert_id. by rewrite view_lookup, Hr.
Qed.

Lemma update_where_Ok key f d d' n :
  update_where key f d = Ok (d', n) ->
  (job_table d !! key = None /\ d' = d /\ n = 0) \/
  (exists r, job_table d !! key = Some r /\ check_row (f r) = None /\ n = 1 /\
             d' = set_table (<[key := f r]> (job_table d)) d).
Proof.
  unfold update_where. destruct (job_table d !! key) as [r|]; [|intros [= <- <-]; by left].
  destruct (check_row (f r)) eqn:E; [done|]. intros [= <- <-]. right. by exists r.
Qed.

Lemma require_changed_spec key f ws r s s' :
  (forall w s1, ws = (w, s1) -> is_open s1 = is_open s /\
     match w with
     | Ok n => update_where (c_str key) f (db s) = Ok (db s1, n)
     | Error e => db s1 = db s /\ e <> []
     end) ->
  require_changed key ws = (r, s') ->
  is_open s' = is_open s /\
  match r with
  | Error e => db s' = db s /\ e <> []
  | Ok _ => exists rw, job_table (db s) !! c_str key = Some rw /\ check_row (f rw) = None /\
              db s' = set_table (<[c_str key := f rw]> (job_table (db s))) (db s)
  end.
Proof.
  destruct ws as [w s1]. intros H. destruct (H w s1 eq_refl) as [Ho Hw]. simpl.
  destruct w as [n|e]; [|intros [= <- <-]; done].
  destruct (Z.eqb_spec n 0) as [->|Hn]; intros [= <- <-].
  - apply update_where_Ok in Hw as [(_ & -> & _)|(? & _ & _ & ? & _)]; done.
  - apply update_where_Ok in Hw as [(_ & _ & ->)|(rw & ? & ? & _ & ?)]; [done|].
    split; [done|]. by exists rw.
Qed.

(** ** One specification per operation *)

Lemma load_spec key s r s' :
  load key s = (r, s') ->
  same_file s s' /\
  match r with
  | Ok o => is_open s = true /\ o = view (db s) !! c_str key
  | Error e => e <> []
  end.
Proof.
  unfold load. destruct (is_open s) eqn:Ho; simpl; [|intros [= <- <-]; done].
  destruct (sql_read _ _ _ s) as [q s1] eqn:E. apply sql_read_spec in E as [Hs Hq].
  destruct q as [[rw|]|e]; [|intros [= <- <-]; split; [done|]..|].
  - destruct (job_of_row key rw) as [j|e] eqn:Ej; intros [= <- <-].
    + split; [done|]. split; [done|]. apply job_of_row_Ok in Ej.
      by rewrite view_lookup, <- Hq.
    + split; [done|]. unfold job_of_row in Ej. destruct (from_string _); by simplify_eq.
  - split; [done|]. by rewrite view_lookup, <- Hq.
  - intros [= <- <-]. done.
Qed.

Lemma record_intent_spec job retry s r s' :
  record_intent_retry job retry s = (r, s') ->
  is_open s' = is_open s /\
  match r with
  | Error e => db s' = db s /\ e <> []
  | Ok _ => check_row (row_of_job job retry) = None /\
            job_table (db s) !! c_str (id job) = None /\
            db s' = set_table (<[c_str (id job) := row_of_job job retry]> (job_table (db s)))
                      (db s)
  end.
Proof.
  unfold record_intent_retry. destruct (is_open s) eqn:Ho; simpl; [|intros [= <- <-]; done].
  destruct (sql_write _ _ _ s) as [w s1] eqn:E. apply sql_write_spec in E as [Ho1 Hw].
  destruct w as [n|e]; intros [= <- <-]; [|rewrite Ho1; done].
  rewrite Ho1. split; [done|]. destruct Hw as [Hw _]. unfold insert_row in Hw.
  destruct (check_row _) eqn:Ec; [done|]. simpl in Hw.
  destruct (job_table (db s) !! _) eqn:El; [done|]. by simplify_eq.
Qed.

Lemma update_state_spec key to now msg s r s' :
  update_state key to now msg s = (r, s') ->
  is_open s' = is_open s /\
  match r with
  | Error e => db s' = db s /\ e <> []
  | Ok _ => exists rw j j',
      job_table (db s) !! c_str key = Some rw /\ decode rw = Some j /\
      transition j to now msg = Some j' /\ check_row (set_state_columns j' rw) = None /\
      db s' = set_table (<[c_str key := set_state_columns j' rw]> (job_table (db s))) (db s)
  end.
Proof.
  unfold update_state. destruct (is_open s) eqn:Ho; simpl; [|intros [= <- <-]; done].
  destruct (load key s) as [l s1] eqn:El. apply load_spec in El as [(Hd & Ho1 & _) Hl].
  rewrite Ho in Ho1.
  destruct l as [[j|]|e]; [|intros [= <- <-]; done|intros [= <- <-]; done].
  destruct Hl as [_ Hj]. rewrite view_lookup in Hj.
  destruct (job_table (db s) !! c_str key) as [rw|] eqn:Hrw; simpl in Hj; [|done].
  destruct (transition j to now msg) as [j'|] eqn:Et;
    [|intros [= <- <-]; split; [done|]; split; [done|]; done].
  destruct (sql_write _ _ _ s1) as [w s2] eqn:E. apply sql_write_spec in E as [Ho2 Hw].
  destruct w as [n|e]; intros [= <- <-].
  - rewrite Ho2. split; [done|]. destruct Hw as [Hw _]. rewrite Hd in Hw.
    apply update_where_Ok in Hw as [(? & _)|(r' & ? & ? & _ & ?)]; [congruence|].
    exists rw, j, j'. by simplify_eq.
  - rewrite Ho2. destruct Hw as [-> ?]. done.
Qed.

Lemma update_keyed_spec key f prep what s r s' :
  require_changed key (sql_write prep what (update_where (c_str key) f) s) = (r, s') ->
  is_open s' = is_open s /\
  match r with
  | Error e => db s' = db s /\ e <> []
  | Ok _ => exists rw, job_table (db s) !! c_str key = Some rw /\ check_row (f rw) = None /\
              db s' = set_table (<[c_str key := f rw]> (job_table (db s))) (db s)
  end.
Proof.
  intros H. eapply require_changed_spec; [|exact H]. intros w s1 E.
  apply sql_write_spec in E as [Ho Hw]. destruct w; [|done]. by destruct Hw.
Qed.

Lemma mark_needs_attention_spec key reason s r s' :
  mark_needs_attention key reason s = (r, s') ->
  is_open s' = is_open s /\
  match r with
  | Error e => db s' = db s /\ e <> []
  | Ok _ => exists rw, job_table (db s) !! c_str key = Some rw /\
              check_row (set_attention reason rw) = None /\
              db s' = set_table (<[c_str key := set_attention reason rw]> (job_table (db s)))
                        (db s)
  end.
Proof.
  unfold mark_needs_attention. destruct (is_open s) eqn:Ho; simpl; [|intros [= <- <-]; done].
  destruct (reason == []); [intros [= <- <-]; done|]. rewrite <- Ho. apply update_keyed_spec.
Qed.

Lemma record_attempt_spec key next reason s r s' :
  record_attempt key next reason s = (r, s') ->
  is_open s' = is_open s /\
  match r with
  | Error e => db s' = db s /\ e <> []
  | Ok _ => exists rw, job_table (db s) !! c_str key = Some rw /\
              check_row (bump_attempts next reason rw) = None /\
              db s' = set_table (<[c_str key := bump_attempts next reason rw]>
                                   (job_table (db s))) (db s)
  end.
Proof.
  unfold record_attempt. destruct (is_open s) eqn:Ho; simpl; [|intros [= <- <-]; done].
  rewrite <- Ho. apply update_keyed_spec.
Qed.

Lemma next_sequence_spec s r s' :
  next_sequence s = (r, s') ->
  job_table (db s') = job_table (db s) /\ is_open s' = is_open s /\
  match r with
  | Error e => db s' = db s /\ e <> []
  | Ok v => sequence_next (db s') = sequence_next (db s) + 1 /\
            v = wrap_u64 (wrap_i32 (sequence_next (db s')))
  end.
Proof.
  unfold next_sequence. destruct (is_open s) eqn:Ho; simpl; [|intros [= <- <-]; done].
  destruct (exec true _ s) as [r1 s1] eqn:E1. apply exec_spec in E1 as [(D1 & O1 & Q1) P1].
  destruct r1; [|intros [= <- <-]; rewrite ?D1, ?O1; done].
  destruct (exec true _ s1) as [r2 s2] eqn:E2. apply exec_spec in E2 as [(D2 & O2 & Q2) P2].
  destruct r2; [|intros [= <- <-]; destruct (rollback_same s2) as (D & O & _);
                 split_and!; congruence].
  destruct (sql_read _ _ _ s2) as [r3 s3] eqn:E3.
  apply sql_read_spec in E3 as [(D3 & O3 & Q3) P3].
  destruct r3 as [v|]; [|intros [= <- <-]; destruct (rollback_same s3) as (D & O & _);
                 split_and!; congruence].
  destruct (exec false _ s3) as [r4 s4] eqn:E4. apply exec_spec in E4 as [(D4 & O4 & Q4) P4].
  destruct r4; [|intros [= <- <-]; destruct (rollback_same s4) as (D & O & _);
                 split_and!; congruence].
  intros [= <- <-]. simpl. subst v. rewrite D2, D1. split_and!; congruence.
Qed.

Lemma inject_db f pages s : db (snd (inject_write_fault f pages s)) = db s.
Proof.
  unfold inject_write_fault. destruct (negb (is_open s)); [done|].
  destruct f.
  - destruct (exec false _ s) as [r1 s1] eqn:E1. apply exec_spec in E1 as [(D1 & _) _].
    destruct r1; [|done]. destruct (exec false _ _) as [r2 s2] eqn:E2.
    apply exec_spec in E2 as [(D2 & _) _]. simpl in D2. destruct r2; simpl; congruence.
  - destruct (exec false _ s) as [r1 s1] eqn:E1. apply exec_spec in E1 as [(D1 & _) _].
    by destruct r1.
  - destruct (sql_read _ _ _ s) as [r0 s0] eqn:E0. apply sql_read_spec in E0 as [(D0 & _) _].
    destruct r0; [|done]. destruct (exec false _ _) as [r1 s1] eqn:E1.
    apply exec_spec in E1 as [(D1 & _) _]. destruct r1; simpl; congruence.
Qed.

(** Operations that only read leave the content alone. *)
Definition read_only (o : store_op) : bool :=
  match o with
  | OpLoad _ | OpLoadRetry _ | OpListByState _ | OpDueJobs _ | OpCounts
  | OpSchemaVersion | OpInject _ _ | OpClose => true
  | _ => false
  end.

Lemma read_only_db o s : read_only o = true -> db (run_op o s) = db s.
Proof.
  destruct o; try done; intros _; simpl.
  - destruct (load key s) as [r s'] eqn:E. by apply load_spec in E as [(D & _) _].
  - unfold load_retry_state. destruct (negb _); [done|].
    destruct (sql_read _ _ _ s) as [r s'] eqn:E. apply sql_read_spec in E as [(D & _) _].
    by destruct r as [[]|].
  - unfold list_by_state. destruct (negb _); [done|].
    destruct (sql_select _ _ _ _ _ s) as [r s'] eqn:E.
    by apply sql_select_spec in E as [(D & _) _].
  - unfold due_jobs. destruct (negb _); [done|].
    destruct (sql_select _ _ _ _ _ s) as [r s'] eqn:E.
    by apply sql_select_spec in E as [(D & _) _].
  - unfold counts_by_state. destruct (negb _); [done|].
    destruct (sql_select _ _ _ _ _ s) as [r s'] eqn:E.
    by apply sql_select_spec in E as [(D & _) _].
  - unfold schema_version. destruct (negb _); [done|].
    destruct (sql_read _ _ _ s) as [r s'] eqn:E. by apply sql_read_spec in E as [(D & _) _].
  - apply inject_db.
Qed.

Lemma record_transition_db key to now msg ph s :
  snd (record_transition key to now msg ph s) = snd (update_state key to now msg s).
Proof.
  unfold record_transition. destruct (update_state _ _ _ _ s) as [[] s'], ph; done.
Qed.

(** The effect of any operation on the job table: nothing, a fresh row, or one
    checked row update in place. *)
Inductive table_effect (t : gmap bytes row) : gmap bytes row -> Prop :=
| effect_none : table_effect t t
| effect_insert j retry :
    check_row (row_of_job j retry) = None -> t !! c_str (id j) = None ->
    table_effect t (<[c_str (id j) := row_of_job j retry]> t)
| effect_state key rw j to now msg j' :
    t !! c_str key = Some rw -> decode rw = Some j ->
    transition j to now msg = Some j' -> check_row (set_state_columns j' rw) = None ->
    table_effect t (<[c_str key := set_state_columns j' rw]> t)
| effect_attention key rw reason :
    t !! c_str key = Some rw -> check_row (set_attention reason rw) = None ->
    table_effect t (<[c_str key := set_attention reason rw]> t)
| effect_attempt key rw next reason :
    t !! c_str key = Some rw -> check_row (bump_attempts next reason rw) = None ->
    table_effect t (<[c_str key := bump_attempts next reason rw]> t).

Lemma run_op_effect o s : table_effect (job_table (db s)) (job_table (db (run_op o s))).
Proof.
  destruct (read_only o) eqn:Hro; [rewrite read_only_db by done; constructor|].
  destruct o; try done; simpl in *.
  - destruct (record_intent_retry j retry s) as [r s'] eqn:E.
    apply record_intent_spec in E as [_ H]. simpl.
    destruct r; [destruct H as (? & ? & ->); by constructor|destruct H as [-> _]; constructor].
  - destruct (update_state key to now msg s) as [r s'] eqn:E.
    apply update_state_spec in E as [_ H]. simpl.
    destruct r; [destruct H as (? & ? & ? & ? & ? & ? & ? & ->); by econstructor
                |destruct H as [-> _]; constructor].
  - rewrite record_transition_db. destruct (update_state key to now msg s) as [r s'] eqn:E.
    apply update_state_spec in E as [_ H]. simpl.
    destruct r; [destruct H as (? & ? & ? & ? & ? & ? & ? & ->); by econstructor
                |destruct H as [-> _]; constructor].
  - destruct (mark_needs_attention key reason s) as [r s'] eqn:E.
    apply mark_needs_attention_spec in E as [_ H]. simpl.
    destruct r; [destruct H as (? & ? & ? & ->); by constructor|destruct H as [-> _]; constructor].
  - destruct (record_attempt key next reason s) as [r s'] eqn:E.
    apply record_attempt_spec in E as [_ H]. simpl.
    destruct r; [destruct H as (? & ? & ? & ->); by constructor|destruct H as [-> _]; constructor].
  - destruct (next_sequence s) as [r s'] eqn:E. apply next_sequence_spec in E as (Ht & _).
    simpl. rewrite Ht. constructor.
Qed.

Lemma table_wf_insert t k r :
  table_wf t -> r_id r = k -> nul ∉ k -> nul ∉ r_error r -> check_row r = None ->
  table_wf (<[k := r]> t).
Proof.
  intros Hw Hk Hn He Hc k' r' H. apply lookup_insert_Some in H as [[<- <-]|[_ H]]; [done|].
  by apply Hw.
Qed.

Lemma effect_wf t t' : table_wf t -> table_effect t t' -> table_wf t'.
Proof.
  intros Hw []; [done|..]; apply table_wf_insert; simpl; try done;
    try apply c_str_no_nul;
    match goal with H : _ !! _ = Some _ |- _ => apply Hw in H as (? & ? & ? & ?) end; done.
Qed.

Lemma row_of_job_decode job retry :
  decode (row_of_job job retry) =
  Some (mkJob (c_str (id job)) (c_str (source_path job)) (c_str (dest_path job)) (state job)
          (created_at_ms job) (updated_at_ms job) (finished_at_ms job)
          (wrap_u64 (wrap_i64 (bytes_total job))) (wrap_u64 (wrap_i64 (bytes_moved job)))
          (c_str (error job))).
Proof. by apply decode_Some. Qed.

Lemma set_state_columns_step rw j to now msg j' :
  nul ∉ r_error rw -> decode rw = Some j -> transition j to now msg = Some j' ->
  check_row (set_state_columns j' rw) = None ->
  exists j'', decode (set_state_columns j' rw) = Some j'' /\ job_step j j'' /\
              state j'' = to /\ updated_at_ms j'' = now /\ transition j to now (c_str msg) = Some j''.
Proof.
  intros Hn Hd Ht Hc. apply decode_Some in Hd as [Hst Hj].
  pose proof (transition_Some _ _ _ _ _ Ht) as (Hl & Hm & Hj').
  apply check_row_None in Hc as (st & Hst' & Her & _). simpl in Hst', Her.
  assert (state j' = to) as Hto by (by rewrite Hj').
  assert (st = to) as -> by (rewrite Hto in Hst'; by destruct st, to).
  assert (error j = r_error rw) as He by (by rewrite Hj).
  assert (error j' = if bool_decide (to = Failed) then msg else error j) as He' by (by rewrite Hj').
  assert (to = Failed <-> c_str msg <> []) as Hm2.
  { destruct (decide (to = Failed)) as [->|Hne].
    - rewrite He', bool_decide_eq_true_2 in Her by done. tauto.
    - assert (msg = []) as -> by (destruct msg; [done|]; exfalso; by apply Hne, Hm). naive_solver. }
  set (j'' := mkJob (id j) (source_path j) (dest_path j) to (created_at_ms j) now
     (if is_terminal to then now else finished_at_ms j) (bytes_total j) (bytes_moved j)
     (if bool_decide (to = Failed) then c_str msg else error j)).
  assert (transition j to now (c_str msg) = Some j'') as Htr.
  { unfold transition. rewrite Hl. simpl.
    destruct (bool_decide (to = Failed)) eqn:Ef, (c_str msg == []) eqn:Em; bool_prop;
      simpl; try done; tauto. }
  exists j''. split_and!; [|by econstructor|done|done|done].
  apply decode_Some. simpl. rewrite Hto. split; [done|].
  unfold j''. rewrite Hj', Hj. simpl. f_equal. rewrite <- He.
  case_bool_decide; [done|]. by rewrite c_str_id by congruence.
Qed.

Lemma effect_refines d d' :
  db_wf d -> table_effect (job_table d) (job_table d') -> spec_step (view d) (view d').
Proof.
  intros Hw He. unfold view. inversion He as [|j retry Hc Hf|key rw j to now msg j' Hl Hd Ht Hc
    |key rw reason Hl Hc|key rw next reason Hl Hc]; subst.
  - constructor.
  - rewrite (omap_insert_Some _ _ _ _ _ (row_of_job_decode j retry)).
    apply spec_insert; [by rewrite lookup_omap, Hf|done|].
    apply check_row_None in Hc as (st & Hst & Her & _). simpl in *.
    assert (st = state j) as -> by (by destruct st, (state j)). done.
  - destruct (Hw _ _ Hl) as (_ & _ & Hn & _).
    destruct (set_state_columns_step _ _ _ _ _ _ Hn Hd Ht Hc) as (j'' & Hd' & Hs & _).
    rewrite (omap_insert_Some _ _ _ _ _ Hd').
    apply spec_transition with j; [|done]. by rewrite lookup_omap, Hl.
  - destruct (Hw _ _ Hl) as (_ & _ & _ & [j Hj]%checked_row_decodes).
    rewrite (omap_insert_Some _ _ _ _ j) by done.
    rewrite insert_id; [constructor|]. by rewrite lookup_omap, Hl.
  - destruct (Hw _ _ Hl) as (_ & _ & _ & [j Hj]%checked_row_decodes).
    rewrite (omap_insert_Some _ _ _ _ j) by done.
    rewrite insert_id; [constructor|]. by rewrite lookup_omap, Hl.
Qed.

Lemma run_op_refines o s :
  db_wf (db s) -> db_wf (db (run_op o s)) /\ spec_step (view (db s)) (view (db (run_op o s))).
Proof.
  intros Hw. pose proof (run_op_effect o s) as He. split.
  - by eapply effect_wf.
  - by apply effect_refines.
Qed.

Lemma run_ops_refines os s :
  db_wf (db s) -> db_wf (db (run_ops os s)) /\
                  star spec_step (view (db s)) (view (db (run_ops os s))).
Proof.
  revert s. induction os as [|o os IH]; intros s Hw; simpl; [by split; [|constructor]|].
  destruct (run_op_refines o s Hw) as [Hw' Hs]. destruct (IH _ Hw') as [Hw'' Hss].
  split; [done|]. by econstructor.
Qed.

Lemma spec_step_monotone m m' k j :
  spec_step m m' -> m !! k = Some j -> exists j', m' !! k = Some j' /\ star job_step j j'.
Proof.
  intros [|? k' j' Hf|? k' j1 j2 Hl Hs] Hk; [by eauto|..].
  - exists j. split; [|done]. rewrite lookup_insert_ne; [done|]. by intros ->; simplify_eq.
  - destruct (decide (k' = k)) as [->|Hne].
    + simplify_eq. exists j2. rewrite lookup_insert_eq. eauto.
    + exists j. by rewrite lookup_insert_ne.
Qed.

Lemma star_spec_monotone m m' k j :
  star spec_step m m' -> m !! k = Some j -> exists j', m' !! k = Some j' /\ star job_step j j'.
Proof.
  intros H. revert j. induction H as [|m1 m2 m3 Hs _ IH]; intros j Hk; [eauto|].
  destruct (spec_step_monotone _ _ _ _ Hs Hk) as (j1 & Hk1 & H1).
  destruct (IH _ Hk1) as (j2 & Hk2 & H2). eauto using star_trans.
Qed.

(** ** The store seen by its clients

    A store no fault is scheduled for answers every call; what an operation does
    to the view holds whatever the schedule. *)

Definition store_live (s : JobStore) : Prop :=
  is_open s = true /\ query_only s = false /\ sqlite_faults s = [].

Lemma sqlite_call_live s : store_live s -> sqlite_call s = (None, s).
Proof. intros (_ & _ & Hf). unfold sqlite_call. by rewrite Hf. Qed.

Lemma sql_read_live {A} prep what (q : database -> A) s :
  store_live s -> sql_read prep what q s = (Ok (q (db s)), s).
Proof. intros H. unfold sql_read. by rewrite !(sqlite_call_live s H). Qed.

Lemma sql_write_live prep what stmt s :
  store_live s ->
  sql_write prep what stmt s =
    match stmt (db s) with
    | Error m => (Error (fail what m), s)
    | Ok (d, n) => (Ok n, set_db d s)
    end.
Proof.
  intros H. unfold sql_write. rewrite !(sqlite_call_live s H). by destruct H as (_ & -> & _).
Qed.

Lemma set_db_live d s : store_live s -> store_live (set_db d s).
Proof. done. Qed.

Lemma load_live key s :
  store_live s -> db_wf (db s) -> load key s = (Ok (view (db s) !! c_str key), s).
Proof.
  intros Hl Hw. unfold load. rewrite (sql_read_live _ _ _ _ Hl).
  destruct Hl as (-> & _). simpl. rewrite view_lookup.
  destruct (job_table (db s) !! c_str key) as [r|] eqn:E; [|done]. simpl.
  destruct (Hw _ _ E) as (_ & _ & _ & [j Hj]%checked_row_decodes). rewrite Hj.
  by rewrite (proj2 (job_of_row_Ok key r j) Hj).
Qed.

Lemma set_state_columns_checked r j to now j' :
  check_row r = None -> nul ∉ r_error r -> decode r = Some j -> to <> Failed ->
  transition j to now [] = Some j' ->
  check_row (set_state_columns j' r) = None.
Proof.
  intros Hc Hn Hd Hto (Hl & _ & ->)%transition_Some.
  apply decode_Some in Hd as [Hst Hj].
  apply check_row_None in Hc as (st & Hst' & He & Ha). apply check_row_None. exists to. simpl.
  split; [done|]. split; [|done]. rewrite bool_decide_eq_false_2 by done.
  assert (error j = r_error r) as -> by (by rewrite Hj). rewrite c_str_id by done.
  assert (st = state j) as -> by (rewrite Hst in Hst'; by destruct st, (state j)).
  split; [|done]. intros Hf%He. rewrite Hf in Hl. by destruct to.
Qed.

Lemma update_state_live key to now s j j' :
  store_live s -> db_wf (db s) -> to <> Failed -> view (db s) !! c_str key = Some j ->
  transition j to now [] = Some j' ->
  is_ok (fst (update_state key to now [] s)) = true.
Proof.
  intros Hl Hw Hto Hv Ht. unfold update_state. rewrite load_live, Hv by done.
  rewrite Ht, sql_write_live by done. destruct Hl as (-> & _). simpl.
  rewrite view_lookup in Hv. apply bind_Some in Hv as (r & Hr & Hd).
  unfold update_where. rewrite Hr. destruct (Hw _ _ Hr) as (_ & _ & Hn & Hc).
  by rewrite (set_state_columns_checked r j to now j').
Qed.

Lemma update_state_keeps_live key to now msg s :
  store_live s -> db_wf (db s) -> store_live (snd (update_state key to now msg s)).
Proof.
  intros Hl Hw. unfold update_state. rewrite load_live by done.
  destruct Hl as (Ho & Hl). rewrite Ho. simpl.
  destruct (view (db s) !! c_str key) as [j|]; [|done]. destruct (transition _ _ _ _); [|done].
  rewrite sql_write_live by done. by destruct (update_where _ _ _) as [[]|].
Qed.

Lemma mark_keeps_live key reason s :
  store_live s -> store_live (snd (mark_needs_attention key reason s)).
Proof.
  intros Hl. unfold mark_needs_attention, require_changed. rewrite sql_write_live by done.
  destruct Hl as (Ho & Hl). rewrite Ho. simpl. destruct (reason == []); [done|].
  destruct (update_where _ _ _) as [[]|]; [|done]. by case_match.
Qed.

Lemma update_state_view key to now msg s r s' :
  db_wf (db s) -> update_state key to now msg s = (r, s') ->
  db_wf (db s') /\
  match r with
  | Error e => e <> [] /\ db s' = db s
  | Ok _ => exists j j', view (db s) !! c_str key = Some j /\
              transition j to now (c_str msg) = Some j' /\
              view (db s') = <[c_str key := j']> (view (db s))
  end.
Proof.
  intros Hw E. pose proof (run_op_refines (OpUpdateState key to now msg) s Hw) as [Hw' _].
  simpl in Hw'. rewrite E in Hw'. split; [done|].
  apply update_state_spec in E as [_ Hr]. destruct r; [|by destruct Hr].
  destruct Hr as (rw & j & j' & Hl & Hd & Ht & Hc & ->).
  destruct (Hw _ _ Hl) as (_ & _ & Hn & _).
  destruct (set_state_columns_step _ _ _ _ _ _ Hn Hd Ht Hc) as (j'' & Hd' & _ & _ & _ & Ht').
  exists j, j''. split; [by rewrite view_lookup, Hl|]. split; [done|]. by apply view_insert.
Qed.

Lemma mark_view key reason s r s' :
  db_wf (db s) -> mark_needs_attention key reason s = (r, s') ->
  db_wf (db s') /\ view (db s') = view (db s).
Proof.
  intros Hw E. pose proof (run_op_refines (OpMarkAttention key reason) s Hw) as [Hw' _].
  simpl in Hw'. rewrite E in Hw'. split; [done|].
  apply mark_needs_attention_spec in E as [_ Hr]. destruct r; [|by destruct Hr as [-> _]].
  destruct Hr as (rw & Hl & _ & ->).
  destruct (Hw _ _ Hl) as (_ & _ & _ & Hj%checked_row_decodes). by eapply view_insert_same.
Qed.

(** ** Listings *)

#[export] Instance order_created_total : Total order_created.
Proof.
  intros a b. unfold order_created.
  destruct (Z.lt_total (r_created_at_ms a) (r_created_at_ms b)) as [?|[E|?]]; [by left; left| |by right; left].
  destruct (total bytes_le (r_id a) (r_id b)); [left|right]; right; by split.
Qed.

(** The order a listing promises, on jobs. *)
Definition listed_before (a b : Job) : Prop :=
  created_at_ms a < created_at_ms b \/
  (created_at_ms a = created_at_ms b /\ bytes_le (id a) (id b)).

Lemma foldl_error {A B E} (each : A -> B -> result A E) l e :
  foldl (fun a x => match a with Ok a => each a x | Error e => Error e end) (Error e) l = Error e.
Proof. by induction l. Qed.

Lemma push_jobs rs acc js :
  foldl (fun a x => match a with Ok a => push_job a x | Error e => Error e end) (Ok acc) rs
    = Ok js ->
  exists l, js = acc ++ l /\ Forall2 (fun r j => decode r = Some j) rs l.
Proof.
  revert acc. induction rs as [|r rs IH]; intros acc; simpl.
  - intros [= <-]. exists []. by rewrite app_nil_r.
  - unfold push_job at 2. destruct (job_of_row (r_id r) r) as [j|e] eqn:E;
      [|by rewrite foldl_error].
    intros (l & -> & H)%IH. exists (j :: l). rewrite <- app_assoc. split; [done|].
    constructor; [by apply job_of_row_Ok in E|done].
Qed.

Lemma sorted_rows_jobs rs js :
  Forall2 (fun r j => decode r = Some j) rs js -> Sorted order_created rs ->
  Sorted listed_before js.
Proof.
  induction 1 as [|r j rs js Hr H2 IH]; intros Hs; [constructor|].
  inversion Hs as [|? ? Hs' Hh]; subst. constructor; [by apply IH|].
  destruct H2 as [|r2 j2 ? ? Hr2 ?]; constructor. inversion Hh as [|? ? Ho]; subst.
  apply decode_Some in Hr as [_ ->], Hr2 as [_ ->]. exact Ho.
Qed.

Lemma elem_of_rows d r : db_wf d -> r ∈ rows d <-> job_table d !! r_id r = Some r.
Proof.
  intros Hw. unfold rows. rewrite list_elem_of_fmap. split.
  - intros ([k r'] & -> & H). apply elem_of_map_to_list in H. simpl.
    by destruct (Hw _ _ H) as (-> & _).
  - intros H. exists (r_id r, r). split; [done|]. by apply elem_of_map_to_list.
Qed.

Lemma to_string_inj a b : to_string a = to_string b -> a = b.
Proof. by destruct a, b. Qed.

(** ** Opening *)

Lemma query_spec {A} sql (v : A) s r s' :
  query sql v s = (r, s') ->
  same_file s s' /\ match r with Ok w => w = v | Error e => e <> [] end.
Proof. apply sql_read_spec. Qed.

Lemma check_integrity_spec path a s r s' :
  check_integrity path a s = (r, s') ->
  same_file s s' /\
  match r with
  | Ok _ => existed a = true -> integrity_verdict a = str "ok"
  | Error e => e <> []
  end.
Proof.
  unfold check_integrity. destruct (existed a); simpl; [|intros [= <- <-]; done].
  destruct (query _ _ s) as [q s1] eqn:E. apply query_spec in E as [Hs Hq].
  destruct q as [v|e]; [|intros [= <- <-]; done].
  destruct (v == str "ok") eqn:Ev; intros [= <- <-]; [|done].
  bool_prop. split; [done|]. congruence.
Qed.

(** One call that must succeed for the sequence to go on. *)
Ltac next_call lem E S :=
  match goal with
  | |- context [match ?c with _ => _ end] =>
      lazymatch type of c with
      | (_ * JobStore)%type =>
          let r := fresh "r" in let s := fresh "s" in
          destruct c as [r s] eqn:E; apply lem in E as [S E];
          destruct r; [|intros [= <- <-]; split; [eauto using same_file_trans|done]]
      end
  end.

Lemma apply_pragmas_spec a s r s' :
  apply_pragmas a s = (r, s') ->
  same_file s s' /\
  match r with
  | Ok _ => journal_mode a = str "wal" /\ synchronous a = 2 /\ foreign_keys a = 1
  | Error e => e <> []
  end.
Proof.
  unfold apply_pragmas.
  next_call @exec_spec E1 S1. next_call @exec_spec E2 S2. next_call @exec_spec E3 S3.
  assert (same_file s s2) as S by eauto using same_file_trans.
  next_call @query_spec E4 S4. subst.
  destruct (journal_mode a == str "wal") eqn:H4; simpl;
    [|intros [= <- <-]; split; [eauto using same_file_trans|done]].
  next_call @query_spec E5 S5. subst.
  destruct (Z.eqb_spec (synchronous a) 2) as [H5|H5]; simpl;
    [|intros [= <- <-]; split; [eauto using same_file_trans|done]].
  next_call @query_spec E6 S6. subst.
  destruct (Z.eqb_spec (foreign_keys a) 1) as [H6|H6]; simpl;
    [|intros [= <- <-]; split; [eauto using same_file_trans|done]].
  intros [= <- <-]. bool_prop. split; [eauto using same_file_trans|done].
Qed.

Lemma ensure_schema_spec s r s' :
  ensure_schema s = (r, s') ->
  is_open s' = is_open s /\ job_table (db s') = job_table (db s) /\
  sequence_next (db s') = sequence_next (db s) /\
  match r with
  | Ok _ => wrap_i32 (user_version (db s)) = 0 \/
            wrap_i32 (user_version (db s)) = kSchemaVersion
  | Error e => e <> []
  end.
Proof.
  assert (forall x y : JobStore, same_file x y -> is_open y = is_open x /\
     job_table (db y) = job_table (db x) /\ sequence_next (db y) = sequence_next (db x)) as Hsame.
  { intros x y (-> & -> & _). done. }
  assert (forall x y z, same_file x y -> same_file y z -> same_file x (rollback_quietly z)) as Hroll.
  { eauto using same_file_trans, rollback_same. }
  assert (forall x y, same_file x y -> same_file x (rollback_quietly y)) as Hroll1.
  { eauto using same_file_trans, rollback_same. }
  unfold ensure_schema.
  destruct (query _ _ s) as [q s1] eqn:E. apply query_spec in E as [S1 Hq].
  destruct q as [v|e]; [|intros [= <- <-]; split_and!; try apply Hsame; done].
  subst v. set (v := wrap_i32 (user_version (db s))).
  destruct (Z.eqb_spec v 0) as [Hv0|Hv0]; simpl.
  - destruct (exec true _ s1) as [q2 s2] eqn:E2. apply exec_spec in E2 as [S2 P2].
    destruct q2; [|intros [= <- <-]; split_and!; try (eapply Hsame; eauto); done].
    assert (same_file s s2) as T2 by eauto using same_file_trans.
    destruct (exec true _ s2) as [q3 s3] eqn:E3. apply exec_spec in E3 as [S3 P3].
    destruct q3; [|intros [= <- <-]; split_and!; try (eapply Hsame; eauto); done].
    assert (same_file s s3) as T3 by eauto using same_file_trans.
    destruct (exec true _ s3) as [q4 s4] eqn:E4. apply exec_spec in E4 as [S4 P4].
    destruct q4; [|intros [= <- <-]; split_and!; try (eapply Hsame; eauto); done].
    assert (same_file s s4) as T4 by eauto using same_file_trans.
    destruct (exec false _ s4) as [q5 s5] eqn:E5. apply exec_spec in E5 as [S5 P5].
    assert (same_file s s5) as T5 by eauto using same_file_trans.
    destruct q5; intros [= <- <-]; [|split_and!; try (eapply Hsame; eauto); done].
    apply Hsame in T5 as (? & ? & ?). split_and!; simpl; try done. by left.
  - destruct (Z.eqb_spec v kSchemaVersion) as [Hv1|Hv1]; simpl; intros [= <- <-];
      split_and!; try (by apply Hsame); try done. by right.
Qed.

(** * Properties *)

(** C10. Refinement: whatever sequence of operations is applied to a well-formed
    file, under whatever schedule of SQLite failures, every stored row satisfies
    the schema and the decoded content evolves only by steps of the abstract
    store: inserting a fresh id or one legal transition of one job. *)
Theorem store_refines_spec os s :
  db_wf (db s) ->
  db_wf (db (run_ops os s)) /\ star spec_step (view (db s)) (view (db (run_ops os s))).
Proof. apply run_ops_refines. Qed.

(** C11. A recorded job is never lost: after any sequence of operations and
    failures it is still there, reached from what it was by legal transitions
    only, so its id, paths and creation time are unchanged. *)
Theorem recorded_job_persists os s k j :
  db_wf (db s) -> view (db s) !! k = Some j ->
  exists j', view (db (run_ops os s)) !! k = Some j' /\ star job_step j j' /\
             id j' = id j /\ source_path j' = source_path j /\ dest_path j' = dest_path j.
Proof.
  intros Hw Hk. destruct (run_ops_refines os s Hw) as [_ Hs].
  destruct (star_spec_monotone _ _ _ _ Hs Hk) as (j' & Hk' & Hss).
  exists j'. split_and!; [done|done|..]; clear Hk Hk' Hs;
    induction Hss as [|j1 j2 j3 H1 _ IH]; try done;
    apply job_step_identity in H1 as (? & ? & ? & ?); congruence.
Qed.

(** [record_intent] then [load] returns the recorded job, when SQLite does
    not fail, the id is fresh and the strings hold no NUL (which the C string
    interface would cut). *)
Theorem record_load_roundtrip job s :
  is_open s = true -> query_only s = false -> sqlite_faults s = [] ->
  job_wf job -> job_table (db s) !! id job = None ->
  nul ∉ id job -> nul ∉ source_path job -> nul ∉ dest_path job -> nul ∉ error job ->
  is_uint64 (bytes_total job) -> is_uint64 (bytes_moved job) ->
  exists s', record_intent job s = (Ok tt, s') /\ fst (load (id job) s') = Ok (Some job).
Proof.
  intros Ho Hq Hf [He _] Hn Hi Hs Hd Hr Hbt Hbm.
  unfold record_intent, record_intent_retry, sql_write, sqlite_call.
  rewrite Ho, Hf, Hq. simpl. rewrite Hf, Hq. unfold insert_row.
  assert (check_row (row_of_job job []) = None) as ->.
  { apply check_row_None. exists (state job). simpl. rewrite c_str_id by done. auto. }
  simpl. rewrite (c_str_id (id job)), Hn by done. eexists. split; [done|].
  unfold load, sql_read, sqlite_call. cbn -[job_of_row row_of_job]. rewrite Ho, Hf.
  cbn -[job_of_row row_of_job]. rewrite Hf, (c_str_id (id job)) by done.
  cbn -[job_of_row row_of_job]. rewrite lookup_insert_eq.
  rewrite (proj2 (job_of_row_Ok _ _ job)); [done|]. rewrite row_of_job_decode.
  rewrite !c_str_id, !wrap_u64_i64 by done. by destruct job.
Qed.

(** A duplicate id is refused: [record_intent] of an id that is already
    recorded fails whatever SQLite does and leaves the file as it was. *)
Theorem duplicate_intent_refused job retry s r s' :
  job_table (db s) !! c_str (id job) <> None ->
  record_intent_retry job retry s = (r, s') ->
  (exists e, r = Error e /\ e <> []) /\ db s' = db s.
Proof.
  intros Hk [_ H]%record_intent_spec. destruct r as [|e]; [by destruct H as (_ & ? & _)|].
  destruct H. eauto.
Qed.

(** A failed durable write is classified by the phase and only by it: the
    action is None exactly on success, AbortJob before the commit point,
    HaltProcess after it; on a failure the error is non-empty and the file is
    unchanged, on success exactly the requested transition is recorded. *)
Theorem record_transition_classifies key to now msg ph s act e s' :
  db_wf (db s) -> record_transition key to now msg ph s = (act, e, s') ->
  match act with
  | NoAction => exists j j', view (db s) !! c_str key = Some j /\
                  transition j to now (c_str msg) = Some j' /\
                  view (db s') = <[c_str key := j']> (view (db s))
  | AbortJob => ph = BeforeCommitPoint /\ e <> [] /\ db s' = db s
  | HaltProcess => ph = AfterCommitPoint /\ e <> [] /\ db s' = db s
  end.
Proof.
  intros Hw. unfold record_transition.
  destruct (update_state key to now msg s) as [r s1] eqn:E.
  apply update_state_spec in E as [_ H]. destruct r as [|m].
  - intros [= <- <- <-]. destruct H as (rw & j & j' & Hl & Hd & Ht & Hc & ->).
    destruct (Hw _ _ Hl) as (_ & _ & Hn & _).
    destruct (set_state_columns_step _ _ _ _ _ _ Hn Hd Ht Hc) as (j'' & Hd' & _ & _ & _ & Htr).
    exists j, j''. rewrite view_lookup, Hl. split_and!; [done|done|]. by apply view_insert.
  - destruct H as [Hdb Hm]. destruct ph; intros [= <- <- <-]; split_and!; try done;
      by destruct m.
Qed.

(** The durable sequence is strictly increasing and never repeats: within
    the range of the 32-bit column read, a successful call returns the successor
    of the stored counter, which is committed, and a failed call changes
    nothing. *)
Theorem next_sequence_monotonic s r s' :
  0 <= sequence_next (db s) < 2 ^ 31 - 1 -> next_sequence s = (r, s') ->
  match r with
  | Ok v => v = sequence_next (db s) + 1 /\ sequence_next (db s') = v
  | Error e => db s' = db s /\ e <> []
  end.
Proof.
  intros Hb (_ & _ & H)%next_sequence_spec. destruct r as [v|e]; [|done].
  destruct H as [Hn ->]. rewrite Hn, wrap_i32_small by lia.
  unfold wrap_u64. rewrite Z.mod_small by lia. done.
Qed.

(** [list_by_state] returns exactly the jobs recorded in that state, each
    once, oldest first and by id among jobs created at the same time. *)
Theorem list_by_state_exact st s js s' :
  db_wf (db s) -> list_by_state st s = (Ok js, s') ->
  (forall j, j ∈ js <-> (view (db s) !! id j = Some j /\ state j = st)) /\
  Sorted listed_before js.
Proof.
  intros Hw. unfold list_by_state. destruct (is_open s); simpl; [|done].
  intros [_ H]%sql_select_spec. apply push_jobs in H as (l & -> & H2). simpl.
  set (rs := merge_sort order_created _) in H2.
  assert (forall r, r ∈ rs <-> (job_table (db s) !! r_id r = Some r /\ r_state r = to_string st)) as Hrs.
  { intros r. unfold rs. rewrite merge_sort_Permutation, list_elem_of_filter, elem_of_rows by done.
    tauto. }
  split; [|eapply sorted_rows_jobs; [exact H2|apply Sorted_merge_sort, _]].
  intros j. split.
  - intros [i Hi]%list_elem_of_lookup. destruct (Forall2_lookup_r _ _ _ _ _ H2 Hi) as (r & Hr & Hd).
    apply list_elem_of_lookup_2, Hrs in Hr as [Hl Hst].
    pose proof Hd as [Hst' Hj]%decode_Some. split.
    + rewrite view_lookup. by rewrite Hj, Hl at 1.
    + apply to_string_inj. congruence.
  - intros [Hv Hst]. rewrite view_lookup in Hv.
    destruct (job_table (db s) !! id j) as [r|] eqn:Hl; simpl in Hv; [|done].
    destruct (Hw _ _ Hl) as (Hid & _). pose proof Hv as [Hst' Hj]%decode_Some.
    assert (r ∈ rs) as [i Hi]%list_elem_of_lookup.
    { apply Hrs. rewrite Hid. split; [done|congruence]. }
    destruct (Forall2_lookup_l _ _ _ _ _ H2 Hi) as (j2 & Hj2 & Hd2).
    apply list_elem_of_lookup. exists i. congruence.
Qed.

(** Whatever its result, an open leaves the jobs of the file as they are. *)
Lemma open_content path a s r s' :
  open path a s = (r, s') ->
  job_table (db s') = job_table (db s) \/ job_table (db s') = job_table (file_content a).
Proof.
  unfold open. destruct (open_error a) as [m|]; [intros [= <- <-]; by left|]. intros E. right.
  destruct (check_integrity path a _) as [i s2] eqn:Ei.
  apply check_integrity_spec in Ei as [(D2 & _) _]. simpl in D2.
  destruct i; [|by simplify_eq; rewrite D2].
  destruct (apply_pragmas a s2) as [p s3] eqn:Ep.
  apply apply_pragmas_spec in Ep as [(D3 & _) _].
  destruct p; [|by simplify_eq; rewrite D3, D2].
  destruct (ensure_schema s3) as [v s4] eqn:Ev.
  apply ensure_schema_spec in Ev as (_ & T4 & _).
  destruct v; simplify_eq; simpl; by rewrite T4, D3, D2.
Qed.

(** A store only opens on a verified file: success implies a clean integrity
    verdict for a file that was there, WAL, synchronous=FULL and foreign keys all
    read back, and a schema version of zero or this build's; the jobs of the file
    are what the connection sees, and the result says whether the file was there.
    On any failure the connection stays closed. *)
Theorem open_verifies path a s r s' :
  open path a s = (r, s') ->
  match r with
  | Error e => is_open s' = false /\ e <> []
  | Ok res =>
      is_open s' = true /\ (existed a = true -> integrity_verdict a = str "ok") /\
      journal_mode a = str "wal" /\ synchronous a = 2 /\ foreign_keys a = 1 /\
      (wrap_i32 (user_version (file_content a)) = 0 \/
       wrap_i32 (user_version (file_content a)) = kSchemaVersion) /\
      job_table (db s') = job_table (file_content a) /\
      sequence_next (db s') = sequence_next (file_content a) /\
      (res = OpenedExisting <-> existed a = true)
  end.
Proof.
  unfold open. destruct (open_error a) as [m|]; [intros [= <- <-]; done|].
  destruct (check_integrity path a _) as [i s2] eqn:Ei.
  apply check_integrity_spec in Ei as [(D2 & O2 & _) Hi].  simpl in D2, O2.
  destruct i; [|intros [= <- <-]; done].
  destruct (apply_pragmas a s2) as [p s3] eqn:Ep.
  apply apply_pragmas_spec in Ep as [(D3 & O3 & _) Hp].
  destruct p; [|intros [= <- <-]; split; [by rewrite O3|done]].
  destruct (ensure_schema s3) as [v s4] eqn:Ev.
  apply ensure_schema_spec in Ev as (O4 & T4 & S4 & Hv).
  destruct v; intros [= <- <-]; [|split; [congruence|done]].
  simpl in *. rewrite D3, D2 in T4, S4, Hv. simpl in *.
  destruct Hp as (? & ? & ?). split_and!; try done. by destruct (existed a).
Qed.

(** [open] accepts a well-formed existing file and shows its jobs. *)
Lemma open_verifies_witness :
  exists s', open (str "/var/lib/fm.db")
    (mkAnswers true None (str "ok") (str "wal") 2 1 (mkDatabase ∅ 7 1))
    (mkStore false false 0 (mkDatabase ∅ 0 0) []) = (Ok OpenedExisting, s') /\ is_open s' = true.
Proof.
  eexists. split; [vm_compute; reflexivity|].
  refine (proj1 (open_verifies (str "/var/lib/fm.db")
    (mkAnswers true None (str "ok") (str "wal") 2 1 (mkDatabase ∅ 7 1))
    (mkStore false false 0 (mkDatabase ∅ 0 0) []) (Ok OpenedExisting) _ _)).
  vm_compute; reflexivity.
Defined.

(** * Concrete instances *)

Definition sample_job : Job := new_job (str "job-1") (str "/in/a") (str "/out/a") 100.
Definition empty_store : JobStore := mkStore true false 1073741823 (mkDatabase ∅ 0 1) [].
Definition sample_store : JobStore := snd (record_intent sample_job empty_store).

Lemma empty_wf : db_wf (db empty_store).
Proof. intros k r H. done. Qed.

Lemma sample_wf : db_wf (db sample_store).
Proof. apply (run_op_refines (OpRecordIntent sample_job []) empty_store empty_wf). Qed.

Lemma store_refines_spec_witness :
  db_wf (db empty_store) /\
  star spec_step (view (db empty_store))
    (view (db (run_ops [OpRecordIntent sample_job []; OpNextSequence] empty_store))).
Proof. split; [apply empty_wf|]. apply (store_refines_spec _ empty_store empty_wf). Defined.

Lemma recorded_job_persists_witness :
  exists j', view (db (run_ops [OpUpdateState (str "job-1") Failed 5 (str "x")] sample_store))
               !! str "job-1" = Some j' /\ state j' = Failed.
Proof.
  destruct (recorded_job_persists [OpUpdateState (str "job-1") Failed 5 (str "x")]
              sample_store (str "job-1") sample_job sample_wf) as (j' & Hj & _).
  - vm_compute. reflexivity.
  - exists j'. split; [exact Hj|]. vm_compute in Hj. injection Hj as <-. reflexivity.
Defined.

Lemma record_load_roundtrip_witness :
  exists s', record_intent sample_job empty_store = (Ok tt, s') /\
             fst (load (str "job-1") s') = Ok (Some sample_job).
Proof.
  apply (record_load_roundtrip sample_job empty_store); try reflexivity;
    try (apply find_char_None; reflexivity); try (apply new_job_wf);
    unfold is_uint64, UINT64_MAX; simpl; lia.
Defined.

Lemma duplicate_intent_refused_witness :
  exists e, fst (record_intent_retry sample_job [] sample_store) = Error e /\ e <> [].
Proof.
  destruct (duplicate_intent_refused sample_job [] sample_store
              (fst (record_intent_retry sample_job [] sample_store))
              (snd (record_intent_retry sample_job [] sample_store))) as [[e [He Hne]] _].
  - vm_compute. discriminate.
  - apply surjective_pairing.
  - exists e. split; [exact He|exact Hne].
Defined.

(** The same write fails on an armed store in both phases, with the two
    opposite verdicts. *)
Lemma record_transition_classifies_witness :
  let armed := snd (inject_write_fault Refused 0 sample_store) in
  fst (fst (record_transition (str "job-1") Renaming 101 [] AfterCommitPoint armed)) = HaltProcess /\
  db (snd (record_transition (str "job-1") Renaming 101 [] AfterCommitPoint armed)) = db sample_store.
Proof.
  split; [vm_compute; reflexivity|].
  apply (record_transition_classifies (str "job-1") Renaming 101 [] AfterCommitPoint
           (snd (inject_write_fault Refused 0 sample_store)) HaltProcess
           (snd (fst (record_transition (str "job-1") Renaming 101 [] AfterCommitPoint
              (snd (inject_write_fault Refused 0 sample_store)))))).
  - rewrite inject_db. apply sample_wf.
  - vm_compute. reflexivity.
Defined.

Lemma next_sequence_monotonic_witness :
  fst (next_sequence empty_store) = Ok 1 /\
  sequence_next (db (snd (next_sequence empty_store))) = 1.
Proof.
  split; [vm_compute; reflexivity|].
  apply (next_sequence_monotonic empty_store (Ok 1) (snd (next_sequence empty_store)));
    [simpl; lia|vm_compute; reflexivity].
Defined.

Lemma list_by_state_exact_witness :
  exists js, fst (list_by_state Queued sample_store) = Ok js /\ sample_job ∈ js.
Proof.
  exists [sample_job]. split; [vm_compute; reflexivity|].
  apply (list_by_state_exact Queued sample_store [sample_job]
           (snd (list_by_state Queued sample_store)) sample_wf).
  - vm_compute. reflexivity.
  - split; vm_compute; reflexivity.
Defined.

(** Beyond 32 bits the sequence repeats: the counter is read with
    sqlite3_column_int, so two stored counters that differ by 2^32 hand out the
    same number, although the header promises that no number is issued twice. *)
Theorem next_sequence_wraps :
  let store_at n := mkStore true false 1073741823 (mkDatabase ∅ n 1) [] in
  fst (next_sequence (store_at 4)) = Ok 5 /\
  fst (next_sequence (store_at (2 ^ 32 + 4))) = Ok 5 /\
  fst (next_sequence (store_at (2 ^ 31 - 1))) = Ok (2 ^ 64 - 2 ^ 31).
Proof. vm_compute. done. Qed.
