(* ===== verification/Crash.v ===== *)
(** Programs that may crash, and that other threads may interrupt.

    The move engine and the filesystem layer are sequences of system calls and
    durable writes, and what they promise concerns the state a crash leaves
    behind as much as the state they return in.  A [prog] is the tree of its calls: on the
    kernel state [fs], or on an extension [X] (the store, for the engine); a call is atomic.

    [run] runs a program alone over a world: the two states and a budget.  Every call costs
    one unit; with budget [Some n] the program stops dead before its (n+1)-th call, with
    budget [None] it never crashes.  [next] makes the next call only, which is how a program
    is interleaved with the rest of the process.

    [triple P m Q C] is the crash Hoare triple: from a state in [P], [m] returns
    in [Q], or crashes in [C]; without a budget it returns.  [guarantee G m] is what holds
    of every single call of [m] whatever happens between its calls. *)

From S2P Require Import Prelude.

Section Crash.
Context {fs X : Type}.

Record world := mkWorld {
  w_fs : fs;
  w_ext : X;
  w_budget : option nat
}.

(** [Note] is a change of the extension that is not an effect outside the process (a
    callback of the engine): it costs nothing and cannot crash. *)
Inductive prog (A : Type) : Type :=
| Ret (a : A)
| Sys {R : Type} (f : fs -> R * fs) (k : R -> prog A)
| Ext {R : Type} (f : X -> R * X) (k : R -> prog A)
| Note (f : X -> X) (k : prog A).
Arguments Ret {A} a.
Arguments Sys {A R} f k.
Arguments Ext {A R} f k.
Arguments Note {A} f k.

Definition ret {A} (a : A) : prog A := Ret a.
Fixpoint bind {A B} (m : prog A) (k : A -> prog B) : prog B :=
  match m with
  | Ret a => k a
  | Sys f h => Sys f (fun r => bind (h r) k)
  | Ext f h => Ext f (fun r => bind (h r) k)
  | Note f h => Note f (bind h k)
  end.

Definition syscall {A} (f : fs -> A * fs) : prog A := Sys f Ret.
Definition extcall {A} (f : X -> A * X) : prog A := Ext f Ret.
Definition note (f : X -> X) : prog unit := Note f (Ret tt).

(** One unit of the budget, or the crash. *)
Definition tick (w : world) : option world :=
  match w_budget w with
  | None => Some w
  | Some O => None
  | Some (S n) => Some (mkWorld (w_fs w) (w_ext w) (Some n))
  end.

Fixpoint run {A} (m : prog A) (w : world) : option A * world :=
  match m with
  | Ret a => (Some a, w)
  | Sys f k =>
      match tick w with
      | None => (None, w)
      | Some w1 => let '(r, s) := f (w_fs w1) in
                   run (k r) (mkWorld s (w_ext w1) (w_budget w1))
      end
  | Ext f k =>
      match tick w with
      | None => (None, w)
      | Some w1 => let '(r, x) := f (w_ext w1) in
                   run (k r) (mkWorld (w_fs w1) x (w_budget w1))
      end
  | Note f k => run k (mkWorld (w_fs w) (f (w_ext w)) (w_budget w))
  end.

(** The next call alone. *)
Definition next {A} (m : prog A) (s : fs) (x : X) : prog A * fs * X :=
  match m with
  | Ret a => (Ret a, s, x)
  | Sys f k => let '(r, s') := f s in (k r, s', x)
  | Ext f k => let '(r, x') := f x in (k r, s, x')
  | Note f k => (k, s, f x)
  end.

Definition returned {A} (m : prog A) : option A :=
  match m with Ret a => Some a | _ => None end.

Lemma run_bind {A B} (m : prog A) (k : A -> prog B) w :
  run (bind m k) w =
  match run m w with
  | (Some a, w') => run (k a) w'
  | (None, w') => (None, w')
  end.
Proof.
  revert w. induction m as [a|R f h IH|R f h IH|f h IH]; intros w; simpl; [done|..|apply IH].
  - destruct (tick w) as [w1|]; [|done]. destruct (f (w_fs w1)). apply IH.
  - destruct (tick w) as [w1|]; [|done]. destruct (f (w_ext w1)). apply IH.
Qed.

Definition triple {A} (P : fs -> X -> Prop) (m : prog A)
    (Q : A -> fs -> X -> Prop) (C : fs -> X -> Prop) : Prop :=
  forall w, P (w_fs w) (w_ext w) ->
    match run m w with
    | (Some a, w') => Q a (w_fs w') (w_ext w') /\ (w_budget w = None -> w_budget w' = None)
    | (None, w') => C (w_fs w') (w_ext w') /\ w_budget w <> None
    end.

Lemma triple_ret {A} P (a : A) Q C :
  (forall s x, P s x -> Q a s x) -> triple P (ret a) Q C.
Proof. intros H w Hw. split; [by apply H|done]. Qed.

Lemma triple_bind {A B} P (m : prog A) R (k : A -> prog B) Q C :
  triple P m R C -> (forall a, triple (R a) (k a) Q C) -> triple P (bind m k) Q C.
Proof.
  intros Hm Hk w Hw. rewrite run_bind. specialize (Hm w Hw).
  destruct (run m w) as [[a|] w1]; [|done]. destruct Hm as [Ha Hb].
  specialize (Hk a w1 Ha). destruct (run (k a) w1) as [[b|] w2].
  - destruct Hk as [? Hb2]. split; [done|]. auto.
  - destruct Hk as [? Hb2]. split; [done|]. auto.
Qed.

Lemma triple_conseq {A} (P P' : fs -> X -> Prop) (m : prog A) (Q Q' : A -> fs -> X -> Prop)
    (C C' : fs -> X -> Prop) :
  triple P m Q C -> (forall s x, P' s x -> P s x) ->
  (forall a s x, Q a s x -> Q' a s x) -> (forall s x, C s x -> C' s x) ->
  triple P' m Q' C'.
Proof.
  intros H HP HQ HC w Hw. specialize (H w (HP _ _ Hw)).
  destruct (run m w) as [[a|] w']; destruct H; split; auto.
Qed.

Lemma triple_pre {A} (P P' : fs -> X -> Prop) (m : prog A) Q C :
  triple P m Q C -> (forall s x, P' s x -> P s x) -> triple P' m Q C.
Proof. intros H HP. by eapply triple_conseq. Qed.

(** The precondition may be case-split on a pure fact. *)
Lemma triple_pure {A} (P : fs -> X -> Prop) (m : prog A) Q C (F : Prop) :
  (F -> triple P m Q C) -> triple (fun s x => F /\ P s x) m Q C.
Proof. intros H w [HF HP]. by apply H. Qed.

Lemma triple_syscall {A} (P : fs -> X -> Prop) (f : fs -> A * fs) Q C :
  (forall s x, P s x -> C s x) ->
  (forall s x a s', P s x -> f s = (a, s') -> Q a s' x) ->
  triple P (syscall f) Q C.
Proof.
  intros HC HQ w Hw. unfold syscall. simpl. unfold tick.
  destruct (w_budget w) as [[|n]|] eqn:Eb; simpl.
  - split; [by apply HC|congruence].
  - destruct (f (w_fs w)) as [a s] eqn:E. simpl. split; [by eapply HQ|done].
  - destruct (f (w_fs w)) as [a s] eqn:E. simpl. split; [by eapply HQ|congruence].
Qed.

Lemma triple_extcall {A} (P : fs -> X -> Prop) (f : X -> A * X) Q C :
  (forall s x, P s x -> C s x) ->
  (forall s x a x', P s x -> f x = (a, x') -> Q a s x') ->
  triple P (extcall f) Q C.
Proof.
  intros HC HQ w Hw. unfold extcall. simpl. unfold tick.
  destruct (w_budget w) as [[|n]|] eqn:Eb; simpl.
  - split; [by apply HC|congruence].
  - destruct (f (w_ext w)) as [a s] eqn:E. simpl. split; [by eapply HQ|done].
  - destruct (f (w_ext w)) as [a s] eqn:E. simpl. split; [by eapply HQ|congruence].
Qed.

Lemma triple_note (P : fs -> X -> Prop) (f : X -> X) Q C :
  (forall s x, P s x -> Q tt s (f x)) -> triple P (note f) Q C.
Proof. intros H w Hw. simpl. split; [by apply H|done]. Qed.

(** Rules in continuation style, for walking through a program. *)
Lemma triple_bind_ret {A B} P (a : A) (k : A -> prog B) Q C :
  triple P (k a) Q C -> triple P (bind (ret a) k) Q C.
Proof. done. Qed.

Lemma triple_bind_assoc {A B D} P (m : prog A) (k1 : A -> prog B) (k2 : B -> prog D) Q C :
  triple P (bind m (fun a => bind (k1 a) k2)) Q C -> triple P (bind (bind m k1) k2) Q C.
Proof.
  intros H w Hw. specialize (H w Hw). rewrite !run_bind in *.
  destruct (run m w) as [[a|] w']; [by rewrite run_bind in H|done].
Qed.

Lemma triple_bind_id {A} P (m : prog A) Q C :
  triple P (bind m ret) Q C -> triple P m Q C.
Proof.
  intros H w Hw. specialize (H w Hw). rewrite run_bind in H.
  by destruct (run m w) as [[a|] w'].
Qed.

Lemma triple_bind_syscall {A B} (P : fs -> X -> Prop) (f : fs -> A * fs) (k : A -> prog B) Q C :
  (forall s x, P s x -> C s x) ->
  (forall s x a s', P s x -> f s = (a, s') ->
     exists P' : fs -> X -> Prop, P' s' x /\ triple P' (k a) Q C) ->
  triple P (bind (syscall f) k) Q C.
Proof.
  intros HC HQ.
  eapply triple_bind with
    (R := fun a s x => exists P' : fs -> X -> Prop, P' s x /\ triple P' (k a) Q C).
  - apply triple_syscall; eauto.
  - intros a w (P' & Hw & Ht). by apply Ht.
Qed.

Lemma triple_bind_extcall {A B} (P : fs -> X -> Prop) (f : X -> A * X) (k : A -> prog B) Q C :
  (forall s x, P s x -> C s x) ->
  (forall s x a x', P s x -> f x = (a, x') ->
     exists P' : fs -> X -> Prop, P' s x' /\ triple P' (k a) Q C) ->
  triple P (bind (extcall f) k) Q C.
Proof.
  intros HC HQ.
  eapply triple_bind with
    (R := fun a s x => exists P' : fs -> X -> Prop, P' s x /\ triple P' (k a) Q C).
  - apply triple_extcall; eauto.
  - intros a w (P' & Hw & Ht). by apply Ht.
Qed.

(** [guarantee G m]: every call of [m] changes the extension within [G], whatever the
    answers and whatever happens to the two states between the calls. *)
Fixpoint guarantee {A} (G : X -> X -> Prop) (m : prog A) : Prop :=
  match m with
  | Ret _ => True
  | Sys f k => forall r, guarantee G (k r)
  | Ext f k => (forall x, G x (snd (f x))) /\ forall r, guarantee G (k r)
  | Note f k => (forall x, G x (f x)) /\ guarantee G k
  end.

(** Every call maintains [J] of the extension. *)
Definition keeps {A} (J : X -> Prop) : prog A -> Prop := guarantee (fun x x' => J x -> J x').

Lemma keeps_ret {A} J (a : A) : keeps J (ret a).
Proof. done. Qed.
Lemma keeps_bind {A B} J (m : prog A) (k : A -> prog B) :
  keeps J m -> (forall a, keeps J (k a)) -> keeps J (bind m k).
Proof.
  intros Hm Hk. unfold keeps in *. induction m as [a|R f h IH|R f h IH|f h IH]; simpl in *; [done|..].
  - intros r. by apply IH.
  - split; [apply Hm|]. intros r. by apply IH, Hm.
  - split; [apply Hm|]. by apply IH, Hm.
Qed.
Lemma keeps_syscall {A} J (f : fs -> A * fs) : keeps J (syscall f).
Proof. done. Qed.
Lemma keeps_extcall {A} (J : X -> Prop) (f : X -> A * X) :
  (forall x, J x -> J (snd (f x))) -> keeps J (extcall f).
Proof. done. Qed.
Lemma keeps_note (J : X -> Prop) (f : X -> X) : (forall x, J x -> J (f x)) -> keeps J (note f).
Proof. done. Qed.

Lemma tick_ext w w1 : tick w = Some w1 -> w_ext w1 = w_ext w.
Proof. unfold tick. destruct (w_budget w) as [[|]|]; [done|..]; by intros [= <-]. Qed.

Lemma keeps_run {A} J (m : prog A) w : keeps J m -> J (w_ext w) -> J (w_ext (snd (run m w))).
Proof.
  revert w. induction m as [a|R f h IH|R f h IH|f h IH]; intros w Hm Hw; simpl; [done|..].
  - destruct (tick w) as [w1|] eqn:Et; [|done]. apply tick_ext in Et.
    destruct (f (w_fs w1)). apply IH; [apply Hm|]. simpl. by rewrite Et.
  - destruct (tick w) as [w1|] eqn:Et; [|done]. apply tick_ext in Et. destruct Hm as [Hf Hk].
    specialize (Hf (w_ext w1)). destruct (f (w_ext w1)). apply IH; [apply Hk|]. apply Hf. by rewrite Et.
  - destruct Hm as [Hf Hk]. apply IH; [done|]. by apply Hf.
Qed.

Lemma keeps_next {A} J (m m' : prog A) s x s' x' :
  keeps J m -> next m s x = (m', s', x') -> keeps J m' /\ (J x -> J x').
Proof.
  destruct m as [a|R f h|R f h|f h]; simpl; intros Hm.
  - by intros [= <- <- <-].
  - destruct (f s). intros [= <- <- <-]. split; [apply Hm|done].
  - destruct Hm as [Hf Hk]. specialize (Hf x). destruct (f x).
    intros [= <- <- <-]. split; [apply Hk|done].
  - destruct Hm as [Hf Hk]. intros [= <- <- <-]. split; [done|apply Hf].
Qed.

(** ** Calls one by one

    A program alone: its calls in a row, from one pair of states to another. *)
Definition alone {A} (c c' : prog A * fs * X) : Prop :=
  returned (fst (fst c)) = None /\ next (fst (fst c)) (snd (fst c)) (snd c) = c'.

(** Nothing but the calls of the program makes its run. *)
Lemma run_alone {A} (m : prog A) s x :
  exists a s' x', run m (mkWorld s x None) = (Some a, mkWorld s' x' None) /\
    star alone (m, s, x) (Ret a, s', x').
Proof.
  revert s x. induction m as [a|R f h IH|R f h IH|f h IH]; intros s x; simpl.
  - exists a, s, x. split; [done|constructor].
  - destruct (f s) as [r s1] eqn:E. destruct (IH r s1 x) as (a & s' & x' & Hr & Hs).
    exists a, s', x'. split; [done|]. eapply star_step; [|exact Hs].
    split; [done|]. simpl. by rewrite E.
  - destruct (f x) as [r x1] eqn:E. destruct (IH r s x1) as (a & s' & x' & Hr & Hs).
    exists a, s', x'. split; [done|]. eapply star_step; [|exact Hs].
    split; [done|]. simpl. by rewrite E.
  - destruct (IH s (f x)) as (a & s' & x' & Hr & Hs).
    exists a, s', x'. split; [done|]. by eapply star_step; [|exact Hs].
Qed.

(** What a triple says of a run. *)
Lemma triple_run {A} P (m : prog A) Q C w :
  triple P m Q C -> P (w_fs w) (w_ext w) -> w_budget w = None ->
  exists a w', run m w = (Some a, w') /\ Q a (w_fs w') (w_ext w') /\ w_budget w' = None.
Proof.
  intros H HP Hb. specialize (H w HP). destruct (run m w) as [[a|] w'].
  - exists a, w'. destruct H. auto.
  - destruct H. done.
Qed.
End Crash.

Arguments world : clear implicits.
Arguments prog : clear implicits.
Arguments Ret {fs X A} a.
Arguments Sys {fs X A R} f k.
Arguments Ext {fs X A R} f k.
Arguments Note {fs X A} f k.
#[global] Arguments bind : simpl never.

(** A program applied to a world is its run. *)
Coercion run : prog >-> Funclass.

Declare Scope prog_scope.
Delimit Scope prog_scope with prog.
Notation "x <-- m ;; k" := (bind m (fun x => k))
  (at level 100, m at next level, right associativity) : prog_scope.
Notation "m ;;; k" := (bind m (fun _ => k))
  (at level 100, right associativity) : prog_scope.

(** Walks a program made of kernel calls and of steps already known to keep [J]. *)
Ltac keeps_walk :=
  repeat first
    [ apply keeps_ret | apply keeps_syscall | assumption
    | (simple apply keeps_bind; [|intros ?])
    | solve [auto with fm]
    | case_match ].
