(* ===== verification/Kernel.v ===== *)
(** The system-call interface the filesystem layer runs on.

    The kernel is not part of the repository: [Kernel] lists the calls fsops.cpp
    and mover.cpp make, [KernelLaws] states what they rely on, as documented in
    the Linux manual pages (open(2), stat(2), rename(2), link(2), unlink(2)): a
    failed call does not change the namespace, linkat and RENAME_NOREPLACE never
    replace an existing name, rename moves one name onto another atomically.  A
    call may fail at any time with any errno.  [KernelLive] adds that in a
    [healthy] state (both directories on one filesystem, no quota, permission or
    I/O failure) a call whose documented preconditions hold succeeds; [healthy]
    may be empty, so the class demands nothing of a kernel by itself.

    The view of the namespace is [entries], from (directory, name) to the object
    the name denotes, and [fds], from a descriptor to the object it has open;
    [resolve] is the directory an absolute path denotes and [stat_of] the
    attributes of an object, neither of which changes while the engine runs.

    [MemFs] is an executable instance, with a schedule of injected failures; [MemPlus]
    extends it by the state of further calls. *)

From S2P Require Import Prelude.

Record stat := mkStat { st_dev : Z; st_ino : Z; st_mode : Z; st_uid : Z }.

(** errno values of Linux on x86_64, the only target fsops.cpp compiles for. *)
Definition EPERM : Z := 1.
Definition ENOENT : Z := 2.
Definition EINTR : Z := 4.
Definition EIO : Z := 5.
Definition EBADF : Z := 9.
Definition EAGAIN : Z := 11.
Definition ENOMEM : Z := 12.
Definition EACCES : Z := 13.
Definition EBUSY : Z := 16.
Definition EEXIST : Z := 17.
Definition ENOTDIR : Z := 20.
Definition EINVAL : Z := 22.
Definition ENOSPC : Z := 28.
Definition EROFS : Z := 30.
Definition ENOSYS : Z := 38.
Definition ELOOP : Z := 40.
Definition EOPNOTSUPP : Z := 95.
Definition ETIMEDOUT : Z := 110.
Definition ESTALE : Z := 116.

Class Kernel (fs : Type) := {
  (** open(path, O_RDONLY|O_DIRECTORY|O_NOFOLLOW) *)
  sys_open_dir : bytes -> fs -> result Z Z * fs;
  (** openat(dirfd, name, O_RDONLY|O_DIRECTORY|O_NOFOLLOW) *)
  sys_openat_dir : Z -> bytes -> fs -> result Z Z * fs;
  (** openat(dirfd, name, O_RDONLY|O_NOFOLLOW) *)
  sys_openat : Z -> bytes -> fs -> result Z Z * fs;
  (** openat(dirfd, name, O_RDWR|O_CREAT|O_CLOEXEC|O_NOFOLLOW, 0600) *)
  sys_openat_lock : Z -> bytes -> fs -> result Z Z * fs;
  (** fstatat(dirfd, name, AT_SYMLINK_NOFOLLOW) *)
  sys_fstatat : Z -> bytes -> fs -> result stat Z * fs;
  sys_fstat : Z -> fs -> result stat Z * fs;
  (** renameat2(olddirfd, old, newdirfd, new, RENAME_NOREPLACE) *)
  sys_renameat2 : Z -> bytes -> Z -> bytes -> fs -> result unit Z * fs;
  sys_renameat : Z -> bytes -> Z -> bytes -> fs -> result unit Z * fs;
  sys_linkat : Z -> bytes -> Z -> bytes -> fs -> result unit Z * fs;
  sys_unlinkat : Z -> bytes -> fs -> result unit Z * fs;
  sys_fsync : Z -> fs -> result unit Z * fs;
  sys_close : Z -> fs -> unit * fs;
  strerror : Z -> bytes
}.

(** A name in a directory. *)
Notation entry := (Z * bytes)%type.

Class KernelLaws (fs : Type) `{Kernel fs} := {
  entries : fs -> gmap entry Z;
  fds : fs -> gmap Z Z;
  resolve : bytes -> option Z;
  stat_of : Z -> stat;

  open_dir_law p s r s' : sys_open_dir p s = (r, s') ->
    entries s' = entries s /\
    match r with
    | Ok fd => 0 <= fd /\ fds s !! fd = None /\
               exists d, resolve p = Some d /\ fds s' = <[fd := d]> (fds s)
    | Error _ => fds s' = fds s
    end;
  openat_law dfd n s r s' : sys_openat dfd n s = (r, s') ->
    entries s' = entries s /\
    match r with
    | Ok fd => 0 <= fd /\ fds s !! fd = None /\
               exists d o, fds s !! dfd = Some d /\ entries s !! (d, n) = Some o /\
                           fds s' = <[fd := o]> (fds s)
    | Error _ => fds s' = fds s
    end;
  fstatat_law dfd n s r s' : sys_fstatat dfd n s = (r, s') ->
    entries s' = entries s /\ fds s' = fds s /\
    match r with
    | Ok st => exists d o, fds s !! dfd = Some d /\ entries s !! (d, n) = Some o /\
                           st = stat_of o
    | Error e => e = ENOENT -> forall d, fds s !! dfd = Some d -> entries s !! (d, n) = None
    end;
  fstat_law fd s r s' : sys_fstat fd s = (r, s') ->
    entries s' = entries s /\ fds s' = fds s /\
    match r with
    | Ok st => exists o, fds s !! fd = Some o /\ st = stat_of o
    | Error _ => True
    end;
  fsync_law fd s r s' : sys_fsync fd s = (r, s') ->
    entries s' = entries s /\ fds s' = fds s;
  close_law fd s u s' : sys_close fd s = (u, s') ->
    entries s' = entries s /\ fds s' = delete fd (fds s);
  (** rename(2), RENAME_NOREPLACE: "Don't overwrite newpath of the rename.
      Return an error if newpath already exists." *)
  renameat2_law ofd on nfd nn s r s' : sys_renameat2 ofd on nfd nn s = (r, s') ->
    fds s' = fds s /\
    match r with
    | Ok _ => exists d1 d2 o, fds s !! ofd = Some d1 /\ fds s !! nfd = Some d2 /\
        entries s !! (d1, on) = Some o /\ entries s !! (d2, nn) = None /\
        entries s' = <[(d2, nn) := o]> (delete (d1, on) (entries s))
    | Error _ => entries s' = entries s
    end;
  (** rename(2): an existing newpath is replaced; when both names are links to
      one file, rename does nothing and succeeds. *)
  renameat_law ofd on nfd nn s r s' : sys_renameat ofd on nfd nn s = (r, s') ->
    fds s' = fds s /\
    match r with
    | Ok _ => exists d1 d2 o, fds s !! ofd = Some d1 /\ fds s !! nfd = Some d2 /\
        entries s !! (d1, on) = Some o /\
        entries s' = (if decide (entries s !! (d2, nn) = Some o) then entries s
                      else <[(d2, nn) := o]> (delete (d1, on) (entries s)))
    | Error _ => entries s' = entries s
    end;
  (** link(2): "If newpath exists, it will not be overwritten." *)
  linkat_law ofd on nfd nn s r s' : sys_linkat ofd on nfd nn s = (r, s') ->
    fds s' = fds s /\
    match r with
    | Ok _ => exists d1 d2 o, fds s !! ofd = Some d1 /\ fds s !! nfd = Some d2 /\
        entries s !! (d1, on) = Some o /\ entries s !! (d2, nn) = None /\
        entries s' = <[(d2, nn) := o]> (entries s)
    | Error _ => entries s' = entries s
    end;
  unlinkat_law dfd n s r s' : sys_unlinkat dfd n s = (r, s') ->
    fds s' = fds s /\
    match r with
    | Ok _ => exists d o, fds s !! dfd = Some d /\ entries s !! (d, n) = Some o /\
        entries s' = delete (d, n) (entries s)
    | Error _ => entries s' = entries s
    end
}.

(** Calls whose preconditions hold succeed: no injected failure. *)
Class KernelLive (fs : Type) `{KernelLaws fs} := {
  healthy : fs -> Prop;
  live_open_dir p s r s' : healthy s -> sys_open_dir p s = (r, s') ->
    healthy s' /\ forall d, resolve p = Some d -> is_ok r = true;
  live_openat dfd n s r s' : healthy s -> sys_openat dfd n s = (r, s') ->
    healthy s' /\
    forall d o, fds s !! dfd = Some d -> entries s !! (d, n) = Some o -> is_ok r = true;
  live_fstatat dfd n s r s' : healthy s -> sys_fstatat dfd n s = (r, s') ->
    healthy s' /\
    forall d, fds s !! dfd = Some d ->
      r = match entries s !! (d, n) with Some o => Ok (stat_of o) | None => Error ENOENT end;
  live_fstat fd s r s' : healthy s -> sys_fstat fd s = (r, s') ->
    healthy s' /\ forall o, fds s !! fd = Some o -> is_ok r = true;
  live_fsync fd s r s' : healthy s -> sys_fsync fd s = (r, s') ->
    healthy s' /\ forall o, fds s !! fd = Some o -> is_ok r = true;
  live_close fd s u s' : healthy s -> sys_close fd s = (u, s') -> healthy s';
  live_renameat2 ofd on nfd nn s r s' : healthy s ->
    sys_renameat2 ofd on nfd nn s = (r, s') ->
    healthy s' /\
    forall d1 d2 o, fds s !! ofd = Some d1 -> fds s !! nfd = Some d2 ->
      entries s !! (d1, on) = Some o -> entries s !! (d2, nn) = None -> is_ok r = true;
  live_renameat ofd on nfd nn s r s' : healthy s ->
    sys_renameat ofd on nfd nn s = (r, s') ->
    healthy s' /\
    forall d1 d2 o, fds s !! ofd = Some d1 -> fds s !! nfd = Some d2 ->
      entries s !! (d1, on) = Some o -> entries s !! (d2, nn) = None -> is_ok r = true;
  live_linkat ofd on nfd nn s r s' : healthy s ->
    sys_linkat ofd on nfd nn s = (r, s') ->
    healthy s' /\
    forall d1 d2 o, fds s !! ofd = Some d1 -> fds s !! nfd = Some d2 ->
      entries s !! (d1, on) = Some o -> entries s !! (d2, nn) = None -> is_ok r = true;
  live_unlinkat dfd n s r s' : healthy s -> sys_unlinkat dfd n s = (r, s') ->
    healthy s' /\
    forall d o, fds s !! dfd = Some d -> entries s !! (d, n) = Some o -> is_ok r = true
}.

(** * An in-memory kernel

    [memfs rs so] keeps the namespace, the descriptor table and the schedule of
    failures the environment injects: each call consumes one element, and
    [Some e] makes it fail with errno [e] and change nothing (EIO stands in for an
    injected ENOENT, which would be a lie about the namespace).  [rs] and [so] are
    the path resolution and the object attributes. *)

Record memfs (rs : bytes -> option Z) (so : Z -> stat) := mkMem {
  m_entries : gmap entry Z;
  m_fds : gmap Z Z;
  m_faults : list (option Z)
}.
Arguments mkMem {rs so} _ _ _.
Arguments m_entries {rs so} _.
Arguments m_fds {rs so} _.
Arguments m_faults {rs so} _.

Section MemFs.
Context {rs : bytes -> option Z} {so : Z -> stat}.
Local Abbreviation mem := (memfs rs so).

(** The smallest descriptor above every open one. *)
Definition next_fd (m : gmap Z Z) : Z := 1 + map_fold (fun k _ acc => Z.max k acc) 2 m.

Definition mem_fault {A} (s : mem) (k : mem -> result A Z * mem) : result A Z * mem :=
  match m_faults s with
  | [] => k s
  | Some e :: fs => (Error (if e =? ENOENT then EIO else e), mkMem (m_entries s) (m_fds s) fs)
  | None :: fs => k (mkMem (m_entries s) (m_fds s) fs)
  end.

Definition mem_install (o : Z) (s : mem) : result Z Z * mem :=
  let fd := next_fd (m_fds s) in
  (Ok fd, mkMem (m_entries s) (<[fd := o]> (m_fds s)) (m_faults s)).

Definition mem_lookup (dfd : Z) (n : bytes) (s : mem) : result Z Z :=
  match m_fds s !! dfd with
  | None => Error EBADF
  | Some d => match m_entries s !! (d, n) with
              | None => Error ENOENT
              | Some o => Ok o
              end
  end.

Definition mem_open_dir (p : bytes) (s : mem) : result Z Z * mem :=
  mem_fault s (fun s => match rs p with
                        | None => (Error ENOENT, s)
                        | Some d => mem_install d s
                        end).
Definition mem_openat (dfd : Z) (n : bytes) (s : mem) : result Z Z * mem :=
  mem_fault s (fun s => match mem_lookup dfd n s with
                        | Error e => (Error e, s)
                        | Ok o => mem_install o s
                        end).
Definition mem_openat_lock (dfd : Z) (n : bytes) (s : mem) : result Z Z * mem :=
  mem_fault s (fun s =>
    match m_fds s !! dfd with
    | None => (Error EBADF, s)
    | Some d =>
        match m_entries s !! (d, n) with
        | Some o => mem_install o s
        | None =>
            let o := 1 + map_fold (fun _ o acc => Z.max o acc) 0 (m_entries s) in
            mem_install o (mkMem (<[(d, n) := o]> (m_entries s)) (m_fds s) (m_faults s))
        end
    end).
Definition mem_fstatat (dfd : Z) (n : bytes) (s : mem) : result stat Z * mem :=
  mem_fault s (fun s => match mem_lookup dfd n s with
                        | Error e => (Error e, s)
                        | Ok o => (Ok (so o), s)
                        end).
Definition mem_fstat (fd : Z) (s : mem) : result stat Z * mem :=
  mem_fault s (fun s => match m_fds s !! fd with
                        | None => (Error EBADF, s)
                        | Some o => (Ok (so o), s)
                        end).
Definition mem_fsync (fd : Z) (s : mem) : result unit Z * mem :=
  mem_fault s (fun s => match m_fds s !! fd with
                        | None => (Error EBADF, s)
                        | Some _ => (Ok tt, s)
                        end).
Definition mem_close (fd : Z) (s : mem) : unit * mem :=
  (tt, mkMem (m_entries s) (delete fd (m_fds s)) (m_faults s)).

Definition set_entries (e : gmap entry Z) (s : mem) : mem :=
  mkMem e (m_fds s) (m_faults s).

(** The three calls that name an existing object and a target. *)
Definition mem_rename_like (replace : bool) (keep : bool)
    (ofd : Z) (on : bytes) (nfd : Z) (nn : bytes) (s : mem) : result unit Z * mem :=
  mem_fault s (fun s =>
    match m_fds s !! ofd, m_fds s !! nfd with
    | Some d1, Some d2 =>
        match m_entries s !! (d1, on) with
        | None => (Error ENOENT, s)
        | Some o =>
            match m_entries s !! (d2, nn) with
            | Some o2 =>
                if replace then
                  if decide (o2 = o) then (Ok tt, s)
                  else (Ok tt, set_entries (<[(d2, nn) := o]> (delete (d1, on) (m_entries s))) s)
                else (Error EEXIST, s)
            | None =>
                (Ok tt, set_entries (<[(d2, nn) := o]>
                   (if keep then m_entries s else delete (d1, on) (m_entries s))) s)
            end
        end
    | _, _ => (Error EBADF, s)
    end).
Definition mem_unlinkat (dfd : Z) (n : bytes) (s : mem) : result unit Z * mem :=
  mem_fault s (fun s =>
    match m_fds s !! dfd with
    | None => (Error EBADF, s)
    | Some d => match m_entries s !! (d, n) with
                | None => (Error ENOENT, s)
                | Some _ => (Ok tt, set_entries (delete (d, n) (m_entries s)) s)
                end
    end).

#[export] Instance MemKernel : Kernel mem := {
  sys_open_dir := mem_open_dir;
  sys_openat_dir := mem_openat;
  sys_openat := mem_openat;
  sys_openat_lock := mem_openat_lock;
  sys_fstatat := mem_fstatat;
  sys_fstat := mem_fstat;
  sys_renameat2 := mem_rename_like false false;
  sys_renameat := mem_rename_like true false;
  sys_linkat := mem_rename_like false true;
  sys_unlinkat := mem_unlinkat;
  sys_fsync := mem_fsync;
  sys_close := mem_close;
  strerror := fun e => str "errno " ++ dec e
}.

Lemma next_fd_fresh (m : gmap Z Z) : 0 <= next_fd m /\ m !! next_fd m = None.
Proof.
  unfold next_fd. set (f := fun k (_ : Z) acc => Z.max k acc).
  assert (2 <= map_fold f 2 m /\ forall k v, m !! k = Some v -> k <= map_fold f 2 m) as [H1 H2].
  { apply (map_fold_weak_ind (fun r m => 2 <= r /\ forall k v, m !! k = Some v -> k <= r)).
    - split; [lia|]. intros k v. by rewrite lookup_empty.
    - intros i x m' r _ [Hr Hk]. unfold f. split; [lia|]. intros k v.
      rewrite lookup_insert_Some. intros [[<- _]|[_ Hv]]; [lia|].
      specialize (Hk k v Hv). lia. }
  split; [lia|]. destruct (m !! _) eqn:E; [|done]. apply H2 in E. lia.
Qed.

Lemma mem_fault_spec {A} s (k : mem -> result A Z * mem) r s' :
  mem_fault s k = (r, s') ->
  (exists e, r = Error e /\ e <> ENOENT /\ m_entries s' = m_entries s /\ m_fds s' = m_fds s) \/
  (exists s1, m_entries s1 = m_entries s /\ m_fds s1 = m_fds s /\ k s1 = (r, s')).
Proof.
  unfold mem_fault. destruct (m_faults s) as [|[e|] fs]; intros H.
  - right. exists s. done.
  - left. simplify_eq. eexists. split_and!; [done| |done|done].
    by destruct (Z.eqb_spec e ENOENT).
  - right. eexists. split_and!; [| |exact H]; done.
Qed.

Lemma mem_lookup_Ok dfd n s o :
  mem_lookup dfd n s = Ok o ->
  exists d, m_fds s !! dfd = Some d /\ m_entries s !! (d, n) = Some o.
Proof. unfold mem_lookup. intros. repeat case_match; naive_solver. Qed.

(** Splits a call into the injected failure and the call proper. *)
Ltac mem_split :=
  match goal with
  | H : mem_fault _ _ = _ |- _ =>
      apply mem_fault_spec in H as [(e & -> & Hne & ? & ?)|(s1 & He & Hf & H)]
  end.

#[export] Instance MemLaws : KernelLaws mem.
Proof.
  refine {| entries := m_entries; fds := m_fds; resolve := rs; stat_of := so |}; simpl.
  - unfold mem_open_dir. intros p s r s' H. mem_split; [done|].
    destruct (rs p) as [d|] eqn:E; [|by simplify_eq]. unfold mem_install in H.
    simplify_eq/=. split; [done|]. rewrite <- Hf.
    destruct (next_fd_fresh (m_fds s1)). eauto.
  - unfold mem_openat. intros dfd n s r s' H. mem_split; [done|].
    destruct (mem_lookup dfd n s1) as [o|e] eqn:E; [|by simplify_eq].
    apply mem_lookup_Ok in E as (d & Hd & Ho). unfold mem_install in H.
    simplify_eq/=. split; [done|]. rewrite <- Hf, <- He.
    destruct (next_fd_fresh (m_fds s1)). eauto 10.
  - unfold mem_fstatat. intros dfd n s r s' H. mem_split; [done|].
    destruct (mem_lookup dfd n s1) as [o|e] eqn:E; simplify_eq/=.
    + apply mem_lookup_Ok in E as (d & Hd & Ho). rewrite <- Hf, <- He. eauto 10.
    + split_and!; [done|done|]. intros -> d Hd. unfold mem_lookup in E.
      rewrite Hf, Hd, He in E. by destruct (m_entries s !! (d, n)).
  - unfold mem_fstat. intros fd s r s' H. mem_split; [done|].
    destruct (m_fds s1 !! fd) eqn:E; simplify_eq/=; rewrite <- ?Hf, <- ?He; eauto.
  - unfold mem_fsync. intros fd s r s' H. mem_split; [done|].
    destruct (m_fds s1 !! fd) eqn:E; simplify_eq/=; by rewrite <- ?Hf, <- ?He.
  - unfold mem_close. intros fd s u s' H. by simplify_eq/=.
  - unfold mem_rename_like. intros ofd on nfd nn s r s' H. mem_split; [done|].
    rewrite <- Hf, <- He. repeat case_match; simplify_eq/=; naive_solver.
  - unfold mem_rename_like. intros ofd on nfd nn s r s' H. mem_split; [done|].
    rewrite <- Hf, <- He. repeat case_match; simplify_eq/=; try done;
      (split; [done|]); do 3 eexists; split_and!; try done; match goal with |- context [decide ?P] => destruct (decide P) end; congruence.
  - unfold mem_rename_like. intros ofd on nfd nn s r s' H. mem_split; [done|].
    rewrite <- Hf, <- He. repeat case_match; simplify_eq/=; naive_solver.
  - unfold mem_unlinkat. intros dfd n s r s' H. mem_split; [done|].
    rewrite <- Hf, <- He. repeat case_match; simplify_eq/=; naive_solver.
Defined.

(** Without injected failures every call whose preconditions hold succeeds. *)
#[export] Instance MemLive : KernelLive mem.
Proof.
  refine {| healthy := fun s => m_faults s = [] |}; simpl;
    unfold mem_open_dir, mem_openat, mem_fstatat, mem_fstat, mem_fsync, mem_close,
      mem_rename_like, mem_unlinkat, mem_lookup, mem_install, mem_fault, set_entries;
    intros; repeat (case_match; simplify_eq/=); try split; intros; simplify_eq/=; try done;
    by repeat case_match; simplify_eq/=.
Defined.
End MemFs.

(** * The in-memory kernel with more state

    A component that uses further calls adds their state [A]; [on_close] is what closing a
    descriptor does to it. *)

Record memplus (rs : bytes -> option Z) (so : Z -> stat) (A : Type) (on_close : Z -> A -> A) := mkPlus {
  mp_mem : memfs rs so;
  mp_data : A
}.
Arguments mkPlus {rs so A on_close} _ _.
Arguments mp_mem {rs so A on_close} _.
Arguments mp_data {rs so A on_close} _.

Section MemPlus.
Context {rs : bytes -> option Z} {so : Z -> stat} {A : Type} {on_close : Z -> A -> A}.
Local Abbreviation plus := (memplus rs so A on_close).

Definition lift {B} (f : memfs rs so -> B * memfs rs so) (s : plus) : B * plus :=
  let '(b, m) := f (mp_mem s) in (b, mkPlus m (mp_data s)).

Definition plus_close (fd : Z) (s : plus) : unit * plus :=
  (tt, mkPlus (snd (mem_close fd (mp_mem s))) (on_close fd (mp_data s))).

#[export] Instance PlusKernel : Kernel plus := {
  sys_open_dir p := lift (sys_open_dir p);
  sys_openat_dir d n := lift (sys_openat_dir d n);
  sys_openat d n := lift (sys_openat d n);
  sys_openat_lock d n := lift (sys_openat_lock d n);
  sys_fstatat d n := lift (sys_fstatat d n);
  sys_fstat fd := lift (sys_fstat fd);
  sys_renameat2 a b c d := lift (sys_renameat2 a b c d);
  sys_renameat a b c d := lift (sys_renameat a b c d);
  sys_linkat a b c d := lift (sys_linkat a b c d);
  sys_unlinkat d n := lift (sys_unlinkat d n);
  sys_fsync fd := lift (sys_fsync fd);
  sys_close := plus_close;
  strerror := strerror (fs := memfs rs so)
}.

Lemma lift_inv {B} (f : memfs rs so -> B * memfs rs so) (s : plus) b s' :
  lift f s = (b, s') -> f (mp_mem s) = (b, mp_mem s') /\ mp_data s' = mp_data s.
Proof. unfold lift. destruct (f (mp_mem s)) as [c m]. by intros [= <- <-]. Qed.

#[export] Instance PlusLaws : KernelLaws plus.
Proof.
  refine {| entries s := entries (mp_mem s); fds s := fds (mp_mem s); resolve := rs; stat_of := so |}.
  - intros ? ? ? ? [E _]%lift_inv. exact (open_dir_law _ _ _ _ E).
  - intros ? ? ? ? ? [E _]%lift_inv. exact (openat_law _ _ _ _ _ E).
  - intros ? ? ? ? ? [E _]%lift_inv. exact (fstatat_law _ _ _ _ _ E).
  - intros ? ? ? ? [E _]%lift_inv. exact (fstat_law _ _ _ _ E).
  - intros ? ? ? ? [E _]%lift_inv. exact (fsync_law _ _ _ _ E).
  - intros fd s u s' E. injection E as _ <-. done.
  - intros ? ? ? ? ? ? ? [E _]%lift_inv. exact (renameat2_law _ _ _ _ _ _ _ E).
  - intros ? ? ? ? ? ? ? [E _]%lift_inv. exact (renameat_law _ _ _ _ _ _ _ E).
  - intros ? ? ? ? ? ? ? [E _]%lift_inv. exact (linkat_law _ _ _ _ _ _ _ E).
  - intros ? ? ? ? ? [E _]%lift_inv. exact (unlinkat_law _ _ _ _ _ E).
Defined.
End MemPlus.
