(* ===== verification/FsOps.v ===== *)
(** The fd-relative filesystem layer: src/cpp/src/fsops.cpp and
    src/cpp/include/filemover/fsops.hpp, over the interface of Kernel.v.

    A DirHandle is its descriptor ([-1] when closed).  Operations are programs
    that may crash (Crash.v); [bool f(..., T& out, std::string& error)] is a
    program returning [Ok out] or [Error error].  Names reach the kernel through
    [c_str()]; a plain name holds no NUL, so nothing is cut.  The pre-open hook is a
    program that runs between the checks of [open_regular] and its openat. *)

From S2P Require Import Prelude Kernel Crash.

(** * Data *)

Inductive EntryKind :=
| Missing | Regular | Directory | Symlink | Fifo | Socket | BlockDevice | CharDevice | Unknown.

Inductive MoveStrategy := RenameNoReplace | LinkThenUnlink.
Inductive ErrorClass := Retryable | Denied | Fatal.
Inductive MoveState := NotStarted | Interrupted | Collision | MoveCompleted | BothMissing.

#[export] Instance EntryKind_eq_dec : EqDecision EntryKind.
Proof. solve_decision. Defined.
#[export] Instance MoveStrategy_eq_dec : EqDecision MoveStrategy.
Proof. solve_decision. Defined.
#[export] Instance MoveState_eq_dec : EqDecision MoveState.
Proof. solve_decision. Defined.

Record FileIdentity := mkIdentity { dev : Z; ino : Z; kind : EntryKind }.

#[export] Instance FileIdentity_eq_dec : EqDecision FileIdentity.
Proof. solve_decision. Defined.

Definition no_identity : FileIdentity := mkIdentity 0 0 Missing.

Definition same_object_as (a b : FileIdentity) : bool :=
  (dev a =? dev b) && (ino a =? ino b) && bool_decide (kind a = kind b).

(** * Pure helpers *)

Definition kind_to_string (k : EntryKind) : bytes :=
  match k with
  | Missing => str "MISSING" | Regular => str "REGULAR" | Directory => str "DIRECTORY"
  | Symlink => str "SYMLINK" | Fifo => str "FIFO" | Socket => str "SOCKET"
  | BlockDevice => str "BLOCK_DEVICE" | CharDevice => str "CHAR_DEVICE"
  | Unknown => str "UNKNOWN"
  end.

Definition strategy_to_string (strategy : MoveStrategy) : bytes :=
  match strategy with
  | RenameNoReplace => str "RENAME_NOREPLACE"
  | LinkThenUnlink => str "LINK_THEN_UNLINK"
  end.

Definition class_to_string (klass : ErrorClass) : bytes :=
  match klass with
  | Retryable => str "RETRYABLE" | Denied => str "DENIED" | Fatal => str "FATAL"
  end.

Definition move_state_to_string (state : MoveState) : bytes :=
  match state with
  | NotStarted => str "NOT_STARTED" | Interrupted => str "INTERRUPTED"
  | Collision => str "COLLISION" | MoveCompleted => str "COMPLETED"
  | BothMissing => str "BOTH_MISSING"
  end.

(** S_IFMT and the file type bits of st_mode. *)
Definition S_IFMT : Z := 0xF000.
Definition S_IFSOCK : Z := 0xC000.
Definition S_IFLNK : Z := 0xA000.
Definition S_IFREG : Z := 0x8000.
Definition S_IFBLK : Z := 0x6000.
Definition S_IFDIR : Z := 0x4000.
Definition S_IFCHR : Z := 0x2000.
Definition S_IFIFO : Z := 0x1000.
Definition S_ISVTX : Z := 0x200.
Definition S_IWOTH : Z := 0x2.

Definition is_type (t mode : Z) : bool := Z.land mode S_IFMT =? t.

Definition kind_from_mode (mode : Z) : EntryKind :=
  if is_type S_IFREG mode then Regular
  else if is_type S_IFDIR mode then Directory
  else if is_type S_IFLNK mode then Symlink
  else if is_type S_IFIFO mode then Fifo
  else if is_type S_IFSOCK mode then Socket
  else if is_type S_IFBLK mode then BlockDevice
  else if is_type S_IFCHR mode then CharDevice
  else Unknown.

Definition identity_of (st : stat) : FileIdentity :=
  mkIdentity (st_dev st) (st_ino st) (kind_from_mode (st_mode st)).

Definition is_plain_name (name : bytes) : bool :=
  if (name == []) || (name == str ".") || (name == str "..") then false
  else negb (contains "/" name) && negb (contains nul name).

Definition bad_name_error (name : bytes) : bytes :=
  str "fsops: '" ++ name ++ str "' is not a plain entry name; this layer takes names relative to a directory descriptor, never paths (L2-SEC-001)".

(** [reject_bad_name]: the error when the name is refused. *)
Definition reject_bad_name (name : bytes) : option bytes :=
  if is_plain_name name then None else Some (bad_name_error name).

Definition classify_errno (err : Z) : ErrorClass :=
  if bool_decide (err ∈ [ESTALE; EAGAIN; EINTR; ENOMEM; ENOSPC; EBUSY; ETIMEDOUT])
  then Retryable
  else if bool_decide (err ∈ [EACCES; EPERM; EROFS]) then Denied
  else Fatal.

(** Match on the prefix and at least one more character. *)
Definition is_silly_rename (name : bytes) : bool :=
  (4 <? slen name) && starts_with (str ".nfs") name.

(** [std::hex << int]: lower case, no padding. *)
Definition hex_byte (n : Z) : bytes :=
  if n <? 16 then [hex_char n] else [hex_char (n / 16); hex_char (n mod 16)].

Definition is_control (c : ascii) : bool := (code c <? 0x20) || (code c =? 0x7F).

(** The first control character and its offset. *)
Fixpoint find_control (i : Z) (s : bytes) : option (ascii * Z) :=
  match s with
  | [] => None
  | c :: s' => if is_control c then Some (c, i) else find_control (i + 1) s'
  end.

(** The component scan: is some component between slashes equal to [..]? *)
Fixpoint has_dotdot (cur s : bytes) : bool :=
  match s with
  | [] => cur == str ".."
  | c :: s' => if Ascii.eqb c "/" then (cur == str "..") || has_dotdot [] s'
               else has_dotdot (cur ++ [c]) s'
  end.

Definition validate_external_path (path : bytes) : result unit bytes :=
  match path with
  | [] => Error (str "path is empty")
  | c :: _ =>
      if negb (Ascii.eqb c "/") then
        Error (str "path '" ++ path ++ str "' is not absolute")
      else
        match find_control 0 path with
        | Some (c, i) =>
            Error (str "path contains a control character (0x" ++ hex_byte (code c)
                   ++ str ") at offset " ++ dec i)
        | None =>
            if has_dotdot [] path then
              Error (str "path '" ++ path ++ str "' contains a '..' component")
            else Ok tt
        end
  end.

(** * Operations *)

Section Operations.
Context {fs X : Type} `{!Kernel fs}.
Local Open Scope prog_scope.
Local Abbreviation P := (prog fs X).

Definition errno_message (what : bytes) (err : Z) : bytes :=
  str "fsops: " ++ what ++ str ": " ++ strerror err.

Definition dir_not_open : bytes := str "fsops: directory is not open".

(** ** DirHandle *)

Definition dir_is_open (h : Z) : bool := 0 <=? h.

Definition dir_close (h : Z) : P Z :=
  if dir_is_open h then syscall (sys_close h) ;;; ret (-1) else ret h.

Definition open_root (h : Z) (path : bytes) : P (result Z bytes) :=
  dir_close h ;;;
  r <-- syscall (sys_open_dir (c_str path)) ;;
  match r with
  | Error e =>
      ret (Error (errno_message (str "cannot open root directory '" ++ path ++ str "'") e))
  | Ok fd => ret (Ok fd)
  end.

Definition open_child (h parent : Z) (name : bytes) : P (result Z bytes) :=
  if negb (dir_is_open parent) then
    ret (Error (str "fsops: parent directory is not open"))
  else match reject_bad_name name with
  | Some e => ret (Error e)
  | None =>
      dir_close h ;;;
      r <-- syscall (sys_openat_dir parent (c_str name)) ;;
      match r with
      | Error e =>
          ret (Error (errno_message (str "cannot open subdirectory '" ++ name ++ str "'") e))
      | Ok fd => ret (Ok fd)
      end
  end.

(** ** Classification and opening *)

Definition classify (dir : Z) (name : bytes) : P (result FileIdentity bytes) :=
  if negb (dir_is_open dir) then ret (Error dir_not_open)
  else match reject_bad_name name with
  | Some e => ret (Error e)
  | None =>
      r <-- syscall (sys_fstatat dir (c_str name)) ;;
      match r with
      | Error e =>
          if e =? ENOENT then ret (Ok no_identity)
          else ret (Error (errno_message (str "cannot stat '" ++ name ++ str "'") e))
      | Ok st => ret (Ok (identity_of st))
      end
  end.

Definition changed_message (name : bytes) (expected actual : FileIdentity) : bytes :=
  str "fsops: '" ++ name ++ str "' changed between classification and open (expected dev="
  ++ dec (dev expected) ++ str " ino=" ++ dec (ino expected) ++ str " "
  ++ kind_to_string (kind expected) ++ str ", found dev=" ++ dec (dev actual)
  ++ str " ino=" ++ dec (ino actual) ++ str " " ++ kind_to_string (kind actual)
  ++ str "); aborting (L2-SEC-002)".

(** [open_regular] from the openat on. *)
Definition open_expected (dir : Z) (name : bytes) (expected : FileIdentity)
    : P (result Z bytes) :=
  r <-- syscall (sys_openat dir (c_str name)) ;;
  match r with
  | Error e =>
      if e =? ELOOP then
        ret (Error (str "fsops: refusing to open '" ++ name
                    ++ str "': it is a symbolic link (L2-SEC-003)"))
      else ret (Error (errno_message (str "cannot open '" ++ name ++ str "'") e))
  | Ok fd =>
      q <-- syscall (sys_fstat fd) ;;
      match q with
      | Error e =>
          syscall (sys_close fd) ;;;
          ret (Error (errno_message (str "cannot fstat opened '" ++ name ++ str "'") e))
      | Ok st =>
          if negb (same_object_as (identity_of st) expected) then
            syscall (sys_close fd) ;;;
            ret (Error (changed_message name expected (identity_of st)))
          else ret (Ok fd)
      end
  end.

(** The hook installed, if any, and [open_regular] under it. *)
Definition PreOpenHook : Type := option (P unit).
Definition set_pre_open_hook (hook g_pre_open_hook : PreOpenHook) : PreOpenHook := hook.

Definition open_regular_hooked (g_pre_open_hook : PreOpenHook) (dir : Z) (name : bytes)
    (expected : FileIdentity) : P (result Z bytes) :=
  if negb (dir_is_open dir) then ret (Error dir_not_open)
  else match reject_bad_name name with
  | Some e => ret (Error e)
  | None =>
      if negb (bool_decide (kind expected = Regular)) then
        ret (Error (str "fsops: refusing to open '" ++ name ++ str "': it is a "
                    ++ kind_to_string (kind expected) ++ str ", not a regular file"))
      else match g_pre_open_hook with
           | Some hook => hook ;;; open_expected dir name expected
           | None => open_expected dir name expected
           end
  end.

(** In production, where nothing installs a hook. *)
Definition open_regular : Z -> bytes -> FileIdentity -> P (result Z bytes) :=
  open_regular_hooked None.

Definition open_lock_file (dir : Z) (name : bytes) : P (result Z bytes) :=
  if negb (dir_is_open dir) then
    ret (Error (str "cannot open lock file '" ++ name ++ str "': directory is not open"))
  else
    r <-- syscall (sys_openat_lock dir (c_str name)) ;;
    match r with
    | Error e => ret (Error (errno_message (str "cannot open lock file '" ++ name ++ str "'") e))
    | Ok fd => ret (Ok fd)
    end.

Definition check_source_trust (parent file_fd trusted_uid : Z) : P (result unit bytes) :=
  if negb (dir_is_open parent) then ret (Error dir_not_open)
  else
    r <-- syscall (sys_fstat file_fd) ;;
    match r with
    | Error e => ret (Error (errno_message (str "cannot fstat source descriptor") e))
    | Ok fst =>
        if negb (is_type S_IFREG (st_mode fst)) then
          ret (Error (str "fsops: source is not a regular file"))
        else if negb (st_uid fst =? trusted_uid) then
          ret (Error (str "fsops: source is owned by uid " ++ dec (st_uid fst)
                      ++ str ", not the configured trusted uid " ++ dec trusted_uid
                      ++ str "; aborting (L2-SEC-005)"))
        else
          q <-- syscall (sys_fstat parent) ;;
          match q with
          | Error e => ret (Error (errno_message (str "cannot fstat source directory") e))
          | Ok dst =>
              if negb (Z.land (st_mode dst) S_IWOTH =? 0)
                 && (Z.land (st_mode dst) S_ISVTX =? 0) then
                ret (Error (str "fsops: source directory is world-writable without the sticky bit; any user could replace entries mid-move (L2-SEC-005)"))
              else ret (Ok tt)
          end
    end.

(** ** Moving *)

Definition detect_strategy (dir : Z) : P (result MoveStrategy bytes) :=
  if negb (dir_is_open dir) then ret (Error dir_not_open)
  else
    r <-- syscall (sys_renameat2 dir (str ".swit-probe-src") dir (str ".swit-probe-dst")) ;;
    match r with
    | Ok _ => ret (Error (str "fsops: RENAME_NOREPLACE probe unexpectedly succeeded"))
    | Error err =>
        if (err =? EINVAL) || (err =? ENOSYS) || (err =? EOPNOTSUPP) then
          ret (Ok LinkThenUnlink)
        else if err =? ENOENT then ret (Ok RenameNoReplace)
        else ret (Error (errno_message (str "RENAME_NOREPLACE capability probe failed") err))
    end.

Definition move_within (from_dir : Z) (from_name : bytes) (to_dir : Z) (to_name : bytes)
    (strategy : MoveStrategy) : P (result unit bytes) :=
  if negb (dir_is_open from_dir) || negb (dir_is_open to_dir) then ret (Error dir_not_open)
  else match reject_bad_name from_name with
  | Some e => ret (Error e)
  | None =>
  match reject_bad_name to_name with
  | Some e => ret (Error e)
  | None =>
      match strategy with
      | RenameNoReplace =>
          r <-- syscall (sys_renameat2 from_dir (c_str from_name) to_dir (c_str to_name)) ;;
          match r with
          | Error e =>
              ret (Error (errno_message
                (str "renameat2(RENAME_NOREPLACE) '" ++ from_name ++ str "' -> '"
                 ++ to_name ++ str "'") e))
          | Ok _ => ret (Ok tt)
          end
      | LinkThenUnlink =>
          r <-- syscall (sys_linkat from_dir (c_str from_name) to_dir (c_str to_name)) ;;
          match r with
          | Error e =>
              ret (Error (errno_message
                (str "linkat '" ++ from_name ++ str "' -> '" ++ to_name ++ str "'") e))
          | Ok _ =>
              q <-- syscall (sys_unlinkat from_dir (c_str from_name)) ;;
              match q with
              | Error e =>
                  ret (Error (errno_message
                    (str "linkat succeeded but unlinkat of '" ++ from_name
                     ++ str "' failed; both names now reference one inode") e))
              | Ok _ => ret (Ok tt)
              end
          end
      end
  end end.

Definition classify_move_state (from_dir : Z) (from_name : bytes)
    (to_dir : Z) (to_name : bytes) : P (result MoveState bytes) :=
  f <-- classify from_dir from_name ;;
  match f with
  | Error e => ret (Error e)
  | Ok from =>
      t <-- classify to_dir to_name ;;
      match t with
      | Error e => ret (Error e)
      | Ok to =>
          let have_from := negb (bool_decide (kind from = Missing)) in
          let have_to := negb (bool_decide (kind to = Missing)) in
          ret (Ok (if have_from && have_to then
                     if same_object_as from to then Interrupted else Collision
                   else if have_from then NotStarted
                   else if have_to then MoveCompleted
                   else BothMissing))
      end
  end.

Definition is_interrupted_move (from_dir : Z) (from_name : bytes)
    (to_dir : Z) (to_name : bytes) : P (result bool bytes) :=
  r <-- classify_move_state from_dir from_name to_dir to_name ;;
  match r with
  | Error e => ret (Error e)
  | Ok st => ret (Ok (bool_decide (st = Interrupted)))
  end.

Definition publish (dir : Z) (temp_name final_name : bytes) : P (result unit bytes) :=
  if negb (dir_is_open dir) then ret (Error dir_not_open)
  else match reject_bad_name temp_name with
  | Some e => ret (Error e)
  | None =>
  match reject_bad_name final_name with
  | Some e => ret (Error e)
  | None =>
      r <-- syscall (sys_openat dir (c_str temp_name)) ;;
      match r with
      | Error e =>
          ret (Error (errno_message (str "cannot open '" ++ temp_name ++ str "' to fsync") e))
      | Ok fd =>
          q <-- syscall (sys_fsync fd) ;;
          match q with
          | Error e =>
              syscall (sys_close fd) ;;;
              ret (Error (errno_message (str "fsync of '" ++ temp_name ++ str "'") e))
          | Ok _ =>
              syscall (sys_close fd) ;;;
              m <-- syscall (sys_renameat dir (c_str temp_name) dir (c_str final_name)) ;;
              match m with
              | Error e =>
                  ret (Error (errno_message
                    (str "publishing '" ++ temp_name ++ str "' as '" ++ final_name ++ str "'") e))
              | Ok _ =>
                  d <-- syscall (sys_fsync dir) ;;
                  match d with
                  | Error e => ret (Error (errno_message (str "fsync of destination directory") e))
                  | Ok _ => ret (Ok tt)
                  end
              end
          end
      end
  end end.
End Operations.

(** * Lemmas on the pure helpers *)

(** The tokens of the enums tell their values apart. *)
Lemma tokens_inj :
  Inj (=) (=) kind_to_string /\ Inj (=) (=) strategy_to_string /\
  Inj (=) (=) class_to_string /\ Inj (=) (=) move_state_to_string.
Proof. split_and!; by intros [] []. Qed.

Lemma kind_from_mode_present m : kind_from_mode m <> Missing.
Proof. unfold kind_from_mode. by repeat case_match. Qed.

Lemma plain_name_no_nul n : is_plain_name n = true -> nul ∉ n.
Proof.
  unfold is_plain_name. destruct (_ || _); [done|]. intros H. bool_prop.
  by apply contains_false.
Qed.

Lemma plain_c_str n : reject_bad_name n = None -> c_str n = n.
Proof.
  unfold reject_bad_name. destruct (is_plain_name n) eqn:E; [|done]. intros _.
  by apply c_str_id, plain_name_no_nul.
Qed.

Lemma reject_nonempty n e : reject_bad_name n = Some e -> e <> [].
Proof. unfold reject_bad_name. destruct (is_plain_name n); [done|]. by intros [= <-]. Qed.

Lemma validate_error_nonempty p e : validate_external_path p = Error e -> e <> [].
Proof.
  unfold validate_external_path. intros. repeat case_match; simplify_eq; done.
Qed.

(** * Specifications *)

Section Specs.
Context {fs X : Type} `{KernelLive fs} (live : bool).
Local Abbreviation P := (prog fs X).

(** The namespace is [E], the descriptor table [F], and the extension
    satisfies [R]; with [live] the kernel is healthy.  [on] forgets the
    descriptors, which a crash closes. *)
Definition at_ (E : gmap entry Z) (F : gmap Z Z) (R : X -> Prop) (s : fs) (x : X) : Prop :=
  entries s = E /\ fds s = F /\ (live = true -> healthy s) /\ R x.
Definition on (E : gmap entry Z) (R : X -> Prop) (s : fs) (x : X) : Prop :=
  entries s = E /\ R x.

(** What [classify] reports of a name that denotes [o]. *)
Definition seen (o : option Z) : FileIdentity :=
  match o with Some o => identity_of (stat_of o) | None => no_identity end.

Lemma seen_missing o : kind (seen o) = Missing <-> o = None.
Proof.
  destruct o as [o|]; simpl; [|done]. split; [|done].
  intros E. exfalso. by eapply kind_from_mode_present.
Qed.

Lemma same_object_as_eq a b : same_object_as a b = true <-> a = b.
Proof.
  unfold same_object_as. destruct a as [d1 i1 k1], b as [d2 i2 k2]. simpl. split.
  - intros Hs. bool_prop. f_equal; [lia|lia|done].
  - intros [= -> -> ->]. by rewrite !Z.eqb_refl, bool_decide_eq_true_2.
Qed.

Section Rules.
Context {B : Type} (Q : B -> fs -> X -> Prop) (C : fs -> X -> Prop).
Implicit Types (E : gmap entry Z) (F : gmap Z Z) (R : X -> Prop).

(** A crash in this namespace is acceptable. *)
Definition crash_ok E R : Prop := forall s x, on E R s x -> C s x.

Lemma triple_sys {A} E F R (f : fs -> A * fs) (k : A -> P B) :
  crash_ok E R ->
  (forall s a s', entries s = E -> fds s = F -> (live = true -> healthy s) ->
     f s = (a, s') ->
     exists E' F', entries s' = E' /\ fds s' = F' /\ (live = true -> healthy s') /\
       triple (at_ E' F' R) (k a) Q C) ->
  triple (at_ E F R) (bind (syscall f) k) Q C.
Proof.
  intros HC Hk. apply triple_bind_syscall.
  - intros s x (? & ? & ? & ?). by apply HC.
  - intros s x a s' (He & Hf & Hl & Hr) Hc.
    destruct (Hk s a s' He Hf Hl Hc) as (E' & F' & ? & ? & ? & ?).
    exists (at_ E' F' R). done.
Qed.

(** ** System calls *)

Lemma do_close E F R fd (k : unit -> P B) :
  crash_ok E R -> triple (at_ E (delete fd F) R) (k tt) Q C ->
  triple (at_ E F R) (bind (syscall (sys_close fd)) k) Q C.
Proof.
  intros HC Hk. apply triple_sys; [done|]. intros s [] s' He Hf Hl Hc.
  pose proof (close_law _ _ _ _ Hc) as [He' Hf'].
  exists E, (delete fd F). split_and!; [congruence|congruence| |done].
  intros L. by eapply live_close, Hc; auto.
Qed.

Lemma do_open_dir E F R p (k : result Z Z -> P B) :
  crash_ok E R ->
  (forall fd d, 0 <= fd -> F !! fd = None -> resolve p = Some d ->
     triple (at_ E (<[fd := d]> F) R) (k (Ok fd)) Q C) ->
  (forall e, (live = true -> resolve p = None) -> triple (at_ E F R) (k (Error e)) Q C) ->
  triple (at_ E F R) (bind (syscall (sys_open_dir p)) k) Q C.
Proof.
  intros HC HO HX. apply triple_sys; [done|]. intros s r s' He Hf Hl Hc.
  pose proof (open_dir_law _ _ _ _ Hc) as [He' Hp].
  pose proof (fun L => live_open_dir _ _ _ _ (Hl L) Hc) as Hlive. subst E F.
  destruct r as [fd|e].
  - destruct Hp as (? & ? & d & ? & Hf'). do 2 eexists.
    split_and!; [exact He'|exact Hf'|naive_solver|]. by apply HO.
  - do 2 eexists. split_and!; [exact He'|exact Hp|naive_solver|]. apply HX.
    intros L. destruct (Hlive L) as [_ Hd]. destruct (resolve p); [|done].
    by specialize (Hd _ eq_refl).
Qed.

Lemma do_openat E F R dfd d n (k : result Z Z -> P B) :
  crash_ok E R -> F !! dfd = Some d ->
  (forall fd o, 0 <= fd -> F !! fd = None -> E !! (d, n) = Some o ->
     triple (at_ E (<[fd := o]> F) R) (k (Ok fd)) Q C) ->
  (forall e, (live = true -> E !! (d, n) = None) -> triple (at_ E F R) (k (Error e)) Q C) ->
  triple (at_ E F R) (bind (syscall (sys_openat dfd n)) k) Q C.
Proof.
  intros HC Hd HO HX. apply triple_sys; [done|]. intros s r s' He Hf Hl Hc.
  pose proof (openat_law _ _ _ _ _ Hc) as [He' Hp].
  pose proof (fun L => live_openat _ _ _ _ _ (Hl L) Hc) as Hlive. subst E F.
  destruct r as [fd|e].
  - destruct Hp as (? & ? & d' & o & ? & ? & Hf'). simplify_eq. do 2 eexists.
    split_and!; [exact He'|exact Hf'|naive_solver|]. by apply HO.
  - do 2 eexists. split_and!; [exact He'|exact Hp|naive_solver|]. apply HX.
    intros L. destruct (Hlive L) as [_ Hk]. destruct (entries s !! (d, n)) eqn:Eo; [|done].
    by specialize (Hk _ _ Hd Eo).
Qed.

Lemma do_fstatat E F R dfd d n (k : result stat Z -> P B) :
  crash_ok E R -> F !! dfd = Some d ->
  (forall o, E !! (d, n) = Some o -> triple (at_ E F R) (k (Ok (stat_of o))) Q C) ->
  (E !! (d, n) = None -> triple (at_ E F R) (k (Error ENOENT)) Q C) ->
  (forall e, e <> ENOENT -> live = false -> triple (at_ E F R) (k (Error e)) Q C) ->
  triple (at_ E F R) (bind (syscall (sys_fstatat dfd n)) k) Q C.
Proof.
  intros HC Hd HO HN HX. apply triple_sys; [done|]. intros s r s' He Hf Hl Hc.
  pose proof (fstatat_law _ _ _ _ _ Hc) as (He' & Hf' & Hp).
  pose proof (fun L => live_fstatat _ _ _ _ _ (Hl L) Hc) as Hlive. subst E F.
  do 2 eexists. split_and!; [exact He'|exact Hf'|naive_solver|].
  destruct r as [st|e].
  - destruct Hp as (d' & o & ? & ? & ->). simplify_eq. by apply HO.
  - destruct (decide (e = ENOENT)) as [->|Hne]; [by apply HN, Hp|].
    apply HX; [done|]. destruct live; [|done]. exfalso.
    destruct (Hlive eq_refl) as [_ Hk]. specialize (Hk _ Hd).
    destruct (entries s !! (d, n)); simplify_eq.
Qed.

Lemma do_fstat E F R fd o (k : result stat Z -> P B) :
  crash_ok E R -> F !! fd = Some o ->
  triple (at_ E F R) (k (Ok (stat_of o))) Q C ->
  (forall e, live = false -> triple (at_ E F R) (k (Error e)) Q C) ->
  triple (at_ E F R) (bind (syscall (sys_fstat fd)) k) Q C.
Proof.
  intros HC Ho HO HX. apply triple_sys; [done|]. intros s r s' He Hf Hl Hc.
  pose proof (fstat_law _ _ _ _ Hc) as (He' & Hf' & Hp).
  pose proof (fun L => live_fstat _ _ _ _ (Hl L) Hc) as Hlive. subst E F.
  do 2 eexists. split_and!; [exact He'|exact Hf'|naive_solver|].
  destruct r as [st|e].
  - destruct Hp as (o' & ? & ->). by simplify_eq.
  - apply HX. destruct live; [|done]. destruct (Hlive eq_refl) as [_ Hk].
    by specialize (Hk _ Ho).
Qed.

Lemma do_fsync E F R fd o (k : result unit Z -> P B) :
  crash_ok E R -> F !! fd = Some o ->
  triple (at_ E F R) (k (Ok tt)) Q C ->
  (forall e, live = false -> triple (at_ E F R) (k (Error e)) Q C) ->
  triple (at_ E F R) (bind (syscall (sys_fsync fd)) k) Q C.
Proof.
  intros HC Ho HO HX. apply triple_sys; [done|]. intros s r s' He Hf Hl Hc.
  pose proof (fsync_law _ _ _ _ Hc) as (He' & Hf').
  pose proof (fun L => live_fsync _ _ _ _ (Hl L) Hc) as Hlive. subst E F.
  do 2 eexists. split_and!; [exact He'|exact Hf'|naive_solver|].
  destruct r as [[]|e]; [done|].
  apply HX. destruct live; [|done]. destruct (Hlive eq_refl) as [_ Hk].
  by specialize (Hk _ Ho).
Qed.

Lemma do_renameat2 E F R ofd d1 n1 nfd d2 n2 (k : result unit Z -> P B) :
  crash_ok E R -> F !! ofd = Some d1 -> F !! nfd = Some d2 ->
  (forall o, E !! (d1, n1) = Some o -> E !! (d2, n2) = None ->
     triple (at_ (<[(d2, n2) := o]> (delete (d1, n1) E)) F R) (k (Ok tt)) Q C) ->
  (forall e, (live = true -> E !! (d1, n1) = None \/ is_Some (E !! (d2, n2))) ->
     triple (at_ E F R) (k (Error e)) Q C) ->
  triple (at_ E F R) (bind (syscall (sys_renameat2 ofd n1 nfd n2)) k) Q C.
Proof.
  intros HC Hd1 Hd2 HO HX. apply triple_sys; [done|]. intros s r s' He Hf Hl Hc.
  pose proof (renameat2_law _ _ _ _ _ _ _ Hc) as (Hf' & Hp).
  pose proof (fun L => live_renameat2 _ _ _ _ _ _ _ (Hl L) Hc) as Hlive. subst E F.
  do 2 eexists. split_and!; [reflexivity|exact Hf'|naive_solver|].
  destruct r as [[]|e].
  - destruct Hp as (? & ? & o & ? & ? & ? & ? & ->). simplify_eq. by apply HO.
  - rewrite Hp. apply HX. intros L. destruct (Hlive L) as [_ Hk].
    destruct (entries s !! (d1, n1)) as [o|] eqn:E1; [|by left].
    destruct (entries s !! (d2, n2)) eqn:E2; [by right|].
    by specialize (Hk _ _ _ Hd1 Hd2 E1 E2).
Qed.

(** [rename_onto]: where a successful renameat leaves the namespace. *)
Definition rename_onto (from to : entry) (o : Z) E : gmap entry Z :=
  if decide (E !! to = Some o) then E else <[to := o]> (delete from E).

Lemma do_renameat E F R ofd d1 n1 nfd d2 n2 (k : result unit Z -> P B) :
  crash_ok E R -> F !! ofd = Some d1 -> F !! nfd = Some d2 ->
  (forall o, E !! (d1, n1) = Some o ->
     triple (at_ (rename_onto (d1, n1) (d2, n2) o E) F R) (k (Ok tt)) Q C) ->
  (forall e, (live = true -> E !! (d1, n1) = None \/ is_Some (E !! (d2, n2))) ->
     triple (at_ E F R) (k (Error e)) Q C) ->
  triple (at_ E F R) (bind (syscall (sys_renameat ofd n1 nfd n2)) k) Q C.
Proof.
  intros HC Hd1 Hd2 HO HX. apply triple_sys; [done|]. intros s r s' He Hf Hl Hc.
  pose proof (renameat_law _ _ _ _ _ _ _ Hc) as (Hf' & Hp).
  pose proof (fun L => live_renameat _ _ _ _ _ _ _ (Hl L) Hc) as Hlive. subst E F.
  do 2 eexists. split_and!; [reflexivity|exact Hf'|naive_solver|].
  destruct r as [[]|e].
  - destruct Hp as (? & ? & o & ? & ? & ? & ->). simplify_eq. by apply HO.
  - rewrite Hp. apply HX. intros L. destruct (Hlive L) as [_ Hk].
    destruct (entries s !! (d1, n1)) as [o|] eqn:E1; [|by left].
    destruct (entries s !! (d2, n2)) eqn:E2; [by right|].
    by specialize (Hk _ _ _ Hd1 Hd2 E1 E2).
Qed.

Lemma do_linkat E F R ofd d1 n1 nfd d2 n2 (k : result unit Z -> P B) :
  crash_ok E R -> F !! ofd = Some d1 -> F !! nfd = Some d2 ->
  (forall o, E !! (d1, n1) = Some o -> E !! (d2, n2) = None ->
     triple (at_ (<[(d2, n2) := o]> E) F R) (k (Ok tt)) Q C) ->
  (forall e, (live = true -> E !! (d1, n1) = None \/ is_Some (E !! (d2, n2))) ->
     triple (at_ E F R) (k (Error e)) Q C) ->
  triple (at_ E F R) (bind (syscall (sys_linkat ofd n1 nfd n2)) k) Q C.
Proof.
  intros HC Hd1 Hd2 HO HX. apply triple_sys; [done|]. intros s r s' He Hf Hl Hc.
  pose proof (linkat_law _ _ _ _ _ _ _ Hc) as (Hf' & Hp).
  pose proof (fun L => live_linkat _ _ _ _ _ _ _ (Hl L) Hc) as Hlive. subst E F.
  do 2 eexists. split_and!; [reflexivity|exact Hf'|naive_solver|].
  destruct r as [[]|e].
  - destruct Hp as (? & ? & o & ? & ? & ? & ? & ->). simplify_eq. by apply HO.
  - rewrite Hp. apply HX. intros L. destruct (Hlive L) as [_ Hk].
    destruct (entries s !! (d1, n1)) as [o|] eqn:E1; [|by left].
    destruct (entries s !! (d2, n2)) eqn:E2; [by right|].
    by specialize (Hk _ _ _ Hd1 Hd2 E1 E2).
Qed.

Lemma do_unlinkat E F R dfd d n (k : result unit Z -> P B) :
  crash_ok E R -> F !! dfd = Some d ->
  (is_Some (E !! (d, n)) -> triple (at_ (delete (d, n) E) F R) (k (Ok tt)) Q C) ->
  (forall e, (live = true -> E !! (d, n) = None) -> triple (at_ E F R) (k (Error e)) Q C) ->
  triple (at_ E F R) (bind (syscall (sys_unlinkat dfd n)) k) Q C.
Proof.
  intros HC Hd HO HX. apply triple_sys; [done|]. intros s r s' He Hf Hl Hc.
  pose proof (unlinkat_law _ _ _ _ _ Hc) as (Hf' & Hp).
  pose proof (fun L => live_unlinkat _ _ _ _ _ (Hl L) Hc) as Hlive. subst E F.
  do 2 eexists. split_and!; [reflexivity|exact Hf'|naive_solver|].
  destruct r as [[]|e].
  - destruct Hp as (? & o & ? & ? & ->). simplify_eq. by apply HO.
  - rewrite Hp. apply HX. intros L. destruct (Hlive L) as [_ Hk].
    destruct (entries s !! (d, n)) eqn:Eo; [|done]. by specialize (Hk _ _ Hd Eo).
Qed.

(** ** Operations of the layer *)

Lemma do_dir_close E F R h (k : Z -> P B) :
  crash_ok E R -> 0 <= h -> triple (at_ E (delete h F) R) (k (-1)) Q C ->
  triple (at_ E F R) (bind (dir_close h) k) Q C.
Proof.
  intros HC Hh Hk. unfold dir_close, dir_is_open.
  rewrite (proj2 (Z.leb_le 0 h)) by done.
  apply triple_bind_assoc, do_close; [done|]. by apply triple_bind_ret.
Qed.

Lemma do_open_root E F R path (k : result Z bytes -> P B) :
  crash_ok E R ->
  (forall fd d, 0 <= fd -> F !! fd = None -> resolve (c_str path) = Some d ->
     triple (at_ E (<[fd := d]> F) R) (k (Ok fd)) Q C) ->
  (forall e, e <> [] -> (live = true -> resolve (c_str path) = None) ->
     triple (at_ E F R) (k (Error e)) Q C) ->
  triple (at_ E F R) (bind (open_root (-1) path) k) Q C.
Proof.
  intros HC HO HX. unfold open_root, dir_close. simpl.
  apply triple_bind_assoc, triple_bind_ret, triple_bind_assoc.
  apply do_open_dir; [done| |].
  - intros fd d ? ? ?. apply triple_bind_ret. by apply HO.
  - intros e Hl. apply triple_bind_ret. by apply HX.
Qed.

Lemma do_classify E F R dir d name (k : result FileIdentity bytes -> P B) :
  crash_ok E R -> F !! dir = Some d -> 0 <= dir ->
  (reject_bad_name name = None ->
     triple (at_ E F R) (k (Ok (seen (E !! (d, name))))) Q C) ->
  (forall e, e <> [] -> (live = true -> reject_bad_name name <> None) ->
     triple (at_ E F R) (k (Error e)) Q C) ->
  triple (at_ E F R) (bind (classify dir name) k) Q C.
Proof.
  intros HC Hd Hdir HO HX. unfold classify, dir_is_open.
  rewrite (proj2 (Z.leb_le 0 dir)) by done. simpl.
  destruct (reject_bad_name name) as [e|] eqn:Hn.
  { apply triple_bind_ret, HX; [|done]. by eapply reject_nonempty. }
  rewrite (plain_c_str _ Hn). apply triple_bind_assoc. specialize (HO eq_refl).
  eapply do_fstatat; [done|done|..].
  - intros o Ho. rewrite Ho in HO. by apply triple_bind_ret.
  - intros Ho. rewrite Ho in HO. by apply triple_bind_ret.
  - intros e Hne Hl. rewrite (proj2 (Z.eqb_neq e ENOENT) Hne).
    apply triple_bind_ret, HX; [done|]. by rewrite Hl.
Qed.

(** L2-SEC-002: a descriptor is handed out only for the very object that was
    classified; whatever fails, no descriptor is left open. *)
Lemma do_open_regular E F R dir d name expected (k : result Z bytes -> P B) :
  crash_ok E R -> F !! dir = Some d -> 0 <= dir ->
  (forall fd o, 0 <= fd -> F !! fd = None -> E !! (d, name) = Some o ->
     identity_of (stat_of o) = expected -> kind expected = Regular ->
     reject_bad_name name = None ->
     triple (at_ E (<[fd := o]> F) R) (k (Ok fd)) Q C) ->
  (forall e, e <> [] ->
     (live = true -> reject_bad_name name = None ->
        seen (E !! (d, name)) <> expected \/ kind expected <> Regular) ->
     triple (at_ E F R) (k (Error e)) Q C) ->
  triple (at_ E F R) (bind (open_regular dir name expected) k) Q C.
Proof.
  intros HC Hd Hdir HO HX. unfold open_regular, open_regular_hooked, open_expected, dir_is_open.
  rewrite (proj2 (Z.leb_le 0 dir)) by done. simpl.
  destruct (reject_bad_name name) as [e|] eqn:Hn.
  { apply triple_bind_ret, HX; [|done]. by eapply reject_nonempty. }
  rewrite (plain_c_str _ Hn).
  destruct (bool_decide (kind expected = Regular)) eqn:Hk; simpl; bool_prop;
    [|apply triple_bind_ret, HX; [done|by right]].
  apply triple_bind_assoc. eapply do_openat; [done|done|..]; cycle 1.
  { intros e Hl. case_match; apply triple_bind_ret, HX; try done;
      intros L _; left; rewrite (Hl L); intros <-; by simpl in Hk. }
  intros fd o Hfd Hfr Ho. rewrite Ho in HX.
  assert (forall e, e <> [] -> (live = true -> identity_of (stat_of o) <> expected) ->
    triple (at_ E (<[fd := o]> F) R)
      (bind (bind (syscall (sys_close fd)) (fun _ => ret (Error e))) k) Q C) as Hclose.
  { intros e Hne Hl. apply triple_bind_assoc, do_close; [done|].
    rewrite delete_insert_id by done. apply triple_bind_ret, HX; [done|].
    intros L _. left. by apply Hl. }
  apply triple_bind_assoc. eapply do_fstat; [done|apply lookup_insert_eq|..].
  - destruct (same_object_as _ expected) eqn:Hs; simpl.
    + apply triple_bind_ret. apply same_object_as_eq in Hs. eapply HO; done.
    + apply Hclose; [done|]. intros _ Heq. apply same_object_as_eq in Heq. congruence.
  - intros e Hl. apply Hclose; [done|]. by rewrite Hl.
Qed.

Lemma do_move_within E F R fd1 d1 n1 fd2 d2 n2 st (k : result unit bytes -> P B) :
  crash_ok E R -> F !! fd1 = Some d1 -> F !! fd2 = Some d2 -> 0 <= fd1 -> 0 <= fd2 ->
  (forall o, E !! (d1, n1) = Some o -> E !! (d2, n2) = None ->
     triple (at_ (<[(d2, n2) := o]> (delete (d1, n1) E)) F R) (k (Ok tt)) Q C) ->
  (forall e, e <> [] ->
     (live = true -> reject_bad_name n1 = None -> reject_bad_name n2 = None ->
        E !! (d1, n1) = None \/ is_Some (E !! (d2, n2))) ->
     triple (at_ E F R) (k (Error e)) Q C) ->
  (forall o, st = LinkThenUnlink -> E !! (d1, n1) = Some o -> E !! (d2, n2) = None ->
     crash_ok (<[(d2, n2) := o]> E) R /\
     forall e, e <> [] -> live = false ->
       triple (at_ (<[(d2, n2) := o]> E) F R) (k (Error e)) Q C) ->
  triple (at_ E F R) (bind (move_within fd1 n1 fd2 n2 st) k) Q C.
Proof.
  intros HC Hd1 Hd2 Hp1 Hp2 HO HX HL. unfold move_within, dir_is_open.
  rewrite (proj2 (Z.leb_le 0 fd1)), (proj2 (Z.leb_le 0 fd2)) by done. simpl.
  destruct (reject_bad_name n1) as [e|] eqn:Hn1.
  { apply triple_bind_ret, HX; [|done]. by eapply reject_nonempty. }
  destruct (reject_bad_name n2) as [e|] eqn:Hn2.
  { apply triple_bind_ret, HX; [|done]. by eapply reject_nonempty. }
  rewrite !(plain_c_str _ Hn1), !(plain_c_str _ Hn2).
  destruct st; apply triple_bind_assoc.
  - eapply do_renameat2; [done..| |].
    + intros o ? ?. by apply triple_bind_ret, HO.
    + intros e Hl. apply triple_bind_ret, HX; [done|]. intros L _ _. by apply Hl.
  - eapply do_linkat; [done..| |].
    + intros o Ho Ht. destruct (HL o eq_refl Ho Ht) as [HCl HLe].
      assert ((d2, n2) <> (d1, n1)) as Hne by congruence.
      apply triple_bind_assoc. eapply do_unlinkat; [done|done|..].
      * intros _. rewrite delete_insert_ne by done. by apply triple_bind_ret, HO.
      * intros e Hl. apply triple_bind_ret, HLe; [done|]. destruct live; [|done].
        specialize (Hl eq_refl). rewrite lookup_insert_ne in Hl by done. congruence.
    + intros e Hl. apply triple_bind_ret, HX; [done|]. intros L _ _. by apply Hl.
Qed.

Lemma do_classify_move_state E F R fd1 d1 n1 fd2 d2 n2 (k : result MoveState bytes -> P B) :
  crash_ok E R -> F !! fd1 = Some d1 -> F !! fd2 = Some d2 -> 0 <= fd1 -> 0 <= fd2 ->
  (forall ms, match E !! (d1, n1), E !! (d2, n2) with
     | None, None => ms = BothMissing
     | None, Some _ => ms = MoveCompleted
     | Some _, None => ms = NotStarted
     | Some a, Some b => ms = if decide (identity_of (stat_of a) = identity_of (stat_of b))
                              then Interrupted else Collision
     end -> triple (at_ E F R) (k (Ok ms)) Q C) ->
  (forall e, e <> [] ->
     (live = true -> reject_bad_name n1 = None -> reject_bad_name n2 <> None) ->
     triple (at_ E F R) (k (Error e)) Q C) ->
  triple (at_ E F R) (bind (classify_move_state fd1 n1 fd2 n2) k) Q C.
Proof.
  intros HC Hd1 Hd2 Hp1 Hp2 HO HX. unfold classify_move_state.
  apply triple_bind_assoc. eapply do_classify; [done..| |].
  2: { intros e ? Hl. apply triple_bind_ret, HX; [done|]. intros L ?. by apply Hl in L. }
  intros Hn1. apply triple_bind_assoc. eapply do_classify; [done..| |].
  2: { intros e ? Hl. apply triple_bind_ret, HX; [done|]. intros L ?. by apply Hl in L. }
  intros Hn2. apply triple_bind_ret, HO.
  rewrite !(bool_decide_ext _ _ (seen_missing _)).
  destruct (E !! (d1, n1)) as [a|], (E !! (d2, n2)) as [b|]; simpl; try done.
  case_decide as Heq.
  - by rewrite (proj2 (same_object_as_eq _ _) Heq).
  - destruct (same_object_as _ _) eqn:Hs; [|done]. by apply same_object_as_eq in Hs.
Qed.

Lemma do_publish E F R fd d n1 n2 (k : result unit bytes -> P B) :
  crash_ok E R -> F !! fd = Some d -> 0 <= fd ->
  (forall o, E !! (d, n1) = Some o ->
     crash_ok (rename_onto (d, n1) (d, n2) o E) R /\
     triple (at_ (rename_onto (d, n1) (d, n2) o E) F R) (k (Ok tt)) Q C /\
     forall e, e <> [] -> live = false ->
       triple (at_ (rename_onto (d, n1) (d, n2) o E) F R) (k (Error e)) Q C) ->
  (forall e, e <> [] ->
     (live = true -> reject_bad_name n1 = None -> reject_bad_name n2 = None ->
        E !! (d, n1) = None \/ is_Some (E !! (d, n2))) ->
     triple (at_ E F R) (k (Error e)) Q C) ->
  triple (at_ E F R) (bind (publish fd n1 n2) k) Q C.
Proof.
  intros HC Hd Hp HO HX. unfold publish, dir_is_open.
  rewrite (proj2 (Z.leb_le 0 fd)) by done. simpl.
  destruct (reject_bad_name n1) as [e|] eqn:Hn1.
  { apply triple_bind_ret, HX; [|done]. by eapply reject_nonempty. }
  destruct (reject_bad_name n2) as [e|] eqn:Hn2.
  { apply triple_bind_ret, HX; [|done]. by eapply reject_nonempty. }
  rewrite !(plain_c_str _ Hn1), !(plain_c_str _ Hn2).
  apply triple_bind_assoc. eapply do_openat; [done|done|..].
  2: { intros e Hl. apply triple_bind_ret, HX; [done|]. intros L _ _. left. by apply Hl. }
  intros tf o Htf Hfr Ho. destruct (HO o Ho) as (HCr & Hok & Her).
  apply triple_bind_assoc. eapply do_fsync; [done|apply lookup_insert_eq|..].
  2: { intros e Hl. apply triple_bind_assoc, do_close; [done|].
       rewrite delete_insert_id by done. apply triple_bind_ret, HX; [done|]. by rewrite Hl. }
  apply triple_bind_assoc, do_close; [done|]. rewrite delete_insert_id by done.
  apply triple_bind_assoc. eapply do_renameat; [done..| |].
  2: { intros e Hl. apply triple_bind_ret, HX; [done|]. intros L _ _. by apply Hl. }
  intros o' Ho'. simplify_eq. apply triple_bind_assoc. eapply do_fsync; [done|done|..].
  - by apply triple_bind_ret.
  - intros e Hl. by apply triple_bind_ret, Her.
Qed.
End Rules.
End Specs.

(** * The layer touches nothing but the kernel *)

Section Keeps.
Context {fs X : Type} `{!Kernel fs} (J : X -> Prop).
Local Abbreviation P := (prog fs X).

Lemma keeps_dir_close h : keeps J (dir_close h : P _).
Proof. unfold dir_close. keeps_walk. Qed.
Lemma keeps_open_root h p : keeps J (open_root h p : P _).
Proof. unfold open_root. pose proof keeps_dir_close. keeps_walk. Qed.
Lemma keeps_classify d n : keeps J (classify d n : P _).
Proof. unfold classify. keeps_walk. Qed.
Lemma keeps_open_regular d n e : keeps J (open_regular d n e : P _).
Proof. unfold open_regular, open_regular_hooked, open_expected. keeps_walk. Qed.
Lemma keeps_move_within d1 n1 d2 n2 st : keeps J (move_within d1 n1 d2 n2 st : P _).
Proof. unfold move_within. keeps_walk. Qed.
Lemma keeps_publish d n1 n2 : keeps J (publish d n1 n2 : P _).
Proof. unfold publish. keeps_walk. Qed.
End Keeps.
#[export] Hint Resolve keeps_dir_close keeps_open_root keeps_classify keeps_open_regular
  keeps_move_within keeps_publish : fm.

(** * Paths *)

(** [p] has a component equal to [..]. *)
Definition dotdot_component (p : bytes) : Prop :=
  exists pre post, p = pre ++ str ".." ++ post /\
    (pre = [] \/ last pre = Some "/"%char) /\ (post = [] \/ head post = Some "/"%char).

Lemma slash_split (a b s t : bytes) :
  "/"%char ∉ a -> a ++ "/"%char :: s = b ++ t ->
  (exists t', t = t' ++ "/"%char :: s /\ a = b ++ t') \/
  (exists b', b = a ++ "/"%char :: b' /\ s = b' ++ t).
Proof.
  intros Ha Heq. revert b Heq. induction a as [|c a IH]; intros [|c' b] Heq; simpl in *.
  - left. by exists [].
  - simplify_eq. right. by exists b.
  - left. by exists (c :: a).
  - simplify_eq. destruct (IH ltac:(set_solver) b) as [(t' & -> & ->)|(b' & -> & ->)]; [done|left|right];
      eauto.
Qed.

Lemma last_slash_cons (q : bytes) :
  last ("/"%char :: q) = Some "/"%char -> q = [] \/ last q = Some "/"%char.
Proof. destruct q as [|c q]; [by left|]. rewrite last_cons_cons. by right. Qed.

Lemma has_dotdot_spec cur s :
  "/"%char ∉ cur -> has_dotdot cur s = true <-> dotdot_component (cur ++ s).
Proof.
  revert cur. induction s as [|c s IH]; intros cur Hc; simpl.
  - rewrite app_nil_r. unfold beq. rewrite bool_decide_eq_true. split.
    + intros ->. exists [], []. split_and!; auto.
    + intros (pre & post & -> & Hpre & Hpost).
      assert (pre = []) as -> by (destruct Hpre as [|Hl]; [done|]; apply last_Some in Hl as [? ->]; set_solver).
      assert (post = []) as -> by (destruct Hpost as [|Hl]; [done|]; apply head_Some in Hl as [? ->]; set_solver).
      done.
  - destruct (Ascii.eqb_spec c "/") as [->|Hne].
    + rewrite orb_true_iff, (IH []) by set_solver. simpl. unfold beq. rewrite bool_decide_eq_true.
      split.
      * intros [->|(pre & post & -> & Hpre & Hpost)].
        -- exists [], ("/"%char :: s). split_and!; auto.
        -- exists (cur ++ "/"%char :: pre), post. split_and!; [by rewrite <- app_assoc| |done].
           right. rewrite last_app. destruct Hpre as [->|Hl]; [done|]. rewrite last_cons, Hl. done.
      * intros (pre & post & Heq & Hpre & Hpost).
        destruct (slash_split _ _ _ _ Hc Heq) as [(t' & Ht & ->)|(b' & -> & ->)].
        -- assert (pre = []) as ->.
           { destruct Hpre as [|Hl]; [done|]. apply last_Some in Hl as [? ->]. set_solver. }
           left. simpl in *. destruct t' as [|c1 [|c2 [|c3 t']]]; simplify_list_eq; try done.
           destruct Hpost as [|[= ->]]; [done|set_solver].
        -- right. exists b', post. split_and!; [done| |done].
           destruct Hpre as [|Hl]; [by destruct cur|]. rewrite last_app in Hl.
           apply last_slash_cons. destruct (last ("/"%char :: b')) eqn:E; [done|].
           by apply last_None in E.
    + rewrite IH; [|set_solver]. by rewrite <- app_assoc.
Qed.

Lemma find_control_None i s :
  find_control i s = None <-> forall c, c ∈ s -> is_control c = false.
Proof.
  revert i. induction s as [|c s IH]; intros i; simpl; [set_solver|].
  destruct (is_control c) eqn:E.
  - split; [done|]. intros H. rewrite H in E; [done|set_solver].
  - rewrite IH. set_solver.
Qed.

(** * Properties *)

(** L2-SEC-006: a path from outside is accepted exactly when it is absolute,
    holds no control character (NUL and DEL included) and has no component equal
    to [..]. *)
Theorem validate_external_path_spec p :
  validate_external_path p = Ok tt <->
  head p = Some "/"%char /\ (forall c, c ∈ p -> 0x20 <= code c /\ code c <> 0x7F) /\
  ~ dotdot_component p.
Proof.
  assert ((forall c, c ∈ p -> 0x20 <= code c /\ code c <> 0x7F) <->
          find_control 0 p = None) as ->.
  { rewrite find_control_None. split; intros H c Hc; specialize (H c Hc); unfold is_control in *.
    - apply orb_false_iff. lia.
    - apply orb_false_iff in H. lia. }
  assert (~ dotdot_component p <-> has_dotdot [] p = false) as ->.
  { rewrite <- not_true_iff_false, has_dotdot_spec by set_solver. done. }
  unfold validate_external_path. destruct p as [|c p]; [naive_solver|].
  destruct (Ascii.eqb_spec c "/") as [->|Hne]; cbn [negb]; [|naive_solver].
  destruct (find_control 0 _) as [[c0 i]|]; [naive_solver|].
  destruct (has_dotdot [] _); naive_solver.
Qed.

(** [move_within] never replaces anything, whichever strategy it uses and
    wherever it fails or stops: on success the object has moved to a name that was
    free; otherwise the namespace is unchanged, or, with link-then-unlink, the
    object has gained the free target name and still has its own. *)
Theorem move_within_never_clobbers {fs X} `{KernelLive fs} (w : world fs X)
    fd1 n1 fd2 n2 st d1 d2 r w' :
  fds (w_fs w) !! fd1 = Some d1 -> fds (w_fs w) !! fd2 = Some d2 -> 0 <= fd1 -> 0 <= fd2 ->
  move_within fd1 n1 fd2 n2 st w = (r, w') ->
  let E := entries (w_fs w) in
  let E' := entries (w_fs w') in
  match r with
  | Some (Ok _) => exists o, E !! (d1, n1) = Some o /\ E !! (d2, n2) = None /\
                     E' = <[(d2, n2) := o]> (delete (d1, n1) E)
  | _ => E' = E \/
         (st = LinkThenUnlink /\ exists o, E !! (d1, n1) = Some o /\ E !! (d2, n2) = None /\
            E' = <[(d2, n2) := o]> E)
  end.
Proof.
  intros Hd1 Hd2 Hp1 Hp2 Hrun E E'.
  set (C := fun (s : fs) (_ : X) => entries s = E \/
     (st = LinkThenUnlink /\ exists o, E !! (d1, n1) = Some o /\ E !! (d2, n2) = None /\
        entries s = <[(d2, n2) := o]> E)).
  assert (triple (at_ false E (fds (w_fs w)) (fun _ => True)) (move_within fd1 n1 fd2 n2 st)
    (fun r s x => match r with
       | Ok _ => exists o, E !! (d1, n1) = Some o /\ E !! (d2, n2) = None /\
                   entries s = <[(d2, n2) := o]> (delete (d1, n1) E)
       | Error _ => C s x
       end) C) as Ht.
  { apply triple_bind_id. eapply do_move_within; try done.
    - intros s x [He _]. by left.
    - intros o Ho Hn. apply triple_ret. intros s x (He & _). by exists o.
    - intros e _ _. apply triple_ret. intros s x (He & _). by left.
    - intros o -> Ho Hn. split.
      + intros s x [He _]. right. eauto.
      + intros e _ _. apply triple_ret. intros s x (He & _). right. eauto. }
  specialize (Ht w ltac:(by split_and!)). rewrite Hrun in Ht.
  destruct r as [[]|]; apply Ht.
Qed.

(** L2-SEC-002: [open_regular] hands out a descriptor only when it is open on a
    regular file that is, device and inode, the object the caller classified;
    on every failure the descriptor table is what it was. *)
Theorem open_regular_identity {fs X} `{KernelLive fs} (w : world fs X) dir d name expected r w' :
  fds (w_fs w) !! dir = Some d -> 0 <= dir ->
  open_regular dir name expected w = (Some r, w') ->
  entries (w_fs w') = entries (w_fs w) /\
  match r with
  | Ok fd => exists o, fds (w_fs w') = <[fd := o]> (fds (w_fs w)) /\
               fds (w_fs w) !! fd = None /\ entries (w_fs w) !! (d, name) = Some o /\
               identity_of (stat_of o) = expected /\ kind expected = Regular
  | Error e => fds (w_fs w') = fds (w_fs w) /\ e <> []
  end.
Proof.
  intros Hd Hp Hrun.
  assert (triple (at_ false (entries (w_fs w)) (fds (w_fs w)) (fun _ => True))
    (open_regular dir name expected)
    (fun r (s : fs) (x : X) => entries s = entries (w_fs w) /\
       match r with
       | Ok fd => exists o, fds s = <[fd := o]> (fds (w_fs w)) /\
               fds (w_fs w) !! fd = None /\ entries (w_fs w) !! (d, name) = Some o /\
               identity_of (stat_of o) = expected /\ kind expected = Regular
       | Error e => fds s = fds (w_fs w) /\ e <> []
       end) (fun _ _ => True)) as Ht.
  { apply triple_bind_id. eapply do_open_regular; try done.
    - intros fd o ? ? ? ? ? ?. apply triple_ret. intros s x (He & Hf & _). split; [done|]. eauto 10.
    - intros e He _. apply triple_ret. by intros s x (? & ? & _). }
  specialize (Ht w ltac:(by split_and!)). rewrite Hrun in Ht. apply Ht.
Qed.

(** ** Witnesses *)

(** Two directories, [/in] (1) and [/out] (2), and regular files. *)
Definition demo_resolve (p : bytes) : option Z :=
  if p == str "/in" then Some 1 else if p == str "/out" then Some 2 else None.
Definition demo_stat (o : Z) : stat := mkStat 7 o (S_IFREG + 0x1A4) 1000.
Abbreviation demo_fs := (memfs demo_resolve demo_stat).

Definition demo_disk (l : list (entry * Z)) (faults : list (option Z)) : demo_fs :=
  mkMem (list_to_map l) ∅ faults.

(** The two directories open as descriptors 3 and 4. *)
Definition demo_opened (l : list (entry * Z)) : world demo_fs unit :=
  mkWorld (mkMem (list_to_map l) {[ 3 := 1; 4 := 2 ]} []) tt None.

Lemma move_within_never_clobbers_witness :
  let w := demo_opened [((1, str "a"), 10); ((2, str "b"), 99)] in
  entries (w_fs (snd (move_within 3 (str "a") 4 (str "b") RenameNoReplace w)))
  = entries (w_fs w).
Proof.
  intros w.
  pose proof (move_within_never_clobbers w 3 (str "a") 4 (str "b") RenameNoReplace 1 2
    (fst (move_within 3 (str "a") 4 (str "b") RenameNoReplace w))
    (snd (move_within 3 (str "a") 4 (str "b") RenameNoReplace w))
    eq_refl eq_refl ltac:(lia) ltac:(lia) (surjective_pairing _)) as Hm.
  destruct (fst (move_within 3 (str "a") 4 (str "b") RenameNoReplace w)) as [[?|?]|];
    [destruct Hm as (o & _ & Hn & _); vm_compute in Hn; discriminate|
     destruct Hm as [Hm|[? _]]; [exact Hm|discriminate]..].
Defined.

Lemma open_regular_identity_witness :
  exists fd w', open_regular 3 (str "a") (mkIdentity 7 10 Regular) (demo_opened [((1, str "a"), 10)])
                = (Some (Ok fd), w') /\ fds (w_fs w') !! fd = Some 10.
Proof.
  destruct (open_regular 3 (str "a") (mkIdentity 7 10 Regular) (demo_opened [((1, str "a"), 10)]))
    as [[[fd|e]|] w'] eqn:E; [|vm_compute in E; discriminate..].
  destruct (open_regular_identity (demo_opened [((1, str "a"), 10)]) 3 1 (str "a")
    (mkIdentity 7 10 Regular) (Ok fd) w') as (_ & o & Hf & _ & Ho & _);
    [vm_compute; reflexivity|lia|exact E|].
  exists fd, w'. split; [reflexivity|]. rewrite Hf, lookup_insert_eq.
  vm_compute in Ho. congruence.
Defined.
