(* ===== verification/DirList.v ===== *)
(** Directory listings: [read_entries] of src/cpp/src/fsops.cpp.

    The directory stream (dup, fdopendir, rewinddir, readdir) is the kernel's and the C
    library's: [DirKernel] lists the calls and [DirLaws] what their manual pages say.  The
    loop carries fuel; [read_entries_lists] shows that one unit more than the listing has
    entries is enough. *)

From S2P Require Import Prelude Crash Kernel FsOps.

(** ** The directory stream *)

Class DirKernel (fs : Type) := {
  sys_dup : Z -> fs -> result Z Z * fs;
  sys_fdopendir : Z -> fs -> result unit Z * fs;
  sys_rewinddir : Z -> fs -> unit * fs;
  (** The next entry with its d_type, or the end of the directory. *)
  sys_readdir : Z -> fs -> result (option (bytes * Z)) Z * fs
}.

Class DirLaws (fs : Type) `{KernelLaws fs} `{!DirKernel fs} := {
  (** What a directory lists, and what a stream has still to return. *)
  listing : Z -> list (bytes * Z);
  unread : fs -> Z -> list (bytes * Z);
  dup_law fd s r s' : sys_dup fd s = (r, s') ->
    entries s' = entries s /\
    match r with
    | Ok new => 0 <= new /\ fds s !! new = None /\
        exists d, fds s !! fd = Some d /\ fds s' = <[new := d]> (fds s)
    | Error _ => fds s' = fds s
    end;
  fdopendir_law fd s r s' : sys_fdopendir fd s = (r, s') ->
    entries s' = entries s /\ fds s' = fds s;
  (** rewinddir(3): back to the beginning of the directory. *)
  rewinddir_law fd s u s' : sys_rewinddir fd s = (u, s') ->
    entries s' = entries s /\ fds s' = fds s /\
    forall d, fds s !! fd = Some d -> unread s' fd = listing d;
  readdir_law fd s r s' : sys_readdir fd s = (r, s') ->
    entries s' = entries s /\ fds s' = fds s /\
    match r with
    | Ok (Some e) => unread s fd = e :: unread s' fd
    | Ok None => unread s fd = []
    | Error _ => True
    end;
  fstatat_unread dfd n s r s' : sys_fstatat dfd n s = (r, s') ->
    forall fd, unread s' fd = unread s fd
}.

(** ** read_entries *)

Record DirEntry := mkDirEntry { de_name : bytes; de_kind : EntryKind }.

Definition DT_FIFO : Z := 1.
Definition DT_CHR : Z := 2.
Definition DT_DIR : Z := 4.
Definition DT_BLK : Z := 6.
Definition DT_REG : Z := 8.
Definition DT_LNK : Z := 10.
Definition DT_SOCK : Z := 12.

(** The kind the directory itself tells, if it tells one. *)
Definition kind_of_d_type (d_type : Z) : option EntryKind :=
  if d_type =? DT_REG then Some Regular
  else if d_type =? DT_DIR then Some Directory
  else if d_type =? DT_LNK then Some Symlink
  else if d_type =? DT_FIFO then Some Fifo
  else if d_type =? DT_SOCK then Some Socket
  else if d_type =? DT_BLK then Some BlockDevice
  else if d_type =? DT_CHR then Some CharDevice
  else None.

Definition kind_of_stat (r : result stat Z) : EntryKind :=
  match r with
  | Ok st => kind_from_mode (st_mode st)
  | Error e => if e =? ENOENT then Missing else Unknown
  end.

Section ReadEntries.
Context {fs X : Type} `{!Kernel fs} `{!DirKernel fs}.
Local Open Scope prog_scope.
Local Abbreviation P := (prog fs X).

Definition entry_kind (dir : Z) (name : bytes) (d_type : Z) : P EntryKind :=
  match kind_of_d_type d_type with
  | Some k => ret k
  | None => r <-- syscall (sys_fstatat dir (c_str name)) ;; ret (kind_of_stat r)
  end.

(** [out] in the order of the directory; [None] when the fuel is out. *)
Fixpoint read_loop (fuel : nat) (dir stream : Z) (out : list DirEntry)
    : P (option (result (list DirEntry) bytes)) :=
  match fuel with
  | O => ret None
  | S f =>
      r <-- syscall (sys_readdir stream) ;;
      match r with
      | Error e =>
          syscall (sys_close stream) ;;;
          ret (Some (Error (errno_message (str "reading directory") e)))
      | Ok None => syscall (sys_close stream) ;;; ret (Some (Ok out))
      | Ok (Some (d_name, d_type)) =>
          let name := c_str d_name in
          if (name == str ".") || (name == str "..") then read_loop f dir stream out
          else
            k <-- entry_kind dir name d_type ;;
            read_loop f dir stream (out ++ [mkDirEntry name k])
      end
  end.

Definition read_entries (fuel : nat) (dir : Z) : P (option (result (list DirEntry) bytes)) :=
  if negb (dir_is_open dir) then ret (Some (Error dir_not_open))
  else
    d <-- syscall (sys_dup dir) ;;
    match d with
    | Error e => ret (Some (Error (errno_message (str "cannot duplicate directory descriptor") e)))
    | Ok dup_fd =>
        h <-- syscall (sys_fdopendir dup_fd) ;;
        match h with
        | Error e =>
            syscall (sys_close dup_fd) ;;;
            ret (Some (Error (errno_message (str "cannot read directory") e)))
        | Ok _ =>
            syscall (sys_rewinddir dup_fd) ;;;
            read_loop fuel dir dup_fd []
        end
    end.
End ReadEntries.

(** * Lemmas *)

Section Laws.
Context {fs X : Type} `{DirLaws fs}.
Local Abbreviation P := (prog fs X).

(** The two names every directory has. *)
Definition is_dot (e : bytes * Z) : bool :=
  (c_str (fst e) == str ".") || (c_str (fst e) == str "..").

(** What an entry of the listing becomes: its name, with the kind the directory tells, or
    else what the object under that name is, [Missing] if there is none any more, or
    [Unknown] if it could not be asked. *)
Definition listed (E : gmap entry Z) (d : Z) (item : bytes * Z) (e : DirEntry) : Prop :=
  de_name e = c_str (fst item) /\
  match kind_of_d_type (snd item) with
  | Some k => de_kind e = k
  | None =>
      de_kind e = Unknown \/
      de_kind e = match E !! (d, c_str (fst item)) with
                  | Some o => kind_from_mode (st_mode (stat_of o))
                  | None => Missing
                  end
  end.

(** The stream is open on [d] and has [l] still to return. *)
Definition reading (E : gmap entry Z) (F : gmap Z Z) (stream : Z) (l : list (bytes * Z))
    (s : fs) (_ : X) : Prop :=
  entries s = E /\ fds s = F /\ unread s stream = l.

Definition read_post (E : gmap entry Z) (F : gmap Z Z) (d : Z) (l : list (bytes * Z))
    (out : list DirEntry) (r : option (result (list DirEntry) bytes)) (s : fs) (_ : X) : Prop :=
  entries s = E /\ fds s = F /\
  match r with
  | None => False
  | Some (Error e) => e <> []
  | Some (Ok out') => exists new, out' = out ++ new /\
      Forall2 (listed E d) (filter (fun x => is_dot x = false) l) new
  end.

Lemma entry_kind_triple E F dir d stream l n t (k : EntryKind -> P _) Q :
  F !! dir = Some d ->
  (forall kd, listed E d (n, t) (mkDirEntry (c_str n) kd) ->
     triple (reading E F stream l) (k kd) Q (fun _ _ => True)) ->
  triple (reading E F stream l)
    (bind (entry_kind dir (c_str n) t) k : P (option (result (list DirEntry) bytes))) Q (fun _ _ => True).
Proof.
  intros Hd Hk. unfold entry_kind, listed in *. simpl in Hk.
  destruct (kind_of_d_type t) as [kd|]; [apply triple_bind_ret, Hk; done|].
  apply triple_bind_assoc, triple_bind_syscall; [done|]. intros s x r s' (He & Hf & Hu) E1.
  pose proof (fstatat_unread _ _ _ _ _ E1 stream) as Hu'. apply fstatat_law in E1 as (He' & Hf' & Hr).
  exists (reading E F stream l). split; [split_and!; congruence|]. apply triple_bind_ret, Hk. split; [done|].
  simpl. rewrite c_str_idemp in Hr. destruct r as [st|e]; simpl.
  - destruct Hr as (d' & o & Hd' & Ho & ->). rewrite Hf, Hd in Hd'. injection Hd' as <-.
    rewrite He in Ho. rewrite Ho. by right.
  - destruct (Z.eqb_spec e ENOENT) as [->|]; [|by left]. right.
    rewrite <- He, (Hr eq_refl d) by (by rewrite Hf). done.
Qed.

Lemma read_loop_triple fuel E F dir d stream l out :
  F !! dir = Some d -> (length l < fuel)%nat ->
  triple (reading E F stream l) (read_loop fuel dir stream out : P _)
    (read_post E (delete stream F) d l out) (fun _ _ => True).
Proof.
  intros Hd. revert l out. induction fuel as [|f IH]; intros l out Hl; [lia|]. simpl.
  apply triple_bind_syscall; [done|]. intros s x r s' (He & Hf & Hu) Er.
  apply readdir_law in Er as (He' & Hf' & Hr).
  exists (fun s0 _ => entries s0 = E /\ fds s0 = F /\ unread s0 stream = unread s' stream).
  split; [split_and!; congruence|].
  assert (forall res, (match res with Some (Error e) => e <> []
       | Some (Ok out') => l = [] /\ out' = out | None => False end) ->
     triple (reading E F stream (unread s' stream))
       (bind (syscall (sys_close stream)) (fun _ => ret res) : P _)
       (read_post E (delete stream F) d l out) (fun _ _ => True)) as Hend.
  { intros res Hres. apply triple_bind_syscall; [done|]. intros s0 x0 u s1 (He0 & Hf0 & _) Ec.
    apply close_law in Ec as [He1 Hf1]. exists (fun s2 _ => entries s2 = E /\ fds s2 = delete stream F).
    split; [split; congruence|]. apply triple_ret. intros s2 x2 [? ?]. split_and!; [done|done|].
    destruct res as [[out'|e]|]; [|done|done]. destruct Hres as [-> ->]. exists [].
    split; [by rewrite app_nil_r|constructor]. }
  destruct r as [[[n t]|]|e]; [|by apply Hend; rewrite Hr in Hu|by apply Hend].
  rewrite Hr in Hu. subst l. simpl in Hl. change (triple (reading E F stream (unread s' stream))
    (if (c_str n == str ".") || (c_str n == str "..") then read_loop f dir stream out
     else bind (entry_kind dir (c_str n) t)
            (fun k => read_loop f dir stream (out ++ [mkDirEntry (c_str n) k])) : P _)
    (read_post E (delete stream F) d ((n, t) :: unread s' stream) out) (fun _ _ => True)).
  destruct ((c_str n == str ".") || (c_str n == str "..")) eqn:Edot.
  - eapply triple_conseq; [apply (IH (unread s' stream) out); lia|done| |done].
    intros r s0 x0 (? & ? & Hpost). split_and!; [done|done|]. destruct r as [[out'|]|]; [|done|done].
    destruct Hpost as (new & -> & Hnew). exists new. split; [done|]. rewrite filter_cons_False; [done|].
    unfold is_dot. simpl. by rewrite Edot.
  - eapply entry_kind_triple; [exact Hd|]. intros kd Hkd.
    eapply triple_conseq; [apply (IH (unread s' stream) (out ++ [mkDirEntry (c_str n) kd])); lia|done| |done].
    intros r s0 x0 (? & ? & Hpost). split_and!; [done|done|]. destruct r as [[out'|]|]; [|done|done].
    destruct Hpost as (new & -> & Hnew). exists (mkDirEntry (c_str n) kd :: new).
    split; [by rewrite <- app_assoc|]. rewrite filter_cons_True; [by constructor|].
    unfold is_dot. simpl. done.
Qed.

(** * Theorem *)

(** A listing is exact and leaks nothing: [read_entries] always ends; it leaves the namespace
    and the descriptors as they were; and it either fails with an error text, having
    returned no entries, or returns every entry of the directory but the two dots, once
    each and in order, with the kind of the object it names. *)
Theorem read_entries_lists dir d (w : world fs X) :
  0 <= dir -> fds (w_fs w) !! dir = Some d -> w_budget w = None ->
  exists r w', read_entries (S (length (listing d))) dir w = (Some (Some r), w') /\
    entries (w_fs w') = entries (w_fs w) /\ fds (w_fs w') = fds (w_fs w) /\
    match r with
    | Error e => e <> []
    | Ok out => Forall2 (listed (entries (w_fs w)) d)
                  (filter (fun x => is_dot x = false) (listing d)) out
    end.
Proof.
  intros Hdir Hd Hb. set (E := entries (w_fs w)). set (F := fds (w_fs w)).
  assert (triple (fun s _ => entries s = E /\ fds s = F)
    (read_entries (S (length (listing d))) dir : P _)
    (read_post E F d (listing d) []) (fun _ _ => True)) as Ht.
  { unfold read_entries, dir_is_open. rewrite (proj2 (Z.leb_le _ _) Hdir). cbn [negb].
    apply triple_bind_syscall; [done|]. intros s x r s1 (He & Hf) E1. apply dup_law in E1 as [He1 Hr].
    destruct r as [new|e].
    2: { exists (fun s _ => entries s = E /\ fds s = F). split; [split; congruence|].
         apply triple_ret. intros ? ? [? ?]. by split_and!. }
    destruct Hr as (Hnew & Hfr & d' & Hd' & Hf1). rewrite Hf in *. fold F in Hd.
    assert (d' = d) as -> by congruence. assert (delete new (<[new := d]> F) = F) as Hdel by (by apply delete_insert_id).
    exists (fun s _ => entries s = E /\ fds s = <[new := d]> F). split; [split; congruence|].
    apply triple_bind_syscall; [done|]. intros s2 x2 r s3 (He2 & Hf2) E2.
    apply fdopendir_law in E2 as [He3 Hf3].
    exists (fun s _ => entries s = E /\ fds s = <[new := d]> F). split; [split; congruence|].
    destruct r as [[]|e].
    - apply triple_bind_syscall; [done|]. intros s4 x4 u s5 (He4 & Hf4) E3.
      apply rewinddir_law in E3 as (He5 & Hf5 & Hun).
      exists (reading E (<[new := d]> F) new (listing d)).
      split; [split_and!; [congruence|congruence|]; apply Hun; rewrite Hf4; apply lookup_insert_eq|].
      assert ((<[new := d]> F) !! dir = Some d) as Hdir' by (rewrite lookup_insert_ne; [done|congruence]).
      pose proof (read_loop_triple (S (length (listing d))) E _ dir d new (listing d) [] Hdir' ltac:(lia)) as Hloop.
      by rewrite Hdel in Hloop.
    - apply triple_bind_syscall; [done|]. intros s4 x4 u s5 (He4 & Hf4) E3.
      apply close_law in E3 as [He5 Hf5]. exists (fun s _ => entries s = E /\ fds s = F).
      split; [split; congruence|]. apply triple_ret. intros ? ? [? ?]. by split_and!. }
  destruct (triple_run _ _ _ _ w Ht) as (r & w' & Hrun & (He & Hf & Hr) & _); [done|done|].
  destruct r as [r|]; [|done]. exists r, w'. split_and!; try done.
  destruct r as [out|e]; [|done]. by destruct Hr as (new & -> & Hn).
Qed.
End Laws.

(** ** An in-memory directory stream *)

(** What each open stream has still to return. *)
Notation dirfs rs so := (memplus rs so (gmap Z (list (bytes * Z))) (fun fd (u : gmap Z (list (bytes * Z))) => delete fd u)).

Section MemDir.
Context {rs : bytes -> option Z} {so : Z -> stat} (ls : Z -> list (bytes * Z)).
Local Abbreviation dfs := (dirfs rs so).

Definition mem_dup (fd : Z) (s : dfs) : result Z Z * dfs :=
  match m_fds (mp_mem s) !! fd with
  | None => (Error EBADF, s)
  | Some d => lift (mem_install d) s
  end.
Definition mem_rewinddir (fd : Z) (s : dfs) : unit * dfs :=
  (tt, match m_fds (mp_mem s) !! fd with
       | None => s
       | Some d => mkPlus (mp_mem s) (<[fd := ls d]> (mp_data s))
       end).
Definition mem_readdir (fd : Z) (s : dfs) : result (option (bytes * Z)) Z * dfs :=
  match default [] (mp_data s !! fd) with
  | [] => (Ok None, s)
  | e :: l => (Ok (Some e), mkPlus (mp_mem s) (<[fd := l]> (mp_data s)))
  end.

Instance MemDirKernel : DirKernel dfs := {
  sys_dup := mem_dup;
  sys_fdopendir _ s := (Ok tt, s);
  sys_rewinddir := mem_rewinddir;
  sys_readdir := mem_readdir
}.

Instance MemDirLaws : DirLaws dfs.
Proof.
  refine {| listing := ls; unread s fd := default [] (mp_data s !! fd) |}.
  - simpl. unfold mem_dup. intros fd s r s' E. destruct (m_fds (mp_mem s) !! fd) as [d|] eqn:Hd; [|by simplify_eq].
    apply lift_inv in E as [E _]. unfold mem_install in E.
    destruct (next_fd_fresh (m_fds (mp_mem s))) as [H0 H1].
    injection E as <- Em. rewrite <- Em. simpl. split; [done|]. eauto 10.
  - simpl. intros fd s r s' E. by simplify_eq.
  - simpl. unfold mem_rewinddir. intros fd s u s' E. injection E as _ <-.
    destruct (m_fds (mp_mem s) !! fd) as [d|] eqn:Hd; split_and!; try done. simpl.
    intros d' [= <-]. by rewrite lookup_insert_eq.
  - simpl. unfold mem_readdir. intros fd s r s' E.
    destruct (default [] (mp_data s !! fd)) as [|e l] eqn:Hl; simplify_eq/=; split_and!; try done.
    by rewrite lookup_insert_eq.
  - intros dfd n s r s' [_ E]%lift_inv fd. by rewrite E.
Defined.
End MemDir.

(** ** Witness *)

(** A directory on a filesystem that reports no types, open as descriptor 3, with one file
    that is gone by the time it is asked for. *)
Definition demo_listing (d : Z) : list (bytes * Z) :=
  [(str ".", 4); (str "..", 4); (str "a", 0); (str "gone", 0)].
Definition demo_dir : dirfs (fun _ => None) (fun o => mkStat 1 o 33188 0) :=
  mkPlus (mkMem {[ (1, str "a") := 10 ]} {[ 3 := 1 ]} []) ∅.

Lemma read_entries_lists_witness :
  exists w', @read_entries _ unit _ (MemDirKernel demo_listing) 5 3 (mkWorld demo_dir tt None)
    = (Some (Some (Ok [mkDirEntry (str "a") Regular; mkDirEntry (str "gone") Missing])), w') /\
    fds (w_fs w') = fds demo_dir.
Proof.
  destruct (@read_entries_lists _ unit _ _ _ (MemDirLaws demo_listing) 3 1 (mkWorld demo_dir tt None))
    as (r & w' & E & _ & Hf & _); [lia|reflexivity|reflexivity|].
  assert (fst (@read_entries _ unit _ (MemDirKernel demo_listing) 5 3 (mkWorld demo_dir tt None))
    = Some (Some (Ok [mkDirEntry (str "a") Regular; mkDirEntry (str "gone") Missing]))) as Hr
    by (vm_compute; reflexivity).
  simpl length in E. rewrite E in Hr. simpl in Hr. injection Hr as ->. exists w'. split; [exact E|exact Hf].
Defined.
