(* ===== verification/Mover.v ===== *)
(** The move engine: src/cpp/src/mover.cpp and
    src/cpp/include/filemover/mover.hpp.

    [execute] and [recover] are programs over a kernel and the durable store
    that may crash between any two calls.  The engine's callbacks (the progress
    function and the phase hook) are recorded in [e_trace].  A DirHandle closes its
    descriptor when it goes out of scope, the destination before the source.

    The [error] out-parameter is threaded as the code threads it: a call that
    succeeds leaves it alone. *)

From S2P Require Import Prelude Job Store Kernel Crash FsOps.

(** * Data *)

Record MoveRequest := mkRequest {
  source_dir : bytes;
  source_name : bytes;
  dest_dir : bytes;
  dest_name : bytes
}.

Inductive MoveOutcome :=
| Completed | Rejected | AbortedBeforeCommit | HaltedAfterCommit | FailedExternal.

Inductive MovePhase :=
| Validate | RecordRenaming | Commit | RecordMoved | Publish | RecordDone.

#[export] Instance MoveOutcome_eq_dec : EqDecision MoveOutcome.
Proof. solve_decision. Defined.

Definition outcome_to_string (outcome : MoveOutcome) : bytes :=
  match outcome with
  | Completed => str "COMPLETED" | Rejected => str "REJECTED"
  | AbortedBeforeCommit => str "ABORTED_BEFORE_COMMIT"
  | HaltedAfterCommit => str "HALTED_AFTER_COMMIT" | FailedExternal => str "FAILED_EXTERNAL"
  end.
Definition phase_to_string (phase : MovePhase) : bytes :=
  match phase with
  | Validate => str "VALIDATE" | RecordRenaming => str "RECORD_RENAMING" | Commit => str "COMMIT"
  | RecordMoved => str "RECORD_MOVED" | Publish => str "PUBLISH" | RecordDone => str "RECORD_DONE"
  end.

Lemma move_tokens_inj : Inj (=) (=) outcome_to_string /\ Inj (=) (=) phase_to_string.
Proof. split; by intros [] []. Qed.

Inductive engine_event :=
| ProgressCall (bytes_done bytes_total : Z)
| PhaseHook (completed : MovePhase).

(** The engine's store and the callbacks it has made. *)
Record engine := mkEngine { e_store : JobStore; e_trace : list engine_event }.

(** [next_tick]: timestamps are derived from the job's own. *)
Definition next_tick (previous : Z) : Z := previous + 1.

Definition staging_name (job_id : bytes) : bytes := str ".swit-partial-" ++ job_id.

(** * Operations *)

Section Engine.
Context {fs : Type} `{!Kernel fs}.
Local Open Scope prog_scope.
Local Abbreviation P := (prog fs engine).

Definition store_call {A} (f : JobStore -> A * JobStore) : P A :=
  extcall (fun e => let '(a, s) := f (e_store e) in (a, mkEngine s (e_trace e))).

Definition callback (ev : engine_event) : P unit :=
  note (fun e => mkEngine (e_store e) (e_trace e ++ [ev])).

Definition store_load (job_id : bytes) : P (result (option Job) bytes) :=
  store_call (load job_id).
Definition store_transition (job_id : bytes) (to : JobState) (now : Z) (msg : bytes)
    (ph : CommitPhase) : P (WriteFailureAction * bytes) :=
  store_call (record_transition job_id to now msg ph).
Definition store_mark (job_id reason : bytes) : P (result unit bytes) :=
  store_call (mark_needs_attention job_id reason).

(** The two DirHandles of a function: opened in order, closed in reverse. *)
Definition with_dirs (request : MoveRequest)
    (body : Z -> Z -> P (MoveOutcome * bytes)) : P (MoveOutcome * bytes) :=
  s <-- open_root (-1) (source_dir request) ;;
  match s with
  | Error e => ret (Rejected, e)
  | Ok sd =>
      d <-- open_root (-1) (dest_dir request) ;;
      match d with
      | Error e => dir_close sd ;;; ret (Rejected, e)
      | Ok dd =>
          out <-- body sd dd ;;
          dir_close dd ;;;
          dir_close sd ;;;
          ret out
      end
  end.

Definition no_record (job_id : bytes) : bytes :=
  str "mover: no durable record for job '" ++ job_id ++ str "'".
Definition already_failed (job_id : bytes) : bytes :=
  str "mover: job '" ++ job_id ++ str "' is already FAILED; refusing to resurrect it".

(** The end of a phase that failed after the commit point: flag and halt. *)
Definition halt (job_id error : bytes) : P (MoveOutcome * bytes) :=
  store_mark job_id error ;;; ret (HaltedAfterCommit, error).

(** Phase 6. *)
Definition record_done (job_id : bytes) (tick : Z) (error : bytes) : P (MoveOutcome * bytes) :=
  d <-- store_transition job_id Done (next_tick tick) [] AfterCommitPoint ;;
  match d with
  | (NoAction, _) => callback (PhaseHook RecordDone) ;;; ret (Completed, error)
  | (_, e) => halt job_id e
  end.

(** Phase 5: [saw_staged] and [saw_final] are read before anything is concluded;
    a failed probe counts as not seen. *)
Definition probe (dest : Z) (name : bytes) : P bool :=
  c <-- classify dest name ;;
  ret match c with
      | Ok i => negb (bool_decide (kind i = Missing))
      | Error _ => false
      end.

Definition removed_externally (job_id : bytes) : bytes :=
  str "mover: job '" ++ job_id
  ++ str "' is past the commit point but neither the staged nor the final name exists; the delivered object was removed externally (L2-SEC-011)".

Definition publish_phase (job_id : bytes) (request : MoveRequest) (dest : Z)
    (staging : bytes) (tick total_bytes : Z) (error : bytes) : P (MoveOutcome * bytes) :=
  saw_staged <-- probe dest staging ;;
  saw_final <-- probe dest (dest_name request) ;;
  let rest (error : bytes) :=
    callback (ProgressCall total_bytes total_bytes) ;;;
    callback (PhaseHook Publish) ;;;
    record_done job_id tick error in
  if saw_staged : bool then
    p <-- publish dest staging (dest_name request) ;;
    match p with
    | Error e => halt job_id e
    | Ok _ => rest error
    end
  else if negb saw_final then
    store_mark job_id (removed_externally job_id) ;;;
    ret (FailedExternal, removed_externally job_id)
  else rest error.

Definition finish_after_commit (job_id : bytes) (request : MoveRequest) (dest : Z)
    (staging : bytes) (tick total_bytes : Z) (error : bytes) : P (MoveOutcome * bytes) :=
  r <-- store_load job_id ;;
  match r with
  | Error e => ret (HaltedAfterCommit, e)
  | Ok None => ret (HaltedAfterCommit, if error == [] then no_record job_id else error)
  | Ok (Some job) =>
      if bool_decide (state job = Done) then ret (Completed, error)
      else if bool_decide (state job = Failed) then
        ret (HaltedAfterCommit, already_failed job_id)
      else
        let rest (error : bytes) :=
          callback (PhaseHook RecordMoved) ;;;
          publish_phase job_id request dest staging tick total_bytes error in
        if bool_decide (state job = Renaming) then
          t <-- store_transition job_id Transferring tick [] AfterCommitPoint ;;
          match t with
          | (NoAction, _) => rest error
          | (_, e) => halt job_id e
          end
        else rest error
  end.

(** Phase 3 and what follows it. *)
Definition commit_phase (job_id : bytes) (request : MoveRequest) (strategy : MoveStrategy)
    (source dest : Z) (tick total_bytes : Z) (error : bytes) : P (MoveOutcome * bytes) :=
  let staging := staging_name job_id in
  m <-- move_within source (source_name request) dest staging strategy ;;
  match m with
  | Error e => ret (AbortedBeforeCommit, e)
  | Ok _ =>
      callback (PhaseHook Commit) ;;;
      finish_after_commit job_id request dest staging (next_tick tick) total_bytes error
  end.

(** Phase 2: durable QUEUED -> RENAMING, idempotent on a job already past it. *)
Definition renaming_phase (job_id : bytes) (request : MoveRequest) (strategy : MoveStrategy)
    (job : Job) (source dest : Z) (total_bytes : Z) (error : bytes)
    : P (MoveOutcome * bytes) :=
  let tick := next_tick (updated_at_ms job) in
  if bool_decide (state job = Done) then ret (Completed, error)
  else if bool_decide (state job = Failed) then ret (Rejected, already_failed job_id)
  else
    let rest (error : bytes) :=
      callback (PhaseHook RecordRenaming) ;;;
      commit_phase job_id request strategy source dest tick total_bytes error in
    if bool_decide (state job = Queued) then
      t <-- store_transition job_id Renaming tick [] BeforeCommitPoint ;;
      match t with
      | (NoAction, _) => rest error
      | (_, e) => ret (AbortedBeforeCommit, e)
      end
    else rest error.

(** Phase 1 once the directories are open. *)
Definition validate_phase (job_id : bytes) (request : MoveRequest) (strategy : MoveStrategy)
    (job : Job) (source dest : Z) : P (MoveOutcome * bytes) :=
  let name := source_name request in
  c <-- classify source name ;;
  match c with
  | Error e => ret (Rejected, e)
  | Ok source_id =>
      if bool_decide (kind source_id = Missing) then
        ret (Rejected, str "mover: source '" ++ name ++ str "' does not exist")
      else if negb (bool_decide (kind source_id = Regular)) then
        ret (Rejected, str "mover: refusing '" ++ name ++ str "': it is a "
                       ++ kind_to_string (kind source_id) ++ str ", not a regular file")
      else
        o <-- open_regular source name source_id ;;
        match o with
        | Error e => ret (Rejected, e)
        | Ok source_fd =>
            again <-- classify source name ;;
            let '(total_bytes, error) :=
              match again with
              | Ok _ => (bytes_total job, [])
              | Error e => (0, e)
              end in
            syscall (sys_close source_fd) ;;;
            callback (ProgressCall 0 total_bytes) ;;;
            callback (PhaseHook Validate) ;;;
            renaming_phase job_id request strategy job source dest total_bytes error
        end
  end.

Definition execute (job_id : bytes) (request : MoveRequest) (strategy : MoveStrategy)
    : P (MoveOutcome * bytes) :=
  match validate_external_path (source_dir request) with
  | Error e => ret (Rejected, e)
  | Ok _ =>
  match validate_external_path (dest_dir request) with
  | Error e => ret (Rejected, e)
  | Ok _ =>
      r <-- store_load job_id ;;
      match r with
      | Error e => ret (Rejected, e)
      | Ok None =>
          ret (Rejected, no_record job_id
               ++ str "; intent must be recorded before any filesystem action (L2-JOB-013)")
      | Ok (Some job) =>
          with_dirs request (validate_phase job_id request strategy job)
      end
  end end.

Definition collision_error (staging : bytes) : bytes :=
  str "mover: '" ++ staging
  ++ str "' exists and is not the object we moved; refusing to clobber it".
Definition both_missing_error (job_id : bytes) : bytes :=
  str "mover: neither source nor staged destination exists for job '" ++ job_id
  ++ str "'; the source was removed externally (L2-SEC-011). Not retrying automatically.".

(** The verdict of [recover] on each state of the disk. *)
Definition redrive (job_id : bytes) (request : MoveRequest) (strategy : MoveStrategy)
    (job : Job) (source dest : Z) (st : MoveState) : P (MoveOutcome * bytes) :=
  let staging := staging_name job_id in
  let tick := next_tick (updated_at_ms job) in
  let finish := finish_after_commit job_id request dest staging tick (bytes_total job) [] in
  match st with
  | NotStarted => execute job_id request strategy
  | Interrupted =>
      m <-- move_within source (source_name request) dest staging LinkThenUnlink ;;
      match m with
      | Error e => halt job_id e
      | Ok _ => finish
      end
  | MoveCompleted => finish
  | Collision =>
      store_transition job_id Failed tick (collision_error staging) AfterCommitPoint ;;;
      ret (HaltedAfterCommit, collision_error staging)
  | BothMissing =>
      final <-- probe dest (dest_name request) ;;
      if final : bool then finish
      else
        store_transition job_id Failed tick (both_missing_error job_id) AfterCommitPoint ;;;
        ret (FailedExternal, both_missing_error job_id)
  end.

Definition recover (job_id : bytes) (request : MoveRequest) (strategy : MoveStrategy)
    : P (MoveOutcome * bytes) :=
  with_dirs request (fun source dest =>
    c <-- classify_move_state source (source_name request) dest (staging_name job_id) ;;
    match c with
    | Error e => ret (Rejected, e)
    | Ok st =>
        r <-- store_load job_id ;;
        match r with
        | Error e => ret (Rejected, e)
        | Ok None => ret (Rejected, no_record job_id)
        | Ok (Some job) => redrive job_id request strategy job source dest st
        end
    end).
End Engine.

(** * Reasoning about the engine *)

Section Specs.
Context {fs : Type} `{KernelLive fs} (live : bool).
Local Abbreviation P := (prog fs engine).

(** The durable record: the store holds exactly the jobs [V]. *)
Definition holds (V : gmap bytes Job) (e : engine) : Prop :=
  db_wf (db (e_store e)) /\ view (db (e_store e)) = V /\
  (live = true -> store_live (e_store e)).

Section Rules.
Context {B : Type} (Q : B -> fs -> engine -> Prop) (C : fs -> engine -> Prop).
Implicit Types (E : gmap entry Z) (F : gmap Z Z) (V : gmap bytes Job).

Lemma do_store {A} E F V (f : JobStore -> A * JobStore) (k : A -> P B) :
  crash_ok C E (holds V) ->
  (forall s a s', db_wf (db s) -> view (db s) = V -> (live = true -> store_live s) ->
     f s = (a, s') ->
     exists V', db_wf (db s') /\ view (db s') = V' /\ (live = true -> store_live s') /\
       triple (at_ live E F (holds V')) (k a) Q C) ->
  triple (at_ live E F (holds V)) (bind (store_call f) k) Q C.
Proof.
  intros HC Hk. apply triple_bind_extcall.
  - intros s x (? & ? & ? & ?). by apply HC.
  - intros s x a x' (He & Hf & Hl & Hw & Hv & Hs) Hc.
    destruct (f (e_store x)) as [a1 s1] eqn:Ef. simplify_eq.
    destruct (Hk _ _ _ Hw eq_refl Hs Ef) as (V' & ? & ? & ? & ?).
    exists (at_ live (entries s) (fds s) (holds V')). done.
Qed.

Lemma do_load E F V key (k : result (option Job) bytes -> P B) :
  crash_ok C E (holds V) ->
  triple (at_ live E F (holds V)) (k (Ok (V !! c_str key))) Q C ->
  (forall e, e <> [] -> live = false -> triple (at_ live E F (holds V)) (k (Error e)) Q C) ->
  triple (at_ live E F (holds V)) (bind (store_load key) k) Q C.
Proof.
  intros HC HO HX. apply do_store; [done|]. intros s r s' Hw Hv Hl Hc. exists V.
  destruct live eqn:L.
  - rewrite load_live in Hc by auto. simplify_eq. by split_and!.
  - pose proof (load_spec _ _ _ _ Hc) as [(Hd & Ho & Hq) Hr]. rewrite Hd.
    split_and!; try done. destruct r as [o|e]; [|by apply HX].
    destruct Hr as [_ ->]. by rewrite Hv.
Qed.

Lemma do_transition E F V key to now msg ph j (k : WriteFailureAction * bytes -> P B) :
  crash_ok C E (holds V) -> V !! c_str key = Some j ->
  (forall j', transition j to now (c_str msg) = Some j' ->
     triple (at_ live E F (holds (<[c_str key := j']> V))) (k (NoAction, [])) Q C) ->
  (forall a e, a <> NoAction -> e <> [] ->
     (live = true -> to <> Failed -> msg = [] -> transition j to now [] = None) ->
     triple (at_ live E F (holds V)) (k (a, e)) Q C) ->
  triple (at_ live E F (holds V)) (bind (store_transition key to now msg ph) k) Q C.
Proof.
  intros HC Hj HO HX. apply do_store; [done|]. intros s [a e] s' Hw Hv Hl Hc.
  unfold record_transition in Hc. destruct (update_state key to now msg s) as [r s1] eqn:Eu.
  pose proof (update_state_view _ _ _ _ _ _ _ Hw Eu) as [Hw' Hr].
  assert (live = true -> store_live s1) as Hl'.
  { intros L. pose proof (update_state_keeps_live key to now msg s (Hl L) Hw) as Hk.
    by rewrite Eu in Hk. }
  destruct r as [[]|e1].
  - simplify_eq. destruct Hr as (j0 & j' & Hj0 & Ht & Hv'). simplify_eq.
    eexists. split_and!; [done|exact Hv'|done|]. by apply HO.
  - destruct Hr as [Hne Hd].
    assert (live = true -> to <> Failed -> msg = [] -> transition j to now [] = None) as Hlive.
    { intros L Hto ->. destruct (transition j to now []) as [j'|] eqn:Ht; [|done]. subst V.
      pose proof (update_state_live key to now s j j' (Hl L) Hw Hto Hj Ht) as Hk.
      by rewrite Eu in Hk. }
    assert (e <> [] /\ a <> NoAction /\ s' = s1) as (? & ? & ->).
    { destruct ph; simplify_eq; split_and!; try done; by destruct e1. }
    exists V. rewrite Hd. split_and!; try done. by apply HX.
Qed.

Lemma do_mark E F V key reason (k : result unit bytes -> P B) :
  crash_ok C E (holds V) ->
  (forall r, triple (at_ live E F (holds V)) (k r) Q C) ->
  triple (at_ live E F (holds V)) (bind (store_mark key reason) k) Q C.
Proof.
  intros HC HO. apply do_store; [done|]. intros s r s' Hw Hv Hl Hc. exists V.
  pose proof (mark_view _ _ _ _ _ Hw Hc) as [Hw' Hv'].
  split_and!; [done|by rewrite Hv'| |done].
  intros L. pose proof (mark_keeps_live key reason s (Hl L)) as Hk. by rewrite Hc in Hk.
Qed.

Lemma do_callback E F V ev (k : unit -> P B) :
  triple (at_ live E F (holds V)) (k tt) Q C ->
  triple (at_ live E F (holds V)) (bind (callback ev) k) Q C.
Proof.
  intros HO. eapply triple_bind with (R := fun _ => at_ live E F (holds V)).
  - by apply triple_note.
  - by intros [].
Qed.

Lemma do_probe E F V dest d name (k : bool -> P B) :
  crash_ok C E (holds V) -> F !! dest = Some d -> 0 <= dest ->
  (forall b, (b = true -> is_Some (E !! (d, name))) ->
     (live = true -> reject_bad_name name = None -> is_Some (E !! (d, name)) -> b = true) ->
     triple (at_ live E F (holds V)) (k b) Q C) ->
  triple (at_ live E F (holds V)) (bind (probe dest name) k) Q C.
Proof.
  intros HC Hd Hp HO. unfold probe. apply triple_bind_assoc.
  eapply do_classify; [done..| |].
  - intros Hn. apply triple_bind_ret, HO.
    + intros Hb. bool_prop. destruct (E !! (d, name)) eqn:Ho; [done|].
      by destruct Hb.
    + intros _ _ [o Ho]. apply negb_true_iff, bool_decide_eq_false.
      intros Hk%seen_missing. congruence.
  - intros e _ Hl. apply triple_bind_ret, HO; [done|]. intros L Hn. by apply Hl in L.
Qed.
End Rules.

(** ** What a run may do

    [src], [stg] and [dst] are the three names a move touches, [key] the job's
    primary key.  [finished] relates the state before [finish_after_commit] to
    its outcome and the state after it, [passing] to the states a crash can
    leave; [moved] and [moving] do the same for [execute]. *)
Section Run.
Context (job_id : bytes) (request : MoveRequest) (d1 d2 : Z).

Definition key : bytes := c_str job_id.
Definition src : entry := (d1, source_name request).
Definition stg : entry := (d2, staging_name job_id).
Definition dst : entry := (d2, dest_name request).

Definition names_ok : Prop :=
  reject_bad_name (source_name request) = None /\
  reject_bad_name (staging_name job_id) = None /\
  reject_bad_name (dest_name request) = None.

Definition linked (o : Z) (E : gmap entry Z) : gmap entry Z := <[stg := o]> E.
Definition committed (o : Z) (E : gmap entry Z) : gmap entry Z := <[stg := o]> (delete src E).
Definition delivered (o : Z) (E : gmap entry Z) : gmap entry Z := rename_onto stg dst o E.

(** [j'] is [j] or what [job_step]s make of it. *)
Definition later (j j' : Job) : Prop := star job_step j j'.

(** What phase 5 starts from: TRANSFERRING, or a QUEUED job recovery found
    already moved, which phase 6 will refuse to mark DONE. *)
Definition at_publish (j j' : Job) : Prop :=
  state j' = Transferring \/ (j' = j /\ state j = Queued).

Inductive finished (E : gmap entry Z) (V : gmap bytes Job) (j : Job) :
    MoveOutcome -> gmap entry Z -> gmap bytes Job -> Prop :=
| fin_done : state j = Done -> finished E V j Completed E V
| fin_halted j' :
    later j j' -> (is_terminal (state j') = true -> state j' = state j) ->
    (live = true -> names_ok -> state j = Failed \/ state j = Queued \/
       (is_Some (E !! stg) /\ is_Some (E !! dst))) ->
    finished E V j HaltedAfterCommit E (<[key := j']> V)
| fin_halted_delivered o j' :
    E !! stg = Some o -> later j j' -> at_publish j j' -> (live = true -> state j = Queued) ->
    finished E V j HaltedAfterCommit (delivered o E) (<[key := j']> V)
| fin_external j' :
    later j j' -> at_publish j j' ->
    (live = true -> names_ok -> E !! stg = None /\ E !! dst = None) ->
    finished E V j FailedExternal E (<[key := j']> V)
| fin_delivered o j' :
    E !! stg = Some o -> later j j' -> state j' = Done ->
    finished E V j Completed (delivered o E) (<[key := j']> V)
| fin_present j' :
    is_Some (E !! dst) -> later j j' -> state j' = Done ->
    (live = true -> names_ok -> E !! stg = None) ->
    finished E V j Completed E (<[key := j']> V).

Inductive passing (E : gmap entry Z) (V : gmap bytes Job) (j : Job) :
    gmap entry Z -> gmap bytes Job -> Prop :=
| pass_staged j' :
    later j j' -> (state j' = Done -> state j = Done \/ is_Some (E !! dst)) ->
    (state j' = Failed -> state j = Failed) ->
    passing E V j E (<[key := j']> V)
| pass_delivered o j' :
    E !! stg = Some o -> later j j' -> at_publish j j' \/ state j' = Done ->
    passing E V j (delivered o E) (<[key := j']> V).

Lemma at_publish_live j j' :
  at_publish j j' -> is_terminal (state j') = true -> state j' = state j.
Proof. intros [Hs|[-> Hs]]; by rewrite Hs. Qed.

(** The postcondition of a run: descriptors as before, an error text unless
    the move completed. *)
Definition ends (F : gmap Z Z) (R : MoveOutcome -> gmap entry Z -> gmap bytes Job -> Prop)
    (r : MoveOutcome * bytes) (s : fs) (x : engine) : Prop :=
  exists E' V', at_ live E' F (holds V') s x /\ R (fst r) E' V' /\
                (fst r <> Completed -> snd r <> []).

Lemma ends_intro F R out e E V s x :
  at_ live E F (holds V) s x -> R out E V -> (out <> Completed -> e <> []) ->
  ends F R (out, e) s x.
Proof. intros. by exists E, V. Qed.

Lemma triple_ends F R out e E V C :
  R out E V -> (out <> Completed -> e <> []) ->
  triple (at_ live E F (holds V)) (ret (out, e) : P _) (ends F R) C.
Proof. intros. apply triple_ret. intros s x Ha. by eapply ends_intro. Qed.

Lemma halt_triple F R e E V C :
  crash_ok C E (holds V) -> R HaltedAfterCommit E V -> e <> [] ->
  triple (at_ live E F (holds V)) (halt job_id e : P _) (ends F R) C.
Proof.
  intros HC HR He. unfold halt. apply do_mark; [done|]. intros r. by apply triple_ends.
Qed.

Section Finish.
Context (F : gmap Z Z) (dest : Z) (Hd : F !! dest = Some d2) (Hp : 0 <= dest).
Context (E : gmap entry Z) (V : gmap bytes Job) (j : Job) (Hj : V !! key = Some j).
Context (C : fs -> engine -> Prop)
        (HC : forall E' V', passing E V j E' V' -> crash_ok C E' (holds V')).

Lemma record_done_triple E' j' tick error :
  later j j' -> at_publish j j' ->
  crash_ok C E' (holds (<[key := j']> V)) ->
  (forall j'', later j j'' -> state j'' = Done ->
     finished E V j Completed E' (<[key := j'']> V)) ->
  ((live = true -> state j = Queued) -> finished E V j HaltedAfterCommit E' (<[key := j']> V)) ->
  triple (at_ live E' F (holds (<[key := j']> V)))
    (record_done job_id tick error : P _) (ends F (finished E V j)) C.
Proof.
  intros Hl Hs HCr HD HH. unfold record_done.
  eapply do_transition; [done|apply lookup_insert_eq|..].
  - intros j'' Ht. rewrite insert_insert_eq. apply do_callback.
    apply transition_Some in Ht as Ht'. destruct Ht' as (_ & _ & Hj'').
    apply triple_ends; [|done]. apply HD; [|by rewrite Hj''].
    eapply star_trans; [done|]. econstructor; [by econstructor|constructor].
  - intros a e Ha He Hlive.
    assert (live = true -> state j = Queued) as L.
    { intros L. specialize (Hlive L ltac:(done) eq_refl). unfold transition in Hlive.
      destruct Hs as [Hs|[_ ?]]; [|done]. by rewrite Hs in Hlive. }
    destruct a; [done|..]; by apply halt_triple; auto.
Qed.

Lemma publish_phase_triple j' tick total error :
  later j j' -> at_publish j j' ->
  triple (at_ live E F (holds (<[key := j']> V)))
    (publish_phase job_id request dest (staging_name job_id) tick total error : P _)
    (ends F (finished E V j)) C.
Proof.
  intros Hl Hs. unfold publish_phase.
  assert (crash_ok C E (holds (<[key := j']> V))) as HCe.
  { apply HC. constructor; [done|..]; intros ?; destruct Hs as [?|[-> ?]]; congruence. }
  eapply do_probe; [done|exact Hd|done|]. intros saw_staged Hst1 Hst2.
  eapply do_probe; [done|exact Hd|done|]. intros saw_final Hfi1 Hfi2.
  destruct saw_staged.
  - destruct (Hst1 eq_refl) as [o Ho].
    eapply do_publish; [done|exact Hd|done|..].
    + intros o' Ho'. simplify_eq.
      assert (crash_ok C (delivered o E) (holds (<[key := j']> V))) as HCd.
      { apply HC. constructor; auto. }
      split; [exact HCd|]. split.
      * apply do_callback, do_callback. apply record_done_triple; auto.
        { intros j'' ? ?. by apply fin_delivered. }
        { intros L. by apply fin_halted_delivered. }
      * intros e He L. apply halt_triple; [done| |done].
        apply fin_halted_delivered; [done..|]. by rewrite L.
    + intros e He Hlive. apply halt_triple; [done| |done].
      apply fin_halted; [done|by apply at_publish_live|].
      intros L (_ & Hn1 & Hn2).
      destruct (Hlive L Hn1 Hn2) as [Hno|?]; [|right; right; split; [by exists o|done]].
      unfold stg in Ho. congruence.
  - destruct saw_final; simpl.
    + apply do_callback, do_callback. apply record_done_triple; auto.
      * intros j'' ? ?. apply fin_present; auto. intros L (_ & Hn & _).
        destruct (E !! stg) eqn:Ho; [|done]. specialize (Hst2 L Hn). naive_solver.
      * intros L. apply fin_halted; [done|by apply at_publish_live|]. auto.
    + apply do_mark; [done|]. intros r. apply triple_ends; [|done].
      apply fin_external; [done|done|]. intros L (_ & Hn1 & Hn2). split.
      * destruct (E !! stg) eqn:Ho; [|done]. specialize (Hst2 L Hn1). naive_solver.
      * destruct (E !! dst) eqn:Ho; [|done]. specialize (Hfi2 L Hn2). naive_solver.
Qed.

Lemma fin_halted_same :
  (live = true -> names_ok -> state j = Failed \/ state j = Queued \/
     (is_Some (E !! stg) /\ is_Some (E !! dst))) ->
  finished E V j HaltedAfterCommit E V.
Proof.
  intros Hl. pose proof (fin_halted E V j j ltac:(constructor) ltac:(done) Hl) as Hf.
  by rewrite insert_id in Hf.
Qed.

(** Phases 4 to 6 from any state of the disk and any job. *)
Lemma finish_triple tick total error :
  triple (at_ live E F (holds V))
    (finish_after_commit job_id request dest (staging_name job_id) tick total error : P _)
    (ends F (finished E V j)) C.
Proof.
  unfold finish_after_commit.
  assert (<[key := j]> V = V) as HV by (by apply insert_id).
  assert (crash_ok C E (holds V)) as HCe.
  { rewrite <- HV. apply HC. constructor; [constructor|by left|done]. }
  apply do_load; [done| |].
  - fold key. rewrite Hj. case_bool_decide as H1'.
    { apply triple_ends; [by apply fin_done|done]. }
    case_bool_decide as H2'.
    { apply triple_ends; [|done]. apply fin_halted_same. by left. }
    case_bool_decide as H3'.
    + eapply do_transition; [done|exact Hj|..].
      * intros j' Ht. apply do_callback. apply publish_phase_triple.
        { econstructor; [by econstructor|constructor]. }
        { left. by apply transition_Some in Ht as (_ & _ & ->). }
      * intros a e Ha He Hlive. destruct a; [done|..];
          (apply halt_triple; [done| |done]; apply fin_halted_same; intros L _;
           specialize (Hlive L ltac:(done) eq_refl); unfold transition in Hlive;
           by rewrite H3' in Hlive).
    + apply do_callback. rewrite <- HV at 1. apply publish_phase_triple; [constructor|].
      unfold at_publish. destruct (state j); auto; done.
  - intros e He L. apply triple_ends; [|done]. apply fin_halted_same. by rewrite L.
Qed.
End Finish.

(** *** execute *)

Definition paths_ok : Prop :=
  validate_external_path (source_dir request) = Ok tt /\
  validate_external_path (dest_dir request) = Ok tt.

(** The job is past phase 2 and not finished. *)
Definition under_way (j : Job) : Prop := state j = Renaming \/ state j = Transferring.

Inductive moved (strategy : MoveStrategy) (E : gmap entry Z) (V : gmap bytes Job) (j : Job) :
    MoveOutcome -> gmap entry Z -> gmap bytes Job -> Prop :=
| mv_rejected :
    (live = true -> names_ok -> paths_ok -> state j = Failed \/
       forall o, E !! src = Some o -> kind (identity_of (stat_of o)) <> Regular) ->
    moved strategy E V j Rejected E V
| mv_skipped : state j = Done -> moved strategy E V j Completed E V
| mv_aborted j' :
    is_Some (E !! src) -> later j j' -> j' = j \/ state j' = Renaming ->
    (live = true -> names_ok -> is_Some (E !! stg)) ->
    moved strategy E V j AbortedBeforeCommit E (<[key := j']> V)
| mv_linked o j' :
    strategy = LinkThenUnlink -> E !! src = Some o -> E !! stg = None ->
    later j j' -> under_way j' -> live = false ->
    moved strategy E V j AbortedBeforeCommit (linked o E) (<[key := j']> V)
| mv_finished o j' out E' V' :
    E !! src = Some o -> E !! stg = None -> later j j' -> under_way j' ->
    finished (committed o E) (<[key := j']> V) j' out E' V' ->
    moved strategy E V j out E' V'.

Inductive moving (strategy : MoveStrategy) (E : gmap entry Z) (V : gmap bytes Job) (j : Job) :
    gmap entry Z -> gmap bytes Job -> Prop :=
| mov_before j' :
    later j j' -> j' = j \/ state j' = Renaming ->
    moving strategy E V j E (<[key := j']> V)
| mov_linked o j' :
    strategy = LinkThenUnlink -> E !! src = Some o -> E !! stg = None ->
    later j j' -> under_way j' ->
    moving strategy E V j (linked o E) (<[key := j']> V)
| mov_after o j' E' V' :
    E !! src = Some o -> E !! stg = None -> later j j' -> under_way j' ->
    passing (committed o E) (<[key := j']> V) j' E' V' ->
    moving strategy E V j E' V'.

Section Execute.
Context (strategy : MoveStrategy).
Context (E : gmap entry Z) (V : gmap bytes Job) (j : Job) (Hj : V !! key = Some j).
Context (C : fs -> engine -> Prop)
        (HC : forall E' V', moving strategy E V j E' V' -> crash_ok C E' (holds V')).

Lemma later_refl j0 : later j0 j0.
Proof. constructor. Qed.
Lemma later_transition j0 j1 to now msg j2 :
  later j0 j1 -> transition j1 to now msg = Some j2 -> later j0 j2.
Proof.
  intros Hl Ht. eapply star_trans; [exact Hl|].
  econstructor; [by econstructor|constructor].
Qed.

Lemma key_same : <[key := j]> V = V.
Proof. by apply insert_id. Qed.

Lemma crash_start : crash_ok C E (holds V).
Proof.
  pose proof (HC _ _ (mov_before _ E V j j (later_refl j) (or_introl eq_refl))) as Hc.
  by rewrite key_same in Hc.
Qed.

Section Open.
Context (F : gmap Z Z) (source dest : Z).
Context (Hs : F !! source = Some d1) (Hps : 0 <= source).
Context (Hd : F !! dest = Some d2) (Hpd : 0 <= dest).

Lemma commit_phase_triple j' tick total error :
  later j j' -> under_way j' -> j' = j \/ state j' = Renaming ->
  is_Some (E !! src) ->
  triple (at_ live E F (holds (<[key := j']> V)))
    (commit_phase job_id request strategy source dest tick total error : P _)
    (ends F (moved strategy E V j)) C.
Proof.
  intros Hl Hu Hr [o Ho]. unfold commit_phase.
  assert (crash_ok C E (holds (<[key := j']> V))) as HCe by (apply HC; by constructor).
  eapply do_move_within; [done|exact Hs|exact Hd|done|done|..].
  - intros o' Ho' Ht. assert (o' = o) as -> by (unfold src in Ho; congruence).
    apply do_callback. eapply triple_conseq with (C := C).
    + apply (finish_triple F dest Hd Hpd (committed o E) (<[key := j']> V) j').
      * apply lookup_insert_eq.
      * intros E' V' Hp. apply HC. by eapply mov_after.
    + done.
    + intros [out e] s x (E' & V' & ? & ? & ?). exists E', V'. split_and!; [done| |done].
      by eapply mv_finished.
    + done.
  - intros e He Hlive. apply triple_ends; [|done]. apply mv_aborted; [by exists o|done|done|].
    intros L (Hn1 & Hn2 & _). destruct (Hlive L Hn1 Hn2) as [Hno|?]; [|done].
    unfold src in Ho. congruence.
  - intros o' Hst Ho' Ht. split.
    + apply HC. by apply mov_linked.
    + intros e He L. apply triple_ends; [|done]. by apply mv_linked.
Qed.

Lemma renaming_phase_triple total error :
  is_Some (E !! src) ->
  triple (at_ live E F (holds V))
    (renaming_phase job_id request strategy j source dest total error : P _)
    (ends F (moved strategy E V j)) C.
Proof.
  intros Ho. unfold renaming_phase. pose proof crash_start as HCe.
  case_bool_decide as H1'; [by apply triple_ends; [apply mv_skipped|]|].
  case_bool_decide as H2'; [apply triple_ends; [apply mv_rejected|]; auto|].
  case_bool_decide as H3'.
  - eapply do_transition; [done|exact Hj|..].
    + intros j' Ht. apply do_callback.
      assert (state j' = Renaming) by (by apply transition_Some in Ht as (_ & _ & ->)).
      apply commit_phase_triple; [|by left|by right|done].
      by eapply later_transition, Ht; apply later_refl.
    + intros a e Ha He Hlive. destruct a; [done|..]; (apply triple_ends; [|done];
        pose proof (mv_aborted strategy E V j j Ho (later_refl j) (or_introl eq_refl)) as Hm;
        rewrite key_same in Hm; apply Hm; intros L _;
        specialize (Hlive L ltac:(done) eq_refl); unfold transition in Hlive;
        by rewrite H3' in Hlive).
  - apply do_callback. rewrite <- key_same at 1.
    apply commit_phase_triple; [apply later_refl| |by left|done].
    unfold under_way. destruct (state j); auto; done.
Qed.

Lemma validate_phase_triple :
  triple (at_ live E F (holds V))
    (validate_phase job_id request strategy j source dest : P _)
    (ends F (moved strategy E V j)) C.
Proof.
  unfold validate_phase. pose proof crash_start as HCe.
  eapply do_classify; [done|exact Hs|done|..].
  2: { intros e He Hl. apply triple_ends; [|done]. apply mv_rejected.
       intros L (Hn & _). by apply Hl in L. }
  intros Hn.
  case_bool_decide as Hm; [apply triple_ends; [|done]; apply mv_rejected|].
  { intros _ _ _. right. intros o Ho. apply seen_missing in Hm. unfold src in Ho. congruence. }
  case_bool_decide as Hr; simpl; [|apply triple_ends; [|done]; apply mv_rejected].
  2: { intros _ _ _. right. intros o Ho. unfold src in Ho. rewrite Ho in Hr. done. }
  eapply do_open_regular; [done|exact Hs|done|..].
  2: { intros e He Hl. apply triple_ends; [|done]. apply mv_rejected.
       intros L (Hn1 & _) _. destruct (Hl L Hn1); done. }
  intros fd o Hfd Hfr Ho Hid _ _.
  assert (source <> fd) by congruence.
  eapply do_classify; [done|by rewrite lookup_insert_ne|done|..].
  - intros _. apply do_close; [done|]. rewrite delete_insert_id by done.
    apply do_callback, do_callback, renaming_phase_triple. by exists o.
  - intros e _ _. apply do_close; [done|]. rewrite delete_insert_id by done.
    apply do_callback, do_callback, renaming_phase_triple. by exists o.
Qed.
End Open.

Lemma finished_passing E1 V1 j1 out E2 V2 :
  V1 !! key = Some j1 -> finished E1 V1 j1 out E2 V2 -> passing E1 V1 j1 E2 V2.
Proof.
  intros Hk [| | | | |]; try (constructor; auto; congruence).
  - rewrite <- (insert_id V1 key j1) at 2 by done.
    constructor; [apply later_refl|by left|done].
  - constructor; [done|..]; intros Hs; left || idtac;
      match goal with Ht : is_terminal _ = true -> _ |- _ => rewrite Hs in Ht end; by rewrite <- H3.
  - constructor; [done|..]; intros ?; unfold at_publish in *; naive_solver congruence.
Qed.

Lemma moved_moving out E' V' :
  moved strategy E V j out E' V' -> moving strategy E V j E' V'.
Proof.
  intros [| | | |].
  - rewrite <- key_same at 2. constructor; [apply later_refl|by left].
  - rewrite <- key_same at 2. constructor; [apply later_refl|by left].
  - by constructor.
  - by eapply mov_linked.
  - eapply mov_after; try done. eapply finished_passing; [|done]. apply lookup_insert_eq.
Qed.
End Execute.

Section Directories.
Context (Hr1 : resolve (c_str (source_dir request)) = Some d1)
        (Hr2 : resolve (c_str (dest_dir request)) = Some d2).

Lemma with_dirs_triple F E V R C (body : Z -> Z -> P (MoveOutcome * bytes)) :
  crash_ok C E (holds V) ->
  (forall out E' V', R out E' V' -> crash_ok C E' (holds V')) ->
  (live = false -> R Rejected E V) ->
  (forall F' sd dd, F' !! sd = Some d1 -> 0 <= sd -> F' !! dd = Some d2 -> 0 <= dd ->
     triple (at_ live E F' (holds V)) (body sd dd) (ends F' R) C) ->
  triple (at_ live E F (holds V)) (with_dirs request body) (ends F R) C.
Proof.
  intros HC HCR HR Hb. unfold with_dirs.
  eapply do_open_root; [done| |].
  2: { intros e He Hl. apply triple_ends; [|done]. apply HR. destruct live; [|done].
       specialize (Hl eq_refl). congruence. }
  intros sd d Hsd Hf Hd. assert (d = d1) as -> by congruence.
  eapply do_open_root; [done| |].
  2: { intros e He Hl. apply do_dir_close; [done|done|]. rewrite delete_insert_id by done.
       apply triple_ends; [|done]. apply HR. destruct live; [|done].
       specialize (Hl eq_refl). congruence. }
  intros dd d' Hdd Hf' Hd'. assert (d' = d2) as -> by congruence.
  assert (sd <> dd) as Hne.
  { intros ->. by rewrite lookup_insert_eq in Hf'. }
  eapply triple_bind.
  - eapply (Hb _ sd dd); [|done|apply lookup_insert_eq|done].
    rewrite lookup_insert_ne by done. apply lookup_insert_eq.
  - intros [out e] w (E' & V' & Ha & HR' & He).
    assert (triple (at_ live E' (<[dd := d2]> (<[sd := d1]> F)) (holds V'))
      (bind (dir_close dd) (fun _ => bind (dir_close sd) (fun _ => ret (out, e)))) 
      (ends F R) C) as Ht; [|by apply Ht].
    apply do_dir_close; [by eapply HCR|done|]. rewrite delete_insert_id by done.
    apply do_dir_close; [by eapply HCR|done|]. rewrite delete_insert_id by done.
    by apply triple_ends.
Qed.

(** [execute] on a job the store holds. *)
Lemma execute_triple strategy F E V j C :
  V !! key = Some j ->
  (forall E' V', moving strategy E V j E' V' -> crash_ok C E' (holds V')) ->
  triple (at_ live E F (holds V)) (execute job_id request strategy : P _)
    (ends F (moved strategy E V j)) C.
Proof.
  intros Hj HC. unfold execute. pose proof (crash_start strategy E V j Hj C HC) as HCe.
  destruct (validate_external_path (source_dir request)) as [[]|e] eqn:Hp1.
  2: { apply triple_ends; [|intros _; by eapply validate_error_nonempty].
       apply mv_rejected. unfold paths_ok. rewrite Hp1. naive_solver. }
  destruct (validate_external_path (dest_dir request)) as [[]|e] eqn:Hp2.
  2: { apply triple_ends; [|intros _; by eapply validate_error_nonempty].
       apply mv_rejected. unfold paths_ok. rewrite Hp2. naive_solver. }
  apply do_load; [done| |].
  - fold key. rewrite Hj. apply with_dirs_triple; [done|..].
    + intros out E' V' Hm. eapply HC, moved_moving; done.
    + intros L. apply mv_rejected. by rewrite L.
    + intros F' sd dd ? ? ? ?. by apply validate_phase_triple.
  - intros e He L. apply triple_ends; [|done]. apply mv_rejected. by rewrite L.
Qed.
End Directories.

(** *** recover *)

Inductive recovered (strategy : MoveStrategy) (E : gmap entry Z) (V : gmap bytes Job)
    (j : Job) : MoveOutcome -> gmap entry Z -> gmap bytes Job -> Prop :=
| rec_rejected :
    (live = true -> ~ names_ok) -> recovered strategy E V j Rejected E V
| rec_restarted out E' V' :
    is_Some (E !! src) -> E !! stg = None -> moved strategy E V j out E' V' ->
    recovered strategy E V j out E' V'
| rec_interrupted a b :
    E !! src = Some a -> E !! stg = Some b ->
    identity_of (stat_of a) = identity_of (stat_of b) ->
    recovered strategy E V j HaltedAfterCommit E V
| rec_collision a b j' :
    E !! src = Some a -> E !! stg = Some b ->
    identity_of (stat_of a) <> identity_of (stat_of b) ->
    later j j' -> j' = j \/ state j' = Failed ->
    recovered strategy E V j HaltedAfterCommit E (<[key := j']> V)
| rec_finished out E' V' :
    E !! src = None -> is_Some (E !! stg) \/ is_Some (E !! dst) ->
    finished E V j out E' V' -> recovered strategy E V j out E' V'
| rec_gone j' :
    E !! src = None -> E !! stg = None -> (live = true -> names_ok -> E !! dst = None) ->
    later j j' -> j' = j \/ state j' = Failed ->
    recovered strategy E V j FailedExternal E (<[key := j']> V).

(** The states a crash of [recover] leaves. *)
Inductive recovering (strategy : MoveStrategy) (E : gmap entry Z) (V : gmap bytes Job)
    (j : Job) : gmap entry Z -> gmap bytes Job -> Prop :=
| rcv_same j' :
    later j j' -> j' = j \/ state j' = Failed ->
    recovering strategy E V j E (<[key := j']> V)
| rcv_moving E' V' :
    moving strategy E V j E' V' -> recovering strategy E V j E' V'
| rcv_passing E' V' :
    E !! src = None -> passing E V j E' V' -> recovering strategy E V j E' V'.

Section Recover.
Context (strategy : MoveStrategy).
Context (E : gmap entry Z) (V : gmap bytes Job) (j : Job) (Hj : V !! key = Some j).
Context (C : fs -> engine -> Prop)
        (HC : forall E' V', recovering strategy E V j E' V' -> crash_ok C E' (holds V')).
Context (Hr1 : resolve (c_str (source_dir request)) = Some d1)
        (Hr2 : resolve (c_str (dest_dir request)) = Some d2).

Lemma crash_recover : crash_ok C E (holds V).
Proof.
  pose proof (HC _ _ (rcv_same _ E V j j (later_refl j) (or_introl eq_refl))) as Hc.
  by rewrite (key_same V j Hj) in Hc.
Qed.

Lemma recovered_recovering out E' V' :
  recovered strategy E V j out E' V' -> recovering strategy E V j E' V'.
Proof.
  intros [| | | | |].
  - rewrite <- (key_same V j Hj) at 2. constructor; [apply later_refl|by left].
  - apply rcv_moving. by eapply moved_moving.
  - rewrite <- (key_same V j Hj) at 2. constructor; [apply later_refl|by left].
  - by constructor.
  - apply rcv_passing; [done|]. by eapply finished_passing.
  - by constructor.
Qed.

(** The verdict that ends the job: flagged FAILED, or not if the store refused. *)
Lemma fail_job_triple F now msg out R :
  (forall j', later j j' -> j' = j \/ state j' = Failed -> R out E (<[key := j']> V)) ->
  (forall j', later j j' -> j' = j \/ state j' = Failed ->
     crash_ok C E (holds (<[key := j']> V))) -> msg <> [] ->
  triple (at_ live E F (holds V))
    (bind (store_transition job_id Failed now msg AfterCommitPoint)
       (fun _ => ret (out, msg)) : P _) (ends F R) C.
Proof.
  intros HR HCr Hne. eapply do_transition; [apply crash_recover|exact Hj|..].
  - intros j' Ht. apply triple_ends; [|done]. apply HR.
    + eapply later_transition, Ht. apply later_refl.
    + right. by apply transition_Some in Ht as (_ & _ & ->).
  - intros a e _ _ _. apply triple_ends; [|done]. rewrite <- (key_same V j Hj).
    apply HR; [apply later_refl|by left].
Qed.

Lemma redrive_triple F source dest ms :
  F !! source = Some d1 -> 0 <= source -> F !! dest = Some d2 -> 0 <= dest ->
  match E !! src, E !! stg with
  | None, None => ms = BothMissing
  | None, Some _ => ms = MoveCompleted
  | Some _, None => ms = NotStarted
  | Some a, Some b => ms = if decide (identity_of (stat_of a) = identity_of (stat_of b))
                           then Interrupted else Collision
  end ->
  triple (at_ live E F (holds V))
    (redrive job_id request strategy j source dest ms : P _)
    (ends F (recovered strategy E V j)) C.
Proof.
  intros Hs Hps Hd Hpd Hms. unfold redrive. pose proof crash_recover as HCe.
  assert (forall tick total, E !! src = None -> is_Some (E !! stg) \/ is_Some (E !! dst) ->
    triple (at_ live E F (holds V))
      (finish_after_commit job_id request dest (staging_name job_id) tick total [] : P _)
      (ends F (recovered strategy E V j)) C) as Hfin.
  { intros tick total Hns Hat. eapply triple_conseq with (C := C).
    - apply (finish_triple F dest Hd Hpd E V j Hj).
      intros E' V' Hp. apply HC. by apply rcv_passing.
    - done.
    - intros [out e] s x (E' & V' & ? & ? & ?). exists E', V'. split_and!; [done| |done].
      by apply rec_finished.
    - done. }
  destruct (E !! src) as [a|] eqn:Ea, (E !! stg) as [b|] eqn:Eb; subst ms.
  - case_decide as Hid.
    + eapply do_move_within; [done|exact Hs|exact Hd|done|done|..].
      * intros o _ Ht. unfold stg in Eb. congruence.
      * intros e He _. apply halt_triple; [done| |done]. by eapply rec_interrupted.
      * intros o _ _ Ht. unfold stg in Eb. congruence.
    + apply fail_job_triple; [|intros; by apply HC; constructor|done].
      intros j' ? ?. by eapply rec_collision.
  - eapply triple_conseq with (C := C).
    + apply (execute_triple Hr1 Hr2 strategy F E V j C Hj).
      intros E' V' Hm. apply HC. by apply rcv_moving.
    + done.
    + intros [out e] s x (E' & V' & ? & ? & ?). exists E', V'. split_and!; [done| |done].
      by apply rec_restarted.
    + done.
  - apply Hfin; [done|]. by left.
  - eapply do_probe; [done|exact Hd|done|]. intros final Hf1 Hf2. destruct final.
    + apply Hfin; [done|]. right. by apply Hf1.
    + apply fail_job_triple; [|intros; by apply HC; constructor|done].
      intros j' ? ?. apply rec_gone; try done. intros L (_ & _ & Hn).
      destruct (E !! dst) eqn:Eo; [|done]. specialize (Hf2 L Hn). naive_solver.
Qed.

Lemma recover_triple F :
  triple (at_ live E F (holds V)) (recover job_id request strategy : P _)
    (ends F (recovered strategy E V j)) C.
Proof.
  unfold recover. pose proof crash_recover as HCe.
  apply (with_dirs_triple Hr1 Hr2); [done|..].
  - intros out E' V' Hr. by eapply HC, recovered_recovering.
  - intros L. apply rec_rejected. by rewrite L.
  - intros F' sd dd ? ? ? ?.
    eapply do_classify_move_state; [done..| |].
    + intros ms Hms. apply do_load; [done| |].
      * fold key. rewrite Hj. by apply redrive_triple.
      * intros e He L. apply triple_ends; [|done]. apply rec_rejected. by rewrite L.
    + intros e He Hl. apply triple_ends; [|done]. apply rec_rejected.
      intros L (Hn1 & Hn2 & _). by destruct (Hl L Hn1).
Qed.
End Recover.
End Run.
End Specs.

(** * The object is never lost *)

Section Kept.
Context (job_id : bytes) (request : MoveRequest) (d1 d2 : Z).
Local Abbreviation src := (src request d1).
Local Abbreviation stg := (stg job_id d2).
Local Abbreviation dst := (dst request d2).

(** The object is at its source name, staged, or delivered. *)
Definition kept (o : Z) (E : gmap entry Z) : Prop :=
  E !! src = Some o \/ E !! stg = Some o \/
  (E !! dst = Some o /\ E !! stg = None /\ E !! src = None).

(** Only the three names of the move may differ. *)
Definition confined (E E' : gmap entry Z) : Prop :=
  forall k, k <> src -> k <> stg -> k <> dst -> E' !! k = E !! k.

Lemma confined_refl E : confined E E.
Proof. done. Qed.
Lemma confined_trans E1 E2 E3 : confined E1 E2 -> confined E2 E3 -> confined E1 E3.
Proof. intros H1 H2 k ? ? ?. rewrite H2, H1 by done. done. Qed.

Lemma committed_src o E : E !! stg = None -> is_Some (E !! src) ->
  committed job_id request d1 d2 o E !! src = None.
Proof.
  intros Hn [? Hs]. unfold committed. rewrite lookup_insert_ne by congruence.
  apply lookup_delete_eq.
Qed.

Lemma passing_kept E V j E' V' :
  E !! src = None -> passing job_id request d2 E V j E' V' ->
  confined E E' /\ (forall o, kept o E -> kept o E').
Proof.
  intros Hs [|o' j' Ho' _ _]; [done|]. unfold delivered, rename_onto.
  case_decide as Hdst; [done|]. split.
  { intros k ? ? ?. by rewrite lookup_insert_ne, lookup_delete_ne by done. }
  intros o [?|[Ho|(_ & ? & _)]]; [congruence| |congruence].
  assert (o' = o) as -> by congruence.
  assert (stg <> dst) by congruence.
  destruct (decide (src = dst)) as [Heq|Hne].
  - left. rewrite Heq. apply lookup_insert_eq.
  - right; right. rewrite lookup_insert_eq, !lookup_insert_ne by done.
    rewrite lookup_delete_eq. split_and!; [done|done|]. by apply lookup_delete_None; right.
Qed.

Lemma moving_kept strategy E V j E' V' :
  moving job_id request d1 d2 strategy E V j E' V' ->
  confined E E' /\ (forall o, kept o E -> kept o E').
Proof.
  intros [|o' j' _ Ho' Hn _ _|o' j' E1 V1 Ho' Hn _ _ Hp]; [done|..].
  - unfold linked. split.
    + intros k ? ? ?. by rewrite lookup_insert_ne.
    + intros o [Ho|[?|(_ & _ & ?)]]; [|congruence..]. left.
      rewrite lookup_insert_ne by congruence. done.
  - pose proof (committed_src o' E Hn (ex_intro _ _ Ho')) as Hs.
    destruct (passing_kept _ _ _ _ _ Hs Hp) as [Hc Hk]. split.
    + eapply confined_trans; [|done]. intros k ? ? ?. unfold committed.
      by rewrite lookup_insert_ne, lookup_delete_ne.
    + intros o [Ho|[?|(_ & _ & ?)]]; [|congruence..]. apply Hk. right; left.
      unfold committed. rewrite lookup_insert_eq. congruence.
Qed.

Lemma recovering_kept strategy E V j E' V' :
  recovering job_id request d1 d2 strategy E V j E' V' ->
  confined E E' /\ (forall o, kept o E -> kept o E').
Proof.
  intros [| |]; [done|by eapply moving_kept|by eapply passing_kept].
Qed.

Lemma passing_key E V j E' V' :
  passing job_id request d2 E V j E' V' -> is_Some (V' !! key job_id).
Proof. intros [|]; by rewrite lookup_insert_eq. Qed.
Lemma moving_key strategy E V j E' V' :
  moving job_id request d1 d2 strategy E V j E' V' -> is_Some (V' !! key job_id).
Proof. intros [| |]; try (by rewrite lookup_insert_eq). by eapply passing_key. Qed.
Lemma recovering_key strategy E V j E' V' :
  recovering job_id request d1 d2 strategy E V j E' V' -> is_Some (V' !! key job_id).
Proof.
  intros [| |]; [by rewrite lookup_insert_eq|by eapply moving_key|by eapply passing_key].
Qed.
End Kept.

Section Lives.
Context {fs : Type} `{KernelLive fs} (job_id : bytes) (request : MoveRequest).

(** What can happen to the filesystem and the store over the life of a job:
    attempts of any kind, each with any failures and stopped anywhere, and
    restarts, which keep the namespace and the database and nothing else. *)
Inductive life_step : fs * engine -> fs * engine -> Prop :=
| life_execute strategy s x budget r w' :
    execute job_id request strategy (mkWorld s x budget) = (r, w') ->
    life_step (s, x) (w_fs w', w_ext w')
| life_recover strategy s x budget r w' :
    recover job_id request strategy (mkWorld s x budget) = (r, w') ->
    life_step (s, x) (w_fs w', w_ext w')
| life_restart s x s' x' :
    entries s' = entries s -> db (e_store x') = db (e_store x) ->
    life_step (s, x) (s', x').

Context (d1 d2 : Z).
Context (Hr1 : resolve (c_str (source_dir request)) = Some d1)
        (Hr2 : resolve (c_str (dest_dir request)) = Some d2).

(** The job is recorded, durably. *)
Definition recorded (x : engine) : Prop :=
  db_wf (db (e_store x)) /\ is_Some (view (db (e_store x)) !! key job_id).

Lemma attempt_effect {m : prog fs engine (MoveOutcome * bytes)}
    {R : gmap entry Z -> gmap bytes Job -> Prop} {F G E V w} :
  triple (at_ false E F (holds false V)) m
    (ends false F G)
    (fun s x => exists E' V', R E' V' /\ on E' (holds false V') s x) ->
  (forall out E' V', G out E' V' -> R E' V') ->
  at_ false E F (holds false V) (w_fs w) (w_ext w) ->
  exists E' V', R E' V' /\ on E' (holds false V') (w_fs (snd (m w))) (w_ext (snd (m w))).
Proof.
  intros Ht HG Hw. specialize (Ht w Hw). destruct (m w) as [[a|] w'].
  - destruct Ht as [(E' & V' & (? & ? & ? & ?) & Hg & _) _]. exists E', V'.
    split; [by eapply HG|done].
  - destruct Ht as [Hc _]. done.
Qed.

Lemma execute_effect strategy s x budget j :
  db_wf (db (e_store x)) -> view (db (e_store x)) !! key job_id = Some j ->
  let w' := snd (execute job_id request strategy (mkWorld s x budget)) in
  moving job_id request d1 d2 strategy (entries s) (view (db (e_store x))) j
    (entries (w_fs w')) (view (db (e_store (w_ext w')))) /\
  db_wf (db (e_store (w_ext w'))).
Proof.
  intros Hw Hj w'.
  assert (at_ false (entries s) (fds s) (holds false (view (db (e_store x)))) s x) as Ha by done.
  assert (exists E' V',
    moving job_id request d1 d2 strategy (entries s) (view (db (e_store x))) j E' V' /\
    on E' (holds false V') (w_fs w') (w_ext w')) as (E' & V' & Hm & He & Hh).
  { eapply attempt_effect; [|intros out E' V'; by apply moved_moving|exact Ha].
    apply (execute_triple false job_id request d1 d2 Hr1 Hr2); [done|].
    intros E' V' Hm s' x' Ho. by exists E', V'. }
  destruct Hh as (? & Hv & _). split; [|done]. by rewrite He, Hv.
Qed.

Lemma recover_effect strategy s x budget j :
  db_wf (db (e_store x)) -> view (db (e_store x)) !! key job_id = Some j ->
  let w' := snd (recover job_id request strategy (mkWorld s x budget)) in
  recovering job_id request d1 d2 strategy (entries s) (view (db (e_store x))) j
    (entries (w_fs w')) (view (db (e_store (w_ext w')))) /\
  db_wf (db (e_store (w_ext w'))).
Proof.
  intros Hw Hj w'.
  assert (at_ false (entries s) (fds s) (holds false (view (db (e_store x)))) s x) as Ha by done.
  assert (exists E' V',
    recovering job_id request d1 d2 strategy (entries s) (view (db (e_store x))) j E' V' /\
    on E' (holds false V') (w_fs w') (w_ext w')) as (E' & V' & Hm & He & Hh).
  { eapply attempt_effect; [|intros out E' V'; by apply recovered_recovering|exact Ha].
    apply (recover_triple false job_id request d1 d2); [done| |done|done].
    intros E' V' Hm s' x' Ho. by exists E', V'. }
  destruct Hh as (? & Hv & _). split; [|done]. by rewrite He, Hv.
Qed.

Lemma life_step_kept s x s' x' :
  life_step (s, x) (s', x') -> recorded x ->
  recorded x' /\ confined job_id request d1 d2 (entries s) (entries s') /\
  (forall o, kept job_id request d1 d2 o (entries s) -> kept job_id request d1 d2 o (entries s')).
Proof.
  intros Hs [Hw [j Hj]]. inversion Hs as [st ? ? b r w' Hx|st ? ? b r w' Hx|? ? ? ? He Hd]; subst.
  - destruct (execute_effect st s x b j Hw Hj) as [Hm Hw']. rewrite Hx in *. simpl in *.
    destruct (moving_kept _ _ _ _ _ _ _ _ _ _ Hm). split_and!; try done.
    split; [done|]. by eapply moving_key.
  - destruct (recover_effect st s x b j Hw Hj) as [Hm Hw']. rewrite Hx in *. simpl in *.
    destruct (recovering_kept _ _ _ _ _ _ _ _ _ _ Hm). split_and!; try done.
    split; [done|]. by eapply recovering_key.
  - unfold recorded. rewrite He, Hd. split_and!; try done.
Qed.
End Lives.

(** * Crash recovery *)

Section Redriven.
Context {fs : Type} `{KernelLive fs} (job_id : bytes) (request : MoveRequest) (d1 d2 : Z).
Local Abbreviation src := (src request d1).
Local Abbreviation stg := (stg job_id d2).
Local Abbreviation dst := (dst request d2).
Local Abbreviation key := (key job_id).

Context (E : gmap entry Z) (V : gmap bytes Job) (j : Job) (o : Z).
Context (Hnames : names_ok job_id request) (Hpaths : paths_ok request).
Context (Hreg : kind (identity_of (stat_of o)) = Regular).
Context (Hsrc : E !! src = Some o) (Hstg : E !! stg = None) (Hdst : E !! dst = None).
Context (Hne : dst <> stg).

Definition final_map : gmap entry Z := <[dst := o]> (delete src E).

Lemma committed_dst : committed job_id request d1 d2 o E !! dst = None.
Proof.
  unfold committed. rewrite lookup_insert_ne by done. apply lookup_delete_None. by right.
Qed.

Lemma delivered_final :
  delivered job_id request d2 o (committed job_id request d1 d2 o E) = final_map.
Proof.
  unfold delivered, rename_onto. rewrite committed_dst, decide_False by done.
  unfold committed, final_map. f_equal. rewrite delete_insert_id; [done|].
  apply lookup_delete_None. by right.
Qed.

Lemma final_lookup :
  final_map !! dst = Some o /\ final_map !! src = None /\ final_map !! stg = None.
Proof.
  unfold final_map. rewrite lookup_insert_eq, !lookup_insert_ne by congruence.
  split_and!; [done|apply lookup_delete_eq|]. apply lookup_delete_None. by right.
Qed.

(** The end every recovery must reach. *)
Definition complete (out : MoveOutcome) (E' : gmap entry Z) (V' : gmap bytes Job) : Prop :=
  out = Completed /\ E' = final_map /\ exists j', V' !! key = Some j' /\ state j' = Done.

Lemma finish_committed V1 j1 out E2 V2 :
  under_way j1 ->
  finished true job_id request d2 (committed job_id request d1 d2 o E) V1 j1 out E2 V2 ->
  complete out E2 V2.
Proof.
  intros Hu Hf. pose proof committed_dst as Hcd.
  inversion Hf as [Hd|j' ? ? Hl|o' j' ? ? ? Hl|j' ? ? Hl|o' j' Ho' ? Hd|j' Hd]; subst.
  - unfold under_way in Hu. naive_solver congruence.
  - destruct (Hl eq_refl Hnames) as [?|[?|[_ Hx]]]; [unfold under_way in Hu; naive_solver congruence..|].
    rewrite Hcd in Hx. by apply is_Some_None in Hx.
  - specialize (Hl eq_refl). unfold under_way in Hu. naive_solver congruence.
  - destruct (Hl eq_refl Hnames) as [Hx _]. unfold committed in Hx.
    by rewrite lookup_insert_eq in Hx.
  - unfold committed in Ho'. rewrite lookup_insert_eq in Ho'. simplify_eq.
    split_and!; [done|apply delivered_final|]. exists j'. by rewrite lookup_insert_eq.
  - rewrite Hcd in Hd. by apply is_Some_None in Hd.
Qed.

Lemma finish_final V1 j1 out E2 V2 :
  V1 !! key = Some j1 -> state j1 = Transferring \/ state j1 = Done ->
  finished true job_id request d2 final_map V1 j1 out E2 V2 -> complete out E2 V2.
Proof.
  intros Hk Hs Hf. destruct final_lookup as (Hfd & Hfs & Hft).
  inversion Hf as [Hd|j' ? ? Hl|o' j' ? ? ? Hl|j' ? ? Hl|o' j' Ho' ? Hd|j' Hd]; subst.
  - split_and!; [done..|]. by exists j1.
  - destruct (Hl eq_refl Hnames) as [?|[?|[[? ?] _]]]; [naive_solver congruence..|congruence].
  - congruence.
  - destruct (Hl eq_refl Hnames). congruence.
  - congruence.
  - split_and!; [done..|]. exists j'. by rewrite lookup_insert_eq.
Qed.

Lemma restart_completes strategy j1 V1 out E2 V2 :
  is_terminal (state j1) = false ->
  moved true job_id request d1 d2 strategy E V1 j1 out E2 V2 -> complete out E2 V2.
Proof.
  intros Hnt Hm. inversion Hm as [Hr| |j' ? ? ? Ha| |o' j' ? ? ? Ho' Hn Hl Hu Hf]; subst.
  - destruct (Hr eq_refl Hnames Hpaths) as [Hs|Hx]; [by rewrite Hs in Hnt|].
    by destruct (Hx o Hsrc).
  - match goal with Hs : state j1 = Done |- _ => by rewrite Hs in Hnt end.
  - destruct (Ha eq_refl Hnames). congruence.
  - done.
  - assert (o' = o) as -> by congruence. by eapply finish_committed.
Qed.

Lemma crash_then_recover strategy j1 E1 V1 out E2 V2 :
  is_terminal (state j) = false -> V1 !! key = Some j1 ->
  moving job_id request d1 d2 RenameNoReplace E V j E1 V1 ->
  recovered true job_id request d1 d2 strategy E1 V1 j1 out E2 V2 ->
  complete out E2 V2.
Proof.
  intros Hnt Hj1 Hm Hr.
  inversion Hm as [j' Hl Hs| |o' j' E' V' Ho' _ Hl Hu Hp]; subst; [|done|].
  - rewrite lookup_insert_eq in Hj1. simplify_eq.
    inversion Hr as [?|? ? ? ? ? Hmv|a b ? Hb|a b ? ? Hb|? ? ? Hn|? Hn]; subst; try congruence.
    + naive_solver.
    + eapply restart_completes, Hmv. destruct Hs as [-> | ->]; done.
  - assert (o' = o) as -> by congruence.
    pose proof (committed_src job_id request d1 d2 o E Hstg (ex_intro _ _ Hsrc)) as Hcs.
    inversion Hp as [j'' Hl' Hd Hf|o'' j'' Ho'' Hl' Hd]; subst.
    + rewrite lookup_insert_eq in Hj1. simplify_eq.
      assert (under_way j1) as Hu1.
      { assert (state j1 <> Queued).
        { intros Hq. apply later_rank in Hl'. rewrite Hq in Hl'.
          destruct Hu as [Hx|Hx]; rewrite Hx in Hl'; simpl in Hl'; lia. }
        unfold under_way in *. rewrite committed_dst in Hd.
        destruct (state j1) eqn:Es; auto; try done.
        - destruct (Hd eq_refl) as [?|?%is_Some_None]; [|done]. naive_solver congruence.
        - specialize (Hf eq_refl). naive_solver congruence. }
      inversion Hr as [?|? ? ? ? ? Hmv|a b ? Hb|a b ? ? Hb|? ? ? Hn ? Hfin|? Hn Hn2]; subst;
        try congruence.
      * naive_solver.
      * rewrite Hcs in *. by destruct (is_Some_None (A := Z)).
      * by eapply finish_committed.
      * unfold committed in Hn2. by rewrite lookup_insert_eq in Hn2.
    + unfold committed in Ho'' at 1. rewrite lookup_insert_eq in Ho''. simplify_eq.
      rewrite delivered_final in *. rewrite lookup_insert_eq in Hj1. simplify_eq.
      destruct final_lookup as (Hfd & Hfs & Hft).
      assert (state j1 = Transferring \/ state j1 = Done) as Hs1.
      { destruct Hd as [[?|[-> Hq]]|?]; auto. unfold under_way in Hu. naive_solver congruence. }
      inversion Hr as [?|? ? ? [? ?] ? Hmv|a b ? Hb|a b ? ? Hb|? ? ? Hn ? Hfin|? Hn Hn2 Hl2]; subst;
        try congruence.
      * naive_solver.
      * eapply finish_final; [|done|exact Hfin]. apply lookup_insert_eq.
      * specialize (Hl2 eq_refl Hnames). congruence.
Qed.
End Redriven.

(** * Outcomes *)

Section Outcomes.
Context {fs : Type} `{KernelLive fs} (job_id : bytes) (request : MoveRequest) (d1 d2 : Z).
Local Abbreviation src := (src request d1).
Local Abbreviation stg := (stg job_id d2).
Local Abbreviation dst := (dst request d2).
Local Abbreviation key := (key job_id).

(** The source is gone and its object [o] is staged or delivered. *)
Definition past_commit (o : Z) (E E' : gmap entry Z) : Prop :=
  E !! src = Some o /\ (E' !! stg = Some o \/ E' !! dst = Some o) /\
  (src <> dst -> E' !! src = None).

(** What the outcome of [execute] tells its caller. *)
Definition outcome_ok (j : Job) (out : MoveOutcome) (E : gmap entry Z) (V : gmap bytes Job)
    (E' : gmap entry Z) (V' : gmap bytes Job) : Prop :=
  match out with
  | Rejected => E' = E /\ V' = V
  | AbortedBeforeCommit =>
      is_Some (E !! src) /\ E' !! src = E !! src /\
      exists j', V' = <[key := j']> V /\ (j' = j \/ under_way j')
  | HaltedAfterCommit | FailedExternal =>
      exists o j', past_commit o E E' /\ V' = <[key := j']> V /\ is_terminal (state j') = false
  | Completed =>
      (state j = Done /\ E' = E /\ V' = V) \/
      exists o j', past_commit o E E' /\ V' = <[key := j']> V /\ state j' = Done /\
        (E' !! dst = Some o \/ is_Some (E !! dst))
  end.

Lemma delivered_past o E :
  E !! stg = None -> E !! src = Some o ->
  past_commit o E (delivered job_id request d2 o (committed job_id request d1 d2 o E)) /\
  delivered job_id request d2 o (committed job_id request d1 d2 o E) !! dst = Some o.
Proof.
  intros Hn Ho. pose proof (committed_src job_id request d1 d2 o E Hn (ex_intro _ _ Ho)) as Hs.
  assert (delivered job_id request d2 o (committed job_id request d1 d2 o E) !! dst = Some o)
    as Hd.
  { unfold delivered, rename_onto. case_decide; [done|]. apply lookup_insert_eq. }
  split; [|done]. split_and!; [done|by right|]. intros Hne. unfold delivered, rename_onto.
  case_decide; [done|]. rewrite lookup_insert_ne by done. apply lookup_delete_None. by right.
Qed.

Lemma committed_past o E :
  E !! stg = None -> E !! src = Some o -> past_commit o E (committed job_id request d1 d2 o E).
Proof.
  intros Hn Ho. split_and!; [done|left; apply lookup_insert_eq|]. intros _.
  by apply committed_src.
Qed.

Lemma moved_outcome live strategy E V j out E' V' :
  (V !! key = Some j) ->
  moved live job_id request d1 d2 strategy E V j out E' V' ->
  outcome_ok j out E V E' V'.
Proof.
  intros Hj [|Hd|j' Hsrc Hl Hs|o j' Hst Ho Hn Hl Hu|o j' out' E1 V1 Ho Hn Hl Hu Hf]; simpl.
  - done.
  - by left.
  - split_and!; [done|done|]. exists j'. split; [done|].
    destruct Hs; [by left|right; by left].
  - split_and!; [by exists o|unfold linked; by rewrite lookup_insert_ne by congruence|].
    exists j'. auto.
  - pose proof (committed_past o E Hn Ho) as Hc. pose proof (delivered_past o E Hn Ho) as [Hd Hdd].
    assert (forall j2, is_terminal (state j2) = true -> state j2 = state j' -> False) as Hx.
    { intros j2 Ht Heq. rewrite Heq in Ht. unfold under_way in Hu.
      destruct Hu as [Hu|Hu]; by rewrite Hu in Ht. }
    destruct Hf as [Hs|j2 ? Ht|o2 j2 Ho2 ? Hp|j2 ? Hp|o2 j2 Ho2 ? Hs|j2 Hpr ? Hs];
      rewrite ?insert_insert_eq; try (unfold committed in Ho2 at 1; rewrite lookup_insert_eq in Ho2);
      simplify_eq; simpl.
    + unfold under_way in Hu. destruct Hu; congruence.
    + exists o, j2. split_and!; try done. destruct (is_terminal (state j2)) eqn:Et; [|done].
      destruct (Hx j2 Et). by apply Ht.
    + exists o2, j2. split_and!; try done. destruct Hp as [-> |[-> Hq]]; [done|].
      by rewrite Hq.
    + exists o, j2. split_and!; try done. destruct Hp as [-> |[-> Hq]]; [done|].
      by rewrite Hq.
    + right. exists o2, j2. split_and!; try done. by left.
    + right. exists o, j2. split_and!; try done.
      unfold committed in Hpr |- *. destruct (decide (dst = stg)) as [Heq|Hne].
      * left. rewrite Heq. apply lookup_insert_eq.
      * right. rewrite lookup_insert_ne in Hpr by done. destruct Hpr as [o3 Ho3].
        apply lookup_delete_Some in Ho3 as [_ Ho3]. by exists o3.
Qed.
End Outcomes.

(** * The store under the engine

    Whatever fails, the engine only takes steps of the abstract store. *)

Section EngineKeeps.
Context {fs : Type} `{!Kernel fs} (d0 : database).
Local Abbreviation P := (prog fs engine).

(** The database is well-formed and reached from [d0] by steps of the store. *)
Definition advanced (d : database) : Prop := db_wf d /\ star spec_step (view d0) (view d).
Definition engine_advanced (e : engine) : Prop := advanced (db (e_store e)).

Lemma advanced_op o s : advanced (db s) -> advanced (db (run_op o s)).
Proof.
  intros [Hw Hs]. destruct (run_op_refines o s Hw) as [Hw' Hst]. split; [done|].
  eapply star_trans; [exact Hs|]. econstructor; [exact Hst|constructor].
Qed.

Lemma keeps_store_call {A} o (f : JobStore -> A * JobStore) :
  (forall s, snd (f s) = run_op o s) -> keeps engine_advanced (store_call f : P A).
Proof.
  intros Hf. apply keeps_extcall. intros [s tr] Hx. unfold engine_advanced in *. simpl in *.
  pose proof (advanced_op o s Hx) as Ha. rewrite <- Hf in Ha. by destruct (f s).
Qed.

Lemma keeps_load k : keeps engine_advanced (store_load k : P _).
Proof. by apply (keeps_store_call (OpLoad k)). Qed.
Lemma keeps_transition k to now msg ph :
  keeps engine_advanced (store_transition k to now msg ph : P _).
Proof. by apply (keeps_store_call (OpRecordTransition k to now msg ph)). Qed.
Lemma keeps_mark k r : keeps engine_advanced (store_mark k r : P _).
Proof. by apply (keeps_store_call (OpMarkAttention k r)). Qed.
Lemma keeps_callback ev : keeps engine_advanced (callback ev : P _).
Proof. by apply keeps_note. Qed.
Hint Resolve keeps_load keeps_transition keeps_mark keeps_callback : fm.

Lemma keeps_halt k e : keeps engine_advanced (halt k e : P _).
Proof. unfold halt. keeps_walk. Qed.
Hint Resolve keeps_halt : fm.
Lemma keeps_finish k r d st t b e : keeps engine_advanced (finish_after_commit k r d st t b e : P _).
Proof. unfold finish_after_commit, publish_phase, record_done, probe. keeps_walk. Qed.
Hint Resolve keeps_finish : fm.
Lemma keeps_execute k r st : keeps engine_advanced (execute k r st : P _).
Proof.
  unfold execute, with_dirs, validate_phase, renaming_phase, commit_phase. keeps_walk.
Qed.
End EngineKeeps.

(** [execute] in a healthy environment, on a job that is not finished, delivers. *)
Lemma execute_completes {fs} `{KernelLive fs} job_id request d1 d2 strategy (s : fs) x o j :
  resolve (c_str (source_dir request)) = Some d1 ->
  resolve (c_str (dest_dir request)) = Some d2 ->
  names_ok job_id request -> paths_ok request -> dest_name request <> staging_name job_id ->
  db_wf (db (e_store x)) -> view (db (e_store x)) !! c_str job_id = Some j ->
  is_terminal (state j) = false ->
  entries s !! (d1, source_name request) = Some o ->
  kind (identity_of (stat_of o)) = Regular ->
  entries s !! (d2, staging_name job_id) = None ->
  entries s !! (d2, dest_name request) = None ->
  healthy s -> store_live (e_store x) ->
  exists e w', execute job_id request strategy (mkWorld s x None) = (Some (Completed, e), w') /\
    entries (w_fs w') =
      <[(d2, dest_name request) := o]> (delete (d1, source_name request) (entries s)) /\
    fds (w_fs w') = fds s /\
    exists j', view (db (e_store (w_ext w'))) !! c_str job_id = Some j' /\ state j' = Done.
Proof.
  intros Hr1 Hr2 Hn Hp Hne Hw Hj Hnt Ho Hreg Hstg Hdst Hh Hl.
  pose proof (execute_triple true job_id request d1 d2 Hr1 Hr2 strategy (fds s) (entries s) _ j
    (fun _ _ => True) Hj ltac:(done)) as Ht.
  destruct (triple_run _ _ _ _ (mkWorld s x None) Ht) as ([out e] & w' & Hrun & Hq & _); [by split_and!|done|].
  destruct Hq as (E' & V' & (He' & Hf' & _ & _ & Hv' & _) & Hm & _). simpl in Hm.
  destruct (restart_completes job_id request d1 d2 (entries s) o Hn Hp Hreg Ho Hstg Hdst
    ltac:(unfold dst, stg; congruence) strategy j _ _ _ _ Hnt Hm) as (-> & -> & j' & ? & ?).
  exists e, w'. split_and!; [done|done|done|]. exists j'. by rewrite Hv'.
Qed.

(** * Properties *)

(** C1. L1-SEC-002, no data loss: over the whole life of a recorded job, through
    any number of attempts to execute or recover it, with either strategy, with
    any system call and any store operation failing, stopped dead between any two
    calls and restarted, the object that was at the source name is always under
    the source name, the staging name or the destination name, and no other name
    of the filesystem has changed. *)
Theorem object_never_lost {fs} `{KernelLive fs} job_id request d1 d2 s x s' x' o :
  resolve (c_str (source_dir request)) = Some d1 ->
  resolve (c_str (dest_dir request)) = Some d2 ->
  recorded job_id x ->
  entries s !! (d1, source_name request) = Some o ->
  star (life_step job_id request) (s, x) (s', x') ->
  (entries s' !! (d1, source_name request) = Some o \/
   entries s' !! (d2, staging_name job_id) = Some o \/
   entries s' !! (d2, dest_name request) = Some o) /\
  recorded job_id x' /\
  forall k, k <> (d1, source_name request) -> k <> (d2, staging_name job_id) ->
            k <> (d2, dest_name request) -> entries s' !! k = entries s !! k.
Proof.
  intros Hr1 Hr2 Hrec Ho Hstar.
  pose proof (star_invariant (life_step job_id request) (fun p =>
    recorded job_id (snd p) /\ kept job_id request d1 d2 o (entries (fst p)) /\
    confined job_id request d1 d2 (entries s) (entries (fst p)))) as Hinv.
  destruct (Hinv) with (2 := Hstar) as (Hrec' & Hk & Hc).
  - intros [s1 x1] [s2 x2] (Hrc & Hk & Hc) Hs.
    destruct (life_step_kept job_id request d1 d2 Hr1 Hr2 _ _ _ _ Hs Hrc) as (? & ? & Hkk).
    split_and!; [done|by apply Hkk|]. by eapply confined_trans.
  - split_and!; [done|by left|done].
  - split_and!; [|done|done]. destruct Hk as [?|[?|[? _]]]; auto.
Qed.



(** An interrupted link-then-unlink is never finished: when source and staging
    name one object, [recover] does not unlink the source, whatever the strategy and
    however healthy the environment; it re-issues the linkat, which must fail, and
    returns HALTED_AFTER_COMMIT (or REJECTED) with the namespace and every job
    unchanged. *)
Theorem interrupted_never_finishes {fs} `{KernelLive fs} job_id request d1 d2 strategy
    (s : fs) x o j :
  resolve (c_str (source_dir request)) = Some d1 ->
  resolve (c_str (dest_dir request)) = Some d2 ->
  db_wf (db (e_store x)) -> view (db (e_store x)) !! c_str job_id = Some j ->
  entries s !! (d1, source_name request) = Some o ->
  entries s !! (d2, staging_name job_id) = Some o ->
  exists out e w', recover job_id request strategy (mkWorld s x None) = (Some (out, e), w') /\
    (out = HaltedAfterCommit \/ out = Rejected) /\ e <> [] /\
    entries (w_fs w') = entries s /\ view (db (e_store (w_ext w'))) = view (db (e_store x)).
Proof.
  intros Hr1 Hr2 Hw Hj Hs Ht.
  pose proof (recover_triple false job_id request d1 d2 strategy (entries s)
    (view (db (e_store x))) j Hj (fun _ _ => True) ltac:(done) Hr1 Hr2 (fds s)) as Htr.
  destruct (triple_run _ _ _ _ (mkWorld s x None) Htr) as ([out e] & w' & Hrun & Hq & _);
    [by split_and!|done|].
  destruct Hq as (E' & V' & (He & _ & _ & _ & Hv & _) & Hr & Herr). simpl in Hr, Herr.
  exists out, e, w'. split; [done|]. rewrite He, Hv.
  inversion Hr; subst; unfold src, stg in *; try congruence.
  - split_and!; try done; [by right|by apply Herr].
  - split_and!; try done; [by left|by apply Herr].
Qed.

(** ** Witnesses *)

Definition demo_request : MoveRequest := mkRequest (str "/in") (str "a") (str "/out") (str "b").
Definition demo_world (s : demo_fs) (budget : option nat) : world demo_fs engine :=
  mkWorld s (mkEngine sample_store []) budget.
Definition job_1 : bytes := str "job-1".

Lemma demo_recorded : recorded job_1 (mkEngine sample_store []).
Proof. split; [apply sample_wf|]. eexists. vm_compute. reflexivity. Qed.

(** The move of [/in/a] to [/out/b], cut after its fourteenth call. *)
Definition demo_cut : world demo_fs engine :=
  snd (execute job_1 demo_request RenameNoReplace
         (demo_world (demo_disk [((1, str "a"), 10)] []) (Some 14%nat))).

Lemma object_never_lost_witness :
  entries (w_fs demo_cut) !! (1, str "a") = Some 10 \/
  entries (w_fs demo_cut) !! (2, staging_name job_1) = Some 10 \/
  entries (w_fs demo_cut) !! (2, str "b") = Some 10.
Proof.
  apply (object_never_lost job_1 demo_request 1 2 (demo_disk [((1, str "a"), 10)] [])
    (mkEngine sample_store []) (w_fs demo_cut) (w_ext demo_cut) 10).
  - reflexivity.
  - reflexivity.
  - exact demo_recorded.
  - reflexivity.
  - econstructor; [|constructor].
    eapply (life_execute _ _ RenameNoReplace _ _ (Some 14%nat)).
    apply surjective_pairing.
Defined.


(** The demo move, run to its end with the directory fsync failing. *)
Definition demo_faults : list (option Z) :=
  [None; None; None; None; None; None; None; None; None; None; None; None; Some EIO].
Definition demo_failing : world demo_fs engine :=
  demo_world (demo_disk [((1, str "a"), 10)] demo_faults) None.


(** The linkat of a link-then-unlink move has landed, the unlinkat has not. *)
Definition demo_linked : demo_fs :=
  demo_disk [((1, str "a"), 10); ((2, staging_name job_1), 10)] [].

Lemma interrupted_never_finishes_witness :
  exists out e w', recover job_1 demo_request LinkThenUnlink
      (mkWorld demo_linked (mkEngine sample_store []) None) = (Some (out, e), w') /\
    entries (w_fs w') !! (1, str "a") = Some 10.
Proof.
  destruct (interrupted_never_finishes job_1 demo_request 1 2 LinkThenUnlink demo_linked
    (mkEngine sample_store []) 10 sample_job) as (out & e & w' & Hr & _ & _ & He & _).
  1-2: reflexivity.
  1: apply sample_wf.
  1-3: vm_compute; reflexivity.
  exists out, e, w'. split; [exact Hr|]. rewrite He. reflexivity.
Defined.

(** A file already at the destination name is silently replaced: with object
    99 at [/out/b], the move of object 10 to [/out/b] reports COMPLETED, the job is
    DONE, and object 99 is under no name at all. *)
Theorem destination_overwritten :
  match execute job_1 demo_request RenameNoReplace
      (demo_world (demo_disk [((1, str "a"), 10); ((2, str "b"), 99)] []) None)
  with
  | (Some (Completed, _), w') =>
    map_to_list (entries (w_fs w')) = [((2, str "b"), 10)] /\
    (state <$> view (db (e_store (w_ext w'))) !! job_1) = Some Done
  | _ => False
  end.
Proof. vm_compute. split; reflexivity. Qed.

(** A transient failure of the probe of the staging name loses track of the
    object: when that one fstatat fails and a file already has the destination
    name, the engine records DONE and reports COMPLETED with the object still at its
    staging name and the destination holding the other file. *)
Theorem staging_probe_failure_reported_complete :
  match execute job_1 demo_request RenameNoReplace
      (demo_world (demo_disk [((1, str "a"), 10); ((2, str "b"), 99)]
         [None; None; None; None; None; None; None; Some ESTALE]) None)
  with
  | (Some (Completed, _), w') =>
    map_to_list (entries (w_fs w')) = [((2, str "b"), 99); ((2, staging_name job_1), 10)] /\
    (state <$> view (db (e_store (w_ext w'))) !! job_1) = Some Done
  | _ => False
  end.
Proof. vm_compute. split; reflexivity. Qed.
