(* ===== verification/Interference.v ===== *)
(** The filesystem layer and the move engine in directories that other processes use:
    src/cpp/src/fsops.cpp, src/cpp/src/mover.cpp.

    Between any two calls of a program anybody may change the namespace and the store, and
    other threads may open and close descriptors, but not those the program has open
    ([among]).  [shared G F m Q]: whatever the others do, every call of [m] changes the
    filesystem within [G], and [m], started with the descriptors [F] open, ends with a result
    and open descriptors in [Q].

    In return a program closes no descriptor but its own ([owns]), so programs of this kind
    may run side by side.

    [open_regular_race] is the check of L2-SEC-002, the pre-open hook included.
    [engine_touches_own_names] says what the move engine does to a shared directory. *)

From S2P Require Import Prelude Job Store Kernel Crash FsOps Mover.

(** * Programs among others *)

Section Among.
Context {fs X : Type} `{KernelLaws fs}.
Local Abbreviation P := (prog fs X).

(** The descriptors a program has open after a call: those the call opened are its own. *)
Definition own (F : gmap Z Z) (s s' : fs) : gmap Z Z :=
  filter (fun p => fds s' !! p.1 = fds s !! p.1) F ∪ filter (fun p => fds s !! p.1 <> Some p.2) (fds s').

Inductive among {A} : P A * gmap Z Z * fs * X -> P A * gmap Z Z * fs * X -> Prop :=
| a_call m F s x m' s' x' : returned m = None -> next m s x = (m', s', x') ->
    among (m, F, s, x) (m', own F s s', s', x')
| a_others m F s s' x x' : (forall fd, is_Some (F !! fd) -> fds s' !! fd = fds s !! fd) ->
    among (m, F, s, x) (m, F, s', x').

(** A call leaves alone the descriptors that others have open. *)
Definition owns (F : gmap Z Z) (s s' : fs) : Prop :=
  forall fd o, fds s !! fd = Some o -> fds s' !! fd <> Some o -> F !! fd = Some o.

Fixpoint shared {A} (G : fs -> fs -> Prop) (F : gmap Z Z) (m : P A) (Q : A -> gmap Z Z -> Prop) : Prop :=
  match m with
  | Ret a => Q a F
  | Sys f k => forall s r s', F ⊆ fds s -> f s = (r, s') ->
      (G s s' /\ owns F s s') /\ shared G (own F s s') (k r) Q
  | Ext f k => forall r, shared G F (k r) Q
  | Note f k => shared G F k Q
  end.

Lemma lookup_own F s s' fd : F ⊆ fds s ->
  own F s s' !! fd = if decide (fds s' !! fd = fds s !! fd) then F !! fd else fds s' !! fd.
Proof.
  intros HF. unfold own. apply option_eq. intros o. rewrite lookup_union_Some_raw, !map_lookup_filter_Some.
  rewrite map_lookup_filter_None. simpl. case_decide as Hd.
  - split; [intros [[? ?]|(? & Hs & Hn)]; [done|]; congruence|]. auto.
  - split; [intros [[? ?]|(? & Hs & Hn)]; done|]. intros Ho. right. split; [right; by intros|].
    split; [done|]. congruence.
Qed.

Lemma own_same F s s' : F ⊆ fds s -> fds s' = fds s -> own F s s' = F.
Proof. intros HF Hs. apply map_eq. intros fd. rewrite lookup_own by done. by rewrite Hs, decide_True. Qed.
Lemma own_open F s s' fd o : F ⊆ fds s -> fds s !! fd = None -> fds s' = <[fd := o]> (fds s) ->
  own F s s' = <[fd := o]> F.
Proof.
  intros HF Hn Hs. apply map_eq. intros fd'. rewrite lookup_own, Hs by done.
  destruct (decide (fd = fd')) as [<-|Hne].
  - by rewrite !lookup_insert_eq, Hn, decide_False.
  - by rewrite !lookup_insert_ne, decide_True.
Qed.
Lemma own_close F s s' fd o : F ⊆ fds s -> F !! fd = Some o -> fds s' = delete fd (fds s) ->
  own F s s' = delete fd F.
Proof.
  intros HF Hfd Hs. apply map_eq. intros fd'. rewrite lookup_own, Hs by done.
  destruct (decide (fd = fd')) as [<-|Hne].
  - rewrite !lookup_delete_eq. rewrite (lookup_weaken _ _ _ _ Hfd HF). by rewrite decide_False.
  - by rewrite !lookup_delete_ne, decide_True.
Qed.
Lemma own_sub F s s' : F ⊆ fds s -> own F s s' ⊆ fds s'.
Proof.
  intros HF. apply map_subseteq_spec. intros fd o. rewrite lookup_own by done.
  case_decide as Hd; [|done]. intros Ho. rewrite Hd. by eapply lookup_weaken.
Qed.

Lemma owns_same F s s' : fds s' = fds s -> owns F s s'.
Proof. intros Hs fd o. by rewrite Hs. Qed.
Lemma owns_open F s s' fd o : fds s !! fd = None -> fds s' = <[fd := o]> (fds s) -> owns F s s'.
Proof.
  intros Hn Hs fd' o' Ho' Hd. destruct (decide (fd = fd')) as [<-|Hne]; [congruence|].
  by rewrite Hs, lookup_insert_ne in Hd.
Qed.
Lemma owns_close F s s' fd o : F ⊆ fds s -> F !! fd = Some o -> fds s' = delete fd (fds s) -> owns F s s'.
Proof.
  intros HF Ho Hs fd' o' Ho' Hd. destruct (decide (fd = fd')) as [<-|Hne].
  - rewrite (lookup_weaken _ _ _ _ Ho HF) in Ho'. congruence.
  - by rewrite Hs, lookup_delete_ne in Hd.
Qed.

(** What is maintained along a run. *)
Definition going {A} G Q (c : P A * gmap Z Z * fs * X) : Prop :=
  c.1.1.2 ⊆ fds c.1.2 /\ shared G c.1.1.2 c.1.1.1 Q.

Lemma going_step {A} G Q (c c' : P A * gmap Z Z * fs * X) : going G Q c -> among c c' -> going G Q c'.
Proof.
  unfold going. intros [HF Hm] Hs. destruct Hs as [m F s x m' s' x' Hr Hn|m F s s' x x' Hf]; simpl in *.
  - split; [by apply own_sub|]. destruct m as [a|R f k|R f k|f k]; simpl in *; [done|..].
    + destruct (f s) as [r s1] eqn:E. simplify_eq. by apply (Hm s r s').
    + destruct (f x) as [r x1] eqn:E. simplify_eq. by rewrite own_same.
    + simplify_eq. by rewrite own_same.
  - split; [|done]. apply map_subseteq_spec. intros fd o Ho. rewrite Hf by done. by eapply lookup_weaken.
Qed.

Lemma going_star {A} G Q (c c' : P A * gmap Z Z * fs * X) : star among c c' -> going G Q c -> going G Q c'.
Proof. induction 1; [done|]. intros Hc. by eapply IHstar, going_step. Qed.

(** What it means for a run. *)
Lemma shared_returned {A} G (m : P A) F s x a F' s' x' Q :
  F ⊆ fds s -> shared G F m Q -> star among (m, F, s, x) (Ret a, F', s', x') -> F' ⊆ fds s' /\ Q a F'.
Proof. intros HF Hm Hs. by apply (going_star G Q _ _ Hs). Qed.

Lemma shared_calls {A} G (m m' m'' : P A) F s x F' s' x' s'' x'' Q :
  (forall s, G s s) -> F ⊆ fds s -> shared G F m Q -> star among (m, F, s, x) (m', F', s', x') ->
  returned m' = None -> next m' s' x' = (m'', s'', x'') -> G s' s''.
Proof.
  intros HG HF Hm Hs Hr Hn. destruct (going_star G Q _ _ Hs) as [HF' Hk]; [done|]. simpl in HF', Hk.
  destruct m' as [a|R f k|R f k|f k]; simpl in *; [done|..].
  - destruct (f s') as [r s1] eqn:E. simplify_eq. by apply (Hk s' r s'').
  - destruct (f x') as [r x1]. by simplify_eq.
  - by simplify_eq.
Qed.

(** Nobody else need be there. *)
Lemma alone_among {A} (c c' : P A * fs * X) F :
  star alone c c' -> exists F', star among (c.1.1, F, c.1.2, c.2) (c'.1.1, F', c'.1.2, c'.2).
Proof.
  intros Hs. revert F. induction Hs as [|[[m s] x] [[m1 s1] x1] c' [Hr Hn] _ IH]; intros F; [eexists; constructor|].
  destruct (IH (own F s s1)) as [F' HF']. exists F'. eapply star_step; [by apply a_call|done].
Qed.

(** ** Rules *)

Lemma shared_mono {A} G F (m : P A) (Q Q' : A -> gmap Z Z -> Prop) :
  shared G F m Q -> (forall a F', Q a F' -> Q' a F') -> shared G F m Q'.
Proof.
  revert F. induction m as [a|R f k IH|R f k IH|f k IH]; intros F; simpl; eauto.
  intros Hm HQ s r s' Hs Hf. destruct (Hm s r s' Hs Hf). eauto.
Qed.

Lemma shared_bind {A B} G F (m : P A) (k : A -> P B) Q :
  shared G F m (fun a F' => shared G F' (k a) Q) -> shared G F (bind m k) Q.
Proof.
  revert F. induction m as [a|R f h IH|R f h IH|f h IH]; intros F; [done|..].
  - intros Hm s r s' Hs Hf. destruct (Hm s r s' Hs Hf). split; [done|]. by apply IH.
  - intros Hm r. by apply IH.
  - intros Hm. by apply IH.
Qed.

(** It leaves the descriptor table as it found it. *)
Local Abbreviation balanced G F m := (shared G F m (fun _ F' => F' = F)).

Lemma balanced_bind {A B} G F (m : P A) (k : A -> P B) Q :
  balanced G F m -> (forall a, shared G F (k a) Q) -> shared G F (bind m k) Q.
Proof. intros Hm Hk. apply shared_bind. eapply shared_mono; [exact Hm|]. intros a F' ->. apply Hk. Qed.

Lemma balanced_ret {A} G F (a : A) : balanced G F (ret a : P A).
Proof. done. Qed.

(** A call that changes neither names nor descriptors. *)
Lemma balanced_quiet {A} (G : fs -> fs -> Prop) F (f : fs -> A * fs) :
  (forall s s', entries s' = entries s -> G s s') ->
  (forall s r s', f s = (r, s') -> entries s' = entries s /\ fds s' = fds s) ->
  balanced G F (syscall f : P A).
Proof.
  intros HG Hf s r s' Hs Hc. destruct (Hf _ _ _ Hc) as [He Hd].
  split; [split; [auto|by apply owns_same]|]. by apply own_same.
Qed.
End Among.

Abbreviation balanced G F m := (shared G F m (fun _ F' => F' = F)).
#[export] Hint Resolve balanced_ret : shared.

(** Walks a program made of balanced steps. *)
Ltac shared_walk :=
  repeat first
    [ reflexivity
    | solve [auto with shared]
    | simple apply balanced_bind; [solve [auto with shared]|intros ?]
    | case_match ].

(** * The filesystem layer *)

Section FsLayer.
Context {fs X : Type} `{KernelLaws fs} (G : fs -> fs -> Prop).
Hypothesis HG : forall s s', entries s' = entries s -> G s s'.
Local Abbreviation P := (prog fs X).

Lemma balanced_fstatat F dir n : balanced G F (syscall (sys_fstatat dir n) : P _).
Proof. apply balanced_quiet; [done|]. by intros s r s' (? & ? & _)%fstatat_law. Qed.
Lemma balanced_fstat F fd : balanced G F (syscall (sys_fstat fd) : P _).
Proof. apply balanced_quiet; [done|]. by intros s r s' (? & ? & _)%fstat_law. Qed.
Lemma balanced_fsync F fd : balanced G F (syscall (sys_fsync fd) : P _).
Proof. apply balanced_quiet; [done|]. by intros s r s' []%fsync_law. Qed.
#[local] Hint Resolve balanced_fstatat balanced_fstat balanced_fsync : shared.

Lemma balanced_classify F dir n : balanced G F (classify dir n : P _).
Proof. unfold classify. shared_walk. Qed.
#[local] Hint Resolve balanced_classify : shared.
Lemma balanced_classify_move_state F d1 n1 d2 n2 : balanced G F (classify_move_state d1 n1 d2 n2 : P _).
Proof. unfold classify_move_state. shared_walk. Qed.

Lemma shared_close {B} F fd o (k : unit -> P B) Q :
  F !! fd = Some o -> shared G (delete fd F) (k tt) Q -> shared G F (bind (syscall (sys_close fd)) k) Q.
Proof. intros Ho Hk s [] s' HF [He Hd]%close_law. rewrite (own_close _ _ _ fd o) by done. eauto using owns_close. Qed.
(** The descriptor just opened. *)
Lemma shared_close_new {B} F fd o (k : unit -> P B) Q :
  F !! fd = None -> shared G F (k tt) Q -> shared G (<[fd := o]> F) (bind (syscall (sys_close fd)) k) Q.
Proof.
  intros Hn Hk. apply (shared_close _ fd o); [apply lookup_insert_eq|]. by rewrite delete_insert_id.
Qed.

Lemma shared_openat {B} F dir n (k : result Z Z -> P B) Q :
  (forall fd o, 0 <= fd -> F !! fd = None -> shared G (<[fd := o]> F) (k (Ok fd)) Q) ->
  (forall e, shared G F (k (Error e)) Q) ->
  shared G F (bind (syscall (sys_openat dir n)) k) Q.
Proof.
  intros HO HE s r s' HF [He Hr]%openat_law.
  destruct r as [fd|e]; [|rewrite own_same by done; split; [auto using owns_same|apply HE]].
  destruct Hr as (H1 & H2 & d & o & _ & _ & Hd). rewrite (own_open _ _ _ fd o) by done.
  split; [eauto using owns_open|]. apply HO; [done|]. by eapply lookup_weaken_None.
Qed.

Lemma shared_fstat {B} F fd o (k : result stat Z -> P B) Q :
  F !! fd = Some o ->
  shared G F (k (Ok (stat_of o))) Q -> (forall e, shared G F (k (Error e)) Q) ->
  shared G F (bind (syscall (sys_fstat fd)) k) Q.
Proof.
  intros Ho HO HE s r s' HF (He & Hf & Hr)%fstat_law.
  split; [auto using owns_same|]. rewrite own_same by done.
  destruct r as [st|e]; [|apply HE]. destruct Hr as (o' & Ho' & ->).
  rewrite (lookup_weaken _ _ _ _ Ho HF) in Ho'. simplify_eq. exact HO.
Qed.

(** The descriptor is open on what was expected, or nothing is open that was not. *)
Lemma shared_open_expected F dir n expected (Q : result Z bytes -> gmap Z Z -> Prop) :
  (forall fd o, 0 <= fd -> F !! fd = None -> identity_of (stat_of o) = expected -> Q (Ok fd) (<[fd := o]> F)) ->
  (forall e, e <> [] -> Q (Error e) F) ->
  shared G F (open_expected dir n expected : P _) Q.
Proof.
  intros HO HE. unfold open_expected. apply shared_openat.
  - intros fd o Hfd Hfr.
    assert (forall e : bytes, e <> [] ->
      shared G (<[fd := o]> F) (bind (syscall (sys_close fd)) (fun _ => ret (Error e)) : P _) Q) as Hc.
    { intros e Hne. apply shared_close_new; [done|]. by apply HE. }
    eapply shared_fstat; [apply lookup_insert_eq|..].
    + destruct (same_object_as _ expected) eqn:Hs; simpl; [apply HO; [done..|]; by apply same_object_as_eq|].
      by apply Hc.
    + intros e. by apply Hc.
  - intros e. case_match; by apply HE.
Qed.

Lemma shared_open_regular (hook : PreOpenHook) F dir n expected (Q : result Z bytes -> gmap Z Z -> Prop) :
  match hook with None => True | Some h => balanced G F h end ->
  (forall fd o, 0 <= fd -> F !! fd = None -> identity_of (stat_of o) = expected -> kind expected = Regular ->
     Q (Ok fd) (<[fd := o]> F)) ->
  (forall e, e <> [] -> Q (Error e) F) ->
  shared G F (open_regular_hooked hook dir n expected : P _) Q.
Proof.
  intros Hh HO HE. unfold open_regular_hooked. destruct (dir_is_open dir); simpl; [|by apply HE].
  destruct (reject_bad_name n) as [e|] eqn:Hn; [by apply HE, (reject_nonempty _ _ Hn)|].
  case_bool_decide as Hk; simpl; [|by apply HE].
  destruct hook as [h|]; [|apply shared_open_expected; auto].
  apply balanced_bind; [done|]. intros _. apply shared_open_expected; auto.
Qed.
End FsLayer.

(** * The move engine *)

(** What a call of a move may do to the names: remove the source, create the staging name
    where there was none, for the object at the source name, remove it, and give the final name
    to the object at the staging name.  Every other name stays. *)
Definition touches {fs} `{KernelLaws fs} (from stage final : entry) (s s' : fs) : Prop :=
  forall e, entries s' !! e = entries s !! e \/
    (e = from /\ entries s' !! e = None) \/
    (e = stage /\ (entries s' !! e = None \/
                   (entries s !! e = None /\ entries s' !! e = entries s !! from))) \/
    (e = final /\ entries s' !! e = entries s !! stage).

(** What a step relation [G] must allow for a move: each way in which its calls change the
    names; linking and unlinking only if [linking]. *)
Record allows {fs} `{KernelLaws fs} (linking : bool) (G : fs -> fs -> Prop) (from stage final : entry) : Prop := {
  al_rename (s s' : fs) o :
    entries s !! from = Some o -> entries s !! stage = None ->
    entries s' = <[stage := o]> (delete from (entries s)) -> G s s';
  al_link (s s' : fs) o : linking = true ->
    entries s !! from = Some o -> entries s !! stage = None ->
    entries s' = <[stage := o]> (entries s) -> G s s';
  al_unlink (s s' : fs) : linking = true -> entries s' = delete from (entries s) -> G s s';
  al_publish (s s' : fs) o :
    entries s !! stage = Some o -> entries s' = rename_onto stage final o (entries s) -> G s s'
}.

Lemma touches_same {fs} `{KernelLaws fs} from stage final (s s' : fs) :
  entries s' = entries s -> touches from stage final s s'.
Proof. intros He e. left. by rewrite He. Qed.

Lemma touches_allows {fs} `{KernelLaws fs} from stage final :
  allows true (touches (fs := fs) from stage final) from stage final.
Proof.
  split.
  - intros s s' o Ho Hn He e. rewrite He. destruct (decide (e = stage)) as [->|Hs].
    + right; right; left. split; [done|]. right. by rewrite lookup_insert_eq, Ho.
    + rewrite lookup_insert_ne by done. destruct (decide (e = from)) as [->|Hne].
      * right; left. by rewrite lookup_delete_eq.
      * left. by rewrite lookup_delete_ne.
  - intros s s' o _ Ho Hn He e. rewrite He. destruct (decide (e = stage)) as [->|Hs].
    + right; right; left. split; [done|]. right. by rewrite lookup_insert_eq, Ho.
    + left. by rewrite lookup_insert_ne.
  - intros s s' _ He e. rewrite He. destruct (decide (e = from)) as [->|Hne].
    + right; left. by rewrite lookup_delete_eq.
    + left. by rewrite lookup_delete_ne.
  - intros s s' o Ho He e. rewrite He. unfold rename_onto. case_decide; [by left|].
    destruct (decide (e = final)) as [->|Hs].
    + right; right; right. by rewrite lookup_insert_eq, Ho.
    + rewrite lookup_insert_ne by done. destruct (decide (e = stage)) as [->|Hne].
      * right; right; left. rewrite lookup_delete_eq. auto.
      * left. by rewrite lookup_delete_ne.
Qed.

Section Engine.
Context {fs : Type} `{KernelLaws fs} (job_id : bytes) (request : MoveRequest).
Context (linking : bool) (G : fs -> fs -> Prop).
Local Abbreviation P := (prog fs engine).
Hypothesis HG : forall s s', entries s' = entries s -> G s s'.

#[local] Hint Resolve HG balanced_fstatat balanced_fstat balanced_fsync balanced_classify
  balanced_classify_move_state : shared.

Lemma balanced_store_call {A} F (f : JobStore -> A * JobStore) : balanced G F (store_call f : P A).
Proof. done. Qed.
Lemma balanced_callback F ev : balanced G F (callback ev : P unit).
Proof. done. Qed.
#[local] Hint Resolve balanced_store_call balanced_callback : shared.

(** A call on names: what it does on success, and that it changes no descriptor. *)
Lemma shared_names {B} F (f : fs -> result unit Z * fs) (k : result unit Z -> P B) Q :
  (forall s r s', F ⊆ fds s -> f s = (r, s') -> fds s' = fds s /\
     match r with Ok _ => G s s' | Error _ => entries s' = entries s end) ->
  (forall r, shared G F (k r) Q) -> shared G F (bind (syscall f) k) Q.
Proof.
  intros Hf Hk s r s' HF Hc. destruct (Hf _ _ _ HF Hc) as [Hd Hr]. rewrite own_same by done.
  split; [split; [destruct r; auto|by apply owns_same]|]. apply Hk.
Qed.

Section Opened.
Variables (d1 d2 : Z) (F : gmap Z Z) (sd dd : Z).
Hypotheses (HA : allows linking G (src request d1) (stg job_id d2) (dst request d2)).
Hypotheses (Hsd : F !! sd = Some d1) (Hdd : F !! dd = Some d2).

(** The directories of a call are those of the two descriptors. *)
Ltac at_dirs :=
  repeat match goal with
  | HF : F ⊆ fds ?s, Hd : fds ?s !! sd = Some ?a |- _ =>
      rewrite (lookup_weaken _ _ _ _ Hsd HF) in Hd; injection Hd as <-
  | HF : F ⊆ fds ?s, Hd : fds ?s !! dd = Some ?a |- _ =>
      rewrite (lookup_weaken _ _ _ _ Hdd HF) in Hd; injection Hd as <-
  end.

Lemma balanced_move_within strategy : (strategy = LinkThenUnlink -> linking = true) ->
  balanced G F (move_within sd (source_name request) dd (staging_name job_id) strategy : P _).
Proof.
  intros HL. unfold move_within. case_match; [done|].
  destruct (reject_bad_name (source_name request)) eqn:N1; [done|].
  destruct (reject_bad_name (staging_name job_id)) eqn:N2; [done|].
  rewrite !plain_c_str by done. destruct strategy.
  - apply shared_names; [|by intros []]. intros s r s' Hs (Hf & Hr)%renameat2_law. split; [done|].
    destruct r; [|done]. destruct Hr as (a & b & o & Ha & Hb & Ho & Hn & He). at_dirs.
    by eapply (al_rename _ _ _ _ _ HA).
  - apply shared_names.
    + intros s r s' Hs (Hf & Hr)%linkat_law. split; [done|].
      destruct r; [|done]. destruct Hr as (a & b & o & Ha & Hb & Ho & Hn & He). at_dirs.
      by eapply (al_link _ _ _ _ _ HA); auto.
    + intros [[]|e]; [|done]. apply shared_names; [|by intros []].
      intros s r s' Hs (Hf & Hr)%unlinkat_law. split; [done|].
      destruct r; [|done]. destruct Hr as (a & o & Ha & _ & He). at_dirs.
      by apply (al_unlink _ _ _ _ _ HA); auto.
Qed.

Lemma balanced_publish :
  balanced G F (publish dd (staging_name job_id) (dest_name request) : P _).
Proof.
  unfold publish. case_match; [done|].
  destruct (reject_bad_name (staging_name job_id)) eqn:N1; [done|].
  destruct (reject_bad_name (dest_name request)) eqn:N2; [done|].
  rewrite !plain_c_str by done. apply shared_openat; [done| |done].
  intros fd o Hfd Hfr. apply balanced_bind; [auto with shared|]. intros q.
  destruct q; (apply shared_close_new; [done|done|]); [|done].
  apply shared_names; [|intros r; shared_walk]. intros s r s' Hs (Hf & Hr)%renameat_law. split; [done|].
  destruct r; [|done]. destruct Hr as (a & b & o' & Ha & Hb & Ho & He). at_dirs.
  by eapply (al_publish _ _ _ _ _ HA).
Qed.
#[local] Hint Resolve balanced_move_within balanced_publish : shared.

Lemma balanced_probe name : balanced G F (probe dd name : P _).
Proof. unfold probe. shared_walk. Qed.
#[local] Hint Resolve balanced_probe : shared.

Lemma balanced_halt error : balanced G F (halt job_id error : P _).
Proof. done. Qed.
#[local] Hint Resolve balanced_halt : shared.

Lemma balanced_record_done tick error : balanced G F (record_done job_id tick error : P _).
Proof. unfold record_done, store_transition. shared_walk. Qed.
#[local] Hint Resolve balanced_record_done : shared.

Lemma balanced_finish tick total error :
  balanced G F (finish_after_commit job_id request dd (staging_name job_id) tick total error : P _).
Proof.
  unfold finish_after_commit, publish_phase, store_load, store_transition, store_mark. shared_walk.
Qed.
#[local] Hint Resolve balanced_finish : shared.

Lemma balanced_renaming strategy job total error : (strategy = LinkThenUnlink -> linking = true) ->
  balanced G F (renaming_phase job_id request strategy job sd dd total error : P _).
Proof. intros HL. unfold renaming_phase, commit_phase, store_transition. shared_walk. Qed.
#[local] Hint Resolve balanced_renaming : shared.

Lemma balanced_validate strategy job : (strategy = LinkThenUnlink -> linking = true) ->
  balanced G F (validate_phase job_id request strategy job sd dd : P _).
Proof.
  intros HL. unfold validate_phase. apply balanced_bind; [auto with shared|]. intros c.
  destruct c as [i|e]; [|done]. case_match; [done|]. case_match; [done|].
  apply shared_bind, shared_open_regular; [done|done| |done].
  intros fd o Hfd Hfr _ _. apply balanced_bind; [auto with shared|]. intros again. case_match.
  apply shared_close_new; [done|done|]. shared_walk.
Qed.
End Opened.

(** ** Whole calls *)

Hypothesis HA : forall d1 d2,
  resolve (c_str (source_dir request)) = Some d1 -> resolve (c_str (dest_dir request)) = Some d2 ->
  allows linking G (src request d1) (stg job_id d2) (dst request d2).

Lemma shared_open_root {B} F path (k : result Z bytes -> P B) Q :
  (forall fd d, resolve (c_str path) = Some d -> 0 <= fd -> F !! fd = None ->
     shared G (<[fd := d]> F) (k (Ok fd)) Q) ->
  (forall e, shared G F (k (Error e)) Q) ->
  shared G F (bind (open_root (-1) path) k) Q.
Proof.
  intros HO HE. apply shared_bind. intros s r s' HF (He & Hr)%open_dir_law.
  destruct r as [fd|e]; [|rewrite own_same by done; split; [auto using owns_same|apply HE]].
  destruct Hr as (H1 & H2 & d & Hd & Hf). rewrite (own_open _ _ _ fd d) by done.
  split; [eauto using owns_open|]. apply HO; [done|done|]. by eapply lookup_weaken_None.
Qed.

Lemma shared_dir_close {B} F fd o (k : Z -> P B) Q :
  0 <= fd -> F !! fd = None -> (forall h, shared G F (k h) Q) -> shared G (<[fd := o]> F) (bind (dir_close fd) k) Q.
Proof.
  intros Hfd Hn Hk. apply shared_bind. unfold dir_close, dir_is_open. rewrite (proj2 (Z.leb_le _ _) Hfd).
  apply shared_close_new; [done|done|]. apply Hk.
Qed.

Lemma balanced_with_dirs F (body : Z -> Z -> P (MoveOutcome * bytes)) :
  (forall d1 d2 F' sd dd, allows linking G (src request d1) (stg job_id d2) (dst request d2) ->
     F' !! sd = Some d1 -> F' !! dd = Some d2 -> balanced G F' (body sd dd)) ->
  balanced G F (with_dirs request body).
Proof.
  intros Hb. unfold with_dirs. apply shared_open_root; [|done].
  intros sd d1 Hd1 Hsd Fsd. apply shared_open_root.
  - intros dd d2 Hd2 Hdd Fdd. apply balanced_bind.
    + apply (Hb d1 d2); [auto| |by rewrite lookup_insert_eq].
      rewrite lookup_insert_ne; [by rewrite lookup_insert_eq|]. intros ->. by rewrite lookup_insert_eq in Fdd.
    + intros out. apply shared_dir_close; [done..|]. intros _. by apply shared_dir_close.
  - intros e. by apply shared_dir_close.
Qed.

Lemma balanced_execute F strategy : (strategy = LinkThenUnlink -> linking = true) ->
  balanced G F (execute job_id request strategy : P _).
Proof.
  intros HL. unfold execute. case_match; [|done]. case_match; [|done]. apply balanced_bind; [done|]. intros r.
  case_match; [|done]. case_match; [|done]. apply balanced_with_dirs. intros. by eapply balanced_validate.
Qed.

Lemma balanced_recover F strategy : linking = true -> balanced G F (recover job_id request strategy : P _).
Proof.
  intros HL. unfold recover. apply balanced_with_dirs. intros d1 d2 F' sd dd Ha Hsd Hdd.
  apply balanced_bind; [auto with shared|]. intros c. case_match; [|done].
  apply balanced_bind; [done|]. intros r. case_match; [|done]. case_match; [|done].
  pose proof (balanced_finish d1 d2 F' dd Ha Hdd) as Hfin. unfold redrive, store_transition. case_match.
  - by apply balanced_execute.
  - apply balanced_bind; [by eapply balanced_move_within|]. intros q. by case_match.
  - done.
  - done.
  - apply balanced_bind; [by apply balanced_probe|]. intros b. by case_match.
Qed.
End Engine.

(** * Theorems *)

Section Theorems.
Context {fs : Type} `{KernelLaws fs}.

(** C16. L2-SEC-002 in a directory that others write to: whatever other processes and threads do
    before, between and after the calls of [open_regular], and whatever the pre-open hook
    does, a descriptor is handed out only when it is open on a regular file that is, device
    and inode, the object the caller classified; on every failure there is an error text and
    no descriptor is left open. *)
Theorem open_regular_race {X} (hook : PreOpenHook) dir name expected F (s : fs) (x : X) r F' s' x' :
  F ⊆ fds s ->
  match hook with None => True | Some h => balanced (fun _ _ => True) F h end ->
  star among (open_regular_hooked hook dir name expected, F, s, x) (Ret r, F', s', x') ->
  match r with
  | Ok fd => exists o, fds s' !! fd = Some o /\ identity_of (stat_of o) = expected /\
               kind expected = Regular /\ F' = <[fd := o]> F /\ F !! fd = None
  | Error e => F' = F /\ e <> []
  end.
Proof.
  intros HF Hh Hs.
  apply (shared_returned (fun _ _ => True) _ _ _ _ _ _ _ _ (fun r F' => match r with
    | Ok fd => exists o, identity_of (stat_of o) = expected /\ kind expected = Regular /\
                 F' = <[fd := o]> F /\ F !! fd = None
    | Error e => F' = F /\ e <> []
    end) HF) in Hs as [HF' Hq].
  - destruct r as [fd|e]; [|done]. destruct Hq as (o & H1 & H2 & -> & H4). exists o. split_and!; try done.
    eapply lookup_weaken; [|exact HF']. apply lookup_insert_eq.
  - apply shared_open_regular; [done|exact Hh|eauto 10|done].
Qed.

(** C15. The move engine in directories that others write to: whatever other processes do to
    the namespace, and other threads to the store, between its calls, each call of [execute]
    and of [recover] changes only the three names of the move.  The source name is only ever
    removed; the staging name is only given to the object then at the source name, and only
    when it is free; the final name is only given to the object then at the staging name.
    When the call returns, every descriptor it opened is closed. *)
Theorem engine_touches_own_names job_id request strategy d1 d2 m (s : fs) x m' F' s' x' :
  m = execute job_id request strategy \/ m = recover job_id request strategy ->
  resolve (c_str (source_dir request)) = Some d1 -> resolve (c_str (dest_dir request)) = Some d2 ->
  star among (m, ∅, s, x) (m', F', s', x') ->
  (forall m'' s'' x'', returned m' = None -> next m' s' x' = (m'', s'', x'') ->
     touches (src request d1) (stg job_id d2) (dst request d2) s' s'') /\
  (forall out, m' = Ret out -> F' = ∅).
Proof.
  intros Hm Hd1 Hd2 Hs.
  assert (balanced (touches (src request d1) (stg job_id d2) (dst request d2)) ∅ m) as Hb.
  { assert (forall d3 d4, resolve (c_str (source_dir request)) = Some d3 ->
      resolve (c_str (dest_dir request)) = Some d4 ->
      allows true (touches (fs := fs) (src request d1) (stg job_id d2) (dst request d2))
        (src request d3) (stg job_id d4) (dst request d4)) as HA.
    { intros d3 d4 H3 H4. assert (d3 = d1 /\ d4 = d2) as [-> ->] by (split; congruence). apply touches_allows. }
    destruct Hm as [->| ->]; [eapply balanced_execute|eapply balanced_recover]; eauto using touches_same. }
  pose proof (map_empty_subseteq (fds s)) as HF. split.
  - intros m'' s'' x'' Hr Hn. refine (shared_calls _ _ _ _ _ _ _ _ _ _ _ _ _ _ HF Hb Hs Hr Hn). intros s0 e. by left.
  - intros out ->. by apply (shared_returned _ _ _ _ _ _ _ _ _ _ HF Hb Hs).
Qed.
End Theorems.

(** ** Witnesses *)

(** The hook renames [b] over [a] after [a] was classified. *)
Definition demo_shared : demo_fs := mkMem (list_to_map [((1, str "a"), 10); ((1, str "b"), 11)]) {[ 3 := 1 ]} [].
Definition demo_swap : PreOpenHook (fs := demo_fs) (X := unit) :=
  Some (bind (syscall (sys_renameat 3 (str "b") 3 (str "a"))) (fun _ => ret tt)).

Lemma demo_swap_balanced : balanced (fun _ _ => True) {[ 3 := 1 ]}
  (bind (syscall (sys_renameat 3 (str "b") 3 (str "a"))) (fun _ => ret tt) : prog demo_fs unit unit).
Proof. intros s r s' Hs [Hf _]%renameat_law. split; [split; [done|by apply owns_same]|]. by apply own_same. Qed.

Lemma open_regular_race_witness :
  exists e F' s', star among
    (open_regular_hooked demo_swap 3 (str "a") (mkIdentity 7 10 Regular), {[ 3 := 1 ]}, demo_shared, tt)
    (Ret (Error e), F', s', tt) /\ F' = {[ 3 := 1 ]}.
Proof.
  destruct (run_alone (open_regular_hooked demo_swap 3 (str "a") (mkIdentity 7 10 Regular)) demo_shared tt)
    as (r & s' & [] & Hr & Hs).
  destruct r as [fd|e]; [vm_compute in Hr; discriminate|].
  destruct (alone_among _ _ {[ 3 := 1 ]} Hs) as [F' Ha]. exists e, F', s'. split; [exact Ha|].
  exact (proj1 (open_regular_race demo_swap 3 (str "a") (mkIdentity 7 10 Regular) {[ 3 := 1 ]} demo_shared tt _ F' s' tt
    (reflexivity _) demo_swap_balanced Ha)).
Defined.

Lemma engine_touches_own_names_witness :
  exists out F' s' x', star among
    (execute job_1 demo_request RenameNoReplace, ∅, demo_disk [((1, str "a"), 10)] [], mkEngine sample_store [])
    (Ret out, F', s', x') /\ F' = ∅.
Proof.
  destruct (run_alone (execute job_1 demo_request RenameNoReplace) (demo_disk [((1, str "a"), 10)] [])
    (mkEngine sample_store [])) as (out & s' & x' & Hr & Hs).
  destruct (alone_among _ _ ∅ Hs) as [F' Ha]. exists out, F', s', x'. split; [exact Ha|].
  exact (proj2 (engine_touches_own_names (fs := demo_fs) job_1 demo_request RenameNoReplace 1 2 _ _ _ _ _ _ _
    (or_introl eq_refl) eq_refl eq_refl Ha) out eq_refl).
Defined.
