(* ===== verification/Events.v ===== *)
(** Events and their publisher: src/cpp/src/events.cpp and
    src/cpp/include/filemover/events.hpp.

    [EventPublisher] is called by many threads, and a callback may itself publish,
    subscribe or unsubscribe.  Its state is the subscriber list, the counter
    [in_flight] and, for every thread, the stack of [publish] calls it is inside of;
    one [pub_step] is one critical section or one entry to or return from a
    callback, so every interleaving is a run.  PubThreads.v has the mutex and the condition
    variable, and shows that every run of the threads is one of these. *)

From S2P Require Import Prelude.

(** * Data *)

Inductive EventSeverity := Debug | Info | Warning | ErrorSeverity.

Inductive EventType :=
| ServiceStarted | ServiceStopping
| JobSubmitted | JobStarted | JobCompleted | JobFailed
| JobHaltedAfterCommit | JobFailedExternal
| JobRetryScheduled | JobRetrySubmitted | JobPaused | JobResumed | JobCancelled
| SubscriberFailed.

#[export] Instance EventSeverity_eq_dec : EqDecision EventSeverity.
Proof. solve_decision. Defined.
#[export] Instance EventType_eq_dec : EqDecision EventType.
Proof. solve_decision. Defined.

Definition severity_to_string (severity : EventSeverity) : bytes :=
  match severity with
  | Debug => str "DEBUG" | Info => str "INFO"
  | Warning => str "WARNING" | ErrorSeverity => str "ERROR"
  end.

(** [static_cast<int>]. *)
Definition severity_rank (s : EventSeverity) : Z :=
  match s with Debug => 0 | Info => 1 | Warning => 2 | ErrorSeverity => 3 end.
Definition severity_at_least (severity minimum : EventSeverity) : bool :=
  severity_rank minimum <=? severity_rank severity.

Definition type_to_string (type : EventType) : bytes :=
  match type with
  | ServiceStarted => str "service.started"
  | ServiceStopping => str "service.stopping"
  | JobSubmitted => str "job.submitted"
  | JobStarted => str "job.started"
  | JobCompleted => str "job.completed"
  | JobFailed => str "job.failed"
  | JobHaltedAfterCommit => str "job.halted_after_commit"
  | JobFailedExternal => str "job.failed_external"
  | JobRetryScheduled => str "job.retry_scheduled"
  | JobRetrySubmitted => str "job.retry_submitted"
  | JobPaused => str "job.paused"
  | JobResumed => str "job.resumed"
  | JobCancelled => str "job.cancelled"
  | SubscriberFailed => str "subscriber.failed"
  end.

Definition is_transfer_event (type : EventType) : bool :=
  match type with
  | ServiceStarted | ServiceStopping | SubscriberFailed => false
  | _ => true
  end.

Record Event := mkEvent {
  ev_type : EventType;
  ev_severity : EventSeverity;
  timestamp_ms : Z;
  job_id : bytes;
  file_id : bytes;
  detail : bytes
}.

Definition default_event : Event := mkEvent ServiceStarted Info 0 [] [] [].

(** Milliseconds of what clock_gettime answers: seconds and nanoseconds, or a failure. *)
Definition clock_ms (ts : option (Z * Z)) : Z :=
  match ts with
  | None => 0
  | Some (tv_sec, tv_nsec) => tv_sec * 1000 + Z.quot tv_nsec 1000000
  end.

(** The wall clock. *)
Definition now_epoch_ms (realtime : option (Z * Z)) : Z := clock_ms realtime.

(** A later reading of one clock is not a smaller number of milliseconds. *)
Lemma clock_ms_mono s1 n1 s2 n2 :
  0 <= n1 < 1000000000 -> 0 <= n2 < 1000000000 -> s1 < s2 \/ (s1 = s2 /\ n1 <= n2) ->
  clock_ms (Some (s1, n1)) <= clock_ms (Some (s2, n2)).
Proof.
  intros H1 H2 H. simpl. rewrite !Z.quot_div_nonneg by lia.
  pose proof (Z.div_lt_upper_bound n1 1000000 1000 ltac:(lia) ltac:(lia)).
  pose proof (Z.div_pos n2 1000000 ltac:(lia) ltac:(lia)).
  destruct H as [?|[-> ?]]; [lia|]. pose proof (Z.div_le_mono n1 n2 1000000 ltac:(lia) ltac:(lia)). lia.
Qed.

(** * The publisher *)

(** A subscriber: the callback and its user pointer. *)
Notation Subscriber := (Z * Z)%type.

(** One activation of [publish]: the part of its snapshot still to be called, and
    whether the head of it is being called. *)
Record frame := mkFrame { to_call : list Subscriber; in_callback : bool }.

(** A thread is inside a stack of [publish] calls ([g_publish_depth] is its
    height), or waits in [unsubscribe] for [drained]. *)
Inductive pthread :=
| Running (stack : list frame)
| Draining.

Record publisher := mkPublisher {
  subscribers : list Subscriber;
  in_flight : nat;
  pthreads : gmap nat pthread
}.

Definition new_publisher : publisher := mkPublisher [] 0 ∅.

(** What thread [t] is doing; a thread never seen is outside the publisher. *)
Definition pthread_of (t : nat) (p : publisher) : pthread :=
  default (Running []) (pthreads p !! t).
Definition set_pthread (t : nat) (x : pthread) (p : publisher) : publisher :=
  mkPublisher (subscribers p) (in_flight p) (<[t := x]> (pthreads p)).

(** A thread runs its own code when it is outside [publish] or inside a callback. *)
Definition may_call (stack : list frame) : Prop :=
  match stack with
  | [] => True
  | f :: _ => in_callback f = true
  end.

Definition subscribe (callback user_data : Z) (p : publisher) : result publisher bytes :=
  if callback =? 0 then Error (str "events: subscriber callback is null")
  else if bool_decide ((callback, user_data) ∈ subscribers p) then
    Error (str "events: subscriber is already registered")
  else Ok (mkPublisher (subscribers p ++ [(callback, user_data)]) (in_flight p) (pthreads p)).

(** The erase loop: the first registration equal to [s]. *)
Fixpoint erase_first (s : Subscriber) (l : list Subscriber) : list Subscriber * bool :=
  match l with
  | [] => ([], false)
  | x :: l' => if bool_decide (x = s) then (l', true)
               else let '(r, b) := erase_first s l' in (x :: r, b)
  end.

Inductive plabel :=
| LSubscribe (t : nat) (s : Subscriber)
| LUnsubscribe (t : nat) (s : Subscriber)
| LDrained (t : nat)
| LPublish (t : nat)
| LEnter (t : nat) (s : Subscriber)
| LLeave (t : nat)
| LFinish (t : nat).

Inductive pub_step : plabel -> publisher -> publisher -> Prop :=
| step_subscribe t cb ud stack p p' :
    pthread_of t p = Running stack -> may_call stack -> subscribe cb ud p = Ok p' ->
    pub_step (LSubscribe t (cb, ud)) p p'
| step_unsubscribe t s stack p :
    pthread_of t p = Running stack -> may_call stack ->
    pub_step (LUnsubscribe t s) p
      (set_pthread t (if decide (stack = []) then Draining else Running stack)
         (mkPublisher (fst (erase_first s (subscribers p))) (in_flight p) (pthreads p)))
| step_drained t p :
    pthread_of t p = Draining -> in_flight p = O ->
    pub_step (LDrained t) p (set_pthread t (Running []) p)
| step_publish t stack p :
    pthread_of t p = Running stack -> may_call stack ->
    pub_step (LPublish t) p
      (set_pthread t (Running (mkFrame (subscribers p) false :: stack))
         (mkPublisher (subscribers p) (S (in_flight p)) (pthreads p)))
| step_enter t s rest stack p :
    pthread_of t p = Running (mkFrame (s :: rest) false :: stack) ->
    pub_step (LEnter t s) p
      (set_pthread t (Running (mkFrame (s :: rest) true :: stack)) p)
| step_leave t s rest stack p :
    (* the callback returned or threw; either way the loop goes on *)
    pthread_of t p = Running (mkFrame (s :: rest) true :: stack) ->
    pub_step (LLeave t) p (set_pthread t (Running (mkFrame rest false :: stack)) p)
| step_finish t stack p :
    pthread_of t p = Running (mkFrame [] false :: stack) ->
    pub_step (LFinish t) p
      (set_pthread t (Running stack)
         (mkPublisher (subscribers p) (pred (in_flight p)) (pthreads p))).

Definition any_step (p p' : publisher) : Prop := exists l, pub_step l p p'.

(** Steps other than a subscription of [s]. *)
Definition without (s : Subscriber) (p p' : publisher) : Prop :=
  exists l, pub_step l p p' /\ forall t, l <> LSubscribe t s.

(** * Invariant *)

Definition frames (x : pthread) : nat :=
  match x with Running stack => length stack | Draining => O end.
Definition total_frames (m : gmap nat pthread) : nat :=
  map_fold (fun _ x n => (frames x + n)%nat) O m.

(** [in_flight] counts the activations of [publish], and no subscriber is
    registered twice. *)
Definition pub_inv (p : publisher) : Prop :=
  in_flight p = total_frames (pthreads p) /\ NoDup (subscribers p).

(** [s] is neither registered nor in any snapshot still to be called. *)
Definition silent (s : Subscriber) (p : publisher) : Prop :=
  s ∉ subscribers p /\
  forall t stack f, pthread_of t p = Running stack -> f ∈ stack -> s ∉ to_call f.

Lemma total_insert m t x :
  total_frames (<[t := x]> m) =
  (frames x + (total_frames m - frames (default (Running []) (m !! t))))%nat.
Proof.
  unfold total_frames. rewrite <- insert_delete_eq.
  rewrite map_fold_insert_L; [|intros; lia|apply lookup_delete_eq]. f_equal.
  destruct (m !! t) as [y|] eqn:E; simpl.
  - rewrite <- (insert_delete_id m t y) at 2 by done.
    rewrite map_fold_insert_L; [|intros; lia|apply lookup_delete_eq]. lia.
  - rewrite delete_id by done. lia.
Qed.

Lemma total_bound m t :
  (frames (default (Running []) (m !! t)) <= total_frames m)%nat.
Proof.
  unfold total_frames. destruct (m !! t) as [y|] eqn:E; simpl; [|lia].
  rewrite <- (insert_delete_id m t y) by done.
  rewrite map_fold_insert_L; [|intros; lia|apply lookup_delete_eq]. lia.
Qed.

Lemma pthread_set t t' x p :
  pthread_of t' (set_pthread t x p) = if decide (t' = t) then x else pthread_of t' p.
Proof.
  unfold pthread_of, set_pthread. simpl. case_decide; subst.
  - by rewrite lookup_insert_eq.
  - by rewrite lookup_insert_ne.
Qed.

Lemma erase_first_spec s l :
  NoDup l -> s ∉ fst (erase_first s l) /\ NoDup (fst (erase_first s l)) /\
             (forall x, x ∈ fst (erase_first s l) -> x ∈ l).
Proof.
  induction 1 as [|x l Hx Hn (IH1 & IH2 & IH3)]; simpl.
  - split_and!; [set_solver|constructor|done].
  - case_bool_decide as E; simpl.
    + subst. split_and!; [done|done|set_solver].
    + destruct (erase_first s l) as [r b]. simpl in *.
      split_and!; [set_solver|constructor; set_solver|set_solver].
Qed.

Lemma subscribe_Ok cb ud p p' :
  subscribe cb ud p = Ok p' ->
  (cb, ud) ∉ subscribers p /\ p' = mkPublisher (subscribers p ++ [(cb, ud)]) (in_flight p) (pthreads p).
Proof.
  unfold subscribe. destruct (cb =? 0); [done|]. case_bool_decide; [done|]. by intros [= <-].
Qed.

Lemma pub_step_inv l p p' : pub_inv p -> pub_step l p p' -> pub_inv p'.
Proof.
  intros [Hf Hn] Hs. unfold pub_inv.
  inversion Hs as [t cb ud stack ? ? Ht ? Hsub|t s stack ? Ht|t ? Ht|t stack ? Ht|t s rest stack ? Ht
    |t s rest stack ? Ht|t stack ? Ht]; subst; simpl;
    try (pose proof (total_bound (pthreads p) t) as Hb; unfold pthread_of in Ht;
         rewrite total_insert; rewrite Ht in *; simpl in *; split; [|done]; lia).
  - apply subscribe_Ok in Hsub as [Hnew ->]. simpl. split; [done|].
    apply NoDup_app. split_and!; [done|set_solver|apply NoDup_singleton].
  - pose proof (total_bound (pthreads p) t) as Hb. unfold pthread_of in Ht.
    rewrite total_insert. rewrite Ht in *. simpl in *. split; [|by apply erase_first_spec].
    destruct stack; simpl in *; lia.
Qed.

Lemma reachable_inv p : star any_step new_publisher p -> pub_inv p.
Proof.
  intros H. eapply (star_invariant any_step pub_inv); [|exact H|].
  - intros p1 p2 Hp [l Hs]. by eapply pub_step_inv.
  - split; [done|constructor].
Qed.

(** No activation of [publish] is left once the counter is zero. *)
Lemma drained_empty p t stack :
  pub_inv p -> in_flight p = O -> pthread_of t p = Running stack -> stack = [].
Proof.
  intros [Hf _] Hz Ht. pose proof (total_bound (pthreads p) t) as Hb.
  unfold pthread_of in Ht. rewrite Ht, <- Hf, Hz in Hb. destruct stack; [done|]. simpl in Hb. lia.
Qed.

Lemma unregistered_step s p p' :
  without s p p' -> pub_inv p -> s ∉ subscribers p -> s ∉ subscribers p'.
Proof.
  intros (l & Hs & Hl) [_ Hn] Hx. inversion Hs as [t cb ud stack ? ? Ht ? Hsub| | | | | |];
    subst; simpl; try done.
  - apply subscribe_Ok in Hsub as [_ ->]. simpl. specialize (Hl t). set_solver.
  - destruct (erase_first_spec s0 _ Hn) as (_ & _ & Hin). naive_solver.
Qed.

Lemma silent_step s p p' : without s p p' -> pub_inv p -> silent s p -> silent s p'.
Proof.
  intros Hw Hi [Hx Hf]. split; [by eapply unregistered_step|].
  destruct Hw as (l & Hs & _). intros t1 stack1 f1.
  inversion Hs as [t cb ud stack ? ? Ht ? Hsub|t s1 stack ? Ht|t ? Ht|t stack ? Ht|t s1 rest stack ? Ht
    |t s1 rest stack ? Ht|t stack ? Ht]; subst.
  - apply subscribe_Ok in Hsub as [_ ->]. by apply Hf.
  - rewrite pthread_set. destruct (decide (t1 = t)); [|by apply Hf]. subst. case_decide; [done|].
    intros [= <-]. by eapply Hf.
  - rewrite pthread_set. destruct (decide (t1 = t)); [|by apply Hf]. intros [= <-]. set_solver.
  - rewrite pthread_set. destruct (decide (t1 = t)); [|by apply Hf]. subst. intros [= <-] [->|?]%elem_of_cons; [done|].
    by eapply Hf.
  - rewrite pthread_set. destruct (decide (t1 = t)); [|by apply Hf]. subst. intros [= <-] [->|?]%elem_of_cons; simpl.
    + apply (Hf _ _ (mkFrame (s1 :: rest) false) Ht). set_solver.
    + eapply Hf; [done|]. set_solver.
  - rewrite pthread_set. destruct (decide (t1 = t)); [|by apply Hf]. subst. intros [= <-] [->|?]%elem_of_cons; simpl.
    + pose proof (Hf _ _ (mkFrame (s1 :: rest) true) Ht ltac:(set_solver)) as Hx1. set_solver.
    + eapply Hf; [done|]. set_solver.
  - rewrite pthread_set. destruct (decide (t1 = t)); [|by apply Hf]. subst. intros [= <-] ?.
    eapply Hf; [done|]. set_solver.
Qed.

Lemma star_without_inv s p p' : star (without s) p p' -> pub_inv p -> pub_inv p'.
Proof.
  intros Hs Hp. eapply (star_invariant (without s) pub_inv); [|exact Hs|exact Hp].
  intros p1 p2 H1 (l & Hst & _). by eapply pub_step_inv.
Qed.

(** * Properties *)

(** C28. Use-after-unsubscribe is impossible (L3-EVT-005): once an [unsubscribe] made
    outside any callback has returned, its subscriber is in no callback of any
    thread and is never entered again, whatever the other threads do, unless it
    is subscribed anew. *)
Theorem unsubscribe_is_final p0 t s p1 p2 p3 p4 l p5 :
  star any_step new_publisher p0 -> pthread_of t p0 = Running [] ->
  pub_step (LUnsubscribe t s) p0 p1 -> star (without s) p1 p2 ->
  pub_step (LDrained t) p2 p3 -> star (without s) p3 p4 ->
  (forall t' stack f, pthread_of t' p4 = Running stack -> f ∈ stack -> s ∉ to_call f) /\
  (pub_step l p4 p5 -> forall t', l <> LEnter t' s).
Proof.
  intros H0 Ht H1 H2 H3 H4. pose proof (reachable_inv _ H0) as I0.
  pose proof (pub_step_inv _ _ _ I0 H1) as I1. pose proof (star_without_inv _ _ _ H2 I1) as I2.
  pose proof (pub_step_inv _ _ _ I2 H3) as I3.
  assert (s ∉ subscribers p1) as U1.
  { inversion H1; subst. simpl. by apply erase_first_spec, I0. }
  assert (s ∉ subscribers p2 /\ pub_inv p2) as [U2 _].
  { eapply (star_invariant (without s) (fun p => s ∉ subscribers p /\ pub_inv p));
      [|exact H2|done].
    intros q q' [Hu Hi] Hw. split; [by eapply unregistered_step|].
    destruct Hw as (l' & Hst & _). by eapply pub_step_inv. }
  assert (silent s p3) as S3.
  { inversion H3 as [| |? ? Hd Hz| | | |]; subst. split; [done|]. intros t' stack f.
    rewrite pthread_set. case_decide; [intros [= <-]; set_solver|].
    intros Hr Hin. rewrite (drained_empty _ _ _ I2 Hz Hr) in Hin. set_solver. }
  assert (silent s p4 /\ pub_inv p4) as [S4 _].
  { eapply (star_invariant (without s) (fun p => silent s p /\ pub_inv p)); [|exact H4|done].
    intros q q' [Hu Hi] Hw. split; [by eapply silent_step|].
    destruct Hw as (l' & Hst & _). by eapply pub_step_inv. }
  split; [apply S4|]. intros Hst t' ->. inversion Hst; subst.
  destruct S4 as [_ S4]. eapply (S4 t' _ (mkFrame (s :: rest) false)); [done| |]; set_solver.
Qed.

(** [in_flight] is exactly the number of [publish] calls in progress over all
    threads, nested ones included, in every reachable state, and no subscriber is
    ever registered twice (L3-EVT-004). *)
Theorem publisher_invariant p :
  star any_step new_publisher p ->
  in_flight p = total_frames (pthreads p) /\ NoDup (subscribers p).
Proof. apply reachable_inv. Qed.

(** ** Witnesses *)

(** Thread 1 is inside the callback (1, 7) when thread 0 unsubscribes it. *)
Definition demo_subscribed : publisher := mkPublisher [(1, 7)] 0 ∅.
Definition demo_publishing : publisher :=
  set_pthread 1 (Running [mkFrame [(1, 7)] false]) (mkPublisher [(1, 7)] 1 ∅).
Definition demo_inside : publisher :=
  set_pthread 1 (Running [mkFrame [(1, 7)] true]) demo_publishing.

Lemma demo_reachable : star any_step new_publisher demo_inside.
Proof.
  apply (star_step _ _ demo_subscribed).
  { exists (LSubscribe 0 (1, 7)). apply (step_subscribe 0 1 7 []); done. }
  apply (star_step _ _ demo_publishing).
  { exists (LPublish 1). apply (step_publish 1 [] demo_subscribed); done. }
  apply (star_step _ _ demo_inside); [|constructor].
  exists (LEnter 1 (1, 7)). apply (step_enter 1 (1, 7) [] [] demo_publishing). done.
Qed.

Lemma publisher_invariant_witness : in_flight demo_inside = total_frames (pthreads demo_inside).
Proof. apply (publisher_invariant demo_inside demo_reachable). Defined.

Definition demo_draining : publisher := set_pthread 0 Draining
  (mkPublisher [] 1 (pthreads demo_inside)).
Definition demo_left : publisher := set_pthread 1 (Running [mkFrame [] false]) demo_draining.
Definition demo_finished : publisher :=
  set_pthread 1 (Running []) (mkPublisher [] 0 (pthreads demo_left)).
Definition demo_returned : publisher := set_pthread 0 (Running []) demo_finished.

Lemma unsubscribe_is_final_witness :
  ~ pub_step (LEnter 1 (1, 7)) demo_returned demo_inside.
Proof.
  intros Hs.
  refine (proj2 (unsubscribe_is_final demo_inside 0 (1, 7) demo_draining demo_finished demo_returned
    demo_returned _ demo_inside demo_reachable eq_refl _ _ _ _) Hs 1%nat eq_refl).
  - apply (step_unsubscribe 0 (1, 7) [] demo_inside); reflexivity || exact I.
  - apply (star_step _ _ demo_left).
    { exists (LLeave 1). split; [|intros; discriminate].
      apply (step_leave 1 (1, 7) [] [] demo_draining). reflexivity. }
    apply (star_step _ _ demo_finished); [|constructor].
    exists (LFinish 1). split; [|intros; discriminate].
    apply (step_finish 1 [] demo_left). reflexivity.
  - apply (step_drained 0 demo_finished); reflexivity.
  - constructor.
Defined.
