(* ===== verification/PubThreads.v ===== *)
(** The threads of the event publisher: src/cpp/src/events.cpp.

    [subscribe], [unsubscribe] and [publish] statement by statement, over the publisher of
    Events.v: the mutex, the condition variable [drained] with its wait and its [notify_all],
    spurious wake-ups, and callbacks that call the publisher again.

    [publisher_threads_refine]: every run of the threads is a run of [Events.pub_step].
    [publisher_settles]: no wake-up is lost, and no thread waits for itself: when no more calls
    are made and the callbacks return, every call in progress returns. *)

From S2P Require Import Prelude Events.

(** * The threads *)

(** Where a thread is in the code of the publisher. *)
Inductive pcode :=
| PFree                          (* outside, or in a callback *)
| PSubscribing (s : Subscriber)  (* about to lock *)
| PSubscribe (s : Subscriber)    (* holds the mutex *)
| PUnsubscribing (s : Subscriber)
| PUnsubscribe (s : Subscriber)
| PTesting                       (* holds the mutex; the predicate of the wait is next *)
| PAsleep                        (* in [wait], mutex released *)
| PWoken                         (* woken, about to lock *)
| PPublishing                    (* about to lock *)
| PSnapshot                      (* holds the mutex *)
| PSnapped                       (* snapshot taken, the mutex still held *)
| PCalling                       (* between two callbacks *)
| PFinishing                     (* about to lock *)
| PFinish                        (* holds the mutex *)
| PNotify                        (* [in_flight] has become zero, the mutex still held *)
| PUnlocking.                    (* done, the mutex still held *)

#[export] Instance pcode_eq_dec : EqDecision pcode.
Proof. solve_decision. Defined.

Record pubnet := mkPubnet { d_pub : publisher; d_lock : option nat; d_code : gmap nat pcode }.

Definition code_of (t : nat) (w : pubnet) : pcode := default PFree (d_code w !! t).

(** Thread [t] goes on at [c], with the mutex and the publisher as given. *)
Definition thread_at (t : nat) (c : pcode) (lock : option nat) (p : publisher) (w : pubnet) : pubnet :=
  mkPubnet p lock (<[t := c]> (d_code w)).

Definition rouse (c : pcode) : pcode := match c with PAsleep => PWoken | _ => c end.

(** Lock the mutex if it is free. *)
Definition take_mutex (t : nat) (c : pcode) (w : pubnet) : option pubnet :=
  if decide (d_lock w = None) then Some (thread_at t c (Some t) (d_pub w) w) else None.

(** The next statement of thread [t]. *)
Definition pub_turn (t : nat) (w : pubnet) : option pubnet :=
  let p := d_pub w in
  let go c p' := Some (thread_at t c (d_lock w) p' w) in
  let release c := Some (thread_at t c None p w) in
  match code_of t w, pthread_of t p with
  | PSubscribing s, _ => take_mutex t (PSubscribe s) w
  | PSubscribe s, _ =>
      go PUnlocking (match subscribe (fst s) (snd s) p with Ok p' => p' | Error _ => p end)
  | PUnsubscribing s, _ => take_mutex t (PUnsubscribe s) w
  | PUnsubscribe s, Running stack =>
      let p1 := mkPublisher (fst (erase_first s (subscribers p))) (in_flight p) (pthreads p) in
      if decide (stack = []) then go PTesting (set_pthread t Draining p1)
      else go PUnlocking (set_pthread t (Running stack) p1)
  | PTesting, _ =>
      if decide (in_flight p = O) then go PUnlocking (set_pthread t (Running []) p) else release PAsleep
  | PWoken, _ => take_mutex t PTesting w
  | PPublishing, _ => take_mutex t PSnapshot w
  | PSnapshot, Running stack =>
      go PSnapped (set_pthread t (Running (mkFrame (subscribers p) false :: stack))
                     (mkPublisher (subscribers p) (S (in_flight p)) (pthreads p)))
  | PSnapped, _ => release PCalling
  | PCalling, Running (mkFrame (s :: rest) false :: stack) =>
      go PFree (set_pthread t (Running (mkFrame (s :: rest) true :: stack)) p)
  | PCalling, Running (mkFrame [] false :: stack) => go PFinishing p
  | PFinishing, _ => take_mutex t PFinish w
  | PFinish, Running (mkFrame [] false :: stack) =>
      go (if decide (pred (in_flight p) = O) then PNotify else PUnlocking)
        (set_pthread t (Running stack) (mkPublisher (subscribers p) (pred (in_flight p)) (pthreads p)))
  | PNotify, _ => Some (mkPubnet p (d_lock w) (<[t := PUnlocking]> (rouse <$> d_code w)))
  | PUnlocking, _ => release PFree
  | PFree, Running (mkFrame (s :: rest) true :: stack) =>
      (* the callback returns, or throws and is caught *)
      go PCalling (set_pthread t (Running (mkFrame rest false :: stack)) p)
  | _, _ => None
  end.

(** What comes from outside: a call by a thread that runs its own code (a null callback is
    refused before the lock), and a spurious wake-up. *)
Inductive pub_news : pubnet -> pubnet -> Prop :=
| g_subscribe t s w : code_of t w = PFree -> fst s <> 0 ->
    pub_news w (thread_at t (PSubscribing s) (d_lock w) (d_pub w) w)
| g_unsubscribe t s w : code_of t w = PFree ->
    pub_news w (thread_at t (PUnsubscribing s) (d_lock w) (d_pub w) w)
| g_publish t w : code_of t w = PFree ->
    pub_news w (thread_at t PPublishing (d_lock w) (d_pub w) w)
| g_spurious t w : code_of t w = PAsleep ->
    pub_news w (thread_at t PWoken (d_lock w) (d_pub w) w).

Definition pubnet_step (w w' : pubnet) : Prop := (exists t, pub_turn t w = Some w') \/ pub_news w w'.

Definition new_pubnet : pubnet := mkPubnet new_publisher None ∅.

(** * The invariant *)

Definition p_holds (c : pcode) : bool :=
  match c with
  | PSubscribe _ | PUnsubscribe _ | PTesting | PSnapshot | PSnapped | PFinish | PNotify | PUnlocking => true
  | _ => false
  end.

(** Every activation is inside a callback. *)
Definition calling (stack : list frame) : Prop :=
  Forall (fun f => in_callback f = true /\ to_call f <> []) stack.

(** What Events.v sees of a thread. *)
Definition fits (c : pcode) (x : pthread) : Prop :=
  match c with
  | PTesting | PAsleep | PWoken => x = Draining
  | PSnapped | PCalling => exists l stack, x = Running (mkFrame l false :: stack) /\ calling stack
  | PFinishing | PFinish => exists stack, x = Running (mkFrame [] false :: stack) /\ calling stack
  | _ => exists stack, x = Running stack /\ calling stack
  end.

Record pubnet_inv (w : pubnet) : Prop := {
  pn_pub : pub_inv (d_pub w);
  pn_lock t : bool_decide (d_lock w = Some t) = p_holds (code_of t w);
  pn_fits t : fits (code_of t w) (pthread_of t (d_pub w));
  pn_asleep t : code_of t w = PAsleep -> (0 < in_flight (d_pub w))%nat \/ exists t', code_of t' w = PNotify
}.

Lemma calling_may_call stack : calling stack -> may_call stack.
Proof. destruct 1 as [|f stack [H _]]; [done|exact H]. Qed.

Lemma code_at t c lock p w t' : code_of t' (thread_at t c lock p w) = if decide (t' = t) then c else code_of t' w.
Proof. unfold code_of. simpl. rewrite lookup_insert. repeat case_decide; simpl; congruence. Qed.

(** The publisher does not see the turn, or it is a step of it. *)
Definition pub_move (p p' : publisher) : Prop := p' = p \/ any_step p p'.

Lemma pub_move_inv p p' : pub_inv p -> pub_move p p' -> pub_inv p'.
Proof. intros Hi [->|[l Hl]]; [done|by eapply pub_step_inv]. Qed.

(** What a move of thread [t] must respect. *)
Lemma thread_inv_at t c lock p w :
  pubnet_inv w -> pub_move (d_pub w) p ->
  lock = d_lock w \/ ((d_lock w = None \/ d_lock w = Some t) /\ (lock = None \/ lock = Some t)) ->
  p_holds c = bool_decide (lock = Some t) ->
  fits c (pthread_of t p) -> (forall t', t' <> t -> pthread_of t' p = pthread_of t' (d_pub w)) ->
  ((0 < in_flight (d_pub w))%nat -> (0 < in_flight p)%nat \/ c = PNotify) ->
  (c = PAsleep -> (0 < in_flight p)%nat) -> code_of t w <> PNotify ->
  pubnet_inv (thread_at t c lock p w).
Proof.
  intros [Hp Hl Hf Ha] Hm Hlk Hh Hfit Hoth Hfl Hc Hn. split; simpl.
  - by eapply pub_move_inv.
  - intros t'. rewrite code_at. destruct (decide (t' = t)) as [Ht|Ht]; [by subst; rewrite Hh|]. rewrite <- Hl.
    destruct Hlk as [->|[[H1|H1] [H2|H2]]]; [done|..]; rewrite H1, H2; repeat case_bool_decide; congruence.
  - intros t'. rewrite code_at. destruct (decide (t' = t)) as [Ht|Ht]; [by subst|]. rewrite Hoth by done. apply Hf.
  - intros t'. rewrite code_at. destruct (decide (t' = t)) as [Ht|Ht]; [intros ?; left; auto|]. intros Hs. destruct (Ha t' Hs) as [H|[t2 H]].
    + destruct (Hfl H) as [?| ->]; [by left|]. right. exists t. by rewrite code_at, decide_True.
    + right. exists t2. rewrite code_at. destruct (decide (t2 = t)); [congruence|done].
Qed.

Lemma new_pubnet_inv : pubnet_inv new_pubnet.
Proof.
  split.
  - split; [done|constructor].
  - done.
  - intros t. exists []. split; [done|constructor].
  - done.
Qed.

(** ** Each kind of turn *)

(** A turn that the publisher does not see. *)
Lemma quiet_turn t c lock w :
  pubnet_inv w ->
  lock = d_lock w \/ ((d_lock w = None \/ d_lock w = Some t) /\ (lock = None \/ lock = Some t)) ->
  p_holds c = bool_decide (lock = Some t) -> fits c (pthread_of t (d_pub w)) ->
  (c = PAsleep -> (0 < in_flight (d_pub w))%nat) -> code_of t w <> PNotify ->
  pubnet_inv (thread_at t c lock (d_pub w) w).
Proof. intros. apply thread_inv_at; auto. by left. Qed.

Lemma take_mutex_turn t c w w' : pubnet_inv w -> take_mutex t c w = Some w' -> p_holds c = true ->
  fits c (pthread_of t (d_pub w)) -> c <> PAsleep -> code_of t w <> PNotify ->
  pubnet_inv w' /\ pub_move (d_pub w) (d_pub w').
Proof.
  unfold take_mutex. intros Hi Ha Hc Hf Hs Hn. case_decide as Hl; [|done]. simplify_eq. split; [|by left].
  apply quiet_turn; auto; [by rewrite Hc, bool_decide_eq_true_2|done].
Qed.

(** A step of the publisher made by the holder of the mutex, or between two callbacks. *)
Lemma seen_turn t c p x w :
  pubnet_inv w -> pub_move (d_pub w) p -> p_holds c = p_holds (code_of t w) ->
  (exists q, p = set_pthread t x q /\ pthreads q = pthreads (d_pub w)) -> fits c x ->
  ((0 < in_flight (d_pub w))%nat -> (0 < in_flight p)%nat \/ c = PNotify) -> c <> PAsleep -> code_of t w <> PNotify ->
  pubnet_inv (thread_at t c (d_lock w) p w) /\ pub_move (d_pub w) p.
Proof.
  intros Hi Hm Hh (q & Hq & Hqt) Hf Hfl Hs Hn. split; [|done].
  assert (forall t', pthread_of t' p = if decide (t' = t) then x else pthread_of t' (d_pub w)) as Hpt.
  { intros t'. rewrite Hq, pthread_set. case_decide; [done|]. unfold pthread_of. by rewrite Hqt. }
  apply thread_inv_at; auto.
  - rewrite Hh. symmetry. apply (pn_lock _ Hi).
  - by rewrite Hpt, decide_True.
  - intros t' Ht'. by rewrite Hpt, decide_False.
  - done.
Qed.

Lemma notify_turn t w : pubnet_inv w -> code_of t w = PNotify ->
  pubnet_inv (mkPubnet (d_pub w) (d_lock w) (<[t := PUnlocking]> (rouse <$> d_code w))).
Proof.
  intros [Hp Hl Hf Ha] Hc.
  assert (forall t', code_of t' (mkPubnet (d_pub w) (d_lock w) (<[t := PUnlocking]> (rouse <$> d_code w)))
    = if decide (t' = t) then PUnlocking else rouse (code_of t' w)) as Hcode.
  { intros t'. unfold code_of. simpl. rewrite lookup_insert, lookup_fmap.
    repeat case_decide; simpl; try congruence. by destruct (d_code w !! t'). }
  split; [done|..]; intros t'; rewrite Hcode; destruct (decide (t' = t)) as [Ht|Ht]; simpl; subst.
  - rewrite Hl, Hc. done.
  - rewrite Hl. by destruct (code_of t' w).
  - specialize (Hf t). by rewrite Hc in Hf.
  - specialize (Hf t'). by destruct (code_of t' w).
  - done.
  - by destruct (code_of t' w).
Qed.

Lemma subscribe_turn t s w : pubnet_inv w -> code_of t w = PSubscribe s ->
  let p := match subscribe (fst s) (snd s) (d_pub w) with Ok p' => p' | Error _ => d_pub w end in
  pubnet_inv (thread_at t PUnlocking (d_lock w) p w) /\ pub_move (d_pub w) p.
Proof.
  intros Hi Hc p. pose proof (pn_fits _ Hi t) as Hf. pose proof (pn_lock _ Hi t) as Hl. rewrite Hc in Hf, Hl.
  destruct Hf as (stack & Hx & Hst). subst p.
  destruct (subscribe (fst s) (snd s) (d_pub w)) as [p|e] eqn:E.
  - pose proof (subscribe_Ok _ _ _ _ E) as [_ Hp].
    assert (pub_move (d_pub w) p) as Hm.
    { right. eexists. eapply step_subscribe; [exact Hx|by apply calling_may_call|exact E]. }
    split; [|done]. apply thread_inv_at; auto; rewrite ?Hp, ?Hc; simpl; try done; [|by auto].
    by exists stack.
  - split; [|by left]. apply quiet_turn; rewrite ?Hc; auto; [|done..]. by exists stack.
Qed.

Lemma unsubscribe_turn t s stack w w' : pubnet_inv w -> code_of t w = PUnsubscribe s ->
  pthread_of t (d_pub w) = Running stack -> pub_turn t w = Some w' -> pubnet_inv w' /\ pub_move (d_pub w) (d_pub w').
Proof.
  intros Hi Hc Hx Ht. unfold pub_turn in Ht. pose proof (pn_fits _ Hi t) as Hf. rewrite Hc in Hf.
  destruct Hf as (stack' & Hx' & Hst). rewrite Hx in Hx'. simplify_eq.
  rewrite Hc, Hx in Ht. pose proof (step_unsubscribe t s _ _ Hx (calling_may_call _ Hst)) as Hs.
  case_decide as He; simplify_eq.
  - apply (seen_turn t _ _ Draining); rewrite ?Hc; auto; try done; [by right; eexists|by eexists].
  - apply (seen_turn t _ _ (Running stack')); rewrite ?Hc; auto; try done; [by right; eexists|by eexists|by exists stack'].
Qed.

Lemma testing_turn t w w' : pubnet_inv w -> code_of t w = PTesting -> pub_turn t w = Some w' ->
  pubnet_inv w' /\ pub_move (d_pub w) (d_pub w').
Proof.
  intros Hi Hc Ht. pose proof (pn_fits _ Hi t) as Hf. pose proof (pn_lock _ Hi t) as Hl. rewrite Hc in Hf, Hl.
  unfold pub_turn in Ht. rewrite Hc in Ht. simpl in Hl. bool_prop. case_decide as Hz; simplify_eq.
  - apply (seen_turn t _ _ (Running [])); rewrite ?Hc; auto; try done.
    + right. eexists. by apply step_drained.
    + by eexists.
    + exists []. split; [done|constructor].
  - split; [|by left]. apply quiet_turn; rewrite ?Hc; auto; try done. lia.
Qed.

Lemma snapshot_turn t w w' : pubnet_inv w -> code_of t w = PSnapshot -> pub_turn t w = Some w' ->
  pubnet_inv w' /\ pub_move (d_pub w) (d_pub w').
Proof.
  intros Hi Hc Ht. pose proof (pn_fits _ Hi t) as Hf. rewrite Hc in Hf. destruct Hf as (stack & Hx & Hst).
  unfold pub_turn in Ht. rewrite Hc, Hx in Ht. simplify_eq.
  eapply (seen_turn t); rewrite ?Hc; try done.
  - right. eexists. by apply step_publish; [|apply calling_may_call].
  - by eexists.
  - by eexists _, _.
  - simpl. left. lia.
Qed.

Lemma calling_turn t w w' : pubnet_inv w -> code_of t w = PCalling -> pub_turn t w = Some w' ->
  pubnet_inv w' /\ pub_move (d_pub w) (d_pub w').
Proof.
  intros Hi Hc Ht. pose proof (pn_fits _ Hi t) as Hf. pose proof (pn_lock _ Hi t) as Hl. rewrite Hc in Hf, Hl.
  destruct Hf as (l & stack & Hx & Hst). unfold pub_turn in Ht. rewrite Hc, Hx in Ht.
  destruct l as [|s rest]; simplify_eq.
  - split; [|by left]. apply quiet_turn; rewrite ?Hc; auto; try done. by exists stack.
  - eapply (seen_turn t); rewrite ?Hc; try done; auto.
    + right. eexists. by apply step_enter.
    + by eexists.
    + eexists. split; [done|]. by constructor.
Qed.

Lemma finish_turn t w w' : pubnet_inv w -> code_of t w = PFinish -> pub_turn t w = Some w' ->
  pubnet_inv w' /\ pub_move (d_pub w) (d_pub w').
Proof.
  intros Hi Hc Ht. pose proof (pn_fits _ Hi t) as Hf. rewrite Hc in Hf. destruct Hf as (stack & Hx & Hst).
  unfold pub_turn in Ht. rewrite Hc, Hx in Ht. injection Ht as <-.
  apply (seen_turn t _ _ (Running stack)); rewrite ?Hc; try done.
  - right. eexists. by apply step_finish.
  - by case_decide.
  - by eexists.
  - case_decide; by exists stack.
  - simpl. intros _. case_decide; [by right|]. left. lia.
  - by case_decide.
Qed.

Lemma leave_turn t w w' : pubnet_inv w -> code_of t w = PFree -> pub_turn t w = Some w' ->
  pubnet_inv w' /\ pub_move (d_pub w) (d_pub w').
Proof.
  intros Hi Hc Ht. pose proof (pn_fits _ Hi t) as Hf. rewrite Hc in Hf. destruct Hf as (stack & Hx & Hst).
  unfold pub_turn in Ht. rewrite Hc, Hx in Ht. destruct Hst as [|[l b] stack [Hb Hl] Hst]; [done|]. simpl in *. subst b.
  destruct l as [|s rest]; [done|]. injection Ht as <-. eapply (seen_turn t); rewrite ?Hc; try done; auto.
  - right. eexists. by eapply step_leave.
  - by eexists.
  - by exists rest, stack.
Qed.

Lemma pub_turn_spec t w w' : pubnet_inv w -> pub_turn t w = Some w' -> pubnet_inv w' /\ pub_move (d_pub w) (d_pub w').
Proof.
  intros Hi Ht. pose proof (pn_fits _ Hi t) as Hf. pose proof (pn_lock _ Hi t) as Hl.
  destruct (code_of t w) as [|s|s|s|s| | | | | | | | | | |] eqn:Hc; simpl in Hf, Hl; bool_prop.
  - by eapply leave_turn.
  - unfold pub_turn in Ht. rewrite Hc in Ht. eapply take_mutex_turn; rewrite ?Hc; done.
  - unfold pub_turn in Ht. rewrite Hc in Ht. simplify_eq. by apply (subscribe_turn t s).
  - unfold pub_turn in Ht. rewrite Hc in Ht. eapply take_mutex_turn; rewrite ?Hc; done.
  - destruct Hf as (stack & Hx & _). by eapply unsubscribe_turn.
  - by eapply testing_turn.
  - unfold pub_turn in Ht. by rewrite Hc in Ht.
  - unfold pub_turn in Ht. rewrite Hc in Ht. eapply take_mutex_turn; rewrite ?Hc; done.
  - unfold pub_turn in Ht. rewrite Hc in Ht. eapply take_mutex_turn; rewrite ?Hc; done.
  - by eapply snapshot_turn.
  - unfold pub_turn in Ht. rewrite Hc in Ht. simplify_eq. split; [|by left].
    apply quiet_turn; rewrite ?Hc; auto; done.
  - by eapply calling_turn.
  - unfold pub_turn in Ht. rewrite Hc in Ht. eapply take_mutex_turn; rewrite ?Hc; done.
  - by eapply finish_turn.
  - unfold pub_turn in Ht. rewrite Hc in Ht. simplify_eq. split; [by apply notify_turn|by left].
  - unfold pub_turn in Ht. rewrite Hc in Ht. simplify_eq. split; [|by left].
    apply quiet_turn; rewrite ?Hc; auto; done.
Qed.

Lemma pubnet_step_spec w w' : pubnet_inv w -> pubnet_step w w' -> pubnet_inv w' /\ pub_move (d_pub w) (d_pub w').
Proof.
  intros Hi [[t Ht]|Hn]; [by eapply pub_turn_spec|].
  destruct Hn as [t s w Hc _|t s w Hc|t w Hc|t w Hc]; (split; [|by left]);
    pose proof (pn_fits _ Hi t) as Hf; pose proof (pn_lock _ Hi t) as Hl; rewrite Hc in Hf, Hl;
    apply quiet_turn; rewrite ?Hc; auto; done.
Qed.

(** * No lost wake-ups *)

(** Nobody is inside the publisher: no call, no callback. *)
Definition outside_publisher (w : pubnet) : Prop :=
  forall t, code_of t w = PFree /\ pthread_of t (d_pub w) = Running [].

Lemma pub_holder_goes_on w t : pubnet_inv w -> p_holds (code_of t w) = true -> is_Some (pub_turn t w).
Proof.
  intros Hi Hh. pose proof (pn_fits _ Hi t) as Hf. unfold pub_turn.
  destruct (code_of t w); try discriminate Hh; simpl in Hf;
    try destruct Hf as (stack & -> & _); try case_decide; eauto.
Qed.

(** A thread that holds nothing goes on, sleeps, or is outside. *)
Lemma pub_thread_goes_on w t : pubnet_inv w -> d_lock w = None -> pub_turn t w = None ->
  code_of t w = PAsleep \/ (code_of t w = PFree /\ pthread_of t (d_pub w) = Running []).
Proof.
  intros Hi Hl Ht. pose proof (pn_fits _ Hi t) as Hf. pose proof (pn_lock _ Hi t) as Hk.
  unfold pub_turn, take_mutex in Ht. rewrite Hl in Ht, Hk.
  destruct (code_of t w); simpl in Hk; try discriminate Hk; try discriminate Ht; simpl in Hf; auto.
  - destruct Hf as (stack & Hx & Hst). rewrite Hx in Ht. destruct Hst as [|[l b] stack [Hb Hn] _]; [by auto|].
    simpl in *. subst b. by destruct l.
  - destruct Hf as (l & stack & Hx & _). rewrite Hx in Ht. by destruct l.
Qed.

Lemma no_frames m : (forall t, frames (default (Running []) (m !! t)) = O) -> total_frames m = O.
Proof.
  unfold total_frames. induction m as [|t x m Hn IH] using map_ind; intros H; [done|].
  rewrite map_fold_insert_L; [|intros; lia|done].
  pose proof (H t) as Ht. rewrite lookup_insert_eq in Ht. simpl in Ht. rewrite Ht. apply IH.
  intros t'. specialize (H t'). destruct (decide (t = t')) as [<-|Hne]; [by rewrite Hn|].
  by rewrite lookup_insert_ne in H.
Qed.

Lemma stuck_outside w : pubnet_inv w -> (forall t, pub_turn t w = None) -> outside_publisher w.
Proof.
  intros Hi Hno.
  assert (d_lock w = None) as Hl.
  { destruct (d_lock w) as [t|] eqn:E; [|done]. destruct (pub_holder_goes_on w t Hi) as [w' Hw].
    - rewrite <- (pn_lock _ Hi), E. by rewrite bool_decide_eq_true_2.
    - by rewrite Hno in Hw. }
  assert (forall t, code_of t w = PAsleep \/ (code_of t w = PFree /\ pthread_of t (d_pub w) = Running [])) as Hall
    by (intros t; by apply pub_thread_goes_on).
  intros t. destruct (Hall t) as [Hs|?]; [exfalso|done].
  destruct (pn_asleep _ Hi t Hs) as [Hf|[t' Ht']]; [|destruct (Hall t') as [H|[H _]]; congruence].
  (* the sleepers are in [unsubscribe], so nothing is in flight *)
  destruct (pn_pub _ Hi) as [Hfl _].
  assert (in_flight (d_pub w) = O); [|lia]. rewrite Hfl. apply no_frames. intros t2.
  pose proof (pn_fits _ Hi t2) as Hf2. fold (pthread_of t2 (d_pub w)).
  destruct (Hall t2) as [H|[_ H]]; [|by rewrite H]. rewrite H in Hf2. simpl in Hf2. by rewrite Hf2.
Qed.

(** ** The threads come to rest *)

Section Sums.
Context {A : Type} (d : A) (f : A -> nat).
Definition msum (m : gmap nat A) : nat := map_fold (fun _ x n => (f x + n)%nat) O m.

Lemma msum_insert m t y : f d = O -> (msum (<[t := y]> m) + f (default d (m !! t)) = msum m + f y)%nat.
Proof.
  intros Hd. unfold msum. rewrite <- insert_delete_eq. rewrite map_fold_insert_L; [|intros; lia|apply lookup_delete_eq].
  destruct (m !! t) as [x|] eqn:E; simpl.
  - rewrite <- (insert_delete_id m t x) at 2 by done.
    rewrite map_fold_insert_L; [|intros; lia|apply lookup_delete_eq]. lia.
  - rewrite delete_id by done. lia.
Qed.
End Sums.

Lemma msum_le {A} (f g : A -> nat) m : (forall x, (f x <= g x)%nat) -> (msum f m <= msum g m)%nat.
Proof.
  intros H. unfold msum. induction m as [|t x m Hn IH] using map_ind; [done|].
  rewrite !map_fold_insert_L by (done || intros; lia). specialize (H x). lia.
Qed.
Lemma msum_fmap {A} (f g : A -> nat) (k : nat) (h : A -> A) m :
  (forall x, (f (h x) <= f x + k * g x)%nat) -> (msum f (h <$> m) <= msum f m + k * msum g m)%nat.
Proof.
  intros H. unfold msum. induction m as [|t x m Hn IH] using map_ind; [rewrite fmap_empty, !map_fold_empty; lia|].
  rewrite fmap_insert. rewrite !map_fold_insert_L; try (intros; lia); try done; [|by rewrite lookup_fmap, Hn].
  specialize (H x). lia.
Qed.

(** Unsubscriptions and subscriptions in progress. *)
Definition unsubscribing (c : pcode) : nat :=
  match c with PUnsubscribing _ | PUnsubscribe _ | PTesting | PAsleep | PWoken => 1 | _ => 0 end%nat.
Definition subscribing (c : pcode) : nat := match c with PSubscribing _ | PSubscribe _ => 1 | _ => 0 end%nat.

(** What a thread has left to do, with at most [u] sleepers to wake and [s] subscribers to call. *)
Definition code_left (u s : nat) (c : pcode) : nat :=
  match c with
  | PFree => 0 | PUnlocking => 1 | PAsleep => 1 | PTesting => 2 | PSubscribe _ => 2 | PSubscribing _ => 3
  | PWoken => 3 | PUnsubscribe _ => 3 | PUnsubscribing _ => 4
  | PNotify => 2 * u + 2 | PFinish => 2 * u + 3 | PFinishing => 2 * u + 4 | PCalling => 2 * u + 5
  | PSnapped => 2 * u + 6 | PSnapshot => (2 * u + 6) * s + 2 * u + 7 | PPublishing => (2 * u + 6) * s + 2 * u + 8
  end%nat.
Definition stack_left (u : nat) (x : pthread) : nat :=
  match x with Running stack => sum_list_with (fun f => (2 * u + 6) * length (to_call f)) stack | Draining => 0 end%nat.

Definition sleepers (w : pubnet) : nat := msum unsubscribing (d_code w).
Definition targets (w : pubnet) : nat := (length (subscribers (d_pub w)) + msum subscribing (d_code w))%nat.
Definition weight (u s : nat) (w : pubnet) : nat :=
  (msum (code_left u s) (d_code w) + msum (stack_left u) (pthreads (d_pub w)))%nat.

Lemma code_left_mono u u' s s' c : (u <= u')%nat -> (s <= s')%nat -> (code_left u s c <= code_left u' s' c)%nat.
Proof. intros Hu Hs. destruct c; simpl; try lia; nia. Qed.
Lemma stack_left_mono u u' x : (u <= u')%nat -> (stack_left u x <= stack_left u' x)%nat.
Proof. intros Hu. destruct x as [stack|]; simpl; [|done]. induction stack as [|f stack IH]; simpl; [done|]. nia. Qed.
Lemma weight_mono u u' s s' w : (u <= u')%nat -> (s <= s')%nat -> (weight u s w <= weight u' s' w)%nat.
Proof.
  intros Hu Hs. unfold weight. pose proof (msum_le _ _ (d_code w) (fun c => code_left_mono _ _ _ _ c Hu Hs)).
  pose proof (msum_le _ _ (pthreads (d_pub w)) (fun x => stack_left_mono _ _ x Hu)). lia.
Qed.

Lemma erase_first_length s l : (length (fst (erase_first s l)) <= length l)%nat.
Proof.
  induction l as [|x l IH]; simpl; [done|]. case_bool_decide; simpl; [lia|].
  destruct (erase_first s l) as [r b]. simpl in *. lia.
Qed.

(** One thread moves from [c0] and [x0] to [c] and [x]: it is enough to compare these. *)
Lemma thread_closer t c lock p x w :
  (pthreads p = pthreads (d_pub w) /\ x = pthread_of t (d_pub w) \/
   pthreads p = <[t := x]> (pthreads (d_pub w))) ->
  (unsubscribing c <= unsubscribing (code_of t w))%nat ->
  (length (subscribers p) + subscribing c <= length (subscribers (d_pub w)) + subscribing (code_of t w))%nat ->
  (let u := sleepers w in let s := targets w in
   code_left u s c + stack_left u x < code_left u s (code_of t w) + stack_left u (pthread_of t (d_pub w)))%nat ->
  (sleepers (thread_at t c lock p w) <= sleepers w)%nat /\ (targets (thread_at t c lock p w) <= targets w)%nat /\
  (weight (sleepers w) (targets w) (thread_at t c lock p w) < weight (sleepers w) (targets w) w)%nat.
Proof.
  intros Hx Hu Hs Hc. simpl in Hc. unfold weight.
  set (u := sleepers w) in *. set (s := targets w) in *. unfold targets, sleepers in *. simpl.
  pose proof (msum_insert PFree unsubscribing (d_code w) t c eq_refl) as H1.
  pose proof (msum_insert PFree subscribing (d_code w) t c eq_refl) as H2.
  pose proof (msum_insert PFree (code_left u s) (d_code w) t c eq_refl) as H3.
  fold (code_of t w) in H1, H2, H3.
  assert (msum (stack_left u) (pthreads p) + stack_left u (pthread_of t (d_pub w)) =
    msum (stack_left u) (pthreads (d_pub w)) + stack_left u x)%nat as H4.
  { destruct Hx as [[-> ->]| ->]; [lia|]. apply (msum_insert (Running []) (stack_left u)). done. }
  subst s. lia.
Qed.

Lemma notify_closer t w : code_of t w = PNotify ->
  let w' := mkPubnet (d_pub w) (d_lock w) (<[t := PUnlocking]> (rouse <$> d_code w)) in
  (sleepers w' <= sleepers w)%nat /\ (targets w' <= targets w)%nat /\
  (weight (sleepers w) (targets w) w' < weight (sleepers w) (targets w) w)%nat.
Proof.
  intros Hc. unfold weight, targets, sleepers. simpl.
  set (u := msum unsubscribing (d_code w)). set (s := (length (subscribers (d_pub w)) + msum subscribing (d_code w))%nat).
  assert (default PFree ((rouse <$> d_code w) !! t) = PNotify) as Hr.
  { rewrite lookup_fmap. unfold code_of in Hc. destruct (d_code w !! t); simpl in *; [|done]. by subst. }
  pose proof (msum_insert PFree unsubscribing (rouse <$> d_code w) t PUnlocking eq_refl) as H1.
  pose proof (msum_insert PFree subscribing (rouse <$> d_code w) t PUnlocking eq_refl) as H2.
  pose proof (msum_insert PFree (code_left u s) (rouse <$> d_code w) t PUnlocking eq_refl) as H3.
  rewrite Hr in H1, H2, H3. simpl in H1, H2, H3.
  pose proof (msum_fmap unsubscribing unsubscribing 0 rouse (d_code w) ltac:(by intros []; simpl; lia)) as F1.
  pose proof (msum_fmap subscribing unsubscribing 0 rouse (d_code w) ltac:(by intros []; simpl; lia)) as F2.
  pose proof (msum_fmap (code_left u s) unsubscribing 2 rouse (d_code w) ltac:(by intros []; simpl; lia)) as F3.
  fold u in F3. subst s. lia.
Qed.

(** The threads' turns. *)
Definition settling (w w' : pubnet) : Prop := exists t, pub_turn t w = Some w'.

Ltac closer Hc :=
  eapply thread_closer; rewrite ?Hc;
    [first [left; split; reflexivity|right; reflexivity]|simpl; rewrite ?length_app; simpl; lia..|];
  try match goal with Hx : pthread_of _ _ = _ |- _ => rewrite Hx end;
  cbn [code_left stack_left sum_list_with to_call length]; nia.

Lemma settling_closer w w' : settling w w' ->
  (sleepers w' <= sleepers w)%nat /\ (targets w' <= targets w)%nat /\
  (weight (sleepers w) (targets w) w' < weight (sleepers w) (targets w) w)%nat.
Proof.
  intros [t Ht]. unfold pub_turn, take_mutex in Ht.
  destruct (code_of t w) as [|s|s|s|s| | | | | | | | | | |] eqn:Hc.
  15: { simplify_eq. by apply notify_closer. }
  all: pose proof (fun s => erase_first_length s (subscribers (d_pub w))) as He.
  all: assert (length (subscribers (d_pub w)) <= targets w)%nat as Hle by (unfold targets; lia).
  all: try specialize (He s); repeat (case_match || case_decide); simplify_eq; try (by closer Hc).
  match goal with Hs : subscribe _ _ _ = Ok ?q |- _ => pose proof (subscribe_Ok _ _ _ _ Hs) as [_ Hq] end.
  rewrite Hq. closer Hc.
Qed.

Lemma settling_terminates w : Acc (fun w' w => settling w w') w.
Proof.
  apply (Wf_nat.well_founded_lt_compat _ (fun w => weight (sleepers w) (targets w) w)). intros w' w0 Hs.
  destruct (settling_closer _ _ Hs) as (Hu & Ht & Hw). pose proof (weight_mono _ _ _ _ w' Hu Ht). lia.
Qed.

(** ** Schedules that compute *)

Inductive pub_choice :=
| PubTurn (t : nat)
| CallSubscribe (t : nat) (s : Subscriber)
| CallUnsubscribe (t : nat) (s : Subscriber)
| CallPublish (t : nat).

Definition pub_choose (c : pub_choice) (w : pubnet) : option pubnet :=
  let free t c' := if decide (code_of t w = PFree) then Some (thread_at t c' (d_lock w) (d_pub w) w) else None in
  match c with
  | PubTurn t => pub_turn t w
  | CallSubscribe t s => if decide (fst s = 0) then None else free t (PSubscribing s)
  | CallUnsubscribe t s => free t (PUnsubscribing s)
  | CallPublish t => free t PPublishing
  end.
Fixpoint pub_schedule (cs : list pub_choice) (w : pubnet) : option pubnet :=
  match cs with [] => Some w | c :: cs' => w' ← pub_choose c w; pub_schedule cs' w' end.

Lemma pub_choose_sound c w w' : pub_choose c w = Some w' -> pubnet_step w w'.
Proof.
  destruct c as [t|t s|t s|t]; simpl; intros Hc; [left; eauto|right..]; repeat case_decide; simplify_eq.
  - by apply g_subscribe.
  - by apply g_unsubscribe.
  - by apply g_publish.
Qed.

Lemma pub_schedule_sound cs w w' : pub_schedule cs w = Some w' -> star pubnet_step w w'.
Proof.
  revert w. induction cs as [|c cs IH]; intros w; simpl; [intros [= <-]; constructor|].
  destruct (pub_choose c w) as [w1|] eqn:E; [|done]. simpl. intros Hw.
  eapply star_step; [by eapply pub_choose_sound|by apply IH].
Qed.

(** * Theorems *)

Lemma pubnet_reachable_inv w : star pubnet_step new_pubnet w -> pubnet_inv w.
Proof.
  intros Hw. eapply (star_invariant pubnet_step pubnet_inv); [|exact Hw|apply new_pubnet_inv].
  intros w1 w2 Hi Hs. by apply (pubnet_step_spec _ _ Hi Hs).
Qed.

(** The threads of the publisher implement its critical sections: every run of [subscribe],
    [unsubscribe] and [publish] by any number of threads, with the mutex, the waits and the
    wake-ups, is a run of [Events.pub_step]. *)
Theorem publisher_threads_refine w :
  star pubnet_step new_pubnet w -> star any_step new_publisher (d_pub w).
Proof.
  assert (forall w0, star pubnet_step w0 w -> pubnet_inv w0 -> star any_step (d_pub w0) (d_pub w)) as H.
  { induction 1 as [|w0 w1 w2 H1 _ IH]; [constructor|]. intros Hi.
    destruct (pubnet_step_spec _ _ Hi H1) as [Hi1 [Hp|Hp]]; [rewrite <- Hp; auto|].
    eapply star_step; [exact Hp|auto]. }
  intros Hw. apply (H _ Hw), new_pubnet_inv.
Qed.

(** C24. The publisher settles.  Whatever the threads have done, when no more calls are made
    and the callbacks return, every call in progress returns, nested publications, and
    unsubscriptions from within callbacks and against publications of other threads included:
    the threads cannot run for ever, and they come to rest only when all are outside the
    publisher.  No wake-up is lost: a thread sleeps in [unsubscribe] only while a publication is
    in progress, or while the thread that ended the last one is about to notify. *)
Theorem publisher_settles w :
  star pubnet_step new_pubnet w ->
  Acc (fun w' w => settling w w') w /\
  (forall w', star settling w w' -> (forall w'', ~ settling w' w'') -> outside_publisher w') /\
  (forall t, code_of t w = PAsleep -> (0 < in_flight (d_pub w))%nat \/ exists t', code_of t' w = PNotify).
Proof.
  intros Hw. pose proof (pubnet_reachable_inv _ Hw) as Hi. split_and!; [apply settling_terminates| |apply (pn_asleep _ Hi)].
  intros w' Hs Hno. apply stuck_outside.
  - eapply (star_invariant settling pubnet_inv); [|exact Hs|exact Hi]. intros w1 w2 H1 [t H2]. by eapply pub_turn_spec.
  - intros t. destruct (pub_turn t w') as [w''|] eqn:E; [|done]. destruct (Hno w''). by exists t.
Qed.

(** ** Witnesses *)

(** Thread 1 is in the callback (1, 7) and thread 0 sleeps in its unsubscription; then both
    return. *)
Definition demo_sleeping : list pub_choice :=
  CallSubscribe 0 (1, 7) :: replicate 3 (PubTurn 0) ++ CallPublish 1 :: replicate 4 (PubTurn 1)
  ++ CallUnsubscribe 0 (1, 7) :: replicate 3 (PubTurn 0).
Definition demo_settled : list pub_choice :=
  demo_sleeping ++ replicate 6 (PubTurn 1) ++ replicate 3 (PubTurn 0).
Definition demo_pubnet (cs : list pub_choice) : pubnet := default new_pubnet (pub_schedule cs new_pubnet).

Lemma demo_pubnet_reached cs :
  (if pub_schedule cs new_pubnet then true else false) = true -> star pubnet_step new_pubnet (demo_pubnet cs).
Proof.
  unfold demo_pubnet. destruct (pub_schedule cs _) as [w|] eqn:E; [|done]. intros _. by apply pub_schedule_sound with cs.
Qed.

Example demo_settles :
  map_to_list (d_code (demo_pubnet demo_settled)) = [(1, PFree); (0, PFree)]%nat /\
  pthread_of 0 (d_pub (demo_pubnet demo_settled)) = Running [] /\
  subscribers (d_pub (demo_pubnet demo_settled)) = [].
Proof. vm_compute. done. Qed.

Lemma publisher_threads_refine_witness :
  pthread_of 0 (d_pub (demo_pubnet demo_sleeping)) = Draining /\
  star any_step new_publisher (d_pub (demo_pubnet demo_sleeping)).
Proof.
  split; [vm_compute; reflexivity|]. apply publisher_threads_refine, demo_pubnet_reached. vm_compute. reflexivity.
Defined.

Lemma publisher_settles_witness :
  code_of 0 (demo_pubnet demo_sleeping) = PAsleep /\
  ((0 < in_flight (d_pub (demo_pubnet demo_sleeping)))%nat \/
   exists t', code_of t' (demo_pubnet demo_sleeping) = PNotify).
Proof.
  assert (code_of 0 (demo_pubnet demo_sleeping) = PAsleep) as Hs by (vm_compute; reflexivity).
  split; [exact Hs|]. refine (proj2 (proj2 (publisher_settles (demo_pubnet demo_sleeping) _)) 0%nat Hs).
  apply demo_pubnet_reached. vm_compute. reflexivity.
Defined.
