(* ===== verification/Calendar.v ===== *)
(** gmtime_r(3) of the C library, which event_log.cpp and rename_template.cpp call:
    the broken-down UTC time of a count of seconds since the Epoch, in the
    proleptic Gregorian calendar.

    The definition goes by eras of 400 years, each starting on the first of March. *)

From S2P Require Import Prelude.

Record tm := mkTm {
  tm_year : Z;  (* years since 1900 *)
  tm_mon : Z;   (* 0..11 *)
  tm_mday : Z;
  tm_hour : Z;
  tm_min : Z;
  tm_sec : Z
}.

(** Day [doe] of an era that starts on the first of March: (year of era, month,
    day), the year counted from January. *)
Definition civil_of_era_day (doe : Z) : Z * Z * Z :=
  let yoe := (doe - doe / 1460 + doe / 36524 - doe / 146096) / 365 in
  let doy := doe - (365 * yoe + yoe / 4 - yoe / 100) in
  let mp := (5 * doy + 2) / 153 in
  let d := doy - (153 * mp + 2) / 5 + 1 in
  let m := if mp <? 10 then mp + 3 else mp - 9 in
  (if m <=? 2 then yoe + 1 else yoe, m, d).

Definition days_per_era : Z := 146097.

Definition civil_of_days (days : Z) : Z * Z * Z :=
  let z := days + 719468 in
  let '(y, m, d) := civil_of_era_day (z mod days_per_era) in
  (y + 400 * (z / days_per_era), m, d).

(** [None] is the EOVERFLOW failure: the year does not fit in an int. *)
Definition gmtime_r (seconds : Z) : option tm :=
  let '(y, m, d) := civil_of_days (seconds / 86400) in
  let rem := seconds mod 86400 in
  if (-2 ^ 31 <=? y - 1900) && (y - 1900 <? 2 ^ 31) then
    Some (mkTm (y - 1900) (m - 1) d (rem / 3600) (rem / 60 mod 60) (rem mod 60))
  else None.

(** Known instants: the Epoch, the leap day of 2000, the last second before the
    Epoch, and the end of a century year that is not a leap year. *)
Lemma gmtime_known :
  gmtime_r 0 = Some (mkTm 70 0 1 0 0 0) /\
  gmtime_r 951782400 = Some (mkTm 100 1 29 0 0 0) /\
  gmtime_r (-1) = Some (mkTm 69 11 31 23 59 59) /\
  gmtime_r 4107542399 = Some (mkTm 200 1 28 23 59 59) /\
  gmtime_r 4107542400 = Some (mkTm 200 2 1 0 0 0).
Proof. vm_compute. split_and!; reflexivity. Qed.

(** No millisecond timestamp is out of range. *)
Lemma era_day_range doe y m d :
  0 <= doe < days_per_era -> civil_of_era_day doe = (y, m, d) -> -1 <= y <= 401.
Proof.
  unfold civil_of_era_day, days_per_era. intros Hb [= <- _ _].
  assert (0 <= doe / 1460 <= 101) by (Z.to_euclidean_division_equations; lia).
  assert (0 <= doe / 36524 <= 4) by (Z.to_euclidean_division_equations; lia).
  assert (0 <= doe / 146096 <= 1) by (Z.to_euclidean_division_equations; lia).
  set (x := (doe - doe / 1460 + doe / 36524 - doe / 146096) / 365) in *.
  assert (-1 <= x <= 400) by (unfold x; Z.to_euclidean_division_equations; lia). destruct (_ <=? 2); lia.
Qed.

Lemma gmtime_total seconds :
  -2 ^ 63 <= seconds * 1000 < 2 ^ 63 -> is_Some (gmtime_r seconds).
Proof.
  intros Hs. unfold gmtime_r, civil_of_days. set (z := seconds / 86400 + 719468).
  destruct (civil_of_era_day (z mod days_per_era)) as [[y m] d] eqn:E.
  apply era_day_range in E; [|apply Z.mod_pos_bound; unfold days_per_era; lia].
  assert (-9223372036854776 <= seconds <= 9223372036854776) by lia.
  assert (-2 ^ 31 <= y + 400 * (z / days_per_era) - 1900 < 2 ^ 31) as [H1 H2].
  { unfold z, days_per_era in *. split; simpl; Z.to_euclidean_division_equations; lia. }
  rewrite (proj2 (Z.leb_le _ _) H1), (proj2 (Z.ltb_lt _ _) H2). by eexists.
Qed.
