(* ===== verification/EventLog.v ===== *)
(** The log subscriber: src/cpp/src/event_log.cpp and
    src/cpp/include/filemover/event_log.hpp.  [log_event] returns the stream it writes
    and the bytes, or nothing when the event is filtered out. *)

From S2P Require Import Prelude Events Calendar.

Definition ascii_upper (c : ascii) : ascii :=
  if (code "a" <=? code c) && (code c <=? code "z") then chr (code c - code "a" + code "A") else c.
Definition upper (text : bytes) : bytes := map ascii_upper text.

(** [\x%02x] for a control character. *)
Definition escape_control (c : ascii) : bytes :=
  str "\x" ++ [hex_char (code c / 16); hex_char (code c mod 16)].
Definition sanitize (value : bytes) : bytes :=
  flat_map (fun c => if (code c <? 0x20) || (code c =? 0x7f) then escape_control c else [c]) value.

(** ISO 8601 with milliseconds; C++ [/] and [%] truncate, the code then floors. *)
Definition format_stamp (ms : Z) : bytes :=
  let seconds := Z.quot ms 1000 in
  let remainder := Z.rem ms 1000 in
  let '(seconds, remainder) :=
    if remainder <? 0 then (seconds - 1, remainder + 1000) else (seconds, remainder) in
  match gmtime_r seconds with
  | Some p =>
      dec_padded 4 (tm_year p + 1900) ++ str "-" ++ dec_padded 2 (tm_mon p + 1) ++ str "-"
      ++ dec_padded 2 (tm_mday p) ++ str "T" ++ dec_padded 2 (tm_hour p) ++ str ":"
      ++ dec_padded 2 (tm_min p) ++ str ":" ++ dec_padded 2 (tm_sec p) ++ str "."
      ++ dec_padded 3 remainder ++ str "Z"
  | None => str "epoch_ms=" ++ dec_signed ms
  end.

Definition format_event (event : Event) : bytes :=
  format_stamp (timestamp_ms event) ++ str " " ++ severity_to_string (ev_severity event)
  ++ str " " ++ type_to_string (ev_type event)
  ++ (if job_id event == [] then [] else str " job=" ++ sanitize (job_id event))
  ++ (if file_id event == [] then [] else str " file=" ++ sanitize (file_id event))
  ++ (if detail event == [] then [] else str " " ++ sanitize (detail event)).

Record EventLogOptions := mkLogOptions { log_minimum : EventSeverity; log_enabled : bool }.

Inductive stream := Stdout | Stderr.

(** [options] is [None] for a null user pointer. *)
Definition log_event (event : Event) (options : option EventLogOptions) : option (stream * bytes) :=
  match options with
  | None => None
  | Some o =>
      if negb (log_enabled o) then None
      else if negb (severity_at_least (ev_severity event) (log_minimum o)) then None
      else Some (if severity_at_least (ev_severity event) Warning then Stderr else Stdout,
                 c_str (format_event event) ++ [lf])
  end.

(** The new (minimum, enabled), or [None] when the text is no level. *)
Definition parse_severity (text : bytes) (minimum : EventSeverity)
    : option (EventSeverity * bool) :=
  let value := upper text in
  if value == str "OFF" then Some (minimum, false)
  else if value == str "DEBUG" then Some (Debug, true)
  else if value == str "INFO" then Some (Info, true)
  else if value == str "WARNING" then Some (Warning, true)
  else if value == str "ERROR" then Some (ErrorSeverity, true)
  else None.

(** * Lemmas *)

(** Neither a control character nor DEL. *)
Definition printable (c : ascii) : Prop := 0x20 <= code c /\ code c <> 0x7f.
Abbreviation clean := (Forall printable).

Lemma hex_char_printable d : 0 <= d < 16 -> printable (hex_char d).
Proof.
  intros H. unfold printable, hex_char. destruct (Z.ltb_spec d 10); rewrite code_chr; lia.
Qed.

Lemma digit_printable c : is_digit c = true -> printable c.
Proof. unfold is_digit, printable. intros. bool_prop. lia. Qed.

#[export] Instance printable_dec c : Decision (printable c).
Proof. unfold printable. apply _. Defined.

(** A literal is checked by computation. *)
Lemma str_clean (s : bytes) : bool_decide (clean s) = true -> clean s.
Proof. apply bool_decide_eq_true. Qed.

Lemma zeros_clean w s : clean s -> clean (zeros w s).
Proof.
  intros H. apply Forall_app. split; [|done]. apply Forall_replicate. by vm_compute.
Qed.

Lemma dec_clean n : 0 <= n -> clean (dec n).
Proof.
  intros H. eapply Forall_impl; [by apply dec_digits|]. intros c. apply digit_printable.
Qed.

Lemma dec_padded_clean w n : clean (dec_padded w n).
Proof.
  unfold dec_padded. destruct (Z.ltb_spec n 0).
  - constructor; [by vm_compute|]. apply zeros_clean, dec_clean. lia.
  - by apply zeros_clean, dec_clean.
Qed.

Lemma dec_signed_clean n : clean (dec_signed n).
Proof.
  unfold dec_signed. destruct (Z.ltb_spec n 0); [|by apply dec_clean].
  constructor; [by vm_compute|]. apply dec_clean. lia.
Qed.

Lemma sanitize_clean v : clean (sanitize v).
Proof.
  unfold sanitize. induction v as [|c v IH]; simpl; [constructor|]. apply Forall_app. split; [|done].
  destruct (_ || _) eqn:E.
  - pose proof (code_bound c). repeat constructor; try (by vm_compute);
      apply hex_char_printable; Z.to_euclidean_division_equations; lia.
  - constructor; [|constructor]. unfold printable. apply orb_false_iff in E. lia.
Qed.

Lemma stamp_clean ms : clean (format_stamp ms).
Proof.
  unfold format_stamp. destruct (if _ <? 0 then _ else _) as [sec rem].
  destruct (gmtime_r sec) as [p|]; repeat (apply Forall_app; split);
    apply dec_padded_clean || apply dec_signed_clean || (apply str_clean; by vm_compute).
Qed.

Lemma clean_no_nul s : clean s -> nul ∉ s.
Proof.
  rewrite Forall_forall. intros H Hn. destruct (H _ Hn) as [Hl _]. by vm_compute in Hl.
Qed.

Lemma sanitize_id v : clean v -> sanitize v = v.
Proof.
  unfold sanitize. induction 1 as [|c v [H1 H2] _ IH]; simpl; [done|].
  rewrite (proj2 (orb_false_iff _ _)) by lia. by rewrite IH.
Qed.

Lemma field_clean label v : clean label -> clean (if v == [] then [] else label ++ sanitize v).
Proof.
  intros H. destruct (v == []); [constructor|]. apply Forall_app. split; [done|apply sanitize_clean].
Qed.

Lemma format_event_clean event : clean (format_event event).
Proof.
  unfold format_event. apply Forall_app; split; [apply stamp_clean|].
  apply Forall_app; split; [apply str_clean; by vm_compute|].
  apply Forall_app; split; [apply str_clean; by destruct (ev_severity event)|].
  apply Forall_app; split; [apply str_clean; by vm_compute|].
  apply Forall_app; split; [apply str_clean; by destruct (ev_type event)|].
  repeat (apply Forall_app; split); apply field_clean, str_clean; by vm_compute.
Qed.

(** * Properties *)

(** Log injection is impossible: whatever bytes an event carries, and whatever
    its timestamp, the formatted event holds no control character, so it is one
    line and its [c_str] is all of it. *)
Theorem format_event_one_line event :
  Forall printable (format_event event) /\ c_str (format_event event) = format_event event.
Proof.
  split; [apply format_event_clean|]. apply c_str_id, clean_no_nul, format_event_clean.
Qed.

(** [log_event] writes an event exactly when logging is on and the event is at
    least as severe as the minimum; warnings and errors go to the error stream
    and the rest to standard output, one line each. *)
Theorem log_event_filter event o :
  match log_event event (Some o) with
  | Some (s, line) =>
      log_enabled o = true /\ severity_rank (log_minimum o) <= severity_rank (ev_severity event) /\
      (s = Stderr <-> ev_severity event = Warning \/ ev_severity event = ErrorSeverity) /\
      line = format_event event ++ [lf]
  | None =>
      log_enabled o = false \/ severity_rank (ev_severity event) < severity_rank (log_minimum o)
  end.
Proof.
  unfold log_event. destruct (log_enabled o); simpl; [|by left].
  unfold severity_at_least at 1.
  destruct (Z.leb_spec (severity_rank (log_minimum o)) (severity_rank (ev_severity event)));
    simpl; [|by right].
  split_and!; [done|done| |].
  - destruct (ev_severity event); simpl; naive_solver.
  - by rewrite c_str_id by apply clean_no_nul, format_event_clean.
Qed.

(** A level is recognised exactly when its upper-cased text is the name of a
    severity, which is then the minimum, or OFF, which only disables logging. *)
Theorem parse_severity_spec text m m' b :
  parse_severity text m = Some (m', b) <->
  (b = true /\ upper text = severity_to_string m') \/
  (b = false /\ m' = m /\ upper text = str "OFF").
Proof.
  unfold parse_severity. split.
  - intros H. repeat case_match; simplify_eq; bool_prop; auto.
  - intros [[-> ->]|(-> & -> & ->)]; [by destruct m'|done].
Qed.
