(* ===== verification/RenameTemplate.v ===== *)
(** Rename templates: src/cpp/src/rename_template.cpp and
    src/cpp/include/filemover/rename_template.hpp.

    [expand_rename_template] is the scanning loop; [expansion] is the grammar it
    implements, a template being literal characters and the five braced fields. *)

From S2P Require Import Prelude Calendar Kernel FsOps.

Record RenameContext := mkRenameContext { at_ms : Z; sequence : Z }.

(** A leading dot is not an extension separator. *)
Definition split_name (name : bytes) : bytes * bytes :=
  match rfind_char "." name with
  | None | Some O => (name, [])
  | Some dot => (take dot name, drop (S dot) name)
  end.

(** C++ [/] and [%] truncate toward zero. *)
Definition format_ts (at_ms : Z) : bytes :=
  let seconds := Z.quot at_ms 1000 in
  let millis := Z.rem at_ms 1000 in
  match gmtime_r seconds with
  | None => str "INVALID-TIMESTAMP"
  | Some utc =>
      dec_padded 4 (tm_year utc + 1900) ++ dec_padded 2 (tm_mon utc + 1)
      ++ dec_padded 2 (tm_mday utc) ++ str "T" ++ dec_padded 2 (tm_hour utc)
      ++ dec_padded 2 (tm_min utc) ++ dec_padded 2 (tm_sec utc) ++ str "."
      ++ dec_padded 3 millis
  end.

Definition format_seq (sequence : Z) : bytes := dec_padded 6 sequence.

(** The value of a field, [None] for an unknown one. *)
Definition field_value (source_name : bytes) (context : RenameContext) (field : bytes)
    : option bytes :=
  if field == str "name" then Some source_name
  else if field == str "stem" then Some (fst (split_name source_name))
  else if field == str "ext" then Some (snd (split_name source_name))
  else if field == str "ts" then Some (format_ts (at_ms context))
  else if field == str "seq" then Some (format_seq (sequence context))
  else None.

(** The loop; [fuel] bounds the characters left, each iteration consumes one. *)
Fixpoint expand_loop (fuel : nat) (source_name : bytes) (context : RenameContext)
    (templ result : bytes) : Corelib.Init.Datatypes.result bytes bytes :=
  match fuel, templ with
  | _, [] => Ok result
  | O, _ => Error (str "unreachable")
  | S fuel', c :: rest =>
      if negb (Ascii.eqb c "{") then
        if Ascii.eqb c "}" then Error (str "stray '}' in rename template")
        else expand_loop fuel' source_name context rest (result ++ [c])
      else
        match find_char "}" templ with
        | None => Error (str "unclosed '{' in rename template")
        | Some close =>
            let field := take (close - 1) rest in
            match field_value source_name context field with
            | None => Error (qstr "unknown rename template field '{" ++ field ++ qstr "}'")
            | Some v => expand_loop fuel' source_name context (drop close rest) (result ++ v)
            end
        end
  end.

Definition expand_rename_template (templ source_name : bytes) (context : RenameContext)
    : result bytes bytes :=
  match expand_loop (length templ) source_name context templ [] with
  | Error e => Error e
  | Ok result =>
      if (result == []) || (result == str ".") || (result == str "..") then
        Error (str "rename template expands to an invalid name")
      else if contains "/" result || contains nul result then
        Error (str "expanded rename target must not contain '/' or NUL")
      else Ok result
  end.

(** * Specification *)

Inductive expansion (source_name : bytes) (context : RenameContext) : bytes -> bytes -> Prop :=
| expansion_nil : expansion source_name context [] []
| expansion_char c t r :
    c <> "{"%char -> c <> "}"%char -> expansion source_name context t r ->
    expansion source_name context (c :: t) (c :: r)
| expansion_field f v t r :
    "}"%char ∉ f -> field_value source_name context f = Some v ->
    expansion source_name context t r ->
    expansion source_name context ("{"%char :: f ++ "}"%char :: t) (v ++ r).

(** * Lemmas *)

Lemma find_close rest close :
  find_char "}" ("{"%char :: rest) = Some close ->
  exists f t, rest = f ++ "}"%char :: t /\ "}"%char ∉ f /\
              take (close - 1) rest = f /\ drop close rest = t.
Proof.
  intros E. simpl in E. destruct (find_char "}" rest) as [i|] eqn:Ei; [|done]. simplify_eq/=.
  apply find_char_Some in Ei as (f & t & -> & <- & Hf). exists f, t. split_and!; [done|done| |].
  - by rewrite Nat.sub_0_r, take_app_length.
  - rewrite drop_app_ge by lia. by replace (S (length f) - length f)%nat with 1%nat by lia.
Qed.

Lemma unique_close (f f' t t' : bytes) :
  f ++ "}"%char :: t = f' ++ "}"%char :: t' -> "}"%char ∉ f -> "}"%char ∉ f' -> f = f' /\ t = t'.
Proof.
  revert f'. induction f as [|c f IH]; intros [|c' f'] Heq Hf Hf'; simplify_eq/=; try set_solver.
Qed.

Lemma expand_loop_spec src ctx fuel t acc out :
  (length t <= fuel)%nat ->
  expand_loop fuel src ctx t acc = Ok out <-> exists r, out = acc ++ r /\ expansion src ctx t r.
Proof.
  revert t acc. induction fuel as [|fuel IH]; intros [|c rest] acc Hf; simpl in Hf; try lia;
    [simpl; split;
      [intros [= <-]; exists []; split; [by rewrite app_nil_r|constructor]
      |intros (r & -> & Hr); inversion Hr; subst; by rewrite app_nil_r]..|].
  cbn [expand_loop]. destruct (Ascii.eqb_spec c "{") as [->|Hne]; cbn [negb].
  - destruct (find_char "}" _) as [close|] eqn:Ec.
    + apply find_close in Ec as (f & t & -> & Hf' & -> & ->).
      rewrite length_app in Hf. cbn [length] in Hf.
      destruct (field_value src ctx f) as [v|] eqn:Ev.
      * rewrite IH by lia. split.
        -- intros (r & -> & Hr). exists (v ++ r). split; [by rewrite app_assoc|].
           by apply expansion_field.
        -- intros (r & -> & Hr). inversion Hr as [|? ? ? Hn|f' v' t' r' Hn' Hv' Hr' Heq]; subst; [done|].
           apply unique_close in Heq as [-> ->]; [|done|done]. simplify_eq.
           exists r'. by rewrite app_assoc.
      * split; [done|]. intros (r & -> & Hr).
        inversion Hr as [|? ? ? Hn|f' v' t' r' Hn' Hv' Hr' Heq]; subst; [done|].
        apply unique_close in Heq as [-> ->]; [|done|done]. congruence.
    + split; [done|]. intros (r & -> & Hr).
      inversion Hr as [|? ? ? Hn|f' v' t' r' Hn' Hv' Hr' Heq]; subst; [done|].
      apply find_char_None in Ec. set_solver.
  - destruct (Ascii.eqb_spec c "}") as [->|Hne2].
    + split; [done|]. intros (r & -> & Hr). by inversion Hr.
    + rewrite IH by lia. split.
      * intros (r & -> & Hr). exists (c :: r). split; [by rewrite <- app_assoc|]. by constructor.
      * intros (r & -> & Hr). inversion Hr; subst; [|done]. eexists.
        split; [|done]. by rewrite <- app_assoc.
Qed.

Lemma expand_loop_expansion src ctx t out :
  expand_loop (length t) src ctx t [] = Ok out <-> expansion src ctx t out.
Proof. rewrite expand_loop_spec by lia. simpl. naive_solver. Qed.

Lemma expand_Ok templ src ctx out :
  expand_rename_template templ src ctx = Ok out <->
  expansion src ctx templ out /\ is_plain_name out = true.
Proof.
  unfold expand_rename_template, is_plain_name. rewrite <- expand_loop_expansion.
  destruct (expand_loop _ _ _ _ _) as [r|e]; [|split; [done|by intros [? _]]].
  assert (Ok (E := bytes) r = Ok out <-> r = out) as Hr by (split; [by intros [= ->]|by intros ->]).
  rewrite Hr. destruct (_ || _) eqn:E1; [split; [done|intros [-> ?]; by rewrite E1 in *]|].
  destruct (contains "/" r) eqn:E2; simpl;
    [split; [done|intros [-> ?]; by rewrite E1, E2 in *]|].
  destruct (contains nul r) eqn:E3; simpl;
    [split; [done|intros [-> ?]; by rewrite E1, E2, E3 in *]|].
  rewrite Hr. split; [intros ->; by rewrite E1, E2, E3|by intros [? _]].
Qed.

Lemma expansion_literal_field src ctx f v :
  "}"%char ∉ f -> field_value src ctx f = Some v ->
  forall t r, expansion src ctx t r ->
  expansion src ctx ("{"%char :: f ++ "}"%char :: t) (v ++ r).
Proof. intros. by apply expansion_field. Qed.

Lemma split_name_join name :
  snd (split_name name) = [] \/ name = fst (split_name name) ++ "."%char :: snd (split_name name).
Proof.
  unfold split_name. destruct (rfind_char "." name) as [[|i]|] eqn:E; [by left| |by left].
  right. apply rfind_char_Some in E as (pre & post & -> & Hl & _). cbn [fst snd].
  rewrite <- Hl, take_app_length, drop_app_ge by lia.
  by replace (S (length pre) - length pre)%nat with 1%nat by lia.
Qed.

(** * Properties *)


(** Templates can reproduce the source name: [{name}] expands to it, and so does
    [{stem}.{ext}] when the name has an extension, for every plain name. *)
Theorem rename_template_identity name context :
  is_plain_name name = true ->
  expand_rename_template (str "{name}") name context = Ok name /\
  (snd (split_name name) <> [] ->
   expand_rename_template (str "{stem}.{ext}") name context = Ok name).
Proof.
  intros Hp. split.
  - apply expand_Ok. split; [|done]. rewrite <- (app_nil_r name) at 2.
    apply (expansion_field _ _ (str "name") name []); [|done|constructor].
    rewrite <- find_char_None. reflexivity.
  - intros He. apply expand_Ok. split; [|done].
    destruct (split_name_join name) as [|Hj]; [done|]. rewrite Hj at 2.
    apply (expansion_field _ _ (str "stem") _ (str ".{ext}"));
      [rewrite <- find_char_None; reflexivity|reflexivity|].
    apply expansion_char; [done|done|]. rewrite <- (app_nil_r (snd (split_name name))).
    apply (expansion_field _ _ (str "ext") _ []); [|done|constructor].
    rewrite <- find_char_None. reflexivity.
Qed.

Lemma rename_template_identity_witness :
  expand_rename_template (str "{stem}.{ext}") (str "report.tar.gz") (mkRenameContext 0 0)
  = Ok (str "report.tar.gz").
Proof.
  apply (rename_template_identity (str "report.tar.gz") (mkRenameContext 0 0));
    [reflexivity|discriminate].
Defined.

(** A timestamp before the Epoch is formatted with a negative millisecond
    field, one second late: one millisecond before the Epoch expands to
    [19700101T000000.-01]. *)
Theorem format_ts_negative_millis :
  format_ts (-1) = str "19700101T000000.-01".
Proof. vm_compute. reflexivity. Qed.
