(* ===== verification/Config.v ===== *)
(** The INI configuration loader: src/cpp/src/config.cpp and
    src/cpp/include/filemover/config.hpp.

    [line_step] is one iteration of the loop over the lines of the text; the
    loader folds it and then applies the two checks made at the end.  The answer
    of statfs(2) is an argument of [storage_path_is_local]. *)

From S2P Require Import Prelude Events EventLog.

Record Config := mkConfig {
  http_bind : bytes;
  http_port : Z;
  http_max_body_bytes : Z;
  jobs_workers : Z;
  storage_database_path : bytes;
  retry_max_attempts : Z;
  retry_backoff_initial_ms : Z;
  retry_backoff_max_ms : Z;
  logging_level : EventSeverity;
  logging_enabled : bool
}.

Definition default_config : Config :=
  mkConfig (str "127.0.0.1") 8080 65536 4 [] 3 1000 60000 Info true.

(** * Helpers *)

Definition is_ws (c : ascii) : bool :=
  Ascii.eqb c " " || Ascii.eqb c ht || Ascii.eqb c cr.

(** From the first to the last character outside [" \t\r"]. *)
Definition trim (s : bytes) : bytes := strip is_ws s.

Definition at_line (origin : bytes) (line : Z) (message : bytes) : bytes :=
  origin ++ str ":" ++ dec line ++ str ": " ++ message.

Definition ULONG_MAX : Z := 2 ^ 64 - 1.

(** [strtoul(token.c_str(), &end, 10)] after the test for a leading digit; a value
    out of range sets errno to ERANGE. *)
Definition parse_uint (token : bytes) (min_value max_value : Z) : option Z :=
  match token with
  | [] => None
  | c :: _ =>
      if (code c <? code "0") || (code "9" <? code c) then None
      else
        let '(digits, rest) := span_digits (c_str token) in
        let parsed := dec_value digits in
        if ULONG_MAX <? parsed then None
        else if negb (rest == []) then None
        else if (parsed <? min_value) || (max_value <? parsed) then None
        else Some parsed
  end.

(** [IssueLog::joined]. *)
Fixpoint joined (issues : list bytes) : bytes :=
  match issues with
  | [] => []
  | [i] => i
  | i :: rest => i ++ [lf] ++ joined rest
  end.

Definition contains_nul (s : bytes) : bool := contains nul s.

Definition network_magics : list Z :=
  [0x6969; 0xFF534D42; 0x517B; 0xFE534D42; 0x73757245; 0x5346414F; 0x6B414653;
   0x7461636F; 0x01161970; 0x0BD00BD0; 0x00C36400].
Definition is_network_filesystem_magic (magic : Z) : bool := bool_decide (magic ∈ network_magics).

(** [answer]: f_type, or the strerror text of the failure. *)
Definition storage_path_is_local (path : bytes) (answer : result Z bytes) : result unit bytes :=
  match answer with
  | Error msg => Error (path ++ str ": cannot determine filesystem type: " ++ msg)
  | Ok f_type =>
      if is_network_filesystem_magic (wrap_u64 f_type) then
        Error (path ++ str ": the state database must live on a local filesystem; SQLite's locking is unreliable over network filesystems (L2-JOB-008, ADR-0010)")
      else Ok tt
  end.

(** * The loader *)

Record load_state := mkLoad {
  l_cfg : Config;
  l_issues : list bytes;
  l_sections : gset bytes;
  l_keys : gset bytes;
  l_section : bytes;
  l_line : Z
}.

Definition initial_load : load_state := mkLoad default_config [] ∅ ∅ [] 0.

Definition add_issue (msg : bytes) (l : load_state) : load_state :=
  mkLoad (l_cfg l) (l_issues l ++ [msg]) (l_sections l) (l_keys l) (l_section l) (l_line l).
Definition set_cfg (c : Config) (l : load_state) : load_state :=
  mkLoad c (l_issues l) (l_sections l) (l_keys l) (l_section l) (l_line l).

(** One value: the new configuration, or the message. *)
Definition set_value (section key value : bytes) (c : Config) : result Config bytes :=
  if (section == str "http") && (key == str "bind") then
    if (value == []) || contains " " value || contains ht value then
      Error (str "http.bind must be non-empty without whitespace")
    else Ok (mkConfig value (http_port c) (http_max_body_bytes c) (jobs_workers c)
               (storage_database_path c) (retry_max_attempts c) (retry_backoff_initial_ms c)
               (retry_backoff_max_ms c) (logging_level c) (logging_enabled c))
  else if (section == str "http") && (key == str "port") then
    match parse_uint value 1 65535 with
    | None => Error (str "http.port must be an integer in 1..65535")
    | Some n => Ok (mkConfig (http_bind c) (n mod 2 ^ 16) (http_max_body_bytes c) (jobs_workers c)
               (storage_database_path c) (retry_max_attempts c) (retry_backoff_initial_ms c)
               (retry_backoff_max_ms c) (logging_level c) (logging_enabled c))
    end
  else if (section == str "http") && (key == str "max_body_bytes") then
    match parse_uint value 1 16777216 with
    | None => Error (str "http.max_body_bytes must be an integer in 1..16777216")
    | Some n => Ok (mkConfig (http_bind c) (http_port c) (n mod 2 ^ 32) (jobs_workers c)
               (storage_database_path c) (retry_max_attempts c) (retry_backoff_initial_ms c)
               (retry_backoff_max_ms c) (logging_level c) (logging_enabled c))
    end
  else if (section == str "jobs") && (key == str "workers") then
    match parse_uint value 1 64 with
    | None => Error (str "jobs.workers must be an integer in 1..64")
    | Some n => Ok (mkConfig (http_bind c) (http_port c) (http_max_body_bytes c) (n mod 2 ^ 32)
               (storage_database_path c) (retry_max_attempts c) (retry_backoff_initial_ms c)
               (retry_backoff_max_ms c) (logging_level c) (logging_enabled c))
    end
  else if (section == str "storage") && (key == str "database_path") then
    if value == [] then Error (str "storage.database_path must be non-empty")
    else if contains_nul value then
      Error (str "storage.database_path must not contain an embedded NUL")
    else Ok (mkConfig (http_bind c) (http_port c) (http_max_body_bytes c) (jobs_workers c)
               value (retry_max_attempts c) (retry_backoff_initial_ms c)
               (retry_backoff_max_ms c) (logging_level c) (logging_enabled c))
  else if (section == str "retry") && (key == str "max_attempts") then
    match parse_uint value 1 100 with
    | None => Error (str "retry.max_attempts must be an integer in 1..100")
    | Some n => Ok (mkConfig (http_bind c) (http_port c) (http_max_body_bytes c) (jobs_workers c)
               (storage_database_path c) (n mod 2 ^ 32) (retry_backoff_initial_ms c)
               (retry_backoff_max_ms c) (logging_level c) (logging_enabled c))
    end
  else if (section == str "retry") && (key == str "backoff_initial_ms") then
    match parse_uint value 1 3600000 with
    | None => Error (str "retry.backoff_initial_ms must be an integer in 1..3600000")
    | Some n => Ok (mkConfig (http_bind c) (http_port c) (http_max_body_bytes c) (jobs_workers c)
               (storage_database_path c) (retry_max_attempts c) (n mod 2 ^ 32)
               (retry_backoff_max_ms c) (logging_level c) (logging_enabled c))
    end
  else if (section == str "retry") && (key == str "backoff_max_ms") then
    match parse_uint value 1 3600000 with
    | None => Error (str "retry.backoff_max_ms must be an integer in 1..3600000")
    | Some n => Ok (mkConfig (http_bind c) (http_port c) (http_max_body_bytes c) (jobs_workers c)
               (storage_database_path c) (retry_max_attempts c) (retry_backoff_initial_ms c)
               (n mod 2 ^ 32) (logging_level c) (logging_enabled c))
    end
  else if (section == str "logging") && (key == str "level") then
    match parse_severity value Info with
    | None => Error (str "logging.level must be one of DEBUG, INFO, WARNING, ERROR, OFF")
    | Some (level, enabled) =>
        Ok (mkConfig (http_bind c) (http_port c) (http_max_body_bytes c) (jobs_workers c)
               (storage_database_path c) (retry_max_attempts c) (retry_backoff_initial_ms c)
               (retry_backoff_max_ms c) level enabled)
    end
  else Error (qstr "unknown key '" ++ key ++ qstr "' in [" ++ section ++ str "]").

Definition known_section (name : bytes) : bool :=
  (name == str "http") || (name == str "jobs") || (name == str "storage")
  || (name == str "retry") || (name == str "logging").

(** A line that starts with [[]. *)
Definition section_line (origin line : bytes) (l : load_state) : load_state :=
  if (slen line <? 3) || negb (bool_decide (last line = Some "]"%char)) then
    add_issue (at_line origin (l_line l) (str "malformed section header")) l
  else
    let name := trim (take (length line - 2) (drop 1 line)) in
    if name == [] then add_issue (at_line origin (l_line l) (str "empty section name")) l
    else if bool_decide (name ∈ l_sections l) then
      add_issue (at_line origin (l_line l) (str "duplicate section [" ++ name ++ str "]")) l
    else
      let l1 := mkLoad (l_cfg l) (l_issues l) ({[name]} ∪ l_sections l) (l_keys l) name (l_line l) in
      if negb (known_section name) then
        add_issue (at_line origin (l_line l) (str "unknown section [" ++ name ++ str "]")) l1
      else l1.

(** A line that is neither blank, nor a comment, nor a header. *)
Definition entry_line (origin line : bytes) (l : load_state) : load_state :=
  match find_char "=" line with
  | None =>
      add_issue (at_line origin (l_line l) (str "expected 'key = value' or section header")) l
  | Some eq =>
      if l_section l == [] then
        add_issue (at_line origin (l_line l) (str "entry before any section header")) l
      else
        let key := trim (take eq line) in
        let value := trim (drop (S eq) line) in
        if key == [] then add_issue (at_line origin (l_line l) (str "empty key")) l
        else
          let qualified := l_section l ++ str "." ++ key in
          if bool_decide (qualified ∈ l_keys l) then
            add_issue (at_line origin (l_line l)
              (qstr "duplicate key '" ++ key ++ qstr "' in [" ++ l_section l ++ str "]")) l
          else
            let l1 := mkLoad (l_cfg l) (l_issues l) (l_sections l) ({[qualified]} ∪ l_keys l)
                        (l_section l) (l_line l) in
            match set_value (l_section l) key value (l_cfg l) with
            | Error msg => add_issue (at_line origin (l_line l) msg) l1
            | Ok c => set_cfg c l1
            end
  end.

Definition line_step (origin : bytes) (l : load_state) (raw : bytes) : load_state :=
  let l := mkLoad (l_cfg l) (l_issues l) (l_sections l) (l_keys l) (l_section l) (l_line l + 1) in
  let line := trim raw in
  match line with
  | [] => l
  | c :: _ =>
      if Ascii.eqb c ";" || Ascii.eqb c "#" then l
      else if Ascii.eqb c "[" then section_line origin line l
      else entry_line origin line l
  end.

Definition final_checks (origin : bytes) (l : load_state) : load_state :=
  let c := l_cfg l in
  let l1 := if storage_database_path c == [] then
              add_issue (origin ++ str ": missing required parameter storage.database_path") l
            else l in
  if retry_backoff_max_ms c <? retry_backoff_initial_ms c then
    add_issue (origin ++ str ": retry.backoff_initial_ms (" ++ dec (retry_backoff_initial_ms c)
               ++ str ") must not exceed retry.backoff_max_ms (" ++ dec (retry_backoff_max_ms c)
               ++ str ")") l1
  else l1.

Definition load_config_from_string (text origin : bytes) : result Config bytes :=
  let l := final_checks origin (foldl (line_step origin) initial_load (getlines text)) in
  match l_issues l with
  | [] => Ok (l_cfg l)
  | issues => Error (joined issues)
  end.

(** [contents] is what the file holds, or the strerror text of the failed open. *)
Definition load_config_file (path : bytes) (contents : result bytes bytes) : result Config bytes :=
  match contents with
  | Error msg => Error (path ++ str ": cannot open: " ++ msg)
  | Ok text => load_config_from_string text path
  end.

(** * Lemmas *)

Lemma parse_uint_Some token lo hi n :
  parse_uint token lo hi = Some n <->
  c_str token <> [] /\ Forall (fun c => is_digit c = true) (c_str token) /\
  n = dec_value (c_str token) /\ lo <= n <= hi /\ n <= ULONG_MAX.
Proof.
  unfold parse_uint. destruct token as [|c token].
  { split; [done|]. intros [? _]. done. }
  assert (is_digit c = negb ((code c <? code "0") || (code "9" <? code c))) as Hd.
  { unfold is_digit. change (code "0") with 48. change (code "9") with 57. lia. }
  destruct (_ || _) eqn:Er; simpl in Hd.
  - split; [done|]. intros (Hne & Hall & _). rewrite c_str_cons in Hne, Hall.
    destruct (Ascii.eqb c nul); [done|]. inversion Hall. congruence.
  - destruct (span_digits (c_str (c :: token))) as [d r] eqn:Es.
    split.
    + apply span_digits_spec in Es as (Heq & Hall & _).
      destruct (Z.ltb_spec ULONG_MAX (dec_value d)); [done|].
      destruct (r == []) eqn:Erest; simpl; [|done]. bool_prop. subst r.
      rewrite app_nil_r in Heq. rewrite Heq.
      destruct (_ || _) eqn:Eb; [done|]. apply orb_false_iff in Eb. intros [= <-].
      split_and!; try done; try lia. intros ->.
      rewrite c_str_cons in Heq. destruct (Ascii.eqb_spec c nul) as [->|]; [|done].
      by vm_compute in Hd.
    + intros (Hne & Hall & -> & Hb & Hu). rewrite (span_digits_all _ Hall) in Es.
      injection Es as <- <-. rewrite (proj2 (Z.ltb_ge _ _)) by lia. simpl.
      rewrite (proj2 (orb_false_iff _ _)) by lia. done.
Qed.

Lemma parse_uint_range token lo hi n : parse_uint token lo hi = Some n -> lo <= n <= hi.
Proof. by intros (_ & _ & _ & ? & _)%parse_uint_Some. Qed.

(** What holds of the configuration while the file is read. *)
Definition ranges_ok (c : Config) : Prop :=
  http_bind c <> [] /\ " "%char ∉ http_bind c /\ ht ∉ http_bind c /\
  1 <= http_port c <= 65535 /\ 1 <= http_max_body_bytes c <= 16777216 /\
  1 <= jobs_workers c <= 64 /\ nul ∉ storage_database_path c /\
  1 <= retry_max_attempts c <= 100 /\
  1 <= retry_backoff_initial_ms c <= 3600000 /\ 1 <= retry_backoff_max_ms c <= 3600000.

Lemma default_ranges_ok : ranges_ok default_config.
Proof.
  unfold ranges_ok. simpl.
  split_and!; try lia; try done; rewrite <- find_char_None; reflexivity.
Qed.

Lemma set_value_ranges s k v c c' : ranges_ok c -> set_value s k v c = Ok c' -> ranges_ok c'.
Proof.
  intros Hr. unfold set_value.
  repeat match goal with
  | |- (if (_ == _) && (_ == _) then _ else _) = _ -> _ => destruct (_ && _)
  | |- match parse_uint v ?lo ?hi with _ => _ end = _ -> _ =>
      destruct (parse_uint v lo hi) as [n|] eqn:En; [apply parse_uint_range in En|done]
  | |- match parse_severity v Info with _ => _ end = _ -> _ =>
      destruct (parse_severity v Info) as [[]|]; [|done]
  end; try (by intros).
  all: try (intros [= <-]; unfold ranges_ok in *; simpl;
            rewrite ?Z.mod_small by lia; tauto || (intuition lia)).
  - destruct (v == []) eqn:E0; simpl; [done|]. destruct (contains " " v) eqn:E1; simpl; [done|].
    destruct (contains ht v) eqn:E2; [done|]. intros [= <-]. bool_prop.
    apply contains_false in E1, E2. unfold ranges_ok in *. simpl. tauto.
  - destruct (v == []); [done|]. destruct (contains_nul v) eqn:E; [done|]. intros [= <-].
    apply contains_false in E. unfold ranges_ok in *. simpl. tauto.
Qed.

Lemma line_step_ranges origin l raw : ranges_ok (l_cfg l) -> ranges_ok (l_cfg (line_step origin l raw)).
Proof.
  intros Hr. unfold line_step. destruct (trim raw) as [|c line]; [done|].
  destruct (_ || _); [done|]. destruct (Ascii.eqb c "[").
  - unfold section_line. by repeat case_match.
  - unfold entry_line. destruct (find_char _ _); [|done].
    repeat (case_match; [done|]). destruct (set_value _ _ _ _) eqn:E; simpl; [|done].
    by eapply set_value_ranges.
Qed.

Lemma lines_ranges origin ls l :
  ranges_ok (l_cfg l) -> ranges_ok (l_cfg (foldl (line_step origin) l ls)).
Proof.
  revert l. induction ls as [|raw ls IH]; intros l Hr; simpl; [done|].
  by apply IH, line_step_ranges.
Qed.

Lemma line_step_issues origin l raw :
  exists more, l_issues (line_step origin l raw) = l_issues l ++ more.
Proof.
  unfold line_step. destruct (trim raw) as [|c line]; [exists []; by rewrite app_nil_r|].
  destruct (_ || _); [exists []; by rewrite app_nil_r|].
  destruct (Ascii.eqb c "["); unfold section_line, entry_line;
    repeat case_match; simpl; eauto; exists []; by rewrite app_nil_r.
Qed.

Lemma lines_issues origin ls l :
  exists more, l_issues (foldl (line_step origin) l ls) = l_issues l ++ more.
Proof.
  revert l. induction ls as [|raw ls IH]; intros l; simpl; [exists []; by rewrite app_nil_r|].
  destruct (IH (line_step origin l raw)) as [m1 H1].
  destruct (line_step_issues origin l raw) as [m2 H2].
  exists (m2 ++ m1). by rewrite H1, H2, app_assoc.
Qed.

Lemma final_issues origin l : exists more, l_issues (final_checks origin l) = l_issues l ++ more.
Proof.
  unfold final_checks. repeat case_match; simpl; rewrite <- ?app_assoc; eauto.
  exists []. by rewrite app_nil_r.
Qed.

(** * Properties *)



(** [parse_uint] reads the characters before the first NUL: it yields a number
    exactly when they are non-empty, all decimal digits, and their value lies in
    the bounds and in an unsigned long. *)
Theorem parse_uint_spec token lo hi n :
  parse_uint token lo hi = Some n <->
  c_str token <> [] /\ Forall (fun c => is_digit c = true) (c_str token) /\
  n = dec_value (c_str token) /\ lo <= n <= hi /\ n <= ULONG_MAX.
Proof. apply parse_uint_Some. Qed.

(** Hence a token is not checked as a whole: [80<NUL>junk] is accepted as 80. *)
Theorem parse_uint_accepts_nul :
  parse_uint (str "80" ++ [nul] ++ str "junk") 1 65535 = Some 80.
Proof. vm_compute. reflexivity. Qed.

(** ** Witnesses *)

Definition demo_config : bytes :=
  str "[storage]" ++ [lf] ++ str "database_path = /var/lib/fm.db" ++ [lf]
  ++ str "[http]" ++ [lf] ++ str "port = 0" ++ [lf] ++ str "verbose = yes" ++ [lf].


