(* ===== verification/Manager.v ===== *)
(** The job manager: src/cpp/src/manager.cpp and
    src/cpp/include/filemover/manager.hpp.

    [manager] is the state behind [Impl::mutex].  Every command is split where the
    code releases that mutex: the claim (first critical section), the durable step
    (store calls, made under [store_mutex] and never under the mutex), and the
    settlement (last critical section).  The sequential commands compose them as
    the code does; Dispatch.v interleaves them with the workers, and Threads.v has the
    mutexes, the condition variable and the lock-depth assertion.

    What a worker does with the mutex released, [worker_body], is a program of kernel and
    store calls.  The clock is an argument. *)

From S2P Require Import Prelude Job Store Kernel Crash FsOps Mover Events Config.

(** * Data *)

Inductive CommandResult := CmdOk | UnknownJob | InvalidState | NotRunning | StoreError.

#[export] Instance CommandResult_eq_dec : EqDecision CommandResult.
Proof. solve_decision. Defined.

Definition command_to_string (r : CommandResult) : bytes :=
  match r with
  | CmdOk => str "OK" | UnknownJob => str "UNKNOWN_JOB" | InvalidState => str "INVALID_STATE"
  | NotRunning => str "NOT_RUNNING" | StoreError => str "STORE_ERROR"
  end.

Record manager := mkManager {
  m_config : Config;
  m_strategy : MoveStrategy;
  runnable : list bytes;
  requests : gmap bytes MoveRequest;
  waiting : gmap bytes Z;
  paused : gset bytes;
  active : gset bytes;
  pending : gset bytes;
  running : bool;
  stopping : bool
}.

Definition new_manager (cfg : Config) : manager :=
  mkManager cfg RenameNoReplace [] ∅ ∅ ∅ ∅ ∅ false false.

Definition set_queues (run : list bytes) (wait : gmap bytes Z) (pau act : gset bytes)
    (m : manager) : manager :=
  mkManager (m_config m) (m_strategy m) run (requests m) wait pau act (pending m)
    (running m) (stopping m).
Definition set_known (reqs : gmap bytes MoveRequest) (run : list bytes) (pend : gset bytes)
    (m : manager) : manager :=
  mkManager (m_config m) (m_strategy m) run reqs (waiting m) (paused m) (active m) pend
    (running m) (stopping m).

(** An event handed to the publisher; its timestamp is read from the wall clock. *)
Notation emission := (EventType * EventSeverity * bytes * bytes)%type.

(** A refused command: the result and the error text. *)
Notation refusal := (CommandResult * bytes)%type.

Definition not_running : refusal := (NotRunning, str "manager: not running").
Definition no_such_job (job_id : bytes) : refusal :=
  (UnknownJob, str "manager: no such job '" ++ job_id ++ str "'").

(** * Helpers *)

(** The default clock. *)
Definition monotonic_now (monotonic : option (Z * Z)) : Z := clock_ms monotonic.

(** The id without a trailing [-retry-<digits>]. *)
Definition strip_retry_suffix (id : bytes) : bytes :=
  let marker := str "-retry-" in
  match rfind_sub marker id with
  | None => id
  | Some at_ =>
      let first := (at_ + length marker)%nat in
      if (length id <=? first)%nat then id
      else if forallb is_digit (drop first id) then take at_ id else id
  end.

(** The doubling loop of [backoff_for], [fuel] iterations at most. *)
Fixpoint backoff_loop (fuel : nat) (i attempts delay max_ms : Z) : Z :=
  match fuel with
  | O => delay
  | S f => if (i <? attempts) && (delay <? max_ms)
           then backoff_loop f (i + 1) attempts (delay * 2) max_ms else delay
  end.
Definition backoff_for (attempts initial_ms max_ms : Z) : Z :=
  let delay := backoff_loop (Z.to_nat attempts) 1 attempts initial_ms max_ms in
  if max_ms <? delay then max_ms else delay.

(** Removes the first occurrence; tells whether there was one. *)
Fixpoint take_runnable (job_id : bytes) (q : list bytes) : bool * list bytes :=
  match q with
  | [] => (false, [])
  | x :: q' => if x == job_id then (true, q')
               else let '(b, r) := take_runnable job_id q' in (b, x :: r)
  end.

(** * Worker *)

(** The critical section that takes a job; [None] when the queue is empty. *)
Definition worker_take (m : manager) : option (bytes * MoveRequest * manager) :=
  match runnable m with
  | [] => None
  | job_id :: rest =>
      let request := default (mkRequest [] [] [] []) (requests m !! job_id) in
      let reqs := if decide (requests m !! job_id = None)
                  then <[job_id := request]> (requests m) else requests m in
      Some (job_id, request,
            mkManager (m_config m) (m_strategy m) rest reqs (waiting m) (paused m)
              ({[job_id]} ∪ active m) (pending m) (running m) (stopping m))
  end.

(** The event that reports how the run ended. *)
Definition outcome_event (outcome : MoveOutcome) (reschedule : bool) (job_id error : bytes)
    : emission :=
  if reschedule then (JobRetryScheduled, Warning, job_id, error)
  else match outcome with
       | Completed => (JobCompleted, Info, job_id, [])
       | HaltedAfterCommit => (JobHaltedAfterCommit, ErrorSeverity, job_id, error)
       | FailedExternal => (JobFailedExternal, ErrorSeverity, job_id, error)
       | Rejected | AbortedBeforeCommit => (JobFailed, ErrorSeverity, job_id, error)
       end.

(** ** With the mutex released, on the worker's own connection *)

Section Worker.
Context {fs : Type} `{!Kernel fs}.
Local Open Scope prog_scope.
Local Abbreviation P := (prog fs engine).

Definition fail_permanently (job_id reason : bytes) : P unit :=
  store_call (record_attempt job_id 0 reason) ;;;
  l <-- store_load job_id ;;
  match l with
  | Ok (Some job) =>
      if bool_decide (state job = Failed) then ret tt
      else
        store_call (update_state job_id Failed (updated_at_ms job + 1) reason) ;;;
        ret tt
  | _ => ret tt
  end.

(** [Some due] is a retry to schedule. *)
Definition handle_failure (cfg : Config) (job_id failure : bytes) (now_ms : Z) : P (option Z) :=
  r <-- store_call (load_retry_state job_id) ;;
  match r with
  | Ok (Some st) =>
      let attempts := (Store.attempts st + 1) mod 2 ^ 32 in
      if attempts <? retry_max_attempts cfg then
        let due := now_ms + backoff_for attempts (retry_backoff_initial_ms cfg)
                              (retry_backoff_max_ms cfg) in
        w <-- store_call (record_attempt job_id due failure) ;;
        ret (match w with Ok _ => Some due | Error _ => None end)
      else
        fail_permanently job_id
          (str "gave up after " ++ dec attempts ++ str " attempts: " ++ failure) ;;;
        ret None
  | _ => ret None
  end.

(** The engine, then the failure handling its outcome asks for: the retry to schedule and
    the event that reports the run. *)
Definition worker_body (cfg : Config) (strategy : MoveStrategy) (job_id : bytes)
    (request : MoveRequest) (now_ms : Z) : P (option Z * emission) :=
  x <-- execute job_id request strategy ;;
  let '(outcome, error) := x in
  due <-- match outcome with
          | AbortedBeforeCommit => handle_failure cfg job_id error now_ms
          | Rejected => fail_permanently job_id error ;;; ret None
          | _ => ret None
          end ;;
  ret (due, outcome_event outcome (bool_decide (is_Some due)) job_id error).

(** The same without anyone else between the calls, and the two events. *)
Definition worker_run (cfg : Config) (strategy : MoveStrategy) (job_id : bytes)
    (request : MoveRequest) (now_ms : Z) (f : fs) (s : JobStore)
    : option Z * list emission * fs * JobStore :=
  let '(r, w) := worker_body cfg strategy job_id request now_ms (mkWorld f (mkEngine s []) None) in
  match r with
  | Some (due, e) => (due, [(JobStarted, Info, job_id, []); e], w_fs w, e_store (w_ext w))
  | None => (None, [], w_fs w, e_store (w_ext w))
  end.
End Worker.

(** The critical section after the run. *)
Definition worker_settle (job_id : bytes) (due : option Z) (m : manager) : manager :=
  set_queues (runnable m)
    (match due with Some d => <[job_id := d]> (waiting m) | None => waiting m end)
    (paused m) (active m ∖ {[job_id]}) m.

(** * Commands *)

(** ** submit *)

Definition submit_claim (job_id : bytes) (m : manager) : result manager refusal :=
  if negb (running m) then Error not_running
  else if bool_decide (is_Some (requests m !! job_id)) || bool_decide (job_id ∈ pending m) then
    Error (InvalidState, str "manager: job '" ++ job_id ++ str "' already exists")
  else Ok (set_known (requests m) (runnable m) ({[job_id]} ∪ pending m) m).

Definition request_job (job_id : bytes) (r : MoveRequest) (now_ms : Z) : Job :=
  new_job job_id (source_dir r ++ str "/" ++ source_name r) (dest_dir r ++ str "/" ++ dest_name r)
    now_ms.

(** Settlement of [submit] and of [retry]. *)
Definition submit_settle (job_id : bytes) (request : MoveRequest) (recorded : bool) (m : manager)
    : manager :=
  if recorded then
    set_known (<[job_id := request]> (requests m)) (runnable m ++ [job_id])
      (pending m ∖ {[job_id]}) m
  else set_known (requests m) (runnable m) (pending m ∖ {[job_id]}) m.

Definition submit_id (job_id : bytes) (request : MoveRequest) (now_ms : Z) (m : manager)
    (s : JobStore) : refusal * list emission * manager * JobStore :=
  match submit_claim job_id m with
  | Error e => (e, [], m, s)
  | Ok m1 =>
      let '(r, s1) := record_intent (request_job job_id request now_ms) s in
      match r with
      | Error e => ((StoreError, e), [], submit_settle job_id request false m1, s1)
      | Ok _ => ((CmdOk, []), [(JobSubmitted, Info, job_id, [])],
                 submit_settle job_id request true m1, s1)
      end
  end.

(** The id is allocated from the durable sequence; it is returned on success. *)
Definition submit (request : MoveRequest) (now_ms : Z) (m : manager) (s : JobStore)
    : refusal * bytes * list emission * manager * JobStore :=
  if negb (running m) then (not_running, [], [], m, s)
  else
    let '(q, s1) := next_sequence s in
    match q with
    | Error e => ((StoreError, e), [], [], m, s1)
    | Ok sequence =>
        let allocated := str "job-" ++ dec sequence in
        let '(r, evs, m2, s2) := submit_id allocated request now_ms m s1 in
        (r, if bool_decide (fst r = CmdOk) then allocated else [], evs, m2, s2)
    end.

(** ** pause, resume: one critical section each *)

Definition pause (job_id : bytes) (m : manager) : result manager refusal :=
  if negb (running m) then Error not_running
  else if bool_decide (requests m !! job_id = None) then Error (no_such_job job_id)
  else if bool_decide (job_id ∈ active m) then
    Error (InvalidState, str "manager: job '" ++ job_id
                         ++ str "' is already in flight and cannot be paused mid-move")
  else Ok (set_queues (snd (take_runnable job_id (runnable m))) (delete job_id (waiting m))
             ({[job_id]} ∪ paused m) (active m) m).

Definition resume (job_id : bytes) (m : manager) : result manager refusal :=
  if negb (running m) then Error not_running
  else if bool_decide (requests m !! job_id = None) then Error (no_such_job job_id)
  else if bool_decide (job_id ∉ paused m) then
    Error (InvalidState, str "manager: job '" ++ job_id ++ str "' is not paused")
  else Ok (set_queues (runnable m ++ [job_id]) (waiting m) (paused m ∖ {[job_id]}) (active m) m).

(** ** cancel *)

Definition cancel_claim (job_id : bytes) (m : manager) : result (bool * manager) refusal :=
  if negb (running m) then Error not_running
  else if bool_decide (requests m !! job_id = None) then Error (no_such_job job_id)
  else if bool_decide (job_id ∈ active m) then
    Error (InvalidState, str "manager: job '" ++ job_id
             ++ str "' is in flight; a move past its commit point is not interruptible")
  else
    let '(was_runnable, run) := take_runnable job_id (runnable m) in
    Ok (was_runnable,
        set_queues run (delete job_id (waiting m)) (paused m ∖ {[job_id]}) (active m) m).

Definition cancel_durable (job_id : bytes) (s : JobStore) : refusal * JobStore :=
  let '(l, s1) := load job_id s in
  match l with
  | Error e => ((UnknownJob, e), s1)
  | Ok None => ((UnknownJob, []), s1)
  | Ok (Some job) =>
      if negb (bool_decide (state job = Queued)) then
        ((InvalidState, str "manager: job '" ++ job_id ++ str "' is " ++ to_string (state job)
                        ++ str " and cannot be cancelled"), s1)
      else
        let '(u, s2) := update_state job_id Failed (updated_at_ms job + 1)
                          (str "cancelled by operator") s1 in
        match u with
        | Error e => ((StoreError, e), s2)
        | Ok _ => ((CmdOk, []), s2)
        end
  end.

(** A refused cancel gives the job back, if it came from the queue. *)
Definition cancel_settle (job_id : bytes) (outcome : CommandResult) (was_runnable : bool)
    (m : manager) : manager :=
  if negb (bool_decide (outcome = CmdOk)) && was_runnable then
    set_queues (runnable m ++ [job_id]) (waiting m) (paused m) (active m) m
  else m.

Definition cancel (job_id : bytes) (m : manager) (s : JobStore)
    : refusal * list emission * manager * JobStore :=
  match cancel_claim job_id m with
  | Error e => (e, [], m, s)
  | Ok (was_runnable, m1) =>
      let '(r, s1) := cancel_durable job_id s in
      (r, if bool_decide (fst r = CmdOk) then [(JobCancelled, Info, job_id, [])] else [],
       cancel_settle job_id (fst r) was_runnable m1, s1)
  end.

(** ** retry *)

Definition retry_claim (job_id : bytes) (m : manager) : result MoveRequest refusal :=
  if negb (running m) then Error not_running
  else match requests m !! job_id with
       | None => Error (no_such_job job_id)
       | Some r => Ok r
       end.

(** Only a FAILED job can be retried. *)
Definition retry_check (job_id : bytes) (s : JobStore) : result unit refusal * JobStore :=
  let '(l, s1) := load job_id s in
  match l with
  | Ok (Some job) =>
      if bool_decide (state job = Failed) then (Ok tt, s1)
      else (Error (InvalidState, str "manager: job '" ++ job_id ++ str "' is "
                     ++ to_string (state job) ++ str "; only a FAILED job can be retried"), s1)
  | _ => (Error (no_such_job job_id), s1)
  end.

Definition retry_candidate (job_id : bytes) (n : Z) : bytes :=
  strip_retry_suffix job_id ++ str "-retry-" ++ dec n.

(** The critical section that reserves a candidate the store does not have. *)
Definition retry_reserve (candidate : bytes) (m : manager) : option manager :=
  if bool_decide (is_Some (requests m !! candidate)) || bool_decide (candidate ∈ pending m)
  then None
  else Some (set_known (requests m) (runnable m) ({[candidate]} ∪ pending m) m).

(** The search for a free id, from [n] on; [None] when the fuel runs out. *)
Fixpoint retry_search (fuel : nat) (job_id : bytes) (n : Z) (m : manager) (s : JobStore)
    : option (result (bytes * manager) refusal) * JobStore :=
  match fuel with
  | O => (None, s)
  | S f =>
      let candidate := retry_candidate job_id n in
      let '(l, s1) := load candidate s in
      match l with
      | Error e => (Some (Error (StoreError, e)), s1)
      | Ok (Some _) => retry_search f job_id (n + 1) m s1
      | Ok None =>
          match retry_reserve candidate m with
          | Some m1 => (Some (Ok (candidate, m1)), s1)
          | None => retry_search f job_id (n + 1) m s1
          end
      end
  end.

(** Enough fuel for any search: every failed attempt names a stored job, a known
    request or a pending id, and no two attempts name the same. *)
Definition retry_fuel (m : manager) (s : JobStore) : nat :=
  S (size (job_table (db s)) + size (requests m) + size (pending m)).

Definition retry (job_id : bytes) (now_ms : Z) (m : manager) (s : JobStore)
    : option (refusal * bytes * list emission * manager * JobStore) :=
  match retry_claim job_id m with
  | Error e => Some (e, [], [], m, s)
  | Ok move =>
      let '(c, s1) := retry_check job_id s in
      match c with
      | Error e => Some (e, [], [], m, s1)
      | Ok _ =>
          let '(f, s2) := retry_search (retry_fuel m s1) job_id 1 m s1 in
          match f with
          | None => None
          | Some (Error e) => Some (e, [], [], m, s2)
          | Some (Ok (candidate, m1)) =>
              let '(r, s3) := record_intent_retry (request_job candidate move now_ms) job_id s2 in
              match r with
              | Error e => Some ((StoreError, e), [], [], submit_settle candidate move false m1, s3)
              | Ok _ =>
                  Some ((CmdOk, []), candidate,
                        [(JobRetrySubmitted, Info, candidate, str "retry_of=" ++ job_id)],
                        submit_settle candidate move true m1, s3)
              end
          end
      end
  end.

(** ** pump *)

(** The due ids in the order of the map's keys. *)
Definition due_ids (now_ms : Z) (m : manager) : list bytes :=
  merge_sort bytes_le
    (map_to_list (filter (fun kv => kv.2 <= now_ms /\ kv.1 ∉ paused m) (waiting m))).*1.

Definition pump (now_ms : Z) (m : manager) : Z * bytes * manager :=
  if negb (running m) then (0, snd not_running, m)
  else
    let due := due_ids now_ms m in
    (Z.of_nat (length due), [],
     set_queues (runnable m ++ due) (foldr delete (waiting m) due) (paused m) (active m) m).

(** ** start, shutdown, wait_idle *)

Definition mark_started (m : manager) : manager :=
  mkManager (m_config m) (m_strategy m) (runnable m) (requests m) (waiting m) (paused m)
    (active m) (pending m) true false.

Definition set_strategy (strategy : MoveStrategy) (m : manager) : manager :=
  mkManager (m_config m) strategy (runnable m) (requests m) (waiting m) (paused m) (active m)
    (pending m) (running m) (stopping m).

(** [answers] is what opening the database file answers. *)
Definition start (store_path : bytes) (answers : open_answers) (m : manager) (s : JobStore)
    : result Z bytes * manager * JobStore :=
  if running m then (Ok 0, m, s)
  else
    let '(r, s1) := Store.open store_path answers s in
    match r with
    | Error e => (Error e, m, s1)
    | Ok _ =>
        (* the number of worker threads spawned *)
        (Ok (if 0 <? jobs_workers (m_config m) then jobs_workers (m_config m) else 1),
         mark_started m, s1)
    end.

(** Under the mutex; the workers are joined and the store closed afterwards. *)
Definition shutdown_begin (m : manager) : option manager :=
  if negb (running m) then None
  else Some (mkManager (m_config m) (m_strategy m) (runnable m) (requests m) (waiting m)
               (paused m) (active m) (pending m) false true).

(** A worker returns when the queue is empty and the manager stops. *)
Definition worker_exits (m : manager) : bool :=
  bool_decide (runnable m = []) && stopping m.

Definition idle (m : manager) : bool :=
  bool_decide (runnable m = []) && bool_decide (active m = ∅).

(** * Lemmas on the helpers *)

Lemma backoff_loop_spec fuel i a d mx :
  0 <= i -> 0 <= d -> (Z.to_nat (a - i) <= fuel)%nat ->
  Z.min (backoff_loop fuel i a d mx) mx = Z.min (d * 2 ^ Z.max 0 (a - i)) mx.
Proof.
  revert i d. induction fuel as [|f IH]; intros i d Hi Hd Hf; simpl.
  - replace (Z.max 0 (a - i)) with 0 by lia. by rewrite Z.mul_1_r.
  - destruct (Z.ltb_spec i a) as [Hia|Hia]; simpl.
    + destruct (Z.ltb_spec d mx) as [Hm|Hm].
      * rewrite IH by lia. f_equal. replace (Z.max 0 (a - i)) with (Z.succ (Z.max 0 (a - (i + 1)))) by lia.
        rewrite Z.pow_succ_r by lia. lia.
      * assert (1 <= 2 ^ Z.max 0 (a - i)) by (apply (Z.pow_le_mono_r 2 0); lia).
        rewrite (Z.min_r d) by lia. rewrite Z.min_r by nia. done.
    + replace (Z.max 0 (a - i)) with 0 by lia. by rewrite Z.mul_1_r.
Qed.

Lemma backoff_for_min attempts initial mx :
  1 <= attempts -> 0 <= initial ->
  backoff_for attempts initial mx = Z.min (initial * 2 ^ (attempts - 1)) mx.
Proof.
  intros Ha Hi. unfold backoff_for.
  pose proof (backoff_loop_spec (Z.to_nat attempts) 1 attempts initial mx ltac:(lia) Hi ltac:(lia)) as H.
  rewrite Z.max_r in H by lia. rewrite <- H. destruct (Z.ltb_spec mx (backoff_loop (Z.to_nat attempts) 1 attempts initial mx)); lia.
Qed.

(** ** Occurrences in the queues *)

Definition b2n (b : bool) : nat := if b then 1%nat else O.

Fixpoint count (x : bytes) (q : list bytes) : nat :=
  match q with [] => O | y :: q' => (b2n (y == x) + count x q')%nat end.

(** In how many places the manager holds [x] for dispatch. *)
Definition occ (m : manager) (x : bytes) : nat :=
  (count x (runnable m) + b2n (bool_decide (is_Some (waiting m !! x)))
   + b2n (bool_decide (x ∈ paused m)) + b2n (bool_decide (x ∈ active m)))%nat.

Lemma count_app x q1 q2 : count x (q1 ++ q2) = (count x q1 + count x q2)%nat.
Proof. induction q1; simpl; lia. Qed.

Lemma count_perm x q1 q2 : q1 ≡ₚ q2 -> count x q1 = count x q2.
Proof. induction 1; simpl; lia. Qed.

Lemma count_not_in x q : x ∉ q -> count x q = O.
Proof.
  induction q as [|y q IH]; simpl; [done|]. intros [Hy Hq]%not_elem_of_cons. unfold beq.
  rewrite bool_decide_eq_false_2, IH by done. done.
Qed.

Lemma count_one x y : count x [y] = b2n (bool_decide (y = x)).
Proof. simpl. unfold beq. lia. Qed.

Lemma take_runnable_count id q b r x :
  take_runnable id q = (b, r) ->
  count x q = (count x r + (if decide (x = id) then b2n b else 0))%nat /\
  (b = false -> count id q = O).
Proof.
  revert b r. induction q as [|y q IH]; intros b r; simpl.
  - intros [= <- <-]. simpl. case_decide; auto.
  - destruct (y == id) eqn:E.
    + intros [= <- <-]. bool_prop. subst. simpl. split; [|done]. unfold beq.
      case_decide; subst; [rewrite bool_decide_eq_true_2 by done|rewrite bool_decide_eq_false_2 by done];
        simpl; lia.
    + destruct (take_runnable id q) as [b' r'] eqn:Et. intros [= <- <-]. simpl.
      destruct (IH b' r' eq_refl) as [H1 H2]. split; [lia|]. intros Hb. rewrite (H2 Hb). done.
Qed.

(** ** The database under the manager *)

(** Well-formed, and every recorded job is still there. *)
Definition grows (d d' : database) : Prop :=
  db_wf d' /\ forall k, is_Some (view d !! k) -> is_Some (view d' !! k).

Lemma grows_refl d : db_wf d -> grows d d.
Proof. done. Qed.
Lemma grows_trans d1 d2 d3 : grows d1 d2 -> grows d2 d3 -> grows d1 d3.
Proof. intros [? H1] [? H2]. split; auto. Qed.

Lemma grows_advanced d d' : advanced d d' -> grows d d'.
Proof.
  intros [Hw Hs]. split; [done|]. intros k [j Hj].
  destruct (star_spec_monotone _ _ _ _ Hs Hj) as (j' & ? & _). by exists j'.
Qed.

Lemma advanced_refl d : db_wf d -> advanced d d.
Proof. intros. split; [done|constructor]. Qed.

Lemma grows_op o s : db_wf (db s) -> grows (db s) (db (run_op o s)).
Proof. intros Hw. by apply grows_advanced, advanced_op, advanced_refl. Qed.

(** Opening the file that is there shows the same jobs. *)
Lemma grows_open path a s :
  db_wf (db s) -> file_content a = db s -> grows (db s) (db (snd (Store.open path a s))).
Proof.
  intros Hw Hf. destruct (Store.open path a s) as [r s'] eqn:E. simpl.
  assert (job_table (db s') = job_table (db s)) as Ht by (apply open_content in E; by rewrite Hf in E; destruct E).
  unfold grows, db_wf, view. by rewrite Ht.
Qed.

(** Every store call of a worker's body only advances jobs, whatever runs in between. *)
Section WorkerKeeps.
Context {fs : Type} `{!Kernel fs} (d0 : database).
Local Abbreviation P := (prog fs engine).

Lemma keeps_attempt id due reason :
  keeps (engine_advanced d0) (store_call (record_attempt id due reason) : P _).
Proof. by apply (keeps_store_call d0 (OpRecordAttempt id due reason)). Qed.
Lemma keeps_update id to now msg :
  keeps (engine_advanced d0) (store_call (update_state id to now msg) : P _).
Proof. by apply (keeps_store_call d0 (OpUpdateState id to now msg)). Qed.
Lemma keeps_load_retry id : keeps (engine_advanced d0) (store_call (load_retry_state id) : P _).
Proof. by apply (keeps_store_call d0 (OpLoadRetry id)). Qed.
Local Hint Resolve keeps_attempt keeps_update keeps_load_retry keeps_load keeps_execute : fm.

Lemma keeps_fail_permanently id reason :
  keeps (engine_advanced d0) (fail_permanently id reason : P _).
Proof. unfold fail_permanently. keeps_walk. Qed.
Local Hint Resolve keeps_fail_permanently : fm.
Lemma keeps_handle_failure cfg id failure now :
  keeps (engine_advanced d0) (handle_failure cfg id failure now : P _).
Proof. unfold handle_failure. keeps_walk. Qed.
Local Hint Resolve keeps_handle_failure : fm.
Lemma keeps_worker_body cfg st id req now :
  keeps (engine_advanced d0) (worker_body cfg st id req now : P _).
Proof. unfold worker_body. keeps_walk. Qed.
End WorkerKeeps.

Lemma cancel_durable_grows id s r s' :
  db_wf (db s) -> cancel_durable id s = (r, s') -> grows (db s) (db s').
Proof.
  intros Hw. unfold cancel_durable. pose proof (grows_op (OpLoad id) s Hw) as H1. simpl in H1.
  destruct (load id s) as [l s1]. simpl in H1.
  destruct l as [[job|]|]; [|intros [= <- <-]; done|intros [= <- <-]; done].
  case_bool_decide; simpl; [|intros [= <- <-]; done].
  pose proof (grows_op (OpUpdateState id Failed (updated_at_ms job + 1)
    (str "cancelled by operator")) s1 (proj1 H1)) as H2. simpl in H2.
  destruct (update_state id Failed _ _ s1) as [[] s2]; intros [= <- <-];
    by eapply grows_trans.
Qed.

Lemma retry_check_grows id s r s' :
  db_wf (db s) -> retry_check id s = (r, s') -> grows (db s) (db s').
Proof.
  intros Hw. unfold retry_check. pose proof (grows_op (OpLoad id) s Hw) as H1. simpl in H1.
  destruct (load id s) as [l s1]. simpl in H1.
  destruct l as [[job|]|]; [case_bool_decide|..]; intros [= <- <-]; done.
Qed.

(** A recorded intent is in the database. *)
Lemma intent_recorded job retry s r s' :
  db_wf (db s) -> record_intent_retry job retry s = (r, s') ->
  grows (db s) (db s') /\ (is_ok r = true -> is_Some (view (db s') !! c_str (id job))).
Proof.
  intros Hw E. pose proof (grows_op (OpRecordIntent job retry) s Hw) as Hg. simpl in Hg.
  rewrite E in Hg. split; [done|]. apply record_intent_spec in E as [_ Hr].
  destruct r; [|done]. destruct Hr as (_ & _ & ->). intros _.
  rewrite view_lookup. simpl. rewrite lookup_insert_eq. simpl. by rewrite row_of_job_decode.
Qed.

(** * The invariant of the queues *)

Record queue_inv (m : manager) : Prop := {
  q_once x : (occ m x <= 1)%nat;
  q_known x : occ m x <> O -> is_Some (requests m !! x);
  q_pending x : x ∈ pending m -> requests m !! x = None
}.

(** ** Each critical section keeps the queues consistent *)

(** Case split of the places of [x]. *)
Ltac occ_cases :=
  unfold occ, b2n in *; simpl in *;
  repeat match goal with
  | |- context [bool_decide ?P] => destruct (bool_decide_reflect P)
  | H : context [bool_decide ?P] |- _ => destruct (bool_decide_reflect P)
  end.

Lemma occ_unknown m x : queue_inv m -> requests m !! x = None -> occ m x = O.
Proof.
  intros [_ Hk _] Hr. destruct (occ m x) eqn:E; [done|]. destruct (Hk x); congruence.
Qed.

Lemma submit_claim_Ok id m m1 :
  submit_claim id m = Ok m1 ->
  m1 = set_known (requests m) (runnable m) ({[id]} ∪ pending m) m /\
  requests m !! id = None /\ id ∉ pending m.
Proof.
  unfold submit_claim. destruct (running m); simpl; [|done].
  case_bool_decide as H1; simpl; [done|]. case_bool_decide as H2; [done|]. intros [= <-].
  split_and!; [done| |done]. by apply eq_None_not_Some.
Qed.

Lemma queue_inv_claim id m :
  queue_inv m -> requests m !! id = None ->
  queue_inv (set_known (requests m) (runnable m) ({[id]} ∪ pending m) m).
Proof.
  intros [] Hr. split; [done|done|]. simpl. intros x [->%elem_of_singleton|?]%elem_of_union; auto.
Qed.

Lemma queue_inv_settle id req b m :
  queue_inv m -> id ∈ pending m -> queue_inv (submit_settle id req b m).
Proof.
  intros Hq Hp. pose proof (q_pending _ Hq id Hp) as Hn. pose proof (occ_unknown _ _ Hq Hn) as H0.
  destruct Hq as [Ho Hk Hpe]. unfold submit_settle. destruct b.
  - assert (forall x, occ (set_known (<[id := req]> (requests m)) (runnable m ++ [id])
        (pending m ∖ {[id]}) m) x = (occ m x + b2n (bool_decide (id = x)))%nat) as Hocc.
    { intros x. unfold occ. simpl. rewrite count_app, count_one. lia. }
    split.
    + intros x. rewrite Hocc. specialize (Ho x). case_bool_decide; subst; simpl; lia.
    + intros x. rewrite Hocc. simpl. destruct (decide (id = x)) as [->|Hne].
      * by rewrite lookup_insert_eq.
      * rewrite bool_decide_eq_false_2, lookup_insert_ne by done. simpl. intros. apply Hk. lia.
    + simpl. intros x Hx. rewrite lookup_insert_ne by set_solver. apply Hpe. set_solver.
  - split; [done|done|]. simpl. intros x Hx. apply Hpe. set_solver.
Qed.

(** Moving jobs between queues, or dropping them. *)
Lemma queue_inv_move m m' :
  queue_inv m -> requests m' = requests m -> pending m' = pending m ->
  (forall x, (occ m' x <= occ m x)%nat \/ ((occ m' x <= 1)%nat /\ is_Some (requests m !! x))) ->
  queue_inv m'.
Proof.
  intros [Ho Hk Hp] Hr Hpe Hx. split; rewrite ?Hr, ?Hpe; [| |done].
  - intros x. specialize (Ho x). destruct (Hx x) as [?|[? _]]; lia.
  - intros x Hn. destruct (Hx x) as [?|[_ ?]]; [|done]. apply Hk. lia.
Qed.

Lemma pause_Ok id m m1 :
  pause id m = Ok m1 ->
  is_Some (requests m !! id) /\ id ∉ active m /\
  m1 = set_queues (snd (take_runnable id (runnable m))) (delete id (waiting m))
         ({[id]} ∪ paused m) (active m) m.
Proof.
  unfold pause. destruct (running m); simpl; [|done].
  case_bool_decide as H1; [done|]. case_bool_decide as H2; [done|]. intros [= <-].
  split_and!; [by apply not_eq_None_Some|done|done].
Qed.

Lemma queue_inv_pause id m m1 : queue_inv m -> pause id m = Ok m1 -> queue_inv m1.
Proof.
  intros Hq (Hr & Ha & ->)%pause_Ok. apply (queue_inv_move m); [done..|]. intros x.
  pose proof (q_once _ Hq x) as Ho. destruct (take_runnable id (runnable m)) as [b r] eqn:Et.
  destruct (take_runnable_count _ _ _ _ x Et) as [Hc Hb].
  destruct (decide (x = id)) as [->|Hne].
  - right. split; [|done]. unfold occ in *. simpl. rewrite lookup_delete_eq.
    rewrite (bool_decide_eq_false_2 (is_Some None)) by apply is_Some_None.
    rewrite (bool_decide_eq_false_2 (id ∈ active m)) by done.
    rewrite bool_decide_eq_true_2 by set_solver. simpl.
    destruct b; [simpl in Hc; lia|]. specialize (Hb eq_refl). lia.
  - left. unfold occ. simpl. rewrite lookup_delete_ne by done.
    rewrite (bool_decide_ext (x ∈ {[id]} ∪ paused m) (x ∈ paused m)) by set_solver. lia.
Qed.

Lemma resume_Ok id m m1 :
  resume id m = Ok m1 ->
  is_Some (requests m !! id) /\ id ∈ paused m /\
  m1 = set_queues (runnable m ++ [id]) (waiting m) (paused m ∖ {[id]}) (active m) m.
Proof.
  unfold resume. destruct (running m); simpl; [|done].
  case_bool_decide as H1; [done|]. case_bool_decide as H2; [done|]. intros [= <-].
  split_and!; [by apply not_eq_None_Some|done|done].
Qed.

Lemma queue_inv_resume id m m1 : queue_inv m -> resume id m = Ok m1 -> queue_inv m1.
Proof.
  intros Hq (Hr & Hp & ->)%resume_Ok. apply (queue_inv_move m); [done..|]. intros x. left.
  unfold occ. simpl. rewrite count_app, count_one. destruct (decide (id = x)) as [->|Hne].
  - rewrite (bool_decide_eq_true_2 (x ∈ paused m)), (bool_decide_eq_true_2 (x = x)) by done.
    rewrite (bool_decide_eq_false_2 (x ∈ _ ∖ _)) by set_solver. simpl. lia.
  - rewrite (bool_decide_eq_false_2 (id = x)) by done.
    rewrite (bool_decide_ext (x ∈ paused m ∖ {[id]}) (x ∈ paused m)) by set_solver. simpl. lia.
Qed.

Lemma cancel_claim_Ok id m b m1 :
  cancel_claim id m = Ok (b, m1) ->
  m1 = set_queues (snd (take_runnable id (runnable m))) (delete id (waiting m))
         (paused m ∖ {[id]}) (active m) m /\ b = fst (take_runnable id (runnable m)) /\
  id ∉ active m /\ is_Some (requests m !! id).
Proof.
  unfold cancel_claim. destruct (running m); simpl; [|done].
  case_bool_decide as H1; [done|]. case_bool_decide as H2; [done|].
  destruct (take_runnable id (runnable m)). intros [= <- <-].
  split_and!; [done|done|done|by apply not_eq_None_Some].
Qed.

Lemma queue_inv_cancel id m b m1 : queue_inv m -> cancel_claim id m = Ok (b, m1) -> queue_inv m1.
Proof.
  intros Hq (-> & _ & _)%cancel_claim_Ok. apply (queue_inv_move m); [done..|]. intros x. left.
  destruct (take_runnable id (runnable m)) as [b' r] eqn:Et.
  destruct (take_runnable_count _ _ _ _ x Et) as [Hc _]. unfold occ. simpl.
  destruct (decide (x = id)) as [->|Hne].
  - rewrite lookup_delete_eq, (bool_decide_eq_false_2 (is_Some None)) by apply is_Some_None.
    rewrite (bool_decide_eq_false_2 (id ∈ _ ∖ _)) by set_solver. simpl. lia.
  - rewrite lookup_delete_ne by done.
    rewrite (bool_decide_ext (x ∈ paused m ∖ {[id]}) (x ∈ paused m)) by set_solver. lia.
Qed.

Lemma lookup_foldr_delete (l : list bytes) (w : gmap bytes Z) x :
  foldr delete w l !! x = if decide (x ∈ l) then None else w !! x.
Proof.
  induction l as [|y l IH]; simpl; [done|].
  destruct (decide (y = x)) as [->|Hne].
  - by rewrite lookup_delete_eq, decide_True by set_solver.
  - rewrite lookup_delete_ne, IH by done.
    destruct (decide (x ∈ l)), (decide (x ∈ y :: l)); set_solver.
Qed.

Lemma count_nodup x l : NoDup l -> count x l = b2n (bool_decide (x ∈ l)).
Proof.
  induction 1 as [|y l Hy Hn IH]; simpl; [done|].
  rewrite IH. unfold beq. destruct (decide (y = x)) as [->|Hne].
  - rewrite (bool_decide_eq_true_2 (x = x)), (bool_decide_eq_false_2 (x ∈ l)) by done.
    by rewrite bool_decide_eq_true_2 by set_solver.
  - rewrite (bool_decide_eq_false_2 (y = x)) by done. simpl. f_equal. apply bool_decide_ext. set_solver.
Qed.

Lemma due_ids_spec now m x :
  x ∈ due_ids now m <-> exists due, waiting m !! x = Some due /\ due <= now /\ x ∉ paused m.
Proof.
  unfold due_ids. rewrite merge_sort_Permutation, list_elem_of_fmap. split.
  - intros ([k v] & -> & Hin%elem_of_map_to_list). apply map_lookup_filter_Some in Hin as [? [? ?]].
    simpl in *. eauto.
  - intros (due & Hw & Hd & Hp). exists (x, due). split; [done|]. apply elem_of_map_to_list.
    by apply map_lookup_filter_Some.
Qed.

Lemma due_ids_nodup now m : NoDup (due_ids now m).
Proof.
  unfold due_ids. rewrite merge_sort_Permutation. apply NoDup_fst_map_to_list.
Qed.

Lemma queue_inv_pump now m : queue_inv m -> queue_inv (snd (pump now m)).
Proof.
  intros Hq. unfold pump. destruct (running m); [|done]. simpl.
  apply (queue_inv_move m); [done..|]. intros x. left. unfold occ. simpl.
  rewrite count_app, (count_nodup x (due_ids now m)) by apply due_ids_nodup.
  rewrite lookup_foldr_delete. destruct (decide (x ∈ due_ids now m)) as [Hx|Hx].
  - rewrite (bool_decide_eq_true_2 (x ∈ due_ids now m)) by done.
    apply due_ids_spec in Hx as (due & Hw & _).
    rewrite Hw, (bool_decide_eq_false_2 (is_Some None)) by apply is_Some_None.
    rewrite (bool_decide_eq_true_2 (is_Some (Some due))) by done. simpl. lia.
  - rewrite (bool_decide_eq_false_2 (x ∈ due_ids now m)) by done. simpl. lia.
Qed.

Lemma worker_take_Some m id req m1 :
  queue_inv m -> worker_take m = Some (id, req, m1) ->
  exists rest, runnable m = id :: rest /\ id ∉ active m /\ requests m !! id = Some req /\
    m1 = set_queues rest (waiting m) (paused m) ({[id]} ∪ active m) m.
Proof.
  intros Hq. unfold worker_take. destruct (runnable m) as [|y rest] eqn:Er; [done|].
  assert (occ m y <> O) as Hn by (unfold occ; rewrite Er; simpl; rewrite beq_refl; simpl; lia).
  destruct (q_known _ Hq y Hn) as [r Hr]. rewrite Hr. rewrite decide_False by done.
  intros [= <- <- <-]. exists rest. split_and!; [done| |done|].
  - pose proof (q_once _ Hq y) as Ho. unfold occ in Ho. rewrite Er in Ho. simpl in Ho.
    rewrite beq_refl in Ho. intros Ha. rewrite (bool_decide_eq_true_2 (y ∈ active m)) in Ho by done.
    simpl in Ho. lia.
  - done.
Qed.

Lemma queue_inv_take m id req m1 :
  queue_inv m -> worker_take m = Some (id, req, m1) -> queue_inv m1.
Proof.
  intros Hq Ht. destruct (worker_take_Some _ _ _ _ Hq Ht) as (rest & Er & Ha & Hr & ->).
  apply (queue_inv_move m); [done..|]. intros x. left. unfold occ. simpl. rewrite Er. simpl.
  unfold beq. destruct (decide (id = x)) as [->|Hne].
  - rewrite (bool_decide_eq_true_2 (x = x)), (bool_decide_eq_false_2 (x ∈ active m)) by done.
    rewrite (bool_decide_eq_true_2 (x ∈ {[x]} ∪ active m)) by set_solver. simpl. lia.
  - rewrite (bool_decide_eq_false_2 (id = x)) by done.
    rewrite (bool_decide_ext (x ∈ {[id]} ∪ active m) (x ∈ active m)) by set_solver. simpl. lia.
Qed.

Lemma queue_inv_worked id due m :
  queue_inv m -> id ∈ active m -> queue_inv (worker_settle id due m).
Proof.
  intros Hq Ha. apply (queue_inv_move m); [done..|]. intros x. left.
  pose proof (q_once _ Hq x) as Ho. unfold occ in *. simpl.
  destruct (decide (x = id)) as [->|Hne].
  - rewrite (bool_decide_eq_true_2 (id ∈ active m)) in * by done.
    rewrite (bool_decide_eq_false_2 (id ∈ _ ∖ _)) by set_solver. simpl in *.
    destruct due as [d|]; [|lia]. rewrite lookup_insert_eq, bool_decide_eq_true_2 by done.
    simpl. destruct (bool_decide (is_Some (waiting m !! id))); simpl in *; lia.
  - rewrite (bool_decide_ext (x ∈ active m ∖ {[id]}) (x ∈ active m)) by set_solver.
    destruct due as [d|]; [|done]. rewrite lookup_insert_ne by done. done.
Qed.

(** ** The ids the manager holds *)

(** The manager holds [x] for dispatch, or a worker runs it. *)
Definition held (m : manager) (x : bytes) : Prop :=
  x ∈ runnable m \/ is_Some (waiting m !! x) \/ x ∈ paused m \/ x ∈ active m.

Lemma take_runnable_subset id q x : x ∈ snd (take_runnable id q) -> x ∈ q.
Proof.
  induction q as [|y q IH]; simpl; [done|]. destruct (y == id); simpl; [set_solver|].
  destruct (take_runnable id q). simpl in *. set_solver.
Qed.

Lemma held_pump now m x : held (snd (pump now m)) x -> held m x.
Proof.
  unfold pump. destruct (running m); [|done]. unfold held. simpl.
  rewrite elem_of_app, due_ids_spec, lookup_foldr_delete. case_decide as Hd.
  - apply due_ids_spec in Hd as (due & Hw & _). rewrite Hw. intros _. right; left. by eexists.
  - intros [[?|(due & -> & _)]|?]; [by left|right; left; by eexists|by right].
Qed.

Lemma held_queues run wait pau act m x :
  held (set_queues run wait pau act m) x <->
  x ∈ run \/ is_Some (wait !! x) \/ x ∈ pau \/ x ∈ act.
Proof. done. Qed.

(** What each critical section adds to the ids held: only an id with a request. *)
Lemma held_settle id req m x :
  held (submit_settle id req true m) x -> held m x \/ x = id.
Proof.
  unfold held. simpl. rewrite elem_of_app, list_elem_of_singleton.
  intros [[?| ->]|?]; [left; by left|by right|left; by right].
Qed.

Lemma held_removed id m x wait pau :
  (forall v, wait !! x = Some v -> waiting m !! x = Some v) -> (x ∈ pau -> x ∈ paused m \/ x = id) ->
  held (set_queues (snd (take_runnable id (runnable m))) wait pau (active m) m) x -> held m x \/ x = id.
Proof.
  intros Hw Hp. rewrite held_queues. unfold held.
  intros [?%take_runnable_subset|[[v Hv%Hw]|[[?|?]%Hp|?]]]; eauto 10.
Qed.

Lemma held_appended id m x pau :
  pau ⊆ paused m -> held (set_queues (runnable m ++ [id]) (waiting m) pau (active m) m) x ->
  held m x \/ x = id.
Proof.
  intros Hp. rewrite held_queues, elem_of_app, list_elem_of_singleton. unfold held.
  intros [[?| ->]|[?|[?%Hp|?]]]; auto 10.
Qed.

Lemma held_worked id due m x : held (worker_settle id due m) x -> held m x \/ x = id.
Proof.
  unfold worker_settle. rewrite held_queues. unfold held.
  intros [?|[Hd|[?|?%elem_of_difference]]]; [auto| |auto|left; naive_solver].
  destruct due as [d|]; [|auto]. destruct (decide (x = id)) as [->|?]; [auto|].
  rewrite lookup_insert_ne in Hd by done. auto.
Qed.

(** A worker takes an id that was queued. *)
Lemma worker_take_known m id req m1 :
  (forall x, held m x -> is_Some (requests m !! x)) -> worker_take m = Some (id, req, m1) ->
  is_Some (requests m !! id) /\ requests m1 = requests m /\ forall x, held m1 x -> held m x.
Proof.
  intros Hk. unfold worker_take. destruct (runnable m) as [|y rest] eqn:Er; [done|].
  destruct (Hk y) as [q Hq]; [left; rewrite Er; set_solver|].
  rewrite Hq, decide_False by done. intros [= <- <- <-]. split_and!; [by eexists|done|].
  intros x. unfold held. simpl. rewrite Er. set_solver.
Qed.

(** ** The search for a retry id *)

Lemma strip_prefix id : exists rest, id = strip_retry_suffix id ++ rest.
Proof.
  unfold strip_retry_suffix. destruct (rfind_sub _ id) as [i|]; [|exists []; by rewrite app_nil_r].
  destruct (_ <=? _)%nat; [exists []; by rewrite app_nil_r|].
  destruct (forallb _ _); [|exists []; by rewrite app_nil_r].
  exists (drop i id). by rewrite take_drop.
Qed.

Lemma retry_candidate_no_nul id n : 0 <= n -> nul ∉ id -> nul ∉ retry_candidate id n.
Proof.
  intros Hn Hid. destruct (strip_prefix id) as [rest Hr]. unfold retry_candidate.
  rewrite !not_elem_of_app. split_and!; [rewrite Hr in Hid; set_solver| |].
  - rewrite <- find_char_None. reflexivity.
  - intros Hin. pose proof (dec_digits n Hn) as Hd. rewrite Forall_forall in Hd.
    apply Hd in Hin. by vm_compute in Hin.
Qed.

Lemma retry_candidate_inj id n k : 0 <= n -> 0 <= k ->
  retry_candidate id n = retry_candidate id k -> n = k.
Proof.
  unfold retry_candidate. intros Hn Hk H. apply (inj (app _)) in H. apply (inj (app _)) in H.
  by apply dec_inj.
Qed.

(** The ids that are in use. *)
Definition taken_ids (m : manager) (d : database) : gset bytes :=
  dom (job_table d) ∪ dom (requests m) ∪ pending m.

Lemma retry_search_spec fuel id n m s r s' :
  nul ∉ id -> 0 <= n -> retry_search fuel id n m s = (r, s') ->
  db s' = db s /\
  match r with
  | None => forall k, n <= k < n + Z.of_nat fuel -> retry_candidate id k ∈ taken_ids m (db s)
  | Some (Error (c, e)) => c = StoreError /\ e <> []
  | Some (Ok (c, m1)) =>
      view (db s) !! c_str c = None /\ requests m !! c = None /\ c ∉ pending m /\
      m1 = set_known (requests m) (runnable m) ({[c]} ∪ pending m) m
  end.
Proof.
  intros Hid. revert n s. induction fuel as [|f IH]; intros n s Hn; simpl.
  { intros [= <- <-]. split; [done|]. lia. }
  destruct (load (retry_candidate id n) s) as [l s1] eqn:El.
  apply load_spec in El as [(Hd & _) Hl].
  destruct l as [[j|]|e].
  - destruct Hl as [_ Hl]. intros Hs. apply IH in Hs as [Hd' Hr]; [|lia].
    split; [congruence|]. rewrite Hd in Hr. destruct r as [[[]|[]]|]; [done|done|].
    intros k Hk. destruct (decide (k = n)) as [->|]; [|apply Hr; lia].
    unfold taken_ids. rewrite !elem_of_union, !elem_of_dom. left; left.
    rewrite c_str_id in Hl by (by apply retry_candidate_no_nul). rewrite view_lookup in Hl.
    by destruct (job_table (db s) !! retry_candidate id n).
  - destruct Hl as [_ Hl]. unfold retry_reserve.
    assert (retry_search f id (n + 1) m s1 = (r, s') -> retry_candidate id n ∈ taken_ids m (db s) ->
      db s' = db s /\ match r with
      | None => forall k, n <= k < n + Z.of_nat (S f) -> retry_candidate id k ∈ taken_ids m (db s)
      | Some (Error (c, e)) => c = StoreError /\ e <> []
      | Some (Ok (c, m1)) =>
          view (db s) !! c_str c = None /\ requests m !! c = None /\ c ∉ pending m /\
          m1 = set_known (requests m) (runnable m) ({[c]} ∪ pending m) m
      end) as Hrec.
    { intros Hs Ht. apply IH in Hs as [Hd' Hr]; [|lia]. split; [congruence|].
      rewrite Hd in Hr. destruct r as [[[]|[]]|]; [done|done|].
      intros k Hk. destruct (decide (k = n)) as [->|]; [done|]. apply Hr. lia. }
    case_bool_decide as H1; simpl.
    { intros Hs. apply Hrec; [done|]. unfold taken_ids. rewrite !elem_of_union, !elem_of_dom. auto. }
    case_bool_decide as H2; simpl.
    { intros Hs. apply Hrec; [done|]. unfold taken_ids. rewrite !elem_of_union. auto. }
    intros [= <- <-]. split_and!; [done|done|by apply eq_None_not_Some|done|done].
  - intros [= <- <-]. done.
Qed.

Lemma size_union_bound (X Y : gset bytes) : (size (X ∪ Y) <= size X + size Y)%nat.
Proof.
  rewrite size_union_alt. assert (Y ∖ X ⊆ Y) as H by set_solver. apply subseteq_size in H. lia.
Qed.

Lemma retry_search_fuel id m s r s' :
  nul ∉ id -> retry_search (retry_fuel m s) id 1 m s = (r, s') -> r <> None.
Proof.
  intros Hid Hs ->. apply retry_search_spec in Hs as [_ Ht]; [|done|lia].
  set (l := map (fun k => retry_candidate id (Z.of_nat k)) (seq 1 (retry_fuel m s))).
  assert (NoDup l) as Hnd.
  { apply NoDup_fmap_2_strong; [|apply NoDup_seq].
    intros a b _ _ H. apply retry_candidate_inj in H; lia. }
  assert (l ⊆+ elements (taken_ids m (db s))) as Hsub.
  { apply NoDup_submseteq; [done|]. intros x. unfold l. rewrite list_elem_of_fmap.
    intros (k & -> & Hk%elem_of_seq). apply elem_of_elements, Ht. lia. }
  apply submseteq_length in Hsub. unfold l in Hsub. rewrite length_map, length_seq in Hsub.
  change (length (elements (taken_ids m (db s)))) with (size (taken_ids m (db s))) in Hsub.
  unfold taken_ids, retry_fuel in Hsub.
  pose proof (size_union_bound (dom (job_table (db s)) ∪ dom (requests m)) (pending m)).
  pose proof (size_union_bound (dom (job_table (db s))) (dom (requests m))).
  rewrite !size_dom in *. lia.
Qed.

Lemma rfind_marker_digits ds :
  Forall (fun c => is_digit c = true) ds -> rfind_sub (str "-retry-") ds = None.
Proof.
  induction 1 as [|c ds Hc _ IH]; [done|]. cbn [rfind_sub]. rewrite IH.
  change (str "-retry-") with ("-"%char :: str "retry-"). cbn [starts_with].
  destruct (Ascii.eqb_spec "-" c) as [<-|]; [by vm_compute in Hc|done].
Qed.

Lemma rfind_marker root ds :
  Forall (fun c => is_digit c = true) ds ->
  rfind_sub (str "-retry-") (root ++ str "-retry-" ++ ds) = Some (length root).
Proof.
  intros Hd. induction root as [|c root IH]; cbn [app length].
  - change (str "-retry-" ++ ds)
      with ("-"%char :: "r"%char :: "e"%char :: "t"%char :: "r"%char :: "y"%char :: "-"%char :: ds).
    pose proof (rfind_marker_digits ds Hd) as Hn.
    assert (starts_with (str "-retry-") ("-"%char :: ds) = false) as Hs.
    { change (str "-retry-") with ("-"%char :: "r"%char :: str "etry-"). cbn [starts_with].
      destruct ds as [|d ds]; [done|]. cbn [starts_with].
      destruct (Ascii.eqb_spec "r" d) as [<-|]; [|done]. inversion Hd. by vm_compute in *. }
    cbn [rfind_sub]. rewrite Hn, Hs. reflexivity.
  - cbn [rfind_sub]. by rewrite IH.
Qed.

Lemma strip_candidate root n : 0 <= n ->
  strip_retry_suffix (root ++ str "-retry-" ++ dec n) = root.
Proof.
  intros Hn. pose proof (dec_digits n Hn) as Hd. unfold strip_retry_suffix.
  rewrite rfind_marker by done. rewrite (proj2 (Nat.leb_gt _ _)).
  - rewrite app_assoc, drop_app_length' by (by rewrite length_app).
    rewrite (proj2 (forallb_forall _ _)); [by rewrite <- app_assoc, take_app_length|].
    intros c Hc. rewrite Forall_forall in Hd. by apply Hd, list_elem_of_In.
  - rewrite !length_app. pose proof (dec_nonempty n). destruct (dec n); [done|]. simpl. lia.
Qed.

(** ** Exhausted retries *)

Lemma load_retry_spec key s r s' :
  load_retry_state key s = (r, s') ->
  same_file s s' /\
  match r with
  | Ok (Some st) => exists row, job_table (db s) !! c_str key = Some row /\
      Store.attempts st = wrap_i32 (r_attempts row)
  | _ => True
  end.
Proof.
  unfold load_retry_state. destruct (is_open s) eqn:Ho; simpl; [|intros [= <- <-]; done].
  destruct (sql_read _ _ _ s) as [q s1] eqn:E. apply sql_read_spec in E as [Hs Hq].
  destruct q as [[rw|]|e]; intros [= <- <-]; split; try done. exists rw. split; [congruence|done].
Qed.

(** * Properties *)

(** The retry delay is the initial backoff doubled once per earlier attempt
    and capped (L2-RTY-001): min(initial * 2^(attempts-1), max), with no
    intermediate value reaching twice the cap. *)
Theorem backoff_for_spec attempts initial mx :
  1 <= attempts -> 0 <= initial ->
  backoff_for attempts initial mx = Z.min (initial * 2 ^ (attempts - 1)) mx.
Proof. apply backoff_for_min. Qed.

(** C30. [retry] of a FAILED job always finds a free id: the search ends within its
    fuel, it changes nothing in the store, and unless the store fails the id it
    reserves is neither recorded, nor known, nor pending. *)
Theorem retry_search_finds_fresh id m s :
  nul ∉ id ->
  exists r s', retry_search (retry_fuel m s) id 1 m s = (Some r, s') /\ db s' = db s /\
    match r with
    | Ok (c, m1) => view (db s) !! c_str c = None /\ requests m !! c = None /\ c ∉ pending m
    | Error (k, e) => k = StoreError /\ e <> []
    end.
Proof.
  intros Hid. destruct (retry_search (retry_fuel m s) id 1 m s) as [r s'] eqn:E.
  pose proof (retry_search_fuel _ _ _ _ _ Hid E) as Hne. destruct r as [r|]; [|done].
  exists r, s'. split; [done|]. apply retry_search_spec in E as [Hd Hr]; [|done|lia].
  split; [done|]. destruct r as [[c m1]|[k e]]; tauto.
Qed.

(** Retries of retries do not nest: the id of any retry of a retry has the
    root id of the first one, so a chain stays [root-retry-n]. *)
Theorem retry_ids_stay_flat id n k :
  0 <= n -> 0 <= k ->
  retry_candidate (retry_candidate id n) k = strip_retry_suffix id ++ str "-retry-" ++ dec k.
Proof. intros Hn Hk. unfold retry_candidate at 1 2. by rewrite strip_candidate. Qed.

(** C29. A rescheduled attempt is counted and bounded (L2-RTY-005): when
    [handle_failure] schedules a retry, whatever the store did before, the job's row
    exists, the new attempt count is below the maximum, the row records it with the
    due time, and the due time is now plus the capped backoff. *)
Theorem handle_failure_bounded {fs} cfg id failure now (f : fs) s tr due w' :
  0 <= retry_backoff_initial_ms cfg -> db_wf (db s) ->
  handle_failure cfg id failure now (mkWorld f (mkEngine s tr) None) = (Some (Some due), w') ->
  exists row row', job_table (db s) !! c_str id = Some row /\
    job_table (db (e_store (w_ext w'))) !! c_str id = Some row' /\
    r_attempts row' = r_attempts row + 1 /\ r_next_retry_ms row' = due /\
    r_state row' = r_state row /\
    (wrap_i32 (r_attempts row) + 1) mod 2 ^ 32 < retry_max_attempts cfg /\
    (0 <= wrap_i32 (r_attempts row) ->
     due = now + Z.min (retry_backoff_initial_ms cfg * 2 ^ wrap_i32 (r_attempts row))
                   (retry_backoff_max_ms cfg)).
Proof.
  intros Hi Hw. unfold handle_failure, store_call. rewrite run_bind. simpl.
  destruct (load_retry_state id s) as [r s1] eqn:El. apply load_retry_spec in El as [(Hd & _) Hr].
  destruct r as [[st|]|]; [|done|done]. destruct Hr as (row & Hrow & Ha). simpl. rewrite Ha.
  set (a := (wrap_i32 (r_attempts row) + 1) mod 2 ^ 32).
  destruct (Z.ltb_spec a (retry_max_attempts cfg)).
  2: { rewrite run_bind. by destruct (run (fail_permanently _ _) _) as [[]]. }
  rewrite run_bind. simpl.
  destruct (record_attempt id _ failure s1) as [w s2] eqn:Er. apply record_attempt_spec in Er as [_ Hw2].
  destruct w; [|done]. simpl.
  intros [= <- <-]. rewrite Hd in Hw2.
  simpl. destruct Hw2 as (rw & Hrw & _ & ->). simplify_eq.
  eexists _, _. split; [done|]. simpl. rewrite lookup_insert_eq.
  split; [done|]. simpl. split_and!; try done. intros Hp.
  assert (a = wrap_i32 (r_attempts row) + 1) as ->.
  { unfold a. apply Z.mod_small. unfold wrap_i32 in *.
    pose proof (Z.mod_pos_bound (r_attempts row + 2 ^ 31) (2 ^ 32) ltac:(lia)). lia. }
  rewrite backoff_for_min by lia. by rewrite Z.add_simpl_r.
Qed.

(** A refused cancel strands a job that was waiting or paused: once the durable
    state is not QUEUED, [cancel] refuses, changes nothing in the database, and leaves
    the job in no queue of the running manager, whatever the store does. *)
Theorem refused_cancel_strands_job id m s j :
  running m = true -> is_Some (requests m !! id) -> id ∉ active m -> id ∉ runnable m ->
  view (db s) !! c_str id = Some j -> state j <> Queued ->
  exists r m' s', cancel id m s = (r, [], m', s') /\ fst r <> CmdOk /\ db s' = db s /\
    running m' = true /\ occ m' id = O.
Proof.
  intros Hrun Hreq Hact Hq Hv Hst. unfold cancel.
  destruct (cancel_claim id m) as [[b m1]|e] eqn:Ec.
  2: { exfalso. revert Ec. unfold cancel_claim. rewrite Hrun, !bool_decide_eq_false_2; simpl.
       - by destruct (take_runnable _ _).
       - done.
       - by apply not_eq_None_Some. }
  apply cancel_claim_Ok in Ec as (-> & -> & _).
  destruct (take_runnable id (runnable m)) as [b q] eqn:Et.
  assert (count id (runnable m) = O) as H0 by (apply count_not_in; done).
  destruct (take_runnable_count _ _ _ _ id Et) as [Hc _]. rewrite decide_True in Hc by done.
  destruct b; simpl in Hc; [lia|].
  unfold cancel_durable. destruct (load id s) as [l s1] eqn:El.
  apply load_spec in El as [(Hd & _) Hl].
  assert (occ (set_queues q (delete id (waiting m)) (paused m ∖ {[id]}) (active m) m) id = O) as Ho.
  { unfold occ. simpl. rewrite lookup_delete_eq, (bool_decide_eq_false_2 (is_Some None)) by apply is_Some_None.
    rewrite !bool_decide_eq_false_2 by set_solver. simpl. lia. }
  destruct l as [[j'|]|e].
  - destruct Hl as [_ Hl]. rewrite Hv in Hl. simplify_eq. rewrite bool_decide_eq_false_2 by done.
    simpl. by eexists _, _, _.
  - destruct Hl as [_ Hl]. congruence.
  - simpl. by eexists _, _, _.
Qed.

(** ** Witnesses *)

Definition demo_cfg : Config :=
  mkConfig (str "127.0.0.1") 8080 65536 4 (str "/db") 3 1000 60000 Info true.

(** The manager once [job-1] is queued. *)
Definition queued_manager : manager :=
  mkManager demo_cfg RenameNoReplace [job_1] {[job_1 := demo_request]} ∅ ∅ ∅ ∅ true false.

Lemma backoff_for_spec_witness : backoff_for 4 1000 60000 = 8000.
Proof. rewrite (backoff_for_spec 4 1000 60000); [reflexivity|lia|lia]. Defined.

Lemma retry_search_finds_fresh_witness :
  exists r s', retry_search (retry_fuel queued_manager sample_store) job_1 1 queued_manager
                 sample_store = (Some r, s') /\ db s' = db sample_store.
Proof.
  destruct (retry_search_finds_fresh job_1 queued_manager sample_store) as (r & s' & H1 & H2 & _).
  - rewrite <- find_char_None. reflexivity.
  - exists r, s'. split; [exact H1|exact H2].
Defined.

Lemma retry_ids_stay_flat_witness :
  retry_candidate (str "job-7-retry-3") 4 = str "job-7-retry-4".
Proof.
  change (str "job-7-retry-3") with (retry_candidate (str "job-7") 3).
  rewrite (retry_ids_stay_flat (str "job-7") 3 4); [reflexivity|lia|lia].
Defined.

Lemma handle_failure_bounded_witness :
  exists w', handle_failure demo_cfg job_1 (str "busy") 500 (mkWorld tt (mkEngine sample_store []) None)
      = (Some (Some 1500), w') /\
    exists row', job_table (db (e_store (w_ext w'))) !! c_str job_1 = Some row' /\ r_next_retry_ms row' = 1500.
Proof.
  destruct (handle_failure demo_cfg job_1 (str "busy") 500 (mkWorld tt (mkEngine sample_store []) None))
    as [[[due|]|] w'] eqn:E; [|vm_compute in E; discriminate|vm_compute in E; discriminate].
  destruct (handle_failure_bounded demo_cfg job_1 (str "busy") 500 tt sample_store [] due w')
    as (row & row' & _ & H2 & _ & H3 & _); [vm_compute; discriminate|apply sample_wf|exact E|].
  assert (due = 1500) as -> by (vm_compute in E; congruence).
  exists w'. split; [reflexivity|]. exists row'. split; [exact H2|exact H3].
Defined.

(** [job-1] after a failed first attempt, waiting for its retry. *)
Definition renaming_store : JobStore :=
  snd (update_state job_1 Renaming 200 [] sample_store).
Definition waiting_manager : manager :=
  mkManager demo_cfg RenameNoReplace [] {[job_1 := demo_request]} {[job_1 := 1200]} ∅ ∅ ∅ true false.

Lemma refused_cancel_strands_job_witness :
  exists r m' s', cancel job_1 waiting_manager renaming_store = (r, [], m', s') /\
    fst r = InvalidState /\ occ m' job_1 = O.
Proof.
  destruct (view (db renaming_store) !! c_str job_1) as [j|] eqn:Ev; [|vm_compute in Ev; discriminate].
  destruct (refused_cancel_strands_job job_1 waiting_manager renaming_store j)
    as (r & m' & s' & Hc & _ & _ & _ & Ho);
    [reflexivity|by eexists|by vm_compute|by apply not_elem_of_nil|exact Ev| |].
  - vm_compute in Ev. injection Ev as <-. discriminate.
  - exists r, m', s'. split_and!; [exact Hc| |exact Ho].
    assert (fst (fst (fst (fst (cancel job_1 waiting_manager renaming_store)))) = InvalidState) as H
      by (vm_compute; reflexivity). rewrite Hc in H. exact H.
Defined.

