(* ===== verification/Dispatch.v ===== *)
(** The job manager's threads between their critical sections: src/cpp/src/manager.cpp.

    Any number of commands and workers run at the same time over one manager, one database
    and one filesystem.  A [thread] is where one of them is between two atomic actions, and
    a [step] is one action of one thread: a critical section under [Impl::mutex]
    ([mgr_step]), a call on the commands' store connection under [store_mutex]
    ([store_step]), one kernel or store call of a worker ([Crash.next]), or the publication of an
    event ([emit_step]).  The connections are views of one database: each call finds its
    connection in whatever condition (closed, faulty), with the current content.

    Refinement.v proves that the code of Threads.v, mutexes included, makes no other steps. *)

From S2P Require Import Prelude Job Store Kernel Crash FsOps Mover Events Config Manager.

(** * The concurrent system *)

(** What [submit] and [retry] publish once the job is queued. *)
Definition settle_event (job_id : bytes) (origin : option bytes) : emission :=
  match origin with
  | None => (JobSubmitted, Info, job_id, [])
  | Some parent => (JobRetrySubmitted, Info, job_id, str "retry_of=" ++ parent)
  end.

Section System.
Context {fs : Type} `{!Kernel fs}.

Inductive thread :=
| TSubmit (job_id : bytes) (request : MoveRequest) (now_ms : Z)
| TSubmitted (job_id : bytes) (request : MoveRequest) (retry_of : option bytes) (recorded : bool)
| TCancel (job_id : bytes) (was_runnable : bool)
| TCancelling (job_id : bytes) (was_runnable : bool) (job : Job)
| TCancelled (job_id : bytes) (was_runnable : bool) (outcome : CommandResult)
| TRetry (job_id : bytes) (move : MoveRequest) (now_ms : Z)
| TRetrySearch (job_id : bytes) (move : MoveRequest) (now_ms n : Z)
| TRetryProbed (job_id : bytes) (move : MoveRequest) (now_ms n : Z)
| TRetryReserved (job_id : bytes) (move : MoveRequest) (now_ms : Z) (candidate : bytes)
| TNews (e : emission)
| TWorker (job_id : bytes) (body : prog fs engine (option Z * emission))
| TRunning (job_id : bytes) (body : prog fs engine (option Z * emission))
| TWorked (job_id : bytes) (due : option Z).

(** The threads that hold [store_mutex] between two actions. *)
Definition holds_store (z : option thread) : bool :=
  match z with
  | Some (TCancelling _ _ _ | TCancelled _ _ _ | TRetrySearch _ _ _ _ | TRetryProbed _ _ _ _
         | TRetryReserved _ _ _ _ | TSubmitted _ _ (Some _) _) => true
  | _ => false
  end.

(** A cancel that is refused goes on only if it has a job to give back. *)
Definition refused (job_id : bytes) (was_runnable : bool) (outcome : CommandResult) : option thread :=
  if was_runnable then Some (TCancelled job_id true outcome) else None.

Definition cancel_loaded (job_id : bytes) (was_runnable : bool) (l : result (option Job) bytes)
    : option thread :=
  match l with
  | Ok (Some job) =>
      if bool_decide (state job = Queued) then Some (TCancelling job_id was_runnable job)
      else refused job_id was_runnable InvalidState
  | _ => refused job_id was_runnable UnknownJob
  end.

(** ** Critical sections

    [mgr_step b z m z' m']: a thread at [z] turns the manager [m] into [m'] and is then at
    [z'].  [b] tells whether it is a refused cancel giving its job back. *)
Inductive mgr_step : bool -> option thread -> manager -> option thread -> manager -> Prop :=
| m_submit_claim job_id request now_ms m m1 :
    submit_claim job_id m = Ok m1 ->
    mgr_step false None m (Some (TSubmit job_id request now_ms)) m1
| m_submit_settle job_id request origin recorded m :
    mgr_step false (Some (TSubmitted job_id request origin recorded)) m
      (if recorded then Some (TNews (settle_event job_id origin)) else None)
      (submit_settle job_id request recorded m)
| m_pause job_id m m1 :
    pause job_id m = Ok m1 -> mgr_step false None m (Some (TNews (JobPaused, Info, job_id, []))) m1
| m_resume job_id m m1 :
    resume job_id m = Ok m1 -> mgr_step false None m (Some (TNews (JobResumed, Info, job_id, []))) m1
| m_pump now_ms m : mgr_step false None m None (snd (pump now_ms m))
| m_start m : mgr_step false None m None (mark_started m)
| m_shutdown m m1 : shutdown_begin m = Some m1 -> mgr_step false None m None m1
| m_set_strategy strategy m : mgr_step false None m None (set_strategy strategy m)
| m_cancel_claim job_id was_runnable m m1 :
    cancel_claim job_id m = Ok (was_runnable, m1) ->
    mgr_step false None m (Some (TCancel job_id was_runnable)) m1
| m_cancel_settle job_id outcome m :
    outcome <> CmdOk ->
    mgr_step true (Some (TCancelled job_id true outcome)) m None (cancel_settle job_id outcome true m)
| m_retry_claim job_id move now_ms m :
    retry_claim job_id m = Ok move -> mgr_step false None m (Some (TRetry job_id move now_ms)) m
| m_retry_reserve job_id move now_ms n m :
    mgr_step false (Some (TRetryProbed job_id move now_ms n)) m
      (Some match retry_reserve (retry_candidate job_id n) m with
            | Some _ => TRetryReserved job_id move now_ms (retry_candidate job_id n)
            | None => TRetrySearch job_id move now_ms (n + 1)
            end)
      (default m (retry_reserve (retry_candidate job_id n) m))
| m_worker_take job_id request now_ms m m1 :
    worker_take m = Some (job_id, request, m1) ->
    mgr_step false None m
      (Some (TWorker job_id (worker_body (m_config m) (m_strategy m) job_id request now_ms))) m1
| m_worker_settle job_id due m :
    mgr_step false (Some (TWorked job_id due)) m None (worker_settle job_id due m).

(** ** Calls on the commands' connection *)
Inductive store_step : option thread -> JobStore -> option thread -> JobStore -> Prop :=
| d_sequence s : store_step None s None (snd (next_sequence s))
| d_open path answers s :
    file_content answers = db s -> store_step None s None (snd (Store.open path answers s))
| d_close s : store_step None s None (Store.close s)
| d_record job_id request now_ms s r s' :
    record_intent (request_job job_id request now_ms) s = (r, s') ->
    store_step (Some (TSubmit job_id request now_ms)) s
      (Some (TSubmitted job_id request None (is_ok r))) s'
| d_cancel_load job_id was_runnable s l s' :
    load job_id s = (l, s') ->
    store_step (Some (TCancel job_id was_runnable)) s (cancel_loaded job_id was_runnable l) s'
| d_cancel_update job_id was_runnable job s u s' :
    update_state job_id Failed (updated_at_ms job + 1) (str "cancelled by operator") s = (u, s') ->
    store_step (Some (TCancelling job_id was_runnable job)) s
      (if is_ok u then Some (TCancelled job_id was_runnable CmdOk)
       else refused job_id was_runnable StoreError) s'
| d_retry_check job_id move now_ms s r s' :
    retry_check job_id s = (r, s') ->
    store_step (Some (TRetry job_id move now_ms)) s
      (if is_ok r then Some (TRetrySearch job_id move now_ms 1) else None) s'
| d_retry_probe job_id move now_ms n s l s' :
    load (retry_candidate job_id n) s = (l, s') ->
    store_step (Some (TRetrySearch job_id move now_ms n)) s
      match l with
      | Error _ => None
      | Ok (Some _) => Some (TRetrySearch job_id move now_ms (n + 1))
      | Ok None => Some (TRetryProbed job_id move now_ms n)
      end s'
| d_retry_record job_id move now_ms candidate s r s' :
    record_intent_retry (request_job candidate move now_ms) job_id s = (r, s') ->
    store_step (Some (TRetryReserved job_id move now_ms candidate)) s
      (Some (TSubmitted candidate move (Some job_id) (is_ok r))) s'.

(** ** Events *)
Inductive emit_step : option thread -> emission -> option thread -> Prop :=
| e_news e : emit_step (Some (TNews e)) e None
| e_cancelled job_id was_runnable :
    emit_step (Some (TCancelled job_id was_runnable CmdOk)) (JobCancelled, Info, job_id, []) None
| e_started job_id body :
    emit_step (Some (TWorker job_id body)) (JobStarted, Info, job_id, []) (Some (TRunning job_id body))
| e_ended job_id due e :
    emit_step (Some (TRunning job_id (Ret (due, e)))) e (Some (TWorked job_id due)).

(** ** Interleaving *)

(** The manager, the shared database, the disk, the threads that are between
    critical sections, the holder of [store_mutex], and the events published. *)
Record sys := mkSys {
  mgr : manager;
  data : database;
  disk : fs;
  threads : gmap nat thread;
  store_lock : option nat;
  published : list emission
}.

(** Thread [t] is at [z] from now on. *)
Definition put (t : nat) (z : option thread) (ts : gmap nat thread) : gmap nat thread :=
  partial_alter (fun _ => z) t ts.
Definition relock (t : nat) (z : option thread) (l : option nat) : option nat :=
  if holds_store z then Some t else if decide (l = Some t) then None else l.

Definition turn (t : nat) (z : option thread) (m : manager) (d : database) (f : fs)
    (evs : list emission) (y : sys) : sys :=
  mkSys m d f (put t z (threads y)) (relock t z (store_lock y)) (published y ++ evs).

Inductive step : bool -> sys -> sys -> Prop :=
| s_mgr b t z m1 y :
    mgr_step b (threads y !! t) (mgr y) z m1 ->
    step b y (turn t z m1 (data y) (disk y) [] y)
| s_store t z s s' y :
    store_lock y = None \/ store_lock y = Some t -> db s = data y ->
    store_step (threads y !! t) s z s' ->
    step false y (turn t z (mgr y) (db s') (disk y) [] y)
| s_call t job_id p p' f e e' y :
    threads y !! t = Some (TRunning job_id p) -> returned p = None ->
    db (e_store e) = data y -> next p (disk y) e = (p', f, e') ->
    step false y (turn t (Some (TRunning job_id p')) (mgr y) (db (e_store e')) f [] y)
| s_emit t z e y :
    emit_step (threads y !! t) e z ->
    step false y (turn t z (mgr y) (data y) (disk y) [e] y).

Definition any (y y' : sys) : Prop := exists b, step b y y'.
(** Steps other than a refused cancel giving its job back. *)
Definition unrefused (y y' : sys) : Prop := step false y y'.

(** A new manager on a database. *)
Definition created (cfg : Config) (d : database) (f : fs) : sys :=
  mkSys (new_manager cfg) d f ∅ None [].
End System.
Arguments thread : clear implicits.
Arguments sys : clear implicits.

(** * The invariant of the threads *)

Section Invariant.
Context {fs : Type} `{!Kernel fs}.
Implicit Types (z : option (thread fs)) (ts : gmap nat (thread fs)) (y : sys fs).

(** The id a thread has reserved in [pending]. *)
Definition claim z : option bytes :=
  match z with
  | Some (TSubmit id _ _ | TSubmitted id _ _ _ | TRetryReserved _ _ _ id) => Some id
  | _ => None
  end.
(** The id a worker is running. *)
Definition work z : option bytes :=
  match z with Some (TWorker id _ | TRunning id _ | TWorked id _) => Some id | _ => None end.
(** The id a thread has recorded and not yet queued. *)
Definition recorded z : option bytes :=
  match z with Some (TSubmitted id _ _ true) => Some id | _ => None end.
(** The queued id a thread has taken out. *)
Definition target z : option bytes :=
  match z with
  | Some (TCancel id _ | TCancelling id _ _ | TCancelled id _ _) => Some id
  | _ => work z
  end.
(** What a worker has still to do with the mutex released. *)
Definition body_of z : option (prog fs engine (option Z * emission)) :=
  match z with Some (TWorker _ p | TRunning _ p) => Some p | _ => None end.

Lemma lookup_put t z ts t' : put t z ts !! t' = if decide (t = t') then z else ts !! t'.
Proof.
  unfold put. case_decide as H; [subst; apply lookup_partial_alter_eq|by apply lookup_partial_alter_ne].
Qed.

(** ** The store calls of the workers *)

Definition bodies ts : Prop :=
  forall t p, body_of (ts !! t) = Some p -> forall d0, keeps (engine_advanced d0) p.

Lemma bodies_put t z ts :
  bodies ts -> (forall p, body_of z = Some p -> forall d0, keeps (engine_advanced d0) p) ->
  bodies (put t z ts).
Proof. intros Hb Hz t' p. rewrite lookup_put. case_decide; [apply Hz|apply Hb]. Qed.

Lemma bodies_step b y y' : bodies (threads y) -> step b y y' -> bodies (threads y').
Proof.
  intros Hb Hs. destruct Hs as [b t z m1 y Hm|t z s s' y _ _ Hd|t id p p' f e e' y Ht _ _ Hn|t z e y He];
    apply bodies_put; try done.
  - destruct Hm as [| |????|????| | | | | | | |id mv now n m|id req now m m1 H|];
      simpl; intros p; repeat case_match; try done.
    intros [= <-] d0. apply keeps_worker_body.
  - destruct Hd; simpl; intros p; unfold cancel_loaded, refused; repeat case_match; try done.
  - intros q [= <-] d0. assert (keeps (engine_advanced d0) p) as Hk by (apply (Hb t); by rewrite Ht).
    by destruct (keeps_next _ _ _ _ _ _ _ Hk Hn).
  - specialize (Hb t). by destruct He.
Qed.

(** What a step of any thread does to the database. *)
Lemma store_step_grows z s z' s' :
  db_wf (db s) -> store_step z s z' s' -> grows (db s) (db s').
Proof.
  intros Hw Hs. revert Hw. destruct Hs as [s1|path a s1 Hf|s1|id req now s1 r s2 E|id was s1 l s2 E|id was job s1 u s2 E
    |id mv now s1 r s2 E|id mv now n s1 l s2 E|id mv now c s1 r s2 E]; intros Hw.
  - apply (grows_op OpNextSequence s1 Hw).
  - by apply grows_open.
  - done.
  - by apply (intent_recorded _ [] _ _ _ Hw) in E as [? _].
  - pose proof (grows_op (OpLoad id) s1 Hw) as H. simpl in H. by rewrite E in H.
  - pose proof (grows_op (OpUpdateState id Failed (updated_at_ms job + 1)
      (str "cancelled by operator")) s1 Hw) as H. simpl in H. by rewrite E in H.
  - by eapply retry_check_grows.
  - pose proof (grows_op (OpLoad (retry_candidate id n)) s1 Hw) as H. simpl in H. by rewrite E in H.
  - by apply (intent_recorded _ id _ _ _ Hw) in E as [? _].
Qed.

Lemma call_grows ts t id p p' f e e' (s : fs) :
  bodies ts -> ts !! t = Some (TRunning id p) -> db_wf (db (e_store e)) ->
  next p s e = (p', f, e') -> grows (db (e_store e)) (db (e_store e')).
Proof.
  intros Hb Ht Hw Hn. assert (keeps (engine_advanced (db (e_store e))) p) as Hk by (apply (Hb t); by rewrite Ht).
  destruct (keeps_next _ _ _ _ _ _ _ Hk Hn) as [_ Hj].
  by apply grows_advanced, Hj, advanced_refl.
Qed.

(** A job that a thread has just recorded is in the database. *)
Lemma store_step_recorded z s z' s' x :
  db_wf (db s) -> store_step z s z' s' -> recorded z' = Some x -> is_Some (view (db s') !! c_str x).
Proof.
  intros Hw Hs. revert Hw. destruct Hs as [| | |id req now s1 r s2 E|id was s1 l s2 E|id was job s1 u s2 E
    |id mv now s1 r s2 E|id mv now n s1 l s2 E|id mv now c s1 r s2 E]; intros Hw; simpl; try done;
    unfold cancel_loaded, refused; repeat case_match; try done.
  - intros [= <-]. by apply (proj2 (intent_recorded _ [] _ _ _ Hw E)).
  - intros [= <-]. by apply (proj2 (intent_recorded _ id _ _ _ Hw E)).
Qed.

(** ** The claims of the threads *)

Record thread_inv (m : manager) (d : database) ts : Prop := {
  t_durable x : is_Some (requests m !! x) -> is_Some (view d !! c_str x);
  t_claims t x : claim (ts !! t) = Some x -> x ∈ pending m;
  t_claim_one t t' x : claim (ts !! t) = Some x -> claim (ts !! t') = Some x -> t = t';
  t_recorded t x : recorded (ts !! t) = Some x -> is_Some (view d !! c_str x);
  t_works t x : work (ts !! t) = Some x -> x ∈ active m;
  t_work_one t t' x : work (ts !! t) = Some x -> work (ts !! t') = Some x -> t = t'
}.

Definition inv y : Prop :=
  db_wf (data y) /\ bodies (threads y) /\ queue_inv (mgr y) /\
  thread_inv (mgr y) (data y) (threads y).

(** One thread's turn: it may give up what it held and take what nobody holds. *)
Lemma thread_inv_turn m m' d d' ts t z :
  thread_inv m d ts -> grows d d' ->
  (forall x, is_Some (requests m' !! x) ->
     is_Some (requests m !! x) \/ is_Some (view d' !! c_str x)) ->
  (forall x, x ∈ pending m -> x ∈ pending m' \/ claim (ts !! t) = Some x) ->
  (forall x, claim z = Some x -> x ∈ pending m' /\ (claim (ts !! t) = Some x \/ x ∉ pending m)) ->
  (forall x, x ∈ active m -> x ∈ active m' \/ work (ts !! t) = Some x) ->
  (forall x, work z = Some x -> x ∈ active m' /\ (work (ts !! t) = Some x \/ x ∉ active m)) ->
  (forall x, recorded z = Some x -> is_Some (view d' !! c_str x)) ->
  thread_inv m' d' (put t z ts).
Proof.
  intros [Td Tc Tc1 Tr Tw Tw1] [_ Hg] Hreq Hp Hc Ha Hw Hr.
  assert (forall t' x, t <> t' -> claim z = Some x -> claim (ts !! t') = Some x -> False) as Cx.
  { intros t' x Hne H1 H2. destruct (Hc x H1) as [_ [H|H]]; [by apply Hne, (Tc1 t t' x)|]. by eapply H, Tc. }
  assert (forall t' x, t <> t' -> work z = Some x -> work (ts !! t') = Some x -> False) as Wx.
  { intros t' x Hne H1 H2. destruct (Hw x H1) as [_ [H|H]]; [by apply Hne, (Tw1 t t' x)|]. by eapply H, Tw. }
  split.
  - intros x Hx. destruct (Hreq x Hx); eauto.
  - intros t' x. rewrite lookup_put. case_decide as Et; [apply Hc|]. intros Hx.
    destruct (Hp x (Tc t' x Hx)) as [?|H]; [done|]. by destruct Et; apply (Tc1 t t' x).
  - intros t1 t2 x. rewrite !lookup_put. repeat case_decide; subst; eauto; intros; exfalso; eauto.
  - intros t' x. rewrite lookup_put. case_decide; eauto.
  - intros t' x. rewrite lookup_put. case_decide as Et; [apply Hw|]. intros Hx.
    destruct (Ha x (Tw t' x Hx)) as [?|H]; [done|]. by destruct Et; apply (Tw1 t t' x).
  - intros t1 t2 x. rewrite !lookup_put. repeat case_decide; subst; eauto; intros; exfalso; eauto.
Qed.

(** A turn that touches neither the manager nor the thread's claims. *)
Lemma thread_inv_same m d d' ts t z :
  thread_inv m d ts -> grows d d' -> claim z = claim (ts !! t) -> work z = work (ts !! t) ->
  (forall x, recorded z = Some x -> is_Some (view d' !! c_str x)) ->
  thread_inv m d' (put t z ts).
Proof.
  intros Ht Hg Hc Hw Hr. eapply thread_inv_turn; try done; [by left|by left| |by left|].
  - intros x. rewrite Hc. intros Hx. split; [by eapply (t_claims _ _ _ Ht)|by left].
  - intros x. rewrite Hw. intros Hx. split; [by eapply (t_works _ _ _ Ht)|by left].
Qed.

(** A turn of a thread without claims, in a critical section that leaves requests,
    [pending] and [active] alone. *)
Lemma thread_inv_free m m' d ts t z :
  db_wf d -> thread_inv m d ts -> requests m' = requests m -> pending m' = pending m -> active m' = active m ->
  claim (ts !! t) = None -> work (ts !! t) = None ->
  claim z = None -> work z = None -> recorded z = None ->
  thread_inv m' d (put t z ts).
Proof.
  intros Hd Ht Hr Hp Ha C W C' W' R'. eapply thread_inv_turn; try done; rewrite ?Hr, ?Hp, ?Ha, ?C', ?W', ?R'; auto; done.
Qed.

(** ** Every step keeps the invariant, unless it gives back a cancelled job *)

Lemma kept_or_given_up (X : gset bytes) id x : x ∈ X -> x ∈ X ∖ {[id]} \/ Some id = Some x.
Proof. intros. destruct (decide (id = x)) as [->|?]; [by right|left; set_solver]. Qed.

Ltac turn_auto Ez :=
  eapply thread_inv_turn; try done; simpl; rewrite <- ?Ez; simpl;
  try solve [by auto using kept_or_given_up | set_solver].

Lemma inv_mgr t z m1 y :
  inv y -> mgr_step false (threads y !! t) (mgr y) z m1 ->
  queue_inv m1 /\ thread_inv m1 (data y) (put t z (threads y)).
Proof.
  intros (Hd & _ & Hq & Ht) Hm. remember (threads y !! t) as z0 eqn:Ez. remember (mgr y) as m eqn:Em.
  remember false as b eqn:Eb.
  pose proof (grows_refl _ Hd) as Hg.
  destruct Hm as [id req now m m1 H|id req origin rec m|id m m1 H|id m m1 H|now m|m|m m1 H|st m
    |id was m m1 H| |id mv now m H|id mv now n m|id req now m m1 H|id due m]; try done.
  - apply submit_claim_Ok in H as (-> & Hr & Hp). split; [by apply queue_inv_claim|].
    turn_auto Ez.
  - assert (id ∈ pending m) as Hp by (eapply (t_claims _ _ _ Ht t); by rewrite <- Ez).
    split; [by apply queue_inv_settle|]. destruct rec.
    + turn_auto Ez.
      intros x. destruct (decide (x = id)) as [->|?]; [|rewrite lookup_insert_ne by done; auto].
      intros _. right. eapply (t_recorded _ _ _ Ht t). by rewrite <- Ez.
    + turn_auto Ez.
  - split; [by eapply queue_inv_pause|]. apply pause_Ok in H as (_ & _ & ->).
    by eapply thread_inv_free; rewrite <- ?Ez.
  - split; [by eapply queue_inv_resume|]. apply resume_Ok in H as (_ & _ & ->).
    by eapply thread_inv_free; rewrite <- ?Ez.
  - split; [by apply queue_inv_pump|]. unfold pump.
    destruct (running m); (by eapply thread_inv_free; rewrite <- ?Ez).
  - split; [by destruct Hq|]. by eapply thread_inv_free; rewrite <- ?Ez.
  - unfold shutdown_begin in H. destruct (running m); [|done]. simplify_eq/=.
    split; [by destruct Hq|]. by eapply thread_inv_free; rewrite <- ?Ez.
  - split; [by destruct Hq|]. by eapply thread_inv_free; rewrite <- ?Ez.
  - split; [by eapply queue_inv_cancel|]. apply cancel_claim_Ok in H as (-> & _).
    by eapply thread_inv_free; rewrite <- ?Ez.
  - split; [done|]. by eapply thread_inv_free; rewrite <- ?Ez.
  - unfold retry_reserve. case_bool_decide as H1; simpl;
      [split; [done|]; by eapply thread_inv_free; rewrite <- ?Ez|].
    case_bool_decide as H2; simpl; [split; [done|]; by eapply thread_inv_free; rewrite <- ?Ez|].
    split; [by apply queue_inv_claim, eq_None_not_Some|].
    turn_auto Ez.
  - split; [by eapply queue_inv_take|].
    destruct (worker_take_Some _ _ _ _ Hq H) as (rest & Er & Ha & Hr & ->).
    turn_auto Ez.
  - assert (id ∈ active m) as Ha by (eapply (t_works _ _ _ Ht t); by rewrite <- Ez).
    split; [by apply queue_inv_worked|].
    turn_auto Ez.
Qed.

Lemma inv_step y y' : inv y -> unrefused y y' -> inv y'.
Proof.
  intros Hi Hs. assert (bodies (threads y')) as Hb' by (eapply bodies_step; [apply Hi|exact Hs]).
  pose proof Hi as (Hd & Hb & Hq & Ht). unfold unrefused in Hs. remember false as b eqn:Eb.
  destruct Hs as [b t z m1 y Hm|t z s s' y _ Es Hm|t id p p' f e e' y Hz _ Ee Hn|t z e y He]; subst.
  - by destruct (inv_mgr t z m1 y).
  - rewrite <- Es in Hd, Ht. pose proof (store_step_grows _ _ _ _ Hd Hm) as Hg.
    split_and!; [apply Hg|done|done|]. simpl. eapply thread_inv_same; [done|done|..].
    + destruct Hm; try done; unfold cancel_loaded, refused; repeat case_match; done.
    + destruct Hm; try done; unfold cancel_loaded, refused; repeat case_match; done.
    + intros x. by apply (store_step_recorded _ _ _ _ _ Hd Hm).
  - rewrite <- Ee in Hd, Ht. pose proof (call_grows _ _ _ _ _ _ _ _ _ Hb Hz Hd Hn) as Hg.
    split_and!; [apply Hg|done|done|]. simpl. eapply thread_inv_same; [done|done|by rewrite Hz..|done].
  - split_and!; [done|done|done|]. simpl.
    eapply thread_inv_same; [done|by apply grows_refl|by destruct He..].
Qed.

(** ** What holds in every interleaving, refused cancels included *)

Record durable_inv y : Prop := {
  d_wf : db_wf (data y);
  d_bodies : bodies (threads y);
  d_held x : held (mgr y) x -> is_Some (requests (mgr y) !! x);
  d_known x : is_Some (requests (mgr y) !! x) -> is_Some (view (data y) !! c_str x);
  d_recorded t x : recorded (threads y !! t) = Some x -> is_Some (view (data y) !! c_str x);
  d_target t x : target (threads y !! t) = Some x -> is_Some (requests (mgr y) !! x)
}.

Lemma durable_turn y t z m d f evs :
  durable_inv y -> bodies (put t z (threads y)) -> grows (data y) d ->
  (forall x, held m x -> held (mgr y) x \/ is_Some (requests m !! x)) ->
  (forall x, is_Some (requests (mgr y) !! x) -> is_Some (requests m !! x)) ->
  (forall x, is_Some (requests m !! x) ->
     is_Some (requests (mgr y) !! x) \/ is_Some (view d !! c_str x)) ->
  (forall x, recorded z = Some x -> is_Some (view d !! c_str x)) ->
  (forall x, target z = Some x ->
     target (threads y !! t) = Some x \/ is_Some (requests m !! x)) ->
  durable_inv (turn t z m d f evs y).
Proof.
  intros [Hw _ Hh Hk Hr Hc] Hb [Hw' Hg] Hheld Hgrow Hreq Hrec Htar. split; simpl; [done|done|..].
  - intros x Hx. destruct (Hheld x Hx) as [?|?]; auto.
  - intros x Hx. destruct (Hreq x Hx) as [?|?]; auto.
  - intros t' x. rewrite lookup_put. case_decide; eauto.
  - intros t' x. rewrite lookup_put. case_decide as Et; [|by eauto].
    intros Hx. destruct (Htar x Hx) as [?|?]; eauto.
Qed.

(** A turn that leaves the manager alone. *)
Lemma durable_same y t z d f evs :
  durable_inv y -> bodies (put t z (threads y)) -> grows (data y) d ->
  (forall x, recorded z = Some x -> is_Some (view d !! c_str x)) ->
  (forall x, target z = Some x -> target (threads y !! t) = Some x) ->
  durable_inv (turn t z (mgr y) d f evs y).
Proof. intros. apply durable_turn; auto. Qed.

(** A critical section that moves only ids with a request. *)
Lemma durable_moved y t z m1 id :
  durable_inv y -> bodies (put t z (threads y)) -> requests m1 = requests (mgr y) ->
  is_Some (requests (mgr y) !! id) ->
  (forall x, held m1 x -> held (mgr y) x \/ x = id) ->
  recorded z = None -> (forall x, target z = Some x -> x = id) ->
  durable_inv (turn t z m1 (data y) (disk y) [] y).
Proof.
  intros Hi Hb Hr Hid Hh Hrec Ht.
  apply durable_turn; rewrite ?Hr, ?Hrec; auto; [by apply grows_refl, d_wf| |done|].
  - intros x [?| ->]%Hh; auto.
  - intros x ->%Ht. auto.
Qed.

Lemma held_queues_eq m m' x :
  runnable m' = runnable m -> waiting m' = waiting m -> paused m' = paused m -> active m' = active m ->
  held m' x -> held m x.
Proof. unfold held. by intros -> -> -> ->. Qed.

Lemma durable_mgr b t z m1 y :
  durable_inv y -> bodies (put t z (threads y)) ->
  mgr_step b (threads y !! t) (mgr y) z m1 -> durable_inv (turn t z m1 (data y) (disk y) [] y).
Proof.
  intros Hi Hb Hm. remember (threads y !! t) as z0 eqn:Ez. remember (mgr y) as m eqn:Em.
  pose proof (grows_refl _ (d_wf _ Hi)) as Hg.
  assert (forall m1 z, bodies (put t z (threads y)) -> requests m1 = requests m ->
    (forall x, held m1 x -> held m x) -> recorded z = None -> target z = None ->
    durable_inv (turn t z m1 (data y) (disk y) [] y)) as Hplain.
  { intros m2 z2 Hb2 Hr Hh Hrec Htar. apply durable_turn; rewrite <- ?Em, ?Hr, ?Hrec, ?Htar; auto; done. }
  destruct Hm as [id req now m m1 H|id req origin rec m|id m m1 H|id m m1 H|now m|m|m m1 H|st m
    |id was m m1 H|id out m Ho|id mv now m H|id mv now n m|id req now m m1 H|id due m].
  - apply submit_claim_Ok in H as (-> & _). by apply Hplain.
  - destruct rec; [|by apply Hplain]. apply durable_turn; rewrite <- ?Em; simpl; auto; try done.
    + intros x [?| ->]%held_settle; [by left|]. right. by rewrite lookup_insert_eq.
    + intros x [v Hv]. destruct (decide (x = id)) as [->|?];
        [by rewrite lookup_insert_eq|rewrite lookup_insert_ne by done; by exists v].
    + intros x. destruct (decide (x = id)) as [->|?]; [|rewrite lookup_insert_ne by done; auto].
      intros _. right. apply (d_recorded _ Hi t). by rewrite <- Ez.
  - apply pause_Ok in H as (Hr & _ & ->). apply (durable_moved _ _ _ _ id); rewrite <- ?Em; try done.
    intros x Hx. eapply held_removed, Hx; [|set_solver]. intros v. rewrite lookup_delete_Some. naive_solver.
  - apply resume_Ok in H as (Hr & _ & ->). apply (durable_moved _ _ _ _ id); rewrite <- ?Em; try done.
    intros x Hx. by eapply held_appended, Hx; set_solver.
  - apply Hplain; try done; [|intros x; apply held_pump]. unfold pump. by destruct (running m).
  - by apply Hplain.
  - unfold shutdown_begin in H. destruct (running m); [|done]. simplify_eq/=. by apply Hplain.
  - by apply Hplain.
  - apply cancel_claim_Ok in H as (-> & _ & _ & Hr).
    apply (durable_moved _ _ _ _ id); rewrite <- ?Em; try done; [|by intros x [= <-]].
    intros x Hx. eapply held_removed, Hx; [|set_solver]. intros v. rewrite lookup_delete_Some. naive_solver.
  - apply (durable_moved _ _ _ _ id); rewrite <- ?Em; try done.
    + unfold cancel_settle. by case_match.
    + rewrite Em. apply (d_target _ Hi t). by rewrite <- Ez.
    + intros x. unfold cancel_settle. case_match; [|by left]. intros Hx. by eapply held_appended, Hx.
  - by apply Hplain.
  - unfold retry_reserve in *. case_bool_decide; simpl in *; [by apply Hplain|].
    case_bool_decide; by apply Hplain.
  - destruct (worker_take_known m id req m1) as (Hid & Hr & Hh); [|done|].
    { intros x Hx. rewrite Em in *. by apply (d_held _ Hi). }
    apply (durable_moved _ _ _ _ id); rewrite <- ?Em; try done; [by intros x Hx; left; apply Hh|by intros x [= <-]].
  - apply (durable_moved _ _ _ _ id); rewrite <- ?Em; try done.
    + rewrite Em. apply (d_target _ Hi t). by rewrite <- Ez.
    + intros x. apply held_worked.
Qed.

Lemma durable_any y y' : durable_inv y -> any y y' -> durable_inv y'.
Proof.
  intros Hi [b Hs]. assert (bodies (threads y')) as Hb' by (eapply bodies_step; [apply Hi|exact Hs]).
  pose proof (d_wf _ Hi) as Hd.
  destruct Hs as [b t z m1 y Hm|t z s s' y _ Es Hm|t id p p' f e e' y Hz _ Ee Hn|t z e y He].
  - by eapply durable_mgr.
  - rewrite <- Es in Hd. pose proof (store_step_grows _ _ _ _ Hd Hm) as Hg. rewrite Es in Hg.
    apply durable_same; [done..| |].
    + intros x. by apply (store_step_recorded _ _ _ _ _ Hd Hm).
    + intros x. destruct Hm; try done; unfold cancel_loaded, refused; repeat case_match; done.
  - rewrite <- Ee in Hd. pose proof (call_grows _ _ _ _ _ _ _ _ _ (d_bodies _ Hi) Hz Hd Hn) as Hg.
    rewrite Ee in Hg. apply durable_same; [done..|by rewrite Hz].
  - apply durable_same; [done|done|by apply grows_refl|by destruct He|].
    intros x. by destruct He.
Qed.

Lemma created_inv cfg d (f : fs) : db_wf d -> inv (created cfg d f).
Proof.
  intros Hd. split_and!; [done|intros t p; simpl; by rewrite lookup_empty| |].
  - assert (forall x, occ (mgr (created cfg d f)) x = O) as Ho.
    { intros x. unfold occ. simpl. rewrite lookup_empty.
      rewrite (bool_decide_eq_false_2 (is_Some None)) by apply is_Some_None.
      rewrite !(bool_decide_eq_false_2 (x ∈ ∅)) by set_solver. done. }
    split; [intros x; rewrite Ho; lia|intros x; by rewrite Ho|done].
  - split; simpl; intros *; rewrite ?lookup_empty; done.
Qed.

Lemma created_durable cfg d (f : fs) : db_wf d -> durable_inv (created cfg d f).
Proof.
  intros Hd. split; [done|intros t p; simpl; by rewrite lookup_empty|..]; simpl; intros *;
    rewrite ?lookup_empty; try done.
  unfold held. simpl. rewrite lookup_empty. intros [?|[?%is_Some_None|[?|?]]]; set_solver.
Qed.

Lemma dispatch_inv cfg d (f : fs) y : db_wf d -> star unrefused (created cfg d f) y -> inv y.
Proof.
  intros Hd Hs. eapply (star_invariant unrefused inv); [|exact Hs|by apply created_inv].
  intros y1 y2 H1 H2. by eapply inv_step.
Qed.

Lemma reachable_durable cfg d (f : fs) y : db_wf d -> star any (created cfg d f) y -> durable_inv y.
Proof.
  intros Hd Hs. eapply (star_invariant any durable_inv); [|exact Hs|by apply created_durable].
  intros y1 y2 H1 H2. by eapply durable_any.
Qed.

(** L2-JOB-013, intent before action: what is in a queue is in the store. *)
Lemma held_durable cfg d (f : fs) y x :
  db_wf d -> star any (created cfg d f) y -> held (mgr y) x -> is_Some (view (data y) !! c_str x).
Proof.
  intros Hd Hs Hx. pose proof (reachable_durable _ _ _ _ Hd Hs) as Hi.
  by apply (d_known _ Hi), (d_held _ Hi).
Qed.
End Invariant.
