(* ===== verification/Threads.v ===== *)
(** The job manager's threads as the code writes them: src/cpp/src/manager.cpp.

    Each public function of [JobManager], and the worker, is a [code]: its lock and unlock of
    the manager mutex ([ManagerLock], which counts the thread's depth) and of [store_mutex],
    its critical sections, its store calls and publications (both assert that the depth is
    zero), its notifications of and waits on [work_ready], threads created and joined.
    [run_turn] is one action of one thread: mutexes block, a waiting thread sleeps without the
    mutex until it is notified, or wakes for no reason.

    [take_turn] and [schedule] run the machine for a given list of choices.  Scheduling.v
    proves that the threads keep to their locking discipline and that nothing blocks for
    ever, Refinement.v that every run is a run of the system of Dispatch.v; Runs.v holds
    concrete runs. *)

From S2P Require Import Prelude Job Store Kernel Crash FsOps Mover Events Config Manager Dispatch.

(** * Threads as code *)

(** What the manager mutex guards: the queues, and the handles of the worker threads. *)
Record impl := mkImpl { i_mgr : manager; i_workers : list nat }.

Definition set_i_mgr (m : manager) (i : impl) : impl := mkImpl m (i_workers i).

(** What a function returns: a command its result and id, [pump] a count, the others a
    boolean, with the error text. *)
Inductive answer :=
| AResult (r : refusal) (job_id : bytes)
| ACount (n : Z) (error : bytes)
| ABool (b : bool) (error : bytes)
| AVoid.

(** Loops: where they start again, with what they carry. *)
Inductive label :=
| WorkerLoop
| RetrySearch (job_id : bytes) (move : MoveRequest) (now_ms n : Z)
| WaitIdle (waited timeout_ms : Z).

(** [Asleep] waits to be notified; [Woken] has been and waits for the mutex. *)
Inductive status := Ready | Asleep | Woken.

#[export] Instance status_eq_dec : EqDecision status.
Proof. solve_decision. Defined.

Section Code.
Context {fs : Type} `{!Kernel fs}.

Inductive code :=
| Return (a : answer)
| LockM (k : code)
| UnlockM (k : code)
| LockS (k : code)
| UnlockS (k : code)
(* in a critical section; the clock may be read; [back] marks the section in which a
   refused cancel gives its job back *)
| Access (back : bool) (f : Z -> impl -> impl * code)
(* through store_for_command *)
| Store (what : bytes) (f : JobStore -> JobStore * code)
(* a worker's own connection: its open, and its calls one by one *)
| OwnOpen (opened failed : code)
| Body (job_id : bytes) (p : prog fs engine (option Z * emission)) (k : option Z * emission -> code)
| Emit (e : emission) (k : code)
| Notify (all : bool) (k : code)
| Wait (k : code)
| Spawn (k : nat -> code)
| Join (t : nat) (k : code)
| Goto (l : label).

(** ** The worker *)

Definition run_worker : code :=
  OwnOpen (LockM (Goto WorkerLoop)) (Return AVoid).

Definition worker_loop : code :=
  Access false (fun now_ms i =>
    let m := i_mgr i in
    if bool_decide (runnable m = []) && negb (stopping m) then (i, Wait (Goto WorkerLoop))
    else if worker_exits m then (i, UnlockM (Return AVoid))
    else match worker_take m with
         | None => (i, Goto WorkerLoop)
         | Some (job_id, request, m1) =>
             (set_i_mgr m1 i,
              UnlockM
                (Emit (JobStarted, Info, job_id, [])
                (Body job_id (worker_body (m_config m) (m_strategy m) job_id request now_ms)
                (fun r =>
                 Emit (snd r)
                (LockM
                (Access false (fun _ i =>
                   (set_i_mgr (worker_settle job_id (fst r) (i_mgr i)) i, Goto WorkerLoop))))))))
         end).

(** ** start, shutdown *)

Definition with_content (a : open_answers) (d : database) : open_answers :=
  mkAnswers (existed a) (open_error a) (integrity_verdict a) (journal_mode a) (synchronous a)
    (foreign_keys a) d.

Fixpoint spawn_workers (n : nat) (spawned : list nat) (k : list nat -> code) : code :=
  match n with
  | O => k spawned
  | S n' => Spawn (fun t => spawn_workers n' (spawned ++ [t]) k)
  end.

(** The last critical section of [start]. *)
Definition start_spawned (spawned : list nat) : code :=
  LockM (Access false (fun _ i =>
    (mkImpl (i_mgr i) (i_workers i ++ spawned), UnlockM (Return (ABool true []))))).

Definition spawn_pool (count : Z) : code := spawn_workers (Z.to_nat count) [] start_spawned.

(** [start] once the store is open. *)
Definition start_opened : code :=
  LockM (Access false (fun _ i =>
    let count := if 0 <? jobs_workers (m_config (i_mgr i))
                 then jobs_workers (m_config (i_mgr i)) else 1 in
    (set_i_mgr (mark_started (i_mgr i)) i,
     UnlockM (spawn_pool count)))).

Definition start_code (store_path : bytes) (answers : open_answers) : code :=
  LockM (Access false (fun _ i =>
    if running (i_mgr i) then (i, UnlockM (Return (ABool true [])))
    else (i, UnlockM (
      LockS (Store (str "start") (fun s =>
        let '(r, s') := Store.open store_path (with_content answers (db s)) s in
        (s', UnlockS match r with
                     | Error e => Return (ABool false e)
                     | Ok _ => start_opened
                     end))))))).

Fixpoint join_all (ts : list nat) (k : code) : code :=
  match ts with
  | [] => k
  | t :: ts' => Join t (join_all ts' k)
  end.

Definition shutdown_code : code :=
  LockM (Access false (fun _ i =>
    match shutdown_begin (i_mgr i) with
    | None => (i, UnlockM (Return AVoid))
    | Some m1 =>
        (mkImpl m1 [],
         Notify true (UnlockM (
         join_all (i_workers i)
        (LockS (Store (str "shutdown") (fun s => (Store.close s, UnlockS (Return AVoid))))))))
    end)).

(** ** Commands *)

Definition refuse (e : refusal) : code := Return (AResult e []).

(** [submit] once the store has answered. *)
Definition submit_recorded (job_id : bytes) (request : MoveRequest) (r : result unit bytes) : code :=
  LockM (Access false (fun _ i =>
    (set_i_mgr (submit_settle job_id request (is_ok r) (i_mgr i)) i,
     match r with
     | Error e => UnlockM (refuse (StoreError, e))
     | Ok _ =>
         Notify false (UnlockM (
         Emit (JobSubmitted, Info, job_id, []) (Return (AResult (CmdOk, []) job_id))))
     end))).

Definition submit_id_code (job_id : bytes) (request : MoveRequest) : code :=
  LockM (Access false (fun now_ms i =>
    match submit_claim job_id (i_mgr i) with
    | Error e => (i, UnlockM (refuse e))
    | Ok m1 =>
        (set_i_mgr m1 i, UnlockM (
         LockS (Store (str "submit") (fun s =>
           let '(r, s') := record_intent (request_job job_id request now_ms) s in
           (s', UnlockS (submit_recorded job_id request r))))))
    end)).

Definition submit_code (request : MoveRequest) : code :=
  LockM (Access false (fun _ i =>
    if negb (running (i_mgr i)) then (i, UnlockM (refuse not_running))
    else (i, UnlockM (
      LockS (Store (str "submit") (fun s =>
        let '(q, s') := next_sequence s in
        (s', UnlockS
          match q with
          | Error e => refuse (StoreError, e)
          | Ok sequence => submit_id_code (str "job-" ++ dec sequence) request
          end))))))).

Definition pause_code (job_id : bytes) : code :=
  LockM (Access false (fun _ i =>
    match pause job_id (i_mgr i) with
    | Error e => (i, UnlockM (refuse e))
    | Ok m1 =>
        (set_i_mgr m1 i,
         UnlockM (Emit (JobPaused, Info, job_id, []) (Return (AResult (CmdOk, []) []))))
    end)).

Definition resume_code (job_id : bytes) : code :=
  LockM (Access false (fun _ i =>
    match resume job_id (i_mgr i) with
    | Error e => (i, UnlockM (refuse e))
    | Ok m1 =>
        (set_i_mgr m1 i,
         Notify false (UnlockM (
         Emit (JobResumed, Info, job_id, []) (Return (AResult (CmdOk, []) [])))))
    end)).

(** The end of a cancel, under [store_mutex] until it returns. *)
Definition cancel_end (job_id : bytes) (was_runnable : bool) (outcome : refusal) : code :=
  if bool_decide (fst outcome = CmdOk) then
    Emit (JobCancelled, Info, job_id, []) (UnlockS (Return (AResult outcome [])))
  else if was_runnable then
    LockM (Access true (fun _ i =>
      (set_i_mgr (cancel_settle job_id (fst outcome) true (i_mgr i)) i,
       Notify false (UnlockM (UnlockS (Return (AResult outcome [])))))))
  else UnlockS (Return (AResult outcome [])).

Definition cancel_code (job_id : bytes) : code :=
  LockM (Access false (fun _ i =>
    match cancel_claim job_id (i_mgr i) with
    | Error e => (i, UnlockM (refuse e))
    | Ok (was_runnable, m1) =>
        (set_i_mgr m1 i, UnlockM (
         LockS (Store (str "cancel") (fun s =>
           let '(l, s1) := load job_id s in
           (s1,
            match l with
            | Error e => cancel_end job_id was_runnable (UnknownJob, e)
            | Ok None => cancel_end job_id was_runnable (UnknownJob, [])
            | Ok (Some job) =>
                if negb (bool_decide (state job = Queued)) then
                  cancel_end job_id was_runnable
                    (InvalidState, str "manager: job '" ++ job_id ++ str "' is "
                                   ++ to_string (state job) ++ str " and cannot be cancelled")
                else
                  Store (str "cancel") (fun s =>
                    let '(u, s2) := update_state job_id Failed (updated_at_ms job + 1)
                                      (str "cancelled by operator") s in
                    (s2, cancel_end job_id was_runnable
                           match u with Error e => (StoreError, e) | Ok _ => (CmdOk, []) end))
            end)))))
    end)).

(** The last part of a retry, the candidate reserved. *)
Definition retry_record (job_id : bytes) (move : MoveRequest) (now_ms : Z) (candidate : bytes) : code :=
  Store (str "retry") (fun s =>
    let '(r, s') := record_intent_retry (request_job candidate move now_ms) job_id s in
    (s',
     LockM (Access false (fun _ i =>
       (set_i_mgr (submit_settle candidate move (is_ok r) (i_mgr i)) i,
        match r with
        | Error e => UnlockM (UnlockS (refuse (StoreError, e)))
        | Ok _ =>
            Notify false (UnlockM (UnlockS (
            Emit (JobRetrySubmitted, Info, candidate, str "retry_of=" ++ job_id)
           (Return (AResult (CmdOk, []) candidate)))))
        end))))).

Definition retry_loop (job_id : bytes) (move : MoveRequest) (now_ms n : Z) : code :=
  let candidate := retry_candidate job_id n in
  Store (str "retry") (fun s =>
    let '(l, s') := load candidate s in
    (s',
     match l with
     | Error e => UnlockS (refuse (StoreError, e))
     | Ok (Some _) => Goto (RetrySearch job_id move now_ms (n + 1))
     | Ok None =>
         LockM (Access false (fun _ i =>
           match retry_reserve candidate (i_mgr i) with
           | Some m1 => (set_i_mgr m1 i, UnlockM (retry_record job_id move now_ms candidate))
           | None => (i, UnlockM (Goto (RetrySearch job_id move now_ms (n + 1))))
           end))
     end)).

Definition retry_code (job_id : bytes) : code :=
  LockM (Access false (fun now_ms i =>
    match retry_claim job_id (i_mgr i) with
    | Error e => (i, UnlockM (refuse e))
    | Ok move =>
        (i, UnlockM (
         LockS (Store (str "retry") (fun s =>
           let '(c, s') := retry_check job_id s in
           (s',
            match c with
            | Error e => UnlockS (refuse e)
            | Ok _ => Goto (RetrySearch job_id move now_ms 1)
            end)))))
    end)).

Definition pump_code : code :=
  LockM (Access false (fun now_ms i =>
    let '(moved, error, m1) := pump now_ms (i_mgr i) in
    (set_i_mgr m1 i,
     (if 0 <? moved then Notify true else fun k => k) (UnlockM (Return (ACount moved error)))))).

(** The millisecond of sleep between two polls is not an action. *)
Definition wait_idle_loop (waited timeout_ms : Z) : code :=
  LockM (Access false (fun _ i =>
    if idle (i_mgr i) then (i, UnlockM (Return (ABool true [])))
    else (i, UnlockM (
      if timeout_ms <=? waited then
        LockM (Access false (fun _ i => (i, UnlockM (Return (ABool (idle (i_mgr i)) [])))))
      else Goto (WaitIdle (waited + 1) timeout_ms))))).

Definition wait_idle_code (timeout_ms : Z) : code := Goto (WaitIdle 0 timeout_ms).

Definition set_strategy_code (strategy : MoveStrategy) : code :=
  LockM (Access false (fun _ i =>
    (set_i_mgr (set_strategy strategy (i_mgr i)) i, UnlockM (Return AVoid)))).

(** [set_clock] and [set_phase_hook]: what is installed is the environment's, which answers
    every clock reading and every callback. *)
Definition install_code : code :=
  LockM (Access false (fun _ i => (i, UnlockM (Return AVoid)))).

Definition is_running_code : code :=
  LockM (Access false (fun _ i => (i, UnlockM (Return (ABool (running (i_mgr i)) []))))).
Definition runnable_count_code : code :=
  LockM (Access false (fun _ i =>
    (i, UnlockM (Return (ACount (Z.of_nat (length (runnable (i_mgr i)))) []))))).
Definition active_count_code : code :=
  LockM (Access false (fun _ i =>
    (i, UnlockM (Return (ACount (Z.of_nat (size (active (i_mgr i)))) []))))).

(** The public functions. *)
Inductive public : code -> Prop :=
| p_start store_path answers : public (start_code store_path answers)
| p_shutdown : public shutdown_code
| p_submit request : public (submit_code request)
| p_submit_id job_id request : public (submit_id_code job_id request)
| p_pause job_id : public (pause_code job_id)
| p_resume job_id : public (resume_code job_id)
| p_cancel job_id : public (cancel_code job_id)
| p_retry job_id : public (retry_code job_id)
| p_pump : public pump_code
| p_wait_idle timeout_ms : public (wait_idle_code timeout_ms)
| p_set_strategy strategy : public (set_strategy_code strategy)
| p_install : public install_code
| p_is_running : public is_running_code
| p_runnable_count : public runnable_count_code
| p_active_count : public active_count_code.

Definition body_at (l : label) : code :=
  match l with
  | WorkerLoop => worker_loop
  | RetrySearch job_id move now_ms n => retry_loop job_id move now_ms n
  | WaitIdle waited timeout_ms => wait_idle_loop waited timeout_ms
  end.

(** * The machine *)

Record tstate := mkThread {
  t_code : code;
  t_depth : Z;      (* g_manager_lock_depth *)
  t_status : status;
  t_worker : bool
}.

Record machine := mkMachine {
  k_impl : impl;
  k_data : database;
  k_open : bool;                (* the commands' connection *)
  k_disk : fs;
  k_mutex : option nat;
  k_store_mutex : option nat;
  k_threads : gmap nat tstate;
  k_published : list emission;
  k_aborted : bool
}.

Definition set_threads (ts : gmap nat tstate) (x : machine) : machine :=
  mkMachine (k_impl x) (k_data x) (k_open x) (k_disk x) (k_mutex x) (k_store_mutex x) ts
    (k_published x) (k_aborted x).
Definition set_mutex (o : option nat) (x : machine) : machine :=
  mkMachine (k_impl x) (k_data x) (k_open x) (k_disk x) o (k_store_mutex x) (k_threads x)
    (k_published x) (k_aborted x).
Definition set_store_mutex (o : option nat) (x : machine) : machine :=
  mkMachine (k_impl x) (k_data x) (k_open x) (k_disk x) (k_mutex x) o (k_threads x)
    (k_published x) (k_aborted x).
Definition set_impl (i : impl) (x : machine) : machine :=
  mkMachine i (k_data x) (k_open x) (k_disk x) (k_mutex x) (k_store_mutex x) (k_threads x)
    (k_published x) (k_aborted x).
Definition set_data (d : database) (opened : bool) (f : fs) (x : machine) : machine :=
  mkMachine (k_impl x) d opened f (k_mutex x) (k_store_mutex x) (k_threads x)
    (k_published x) (k_aborted x).
Definition publish_event (e : emission) (x : machine) : machine :=
  mkMachine (k_impl x) (k_data x) (k_open x) (k_disk x) (k_mutex x) (k_store_mutex x) (k_threads x)
    (k_published x ++ [e]) (k_aborted x).
Definition abort_process (x : machine) : machine :=
  mkMachine (k_impl x) (k_data x) (k_open x) (k_disk x) (k_mutex x) (k_store_mutex x) (k_threads x)
    (k_published x) true.

(** Thread [t], of which [s] is the state, goes on with [k] at depth [d]. *)
Definition at_depth (k : code) (d : Z) (s : tstate) : tstate := mkThread k d (t_status s) (t_worker s).
Definition go_on (t : nat) (s : tstate) (k : code) (d : Z) (x : machine) : machine :=
  set_threads (<[t := at_depth k d s]> (k_threads x)) x.
Definition with_status (st : status) (s : tstate) : tstate :=
  mkThread (t_code s) (t_depth s) st (t_worker s).
Definition wake (s : tstate) : tstate :=
  match t_status s with Asleep => with_status Woken s | _ => s end.

(** A wait releases the mutex without counting: [ManagerLock] is not told. *)
Inductive run_turn (t : nat) : machine -> machine -> Prop :=
| r_lock s k x : k_threads x !! t = Some s -> t_status s = Ready -> t_code s = LockM k ->
    k_mutex x = None ->
    run_turn t x (set_mutex (Some t) (go_on t s k (t_depth s + 1) x))
| r_unlock s k x : k_threads x !! t = Some s -> t_status s = Ready -> t_code s = UnlockM k ->
    run_turn t x (set_mutex None (go_on t s k (t_depth s - 1) x))
| r_lock_store s k x : k_threads x !! t = Some s -> t_status s = Ready -> t_code s = LockS k ->
    k_store_mutex x = None ->
    run_turn t x (set_store_mutex (Some t) (go_on t s k (t_depth s) x))
| r_unlock_store s k x : k_threads x !! t = Some s -> t_status s = Ready -> t_code s = UnlockS k ->
    run_turn t x (set_store_mutex None (go_on t s k (t_depth s) x))
| r_access s b f now_ms i k x : k_threads x !! t = Some s -> t_status s = Ready ->
    t_code s = Access b f -> f now_ms (k_impl x) = (i, k) ->
    run_turn t x (set_impl i (go_on t s k (t_depth s) x))
| r_store s what f c c' k x : k_threads x !! t = Some s -> t_status s = Ready ->
    t_code s = Store what f -> t_depth s = 0 ->
    db c = k_data x -> is_open c = k_open x -> f c = (c', k) ->
    run_turn t x (set_data (db c') (is_open c') (k_disk x) (go_on t s k (t_depth s) x))
| r_own_open s k1 k2 (ok : bool) x : k_threads x !! t = Some s -> t_status s = Ready ->
    t_code s = OwnOpen k1 k2 ->
    run_turn t x (go_on t s (if ok then k1 else k2) (t_depth s) x)
| r_call s id p k p' f e e' x : k_threads x !! t = Some s -> t_status s = Ready ->
    t_code s = Body id p k -> returned p = None ->
    db (e_store e) = k_data x -> next p (k_disk x) e = (p', f, e') ->
    run_turn t x (set_data (db (e_store e')) (k_open x) f (go_on t s (Body id p' k) (t_depth s) x))
| r_end s id r k x : k_threads x !! t = Some s -> t_status s = Ready ->
    t_code s = Body id (Ret r) k ->
    run_turn t x (go_on t s (k r) (t_depth s) x)
| r_emit s e k x : k_threads x !! t = Some s -> t_status s = Ready -> t_code s = Emit e k ->
    t_depth s = 0 ->
    run_turn t x (publish_event e (go_on t s k (t_depth s) x))
| r_assert s x : k_threads x !! t = Some s -> t_status s = Ready ->
    match t_code s with Store _ _ | Emit _ _ => True | _ => False end -> t_depth s <> 0 ->
    run_turn t x (abort_process x)
| r_notify_all s k x : k_threads x !! t = Some s -> t_status s = Ready -> t_code s = Notify true k ->
    run_turn t x (set_threads (wake <$> k_threads (go_on t s k (t_depth s) x)) x)
| r_notify_one s k t' s' x : k_threads x !! t = Some s -> t_status s = Ready ->
    t_code s = Notify false k -> k_threads x !! t' = Some s' -> t_status s' = Asleep ->
    run_turn t x (set_threads (<[t' := wake s']> (k_threads (go_on t s k (t_depth s) x))) x)
| r_notify_none s k x : k_threads x !! t = Some s -> t_status s = Ready ->
    t_code s = Notify false k ->
    (forall t' s', k_threads x !! t' = Some s' -> t_status s' <> Asleep) ->
    run_turn t x (go_on t s k (t_depth s) x)
| r_wait s k x : k_threads x !! t = Some s -> t_status s = Ready -> t_code s = Wait k ->
    run_turn t x
      (set_mutex None (set_threads (<[t := mkThread k (t_depth s) Asleep (t_worker s)]> (k_threads x)) x))
| r_relock s x : k_threads x !! t = Some s -> t_status s = Woken -> k_mutex x = None ->
    run_turn t x (set_mutex (Some t) (set_threads (<[t := with_status Ready s]> (k_threads x)) x))
| r_spawn s k t' x : k_threads x !! t = Some s -> t_status s = Ready -> t_code s = Spawn k ->
    k_threads x !! t' = None ->
    run_turn t x
      (set_threads (<[t' := mkThread run_worker 0 Ready true]> (k_threads (go_on t s (k t') (t_depth s) x))) x)
| r_join s t' s' a k x : k_threads x !! t = Some s -> t_status s = Ready -> t_code s = Join t' k ->
    k_threads x !! t' = Some s' -> t_code s' = Return a ->
    run_turn t x (go_on t s k (t_depth s) x)
| r_goto s l x : k_threads x !! t = Some s -> t_status s = Ready -> t_code s = Goto l ->
    run_turn t x (go_on t s (body_at l) (t_depth s) x).

(** What the threads do not do themselves: a wake-up for no reason, a new call. *)
Inductive outside : machine -> machine -> Prop :=
| k_spurious t s x : k_threads x !! t = Some s -> t_status s = Asleep ->
    outside x (set_threads (<[t := wake s]> (k_threads x)) x)
| k_arrive t c x : k_threads x !! t = None -> public c ->
    outside x (set_threads (<[t := mkThread c 0 Ready false]> (k_threads x)) x).

(** Anything may happen next. *)
Inductive machine_step : machine -> machine -> Prop :=
| k_turn t x x' : run_turn t x x' -> machine_step x x'
| k_outside x x' : outside x x' -> machine_step x x'.

(** Anything but a refused cancel giving its job back. *)
Definition gives_back (x : machine) (t : nat) : bool :=
  match t_code <$> k_threads x !! t with Some (Access true _) => true | _ => false end.
Inductive unrefused_step : machine -> machine -> Prop :=
| u_turn t x x' : run_turn t x x' -> gives_back x t = false -> unrefused_step x x'
| u_outside x x' : outside x x' -> unrefused_step x x'.

Definition new_machine (cfg : Config) (d : database) (f : fs) : machine :=
  mkMachine (mkImpl (new_manager cfg) []) d false f None None ∅ [] false.

(** ** Turns that compute

    One choice of what the environment leaves open: the clock reads zero, a worker opens its
    store, the first sleeper is woken, the first call on the connection fails when [fault]
    says so and nothing else does. *)

Definition sleeper (x : machine) : option (nat * tstate) :=
  head (filter (fun p => t_status p.2 = Asleep) (map_to_list (k_threads x))).

Definition connection (fault : option bytes) (opened : bool) (d : database) : JobStore :=
  mkStore opened false 1073741823 d (match fault with Some _ => [fault] | None => [] end).

Definition take_turn (fault : option bytes) (t : nat) (x : machine) : option machine :=
  s ← k_threads x !! t;
  match t_status s with
  | Asleep => None
  | Woken =>
      if decide (k_mutex x = None)
      then Some (set_mutex (Some t) (set_threads (<[t := with_status Ready s]> (k_threads x)) x))
      else None
  | Ready =>
      match t_code s with
      | Return _ => None
      | LockM k =>
          if decide (k_mutex x = None) then Some (set_mutex (Some t) (go_on t s k (t_depth s + 1) x)) else None
      | UnlockM k => Some (set_mutex None (go_on t s k (t_depth s - 1) x))
      | LockS k =>
          if decide (k_store_mutex x = None) then Some (set_store_mutex (Some t) (go_on t s k (t_depth s) x)) else None
      | UnlockS k => Some (set_store_mutex None (go_on t s k (t_depth s) x))
      | Access _ f => let '(i, k) := f 0 (k_impl x) in Some (set_impl i (go_on t s k (t_depth s) x))
      | Store _ f =>
          if decide (t_depth s = 0) then
            let '(c', k) := f (connection fault (k_open x) (k_data x)) in
            Some (set_data (db c') (is_open c') (k_disk x) (go_on t s k (t_depth s) x))
          else Some (abort_process x)
      | OwnOpen k _ => Some (go_on t s k (t_depth s) x)
      | Body id p k =>
          match returned p with
          | Some r => Some (go_on t s (k r) (t_depth s) x)
          | None =>
              let '(p', f, e') := next p (k_disk x) (mkEngine (connection fault true (k_data x)) []) in
              Some (set_data (db (e_store e')) (k_open x) f (go_on t s (Body id p' k) (t_depth s) x))
          end
      | Emit e k =>
          Some (if decide (t_depth s = 0) then publish_event e (go_on t s k (t_depth s) x) else abort_process x)
      | Notify true k => Some (set_threads (wake <$> k_threads (go_on t s k (t_depth s) x)) x)
      | Notify false k =>
          Some match sleeper x with
               | Some (t', s') => set_threads (<[t' := wake s']> (k_threads (go_on t s k (t_depth s) x))) x
               | None => go_on t s k (t_depth s) x
               end
      | Wait k =>
          Some (set_mutex None
                  (set_threads (<[t := mkThread k (t_depth s) Asleep (t_worker s)]> (k_threads x)) x))
      | Spawn k =>
          let t' := fresh (dom (k_threads x)) in
          Some (set_threads (<[t' := mkThread run_worker 0 Ready true]>
                  (k_threads (go_on t s (k t') (t_depth s) x))) x)
      | Join t' k =>
          s' ← k_threads x !! t';
          match t_code s' with Return _ => Some (go_on t s k (t_depth s) x) | _ => None end
      | Goto l => Some (go_on t s (body_at l) (t_depth s) x)
      end
  end.

(** What happens next: a thread's turn, a turn in which its store call fails, a wake-up for
    no reason, a new call. *)
Inductive choice :=
| Turn (t : nat)
| Faulty (t : nat) (message : bytes)
| Spurious (t : nat)
| Call (t : nat) {c : code} (p : public c).

Definition choose (c : choice) (x : machine) : option machine :=
  match c with
  | Turn t => take_turn None t x
  | Faulty t message => take_turn (Some message) t x
  | Spurious t =>
      s ← k_threads x !! t;
      match t_status s with
      | Asleep => Some (set_threads (<[t := wake s]> (k_threads x)) x)
      | _ => None
      end
  | @Call t c _ =>
      match k_threads x !! t with
      | None => Some (set_threads (<[t := mkThread c 0 Ready false]> (k_threads x)) x)
      | Some _ => None
      end
  end.

Fixpoint schedule (cs : list choice) (x : machine) : option machine :=
  match cs with
  | [] => Some x
  | c :: cs' => x' ← choose c x; schedule cs' x'
  end.

Lemma sleeper_spec x :
  match sleeper x with
  | Some (t, s) => k_threads x !! t = Some s /\ t_status s = Asleep
  | None => forall t s, k_threads x !! t = Some s -> t_status s <> Asleep
  end.
Proof.
  unfold sleeper. destruct (filter _ _) as [|[t s] l] eqn:E; simpl.
  - intros t s Ht Hs. eapply (not_elem_of_nil (t, s)). rewrite <- E.
    by apply list_elem_of_filter, conj, elem_of_map_to_list.
  - assert ((t, s) ∈ filter (fun p : nat * tstate => t_status p.2 = Asleep) (map_to_list (k_threads x))) as H
      by (rewrite E; apply list_elem_of_here).
    apply list_elem_of_filter in H as [Hs Ht%elem_of_map_to_list]. done.
Qed.

Lemma take_turn_sound fault t x x' : take_turn fault t x = Some x' -> run_turn t x x'.
Proof.
  unfold take_turn. destruct (k_threads x !! t) as [s|] eqn:Ht; [|done]. simpl.
  destruct (t_status s) eqn:Hr; [|done|].
  2: { case_decide; [|done]. intros [= <-]. by apply r_relock. }
  destruct (t_code s) as [a|k|k|k|k|b0 f|what f|k1 k2|id p k|e k|b k|k|k|t' k|l] eqn:Hc; [done|..].
  - case_decide; [|done]. intros [= <-]. by apply r_lock.
  - intros [= <-]. by apply r_unlock.
  - case_decide; [|done]. intros [= <-]. by apply r_lock_store.
  - intros [= <-]. by apply r_unlock_store.
  - destruct (f 0 (k_impl x)) as [i k] eqn:Ef. intros [= <-]. by eapply r_access.
  - case_decide.
    + destruct (f _) as [c' k] eqn:Ef. intros [= <-]. by eapply (r_store t s what f _ c' k x Ht Hr Hc); [..|exact Ef].
    + intros [= <-]. eapply r_assert; [done..| |done]. by rewrite Hc.
  - intros [= <-]. by eapply (r_own_open t s k1 k2 true).
  - destruct (returned p) as [r|] eqn:Ep.
    + intros [= <-]. destruct p; try done. simpl in Ep. simplify_eq. by eapply r_end.
    + destruct (next p _ _) as [[p' f] e'] eqn:En. intros [= <-].
      by eapply (r_call t s id p k p' f _ e' x Ht Hr Hc Ep); [|exact En].
  - intros [= <-]. case_decide; [by apply r_emit|]. eapply r_assert; [done..| |done]. by rewrite Hc.
  - pose proof (sleeper_spec x) as Hs. destruct b; intros [= <-]; [by eapply r_notify_all|].
    destruct (sleeper x) as [[t' s']|]; [destruct Hs; by eapply r_notify_one|by eapply r_notify_none].
  - intros [= <-]. by apply r_wait.
  - intros [= <-]. apply r_spawn; try done. apply not_elem_of_dom, is_fresh.
  - destruct (k_threads x !! t') as [s'|] eqn:Ht'; [|done]. simpl. destruct (t_code s') eqn:Hc'; try done.
    intros [= <-]. by eapply r_join.
  - intros [= <-]. by apply r_goto.
Qed.

(** No choice lets a refused cancel give its job back. *)
Fixpoint unrefused_choices (cs : list choice) (x : machine) : bool :=
  match cs with
  | [] => true
  | c :: cs' =>
      match c with Turn t | Faulty t _ => negb (gives_back x t) | _ => true end &&
      match choose c x with Some x' => unrefused_choices cs' x' | None => false end
  end.

Lemma choose_outside c x x' : choose c x = Some x' ->
  match c with Turn _ | Faulty _ _ => True | _ => outside x x' end.
Proof.
  destruct c as [t|t message|t|t c p]; simpl; [done|done|..].
  - destruct (k_threads x !! t) as [s|] eqn:Ht; [|done]. simpl. destruct (t_status s) eqn:Hs; try done.
    intros [= <-]. by apply k_spurious.
  - destruct (k_threads x !! t) eqn:Ht; [done|]. intros [= <-]. by apply k_arrive.
Qed.

Lemma choose_sound c x x' : choose c x = Some x' -> machine_step x x'.
Proof.
  intros Hx. pose proof (choose_outside _ _ _ Hx) as Ho.
  destruct c; simpl in Hx; first [by apply k_outside|by eapply k_turn, take_turn_sound].
Qed.

Lemma schedule_sound cs x x' : schedule cs x = Some x' -> star machine_step x x'.
Proof.
  revert x. induction cs as [|c cs IH]; intros x; simpl; [intros [= <-]; constructor|].
  destruct (choose c x) as [x1|] eqn:E; [|done]. simpl. intros Hx.
  eapply star_step; [by eapply choose_sound|by apply IH].
Qed.

Lemma schedule_unrefused cs x x' :
  schedule cs x = Some x' -> unrefused_choices cs x = true -> star unrefused_step x x'.
Proof.
  revert x. induction cs as [|c cs IH]; intros x; simpl; [intros [= <-]; constructor|].
  destruct (choose c x) as [x1|] eqn:E; [|done]. simpl. intros Hx [Hc Hcs]%andb_true_iff.
  eapply star_step; [|by apply IH]. pose proof (choose_outside _ _ _ E) as Ho.
  destruct c; simpl in E, Hc; bool_prop;
    first [by apply u_outside|eapply u_turn; [by eapply take_turn_sound|by destruct (gives_back _ _)]].
Qed.
End Code.
Arguments choice : clear implicits.
Arguments code : clear implicits.
Arguments tstate : clear implicits.
Arguments machine : clear implicits.

(** The job thread [t] is moving. *)
Definition moves_job {fs} `{!Kernel fs} (x : machine fs) (t : nat) : option bytes :=
  match t_code <$> k_threads x !! t with Some (Body id _ _) => Some id | _ => None end.
