(* ===== verification/Scheduling.v ===== *)
(** Mutexes, wake-ups and joins of the job manager: src/cpp/src/manager.cpp.

    [ok] is the discipline the code keeps to, checked function by function; [minv] is what it
    makes of any number of threads.  [lock_discipline]: the assertion of
    [assert_no_manager_lock] never fires, the queues are only touched under the mutex, the
    connection only under [store_mutex] and without the mutex, and the mutex is never held
    while [store_mutex] is taken.  [never_stuck]: nothing blocks for ever but workers asleep
    with an empty queue, and a shutdown that joins them only when the manager has been started
    again; no wake-up is lost. *)

From S2P Require Import Prelude Job Store Kernel Crash FsOps Mover Events Config Manager Dispatch Threads.

Section Scheduling.
Context {fs : Type} `{!Kernel fs}.
Local Abbreviation code := (code fs).
Local Abbreviation machine := (machine fs).
Local Abbreviation tstate := (tstate fs).

(** * What every piece of code keeps to *)

Definition is_notify (all : bool) (c : code) : bool :=
  match c with Notify b _ => implb all b | _ => false end.
Definition at_wait (c : code) : bool := match c with Wait _ => true | _ => false end.
(** A worker that will look at the queue again before it is done. *)
Definition alive (c : code) : bool :=
  match c with Return _ | UnlockM (Return _) | OwnOpen _ _ => false | _ => true end.

Definition empty_queue (i : impl) : Prop := runnable (i_mgr i) = [].

(** What a critical section owes to the sleeping workers: it notifies when it makes the
    queue non-empty or stops the manager; a wait, or a worker's exit, has seen nothing to do. *)
Definition section_ok (w : bool) (i i' : impl) (k : code) : Prop :=
  (empty_queue i -> ~ empty_queue i' -> is_notify false k = true) /\
  (stopping (i_mgr i) = false -> stopping (i_mgr i') = true -> is_notify true k = true) /\
  (at_wait k = true -> empty_queue i' /\ stopping (i_mgr i') = false) /\
  (w = true -> alive k = false -> empty_queue i').

Definition label_locks (l : label) : bool * bool * bool :=
  match l with
  | WorkerLoop => (true, true, false)
  | RetrySearch _ _ _ _ => (false, false, true)
  | WaitIdle _ _ => (false, false, false)
  end.

(** [ok W w hm hs c]: code [c] of a worker ([w]) or of a command, entered with the manager
    mutex ([hm]) and the store mutex ([hs]) held, locks and unlocks in order, touches the
    queues only under the first, the connection and the event stream only without it, and
    joins only workers, of which it knows [W]. *)
Fixpoint ok (W : gset nat) (w hm hs : bool) (c : code) : Prop :=
  match c with
  | Return _ => hm = false /\ hs = false
  | LockM k => hm = false /\ at_wait k = false /\ (w = true -> alive k = true) /\ ok W w true hs k
  | UnlockM k =>
      hm = true /\ (w = true -> match k with Return _ => True | _ => alive k = true end) /\
      ok W w false hs k
  | LockS k => w = false /\ hm = false /\ hs = false /\ ok W w hm true k
  | UnlockS k => w = false /\ hm = false /\ hs = true /\ ok W w hm false k
  | Access _ f =>
      hm = true /\
      forall now_ms i, section_ok w i (fst (f now_ms i)) (snd (f now_ms i)) /\
        (forall t, t ∈ i_workers (fst (f now_ms i)) -> t ∈ i_workers i \/ t ∈ W) /\
        ok (W ∪ list_to_set (i_workers i)) w hm hs (snd (f now_ms i))
  | Store _ f => w = false /\ hm = false /\ hs = true /\ forall c, ok W w hm hs (snd (f c))
  | OwnOpen k1 k2 => w = true /\ hm = false /\ hs = false /\ ok W w hm hs k1 /\ ok W w hm hs k2
  | Body _ _ k => w = true /\ hm = false /\ hs = false /\ forall r, alive (k r) = true /\ ok W w hm hs (k r)
  | Emit _ k => hm = false /\ (w = true -> alive k = true) /\ ok W w hm hs k
  | Notify _ k => hm = true /\ at_wait k = false /\ (w = true -> alive k = true) /\ ok W w hm hs k
  | Wait k =>
      w = true /\ hm = true /\ hs = false /\ at_wait k = false /\ alive k = true /\ ok W w hm hs k
  | Spawn k => w = false /\ hm = false /\ forall t, ok ({[t]} ∪ W) w hm hs (k t)
  | Join t k => w = false /\ hm = false /\ hs = false /\ t ∈ W /\ ok W w hm hs k
  | Goto l => label_locks l = (w, hm, hs)
  end.

(** ** The functions of the manager keep to it *)

Create HintDb discipline.

(** Splits the obligations of a piece of code into those of its critical sections, and
    closes the ones that evaluating the section decides. *)
Ltac ok_split :=
  repeat first
    [ done
    | solve [auto with discipline]
    | progress cbn [ok fst snd]
    | progress intros
    | match goal with |- _ /\ _ => split end
    | progress (unfold section_ok, refuse in * )
    | case_match; simplify_eq/= ].
Ltac section_eval :=
  unfold empty_queue, worker_exits, worker_take, submit_claim, submit_settle, pause, resume, cancel_claim,
    cancel_settle, retry_reserve, retry_claim, worker_settle in *;
  repeat case_match; simplify_eq/=;
  repeat match goal with
    | H : context [bool_decide ?P] |- _ => destruct (bool_decide_reflect P); simplify_eq/=
    | H : negb _ = true |- _ => apply negb_true_iff in H
    end;
  repeat match goal with H : runnable _ = [], H' : _ |- _ => rewrite H in H'; simplify_eq/= end;
  try congruence; auto.
Ltac ok_walk := ok_split; section_eval.

Lemma pump_runnable now_ms m :
  runnable m = [] -> runnable (snd (pump now_ms m)) <> [] -> (0 <? fst (fst (pump now_ms m))) = true.
Proof.
  unfold pump. destruct (running m); simpl; [|done]. intros ->. simpl. destruct (due_ids now_ms m); [done|].
  done.
Qed.

Lemma ok_spawn_workers W n spawned k :
  (forall t, t ∈ spawned -> t ∈ W) ->
  (forall W' ts, (forall t, t ∈ ts -> t ∈ W') -> ok W' false false false (k ts)) ->
  ok W false false false (spawn_workers n spawned k).
Proof.
  revert W spawned. induction n as [|n IH]; intros W spawned Hs Hk; simpl; [by apply Hk|].
  split_and!; [done|done|]. intros t. apply IH; [|done]. intros t'. rewrite elem_of_app. set_solver.
Qed.

Lemma ok_join_all W ts k :
  (forall t, t ∈ ts -> t ∈ W) -> ok W false false false k -> ok W false false false (join_all ts k).
Proof. induction ts as [|t ts IH]; intros Ht Hk; simpl; [done|]. split_and!; try done; [set_solver|]. apply IH; set_solver. Qed.

Lemma ok_body l W : let '(w, hm, hs) := label_locks l in
  ok W w hm hs (body_at l) /\ at_wait (body_at l) = false /\ alive (body_at l) = true.
Proof.
  destruct l; simpl; (split; [|done]).
  - unfold worker_loop. ok_walk.
  - unfold retry_loop, retry_record. ok_walk.
  - unfold wait_idle_loop. ok_walk.
Qed.

Lemma ok_spawn_pool W count : ok W false false false (spawn_pool count).
Proof.
  apply ok_spawn_workers; [set_solver|]. intros W' ts Hts. unfold start_spawned. ok_walk.
  rewrite elem_of_app in *. set_solver.
Qed.
Arguments spawn_pool : simpl never.
Hint Resolve ok_spawn_pool : discipline.

Lemma ok_public c : public c -> ok ∅ false false false c.
Proof.
  destruct 1 as [path a| |req|id req|id|id|id|id| | | | | | |].
  - unfold start_code, start_opened. ok_walk.
  - unfold shutdown_code. ok_walk; [set_solver|]. apply ok_join_all; [set_solver|done].
  - unfold submit_code, submit_id_code, submit_recorded. ok_walk.
  - unfold submit_id_code, submit_recorded. ok_walk.
  - unfold pause_code. ok_walk.
  - unfold resume_code. ok_walk.
  - unfold cancel_code, cancel_end. ok_walk.
  - unfold retry_code. ok_walk.
  - unfold pump_code. cbn [ok]. split_and!; try done. intros now i.
    pose proof (pump_runnable now (i_mgr i)) as Hp. unfold pump in *.
    destruct (running (i_mgr i)); simpl in *; [|ok_walk]. set (due := due_ids _ _) in *. clearbody due.
    destruct due; [rewrite app_nil_r|]; ok_walk.
  - done.
  - unfold set_strategy_code. ok_walk.
  - unfold install_code. ok_walk.
  - unfold is_running_code. ok_walk.
  - unfold runnable_count_code. ok_walk.
  - unfold active_count_code. ok_walk.
Qed.

Lemma ok_run_worker : ok ∅ true false false run_worker.
Proof. done. Qed.

(** * The invariant of the machine *)

Definition is_worker (x : machine) (t : nat) : Prop :=
  exists s, k_threads x !! t = Some s /\ t_worker s = true.
(** No thread is asleep. *)
Definition quiet (x : machine) : Prop :=
  forall t s, k_threads x !! t = Some s -> t_status s <> Asleep.
(** Some worker is awake and will look at the queue. *)
Definition attended (x : machine) : Prop :=
  exists t s, k_threads x !! t = Some s /\ t_worker s = true /\ t_status s <> Asleep /\
    alive (t_code s) = true.
(** The owner of the mutex is about to notify. *)
Definition notifying (all : bool) (x : machine) : Prop :=
  exists t s, k_mutex x = Some t /\ k_threads x !! t = Some s /\ t_status s = Ready /\
    is_notify all (t_code s) = true.

Definition has_mutex (x : machine) (t : nat) : bool := bool_decide (k_mutex x = Some t).
Definition has_store (x : machine) (t : nat) : bool := bool_decide (k_store_mutex x = Some t).

Definition idle_queue (x : machine) : Prop :=
  empty_queue (k_impl x) /\ stopping (i_mgr (k_impl x)) = false.

Definition ready_ok (x : machine) (t : nat) (w : bool) (k : code) (d : Z) : Prop :=
  exists W, (forall t', t' ∈ W -> is_worker x t') /\ d = Z.b2z (has_mutex x t) /\
    ok W w (has_mutex x t) (has_store x t) k /\ (at_wait k = true -> idle_queue x).

(** Asleep, or woken and without the mutex yet. *)
Definition waiting_ok (x : machine) (t : nat) (w : bool) (k : code) (d : Z) : Prop :=
  exists W, (forall t', t' ∈ W -> is_worker x t') /\ d = 1 /\ w = true /\
    has_mutex x t = false /\ has_store x t = false /\ alive k = true /\ at_wait k = false /\
    ok W true true false k.

Definition thread_ok (x : machine) (t : nat) (s : tstate) : Prop :=
  match t_status s with
  | Ready => ready_ok x t (t_worker s) (t_code s) (t_depth s)
  | _ => waiting_ok x t (t_worker s) (t_code s) (t_depth s)
  end.

Record minv (x : machine) : Prop := {
  v_abort : k_aborted x = false;
  v_mutex t : k_mutex x = Some t -> is_Some (k_threads x !! t);
  v_store t : k_store_mutex x = Some t -> is_Some (k_threads x !! t);
  v_thread t s : k_threads x !! t = Some s -> thread_ok x t s;
  v_workers t : t ∈ i_workers (k_impl x) -> is_worker x t;
  v_runnable : ~ empty_queue (k_impl x) -> quiet x \/ attended x \/ notifying false x;
  v_stopping : stopping (i_mgr (k_impl x)) = true -> quiet x \/ notifying true x
}.

(** ** One thread's turn *)

(** Nothing changes for the other threads [t2] between [x] and [x'] but the queues, and
    those only when [t] has the mutex. *)
Record framed (t : nat) (x x' : machine) : Prop := {
  f_mutex t2 : t2 <> t -> has_mutex x' t2 = has_mutex x t2;
  f_store t2 : t2 <> t -> has_store x' t2 = has_store x t2;
  f_impl : k_impl x' = k_impl x \/ has_mutex x t = true;
  f_worker t2 : is_worker x t2 -> is_worker x' t2
}.

Lemma thread_ok_framed t x x' t2 s :
  framed t x x' -> t2 <> t -> thread_ok x t2 s -> thread_ok x' t2 s.
Proof.
  intros [Hm Hs Hi Hw] Hne. unfold thread_ok, ready_ok, waiting_ok.
  assert (forall W : gset nat, (forall t', t' ∈ W -> is_worker x t') -> forall t', t' ∈ W -> is_worker x' t') as HW
    by eauto.
  destruct (t_status s); rewrite Hm, Hs by done.
  - intros (W & H1 & H2 & H3 & H4). exists W. split_and!; [by apply HW|done|done|]. intros Hwait.
    destruct Hi as [Hi|Hi]; [unfold idle_queue; rewrite Hi; by apply H4|].
    destruct (t_code s); try done. destruct H3 as (_ & H3 & _).
    unfold has_mutex in *. bool_prop. congruence.
  - intros (W & H1 & H2). exists W. split; [by apply HW|done].
  - intros (W & H1 & H2). exists W. split; [by apply HW|done].
Qed.

(** The turn of a ready thread that stays ready. *)
Lemma minv_go t s k d x x' :
  minv x -> k_threads x !! t = Some s -> t_status s = Ready ->
  k_threads x' = <[t := at_depth k d s]> (k_threads x) -> k_aborted x' = false -> framed t x x' ->
  (forall t', t' ∈ i_workers (k_impl x') -> is_worker x' t') ->
  ready_ok x' t (t_worker s) k d ->
  (~ empty_queue (k_impl x') -> quiet x' \/ attended x' \/ notifying false x') ->
  (stopping (i_mgr (k_impl x')) = true -> quiet x' \/ notifying true x') ->
  minv x'.
Proof.
  intros Hi Ht Hr Hts Ha Hf Hw Hok Hq Hs. split; [done|..|done|done|done].
  - intros t2 H2. rewrite Hts. destruct (decide (t = t2)) as [->|Hne]; [by rewrite lookup_insert_eq|].
    rewrite lookup_insert_ne by done. apply (v_mutex _ Hi).
    pose proof (f_mutex _ _ _ Hf t2 ltac:(congruence)) as Hm. unfold has_mutex in Hm.
    rewrite bool_decide_eq_true_2 in Hm by done. symmetry in Hm. by bool_prop.
  - intros t2 H2. rewrite Hts. destruct (decide (t = t2)) as [->|Hne]; [by rewrite lookup_insert_eq|].
    rewrite lookup_insert_ne by done. apply (v_store _ Hi).
    pose proof (f_store _ _ _ Hf t2 ltac:(congruence)) as Hm. unfold has_store in Hm.
    rewrite bool_decide_eq_true_2 in Hm by done. symmetry in Hm. by bool_prop.
  - intros t2 s2. rewrite Hts, lookup_insert_Some. intros [[<- <-]|[Hne H2]].
    + unfold thread_ok, at_depth. simpl. by rewrite Hr.
    + eapply thread_ok_framed; [done|congruence|]. by apply (v_thread _ Hi).
Qed.

Lemma worker_go t s k d x x' t2 :
  k_threads x !! t = Some s -> k_threads x' = <[t := at_depth k d s]> (k_threads x) ->
  is_worker x t2 -> is_worker x' t2.
Proof.
  intros Ht Hts (s2 & H2 & Hw). unfold is_worker. rewrite Hts.
  destruct (decide (t = t2)) as [->|Hne].
  - rewrite lookup_insert_eq. eexists. split; [done|]. simpl. congruence.
  - rewrite lookup_insert_ne by done. by exists s2.
Qed.

(** A turn that leaves the queues alone and is not a notification. *)
Lemma minv_plain t s k d x x' :
  minv x -> k_threads x !! t = Some s -> t_status s = Ready ->
  k_threads x' = <[t := at_depth k d s]> (k_threads x) -> k_aborted x' = false ->
  k_impl x' = k_impl x ->
  (forall t2, t2 <> t -> has_mutex x' t2 = has_mutex x t2) ->
  (forall t2, t2 <> t -> has_store x' t2 = has_store x t2) ->
  is_notify false (t_code s) = false -> (t_worker s = true -> alive (t_code s) = true -> alive k = true) ->
  d = Z.b2z (has_mutex x' t) -> at_wait k = false ->
  (forall W, (forall t', t' ∈ W -> is_worker x' t') ->
     ok W (t_worker s) (has_mutex x t) (has_store x t) (t_code s) ->
     exists W', (forall t', t' ∈ W' -> is_worker x' t') /\
       ok W' (t_worker s) (has_mutex x' t) (has_store x' t) k) ->
  minv x'.
Proof.
  intros Hi Ht Hr Hts Ha Him Hm Hs Hn Hal Hd Hwt Hok.
  assert (forall t2, is_worker x t2 -> is_worker x' t2) as Hwk by (intros t2; by eapply worker_go).
  assert (quiet x -> quiet x') as Hq.
  { intros Hq t2 s2. rewrite Hts, lookup_insert_Some. intros [[<- <-]|[_ H2]]; [by simpl; rewrite Hr|eauto]. }
  assert (attended x -> attended x') as Hat.
  { intros (t2 & s2 & H1 & H2 & H3 & H4). exists t2. rewrite Hts. destruct (decide (t = t2)) as [->|Hne].
    - rewrite lookup_insert_eq. eexists. split; [done|]. simpl. rewrite Hr. simplify_eq. auto.
    - rewrite lookup_insert_ne by done. eauto. }
  assert (forall all, notifying all x -> notifying all x') as Hno.
  { intros all (t2 & s2 & H1 & H2 & H3 & H4). exists t2, s2.
    assert (t2 <> t) as Hne by (intros ->; simplify_eq; by destruct (t_code s), all).
    rewrite Hts, lookup_insert_ne by done. split_and!; try done.
    specialize (Hm t2 Hne). unfold has_mutex in Hm. rewrite (bool_decide_eq_true_2 (k_mutex x = _)) in Hm by done.
    by bool_prop. }
  eapply minv_go; try done.
  - split; auto.
  - rewrite Him. intros t' Ht'. by apply Hwk, (v_workers _ Hi).
  - pose proof (v_thread _ Hi t s Ht) as Hth. unfold thread_ok in Hth. rewrite Hr in Hth.
    destruct Hth as (W & H1 & H2 & H3 & H4). destruct (Hok W) as (W' & H5 & H6); [by eauto|done|].
    exists W'. split_and!; [done|done|done|]. by rewrite Hwt.
  - rewrite Him. intros Hne. destruct (v_runnable _ Hi Hne) as [?|[?|?]]; auto.
  - rewrite Him. intros Hst. destruct (v_stopping _ Hi Hst) as [?|?]; auto.
Qed.

(** What a ready thread's code may be, given what it holds. *)
Lemma ready_code x t s :
  minv x -> k_threads x !! t = Some s -> t_status s = Ready ->
  ready_ok x t (t_worker s) (t_code s) (t_depth s).
Proof. intros Hi Ht Hr. pose proof (v_thread _ Hi t s Ht) as H. unfold thread_ok in H. by rewrite Hr in H. Qed.

(** Waking threads breaks nothing. *)
Definition woken (x : machine) (ts : gmap nat tstate) : Prop :=
  forall t, ts !! t = k_threads x !! t \/ exists s, k_threads x !! t = Some s /\ ts !! t = Some (wake s).

Lemma wake_same (s : tstate) : t_code (wake s) = t_code s /\ t_worker (wake s) = t_worker s /\
  t_depth (wake s) = t_depth s.
Proof. unfold wake. by destruct (t_status s). Qed.

Lemma minv_wake x ts : minv x -> woken x ts -> minv (set_threads ts x).
Proof.
  intros Hi Hw.
  assert (forall t s, k_threads x !! t = Some s -> exists s', ts !! t = Some s' /\ (s' = s \/ s' = wake s)) as Hf.
  { intros t s Ht. destruct (Hw t) as [E|(s0 & E & E')]; [exists s; rewrite E; auto|].
    exists (wake s0). simplify_eq. auto. }
  assert (forall t, is_worker x t -> is_worker (set_threads ts x) t) as Hwk.
  { intros t (s & Ht & Hs). destruct (Hf t s Ht) as (s' & E & E'). exists s'. split; [done|].
    pose proof (wake_same s) as (_ & Hsw & _). destruct E' as [->| ->]; congruence. }
  assert (quiet x -> quiet (set_threads ts x)) as Hq.
  { intros Hq t s. simpl. destruct (Hw t) as [->|(s0 & E & ->)]; [apply Hq|]. intros [= <-].
    specialize (Hq t s0 E). unfold wake. by destruct (t_status s0) eqn:Es; rewrite ?Es. }
  assert (forall all, notifying all x -> notifying all (set_threads ts x)) as Hn.
  { intros all (t & s & H1 & H2 & H3 & H4). destruct (Hf t s H2) as (s' & E & E').
    assert (s' = s) as -> by (destruct E' as [->| ->]; [done|]; unfold wake; by rewrite H3).
    by exists t, s. }
  split; simpl.
  - apply Hi.
  - intros t [s Hs]%(v_mutex _ Hi). destruct (Hf t s Hs) as (s' & -> & _). done.
  - intros t [s Hs]%(v_store _ Hi). destruct (Hf t s Hs) as (s' & -> & _). done.
  - intros t s Ht. assert (exists s0, k_threads x !! t = Some s0 /\ (s = s0 \/ s = wake s0)) as (s0 & H0 & E).
    { destruct (Hw t) as [E|(s0 & E & E')]; [exists s; rewrite <- E; auto|]. exists s0. split; [done|]. right. congruence. }
    pose proof (v_thread _ Hi t s0 H0) as Hok. unfold thread_ok, ready_ok, waiting_ok in *.
    unfold wake in E. destruct (t_status s0) eqn:Es; destruct E as [->| ->]; rewrite ?Es; simpl;
      destruct Hok as (W & H1 & H2); exists W; split; eauto.
  - intros t Ht. by apply Hwk, (v_workers _ Hi).
  - intros Hne. destruct (v_runnable _ Hi Hne) as [?|[(t & s & H1 & H2 & H3 & H4)|?]]; [auto| |auto].
    right; left. destruct (Hf t s H1) as (s' & E & E'). exists t, s'. pose proof (wake_same s) as (Hc & Hsw & _).
    destruct E' as [->| ->]; [done|]. rewrite Hc, Hsw. split_and!; try done. unfold wake.
    by destruct (t_status s) eqn:Es; rewrite ?Es.
  - intros Hst. destruct (v_stopping _ Hi Hst); auto.
Qed.

(** A new thread, with nothing held. *)
Lemma minv_add x t c w :
  minv x -> k_threads x !! t = None -> ok ∅ w false false c -> at_wait c = false ->
  minv (set_threads (<[t := mkThread c 0 Ready w]> (k_threads x)) x).
Proof.
  intros Hi Ht Hok Hwt. set (x' := set_threads _ x).
  assert (forall t2 s2, k_threads x !! t2 = Some s2 -> k_threads x' !! t2 = Some s2) as Hf.
  { intros t2 s2 H2. simpl. rewrite lookup_insert_ne by congruence. done. }
  assert (forall t2, is_worker x t2 -> is_worker x' t2) as Hwk by (intros t2 (s2 & H2 & Hw2); exists s2; auto).
  assert (quiet x -> quiet x') as Hq.
  { intros Hq t2 s2. simpl. rewrite lookup_insert_Some. intros [[<- <-]|[_ H2]]; [done|eauto]. }
  assert (forall all, notifying all x -> notifying all x') as Hn.
  { intros all (t2 & s2 & H1 & H2 & H3). exists t2, s2. auto. }
  split; simpl.
  - apply Hi.
  - intros t2 [s2 H2]%(v_mutex _ Hi). apply Hf in H2. simpl in H2. by rewrite H2.
  - intros t2 [s2 H2]%(v_store _ Hi). apply Hf in H2. simpl in H2. by rewrite H2.
  - intros t2 s2. rewrite lookup_insert_Some. intros [[<- <-]|[Hne H2]].
    + exists ∅. assert (has_mutex x' t = false /\ has_store x' t = false) as [-> ->].
      { unfold has_mutex, has_store. simpl. split; apply bool_decide_eq_false_2; intros E;
          [apply (v_mutex _ Hi) in E|apply (v_store _ Hi) in E]; rewrite Ht in E; by destruct E. }
      split_and!; [set_solver|done|done|]. simpl. by rewrite Hwt.
    + eapply (thread_ok_framed t x); [|done|by apply (v_thread _ Hi)]. split; auto.
  - intros t2 H2. by apply Hwk, (v_workers _ Hi).
  - intros Hne. destruct (v_runnable _ Hi Hne) as [?|[(t2 & s2 & H1 & H2)|?]]; [auto| |auto].
    right; left. exists t2, s2. auto.
  - intros Hst. destruct (v_stopping _ Hi Hst); auto.
Qed.

(** ** Every turn keeps the invariant *)

Lemma has_mutex_set o x t : has_mutex (set_mutex o x) t = bool_decide (o = Some t).
Proof. done. Qed.
Lemma owner_only x t t2 : has_mutex x t = true -> t2 <> t -> has_mutex x t2 = false.
Proof. unfold has_mutex. intros H Hne. bool_prop. apply bool_decide_eq_false_2. congruence. Qed.
Lemma store_owner_only x t t2 : has_store x t = true -> t2 <> t -> has_store x t2 = false.
Proof. unfold has_store. intros H Hne. bool_prop. apply bool_decide_eq_false_2. congruence. Qed.

Lemma minv_access t s b f now_ms i k x :
  minv x -> k_threads x !! t = Some s -> t_status s = Ready -> t_code s = Access b f ->
  f now_ms (k_impl x) = (i, k) ->
  minv (set_impl i (go_on t s k (t_depth s) x)).
Proof.
  intros Hi Ht Hr Hc Hf. destruct (ready_code x t s Hi Ht Hr) as (W & HW & Hd & Hok & _).
  rewrite Hc in Hok. cbn [ok] in Hok. destruct Hok as [Hm Hok]. specialize (Hok now_ms (k_impl x)).
  rewrite Hf in Hok. simpl in Hok. destruct Hok as ((N & S & A & L) & Hwork & Hok).
  set (x' := set_impl i (go_on t s k (t_depth s) x)).
  assert (forall t2, is_worker x t2 -> is_worker x' t2) as Hwk by (intros t2; by eapply worker_go).
  assert (k_mutex x = Some t) as Hmx by (unfold has_mutex in Hm; by bool_prop).
  assert (quiet x -> quiet x') as Hq.
  { intros Hq t2 s2. simpl. rewrite lookup_insert_Some. intros [[<- <-]|[_ H2]]; [by simpl; rewrite Hr|eauto]. }
  assert (forall all, ~ notifying all x) as Hno.
  { intros all (t2 & s2 & H1 & H2 & H3 & H4). assert (t2 = t) as -> by congruence. simplify_eq.
    by rewrite Hc in H4. }
  assert (forall all, is_notify all k = true -> notifying all x') as Hyes.
  { intros all Hk. exists t, (at_depth k (t_depth s) s). simpl. by rewrite lookup_insert_eq. }
  eapply (minv_go t s k (t_depth s) x); try done.
  - apply Hi.
  - split; [done|done|by right|done].
  - intros t' Ht'. apply Hwk. destruct (Hwork t' Ht') as [H|H]; [by apply (v_workers _ Hi)|by apply HW].
  - exists (W ∪ list_to_set (i_workers (k_impl x))). split_and!; [|done| |].
    + intros t'. rewrite elem_of_union, elem_of_list_to_set.
      intros [?|?]; apply Hwk; [by apply HW|by apply (v_workers _ Hi)].
    + exact Hok.
    + done.
  - simpl. intros Hne. destruct (decide (empty_queue (k_impl x))) as [He|He]; [by auto|].
    destruct (v_runnable _ Hi He) as [?|[(t2 & s2 & H1 & H2 & H3 & H4)|H]]; [auto| |by apply Hno in H].
    right; left. destruct (decide (t = t2)) as [->|Hne2].
    + exists t2. simpl. rewrite lookup_insert_eq. eexists. split; [done|]. simplify_eq. simpl. rewrite Hr.
      split_and!; try done. destruct (alive k) eqn:Ea; [done|]. by destruct Hne; apply L.
    + exists t2, s2. simpl. by rewrite lookup_insert_ne.
  - simpl. intros Hst. destruct (stopping (i_mgr (k_impl x))) eqn:Es; [|by auto].
    destruct (v_stopping _ Hi Es) as [?|H]; [auto|by apply Hno in H].
Qed.

(** The owner of the mutex about to notify, and nobody else. *)
Lemma notifying_owner t s all x :
  k_threads x !! t = Some s -> has_mutex x t = true -> notifying all x -> is_notify all (t_code s) = true.
Proof.
  intros Ht Hm (t2 & s2 & H1 & H2 & _ & H4). unfold has_mutex in Hm. bool_prop.
  assert (t2 = t) as -> by congruence. by simplify_eq.
Qed.

(** The notification itself, once the sleepers it wakes are awake. *)
Lemma minv_notified t s b k x :
  minv x -> k_threads x !! t = Some s -> t_status s = Ready -> t_code s = Notify b k ->
  (~ empty_queue (k_impl x) -> quiet x \/ exists t2 s2, t2 <> t /\ k_threads x !! t2 = Some s2 /\
     t_worker s2 = true /\ t_status s2 <> Asleep /\ alive (t_code s2) = true) ->
  (stopping (i_mgr (k_impl x)) = true -> quiet x) ->
  minv (go_on t s k (t_depth s) x).
Proof.
  intros Hi Ht Hr Hc Hq Hs. destruct (ready_code x t s Hi Ht Hr) as (W & HW & Hd & Hok & _).
  rewrite Hc in Hok. cbn [ok] in Hok. destruct Hok as (Hm & Hwt & Hal & Hok).
  set (x' := go_on t s k (t_depth s) x).
  assert (forall t2, is_worker x t2 -> is_worker x' t2) as Hwk by (intros t2; by eapply worker_go).
  assert (quiet x -> quiet x') as Hqq.
  { intros Hx t2 s2. simpl. rewrite lookup_insert_Some. intros [[<- <-]|[_ H2]]; [by simpl; rewrite Hr|eauto]. }
  eapply (minv_go t s k (t_depth s) x); try done.
  - apply Hi.
  - split; auto.
  - intros t' Ht'. by apply Hwk, (v_workers _ Hi).
  - exists W. split_and!; [eauto|done|done|]. by rewrite Hwt.
  - intros Hne. destruct (Hq Hne) as [?|(t2 & s2 & H1 & H2 & H3)]; [auto|]. right; left.
    exists t2, s2. simpl. by rewrite lookup_insert_ne.
  - intros Hst. auto.
Qed.

Lemma minv_notify_one t s k t' s' x :
  minv x -> k_threads x !! t = Some s -> t_status s = Ready -> t_code s = Notify false k ->
  k_threads x !! t' = Some s' -> t_status s' = Asleep ->
  minv (set_threads (<[t' := wake s']> (k_threads (go_on t s k (t_depth s) x))) x).
Proof.
  intros Hi Ht Hr Hc Ht' Hs'. assert (t <> t') as Hne by (intros ->; congruence).
  set (x1 := set_threads (<[t' := wake s']> (k_threads x)) x).
  assert (minv x1) as Hi1.
  { apply minv_wake; [done|]. intros t2. destruct (decide (t' = t2)) as [<-|?].
    - right. exists s'. by rewrite lookup_insert_eq.
    - left. by rewrite lookup_insert_ne. }
  replace (set_threads _ x) with (go_on t s k (t_depth s) x1).
  2: { unfold go_on, x1, set_threads. simpl. by rewrite insert_insert_ne. }
  pose proof (v_thread _ Hi t' s' Ht') as Hw. unfold thread_ok in Hw. rewrite Hs' in Hw.
  destruct Hw as (W' & _ & _ & Hwk & _ & _ & Hal & _).
  apply (minv_notified t s false k); [done| |done|done|..].
  - simpl. by rewrite lookup_insert_ne.
  - intros _. right. exists t', (wake s'). simpl. rewrite lookup_insert_eq.
    pose proof (wake_same s') as (-> & -> & _). split_and!; try done. unfold wake. by rewrite Hs'.
  - intros Hst. destruct (v_stopping _ Hi Hst) as [Hq|Hn]; [by destruct (Hq t' s')|].
    destruct (ready_code x t s Hi Ht Hr) as (W & _ & _ & Hok & _). rewrite Hc in Hok.
    cbn [ok] in Hok. destruct Hok as (Hm & _). apply (notifying_owner t s) in Hn; [|done|done].
    by rewrite Hc in Hn.
Qed.

Lemma minv_notify_all t s k x :
  minv x -> k_threads x !! t = Some s -> t_status s = Ready -> t_code s = Notify true k ->
  minv (set_threads (wake <$> k_threads (go_on t s k (t_depth s) x)) x).
Proof.
  intros Hi Ht Hr Hc. set (x1 := set_threads (wake <$> k_threads x) x).
  assert (minv x1) as Hi1.
  { apply minv_wake; [done|]. intros t2. rewrite lookup_fmap.
    destruct (k_threads x !! t2) as [s2|]; [right; by exists s2|by left]. }
  assert (forall st : tstate, t_status st = Ready -> wake st = st) as Hwk by (intros st E; unfold wake; by rewrite E).
  replace (set_threads _ x) with (go_on t s k (t_depth s) x1).
  2: { unfold go_on, x1, set_threads. simpl. rewrite fmap_insert. by rewrite Hwk. }
  assert (quiet x1) as Hq.
  { intros t2 s2. simpl. rewrite lookup_fmap_Some. intros (s0 & <- & _). unfold wake.
    by destruct (t_status s0) eqn:E; rewrite ?E. }
  apply (minv_notified t s true k); auto. simpl. rewrite lookup_fmap, Ht. simpl. by rewrite Hwk.
Qed.

Lemma minv_wait t s k x :
  minv x -> k_threads x !! t = Some s -> t_status s = Ready -> t_code s = Wait k ->
  minv (set_mutex None (set_threads (<[t := mkThread k (t_depth s) Asleep (t_worker s)]> (k_threads x)) x)).
Proof.
  intros Hi Ht Hr Hc. destruct (ready_code x t s Hi Ht Hr) as (W & HW & Hd & Hok & Hidle).
  rewrite Hc in Hok, Hidle. cbn [ok] in Hok. destruct Hok as (Hw & Hm & Hs & Hwt & Hal & Hok).
  destruct (Hidle eq_refl) as [He Hst]. set (x' := set_mutex None _).
  assert (forall t2, is_worker x t2 -> is_worker x' t2) as Hwk.
  { intros t2 (s2 & H2 & Hw2). unfold is_worker. simpl. destruct (decide (t = t2)) as [->|Hne].
    - rewrite lookup_insert_eq. eexists. split; [done|]. simpl. congruence.
    - rewrite lookup_insert_ne by done. by exists s2. }
  split; simpl; [apply Hi|done|..].
  - intros t2 [s2 H2]%(v_store _ Hi). destruct (decide (t = t2)) as [->|Hne];
      [by rewrite lookup_insert_eq|by rewrite lookup_insert_ne, H2].
  - intros t2 s2. rewrite lookup_insert_Some. intros [[<- <-]|[Hne H2]].
    + exists W. rewrite Hm, Hw, Hs in Hok. split_and!; simpl; try done; [eauto|]. by rewrite Hd, Hm.
    + eapply (thread_ok_framed t x); [|done|by apply (v_thread _ Hi)].
      split; [|done|by left|done]. intros t3 H3. by rewrite (owner_only x t t3).
  - intros t2 H2. by apply Hwk, (v_workers _ Hi).
  - done.
  - by rewrite Hst.
Qed.

Lemma minv_relock t s x :
  minv x -> k_threads x !! t = Some s -> t_status s = Woken -> k_mutex x = None ->
  minv (set_mutex (Some t) (set_threads (<[t := with_status Ready s]> (k_threads x)) x)).
Proof.
  intros Hi Ht Hs Hmx. pose proof (v_thread _ Hi t s Ht) as Hok. unfold thread_ok in Hok. rewrite Hs in Hok.
  destruct Hok as (W & HW & Hd & Hw & _ & Hst & Hal & Hwt & Hok). set (x' := set_mutex (Some t) _).
  assert (forall t2, has_mutex x t2 = false) as Hno by (intros t2; unfold has_mutex; by rewrite Hmx).
  assert (forall t2, is_worker x t2 -> is_worker x' t2) as Hwk.
  { intros t2 (s2 & H2 & Hw2). unfold is_worker. simpl. destruct (decide (t = t2)) as [->|Hne].
    - rewrite lookup_insert_eq. eexists. split; [done|]. simpl. congruence.
    - rewrite lookup_insert_ne by done. by exists s2. }
  assert (quiet x -> quiet x') as Hq.
  { intros Hq t2 s2. simpl. rewrite lookup_insert_Some. intros [[<- <-]|[_ H2]]; [done|eauto]. }
  assert (forall all, ~ notifying all x) as Hn by (intros all (t2 & s2 & H1 & _); congruence).
  split; simpl; [apply Hi|..].
  - intros t2 [= <-]. by rewrite lookup_insert_eq.
  - intros t2 [s2 H2]%(v_store _ Hi). destruct (decide (t = t2)) as [->|Hne];
      [by rewrite lookup_insert_eq|by rewrite lookup_insert_ne, H2].
  - intros t2 s2. rewrite lookup_insert_Some. intros [[<- <-]|[Hne H2]].
    + assert (has_mutex x' t = true) as Hm by by apply bool_decide_eq_true_2.
      exists W. simpl. change (has_store x' t) with (has_store x t).
      rewrite Hm, Hst, Hw, Hwt. split_and!; try done. eauto.
    + eapply (thread_ok_framed t x); [|done|by apply (v_thread _ Hi)].
      split; [|done|by left|done]. intros t3 H3. rewrite Hno. apply bool_decide_eq_false_2. simpl. congruence.
  - intros t2 H2. by apply Hwk, (v_workers _ Hi).
  - intros Hne. destruct (v_runnable _ Hi Hne) as [?|[(t2 & s2 & H1 & H2 & H3 & H4)|H]]; [auto| |by apply Hn in H].
    right; left. exists t2. simpl. destruct (decide (t = t2)) as [->|Hne2].
    + rewrite lookup_insert_eq. eexists. split; [done|]. by simplify_eq.
    + rewrite lookup_insert_ne by done. by exists s2.
  - intros Hstop. destruct (v_stopping _ Hi Hstop) as [?|H]; [auto|by apply Hn in H].
Qed.

(** ** All turns *)

(** A ready thread's own obligations, unfolded. *)
Ltac my_code Hi Ht Hr Hc :=
  let W := fresh "W" in let HW := fresh "HW" in
  destruct (ready_code _ _ _ Hi Ht Hr) as (W & HW & Hd & Hok & _);
  rewrite Hc in Hok; cbn [ok] in Hok.

(** A turn that leaves the mutexes, the queues and the event of sleeping alone. *)
Lemma minv_simple t s k x x' :
  minv x -> k_threads x !! t = Some s -> t_status s = Ready ->
  k_threads x' = <[t := at_depth k (t_depth s) s]> (k_threads x) -> k_aborted x' = false ->
  k_impl x' = k_impl x -> k_mutex x' = k_mutex x -> k_store_mutex x' = k_store_mutex x ->
  is_notify false (t_code s) = false -> (t_worker s = true -> alive (t_code s) = true -> alive k = true) ->
  at_wait k = false ->
  (forall W, (forall t', t' ∈ W -> is_worker x' t') ->
     ok W (t_worker s) (has_mutex x t) (has_store x t) (t_code s) ->
     exists W', (forall t', t' ∈ W' -> is_worker x' t') /\
       ok W' (t_worker s) (has_mutex x t) (has_store x t) k) ->
  minv x'.
Proof.
  intros Hi Ht Hr Hts Ha Him Hm Hs Hn Hal Hwt Hok.
  destruct (ready_code _ _ _ Hi Ht Hr) as (_ & _ & Hd & _).
  assert (forall t2, has_mutex x' t2 = has_mutex x t2) as Em by (intros; unfold has_mutex; by rewrite Hm).
  assert (forall t2, has_store x' t2 = has_store x t2) as Es by (intros; unfold has_store; by rewrite Hs).
  eapply minv_plain; try done; rewrite ?Em, ?Es; done.
Qed.

Lemma ok_not_wait W w hs c : ok W w false hs c -> at_wait c = false.
Proof. destruct c; try done. by intros (_ & ? & _). Qed.

(** Locking and unlocking. *)
Section Mutexes.
Context (t : nat) (s : tstate) (k : code) (x : machine).
Hypothesis Hi : minv x.
Hypothesis Ht : k_threads x !! t = Some s.
Hypothesis Hr : t_status s = Ready.

Lemma minv_lock : t_code s = LockM k -> k_mutex x = None ->
  minv (set_mutex (Some t) (go_on t s k (t_depth s + 1) x)).
Proof.
  intros Hc Hm. pose proof (v_abort _ Hi) as Ha. my_code Hi Ht Hr Hc. destruct Hok as (Hm0 & Hwt & Hal & _).
  eapply (minv_plain t s k (t_depth s + 1) x); simpl; try done; [|by rewrite Hc|auto|..].
  - intros t2 Hne. unfold has_mutex. simpl. rewrite Hm. by apply bool_decide_eq_false_2; congruence.
  - rewrite Hd, Hm0. by rewrite has_mutex_set, bool_decide_eq_true_2.
  - intros W' HW' H'. rewrite Hc in H'. cbn [ok] in H'. exists W'. split; [done|].
    rewrite has_mutex_set, bool_decide_eq_true_2 by done. apply H'.
Qed.

Lemma minv_unlock : t_code s = UnlockM k ->
  minv (set_mutex None (go_on t s k (t_depth s - 1) x)).
Proof.
  intros Hc. pose proof (v_abort _ Hi) as Ha. my_code Hi Ht Hr Hc. destruct Hok as (Hm0 & Hal & Hok).
  eapply (minv_plain t s k (t_depth s - 1) x); simpl; try done; [|by rewrite Hc| |..].
  - intros t2 Hne. by rewrite has_mutex_set, (owner_only x t t2).
  - rewrite Hc. intros Hw. specialize (Hal Hw). by destruct k.
  - by rewrite Hd, Hm0.
  - by eapply ok_not_wait.
  - intros W' HW' H'. rewrite Hc in H'. cbn [ok] in H'. exists W'. split; [done|]. apply H'.
Qed.

Lemma minv_lock_store : t_code s = LockS k -> k_store_mutex x = None ->
  minv (set_store_mutex (Some t) (go_on t s k (t_depth s) x)).
Proof.
  intros Hc Hm. pose proof (v_abort _ Hi) as Ha. my_code Hi Ht Hr Hc. destruct Hok as (Hw & Hm0 & Hs0 & Hok).
  eapply (minv_plain t s k (t_depth s) x); simpl; try done; [|by rewrite Hc|by rewrite Hw| |..].
  - intros t2 Hne. unfold has_store. simpl. rewrite Hm. by apply bool_decide_eq_false_2; congruence.
  - rewrite Hm0 in Hok. by eapply ok_not_wait.
  - intros W' HW' H'. rewrite Hc in H'. cbn [ok] in H'. exists W'. split; [done|].
    unfold has_store. simpl. rewrite bool_decide_eq_true_2 by done. apply H'.
Qed.

Lemma minv_unlock_store : t_code s = UnlockS k ->
  minv (set_store_mutex None (go_on t s k (t_depth s) x)).
Proof.
  intros Hc. pose proof (v_abort _ Hi) as Ha. my_code Hi Ht Hr Hc. destruct Hok as (Hw & Hm0 & Hs0 & Hok).
  eapply (minv_plain t s k (t_depth s) x); simpl; try done; [|by rewrite Hc|by rewrite Hw| |..].
  - intros t2 Hne. by rewrite (store_owner_only x t t2).
  - rewrite Hm0 in Hok. by eapply ok_not_wait.
  - intros W' HW' H'. rewrite Hc in H'. cbn [ok] in H'. exists W'. split; [done|]. apply H'.
Qed.

(** A new worker. *)
Lemma minv_spawn h t' : t_code s = Spawn h -> k_threads x !! t' = None ->
  minv (set_threads (<[t' := mkThread run_worker 0 Ready true]> (k_threads (go_on t s (h t') (t_depth s) x))) x).
Proof.
  intros Hc Ht'. pose proof (v_abort _ Hi) as Ha. my_code Hi Ht Hr Hc. destruct Hok as (Hw & Hm0 & Hok).
  set (x1 := set_threads (<[t' := mkThread run_worker 0 Ready true]> (k_threads x)) x).
  assert (t <> t') as Hne by congruence.
  assert (minv x1) as Hi1 by (by apply minv_add).
  replace (set_threads _ x) with (go_on t s (h t') (t_depth s) x1).
  2: { unfold go_on, x1, set_threads. simpl. by rewrite insert_insert_ne. }
  apply (minv_simple t s (h t') x1); simpl; try done; [by rewrite lookup_insert_ne|by rewrite Hc|by rewrite Hw| |].
  - specialize (Hok t'). change (has_mutex x1 t) with (has_mutex x t) in *. rewrite Hm0 in Hok.
    by eapply ok_not_wait.
  - intros W' HW' H'. rewrite Hc in H'. cbn [ok] in H'. exists ({[t']} ∪ W'). split; [|apply H'].
    intros t2 [->%elem_of_singleton|?]%elem_of_union; [|by apply HW'].
    eexists. simpl. rewrite lookup_insert_ne, lookup_insert_eq by done. done.
Qed.
End Mutexes.

Lemma minv_store t s what f c c' k d o g x :
  minv x -> k_threads x !! t = Some s -> t_status s = Ready -> t_code s = Store what f -> f c = (c', k) ->
  minv (set_data d o g (go_on t s k (t_depth s) x)).
Proof.
  intros Hi Ht Hr Hc Hf. pose proof (v_abort _ Hi) as Ha. my_code Hi Ht Hr Hc.
  destruct Hok as (Hw & Hm0 & Hs0 & Hok). specialize (Hok c). rewrite Hf in Hok. simpl in Hok.
  apply (minv_simple t s k x); simpl; try done; [by rewrite Hc|by rewrite Hw| |].
  - rewrite Hm0 in Hok. by eapply ok_not_wait.
  - intros W' HW' H'. rewrite Hc in H'. cbn [ok] in H'. destruct H' as (_ & _ & _ & H').
    specialize (H' c). rewrite Hf in H'. by exists W'.
Qed.

Lemma minv_goto t s l x :
  minv x -> k_threads x !! t = Some s -> t_status s = Ready -> t_code s = Goto l ->
  minv (go_on t s (body_at l) (t_depth s) x).
Proof.
  intros Hi Ht Hr Hc. pose proof (v_abort _ Hi) as Ha. my_code Hi Ht Hr Hc.
  pose proof (ok_body l W) as Hb. rewrite Hok in Hb. destruct Hb as (_ & Hwt & Hal).
  apply (minv_simple t s (body_at l) x); simpl; try done; [by rewrite Hc|].
  intros W' HW' H'. rewrite Hc in H'. cbn [ok] in H'. exists W'. split; [done|].
  pose proof (ok_body l W') as Hb. rewrite H' in Hb. apply Hb.
Qed.

Lemma minv_turn t x x' : minv x -> run_turn t x x' -> minv x'.
Proof.
  intros Hi Hs. pose proof (v_abort _ Hi) as Ha.
  destruct Hs as [s k x Ht Hr Hc Hm|s k x Ht Hr Hc|s k x Ht Hr Hc Hm|s k x Ht Hr Hc|s b f now i k x Ht Hr Hc Hf
    |s what f c c' k x Ht Hr Hc Hd0 _ _ Hf|s k1 k2 b x Ht Hr Hc|s id p k p' f e e' x Ht Hr Hc _ _ Hn
    |s id r k x Ht Hr Hc|s e k x Ht Hr Hc Hd0|s x Ht Hr Hc Hd0|s k x Ht Hr Hc|s k t' s' x Ht Hr Hc Ht' Hs'
    |s k x Ht Hr Hc Hq|s k x Ht Hr Hc|s x Ht Hr Hm|s k t' x Ht Hr Hc Ht'|s t' s' a k x Ht Hr Hc Ht' Hc'
    |s l x Ht Hr Hc].
  - by apply minv_lock.
  - by apply minv_unlock.
  - by apply minv_lock_store.
  - by apply minv_unlock_store.
  - by eapply minv_access.
  - by eapply minv_store.
  - my_code Hi Ht Hr Hc. destruct Hok as (Hw & Hm0 & Hs0 & H1 & H2).
    apply (minv_simple t s (if b then k1 else k2) x); simpl; try done; [by rewrite Hc|by rewrite Hc| |].
    + rewrite Hm0 in H1, H2. by destruct b; eapply ok_not_wait.
    + intros W' HW' H'. rewrite Hc in H'. cbn [ok] in H'. exists W'. split; [done|]. by destruct b; apply H'.
  - my_code Hi Ht Hr Hc. apply (minv_simple t s (Body id p' k) x); simpl; try done; [by rewrite Hc|].
    intros W' HW' H'. rewrite Hc in H'. by exists W'.
  - my_code Hi Ht Hr Hc. destruct Hok as (Hw & Hm0 & Hs0 & Hok). destruct (Hok r) as [Hal Hk].
    apply (minv_simple t s (k r) x); simpl; try done; [by rewrite Hc| |].
    + rewrite Hm0 in Hk. by eapply ok_not_wait.
    + intros W' HW' H'. rewrite Hc in H'. exists W'. split; [done|]. apply H'.
  - my_code Hi Ht Hr Hc. destruct Hok as (Hm0 & Hal & Hok).
    apply (minv_simple t s k x); simpl; try done; [by rewrite Hc|auto| |].
    + rewrite Hm0 in Hok. by eapply ok_not_wait.
    + intros W' HW' H'. rewrite Hc in H'. exists W'. split; [done|]. apply H'.
  - exfalso. destruct (ready_code _ _ _ Hi Ht Hr) as (W & _ & Hd & Hok & _).
    apply Hd0. rewrite Hd. by destruct (t_code s); try done; cbn [ok] in Hok; destruct_and?;
      match goal with H : has_mutex _ _ = false |- _ => rewrite H end.
  - by apply minv_notify_all.
  - by eapply minv_notify_one.
  - by apply (minv_notified t s false k); [..|left|].
  - by apply minv_wait.
  - by apply minv_relock.
  - by apply minv_spawn.
  - my_code Hi Ht Hr Hc. destruct Hok as (Hw & Hm0 & Hs0 & HtW & Hok).
    apply (minv_simple t s k x); simpl; try done; [by rewrite Hc|by rewrite Hw| |].
    + rewrite Hm0 in Hok. by eapply ok_not_wait.
    + intros W' HW' H'. rewrite Hc in H'. exists W'. split; [done|]. apply H'.
  - by apply minv_goto.
Qed.

Lemma minv_step x x' : minv x -> machine_step x x' -> minv x'.
Proof.
  intros Hi Hst. destruct Hst as [t x1 x2 Ht|x1 x2 [t s x0 Ht Hs|t c x0 Ht Hc]].
  - by eapply minv_turn.
  - apply minv_wake; [done|]. intros t2. destruct (decide (t = t2)) as [<-|?].
    + right. exists s. by rewrite lookup_insert_eq.
    + left. by rewrite lookup_insert_ne.
  - apply ok_public in Hc. apply minv_add; [done|done|done|]. by eapply ok_not_wait.
Qed.

Lemma minv_new cfg d (f : fs) : minv (new_machine cfg d f).
Proof. split; simpl; try done; set_solver. Qed.

Lemma reachable_minv cfg d (f : fs) x : star machine_step (new_machine cfg d f) x -> minv x.
Proof.
  intros Hs. eapply (star_invariant machine_step minv); [|exact Hs|apply minv_new].
  intros x1 x2 H1 H2. by eapply minv_step.
Qed.

(** * Progress *)

Definition finished (x : machine) (t : nat) : bool :=
  match k_threads x !! t with
  | Some s => match t_code s with Return _ => true | _ => false end
  | None => false
  end.

(** What a ready thread may have to wait for. *)
Definition blocked (x : machine) (c : code) : bool :=
  match c with
  | Return _ => true
  | LockM _ => negb (bool_decide (k_mutex x = None))
  | LockS _ => negb (bool_decide (k_store_mutex x = None))
  | Join t _ => negb (finished x t)
  | _ => false
  end.

Lemma unblocked_turn x t s :
  k_threads x !! t = Some s -> t_status s = Ready -> blocked x (t_code s) = false ->
  exists x', run_turn t x x'.
Proof.
  intros Ht Hr Hb. assert (is_Some (take_turn None t x)) as [x' Hx]; [|exists x'; by eapply take_turn_sound].
  unfold take_turn. rewrite Ht. simpl. rewrite Hr.
  destruct (t_code s) as [a|k|k|k|k|b0 f|what f|k1 k2|id p k|e k|b k|k|k|t' k|l]; simpl in Hb |- *; try done.
  - bool_prop. by rewrite decide_True.
  - bool_prop. by rewrite decide_True.
  - by destruct (f 0 (k_impl x)).
  - case_decide; [by destruct (f _)|done].
  - destruct (returned p); [done|]. by destruct (next p _ _) as [[]].
  - by destruct b.
  - unfold finished in Hb. destruct (k_threads x !! t') as [s'|]; [|done]. simpl. by destruct (t_code s').
Qed.

(** A thread that will never move again by itself: it has returned, it is asleep, or it
    waits for a thread to end. *)
Definition rests (x : machine) (s : tstate) : bool :=
  match t_status s with
  | Asleep => true
  | Woken => false
  | Ready => match t_code s with Return _ => true | Join t _ => negb (finished x t) | _ => false end
  end.

(** Where every thread rests, nothing moves. *)
Lemma rests_stuck x t x' :
  map_Forall (fun _ s => rests x s = true) (k_threads x) -> ~ run_turn t x x'.
Proof.
  intros Hall Hs.
  destruct Hs as [s k x Ht Hr Hc|s k x Ht Hr Hc|s k x Ht Hr Hc|s k x Ht Hr Hc|s b f now i k x Ht Hr Hc
    |s what f c c' k x Ht Hr Hc|s k1 k2 b x Ht Hr Hc|s id p k p' f e e' x Ht Hr Hc
    |s id r k x Ht Hr Hc|s e k x Ht Hr Hc|s x Ht Hr Hc|s k x Ht Hr Hc|s k t' s' x Ht Hr Hc
    |s k x Ht Hr Hc|s k x Ht Hr Hc|s x Ht Hr|s k t' x Ht Hr Hc|s t' s' a k x Ht Hr Hc Ht' Hc'
    |s l x Ht Hr Hc]; specialize (Hall t s Ht); unfold rests in Hall; simpl in Hall; rewrite Hr in Hall;
    try (by rewrite Hc in Hall); try done.
  - by destruct (t_code s).
  - rewrite Hc in Hall. unfold finished in Hall. by rewrite Ht', Hc' in Hall.
Qed.

(** While a mutex is held, its owner can go on. *)
Lemma owner_turn x : minv x -> k_mutex x <> None \/ k_store_mutex x <> None -> exists t x', run_turn t x x'.
Proof.
  intros Hi Ho. destruct (k_mutex x) as [t|] eqn:Em.
  - destruct (v_mutex _ Hi t Em) as [s Ht]. exists t. pose proof (v_thread _ Hi t s Ht) as Hok.
    assert (has_mutex x t = true) as Hm by by apply bool_decide_eq_true_2.
    unfold thread_ok in Hok. destruct (t_status s) eqn:Es;
      [|destruct Hok as (W & _ & _ & _ & ? & _); congruence..].
    destruct Hok as (W & _ & _ & Hok & _). rewrite Hm in Hok.
    apply (unblocked_turn x t s); try done. by destruct (t_code s); simpl in Hok; destruct_and?.
  - destruct (k_store_mutex x) as [t|] eqn:Es; [|naive_solver].
    destruct (v_store _ Hi t Es) as [s Ht]. exists t. pose proof (v_thread _ Hi t s Ht) as Hok.
    assert (has_store x t = true) as Hm by by apply bool_decide_eq_true_2.
    unfold thread_ok in Hok. destruct (t_status s) eqn:Est;
      [|destruct Hok as (W & _ & _ & _ & _ & ? & _); congruence..].
    destruct Hok as (W & _ & _ & Hok & _). rewrite Hm in Hok.
    apply (unblocked_turn x t s); try done. destruct (t_code s); simpl in Hok |- *; destruct_and?; try done.
    by rewrite Em.
Qed.

(** * Theorems *)

(** C5. Lock discipline: in every interleaving of any number of calls and workers,
    [assert_no_manager_lock] never aborts; the queues are read, written and notified only by
    the owner of the manager mutex; every store call of a command is made by the owner of
    [store_mutex] and without the manager mutex, and so are events published, moves made and
    threads created and joined; [store_mutex] is never requested with the manager mutex held,
    and no call returns with either. *)
Theorem lock_discipline cfg d (f : fs) x :
  star machine_step (new_machine cfg d f) x ->
  k_aborted x = false /\
  forall t s, k_threads x !! t = Some s -> t_status s = Ready ->
    match t_code s with
    | Access _ _ | Notify _ _ | Wait _ | UnlockM _ => k_mutex x = Some t
    | Store _ _ | UnlockS _ => k_store_mutex x = Some t /\ k_mutex x <> Some t
    | LockS _ | Return _ | Join _ _ => k_mutex x <> Some t /\ k_store_mutex x <> Some t
    | LockM _ | Emit _ _ | Body _ _ _ | Spawn _ | OwnOpen _ _ => k_mutex x <> Some t
    | Goto _ => True
    end.
Proof.
  intros Hs%reachable_minv. split; [apply Hs|]. intros t s Ht Hr.
  destruct (ready_code _ _ _ Hs Ht Hr) as (W & _ & _ & Hok & _). unfold has_mutex, has_store in Hok.
  destruct (t_code s); simpl in Hok; destruct_and?; bool_prop; try done.
Qed.

Lemma goes_on_or_rests x :
  minv x ->
  (exists t x', run_turn t x x') \/
  (forall t s, k_threads x !! t = Some s ->
     (exists a, t_code s = Return a) \/
     (t_status s = Asleep /\ runnable (i_mgr (k_impl x)) = [] /\ stopping (i_mgr (k_impl x)) = false) \/
     (exists t' k s', t_code s = Join t' k /\ k_threads x !! t' = Some s' /\ t_status s' = Asleep)).
Proof.
  intros Hi.
  destruct (decide (k_mutex x = None)) as [Hm|Hm]; [|left; apply owner_turn; auto].
  destruct (decide (k_store_mutex x = None)) as [Hst|Hst]; [|left; apply owner_turn; auto].
  destruct (decide (map_Forall (fun _ s => rests x s = true) (k_threads x))) as [Hall|Hex].
  2: { left. apply map_not_Forall in Hex as (t & s & Ht & Hr); [|apply _]. unfold rests in Hr.
       exists t. destruct (t_status s) eqn:Es; [|done|eexists; by eapply r_relock].
       apply (unblocked_turn x t s); [done|done|].
       destruct (t_code s); simpl; try done; [by rewrite Hm|by rewrite Hst|by destruct (finished x t0)]. }
  right. assert (forall all, ~ notifying all x) as Hno by (intros all (t & s & H1 & _); congruence).
  assert (~ attended x) as Hna.
  { intros (t & s & Ht & Hw & Hsl & Hal). specialize (Hall t s Ht). unfold rests in Hall. simpl in Hall.
    destruct (t_status s) eqn:Es; try done. destruct (ready_code _ _ _ Hi Ht Es) as (W & _ & _ & Hok & _).
    destruct (t_code s); try done. simpl in Hok. destruct_and?. congruence. }
  assert (forall t s, k_threads x !! t = Some s -> t_status s = Asleep ->
    runnable (i_mgr (k_impl x)) = [] /\ stopping (i_mgr (k_impl x)) = false) as Hsleep.
  { intros t s Ht Hs. split.
    - destruct (decide (empty_queue (k_impl x))) as [|Hne]; [done|].
      destruct (v_runnable _ Hi Hne) as [H|[H|H]]; [by destruct (H t s)|done|by apply Hno in H].
    - destruct (stopping _) eqn:Hstop; [|done].
      destruct (v_stopping _ Hi Hstop) as [H|H]; [by destruct (H t s)|by apply Hno in H]. }
  intros t s Ht. pose proof (Hall t s Ht) as Hr. unfold rests in Hr. simpl in Hr.
  destruct (t_status s) eqn:Es; [|right; left; eauto|done].
  destruct (t_code s) as [a| | | | | | | | | | | | |t' k|] eqn:Hc; try done; [by left; eauto|].
  right; right. destruct (ready_code _ _ _ Hi Ht Es) as (W & HW & _ & Hok & _). rewrite Hc in Hok. simpl in Hok.
  destruct Hok as (_ & _ & _ & Hin & _). destruct (HW t' Hin) as (s' & Ht' & Hw').
  exists t', k, s'. split_and!; [done|done|]. pose proof (Hall t' s' Ht') as Hr'. unfold rests in Hr'. simpl in Hr'.
  destruct (t_status s') eqn:Es'; try done. destruct (ready_code _ _ _ Hi Ht' Es') as (W' & _ & _ & Hok' & _).
  unfold finished in Hr. rewrite Ht' in Hr. destruct (t_code s'); try done. simpl in Hok'. destruct_and?. congruence.
Qed.

End Scheduling.
