(* ===== verification/Refinement.v ===== *)
(** The threads of the manager implement its system of critical sections:
    src/cpp/src/manager.cpp.

    [sim c z]: the code [c] of a thread goes through the actions that Dispatch.v gives a thread at
    [z].  It is checked function by function; [threads_refine] composes the threads, with the
    mutexes of Scheduling.v: every run of the machine of Threads.v is a run of [Dispatch.step], so
    what holds in every interleaving of critical sections holds of the program. *)

From S2P Require Import Prelude Job Store Kernel Crash FsOps Mover Events Config Manager Dispatch Threads Scheduling.

Section Refinement.
Context {fs : Type} `{!Kernel fs}.
Local Abbreviation code := (code fs).
Local Abbreviation machine := (machine fs).
Local Abbreviation tstate := (tstate fs).
Implicit Types (z : option (thread fs)) (y : sys fs) (x : machine).

(** * One thread *)

(** A critical section or a store call: one of Dispatch.v, or one that changes nothing. *)
Definition mgr_move (b : bool) z (m : manager) z' (m' : manager) : Prop :=
  (z' = z /\ m' = m) \/ mgr_step b z m z' m'.
Definition store_move z (s : JobStore) z' (s' : JobStore) : Prop :=
  (z' = z /\ db s' = db s) \/ store_step z s z' s'.

Definition label_thread (l : label) : option (thread fs) :=
  match l with
  | RetrySearch job_id move now_ms n => Some (TRetrySearch job_id move now_ms n)
  | WorkerLoop | WaitIdle _ _ => None
  end.

Fixpoint sim (c : code) z : Prop :=
  match c with
  | Return _ => z = None
  | LockM k | UnlockM k | LockS k | Notify _ k | Wait k | Join _ k => sim k z
  | UnlockS k => holds_store z = false /\ sim k z
  | Access b f => forall now_ms i, exists z', mgr_move b z (i_mgr i) z' (i_mgr (fst (f now_ms i))) /\
      (holds_store z' = true -> holds_store z = true) /\ sim (snd (f now_ms i)) z'
  | Store _ f => forall s, exists z', store_move z s z' (fst (f s)) /\ sim (snd (f s)) z'
  | OwnOpen k1 k2 => sim k1 z /\ sim k2 z
  | Body id p k => z = Some (TRunning id p) /\ forall r, sim (k r) (Some (TRunning id (Ret r)))
  | Emit e k => exists z', emit_step z e z' /\ holds_store z' = false /\ sim k z'
  | Spawn k => forall t, sim (k t) z
  | Goto l => z = label_thread l
  end.

(** ** The functions of the manager *)

Lemma sim_body l : sim (body_at l) (label_thread l).
Proof.
  destruct l as [|id mv now n|waited timeout]; simpl.
  - intros now i. case_match; [exists None; split; [by left|split; [done|done]]|].
    case_match; [exists None; split; [by left|split; [done|done]]|].
    destruct (worker_take (i_mgr i)) as [[[id req] m1]|] eqn:E; [|exists None; split; [by left|split; [done|done]]].
    eexists. split; [right; by apply (m_worker_take id req now)|split; [done|]]. simpl.
    eexists. split; [apply e_started|split; [done|]]. split; [done|]. intros [due e]. simpl.
    eexists. split; [apply e_ended|split; [done|]]. intros _ i2. exists None.
    split; [right; apply m_worker_settle|split; [done|done]].
  - intros s. destruct (load _ s) as [l s'] eqn:El. simpl.
    eexists. split; [right; by apply d_retry_probe|]. destruct l as [[j|]|e]; simpl; [done| |done].
    intros _ i. pose proof (m_retry_reserve (fs := fs) id mv now n (i_mgr i)) as Hm.
    destruct (retry_reserve _ (i_mgr i)) as [m1|] eqn:Er; simpl in *.
    + eexists. split; [right; exact Hm|split; [done|]]. simpl.
      intros s2. destruct (record_intent_retry _ _ s2) as [r s3] eqn:Ei. simpl.
      eexists. split; [right; by apply d_retry_record|]. intros _ i2.
      eexists. split; [right; apply m_submit_settle|split; [by destruct (is_ok r)|]].
      destruct r; simpl; [|done]. split; [done|]. eexists. split; [apply e_news|split; [done|done]].
    + eexists. split; [right; exact Hm|split; [done|done]].
  - intros _ i. case_match; [exists None; split; [by left|split; [done|done]]|].
    exists None. split; [by left|split; [done|]]. simpl. case_match; [|done]. simpl.
    intros _ i2. exists None. split; [by left|split; [done|done]].
Qed.

Lemma sim_join ts (k : code) z : sim k z -> sim (join_all ts k) z.
Proof. intros Hk. by induction ts. Qed.
Lemma sim_spawn n spawned (k : list nat -> code) z :
  (forall ts, sim (k ts) z) -> sim (spawn_workers n spawned k) z.
Proof. revert spawned. induction n; simpl; auto. Qed.

(** A section that changes nothing and is followed by [k]. *)
Ltac same := exists None; split; [by left|split; [done|]].

Lemma sim_cancel_end id was out :
  sim (cancel_end id was out : code)
    (if bool_decide (fst out = CmdOk) then Some (TCancelled id was CmdOk) else refused id was (fst out)).
Proof.
  unfold cancel_end, refused. case_bool_decide as Ho; simpl.
  - eexists. split; [apply e_cancelled|split; [done|done]].
  - destruct was; simpl; [|done]. intros _ i. exists None.
    split; [right; by apply m_cancel_settle|split; [done|done]].
Qed.

Lemma sim_submit_id id req : sim (submit_id_code id req : code) None.
Proof.
  intros now i. destruct (submit_claim id (i_mgr i)) as [m1|e] eqn:E; simpl; [|by same].
  eexists. split; [right; by apply (m_submit_claim id req now)|split; [done|]]. simpl.
  intros s. destruct (record_intent _ s) as [r s'] eqn:Er. simpl. eexists. split; [right; by apply d_record|].
  split; [done|]. simpl. intros _ i2.
  eexists. split; [right; apply m_submit_settle|split; [by destruct (is_ok r)|]].
  destruct r; simpl; [|done]. eexists. split; [apply e_news|split; [done|done]].
Qed.

Lemma sim_cancel id : sim (cancel_code id : code) None.
Proof.
  intros now i. destruct (cancel_claim id (i_mgr i)) as [[was m1]|e] eqn:E; simpl; [|by same].
  eexists. split; [right; by apply m_cancel_claim|split; [done|]]. simpl.
  intros s. destruct (load id s) as [l s1] eqn:El. simpl. eexists. split; [right; by apply d_cancel_load|].
  unfold cancel_loaded. destruct l as [[job|]|e]; [|apply (sim_cancel_end id was (UnknownJob, []))
    |apply (sim_cancel_end id was (UnknownJob, e))].
  case_bool_decide; [|apply (sim_cancel_end id was (InvalidState, _))]. cbn [negb sim].
  intros s2. destruct (update_state _ _ _ _ s2) as [u s3] eqn:Eu. simpl.
  eexists. split; [right; by apply d_cancel_update|].
  destruct u; [apply (sim_cancel_end id was (CmdOk, []))|apply (sim_cancel_end id was (StoreError, _))].
Qed.

Lemma sim_public c : public c -> sim c None.
Proof.
  destruct 1 as [path a| |req|id req|id|id|id|id| |timeout|st| | | |].
  - intros now i. destruct (running (i_mgr i)); simpl; [by same|]. same. simpl. intros s.
    destruct (Store.open path (with_content a (db s)) s) as [r s'] eqn:Eo. simpl. exists None.
    split; [right; replace s' with (snd (Store.open path (with_content a (db s)) s)) by (by rewrite Eo); by constructor|].
    split; [done|]. destruct r; [|done]. simpl. intros _ i2.
    exists None. split; [right; constructor|split; [done|]]. simpl. apply sim_spawn.
    intros ts _ i3. by same.
  - intros now i. simpl. destruct (shutdown_begin (i_mgr i)) as [m1|] eqn:E; [|by same].
    exists None. split; [right; by constructor|split; [done|]]. simpl. apply sim_join. simpl.
    intros s. exists None. split; [right; constructor|done].
  - intros now i. destruct (running (i_mgr i)); simpl; [|by same]. same. simpl. intros s.
    destruct (next_sequence s) as [q s'] eqn:Eq. simpl. exists None.
    split; [right; replace s' with (snd (next_sequence s)) by (by rewrite Eq); constructor|].
    split; [done|]. destruct q; [apply sim_submit_id|done].
  - apply sim_submit_id.
  - intros now i. destruct (pause id (i_mgr i)) as [m1|e] eqn:E; simpl; [|by same].
    eexists. split; [right; by apply m_pause|split; [done|]]. simpl. eexists. split; [apply e_news|split; [done|done]].
  - intros now i. destruct (resume id (i_mgr i)) as [m1|e] eqn:E; simpl; [|by same].
    eexists. split; [right; by apply m_resume|split; [done|]]. simpl. eexists. split; [apply e_news|split; [done|done]].
  - apply sim_cancel.
  - intros now i. destruct (retry_claim id (i_mgr i)) as [mv|e] eqn:E; simpl; [|by same].
    eexists. split; [right; by apply (m_retry_claim id mv now)|split; [done|]]. simpl.
    intros s. destruct (retry_check id s) as [r s'] eqn:Er. simpl. eexists. split; [right; by apply d_retry_check|].
    by destruct r.
  - intros now i. pose proof (m_pump (fs := fs) now (i_mgr i)) as Hm.
    destruct (pump now (i_mgr i)) as [[moved error] m1]. simpl in *.
    exists None. split; [right; exact Hm|split; [done|]]. by case_match.
  - done.
  - intros now i. exists None. split; [right; apply m_set_strategy|split; [done|done]].
  - intros now i. by same.
  - intros now i. by same.
  - intros now i. by same.
  - intros now i. by same.
Qed.

(** * All threads *)

Definition sim_at (o : option tstate) z : Prop :=
  match o with None => z = None | Some s => sim (t_code s) z end.

Record related x y : Prop := {
  l_mgr : mgr y = i_mgr (k_impl x);
  l_data : data y = k_data x;
  l_disk : disk y = k_disk x;
  l_published : published y = k_published x;
  l_sim t : sim_at (k_threads x !! t) (threads y !! t);
  l_holds t : holds_store (threads y !! t) = true -> k_store_mutex x = Some t;
  l_lock t : store_lock y = Some t -> holds_store (threads y !! t) = true
}.

(** The steps of the system, with refused cancels that give a job back or without. *)
Definition within (b : bool) : sys fs -> sys fs -> Prop := if b then any else unrefused.

Lemma step_within b b' y y' : step b y y' -> (b = true -> b' = true) -> within b' y y'.
Proof. intros Hs Hb. destruct b'; [by exists b|]. by destruct b; [discriminate (Hb eq_refl)|]. Qed.

(** One step, or none when the system does not see the turn. *)
Definition at_most_one {S} (R : S -> S -> Prop) (y y' : S) : Prop := y' = y \/ R y y'.

(** A turn that the system does not see. *)
Lemma related_silent b x x' y :
  related x y -> i_mgr (k_impl x') = i_mgr (k_impl x) -> k_data x' = k_data x -> k_disk x' = k_disk x ->
  k_published x' = k_published x ->
  (forall t, sim_at (k_threads x !! t) (threads y !! t) -> sim_at (k_threads x' !! t) (threads y !! t)) ->
  (forall t, holds_store (threads y !! t) = true -> k_store_mutex x = Some t -> k_store_mutex x' = Some t) ->
  exists y', at_most_one (within b) y y' /\ related x' y'.
Proof.
  intros [Rm Rd Rf Rp Rs Rh Rl] Hm Hd Hf Hp Hs Hh. exists y. split; [by left|].
  split; try congruence; eauto.
Qed.

(** The same, of thread [t], that goes on with [k]. *)
Lemma related_quiet b t s k d x x' y :
  related x y -> k_threads x !! t = Some s -> (forall z, sim (t_code s) z -> sim k z) ->
  k_threads x' = <[t := at_depth k d s]> (k_threads x) ->
  i_mgr (k_impl x') = i_mgr (k_impl x) -> k_data x' = k_data x -> k_disk x' = k_disk x ->
  k_published x' = k_published x -> k_store_mutex x' = k_store_mutex x ->
  exists y', at_most_one (within b) y y' /\ related x' y'.
Proof.
  intros R Ht Hk Hts Hm Hd Hf Hp Hx. apply (related_silent b x); try done; [|by rewrite Hx].
  intros t2. rewrite Hts. destruct (decide (t = t2)) as [<-|Hne]; [|by rewrite lookup_insert_ne].
  rewrite lookup_insert_eq, Ht. apply Hk.
Qed.

(** A turn of thread [t] that is one action of the system. *)
Lemma related_turn b t s k d z evs x x' y :
  related x y -> k_threads x !! t = Some s -> sim k z ->
  k_threads x' = <[t := at_depth k d s]> (k_threads x) ->
  k_store_mutex x' = k_store_mutex x -> (holds_store z = true -> k_store_mutex x = Some t) ->
  k_published x' = k_published x ++ evs ->
  within b y (turn t z (i_mgr (k_impl x')) (k_data x') (k_disk x') evs y) ->
  exists y', at_most_one (within b) y y' /\ related x' y'.
Proof.
  intros [Rm Rd Rf Rp Rs Rh Rl] Ht Hk Hts Hx Hz Hp Hy. eexists. split; [right; exact Hy|].
  split; simpl; try done; [congruence|..]; intros t2; rewrite lookup_put.
  - rewrite Hts. case_decide; [subst; by rewrite lookup_insert_eq|rewrite lookup_insert_ne by done; apply Rs].
  - rewrite Hx. case_decide; [subst; apply Hz|apply Rh].
  - unfold relock. case_match; [intros [= <-]; by rewrite decide_True|].
    case_decide; [done|]. intros Hl. rewrite decide_False by congruence. by apply Rl.
Qed.

(** ** Each kind of turn *)

Section Turn.
Variables (b : bool) (t : nat) (s : tstate) (x : machine) (y : sys fs).
Hypotheses (R : related x y) (Hi : minv x) (Ht : k_threads x !! t = Some s) (Hr : t_status s = Ready).

Let z := threads y !! t.
Lemma thread_sim : sim (t_code s) z.
Proof. pose proof (l_sim _ _ R t) as H. by rewrite Ht in H. Qed.

Lemma related_access back f now_ms i k : t_code s = Access back f -> (back = true -> b = true) ->
  f now_ms (k_impl x) = (i, k) ->
  exists y', at_most_one (within b) y y' /\ related (set_impl i (go_on t s k (t_depth s) x)) y'.
Proof.
  intros Hc Hback Hf. pose proof thread_sim as Hs. rewrite Hc in Hs.
  destruct (Hs now_ms (k_impl x)) as (z' & Hm & Hh & Hk). rewrite Hf in Hm, Hk. simpl in Hm, Hk.
  assert (holds_store z' = true -> k_store_mutex x = Some t) as Hz by (intros H; apply (l_holds _ _ R); auto).
  destruct Hm as [[-> Hm]|Hm].
  - apply (related_silent b x); try done. intros t2. simpl. rewrite lookup_insert. case_decide; [subst|done].
    done.
  - eapply (related_turn b t s k (t_depth s) z' []); try done; simpl; [by rewrite app_nil_r|].
    apply (step_within back); [|done]. rewrite <- (l_data _ _ R), <- (l_disk _ _ R). apply s_mgr. by rewrite (l_mgr _ _ R).
Qed.

Lemma related_store what f c c' k : t_code s = Store what f -> t_depth s = 0 -> db c = k_data x ->
  f c = (c', k) ->
  exists y', at_most_one (within b) y y' /\
    related (set_data (db c') (is_open c') (k_disk x) (go_on t s k (t_depth s) x)) y'.
Proof.
  intros Hc _ Hd Hf. destruct (ready_code x t s Hi Ht Hr) as (W & _ & _ & Hok & _).
  pose proof thread_sim as Hs. rewrite Hc in Hs, Hok. destruct Hok as (_ & _ & Hst & _).
  unfold has_store in Hst. bool_prop. destruct (Hs c) as (z' & Hm & Hk). rewrite Hf in Hm, Hk.
  destruct Hm as [[-> Hm]|Hm]; simpl in *.
  - apply (related_silent b x); try done; simpl; [congruence|]. intros t2. rewrite lookup_insert. by case_decide; subst.
  - eapply (related_turn b t s k (t_depth s) z' []); try done; simpl; [by rewrite app_nil_r|].
    apply (step_within false); [|done]. rewrite <- (l_mgr _ _ R), <- (l_disk _ _ R). apply s_store with c; [|by rewrite (l_data _ _ R)|done].
    destruct (store_lock y) as [t2|] eqn:El; [|by left]. right.
    pose proof (l_holds _ _ R t2 (l_lock _ _ R t2 El)). congruence.
Qed.

Lemma related_call id p k p' f e e' : t_code s = Body id p k -> returned p = None ->
  db (e_store e) = k_data x -> next p (k_disk x) e = (p', f, e') ->
  exists y', at_most_one (within b) y y' /\
    related (set_data (db (e_store e')) (k_open x) f (go_on t s (Body id p' k) (t_depth s) x)) y'.
Proof.
  intros Hc Hp Hd Hn. pose proof thread_sim as Hs. rewrite Hc in Hs. destruct Hs as [Hz Hk].
  eapply (related_turn b t s (Body id p' k) (t_depth s) (Some (TRunning id p')) []); try done; simpl; [by rewrite app_nil_r|].
  apply (step_within false); [|done]. rewrite <- (l_mgr _ _ R). eapply s_call; [exact Hz|done|by rewrite (l_data _ _ R)|].
  by rewrite (l_disk _ _ R).
Qed.

Lemma related_emit e k : t_code s = Emit e k ->
  exists y', at_most_one (within b) y y' /\ related (publish_event e (go_on t s k (t_depth s) x)) y'.
Proof.
  intros Hc. pose proof thread_sim as Hs. rewrite Hc in Hs. destruct Hs as (z' & He & Hh & Hk).
  eapply (related_turn b t s k (t_depth s) z' [e]); try done; simpl; [by rewrite Hh|].
  apply (step_within false); [|done]. rewrite <- (l_mgr _ _ R), <- (l_data _ _ R), <- (l_disk _ _ R). by apply s_emit.
Qed.

Lemma related_spawn k t' : t_code s = Spawn k -> k_threads x !! t' = None ->
  exists y', at_most_one (within b) y y' /\
    related (set_threads (<[t' := mkThread run_worker 0 Ready true]> (k_threads (go_on t s (k t') (t_depth s) x))) x) y'.
Proof.
  intros Hc Ht'. apply (related_silent b x); try done. intros t2. simpl. rewrite !lookup_insert.
  case_decide; [subst; rewrite Ht'; by intros ->|]. case_decide; [subst|done]. rewrite Ht. simpl. rewrite Hc.
  intros Hk. apply Hk.
Qed.
End Turn.

(** ** The simulation *)

Lemma sim_at_wake s z : sim_at (Some (wake s)) z <-> sim_at (Some s) z.
Proof. simpl. by destruct (wake_same s) as [-> _]. Qed.

Lemma related_run_turn b t x x' y : related x y -> minv x -> run_turn t x x' ->
  (gives_back x t = true -> b = true) ->
  exists y', at_most_one (within b) y y' /\ related x' y'.
Proof.
  intros R Hi Hstep Hback.
  destruct Hstep as [s k x Ht Hr Hc Hm|s k x Ht Hr Hc|s k x Ht Hr Hc Hm|s k x Ht Hr Hc
    |s back f now i k x Ht Hr Hc Hf|s what f c c' k x Ht Hr Hc Hd Hdb Ho Hf|s k1 k2 ok x Ht Hr Hc
    |s id p k p' f e e' x Ht Hr Hc Hp Hdb Hn|s id r k x Ht Hr Hc|s e k x Ht Hr Hc Hd|s x Ht Hr Hc Hd
    |s k x Ht Hr Hc|s k t' s' x Ht Hr Hc Ht' Ha|s k x Ht Hr Hc Hno|s k x Ht Hr Hc|s x Ht Hr Hm
    |s k t' x Ht Hr Hc Ht'|s t' s' a k x Ht Hr Hc Ht' Ha|s l x Ht Hr Hc].
  all: pose proof (thread_sim t s x y R Ht) as Hs.
  - eapply (related_quiet b t s k _ x); try done. by rewrite Hc.
  - eapply (related_quiet b t s k _ x); try done. by rewrite Hc.
  - apply (related_silent b x); try done; simpl; [|congruence].
    intros t2. rewrite lookup_insert. case_decide; [subst|done]. rewrite Hc in Hs. by intros _.
  - rewrite Hc in Hs. destruct Hs as [Hh Hs]. apply (related_silent b x); try done; simpl.
    + intros t2. rewrite lookup_insert. by case_decide; [subst|].
    + intros t2 H1 H2. destruct (ready_code x t s Hi Ht Hr) as (W & _ & _ & Hok & _). rewrite Hc in Hok.
      destruct Hok as (_ & _ & Hst & _). unfold has_store in Hst. bool_prop. assert (t2 = t) as -> by congruence.
      by rewrite Hh in H1.
  - eapply related_access; try done. intros ->. apply Hback. unfold gives_back. by rewrite Ht; simpl; rewrite Hc.
  - by eapply related_store.
  - eapply (related_quiet b t s (if ok then k1 else k2) _ x); try done. rewrite Hc. intros z [H1 H2]. by destruct ok.
  - by eapply related_call.
  - rewrite Hc in Hs. destruct Hs as [Hz Hk]. apply (related_silent b x); try done.
    intros t2. simpl. rewrite lookup_insert. case_decide; [subst|done]. intros _. simpl. rewrite Hz. apply Hk.
  - by eapply related_emit.
  - destruct (ready_code x t s Hi Ht Hr) as (W & _ & Hdep & Hok & _).
    by apply (related_silent b x).
  - apply (related_silent b x); try done. intros t2. simpl. rewrite lookup_fmap, lookup_insert. rewrite Hc in Hs.
    case_decide; [subst; intros _; by apply sim_at_wake|]. destruct (k_threads x !! t2); [|done]. by apply sim_at_wake.
  - apply (related_silent b x); try done. intros t2. simpl. rewrite !lookup_insert. rewrite Hc in Hs.
    case_decide; [subst; rewrite Ht'; by apply sim_at_wake|]. case_decide; [subst; by intros _|done].
  - eapply (related_quiet b t s k _ x); try done. by rewrite Hc.
  - apply (related_silent b x); try done. intros t2. simpl. rewrite lookup_insert. rewrite Hc in Hs.
    case_decide; [subst; by intros _|done].
  - apply (related_silent b x); try done. intros t2. simpl. rewrite lookup_insert.
    case_decide; [subst; by rewrite Ht|done].
  - by eapply related_spawn.
  - eapply (related_quiet b t s k _ x); try done. by rewrite Hc.
  - eapply (related_quiet b t s (body_at l) _ x); try done. rewrite Hc. intros z ->. apply sim_body.
Qed.

Lemma related_outside b x x' y : related x y -> outside x x' ->
  exists y', at_most_one (within b) y y' /\ related x' y'.
Proof.
  intros R Hstep. destruct Hstep as [t s x1 Ht Ha|t c x1 Ht Hc];
    apply (related_silent b x1); try done; intros t2; simpl; rewrite lookup_insert; case_decide; subst; try done;
    rewrite Ht.
  - apply sim_at_wake.
  - intros ->. by apply sim_public.
Qed.

(** The steps of the machine, likewise. *)
Definition machine_within (b : bool) : machine -> machine -> Prop := if b then machine_step else unrefused_step.

Lemma machine_within_step b x x' : machine_within b x x' -> machine_step x x'.
Proof. destruct b; [done|]. by intros [t x1 x2 Ht _|x1 x2 Ho]; [eapply k_turn|apply k_outside]. Qed.

Lemma related_step b x x' y : related x y -> minv x -> machine_within b x x' ->
  exists y', at_most_one (within b) y y' /\ related x' y'.
Proof.
  intros R Hi Hs. destruct b; destruct Hs as [t x1 x2 Hx|x1 x2 Hx]; eauto using related_outside.
  - by eapply related_run_turn.
  - eapply related_run_turn; try done. congruence.
Qed.

Lemma related_star b x x' y : star (machine_within b) x x' -> related x y -> minv x ->
  exists y', star (within b) y y' /\ related x' y'.
Proof.
  intros Hs. revert y. induction Hs as [x|x x1 x' H1 Hs IH]; intros y R Hi; [exists y; split; [constructor|done]|].
  destruct (related_step b _ _ _ R Hi H1) as (y1 & Hy1 & R1).
  destruct (IH y1 R1 (minv_step _ _ Hi (machine_within_step _ _ _ H1))) as (y2 & Hy2 & R2).
  exists y2. split; [|done]. destruct Hy1 as [->|Hy1]; [done|by eapply star_step].
Qed.

Lemma related_new cfg d (f : fs) : related (new_machine cfg d f) (created cfg d f).
Proof. by split; intros; simpl; rewrite ?lookup_empty. Qed.

Lemma related_run b cfg d (f : fs) x :
  star (machine_within b) (new_machine cfg d f) x ->
  exists y, star (within b) (created cfg d f) y /\ related x y.
Proof.
  intros Hx. apply (related_star _ _ _ _ Hx); [apply related_new|apply minv_new].
Qed.

(** A thread that is moving a job is a worker of the system. *)
Lemma moves_job_work x y t id : related x y -> moves_job x t = Some id -> work (threads y !! t) = Some id.
Proof.
  intros R Hm. pose proof (l_sim _ _ R t) as Hs. unfold moves_job in Hm.
  destruct (k_threads x !! t) as [s|]; [|done]. simpl in *. destruct (t_code s); try done. simplify_eq.
  destruct Hs as [-> _]. done.
Qed.

(** * Theorems *)


(** C13. One place, one worker: starting from a new manager, in every interleaving of the
    threads in which no cancel is refused after taking its job, a job is in at most one of the
    run queue (once), the waiting map, the paused set and the active set, no two workers ever
    run the same job, and when [wait_idle] reads an empty run queue and an empty active set
    no worker is moving anything. *)
Theorem jobs_dispatched_once cfg d (f : fs) x :
  db_wf d -> star unrefused_step (new_machine cfg d f) x ->
  (forall id, (occ (i_mgr (k_impl x)) id <= 1)%nat) /\
  (forall t t' id, moves_job x t = Some id -> moves_job x t' = Some id -> t = t') /\
  (idle (i_mgr (k_impl x)) = true -> forall t, moves_job x t = None).
Proof.
  intros Hd (y & Hy & R)%(related_run false).
  destruct (dispatch_inv _ _ _ _ Hd Hy) as (_ & _ & Hq & Ht). rewrite <- (l_mgr _ _ R).
  split_and!; [apply Hq|..].
  - intros t t' id H1%(moves_job_work _ _ _ _ R) H2%(moves_job_work _ _ _ _ R). by apply (t_work_one _ _ _ Ht t t' id).
  - intros Hi t. destruct (moves_job x t) as [id|] eqn:E; [|done].
    apply (moves_job_work _ _ _ _ R), (t_works _ _ _ Ht) in E.
    unfold idle in Hi. bool_prop. set_solver.
Qed.

(** C14. L2-JOB-013, intent before action: in every interleaving of the threads, refused cancels
    included, every job that is queued, waiting, paused or being run by a worker is durably
    recorded in the store. *)
Theorem queued_jobs_are_durable cfg d (f : fs) x id :
  db_wf d -> star machine_step (new_machine cfg d f) x ->
  held (i_mgr (k_impl x)) id -> is_Some (view (k_data x) !! c_str id).
Proof.
  intros Hd (y & Hy & R)%(related_run true). rewrite <- (l_mgr _ _ R), <- (l_data _ _ R). by eapply held_durable.
Qed.
End Refinement.
