(* ===== verification/Runs.v ===== *)
(** Concrete runs of the manager's threads (Threads.v), evaluated, and what they witness.

    [demo_run] is a whole life: start, four workers, a submission, the move, shutdown.
    [refused_cancel_duplicates_job] is a schedule in which two workers run one job;
    [restart_blocks_shutdown] and [shutdown_misses_workers] are races of start and shutdown. *)

From S2P Require Import Prelude Job Store Kernel Crash FsOps Mover Events Config Manager Dispatch Threads Scheduling Refinement.

Definition turns {fs} `{!Kernel fs} (t n : nat) : list (choice fs) := replicate n (Turn t).
Definition demo_answers : open_answers :=
  mkAnswers false None (str "ok") (str "wal") 2 1 (db empty_store).
Definition demo_machine : machine demo_fs :=
  new_machine demo_cfg (db empty_store) (demo_disk [((1, str "a"), 10)] []).

(** [start] spawns four workers, which go to sleep; thread 9 submits [job-1]. *)
Definition demo_start : list (choice demo_fs) :=
  Call 0 (p_start (str "/store") demo_answers) :: turns 0 16
  ++ turns 1 5 ++ turns 2 5 ++ turns 3 5 ++ turns 4 5
  ++ Call 9 (p_submit_id job_1 demo_request) :: turns 9 11.
(** Worker 4 has been notified and moves the file; [shutdown] joins the workers. *)
Definition demo_run : list (choice demo_fs) :=
  demo_start ++ turns 4 42 ++ Call 10 p_shutdown :: turns 10 4
  ++ turns 1 4 ++ turns 2 4 ++ turns 3 4 ++ turns 4 4 ++ turns 10 7.
(** Thread 20 cancels the job and meets a store failure between a pause and a resume. *)
Definition demo_cancel : list (choice demo_fs) :=
  demo_start ++ Call 20 (p_cancel job_1) :: turns 20 4
  ++ Call 21 (p_pause job_1) :: turns 21 4
  ++ Faulty 20 (str "disk I/O error") :: turns 20 5
  ++ Call 22 (p_resume job_1) :: turns 22 5
  ++ turns 2 5 ++ turns 4 5.

Definition ran (cs : list (choice demo_fs)) : machine demo_fs := default demo_machine (schedule cs demo_machine).

Lemma ran_reached cs :
  (if schedule cs demo_machine then true else false) = true -> star machine_step demo_machine (ran cs).
Proof.
  unfold ran. destruct (schedule cs demo_machine) as [x|] eqn:Hx; [|done]. intros _. by apply schedule_sound with cs.
Qed.
Lemma demo_reached : star machine_step demo_machine (ran demo_run).
Proof. apply ran_reached. vm_compute. done. Qed.

(** The whole run: the file is moved, the job is DONE, every thread has returned. *)
Example demo_ran :
  map (fun e => fst (fst (fst e))) (k_published (ran demo_run)) = [JobSubmitted; JobStarted; JobCompleted] /\
  state <$> (view (k_data (ran demo_run)) !! c_str job_1) = Some Done /\
  forallb (fun p => match t_code p.2 with Return _ => true | _ => false end)
    (map_to_list (k_threads (ran demo_run))) = true.
Proof. vm_compute. done. Qed.

(** A refused cancel can start one job twice: the cancel takes the job from the
    queue, the operator pauses it, the cancel meets a store failure and puts the job
    back in the queue while it is also paused, and a resume queues it again.  Two
    workers then run the same move at the same time. *)
Theorem refused_cancel_duplicates_job :
  exists x, star machine_step demo_machine x /\ moves_job x 2 = Some job_1 /\ moves_job x 4 = Some job_1.
Proof.
  exists (ran demo_cancel). split; [apply ran_reached; vm_compute; done|]. vm_compute. done.
Qed.

(** ** Starts that race with a shutdown *)

(** Thread 11 starts the manager again between the notification of a shutdown and the joins. *)
Definition demo_restart : list (choice demo_fs) :=
  Call 0 (p_start (str "/store") demo_answers) :: turns 0 16
  ++ turns 1 5 ++ turns 2 5 ++ turns 3 5 ++ turns 4 5
  ++ Call 10 p_shutdown :: turns 10 4
  ++ Call 11 (p_start (str "/store") demo_answers) :: turns 11 16
  ++ turns 1 4 ++ turns 2 4 ++ turns 3 4 ++ turns 4 4
  ++ turns 12 5 ++ turns 13 5 ++ turns 14 5 ++ turns 15 5.
(** Thread 10 shuts the manager down while [start] has spawned its workers and not yet
    kept their handles. *)
Definition demo_early_shutdown : list (choice demo_fs) :=
  Call 0 (p_start (str "/store") demo_answers) :: turns 0 13
  ++ Call 10 p_shutdown :: turns 10 7 ++ turns 0 3
  ++ turns 1 5 ++ turns 2 5 ++ turns 3 5 ++ turns 4 5.

(** Whom thread [t] waits for. *)
Definition joins {fs} `{!Kernel fs} (x : machine fs) (t : nat) : option nat :=
  match t_code <$> k_threads x !! t with Some (Join t' _) => Some t' | _ => None end.

Lemma ran_stuck cs :
  forallb (fun p => rests (ran cs) p.2) (map_to_list (k_threads (ran cs))) = true ->
  forall t x', ~ run_turn t (ran cs) x'.
Proof.
  intros Hall t x'. apply rests_stuck. intros t' s Ht%elem_of_map_to_list.
  by apply (proj1 (List.forallb_forall _ _) Hall (t', s)), list_elem_of_In.
Qed.

(** A start during a shutdown can block the shutdown for ever: [start] clears [stopping]
    before the workers have looked at it, they go back to sleep, and the shutdown waits for
    them to end; no thread can take a turn. *)
Theorem restart_blocks_shutdown :
  exists x, star machine_step demo_machine x /\ joins x 10 = Some 1%nat /\ forall t x', ~ run_turn t x x'.
Proof.
  exists (ran demo_restart). split; [apply ran_reached; vm_compute; done|].
  split; [vm_compute; done|]. apply ran_stuck. vm_compute. done.
Qed.

(** A shutdown during a start leaves threads that nobody joins: every call has returned, the
    manager is not running, so no later shutdown joins them, and the handles are still there. *)
Theorem shutdown_misses_workers :
  exists x, star machine_step demo_machine x /\ running (i_mgr (k_impl x)) = false /\
    i_workers (k_impl x) = [1; 2; 3; 4]%nat /\ forall t x', ~ run_turn t x x'.
Proof.
  exists (ran demo_early_shutdown). split; [apply ran_reached; vm_compute; done|].
  split; [vm_compute; done|]. split; [vm_compute; done|]. apply ran_stuck. vm_compute. done.
Qed.

(** ** Witnesses *)

(** Thread 9 about to record [job-1], the store mutex in its hands. *)
Definition demo_recording : list (choice demo_fs) :=
  Call 0 (p_start (str "/store") demo_answers) :: turns 0 16 ++ turns 1 5
  ++ Call 9 (p_submit_id job_1 demo_request) :: turns 9 4.
Definition at_store (o : option (tstate demo_fs)) : bool :=
  match o with
  | Some s => match t_status s, t_code s with Ready, Store _ _ => true | _, _ => false end
  | None => false
  end.

Lemma lock_discipline_witness : k_store_mutex (ran demo_recording) = Some 9%nat.
Proof.
  assert (star machine_step demo_machine (ran demo_recording)) as Hx by (apply ran_reached; vm_compute; done).
  destruct (lock_discipline _ _ _ _ Hx) as [_ H].
  assert (at_store (k_threads (ran demo_recording) !! 9%nat) = true) as Hs by (vm_compute; done).
  destruct (k_threads (ran demo_recording) !! 9%nat) as [s|] eqn:E; [|done]. specialize (H 9%nat s E).
  unfold at_store in Hs. destruct (t_status s); try discriminate Hs.
  destruct (t_code s); try discriminate Hs. exact (proj1 (H eq_refl)).
Defined.



Lemma queued_jobs_are_durable_witness : is_Some (view (k_data (ran demo_start)) !! c_str job_1).
Proof.
  apply (queued_jobs_are_durable demo_cfg (db empty_store) (demo_disk [((1, str "a"), 10)] []) _ _ empty_wf).
  - apply ran_reached. vm_compute. done.
  - left. replace (runnable _) with [job_1] by (vm_compute; done). apply list_elem_of_here.
Defined.

Lemma jobs_dispatched_once_witness : (occ (i_mgr (k_impl (ran demo_run))) job_1 <= 1)%nat.
Proof.
  refine (proj1 (jobs_dispatched_once demo_cfg (db empty_store) (demo_disk [((1, str "a"), 10)] [])
    (ran demo_run) empty_wf _) job_1).
  destruct (schedule demo_run demo_machine) as [x|] eqn:E; [|vm_compute in E; discriminate].
  unfold ran. rewrite E. apply (schedule_unrefused demo_run _ _ E). vm_compute. reflexivity.
Defined.
