(* ===== verification/Settling.v ===== *)
(** The manager comes to rest: src/cpp/src/manager.cpp.

    Scheduling.v shows that some thread can always go on; here, that the threads cannot go on
    for ever when no new call is made.  A command gets through its code ([child]); between
    the turns of commands the workers empty the queue, each taken job making it shorter, and
    a worker that takes nothing gets through its loop to its wait ([wmove]).  [turn_descends]
    is the lexicographic order of the three; [manager_settles] is what it means for the jobs
    that have been accepted. *)

From S2P Require Import Prelude Job Store Kernel Crash FsOps Mover Events Config Manager Dispatch Threads Scheduling Runs.

(** * Vectors of threads *)

(** One of the threads moves. *)
Definition one_moves {A} (R : A -> A -> Prop) (m m' : gmap nat A) : Prop :=
  exists t a a', m !! t = Some a /\ R a a' /\ m' = <[t := a']> m.

Lemma one_moves_add {A} (R : A -> A -> Prop) t a m :
  Acc (fun a' a => R a a') a -> Acc (fun m' m => one_moves R m m') m -> m !! t = None ->
  Acc (fun m' m => one_moves R m m') (<[t := a]> m).
Proof.
  intros Ha. revert m. induction Ha as [a _ IHa]. intros m Hm. induction Hm as [m Hm IHm]. intros Ht.
  constructor. intros m' (t' & b & b' & Hb & Hr & ->). destruct (decide (t = t')) as [<-|Hne].
  - rewrite lookup_insert_eq in Hb. simplify_eq. rewrite insert_insert_eq. apply IHa; [done|by constructor|done].
  - rewrite lookup_insert_ne in Hb by done. rewrite insert_insert_ne by done. apply IHm; [by exists t', b, b'|].
    by rewrite lookup_insert_ne.
Qed.

Lemma one_moves_acc {A} (R : A -> A -> Prop) m :
  map_Forall (fun _ a => Acc (fun a' a => R a a') a) m -> Acc (fun m' m => one_moves R m m') m.
Proof.
  induction m as [|t a m Ht IH] using map_ind; intros Hm.
  - constructor. intros m' (t' & b & b' & Hb & _). by rewrite lookup_empty in Hb.
  - apply map_Forall_insert in Hm as [Ha Hm]; [|done]. apply one_moves_add; auto.
Qed.

Section Settling.
Context {fs : Type} `{!Kernel fs}.
Local Abbreviation code := (code fs).
Local Abbreviation machine := (machine fs).
Local Abbreviation tstate := (tstate fs).

(** * Commands *)

(** What a command goes on with. *)
Inductive child : code -> code -> Prop :=
| ch_lock k : child (LockM k) k
| ch_unlock k : child (UnlockM k) k
| ch_lock_store k : child (LockS k) k
| ch_unlock_store k : child (UnlockS k) k
| ch_access b f now_ms i : child (Access b f) (snd (f now_ms i))
| ch_store what f c : child (Store what f) (snd (f c))
| ch_emit e k : child (Emit e k) k
| ch_notify all k : child (Notify all k) k
| ch_spawn k t : child (Spawn k) (k t)
| ch_join t k : child (Join t k) k
| ch_goto l : child (Goto l) (body_at l).

(** Code of a command that is not a retry: its only loop is that of [wait_idle]. *)
Fixpoint no_retry (c : code) : Prop :=
  match c with
  | Return _ => True
  | LockM k | UnlockM k | LockS k | UnlockS k | Emit _ k | Notify _ k | Join _ k => no_retry k
  | Access _ f => forall now_ms i, no_retry (snd (f now_ms i))
  | Store _ f => forall s, no_retry (snd (f s))
  | Spawn k => forall t, no_retry (k t)
  | Goto (WaitIdle _ _) => True
  | OwnOpen _ _ | Body _ _ _ | Wait _ | Goto _ => False
  end.

Lemma wait_idle_ends waited timeout_ms : Acc (fun c' c => child c c') (Goto (WaitIdle waited timeout_ms)).
Proof.
  remember (Z.to_nat (timeout_ms - waited)) as n eqn:Hn. revert waited Hn.
  induction n as [n IH] using lt_wf_ind. intros waited Hn.
  constructor. intros c Hc. inversion Hc; subst. simpl. clear Hc.
  constructor. intros c Hc. inversion Hc; subst. clear Hc.
  constructor. intros c Hc. inversion Hc as [| | | |b f now i| | | | | |]; subst. clear Hc.
  destruct (idle (i_mgr i)); simpl.
  - constructor. intros c Hc. inversion Hc; subst. constructor. intros c Hc'. inversion Hc'.
  - constructor. intros c Hc. inversion Hc; subst. clear Hc. destruct (Z.leb_spec timeout_ms waited).
    + constructor. intros c Hc. inversion Hc; subst. clear Hc.
      constructor. intros c Hc. inversion Hc as [| | | |b f now2 i2| | | | | |]; subst. simpl. clear Hc.
      constructor. intros c Hc. inversion Hc; subst. constructor. intros c Hc'. inversion Hc'.
    + eapply IH; [|reflexivity]. lia.
Qed.

Lemma no_retry_ends : forall c, no_retry c -> Acc (fun c' c => child c c') c.
Proof.
  assert (forall c k : code, (forall c', child c c' -> c' = k) -> Acc (fun c' c => child c c') k ->
    Acc (fun c' c => child c c') c) as Hone by (intros c k Hc Hk; constructor; by intros c' ->%Hc).
  fix IH 1. intros [a|k|k|k|k|b f|what f|k1 k2|id p k|e k|all k|k|k|t k|l] Hn; simpl in Hn; try contradiction.
  - constructor. intros c Hc. inversion Hc.
  - apply (Hone _ k); [by inversion 1|]. by apply IH.
  - apply (Hone _ k); [by inversion 1|]. by apply IH.
  - apply (Hone _ k); [by inversion 1|]. by apply IH.
  - apply (Hone _ k); [by inversion 1|]. by apply IH.
  - assert (forall now i, Acc (fun c' c => child c c') (snd (f now i))) as Hk by (intros now i; by apply IH).
    constructor. intros c Hc. inversion Hc; subst. apply Hk.
  - assert (forall s, Acc (fun c' c => child c c') (snd (f s))) as Hk by (intros s; by apply IH).
    constructor. intros c Hc. inversion Hc; subst. apply Hk.
  - apply (Hone _ k); [by inversion 1|]. by apply IH.
  - apply (Hone _ k); [by inversion 1|]. by apply IH.
  - assert (forall t, Acc (fun c' c => child c c') (k t)) as Hk by (intros t; by apply IH).
    constructor. intros c Hc. inversion Hc; subst. apply Hk.
  - apply (Hone _ k); [by inversion 1|]. by apply IH.
  - destruct l; try contradiction. apply wait_idle_ends.
Qed.

(** * Workers *)

(** Code of a worker: it wakes nobody, makes the queue no longer, and loops only to its top. *)
Fixpoint calm (c : code) : Prop :=
  match c with
  | Return _ => True
  | LockM k | UnlockM k | Emit _ k => calm k
  | Access _ f => forall now_ms i,
      (length (runnable (i_mgr (fst (f now_ms i)))) <= length (runnable (i_mgr i)))%nat /\ calm (snd (f now_ms i))
  | OwnOpen k1 k2 => calm k1 /\ calm k2
  | Body _ _ k => forall r, calm (k r)
  | Wait k => k = Goto WorkerLoop
  | Goto l => l = WorkerLoop
  | _ => False
  end.

(** What a worker goes on with when it does not make the queue shorter. *)
Inductive wmove : code * status -> code * status -> Prop :=
| w_lock k : wmove (LockM k, Ready) (k, Ready)
| w_unlock k : wmove (UnlockM k, Ready) (k, Ready)
| w_emit e k : wmove (Emit e k, Ready) (k, Ready)
| w_open k1 k2 (ok : bool) : wmove (OwnOpen k1 k2, Ready) (if ok then k1 else k2, Ready)
| w_access b f now_ms i :
    (length (runnable (i_mgr i)) <= length (runnable (i_mgr (fst (f now_ms i)))))%nat ->
    wmove (Access b f, Ready) (snd (f now_ms i), Ready)
| w_call id p p' k s s' e e' : returned p = None -> next p s e = (p', s', e') ->
    wmove (Body id p k, Ready) (Body id p' k, Ready)
| w_end id r k : wmove (Body id (Ret r) k, Ready) (k r, Ready)
| w_wait k : wmove (Wait k, Ready) (k, Asleep)
| w_goto l : wmove (Goto l, Ready) (body_at l, Ready)
| w_relock c : wmove (c, Woken) (c, Ready).

Local Abbreviation wends := (Acc (fun b a => wmove a b)).

Lemma wends_one c k st : (forall b, wmove (c, Ready) b -> b = (k, st)) -> wends (k, st) -> wends (c, Ready).
Proof. intros Hc Hk. constructor. by intros b ->%Hc. Qed.

Lemma calm_run_worker : calm run_worker.
Proof. done. Qed.

Lemma calm_worker_loop : calm worker_loop.
Proof.
  intros now i. simpl. case_match; [done|]. case_match; [done|]. unfold worker_take.
  destruct (runnable (i_mgr i)) as [|id rest] eqn:E; simpl; [rewrite ?E; done|].
  split; [lia|]. intros r. intros now2 i2. done.
Qed.

Lemma asleep_ends c : wends (c, Asleep).
Proof. constructor. intros b Hb. inversion Hb. Qed.

(** From its top a worker sleeps, leaves or takes a job. *)
Lemma loop_ends : wends (Goto WorkerLoop, Ready).
Proof.
  apply (wends_one _ worker_loop Ready); [by inversion 1|].
  constructor. intros b Hb. inversion Hb as [| | | |b' f now i Hle| | | | |]; subst. clear Hb.
  revert Hle. simpl. case_match.
  { intros _. simpl. apply (wends_one _ (Goto WorkerLoop) Asleep); [by inversion 1|apply asleep_ends]. }
  case_match.
  { intros _. simpl. apply (wends_one _ (Return AVoid) Ready); [by inversion 1|]. constructor. intros b Hb. inversion Hb. }
  unfold worker_take, worker_exits in *. destruct (runnable (i_mgr i)) as [|id rest] eqn:E; simpl; [|lia].
  rewrite bool_decide_eq_true_2 in * by done. simpl in *. by destruct (stopping (i_mgr i)).
Qed.

Lemma calm_ends : forall c, calm c -> wends (c, Ready).
Proof.
  fix IH 1. intros [a|k|k|k|k|b f|what f|k1 k2|id p k|e k|all k|k|k|t k|l] Hc; simpl in Hc; try contradiction.
  - constructor. intros b Hb. inversion Hb.
  - apply (wends_one _ k Ready); [by inversion 1|]. by apply IH.
  - apply (wends_one _ k Ready); [by inversion 1|]. by apply IH.
  - assert (forall now i, wends (snd (f now i), Ready)) as Hk by (intros now i; apply IH, Hc).
    constructor. intros c Hb. inversion Hb; subst. apply Hk.
  - assert (wends (k1, Ready)) as H1 by (apply IH, Hc). assert (wends (k2, Ready)) as H2 by (apply IH, Hc).
    constructor. intros c Hb. inversion Hb as [| | |? ? ok| | | | | |]; subst. by destruct ok.
  - assert (forall r, wends (k r, Ready)) as Hk by (intros r; apply IH, Hc). clear Hc IH.
    induction p as [r|R f h IHp|R f h IHp|f h IHp]; constructor; intros c Hb;
      inversion Hb as [| | | | |? ? p' ? s s' ev ev' Hr Hn| | | |]; subst; simpl in *; auto;
      repeat case_match; simplify_eq; apply IHp.
  - apply (wends_one _ k Ready); [by inversion 1|]. by apply IH.
  - apply (wends_one _ k Asleep); [by inversion 1|]. apply asleep_ends.
  - subst. apply loop_ends.
Qed.

Lemma calm_ends_any c st : calm c -> wends (c, st).
Proof.
  intros Hc. destruct st; [by apply calm_ends|apply asleep_ends|].
  constructor. intros b Hb. inversion Hb; subst. by apply calm_ends.
Qed.

(** * The machine *)

Definition as_command (s : tstate) : option code := if t_worker s then None else Some (t_code s).
Definition as_worker (s : tstate) : option (code * status) :=
  if t_worker s then Some (t_code s, t_status s) else None.
Definition commands (x : machine) : gmap nat code := omap as_command (k_threads x).
Definition workers (x : machine) : gmap nat (code * status) := omap as_worker (k_threads x).
Definition queue (x : machine) : nat := length (runnable (i_mgr (k_impl x))).

Definition all_calm (x : machine) : Prop :=
  forall t s, k_threads x !! t = Some s -> t_worker s = true -> calm (t_code s).

(** A command moves, or a worker takes a job, or a worker moves. *)
Definition descends (x x' : machine) : Prop :=
  one_moves child (commands x) (commands x') \/
  (commands x' = commands x /\
   ((queue x' < queue x)%nat \/ (queue x' = queue x /\ one_moves wmove (workers x) (workers x')))).

(** Thread [t] moves to [s'], and the others at most wake up or are new workers. *)
Definition others_wake (t : nat) (x x' : machine) : Prop :=
  forall t2, t2 <> t -> k_threads x' !! t2 = k_threads x !! t2 \/
    (exists s, k_threads x !! t2 = Some s /\ k_threads x' !! t2 = Some (wake s)) \/
    (k_threads x !! t2 = None /\ exists s, k_threads x' !! t2 = Some s /\ t_worker s = true /\ calm (t_code s)).

Lemma as_command_wake s : as_command (wake s) = as_command s.
Proof. unfold as_command. by destruct (wake_same s) as (-> & -> & _). Qed.

(** The turn of a command. *)
Lemma command_turn t s s' x x' :
  all_calm x -> k_threads x !! t = Some s -> t_worker s = false ->
  k_threads x' !! t = Some s' -> t_worker s' = false -> child (t_code s) (t_code s') -> others_wake t x x' ->
  all_calm x' /\ descends x x'.
Proof.
  intros Hc Ht Hw Ht' Hw' Hch Ho. split.
  - intros t2 s2 H2 Hw2. destruct (decide (t2 = t)) as [->|Hne]; [congruence|].
    destruct (Ho t2 Hne) as [E|[(s0 & E & E')|(E & s0 & E' & _ & Hs0)]]; [eapply Hc; [by rewrite <- E|done]|..|by simplify_eq].
    rewrite E' in H2. simplify_eq. destruct (wake_same s0) as (-> & Hws & _). apply (Hc t2); [done|congruence].
  - left. exists t, (t_code s), (t_code s'). unfold commands. rewrite lookup_omap, Ht. split_and!; [|done|].
    + simpl. unfold as_command. by rewrite Hw.
    + apply map_eq. intros t2. rewrite lookup_omap. destruct (decide (t2 = t)) as [->|Hne].
      * rewrite lookup_insert_eq, Ht'. simpl. unfold as_command. by rewrite Hw'.
      * rewrite lookup_insert_ne, lookup_omap by done.
        destruct (Ho t2 Hne) as [->|[(s0 & -> & ->)|(-> & s0 & -> & Hs0 & _)]]; [done|apply as_command_wake|].
        simpl. unfold as_command. by rewrite Hs0.
Qed.

(** The turn of a worker. *)
Lemma worker_turn t s s' x x' :
  all_calm x -> k_threads x !! t = Some s -> t_worker s = true ->
  k_threads x' = <[t := s']> (k_threads x) -> t_worker s' = true -> calm (t_code s') ->
  (queue x' < queue x \/ queue x' = queue x)%nat ->
  (queue x' = queue x -> wmove (t_code s, t_status s) (t_code s', t_status s')) ->
  all_calm x' /\ descends x x'.
Proof.
  intros Hc Ht Hw Ht' Hw' Hs' Hq Hm. split.
  - intros t2 s2. rewrite Ht', lookup_insert_Some. intros [[<- <-]|[_ H2]] Hw2; [done|by eapply Hc].
  - right. split.
    + unfold commands. rewrite Ht'. apply map_eq. intros t2. rewrite !lookup_omap, lookup_insert.
      case_decide as E; [subst|done]. rewrite Ht. simpl. unfold as_command. by rewrite Hw, Hw'.
    + destruct Hq as [Hq|Hq]; [by left|right]. split; [done|]. exists t, (t_code s, t_status s), (t_code s', t_status s').
      unfold workers. rewrite lookup_omap, Ht. split_and!; [|by apply Hm|].
      * simpl. unfold as_worker. by rewrite Hw.
      * rewrite Ht'. apply map_eq. intros t2. rewrite lookup_omap, !lookup_insert, lookup_omap.
        case_decide; [|done]. simpl. unfold as_worker. by rewrite Hw'.
Qed.

Lemma go_turn t s k d x x' :
  all_calm x -> k_threads x !! t = Some s -> t_status s = Ready ->
  k_threads x' = <[t := at_depth k d s]> (k_threads x) ->
  (t_worker s = false -> child (t_code s) k) ->
  (t_worker s = true -> calm (t_code s) -> calm k /\ (queue x' < queue x \/ queue x' = queue x)%nat /\
     (queue x' = queue x -> wmove (t_code s, Ready) (k, Ready))) ->
  all_calm x' /\ descends x x'.
Proof.
  intros Hc Ht Hr Hts Hcmd Hwk. destruct (t_worker s) eqn:Hw.
  - destruct (Hwk eq_refl (Hc t s Ht Hw)) as (H1 & H2 & H3).
    apply (worker_turn t s (at_depth k d s)); simpl; rewrite ?Hr; done.
  - apply (command_turn t s (at_depth k d s)); simpl; try done; [by rewrite Hts, lookup_insert_eq|by apply Hcmd|].
    intros t2 Hne. left. by rewrite Hts, lookup_insert_ne.
Qed.

(** The same when the queue stays as it is. *)
Lemma go_turn_same t s k d x x' :
  all_calm x -> k_threads x !! t = Some s -> t_status s = Ready ->
  k_threads x' = <[t := at_depth k d s]> (k_threads x) -> queue x' = queue x ->
  (t_worker s = false -> child (t_code s) k) ->
  (t_worker s = true -> calm (t_code s) -> calm k /\ wmove (t_code s, Ready) (k, Ready)) ->
  all_calm x' /\ descends x x'.
Proof.
  intros Hc Ht Hr Hts Hq Hcmd Hwk. eapply go_turn; try done. intros Hw Hk. destruct (Hwk Hw Hk). auto.
Qed.

(** Turns that wake or create other threads are made by commands. *)
Lemma notify_all_turn t s k x : all_calm x -> k_threads x !! t = Some s -> t_code s = Notify true k ->
  let x' := set_threads (wake <$> k_threads (go_on t s k (t_depth s) x)) x in all_calm x' /\ descends x x'.
Proof.
  intros Hca Ht Hc x'. destruct (t_worker s) eqn:Hw; [by pose proof (Hca t s Ht Hw) as H; rewrite Hc in H|].
  destruct (wake_same (at_depth k (t_depth s) s)) as (Hk & Hww & _).
  apply (command_turn t s (wake (at_depth k (t_depth s) s))); simpl; try done.
  - by rewrite lookup_fmap, lookup_insert_eq.
  - by rewrite Hww.
  - rewrite Hk, Hc. constructor.
  - intros t2 Hne. simpl. rewrite lookup_fmap, lookup_insert_ne by done.
    destruct (k_threads x !! t2) as [s2|]; [|by left]. right. left. by exists s2.
Qed.

Lemma with_other_turn t s k t' (s' : tstate) x :
  all_calm x -> k_threads x !! t = Some s -> t_worker s = false -> child (t_code s) k -> t' <> t ->
  (exists s0, k_threads x !! t' = Some s0 /\ s' = wake s0) \/
  (k_threads x !! t' = None /\ t_worker s' = true /\ calm (t_code s')) ->
  let x' := set_threads (<[t' := s']> (k_threads (go_on t s k (t_depth s) x))) x in all_calm x' /\ descends x x'.
Proof.
  intros Hca Ht Hw Hk Hne Hs' x'. apply (command_turn t s (at_depth k (t_depth s) s)); simpl; try done.
  - by rewrite lookup_insert_ne, lookup_insert_eq.
  - intros t2 Hne2. simpl. destruct (decide (t2 = t')) as [->|Hne3]; [right|left; by rewrite !lookup_insert_ne].
    rewrite lookup_insert_eq. destruct Hs' as [(s0 & H0 & ->)|(H0 & H1 & H2)]; [left|right]; eauto.
Qed.

Lemma worker_only t (s : tstate) x : minv x -> k_threads x !! t = Some s -> t_status s = Ready ->
  match t_code s with OwnOpen _ _ | Body _ _ _ | Wait _ => True | _ => False end -> t_worker s = true.
Proof.
  intros Hi Ht Hr. destruct (ready_code x t s Hi Ht Hr) as (W & _ & _ & Hok & _).
  destruct (t_code s); try done; by destruct Hok.
Qed.

Lemma turn_descends t x x' : minv x -> all_calm x -> run_turn t x x' -> all_calm x' /\ descends x x'.
Proof.
  intros Hi Hca Hs.
  destruct Hs as [s k x Ht Hr Hc Hm|s k x Ht Hr Hc|s k x Ht Hr Hc Hm|s k x Ht Hr Hc
    |s back f now i k x Ht Hr Hc Hf|s what f c c' k x Ht Hr Hc Hd Hdb Ho Hf|s k1 k2 ok x Ht Hr Hc
    |s id p k p' f e e' x Ht Hr Hc Hp Hdb Hn|s id r k x Ht Hr Hc|s e k x Ht Hr Hc Hd|s x Ht Hr Hc Hd
    |s k x Ht Hr Hc|s k t' s' x Ht Hr Hc Ht' Ha|s k x Ht Hr Hc Hno|s k x Ht Hr Hc|s x Ht Hr Hm
    |s k t' x Ht Hr Hc Ht'|s t' s' a k x Ht Hr Hc Ht' Ha|s l x Ht Hr Hc].
  all: try pose proof (worker_only t s x Hi Ht Hr) as Hwk.
  - eapply go_turn_same; rewrite ?Hc; try done; [by constructor|]. intros _ Hk. split; [done|constructor].
  - eapply go_turn_same; rewrite ?Hc; try done; [by constructor|]. intros _ Hk. split; [done|constructor].
  - eapply go_turn_same; rewrite ?Hc; try done; by constructor.
  - eapply go_turn_same; rewrite ?Hc; try done; by constructor.
  - assert (i = fst (f now (k_impl x)) /\ k = snd (f now (k_impl x))) as [-> ->] by (by rewrite Hf).
    eapply go_turn; rewrite ?Hc; try done; [by constructor|]. intros _ Hk. destruct (Hk now (k_impl x)) as [Hle Hk'].
    unfold queue. simpl. split_and!; [done|lia|]. intros Hq. constructor. lia.
  - assert (k = snd (f c)) as -> by (by rewrite Hf). eapply go_turn_same; rewrite ?Hc; try done. by constructor.
  - eapply go_turn_same; rewrite ?Hc; try done; [rewrite Hwk by (by rewrite Hc); done|].
    intros _ [H1 H2]. split; [by destruct ok|constructor].
  - eapply go_turn_same; rewrite ?Hc; try done; [rewrite Hwk by (by rewrite Hc); done|].
    intros _ Hk. split; [done|]. by eapply w_call.
  - eapply go_turn_same; rewrite ?Hc; try done; [rewrite Hwk by (by rewrite Hc); done|].
    intros _ Hk. split; [apply Hk|constructor].
  - eapply go_turn_same; rewrite ?Hc; try done; [by constructor|]. intros _ Hk. split; [done|constructor].
  - exfalso. destruct (ready_code x t s Hi Ht Hr) as (W & _ & Hdep & Hok & _).
    assert (has_mutex x t = false) as E by (destruct (t_code s); try done; simpl in Hok; by destruct_and?).
    by rewrite E in Hdep.
  - by apply notify_all_turn.
  - destruct (t_worker s) eqn:Hw; [by pose proof (Hca t s Ht Hw) as H; rewrite Hc in H|].
    apply with_other_turn; try done; [rewrite Hc; constructor|congruence|]. left. eauto.
  - eapply go_turn_same; rewrite ?Hc; try done. by constructor.
  - pose proof (Hwk ltac:(by rewrite Hc)) as Hw. pose proof (Hca t s Ht Hw) as Hk. rewrite Hc in Hk. simpl in Hk. subst k.
    eapply (worker_turn t s); [done|done|done|reflexivity|done|done|by right|]. intros _. rewrite Hc, Hr. constructor.
  - pose proof (v_thread _ Hi t s Ht) as Hok. unfold thread_ok in Hok. rewrite Hr in Hok.
    destruct Hok as (W & _ & _ & Hw & _). eapply (worker_turn t s); [done|done|done|reflexivity|done|exact (Hca t s Ht Hw)|by right|].
    intros _. rewrite Hr. constructor.
  - destruct (t_worker s) eqn:Hw; [by pose proof (Hca t s Ht Hw) as H; rewrite Hc in H|].
    apply with_other_turn; try done; [rewrite Hc; constructor|congruence|]. by right.
  - eapply go_turn_same; rewrite ?Hc; try done. by constructor.
  - eapply go_turn_same; rewrite ?Hc; try done; [by constructor|]. simpl. intros _ ->. split; [apply calm_worker_loop|constructor].
Qed.

(** ** The order is well founded *)

Definition turning (x x' : machine) : Prop := exists t, run_turn t x x'.

Lemma workers_end x : all_calm x -> Acc (fun m' m => one_moves wmove m m') (workers x).
Proof.
  intros Hc. apply one_moves_acc. intros t [c st]. unfold workers. rewrite lookup_omap.
  destruct (k_threads x !! t) as [s|] eqn:Ht; [|done]. simpl. unfold as_worker. destruct (t_worker s) eqn:Hw; [|done].
  intros [= <- <-]. by apply calm_ends_any, (Hc t).
Qed.

Lemma turning_ends x :
  Acc (fun m' m => one_moves child m m') (commands x) -> minv x -> all_calm x -> Acc (fun x' x => turning x x') x.
Proof.
  intros Ha. remember (commands x) as m eqn:Em. revert x Em. induction Ha as [m _ IHm]. intros x ->.
  remember (queue x) as n eqn:En. revert x En IHm. induction n as [n IHn] using lt_wf_ind. intros x -> IHm Hi Hc.
  pose proof (workers_end x Hc) as Hw. remember (workers x) as ws eqn:Ew.
  remember (commands x) as cs eqn:Ecs. remember (queue x) as q eqn:Eq.
  revert x Hi Hc Ew Ecs Eq. induction Hw as [ws _ IHw]. intros x Hi Hc -> -> ->.
  constructor. intros x' [t Ht]. pose proof (minv_turn _ _ _ Hi Ht) as Hi'.
  destruct (turn_descends _ _ _ Hi Hc Ht) as [Hc' [Hcmd|[Hsame [Hq|[Hq Hmv]]]]].
  - by eapply IHm.
  - eapply (IHn (queue x') Hq x' eq_refl); [|done|done]. by rewrite Hsame.
  - by eapply IHw.
Qed.

(** ** Reachable states *)

Lemma all_calm_step x x' : minv x -> all_calm x -> machine_step x x' -> all_calm x'.
Proof.
  intros Hi Hc Hs. destruct Hs as [t x x' Ht|x x' Ho]; [by eapply turn_descends|].
  destruct Ho as [t s x Ht Ha|t c x Ht Hp]; intros t2 s2; simpl; rewrite lookup_insert_Some;
    (intros [[<- <-]|[_ H2]] Hw; [|by apply (Hc t2)]); [|done].
  destruct (wake_same s) as (-> & Hws & _). apply (Hc t); [done|congruence].
Qed.

Lemma reachable_calm cfg d (f : fs) x : star machine_step (new_machine cfg d f) x -> minv x /\ all_calm x.
Proof.
  intros Hs. eapply (star_invariant machine_step (fun x => minv x /\ all_calm x)); [|exact Hs|].
  - intros x1 x2 [H1 H2] Hx. split; [by eapply minv_step|by eapply all_calm_step].
  - split; [apply minv_new|]. intros t s. simpl. by rewrite lookup_empty.
Qed.

Lemma turning_steps x x' : star turning x x' -> star machine_step x x'.
Proof. induction 1 as [|x x1 x2 [t Ht] _ IH]; [constructor|]. eapply star_step; [by eapply k_turn|done]. Qed.

(** * The manager settles *)

(** C7. Accepted jobs are run: when no more calls are made and no retry is in progress, the
    threads of the manager cannot run for ever, however they interleave, whatever the
    kernel and the store answer; and they come to rest only when no worker is moving a job
    and, unless every worker has ended, the run queue is empty. *)
Theorem manager_settles cfg d (f : fs) x :
  star machine_step (new_machine cfg d f) x ->
  (forall t s, k_threads x !! t = Some s -> t_worker s = false -> no_retry (t_code s)) ->
  Acc (fun x' x => turning x x') x /\
  forall x', star turning x x' -> (forall x'', ~ turning x' x'') ->
    (forall t, moves_job x' t = None) /\
    (forall t s, k_threads x' !! t = Some s -> t_worker s = true ->
       (exists a, t_code s = Return a) \/ (t_status s = Asleep /\ runnable (i_mgr (k_impl x')) = [])).
Proof.
  intros Hx Hn. destruct (reachable_calm _ _ _ _ Hx) as [Hi Hc]. split.
  - apply turning_ends; [|done|done]. apply one_moves_acc. intros t c. unfold commands. rewrite lookup_omap.
    destruct (k_threads x !! t) as [s|] eqn:Ht; [|done]. simpl. unfold as_command. destruct (t_worker s) eqn:Hw; [done|].
    intros [= <-]. by apply no_retry_ends, (Hn t).
  - intros x' Hs Hno.
    assert (star machine_step (new_machine cfg d f) x') as Hx' by (eapply star_trans; [exact Hx|by apply turning_steps]).
    destruct (reachable_calm _ _ _ _ Hx') as [Hi' Hc'].
    destruct (goes_on_or_rests x' Hi') as [(t & x'' & Ht)|Hr]; [by destruct (Hno x''); exists t|]. split.
    + intros t. unfold moves_job. destruct (k_threads x' !! t) as [s|] eqn:Ht; [|done]. simpl.
      destruct (Hr t s Ht) as [[a ->]|[(Hsl & _)|(t' & k & s' & -> & _)]]; try done.
      pose proof (v_thread _ Hi' t s Ht) as Hok. unfold thread_ok in Hok. rewrite Hsl in Hok.
      destruct Hok as (W & _ & _ & _ & _ & _ & _ & _ & Hok). destruct (t_code s); try done. by destruct Hok as (_ & ? & _).
    + intros t s Ht Hw. destruct (Hr t s Ht) as [?|[(Hsl & Hq & _)|(t' & k & s' & Hj & _)]]; [by left|by right|].
      specialize (Hc' t s Ht Hw). by rewrite Hj in Hc'.
Qed.
End Settling.

(** ** Witnesses *)

(** Every call has returned. *)
Definition all_returned {fs} `{!Kernel fs} (x : machine fs) : bool :=
  forallb (fun p => t_worker p.2 || match t_code p.2 with Return _ => true | _ => false end)
    (map_to_list (k_threads x)).

Lemma all_returned_no_retry {fs} `{!Kernel fs} (x : machine fs) : all_returned x = true ->
  forall t s, k_threads x !! t = Some s -> t_worker s = false -> no_retry (t_code s).
Proof.
  intros Hall t s Ht Hw. apply elem_of_map_to_list, list_elem_of_In in Ht.
  apply (proj1 (List.forallb_forall _ _) Hall) in Ht. simpl in Ht. rewrite Hw in Ht. by destruct (t_code s).
Qed.

(** [job-1] has been accepted; its worker has been notified and has not yet taken it. *)
Lemma manager_settles_witness :
  runnable (i_mgr (k_impl (ran demo_start))) = [job_1] /\
  Acc (fun x' x => turning x x') (ran demo_start).
Proof.
  split; [vm_compute; reflexivity|].
  apply (manager_settles demo_cfg (db empty_store) (demo_disk [((1, str "a"), 10)] [])).
  - apply ran_reached. vm_compute. done.
  - apply all_returned_no_retry. vm_compute. reflexivity.
Defined.
