(* ===== verification/Safekeeping.v ===== *)
(** No file is lost by the running daemon: the move engine (src/cpp/src/mover.cpp) as the
    workers of the manager (src/cpp/src/manager.cpp) run it, any number at a time, with the
    process killed and started again at any moment.

    [belongs] are the names of one move: its source, its destination and the staging names of
    the jobs submitted for it.  [kept]: the object of the move is under one of them, and
    nothing else is.  Each call of each worker keeps that ([calls_keep], with the logic of
    Interference.v), the workers close only their own descriptors, so it holds in every
    interleaving ([safe_step]) and after every crash ([object_kept_by_the_daemon]).

    The moves must not get in each other's way ([separate]): two submissions have the same
    source and destination, or no name in common, and no name is a staging name.
    [crossing_moves_lose_a_file] shows what happens otherwise under link-then-unlink. *)

From S2P Require Import Prelude Job Store Kernel Crash FsOps Mover Interference Events Config Manager Dispatch Threads Scheduling Refinement Runs.

(** * The names of a move *)

Section Names.
Context {fs : Type} `{KernelLaws fs}.

Definition from_of (r : MoveRequest) : option entry :=
  src r <$> (resolve (fs := fs) (c_str (source_dir r))).
Definition to_of (r : MoveRequest) : option entry :=
  dst r <$> (resolve (fs := fs) (c_str (dest_dir r))).
Definition stage_of (id : bytes) (r : MoveRequest) : option entry :=
  stg id <$> (resolve (fs := fs) (c_str (dest_dir r))).

Definition same_move (r r' : MoveRequest) : Prop := from_of r = from_of r' /\ to_of r = to_of r'.

#[export] Instance same_move_dec r r' : Decision (same_move r r').
Proof. unfold same_move. apply _. Defined.

Definition is_staging (name : bytes) : bool := starts_with (str ".swit-partial-") name.
Definition plain_request (r : MoveRequest) : Prop :=
  is_staging (source_name r) = false /\ is_staging (dest_name r) = false.

(** [submitted] maps the id of every job ever submitted to its request. *)
Definition separate (submitted : gmap bytes MoveRequest) (r0 : MoveRequest) : Prop :=
  plain_request r0 /\
  forall id r, submitted !! id = Some r -> plain_request r /\
    (same_move r r0 \/
     forall e, from_of r = Some e \/ to_of r = Some e -> from_of r0 <> Some e /\ to_of r0 <> Some e).

(** The names under which the object of [r0] may be. *)
Definition belongs (submitted : gmap bytes MoveRequest) (r0 : MoveRequest) (e : entry) : Prop :=
  from_of r0 = Some e \/ to_of r0 = Some e \/
  exists id r, submitted !! id = Some r /\ same_move r r0 /\ stage_of id r = Some e.

Definition kept submitted r0 (o : Z) (s : fs) : Prop :=
  (forall e, belongs submitted r0 e -> entries s !! e = None \/ entries s !! e = Some o) /\
  exists e, belongs submitted r0 e /\ entries s !! e = Some o.

Lemma staging_is_staging id : is_staging (staging_name id) = true.
Proof. apply starts_with_app. Qed.
Lemma staging_inj id id' : staging_name id = staging_name id' -> id = id'.
Proof. apply app_inv_head. Qed.
End Names.

(** * What each call keeps *)

Section Calls.
Context {fs : Type} `{KernelLaws fs} (submitted : gmap bytes MoveRequest) (r0 : MoveRequest) (o : Z).
Hypothesis Hsep : separate (fs := fs) submitted r0.
Local Abbreviation kept := (kept (fs := fs) submitted r0 o).
Local Abbreviation belongs := (belongs (fs := fs) submitted r0).

Lemma kept_agree s s' :
  (forall e, belongs e -> entries s' !! e = entries s !! e) -> kept s -> kept s'.
Proof.
  intros He [H1 (e & Hb & Ho)]. split; [intros e' Hb'; rewrite He by done; auto|].
  exists e. by rewrite He.
Qed.

Lemma kept_same s s' : entries s' = entries s -> kept s -> kept s'.
Proof. intros He. apply kept_agree. by rewrite He. Qed.

(** A name of another move is none of this one. *)
Lemma belongs_not_staging e id : belongs e -> snd e = staging_name id ->
  exists r, submitted !! id = Some r /\ same_move (fs := fs) r r0 /\ stage_of (fs := fs) id r = Some e.
Proof.
  destruct Hsep as [[N1 N2] _]. pose proof (staging_is_staging id) as Hs.
  intros [Hb|[Hb|(id' & r & Hr & Hm & Hb)]] He.
  - unfold from_of in Hb. apply fmap_Some in Hb as (d & _ & ->). simpl in He. congruence.
  - unfold to_of in Hb. apply fmap_Some in Hb as (d & _ & ->). simpl in He. congruence.
  - pose proof Hb as Hb'. unfold stage_of in Hb. apply fmap_Some in Hb as (d & _ & ->).
    apply staging_inj in He as ->. eauto.
Qed.

Lemma belongs_plain e : belongs e -> is_staging (snd e) = false -> from_of (fs := fs) r0 = Some e \/ to_of (fs := fs) r0 = Some e.
Proof.
  intros [Hb|[Hb|(id & r & _ & _ & Hb)]] Hn; [by left|by right|].
  unfold stage_of in Hb. apply fmap_Some in Hb as (d & _ & ->). simpl in Hn. by rewrite staging_is_staging in Hn.
Qed.

Section Job.
Variables (id : bytes) (r : MoveRequest) (d1 d2 : Z).
Hypotheses (Hr : submitted !! id = Some r).
Hypotheses (Hd1 : resolve (fs := fs) (c_str (source_dir r)) = Some d1)
           (Hd2 : resolve (fs := fs) (c_str (dest_dir r)) = Some d2).

Lemma names_resolved :
  from_of (fs := fs) r = Some (src r d1) /\ to_of (fs := fs) r = Some (dst r d2) /\
  stage_of (fs := fs) id r = Some (stg id d2).
Proof. unfold from_of, to_of, stage_of. by rewrite Hd1, Hd2. Qed.

Lemma names_belong : same_move (fs := fs) r r0 ->
  belongs (src r d1) /\ belongs (stg id d2) /\ belongs (dst r d2).
Proof.
  destruct names_resolved as (Hf & Ht & Hs). intros Hm. pose proof Hm as [H1 H2]. unfold Safekeeping.belongs.
  split_and!; [left; congruence|by right; right; exists id, r|right; left; congruence].
Qed.

Lemma names_foreign : ~ same_move (fs := fs) r r0 ->
  ~ belongs (src r d1) /\ ~ belongs (stg id d2) /\ ~ belongs (dst r d2).
Proof.
  destruct names_resolved as (Hf & Ht & Hs). intros Hm.
  destruct (proj2 Hsep id r Hr) as [[N1 N2] [?|Ha]]; [done|]. split_and!; intros Hb.
  - apply belongs_plain in Hb; [|done]. destruct (Ha (src r d1)); [by left|]. tauto.
  - apply (belongs_not_staging _ id) in Hb as (r' & Hr' & Hm' & _); [|done]. congruence.
  - apply belongs_plain in Hb; [|done]. destruct (Ha (dst r d2)); [by right|]. tauto.
Qed.

(** Renaming without replacing, and publishing. *)
Lemma calls_keep : allows false (fun s s' : fs => kept s -> kept s') (src r d1) (stg id d2) (dst r d2).
Proof.
  split; try done.
  - intros s s' o' Ho Hn He Hk. destruct (decide (same_move (fs := fs) r r0)) as [Hm|Hm].
    + destruct (names_belong Hm) as (B1 & B2 & _). destruct Hk as [K1 _].
      assert (o' = o) as -> by (destruct (K1 _ B1); congruence). split.
      * intros e Hb. rewrite He. destruct (decide (e = stg id d2)) as [->|]; [right; apply lookup_insert_eq|].
        rewrite lookup_insert_ne by done. destruct (decide (e = src r d1)) as [->|]; [left; apply lookup_delete_eq|].
        rewrite lookup_delete_ne by done. auto.
      * exists (stg id d2). split; [done|]. by rewrite He, lookup_insert_eq.
    + destruct (names_foreign Hm) as (B1 & B2 & _). revert Hk. apply kept_agree. intros e Hb.
      rewrite He, lookup_insert_ne, lookup_delete_ne by congruence. done.
  - intros s s' o' Ho He Hk. unfold rename_onto in He. case_decide; [by apply (kept_same s)|].
    destruct (decide (same_move (fs := fs) r r0)) as [Hm|Hm].
    + destruct (names_belong Hm) as (_ & B2 & B3). destruct Hk as [K1 _].
      assert (o' = o) as -> by (destruct (K1 _ B2); congruence). split.
      * intros e Hb. rewrite He. destruct (decide (e = dst r d2)) as [->|]; [right; apply lookup_insert_eq|].
        rewrite lookup_insert_ne by done. destruct (decide (e = stg id d2)) as [->|]; [left; apply lookup_delete_eq|].
        rewrite lookup_delete_ne by done. auto.
      * exists (dst r d2). split; [done|]. by rewrite He, lookup_insert_eq.
    + destruct (names_foreign Hm) as (_ & B2 & B3). revert Hk. apply kept_agree. intros e Hb.
      rewrite He, lookup_insert_ne, lookup_delete_ne by congruence. done.
Qed.
End Job.

Lemma balanced_fail_permanently G F id reason : balanced G F (fail_permanently id reason : prog fs engine _).
Proof.
  unfold fail_permanently. apply balanced_bind; [done|]. intros _. apply balanced_bind; [done|]. intros l.
  repeat case_match; done.
Qed.
Lemma balanced_handle_failure G F cfg id failure now_ms :
  balanced G F (handle_failure cfg id failure now_ms : prog fs engine _).
Proof.
  unfold handle_failure. apply balanced_bind; [done|]. intros w. repeat case_match; try done.
  apply balanced_bind; [apply balanced_fail_permanently|done].
Qed.

(** What a worker does with a submitted job. *)
Lemma shared_worker_body F cfg id r now_ms : submitted !! id = Some r ->
  balanced (fun s s' => kept s -> kept s') F
    (worker_body cfg RenameNoReplace id r now_ms : prog fs engine _).
Proof.
  intros Hr. unfold worker_body. apply balanced_bind.
  - apply (balanced_execute id r false); [apply kept_same| |done]. intros d1 d2. by apply calls_keep.
  - intros [outcome error]. apply balanced_bind; [|done]. case_match; try done.
    + apply balanced_bind; [apply balanced_fail_permanently|done].
    + apply balanced_handle_failure.
Qed.
End Calls.

(** * Workers side by side *)

Section Workers.
Context {fs : Type} `{KernelLaws fs} (G : fs -> fs -> Prop).
Implicit Types (Fs : nat -> gmap Z Z) (z : option (thread fs)).

(** Each thread has descriptors of its own, and the calls it has still to make are in [G]. *)
Record tended Fs (zs : nat -> option (thread fs)) (s : fs) : Prop := {
  td_open t : Fs t ⊆ fds s;
  td_apart t t' : t <> t' -> Fs t ##ₘ Fs t';
  td_body t p : body_of (zs t) = Some p -> shared G (Fs t) p (fun _ _ => True)
}.

(** What one call of one worker does to the descriptors of all. *)
Lemma tended_call Fs zs zs' t p p' s s' e e' :
  (forall s, G s s) -> tended Fs zs s -> body_of (zs t) = Some p -> returned p = None -> next p s e = (p', s', e') ->
  (forall t', t' <> t -> zs' t' = zs t') -> body_of (zs' t) = Some p' ->
  G s s' /\ exists Fs', tended Fs' zs' s'.
Proof.
  intros HG [To Ta Tb] Hp Hr Hn Hz Hp'.
  assert (G s s' /\ owns (Fs t) s s' /\ shared G (own (Fs t) s s') p' (fun _ _ => True)) as (HGs & Ho & Hs).
  { pose proof (Tb t p Hp) as Hs. destruct p as [a|R f k|R f k|f k]; simpl in *; [done|..].
    - destruct (f s) as [r s1] eqn:E. simplify_eq. destruct (Hs s r s' (To t) E) as [[??] ?]. done.
    - destruct (f e) as [r e1]. simplify_eq. rewrite own_same; [|done..]. split_and!; [done|by apply owns_same|done].
    - simplify_eq. rewrite own_same; [|done..]. split_and!; [done|by apply owns_same|done]. }
  assert (forall t', t <> t' -> forall fd o, Fs t' !! fd = Some o -> fds s !! fd = Some o /\ fds s' !! fd = Some o) as Hoth.
  { intros t' Hne fd o Hfd. assert (fds s !! fd = Some o) as Hs0 by (by eapply lookup_weaken). split; [done|].
    destruct (decide (fds s' !! fd = Some o)) as [|Hc]; [done|]. pose proof (Ho fd o Hs0 Hc) as Hmine.
    by destruct (proj1 (map_disjoint_spec _ _) (Ta t t' Hne) fd o o). }
  split; [done|]. exists (fun t' => if decide (t' = t) then own (Fs t) s s' else Fs t').
  assert (forall t', t <> t' -> own (Fs t) s s' ##ₘ Fs t') as Happart.
  { intros t' Hne. apply map_disjoint_spec. intros fd o o' H1 H2. destruct (Hoth t' Hne fd o' H2) as [Hs0 Hs1].
    rewrite lookup_own in H1 by done. rewrite decide_True in H1 by congruence.
    by destruct (proj1 (map_disjoint_spec _ _) (Ta t t' Hne) fd o o'). }
  split.
  - intros t'. case_decide; [by apply own_sub|]. apply map_subseteq_spec. intros fd o Hfd. by apply (Hoth t').
  - intros t1 t2 Hne. repeat case_decide; subst; [done|by apply Happart|by apply map_disjoint_sym, Happart|by apply Ta].
  - intros t' q. case_decide; [subst; rewrite Hp'; by intros [= <-]|]. rewrite Hz by done. apply Tb.
Qed.

(** A turn of a thread that makes no call. *)
Lemma tended_turn Fs zs zs' t s :
  tended Fs zs s -> (forall t', t' <> t -> zs' t' = zs t') ->
  (forall p, body_of (zs' t) = Some p -> body_of (zs t) = Some p \/ shared G ∅ p (fun _ _ => True)) ->
  exists Fs', tended Fs' zs' s.
Proof.
  intros [To Ta Tb] Hz Hp. destruct (body_of (zs' t)) as [p|] eqn:E.
  - destruct (Hp p eq_refl) as [Hq|Hq].
    + exists Fs. split; [done..|]. intros t' q. destruct (decide (t' = t)) as [->|]; [|rewrite Hz by done; apply Tb].
      rewrite E. intros [= <-]. by apply Tb.
    + exists (fun t' => if decide (t' = t) then ∅ else Fs t'). split.
      * intros t'. case_decide; [apply map_empty_subseteq|done].
      * intros t1 t2 Hne. repeat case_decide; [congruence|apply map_disjoint_empty_l|apply map_disjoint_empty_r|by apply Ta].
      * intros t' q. case_decide; [subst; rewrite E; by intros [= <-]|]. rewrite Hz by done. apply Tb.
  - exists Fs. split; [done..|]. intros t' q. destruct (decide (t' = t)) as [->|]; [by rewrite E|].
    rewrite Hz by done. apply Tb.
Qed.
End Workers.

(** * The daemon *)

Section Daemon.
Context {fs : Type} `{KernelLaws fs} (submitted : gmap bytes MoveRequest) (r0 : MoveRequest) (o : Z).
Hypothesis Hsep : separate (fs := fs) submitted r0.
Local Abbreviation kept := (kept (fs := fs) submitted r0 o).
Local Abbreviation G := (fun s s' : fs => kept s -> kept s').

(** The manager moves only what was submitted, by renaming without replacing. *)
Definition orderly (m : manager) : Prop := m_strategy m = RenameNoReplace /\ requests m ⊆ submitted.

Definition safe (y : sys fs) : Prop :=
  kept (disk y) /\ exists Fs, tended G Fs (fun t => threads y !! t) (disk y).

Lemma put_other t (z : option (thread fs)) ts t' : t' <> t -> put t z ts !! t' = ts !! t'.
Proof. intros Hne. by rewrite lookup_put, decide_False by done. Qed.
Lemma put_same t (z : option (thread fs)) ts : put t z ts !! t = z.
Proof. by rewrite lookup_put, decide_True. Qed.

Lemma worker_take_request m id req m1 :
  (forall x, held m x -> is_Some (requests m !! x)) -> worker_take m = Some (id, req, m1) ->
  requests m !! id = Some req.
Proof.
  unfold worker_take. destruct (runnable m) as [|x rest] eqn:E; [done|]. intros Hh [= <- <- _].
  destruct (Hh x) as [r Hr]; [left; rewrite E; set_solver|]. by rewrite Hr.
Qed.

Lemma safe_step b y y' : durable_inv y -> orderly (mgr y) -> safe y -> step b y y' -> safe y'.
Proof.
  intros Hi [Ho1 Ho2] [Hk [Fs Ht]] Hs. unfold safe.
  destruct Hs as [b t z m1 y Hm|t z s s' y _ _ Hm|t id p p' f e e' y Hz Hr Ee Hn|t z e y He]; simpl.
  1,2,4: split; [done|]; eapply (tended_turn _ _ _ _ t); [exact Ht|by intros; apply put_other|];
    simpl; rewrite put_same.
  - pose proof (d_held _ Hi) as Hh. intros p.
    destruct Hm as [| | | | | | | | | | | |id req now m m1 Hw|]; simpl; repeat case_match; try done.
    intros [= <-]. right. rewrite Ho1. eapply shared_mono; [|done].
    eapply shared_worker_body; [done|]. eapply lookup_weaken; [|exact Ho2]. by eapply worker_take_request.
  - intros p. destruct Hm; simpl; unfold cancel_loaded, refused; repeat case_match; try done.
  - intros p. destruct He; simpl; auto; done.
  - destruct (tended_call G Fs (fun t' => threads y !! t') (fun t' => put t (Some (TRunning id p')) (threads y) !! t') t p p' (disk y) f e e')
      as [HGs Ht']; try done.
    + by rewrite Hz.
    + by intros; apply put_other.
    + by rewrite put_same.
    + split; [by apply HGs|done].
Qed.

(** ** Lives of the process

    The manager runs; or the process is killed, and a new one starts on the names and the
    database that it left, with no descriptor open. *)
Inductive life : machine fs -> machine fs -> Prop :=
| l_runs x x' : machine_step x x' -> life x x'
| l_restart cfg x f : entries f = entries (k_disk x) -> fds f = ∅ ->
    life x (new_machine cfg (k_data x) f).

Definition orderly_life (x x' : machine fs) : Prop := life x x' /\ orderly (i_mgr (k_impl x)).

(** A machine whose system is safe. *)
Definition guarded (x : machine fs) : Prop :=
  minv x /\ exists y, related x y /\ durable_inv y /\ safe y.

Lemma guarded_new cfg d (f : fs) : db_wf d -> kept f -> guarded (new_machine cfg d f).
Proof.
  intros Hd Hk. split; [apply minv_new|]. exists (created cfg d f).
  split_and!; [apply related_new|by apply created_durable|]. split; [done|]. exists (fun _ => ∅). split.
  - intros t. apply map_empty_subseteq.
  - intros t t' _. apply map_disjoint_empty_l.
  - intros t p. simpl. by rewrite lookup_empty.
Qed.

Lemma guarded_life x x' : orderly_life x x' -> guarded x -> guarded x'.
Proof.
  intros [Hl Ho] (Hi & y & R & Hy & Hs). destruct Hl as [x x' Hx|cfg x f He _].
  - split; [by eapply minv_step|]. destruct (related_step true _ _ _ R Hi Hx) as (y' & [->|[b Hb]] & R').
    + by exists y.
    + exists y'. split_and!; [done|by eapply durable_any; [|eexists]|]. eapply safe_step; try done.
      by rewrite (l_mgr _ _ R).
  - destruct Hs as [Hk _]. rewrite (l_disk _ _ R) in Hk. apply guarded_new.
    + rewrite <- (l_data _ _ R). by apply d_wf.
    + by eapply kept_same.
Qed.

End Daemon.

(** * A schedule, checked step by step *)

#[export] Instance MoveRequest_eq_dec : EqDecision MoveRequest.
Proof. solve_decision. Defined.

Section Checked.
Context {fs : Type} `{KernelLaws fs} (submitted : gmap bytes MoveRequest).

Definition orderlyb (m : manager) : bool :=
  bool_decide (m_strategy m = RenameNoReplace) &&
  forallb (fun p => bool_decide (submitted !! p.1 = Some p.2)) (map_to_list (requests m)).

Lemma orderlyb_spec m : orderlyb m = true -> orderly submitted m.
Proof.
  unfold orderlyb. intros [Hs Hr]%andb_true_iff. split; [by bool_prop|]. apply map_subseteq_spec. intros id r Hid.
  apply elem_of_map_to_list, list_elem_of_In in Hid. apply (proj1 (List.forallb_forall _ _) Hr) in Hid. by bool_prop.
Qed.

Fixpoint orderly_choices (cs : list (choice fs)) (x : machine fs) : bool :=
  match cs with
  | [] => true
  | c :: cs' =>
      orderlyb (i_mgr (k_impl x)) &&
      match choose c x with Some x' => orderly_choices cs' x' | None => false end
  end.

Lemma schedule_orderly cs x x' :
  schedule cs x = Some x' -> orderly_choices cs x = true -> star (orderly_life submitted) x x'.
Proof.
  revert x. induction cs as [|c cs IH]; intros x; simpl; [intros [= <-]; constructor|].
  destruct (choose c x) as [x1|] eqn:E; [|done]. simpl. intros Hx [Hc Hcs]%andb_true_iff.
  eapply star_step; [|by apply IH]. split; [|by apply orderlyb_spec]. apply l_runs. by eapply choose_sound.
Qed.
End Checked.

(** ** Witnesses *)

(** The process is killed while [job-1] is in the staging area, and started again. *)
Definition demo_killed : machine demo_fs := ran (demo_start ++ turns 4 25).
Definition demo_reborn : machine demo_fs :=
  new_machine demo_cfg (k_data demo_killed) (mkMem (entries (k_disk demo_killed)) ∅ []).
Definition demo_submitted : gmap bytes MoveRequest := {[job_1 := demo_request]}.

Lemma ran_orderly cs :
  (if schedule cs demo_machine then true else false) = true -> orderly_choices demo_submitted cs demo_machine = true ->
  star (orderly_life demo_submitted) demo_machine (ran cs).
Proof.
  unfold ran. destruct (schedule cs demo_machine) as [x|] eqn:Hx; [|done]. intros _. by apply schedule_orderly.
Qed.

Lemma demo_separate : separate (fs := demo_fs) demo_submitted demo_request.
Proof.
  unfold demo_submitted. split; [done|]. intros id r [<- <-]%lookup_singleton_Some. split; [done|]. left. done.
Qed.

Lemma demo_kept : kept (fs := demo_fs) demo_submitted demo_request 10 (demo_disk [((1, str "a"), 10)] []).
Proof.
  assert (forall e, entries (demo_disk [((1, str "a"), 10)] []) !! e = None \/
    entries (demo_disk [((1, str "a"), 10)] []) !! e = Some 10) as He.
  { intros e. assert (entries (demo_disk [((1, str "a"), 10)] []) = {[ (1, str "a") := 10 ]}) as -> by reflexivity.
    destruct (decide ((1, str "a") = e)) as [<-|Hne]; [right; apply lookup_singleton_eq|left; by apply lookup_singleton_ne]. }
  split; [auto|]. exists (1, str "a"). split; [by left|]. vm_compute. done.
Qed.


(** * Moves that are not separate *)

(** Worker 4 moves [/in/a] to [/out/b] by link-then-unlink; between the two calls worker 2
    moves [/in/c] to [/in/a], from beginning to end. *)
Definition cross_machine : machine demo_fs :=
  new_machine demo_cfg (db empty_store) (demo_disk [((1, str "a"), 10); ((1, str "c"), 11)] []).
Definition job_2 : bytes := str "job-2".
Definition cross_request : MoveRequest := mkRequest (str "/in") (str "c") (str "/in") (str "a").
Definition cross_run : list (choice demo_fs) :=
  demo_start ++ Call 8 (p_set_strategy LinkThenUnlink) :: turns 8 3
  ++ Call 7 (p_submit_id job_2 cross_request) :: turns 7 11
  ++ turns 4 18 ++ turns 2 40 ++ turns 4 20.

Lemma schedule_reaches {fs} `{!Kernel fs} cs x (P : machine fs -> Prop) :
  match schedule cs x with Some x' => P x' | None => False end -> exists x', star machine_step x x' /\ P x'.
Proof.
  destruct (schedule cs x) as [x'|] eqn:E; [|done]. exists x'. split; [by eapply schedule_sound|done].
Qed.

(** Under link-then-unlink, moves that cross lose a file: both jobs are DONE, and the file of
    the second is under no name at all.  The unlink of the first move goes by name, and the
    name had been given to the other file since the link. *)
Theorem crossing_moves_lose_a_file :
  exists x, star machine_step cross_machine x /\
    state <$> (view (k_data x) !! c_str job_1) = Some Done /\
    state <$> (view (k_data x) !! c_str job_2) = Some Done /\
    map_to_list (entries (k_disk x)) = [((2, str "b"), 10)].
Proof.
  apply (schedule_reaches cross_run _ (fun x => state <$> (view (k_data x) !! c_str job_1) = Some Done /\
    state <$> (view (k_data x) !! c_str job_2) = Some Done /\
    map_to_list (entries (k_disk x)) = [((2, str "b"), 10)])).
  vm_compute. auto.
Qed.
