(* ===== verification/HttpParser.v ===== *)
(** The HTTP/1.1 message layer: src/cpp/src/http_parser.cpp and
    src/cpp/include/filemover/http_parser.hpp.  A request head is given by its grammar
    ([head_bytes]), and the parser is shown to accept exactly that grammar. *)

From S2P Require Import Prelude.

(** * Data *)

Record Request := mkHttpRequest {
  method : bytes;
  target : bytes;
  version : bytes;
  headers : gmap bytes bytes;
  body : bytes
}.

Record Response := mkResponse {
  status : Z;
  content_type : bytes;
  resp_body : bytes;
  allow : bytes
}.
Definition default_response : Response := mkResponse 500 (str "application/json") [] [].

(** The outcome, with what the code stores in its output parameters. *)
Inductive HeadParse :=
| HeadOk (out : Request) (head_len : nat)
| NeedMore
| Bad (error : bytes)
| TooLarge (error : bytes).

(** * Character classes *)

Definition is_upper_alpha (c : ascii) : bool := (code "A" <=? code c) && (code c <=? code "Z").
Definition is_lower_alpha (c : ascii) : bool := (code "a" <=? code c) && (code c <=? code "z").
Definition is_ctl (c : ascii) : bool := (code c <? 0x20) || (code c =? 0x7f).
Definition to_lower_ascii (c : ascii) : ascii :=
  if is_upper_alpha c then chr (code c - code "A" + code "a") else c.
Definition is_ows (c : ascii) : bool := Ascii.eqb c " " || Ascii.eqb c ht.

Definition valid_method (token : bytes) : bool :=
  negb ((token == []) || (16 <? slen token)) && forallb is_upper_alpha token.
Definition valid_target (target : bytes) : bool :=
  match target with
  | [] => false
  | c :: _ => Ascii.eqb c "/" && forallb (fun c => negb (is_ows c || is_ctl c)) target
  end.
Definition is_name_char (c : ascii) : bool :=
  is_lower_alpha c || is_upper_alpha c || is_digit c || Ascii.eqb c "-" || Ascii.eqb c "_".
Definition valid_header_name (name : bytes) : bool :=
  negb (name == []) && forallb is_name_char name.
Definition lower_ascii (s : bytes) : bytes := map to_lower_ascii s.
Definition trim_ows (s : bytes) : bytes := strip is_ows s.

(** * Parsing the head *)

(** A line without its final CR; [None] when there is none. *)
Definition chop_cr (line : bytes) : option bytes :=
  match reverse line with
  | c :: r => if Ascii.eqb c cr then Some (reverse r) else None
  | [] => None
  end.

(** [METHOD SP target SP version], exactly two spaces. *)
Definition parse_request_line (line : bytes) : result Request bytes :=
  match find_char " " line with
  | None => Error (str "malformed request line")
  | Some sp1 =>
      let rest := drop (S sp1) line in
      match find_char " " rest with
      | None => Error (str "malformed request line")
      | Some sp2 =>
          let version := drop (S sp2) rest in
          if contains " " version then Error (str "malformed request line")
          else
            let method := take sp1 line in
            let target := take sp2 rest in
            if negb (valid_method method) then Error (str "invalid method token")
            else if negb (valid_target target) then Error (str "invalid request target")
            else if negb (version == str "HTTP/1.1") && negb (version == str "HTTP/1.0")
            then Error (str "unsupported HTTP version")
            else Ok (mkHttpRequest method target version ∅ [])
      end
  end.

(** One header line, its CR removed: the name as written and the trimmed value. *)
Definition parse_header (line : bytes) : result (bytes * bytes) bytes :=
  if match line with c :: _ => is_ows c | [] => false end
  then Error (str "obs-fold header continuation rejected")
  else match find_char ":" line with
       | None => Error (str "header without ':'")
       | Some colon =>
           let name := take colon line in
           let value := trim_ows (drop (S colon) line) in
           if negb (valid_header_name name) then Error (str "invalid header name")
           else if existsb is_ctl value then Error (str "control character in header value")
           else Ok (name, value)
       end.

(** The header loop, from [count] headers on. *)
Fixpoint parse_headers (lines : list bytes) (count : Z) (hs : gmap bytes bytes)
    : result (gmap bytes bytes) bytes :=
  match lines with
  | [] => Ok hs
  | raw :: lines' =>
      match chop_cr raw with
      | None => Error (str "malformed header framing")
      | Some [] => Ok hs
      | Some line =>
          match parse_header line with
          | Error e => Error e
          | Ok (name, value) =>
              if 64 <? count + 1 then Error (str "too many headers")
              else
                let key := lower_ascii name in
                match hs !! key with
                | Some _ => Error (qstr "duplicate header '" ++ key ++ qstr "'")
                | None => parse_headers lines' (count + 1) (<[key := value]> hs)
                end
          end
      end
  end.

Definition crlf2 : bytes := [cr; lf; cr; lf].
Definition limit_message : bytes := str "request head exceeds limit".

Definition parse_request_head (data : bytes) (max_head : Z) : HeadParse :=
  match find_sub crlf2 data with
  | None => if max_head <? slen data then TooLarge limit_message else NeedMore
  | Some end_ =>
      if max_head <? Z.of_nat end_ + 4 then TooLarge limit_message
      else
        match getlines (take (end_ + 2) data) with
        | [] => Bad (str "malformed request line")
        | first :: lines =>
            match chop_cr first with
            | None => Bad (str "malformed request line")
            | Some line =>
                match parse_request_line line with
                | Error e => Bad e
                | Ok parsed =>
                    match parse_headers lines 0 ∅ with
                    | Error e => Bad e
                    | Ok hs => HeadOk (mkHttpRequest (method parsed) (target parsed)
                                         (version parsed) hs []) (end_ + 4)
                    end
                end
            end
        end
  end.

(** * The declared body length *)

(** The refusals carry the HTTP status to answer with. *)
Fixpoint length_loop (value : bytes) (parsed : Z) : result Z (Z * bytes) :=
  match value with
  | [] => Ok parsed
  | c :: value' =>
      if negb (is_digit c) then Error (400, str "invalid Content-Length")
      else
        let digit := code c - code "0" in
        if (UINT64_MAX - digit) / 10 <? parsed then Error (413, str "request body exceeds limit")
        else length_loop value' (parsed * 10 + digit)
  end.

Definition content_length_for (request : Request) (max_body : Z) : result Z (Z * bytes) :=
  if bool_decide (is_Some (headers request !! str "transfer-encoding")) then
    Error (400, str "Transfer-Encoding is not supported")
  else match headers request !! str "content-length" with
       | None => Ok 0
       | Some [] => Error (400, str "invalid Content-Length")
       | Some value =>
           match length_loop value 0 with
           | Error e => Error e
           | Ok parsed =>
               if max_body <? parsed then Error (413, str "request body exceeds limit")
               else Ok parsed
           end
       end.

(** * Responses *)

Definition reason (status : Z) : bytes :=
  match status with
  | 200 => str "OK" | 201 => str "Created" | 400 => str "Bad Request" | 404 => str "Not Found"
  | 405 => str "Method Not Allowed" | 409 => str "Conflict" | 413 => str "Payload Too Large"
  | 431 => str "Request Header Fields Too Large"
  | _ => str "Internal Server Error"
  end.

Definition response_head (r : Response) : bytes :=
  str "HTTP/1.1 " ++ dec_signed (status r) ++ str " " ++ reason (status r) ++ crlf
  ++ str "Content-Type: " ++ content_type r ++ crlf
  ++ str "Content-Length: " ++ dec (slen (resp_body r)) ++ crlf
  ++ str "Connection: close" ++ crlf
  ++ (if allow r == [] then [] else str "Allow: " ++ allow r ++ crlf)
  ++ crlf.
Definition serialize_response (r : Response) : bytes := response_head r ++ resp_body r.

(** * The grammar of a head *)

(** A header is its name and everything between the colon and the CRLF. *)
Notation raw_header := (bytes * bytes)%type.

Definition request_line (m t v : bytes) : bytes := m ++ str " " ++ t ++ str " " ++ v.
Definition header_line (h : raw_header) : bytes := fst h ++ str ":" ++ snd h.

(** Lines, each followed by CRLF. *)
Definition framed (ls : list bytes) : bytes := flat_map (fun l => l ++ crlf) ls.

Definition head_bytes (m t v : bytes) (hs : list raw_header) : bytes :=
  framed (request_line m t v :: map header_line hs) ++ crlf.

Definition wf_request_line (m t v : bytes) : Prop :=
  valid_method m = true /\ valid_target t = true /\ (v = str "HTTP/1.1" \/ v = str "HTTP/1.0").
Definition wf_header (h : raw_header) : Prop :=
  valid_header_name (fst h) = true /\ Forall (fun c => is_ctl c = false) (trim_ows (snd h)).

Definition key_of (h : raw_header) : bytes := lower_ascii (fst h).
Definition entry_of (h : raw_header) : bytes * bytes := (key_of h, trim_ows (snd h)).

Definition request_of (m t v : bytes) (hs : list raw_header) : Request :=
  mkHttpRequest m t v (list_to_map (map entry_of hs)) [].

(** * Lemmas *)

Lemma forallb_notin (p : ascii -> bool) s c : forallb p s = true -> p c = false -> c ∉ s.
Proof.
  intros Hs Hc Hin. rewrite forallb_forall in Hs. apply list_elem_of_In in Hin.
  specialize (Hs _ Hin). congruence.
Qed.

Lemma existsb_Forall (p : ascii -> bool) s : existsb p s = false <-> Forall (fun c => p c = false) s.
Proof.
  induction s as [|c s IH]; simpl; [by split|].
  rewrite orb_false_iff, IH, Forall_cons. done.
Qed.

Lemma chop_cr_Some raw line : chop_cr raw = Some line <-> raw = line ++ [cr].
Proof.
  unfold chop_cr. split.
  - destruct (reverse raw) as [|c r] eqn:E; [done|].
    destruct (Ascii.eqb_spec c cr) as [->|]; [|done]. intros [= <-].
    rewrite <- (reverse_involutive raw), E. by rewrite reverse_cons.
  - intros ->. rewrite reverse_snoc, Ascii.eqb_refl. by rewrite reverse_involutive.
Qed.

Lemma find_sub_complete pat pre post : find_sub pat (pre ++ pat ++ post) <> None.
Proof.
  induction pre as [|c pre IH]; simpl.
  - destruct (pat ++ post) eqn:E; simpl; rewrite <- E, starts_with_app; done.
  - destruct (starts_with _ _); [done|]. by destruct (find_sub pat (pre ++ pat ++ post)).
Qed.

(** A match does not start inside text without the first byte of the pattern. *)
Lemma find_sub_skip p pat l s :
  p ∉ l -> find_sub (p :: pat) (l ++ s) = (fun i => (length l + i)%nat) <$> find_sub (p :: pat) s.
Proof.
  induction l as [|c l IH]; intros Hn; [simpl; by destruct (find_sub _ s)|].
  simpl. destruct (Ascii.eqb_spec p c) as [->|_]; [set_solver|]. simpl.
  rewrite IH by set_solver. by destruct (find_sub (p :: pat) s).
Qed.

Definition plain_line (l : bytes) : Prop := l <> [] /\ cr ∉ l /\ lf ∉ l.

(** The blank line is the first CRLFCRLF. *)
Lemma find_blank_line l ls rest :
  plain_line l -> Forall plain_line ls ->
  find_sub crlf2 (framed (l :: ls) ++ crlf ++ rest) = Some (length (framed (l :: ls)) - 2)%nat.
Proof.
  intros Hl Hf. revert l Hl. induction Hf as [|l' ls Hl' _ IH]; intros l (Hne & Hcr & Hlf).
  - simpl. rewrite app_nil_r, <- !app_assoc. unfold crlf2. rewrite find_sub_skip by done.
    simpl. rewrite length_app. simpl. f_equal. lia.
  - specialize (IH l' Hl'). change (framed (l :: l' :: ls)) with ((l ++ crlf) ++ framed (l' :: ls)).
    rewrite <- !app_assoc. unfold crlf2 in *. rewrite find_sub_skip by done.
    set (s := framed (l' :: ls) ++ crlf ++ rest) in *.
    assert (exists c s', s = c :: s' /\ c <> cr) as (c & s' & Es & Hc).
    { unfold s. destruct Hl' as (Hn' & Hc' & _). destruct l' as [|c l']; [done|].
      eexists c, _. split; [reflexivity|]. set_solver. }
    assert (find_sub (cr :: [lf; cr; lf]) (crlf ++ s) = S <$> (S <$> find_sub (cr :: [lf; cr; lf]) s)) as ->.
    { rewrite Es. unfold crlf. change (find_sub (cr :: [lf; cr; lf]) ([cr; lf] ++ c :: s'))
        with (if Ascii.eqb cr c && starts_with [lf] s' then Some O
              else S <$> (S <$> find_sub (cr :: [lf; cr; lf]) (c :: s'))).
      destruct (Ascii.eqb_spec cr c); [congruence|]. done. }
    rewrite IH. simpl. rewrite !length_app. simpl. f_equal.
    assert (2 <= length (framed (l' :: ls)))%nat.
    { simpl. rewrite !length_app. simpl. lia. }
    simpl in *. rewrite !length_app in *. simpl in *. lia.
Qed.

Lemma framed_lines ls : framed ls = flat_map (fun l => l ++ [lf]) (map (fun l => l ++ [cr]) ls).
Proof. induction ls as [|l ls IH]; simpl; [done|]. rewrite IH. by rewrite <- !app_assoc. Qed.

Lemma framed_last l ls : exists s, framed (l :: ls) = s ++ crlf.
Proof.
  revert l. induction ls as [|l' ls IH]; intros l.
  - exists l. simpl. by rewrite app_nil_r.
  - destruct (IH l') as [s Hs]. exists ((l ++ crlf) ++ s).
    change (framed (l :: l' :: ls)) with ((l ++ crlf) ++ framed (l' :: ls)).
    rewrite Hs. apply app_assoc.
Qed.

(** ** The request line *)

Lemma valid_method_spec m :
  valid_method m = true <-> m <> [] /\ slen m <= 16 /\ forallb is_upper_alpha m = true.
Proof.
  unfold valid_method. rewrite andb_true_iff, negb_true_iff, orb_false_iff, beq_neq.
  rewrite Z.ltb_ge. tauto.
Qed.

Lemma valid_target_spec t :
  valid_target t = true ->
  (exists t', t = "/"%char :: t') /\ forallb (fun c => negb (is_ows c || is_ctl c)) t = true.
Proof.
  unfold valid_target. destruct t as [|c t]; [done|]. rewrite andb_true_iff.
  intros [->%Ascii.eqb_eq H]. eauto.
Qed.

Lemma parse_request_line_spec line req :
  parse_request_line line = Ok req <->
  exists m t v, line = request_line m t v /\ wf_request_line m t v /\
    req = mkHttpRequest m t v ∅ [].
Proof.
  unfold parse_request_line. split.
  - destruct (find_char " " line) as [sp1|] eqn:E1; [|done].
    apply find_char_Some in E1 as (m & r & -> & <- & Hm).
    rewrite drop_S_app. destruct (find_char " " r) as [sp2|] eqn:E2; [|done].
    apply find_char_Some in E2 as (t & v & -> & <- & Ht).
    rewrite drop_S_app, take_app_length, take_app_length.
    destruct (contains " " v); [done|].
    destruct (valid_method m) eqn:Hvm; simpl; [|done].
    destruct (valid_target t) eqn:Hvt; simpl; [|done].
    destruct (v == str "HTTP/1.1") eqn:Hv1, (v == str "HTTP/1.0") eqn:Hv2; simpl; try done;
      bool_prop; intros [= <-]; exists m, t, v; (split; [done|]); unfold wf_request_line; auto.
  - intros (m & t & v & -> & (Hm & Ht & Hv) & ->). unfold request_line.
    pose proof Hm as (_ & _ & Hmu)%valid_method_spec.
    pose proof Ht as (_ & Htu)%valid_target_spec.
    change (m ++ str " " ++ ?x) with (m ++ " "%char :: x).
    rewrite find_char_app by (eapply forallb_notin; [exact Hmu|reflexivity]).
    rewrite drop_S_app. change (str " " ++ ?x) with (" "%char :: x).
    rewrite find_char_app by (eapply forallb_notin; [exact Htu|reflexivity]).
    rewrite drop_S_app, take_app_length, take_app_length.
    assert (contains " " v = false) as -> by by destruct Hv as [-> | ->].
    rewrite Hm, Ht. simpl. by destruct Hv as [-> | ->].
Qed.

(** ** Header lines *)

Lemma name_char_ows c : is_name_char c = true -> is_ows c = false.
Proof.
  intros H. unfold is_ows. apply orb_false_iff. split; apply Ascii.eqb_neq; intros ->; done.
Qed.

Lemma valid_name_spec n :
  valid_header_name n = true <-> n <> [] /\ forallb is_name_char n = true.
Proof. unfold valid_header_name. by rewrite andb_true_iff, negb_true_iff, beq_neq. Qed.

Lemma parse_header_spec line name value :
  parse_header line = Ok (name, value) <->
  exists h, line = header_line h /\ wf_header h /\ name = fst h /\ value = trim_ows (snd h).
Proof.
  unfold parse_header, wf_header, header_line. split.
  - destruct (match line with c :: _ => is_ows c | [] => false end); [done|].
    destruct (find_char ":" line) as [i|] eqn:E; [|done].
    apply find_char_Some in E as (n & raw & -> & <- & Hn).
    rewrite drop_S_app, take_app_length.
    destruct (valid_header_name n) eqn:Hv; simpl; [|done].
    destruct (existsb is_ctl (trim_ows raw)) eqn:Hx; [done|]. intros [= <- <-].
    exists (n, raw). simpl. by rewrite <- existsb_Forall.
  - intros ([n raw] & -> & [Hv Hx] & -> & ->). simpl in *.
    pose proof Hv as [Hne Hc]%valid_name_spec.
    change (str ":" ++ raw) with (":"%char :: raw).
    rewrite find_char_app by (eapply forallb_notin; [exact Hc|reflexivity]).
    rewrite drop_S_app, take_app_length, Hv. apply existsb_Forall in Hx. rewrite Hx. simpl.
    destruct n as [|c n]; [done|]. simpl in *. apply andb_true_iff in Hc as [Hc _].
    by rewrite (name_char_ows _ Hc).
Qed.

(** What the header loop has read: all lines, or those before a blank one. *)
Lemma parse_headers_inv lines count hs0 hs' :
  parse_headers lines count hs0 = Ok hs' ->
  (exists pre post, lines = map (fun l => l ++ [cr]) pre ++ [cr] :: post) \/
  exists hs, lines = map (fun h => header_line h ++ [cr]) hs /\ Forall wf_header hs /\
    (hs = [] \/ count + Z.of_nat (length hs) <= 64) /\ NoDup (map key_of hs) /\
    (forall k, k ∈ map key_of hs -> hs0 !! k = None) /\
    hs' = list_to_map (map entry_of hs) ∪ hs0.
Proof.
  revert count hs0. induction lines as [|raw lines IH]; intros count hs0; simpl.
  - intros [= <-]. right. exists []. simpl. rewrite (left_id_L ∅ (∪)).
    split_and!; [done|done|by left|constructor|set_solver|done].
  - destruct (chop_cr raw) as [line|] eqn:Ec; [|done]. apply chop_cr_Some in Ec as ->.
    destruct line as [|c line]; [intros _; left; by exists [], lines|].
    destruct (parse_header (c :: line)) as [[n v]|] eqn:Eh; [|done].
    apply parse_header_spec in Eh as (h & Eh & Hw & -> & ->).
    destruct (Z.ltb_spec 64 (count + 1)); [done|].
    destruct (hs0 !! lower_ascii (fst h)) eqn:Ek; [done|].
    intros [(pre & post & ->)|(hs & -> & Hf & Hl & Hn & Hk & ->)]%IH.
    + left. by exists ((c :: line) :: pre), post.
    + right. exists (h :: hs). rewrite Eh. simpl.
      assert (forall k, k ∈ map key_of hs -> key_of h <> k /\ hs0 !! k = None) as Hks.
      { intros k Hin. apply Hk in Hin. by apply lookup_insert_None in Hin as [??]. }
      split_and!; [done|by constructor|right|constructor; [|done]| |].
      * destruct Hl as [-> | Hl]; simpl; lia.
      * intros Hin. by destruct (Hks _ Hin).
      * intros k [-> | Hin]%elem_of_cons; [done|]. by apply Hks.
      * rewrite <- insert_union_l, insert_union_r; [done|].
        apply not_elem_of_list_to_map_1. rewrite <- list_fmap_compose.
        intros Hin. by destruct (Hks (key_of h) Hin).
Qed.

Lemma parse_headers_complete hs count hs0 :
  Forall wf_header hs -> count + Z.of_nat (length hs) <= 64 -> NoDup (map key_of hs) ->
  (forall k, k ∈ map key_of hs -> hs0 !! k = None) ->
  parse_headers (map (fun h => header_line h ++ [cr]) hs) count hs0 =
    Ok (list_to_map (map entry_of hs) ∪ hs0).
Proof.
  revert count hs0. induction hs as [|h hs IH]; intros count hs0 Hf Hl Hn Hk; simpl.
  - by rewrite (left_id_L ∅ (∪)).
  - apply Forall_cons in Hf as [Hw Hf]. apply NoDup_cons in Hn as [Hnin Hn]. simpl in *.
    rewrite (proj2 (chop_cr_Some _ (header_line h)) eq_refl).
    destruct (header_line h) as [|c line] eqn:El.
    { unfold header_line in El. by destruct (fst h). }
    rewrite (proj2 (parse_header_spec (c :: line) (fst h) (trim_ows (snd h)))) by eauto.
    rewrite (proj2 (Z.ltb_ge 64 (count + 1))) by lia.
    fold (key_of h). rewrite (Hk (key_of h)) by set_solver.
    rewrite IH; [|done|lia|done|].
    + f_equal. rewrite <- insert_union_l, insert_union_r; [done|].
      apply not_elem_of_list_to_map_1. by rewrite <- list_fmap_compose.
    + intros k Hin. rewrite lookup_insert_ne by (intros <-; done). apply Hk. set_solver.
Qed.

(** ** Lines of the grammar are plain *)

Lemma request_line_plain m t v : wf_request_line m t v -> plain_line (request_line m t v).
Proof.
  intros (Hm & Ht & Hv). apply valid_method_spec in Hm as (Hne & _ & Hm).
  apply valid_target_spec in Ht as [_ Ht]. unfold plain_line, request_line.
  assert (forall c, is_upper_alpha c = false -> is_ctl c = true -> c <> " "%char ->
    c ∉ v -> c ∉ m ++ str " " ++ t ++ str " " ++ v) as Hc.
  { intros c H1 H2 H3 H4. rewrite !not_elem_of_app.
    split_and!; [by eapply forallb_notin|set_solver|eapply forallb_notin; [exact Ht|]|set_solver|done].
    cbv beta. by rewrite H2, orb_true_r. }
  split_and!; [by destruct m| |]; apply Hc; try done; by destruct Hv as [-> | ->]; vm_compute; set_solver.
Qed.

Lemma header_line_plain h : wf_header h -> plain_line (header_line h).
Proof.
  intros [Hn Hv]. apply valid_name_spec in Hn as [Hne Hn]. unfold plain_line, header_line.
  assert (forall c, is_name_char c = false -> is_ctl c = true -> is_ows c = false ->
    c <> ":"%char -> c ∉ fst h ++ str ":" ++ snd h) as Hc.
  { intros c H1 H2 H3 H4. rewrite !not_elem_of_app.
    split_and!; [by eapply forallb_notin|set_solver|].
    destruct (strip_split is_ows (snd h)) as (l & r & E & Hl & Hr).
    rewrite E, !not_elem_of_app.
    assert (forall s (b : bool) (p : ascii -> bool), Forall (fun c => p c = b) s -> p c <> b -> c ∉ s) as Hp.
    { intros s b p Hs Hb Hin. rewrite Forall_forall in Hs. by apply Hb, Hs. }
    split_and!; [eapply Hp; [exact Hl|]|eapply Hp; [exact Hv|]|eapply Hp; [exact Hr|]]; congruence. }
  split_and!; [by destruct (fst h)|by apply Hc|by apply Hc].
Qed.

Lemma take_framed s rest : take (length s - 2 + 2) ((s ++ crlf) ++ rest) = s ++ take (2 - length s) (crlf ++ rest).
Proof.
  rewrite <- app_assoc. destruct (Nat.le_gt_cases 2 (length s)).
  - rewrite Nat.sub_add by done. rewrite take_app_length.
    replace (2 - length s)%nat with O by lia. by rewrite take_0, app_nil_r.
  - replace (length s - 2 + 2)%nat with (length s + (2 - length s))%nat by lia.
    by rewrite take_app_add.
Qed.

Lemma head_bytes_length m t v hs :
  length (head_bytes m t v hs) =
  (length (framed (request_line m t v :: map header_line hs)) - 2 + 4)%nat /\
  (2 <= length (framed (request_line m t v :: map header_line hs)))%nat.
Proof. unfold head_bytes. simpl. rewrite !length_app. simpl. lia. Qed.

(** The parser on a head of the grammar. *)
Lemma parse_head_complete m t v hs rest mx :
  wf_request_line m t v -> Forall wf_header hs -> (length hs <= 64)%nat -> NoDup (map key_of hs) ->
  Z.of_nat (length (head_bytes m t v hs)) <= mx ->
  parse_request_head (head_bytes m t v hs ++ rest) mx =
    HeadOk (request_of m t v hs) (length (head_bytes m t v hs)).
Proof.
  intros Hr Hf Hl Hn Hmx. destruct (head_bytes_length m t v hs) as [Elen Hge].
  unfold parse_request_head. unfold head_bytes at 1. rewrite <- app_assoc, find_blank_line.
  2: by apply request_line_plain.
  2: { apply Forall_map. eapply Forall_impl; [exact Hf|]. intros h. apply header_line_plain. }
  rewrite Elen in *. rewrite (proj2 (Z.ltb_ge _ _)) by lia.
  unfold head_bytes. rewrite take_framed.
  set (ls := request_line m t v :: map header_line hs) in *.
  replace (2 - length (framed ls))%nat with O by lia. rewrite take_0, app_nil_r.
  rewrite framed_lines, getlines_concat.
  2: { apply Forall_map. unfold ls. constructor.
       - apply request_line_plain in Hr as (_ & _ & Hr). unfold lf in *. set_solver.
       - apply Forall_map. eapply Forall_impl; [exact Hf|]. intros h (_ & _ & Hh)%header_line_plain.
         unfold lf in *. simpl. set_solver. }
  unfold ls. simpl. rewrite (proj2 (chop_cr_Some _ (request_line m t v)) eq_refl).
  rewrite (proj2 (parse_request_line_spec (request_line m t v) (mkHttpRequest m t v ∅ []))) by eauto 6.
  rewrite map_map, parse_headers_complete; [|done|lia|done|by intros; apply lookup_empty].
  simpl. by rewrite (right_id_L ∅ (∪)).
Qed.

(** The parser accepts nothing else. *)
Lemma parse_head_sound data mx out n :
  parse_request_head data mx = HeadOk out n ->
  exists m t v hs rest, data = head_bytes m t v hs ++ rest /\
    n = length (head_bytes m t v hs) /\ Z.of_nat n <= mx /\
    wf_request_line m t v /\ Forall wf_header hs /\ (length hs <= 64)%nat /\
    NoDup (map key_of hs) /\ out = request_of m t v hs.
Proof.
  unfold parse_request_head. destruct (find_sub crlf2 data) as [i|] eqn:Ei; [|by destruct (_ <? _)].
  destruct (Z.ltb_spec mx (Z.of_nat i + 4)); [done|].
  pose proof (find_sub_take _ _ _ (i + 2) Ei ltac:(simpl; lia)) as Hno.
  apply find_sub_Some in Ei as (pre & rest & -> & <-).
  assert (take (length pre + 2) (pre ++ crlf2 ++ rest) = (pre ++ [cr]) ++ [lf]) as Etake.
  { rewrite take_app_add, <- app_assoc. done. }
  rewrite Etake in *. destruct (getlines_inv (pre ++ [cr])) as [Hlf Elines].
  destruct (getlines ((pre ++ [cr]) ++ [lf])) as [|first lines]; [done|].
  destruct (chop_cr first) as [line|] eqn:Ec; [|done]. apply chop_cr_Some in Ec as ->.
  destruct (parse_request_line line) as [parsed|] eqn:Ep; [|done].
  apply parse_request_line_spec in Ep as (m & t & v & -> & Hr & ->).
  destruct (parse_headers lines 0 ∅) as [hs'|] eqn:Eh; [|done]. intros [= <- <-].
  apply parse_headers_inv in Eh as [(ls & post & ->)|(hs & -> & Hf & Hl & Hn & _ & ->)].
  - exfalso. rewrite Elines in Hno. revert Hno. simpl. rewrite flat_map_app, <- framed_lines. simpl.
    destruct (framed_last (request_line m t v) ls) as [s Hs].
    set (tail := flat_map _ post).
    replace (_ ++ framed ls ++ _) with (framed (request_line m t v :: ls) ++ crlf ++ tail)
      by (simpl; by rewrite <- !app_assoc).
    rewrite Hs, <- app_assoc. apply (find_sub_complete crlf2 s).
  - assert ((pre ++ [cr]) ++ [lf] = framed (request_line m t v :: map header_line hs)) as Epre.
    { rewrite Elines, framed_lines. simpl. by rewrite !map_map. }
    exists m, t, v, hs, rest. unfold head_bytes. rewrite <- Epre, !length_app. simpl.
    split_and!; try done; try lia.
    + by rewrite <- !app_assoc.
    + destruct Hl as [-> | Hl]; simpl; lia.
    + unfold request_of. by rewrite (right_id_L ∅ (∪)).
Qed.

(** ** The declared length *)

(** The loop computes the value, or refuses exactly on a non-digit or an overflow. *)
Lemma length_loop_spec s p :
  0 <= p ->
  match length_loop s p with
  | Ok n => Forall (fun c => is_digit c = true) s /\ n = value_from p s /\
            (s = [] \/ n <= UINT64_MAX)
  | Error (st, _) =>
      st = 400 /\ Exists (fun c => is_digit c = false) s \/
      st = 413 /\ (Forall (fun c => is_digit c = true) s -> UINT64_MAX < value_from p s)
  end.
Proof.
  revert p. induction s as [|c s IH]; intros p Hp; simpl.
  - split_and!; [constructor|done|by left].
  - destruct (is_digit c) eqn:Hd; simpl.
    2: { left. split; [done|]. by apply Exists_cons_hd. }
    pose proof Hd as Hr%is_digit_range. change (code "0") with 48.
    change (value_from p (c :: s)) with (value_from (p * 10 + (code c - 48)) s).
    destruct (Z.ltb_spec ((UINT64_MAX - (code c - 48)) / 10) p) as [Hlt|Hge].
    + right. split; [done|]. intros [_ Hs]%Forall_cons.
      pose proof (value_from_ge (p * 10 + (code c - 48)) s ltac:(lia) Hs).
      assert (UINT64_MAX - (code c - 48) < 10 * p); [|lia].
      apply Z.lt_nge. intros Hle. apply Z.div_le_lower_bound in Hle; lia.
    + specialize (IH (p * 10 + (code c - 48)) ltac:(lia)).
      pose proof (Z.mul_div_le (UINT64_MAX - (code c - 48)) 10 ltac:(lia)).
      destruct (length_loop s _) as [n|[st e]].
      * destruct IH as (Hs & -> & Hn). split_and!; [by constructor|done|right].
        destruct Hn as [-> | Hn]; [|done]. unfold value_from. simpl. lia.
      * destruct IH as [[-> Hx]|[-> Hx]]; [left|right]; (split; [done|]).
        -- by apply Exists_cons_tl.
        -- intros [_ ?]%Forall_cons. auto.
Qed.

(** Reading a head in pieces. *)
Lemma head_pieces data max_head out n :
  parse_request_head data max_head = HeadOk out n ->
  (forall k, (k < n)%nat -> parse_request_head (take k data) max_head = NeedMore) /\
  (forall rest, parse_request_head (take n data ++ rest) max_head = HeadOk out n).
Proof.
  intros (m & t & v & hs & rest & -> & -> & Hmx & Hr & Hf & Hl & Hn & ->)%parse_head_sound.
  split.
  - intros k Hk. pose proof (parse_head_complete m t v hs rest max_head Hr Hf Hl Hn Hmx) as Hp.
    unfold parse_request_head in *.
    destruct (find_sub crlf2 (head_bytes m t v hs ++ rest)) as [i|] eqn:Ei; [|by destruct (_ <? _)].
    assert (length (head_bytes m t v hs) = i + 4)%nat as Hi.
    { revert Hp. clear. destruct (_ <? _); [done|]. destruct (getlines _); [done|].
      destruct (chop_cr _); [|done]. destruct (parse_request_line _); [|done].
      destruct (parse_headers _ _ _); congruence. }
    rewrite (find_sub_take _ _ _ k Ei) by (simpl; lia).
    rewrite (proj2 (Z.ltb_ge _ _)); [done|]. unfold slen. rewrite length_take. lia.
  - intros rest'. rewrite take_app_length. by apply parse_head_complete.
Qed.

(** What a read of part of the data parses to. *)
Lemma parse_head_part buf rest max_head out n :
  parse_request_head (buf ++ rest) max_head = HeadOk out n ->
  parse_request_head buf max_head = NeedMore \/ parse_request_head buf max_head = HeadOk out n.
Proof.
  intros H. apply head_pieces in H as [Hs Hl].
  destruct (Nat.lt_ge_cases (length buf) n) as [Hlt|Hge].
  - left. rewrite <- (Hs _ Hlt). by rewrite take_app_length.
  - right. rewrite <- (Hl (drop n buf)). rewrite take_app_le by done. by rewrite take_drop.
Qed.

Lemma parse_head_extend buf rest max_head out n :
  parse_request_head buf max_head = HeadOk out n ->
  parse_request_head (buf ++ rest) max_head = HeadOk out n /\ (n <= length buf)%nat.
Proof.
  intros (m & t & v & hs & rest' & -> & -> & Hmx & Hr & Hf & Hl & Hn & ->)%parse_head_sound.
  rewrite <- app_assoc. split; [by apply parse_head_complete|]. rewrite length_app. lia.
Qed.

Lemma parse_head_target data max_head out n :
  parse_request_head data max_head = HeadOk out n -> valid_target (target out) = true.
Proof.
  intros (m & t & v & hs & rest & _ & _ & _ & (_ & Ht & _) & _ & _ & _ & ->)%parse_head_sound. done.
Qed.

(** * Theorems *)

(** C25. [parse_request_head] accepts exactly the grammar of L3-CPP-046/047/048, whatever
    follows the head: one request line with two spaces, at most 64 header lines with
    distinct case-folded names and no control character in a trimmed value, a blank
    line, all within the cap; it returns the fields of that head and its length. *)
Theorem parse_request_head_spec data max_head out n :
  parse_request_head data max_head = HeadOk out n <->
  exists m t v hs rest, data = head_bytes m t v hs ++ rest /\
    n = length (head_bytes m t v hs) /\ Z.of_nat n <= max_head /\
    wf_request_line m t v /\ Forall wf_header hs /\ (length hs <= 64)%nat /\
    NoDup (map key_of hs) /\ out = request_of m t v hs.
Proof.
  split; [apply parse_head_sound|].
  intros (m & t & v & hs & rest & -> & -> & Hmx & Hr & Hf & Hl & Hn & ->).
  by apply parse_head_complete.
Qed.

(** Reading a request incrementally is sound (L3-CPP-049): when some data parses,
    every shorter read of the head asks for more, and every longer read, whatever the
    bytes after the head, gives the same request and the same length. *)
Theorem head_incremental data max_head out n :
  parse_request_head data max_head = HeadOk out n ->
  (forall k, (k < n)%nat -> parse_request_head (take k data) max_head = NeedMore) /\
  (forall rest, parse_request_head (take n data ++ rest) max_head = HeadOk out n).
Proof. apply head_pieces. Qed.

(** C39. [content_length_for] returns a length exactly when no Transfer-Encoding is
    present and Content-Length is absent (length zero) or a non-empty string of digits
    whose mathematical value, computed without wrap-around, is within both the limit
    and 64 bits; every refusal answers 400 or 413, and 413 only for a value above the
    limit or above 64 bits. *)
Theorem content_length_for_spec request max_body :
  0 <= max_body <= UINT64_MAX ->
  match content_length_for request max_body with
  | Ok n => headers request !! str "transfer-encoding" = None /\
      (headers request !! str "content-length" = None /\ n = 0 \/
       exists v, headers request !! str "content-length" = Some v /\ v <> [] /\
         Forall (fun c => is_digit c = true) v /\ n = dec_value v /\ n <= max_body)
  | Error (st, _) =>
      st = 400 /\ (is_Some (headers request !! str "transfer-encoding") \/
        exists v, headers request !! str "content-length" = Some v /\
          (v = [] \/ Exists (fun c => is_digit c = false) v)) \/
      st = 413 /\ exists v, headers request !! str "content-length" = Some v /\
        (Forall (fun c => is_digit c = true) v -> max_body < dec_value v)
  end.
Proof.
  intros Hmx. unfold content_length_for. case_bool_decide as Hte; [by auto|].
  apply eq_None_not_Some in Hte. rewrite Hte.
  destruct (headers request !! str "content-length") as [v|]; [|by auto].
  destruct v as [|c v]; [left; split; [done|right]; by eauto|].
  pose proof (length_loop_spec (c :: v) 0 ltac:(lia)) as Hl.
  change (value_from 0 (c :: v)) with (dec_value (c :: v)) in Hl.
  destruct (length_loop (c :: v) 0) as [n|[st e]].
  - destruct Hl as (Hd & -> & _). destruct (Z.ltb_spec max_body (dec_value (c :: v))).
    + right. eauto.
    + split; [done|]. right. exists (c :: v). auto.
  - destruct Hl as [[-> Hx]|[-> Hx]]; [left; split; [done|right]; by eauto|right]. split; [done|].
    exists (c :: v). split; [done|]. intros Hd%Hx. lia.
Qed.

(** Every response with plain header values is framed by its first blank line: what
    follows it is the body, whose length the head declares. *)
Definition plain (s : bytes) : Prop := cr ∉ s /\ lf ∉ s.

Lemma plain_app s t : plain s -> plain t -> plain (s ++ t).
Proof. intros [] []. split; rewrite not_elem_of_app; auto. Qed.

Lemma plain_lit s : forallb (fun c => negb (Ascii.eqb c cr || Ascii.eqb c lf)) s = true -> plain s.
Proof. intros H. split; eapply forallb_notin; (exact H || reflexivity). Qed.

Lemma plain_dec n : 0 <= n -> plain (dec n).
Proof.
  intros Hn. pose proof (dec_digits n Hn) as Hd. rewrite Forall_forall in Hd.
  split; intros Hin; by apply Hd in Hin.
Qed.

Lemma plain_reason st : plain (reason st).
Proof. apply plain_lit. unfold reason. repeat case_match; reflexivity. Qed.

Lemma plain_line_app s t : s <> [] -> plain s -> plain t -> plain_line (s ++ t).
Proof. intros Hne Hs Ht. destruct (plain_app _ _ Hs Ht). split_and!; [by destruct s|done|done]. Qed.

Lemma response_framed r :
  plain (content_type r) -> plain (allow r) -> 0 <= status r ->
  find_sub crlf2 (serialize_response r) = Some (length (response_head r) - 4)%nat /\
  drop (length (response_head r)) (serialize_response r) = resp_body r.
Proof.
  intros Hc Ha Hs. split; [|by unfold serialize_response; rewrite drop_app_length].
  set (l1 := str "HTTP/1.1 " ++ dec (status r) ++ str " " ++ reason (status r)).
  set (ls := (str "Content-Type: " ++ content_type r)
    :: (str "Content-Length: " ++ dec (slen (resp_body r)))
    :: (str "Connection: close" ++ [])
    :: (if allow r == [] then [] else [str "Allow: " ++ allow r])).
  assert (response_head r = framed (l1 :: ls) ++ crlf) as E.
  { unfold response_head, framed, l1, ls, dec_signed. rewrite (proj2 (Z.ltb_ge _ _)) by done.
    destruct (allow r == []); cbn [flat_map]; rewrite ?app_nil_r, <- ?app_assoc; reflexivity. }
  unfold serialize_response. rewrite E, <- app_assoc, find_blank_line.
  - rewrite length_app. cbn [length crlf]. f_equal. lia.
  - apply plain_line_app; [done|by apply plain_lit|].
    apply plain_app; [by apply plain_dec|]. apply plain_app; [by apply plain_lit|apply plain_reason].
  - repeat (apply Forall_cons; split; [apply plain_line_app; [done|by apply plain_lit|]|]);
      [done|apply plain_dec, slen_nonneg|by apply plain_lit|].
    destruct (allow r == []); [constructor|].
    apply Forall_singleton, plain_line_app; [done|by apply plain_lit|done].
Qed.

(** ** Witnesses *)

Definition demo_head : bytes :=
  head_bytes (str "POST") (str "/api/v1/jobs") (str "HTTP/1.1")
    [(str "Host", str " localhost"); (str "Content-Length", str " 2 ")].
Definition demo_parsed : Request :=
  request_of (str "POST") (str "/api/v1/jobs") (str "HTTP/1.1")
    [(str "Host", str " localhost"); (str "Content-Length", str " 2 ")].

Lemma head_incremental_witness :
  parse_request_head (take 20 (demo_head ++ str "{}")) 1000 = NeedMore /\
  parse_request_head (demo_head ++ str "GET / HTTP/1.1") 1000 = HeadOk demo_parsed (length demo_head).
Proof.
  destruct (head_incremental (demo_head ++ str "{}") 1000 demo_parsed (length demo_head)) as [H1 H2].
  - vm_compute. reflexivity.
  - split; [apply H1; vm_compute; lia|]. apply H2.
Defined.

Lemma content_length_for_spec_witness :
  0 <= 65536 <= UINT64_MAX /\ headers demo_parsed !! str "transfer-encoding" = None.
Proof.
  assert (0 <= 65536 <= UINT64_MAX) as Hb by (unfold UINT64_MAX; lia).
  pose proof (content_length_for_spec demo_parsed 65536 Hb) as H.
  assert (content_length_for demo_parsed 65536 = Ok 2) as E by (vm_compute; reflexivity).
  rewrite E in H. split; [exact Hb|exact (proj1 H)].
Defined.

(** The statuses the HTTP service answers with and the serializer does not know. *)
Example unnamed_statuses :
  reason 202 = str "Internal Server Error" /\ reason 503 = str "Internal Server Error".
Proof. done. Qed.
