(* ===== verification/Json.v ===== *)
(** The JSON reader and writer helper: src/cpp/src/json.cpp and
    src/cpp/include/filemover/json.hpp.

    The cursor [i_] is represented by the bytes that remain, so the offset of an error
    is the input length minus theirs.  [parse_value] recurses on the depth that is left
    ([max_depth + 1 - depth]), which is the code's depth test; the loops inside one
    string, object or array carry fuel, one unit per remaining byte, and
    [parse_total] shows that it never runs out. *)

From S2P Require Import Prelude.

(** * Data *)

Inductive Value :=
| VBool (b : bool)
| VInt (n : Z)
| VString (s : bytes)
| VArray (elems : list Value)
| VObject (members : list (bytes * Value)).

Record Limits := mkLimits {
  max_depth : nat;
  max_input_bytes : Z;
  max_string_bytes : Z;
  max_members : nat;
  max_elements : nat
}.
Definition default_limits : Limits := mkLimits 4 (64 * 1024) 4096 64 64.

(** [Value::find]: the first member with the key. *)
Definition find (key : bytes) (v : Value) : option Value :=
  match v with
  | VObject members =>
      snd <$> List.find (fun m => fst m == key) members
  | _ => None
  end.

(** What a parser function answers: a result and the cursor after it, or the message
    and the cursor at the failure. *)
Inductive outcome (A : Type) :=
| Parsed (a : A) (rest : bytes)
| Refused (msg : bytes) (rest : bytes)
| OutOfFuel.
Arguments Parsed {_} _ _.
Arguments Refused {_} _ _.
Arguments OutOfFuel {_}.

Definition obind {A B} (m : outcome A) (k : A -> bytes -> outcome B) : outcome B :=
  match m with
  | Parsed a rest => k a rest
  | Refused msg rest => Refused msg rest
  | OutOfFuel => OutOfFuel
  end.
Notation "'plet' ( a , r ) := m 'in' k" := (obind m (fun a r => k))
  (at level 200, a name, r name, k at level 200).

(** * Characters *)

Definition is_ws (c : ascii) : bool :=
  Ascii.eqb c " " || Ascii.eqb c ht || Ascii.eqb c lf || Ascii.eqb c cr.

Definition hex_value (c : ascii) : Z :=
  if (code "0" <=? code c) && (code c <=? code "9") then code c - code "0"
  else if (code "a" <=? code c) && (code c <=? code "f") then code c - code "a" + 10
  else if (code "A" <=? code c) && (code c <=? code "F") then code c - code "A" + 10
  else -1.

Definition append_utf8 (cp : Z) : bytes :=
  if cp <? 0x80 then [chr cp]
  else if cp <? 0x800 then
    [chr (Z.lor 0xC0 (Z.shiftr cp 6)); chr (Z.lor 0x80 (Z.land cp 0x3F))]
  else if cp <? 0x10000 then
    [chr (Z.lor 0xE0 (Z.shiftr cp 12)); chr (Z.lor 0x80 (Z.land (Z.shiftr cp 6) 0x3F));
     chr (Z.lor 0x80 (Z.land cp 0x3F))]
  else
    [chr (Z.lor 0xF0 (Z.shiftr cp 18)); chr (Z.lor 0x80 (Z.land (Z.shiftr cp 12) 0x3F));
     chr (Z.lor 0x80 (Z.land (Z.shiftr cp 6) 0x3F)); chr (Z.lor 0x80 (Z.land cp 0x3F))].

Definition skip_ws (rest : bytes) : bytes := drop_while is_ws rest.

(** * Tokens *)

Definition literal (word rest : bytes) : outcome unit :=
  if starts_with word rest then Parsed tt (drop (length word) rest)
  else Refused (str "invalid literal") rest.

(** The length of the sequence a lead byte announces, and the range of its second byte. *)
Definition utf8_lead (c : Z) : option (nat * Z * Z) :=
  if c <? 0x80 then Some (1%nat, 0x80, 0xBF)
  else if (0xC2 <=? c) && (c <=? 0xDF) then Some (2%nat, 0x80, 0xBF)
  else if (0xE0 <=? c) && (c <=? 0xEF) then
    Some (3%nat, if c =? 0xE0 then 0xA0 else 0x80, if c =? 0xED then 0x9F else 0xBF)
  else if (0xF0 <=? c) && (c <=? 0xF4) then
    Some (4%nat, if c =? 0xF0 then 0x90 else 0x80, if c =? 0xF4 then 0x8F else 0xBF)
  else None.

Definition in_range (lo hi : Z) (c : ascii) : bool := negb ((code c <? lo) || (hi <? code c)).
Definition continuation (lo2 hi2 : Z) (tail : bytes) : bool :=
  match tail with
  | [] => true
  | c :: tail' => in_range lo2 hi2 c && forallb (in_range 0x80 0xBF) tail'
  end.

Definition consume_utf8 (c : ascii) (r : bytes) : outcome bytes :=
  let rest := c :: r in
  match utf8_lead (code c) with
  | None => Refused (str "invalid UTF-8 lead byte in string") rest
  | Some (len, lo2, hi2) =>
      if (length rest <? len)%nat then Refused (str "truncated UTF-8 sequence") rest
      else if continuation lo2 hi2 (take (len - 1) r) then Parsed (take len rest) (drop len rest)
      else Refused (str "invalid UTF-8 continuation byte in string") rest
  end.

Definition parse_hex4 (rest : bytes) : outcome Z :=
  match rest with
  | a :: b :: c :: d :: r =>
      if existsb (fun x => hex_value x <? 0) [a; b; c; d] then
        Refused (str "invalid hex digit in \u escape") rest
      else Parsed (fold_left (fun v x => Z.lor (Z.shiftl v 4) (hex_value x)) [a; b; c; d] 0) r
  | _ => Refused (str "truncated \u escape") rest
  end.

(** The code point of a [\u] escape, after the [u]. *)
Definition parse_unicode (rest : bytes) : outcome Z :=
  plet (cp, r) := parse_hex4 rest in
  if cp =? 0 then Refused (str "embedded NUL is not permitted") r
  else if (0xD800 <=? cp) && (cp <=? 0xDBFF) then
    if starts_with (str "\u") r then
      plet (lo, r2) := parse_hex4 (drop 2 r) in
      if (lo <? 0xDC00) || (0xDFFF <? lo) then Refused (str "invalid low surrogate") r2
      else Parsed (0x10000 + Z.shiftl (cp - 0xD800) 10 + (lo - 0xDC00)) r2
    else Refused (str "lone high surrogate") r
  else if (0xDC00 <=? cp) && (cp <=? 0xDFFF) then Refused (str "lone low surrogate") r
  else Parsed cp r.

Definition simple_escape (e : ascii) : option ascii :=
  if Ascii.eqb e dq then Some dq
  else if Ascii.eqb e "\" then Some "\"%char
  else if Ascii.eqb e "/" then Some "/"%char
  else if Ascii.eqb e "b" then Some (chr 8)
  else if Ascii.eqb e "f" then Some (chr 12)
  else if Ascii.eqb e "n" then Some lf
  else if Ascii.eqb e "r" then Some cr
  else if Ascii.eqb e "t" then Some ht
  else None.

Section Parser.
Context (lim : Limits).

(** The loop of [parse_string], after the opening quote. *)
Fixpoint string_loop (fuel : nat) (out rest : bytes) : outcome bytes :=
  match fuel with
  | O => OutOfFuel
  | S f =>
      match rest with
      | [] => Refused (str "unterminated string") rest
      | c :: r =>
          if max_string_bytes lim <? slen out then
            Refused (str "string exceeds the maximum length") rest
          else if Ascii.eqb c dq then Parsed out r
          else if code c <? 0x20 then Refused (str "unescaped control character in string") rest
          else if negb (Ascii.eqb c "\") then
            plet (u, r2) := consume_utf8 c r in string_loop f (out ++ u) r2
          else
            match r with
            | [] => Refused (str "unterminated escape sequence") r
            | e :: r1 =>
                match simple_escape e with
                | Some x => string_loop f (out ++ [x]) r1
                | None =>
                    if Ascii.eqb e "u" then
                      plet (cp, r2) := parse_unicode r1 in string_loop f (out ++ append_utf8 cp) r2
                    else Refused (str "unrecognized escape character") r1
                end
            end
      end
  end.
Definition parse_string (rest : bytes) : outcome bytes := string_loop (S (length rest)) [] rest.

(** The accumulation with its overflow guard; [None] when out of range. *)
Fixpoint accumulate (limit : Z) (digits : bytes) (acc : Z) : option Z :=
  match digits with
  | [] => Some acc
  | c :: ds =>
      let d := code c - code "0" in
      if (limit - d) / 10 <? acc then None else accumulate limit ds (acc * 10 + d)
  end.

(** What may not follow the digits. *)
Definition number_suffix (rest : bytes) : option bytes :=
  match rest with
  | c :: _ =>
      if Ascii.eqb c "." then Some (str "floating-point values are not accepted")
      else if Ascii.eqb c "e" || Ascii.eqb c "E" then Some (str "exponent notation is not accepted")
      else None
  | [] => None
  end.

Definition number_value (negative : bool) (digits rest : bytes) : outcome Value :=
  match number_suffix rest with
  | Some msg => Refused msg rest
  | None =>
      match accumulate (if negative then 2 ^ 63 else INT64_MAX) digits 0 with
      | None => Refused (str "integer is out of the representable range") rest
      | Some acc =>
          Parsed (VInt (if negative then if acc =? 0 then 0 else - (acc - 1) - 1 else acc)) rest
      end
  end.

Definition parse_number (rest : bytes) : outcome Value :=
  let '(negative, r) :=
    match rest with
    | c :: r => if Ascii.eqb c "-" then (true, r) else (false, rest)
    | [] => (false, rest)
    end in
  match r with
  | c :: r1 =>
      if negb (is_digit c) then Refused (str "number has no digits") r
      else if Ascii.eqb c "0" then
        match r1 with
        | d :: _ => if is_digit d then Refused (str "leading zeros are not permitted") r1
                    else number_value negative [c] r1
        | [] => number_value negative [c] r1
        end
      else let '(digits, r2) := span_digits r in number_value negative digits r2
  | [] => Refused (str "number has no digits") r
  end.

(** * Structures

    The loops take the parser of the nested values. *)

Section Loops.
Context (pv : bytes -> outcome Value).

Fixpoint members_loop (fuel : nat) (members : list (bytes * Value)) (rest : bytes)
    : outcome Value :=
  match fuel with
  | O => OutOfFuel
  | S f =>
      let r := skip_ws rest in
      match r with
      | [] => Refused (str "unterminated object") r
      | c :: r1 =>
          if negb (Ascii.eqb c dq) then
            Refused (str "object member name must be a quoted string") r
          else
            plet (key, r2) := parse_string r1 in
            if existsb (fun m => fst m == key) members then
              Refused (str "duplicate object member name") r2
            else if (max_members lim <=? length members)%nat then
              Refused (str "object exceeds the maximum member count") r2
            else
              let r3 := skip_ws r2 in
              match r3 with
              | c2 :: r4 =>
                  if negb (Ascii.eqb c2 ":") then
                    Refused (str "expected ':' after member name") r3
                  else
                    plet (v, r5) := pv (skip_ws r4) in
                    let members' := members ++ [(key, v)] in
                    let r6 := skip_ws r5 in
                    match r6 with
                    | [] => Refused (str "unterminated object") r6
                    | c3 :: r7 =>
                        if Ascii.eqb c3 "," then members_loop f members' r7
                        else if Ascii.eqb c3 "}" then Parsed (VObject members') r7
                        else Refused (str "expected ',' or '}' in object") r6
                    end
              | [] => Refused (str "expected ':' after member name") r3
              end
      end
  end.

(** After the brace. *)
Definition parse_object (rest : bytes) : outcome Value :=
  let r := skip_ws rest in
  match r with
  | [] => Refused (str "unterminated object") r
  | c :: r1 => if Ascii.eqb c "}" then Parsed (VObject []) r1
               else members_loop (S (length r)) [] r
  end.

Fixpoint elements_loop (fuel : nat) (elems : list Value) (rest : bytes) : outcome Value :=
  match fuel with
  | O => OutOfFuel
  | S f =>
      let r := skip_ws rest in
      match r with
      | [] => Refused (str "unterminated array") r
      | _ :: _ =>
          if (max_elements lim <=? length elems)%nat then
            Refused (str "array exceeds the maximum element count") r
          else
            plet (v, r1) := pv r in
            let elems' := elems ++ [v] in
            let r2 := skip_ws r1 in
            match r2 with
            | [] => Refused (str "unterminated array") r2
            | c :: r3 =>
                if Ascii.eqb c "," then elements_loop f elems' r3
                else if Ascii.eqb c "]" then Parsed (VArray elems') r3
                else Refused (str "expected ',' or ']' in array") r2
            end
      end
  end.

(** After the bracket. *)
Definition parse_array (rest : bytes) : outcome Value :=
  let r := skip_ws rest in
  match r with
  | [] => Refused (str "unterminated array") r
  | c :: r1 => if Ascii.eqb c "]" then Parsed (VArray []) r1
               else elements_loop (S (length r)) [] r
  end.
End Loops.

(** [left] is [max_depth + 1 - depth]. *)
Fixpoint parse_value (left : nat) (rest : bytes) : outcome Value :=
  match left with
  | O => Refused (str "maximum nesting depth exceeded") rest
  | S left' =>
      match rest with
      | [] => Refused (str "unexpected end of input") rest
      | c :: r =>
          if Ascii.eqb c "{" then parse_object (parse_value left') r
          else if Ascii.eqb c "[" then parse_array (parse_value left') r
          else if Ascii.eqb c dq then plet (s, r2) := parse_string r in Parsed (VString s) r2
          else if Ascii.eqb c "t" then plet (_x, r2) := literal (str "true") rest in Parsed (VBool true) r2
          else if Ascii.eqb c "f" then plet (_x, r2) := literal (str "false") rest in Parsed (VBool false) r2
          else if Ascii.eqb c "n" then Refused (str "null is not an accepted value") rest
          else if Ascii.eqb c "-" || is_digit c then parse_number rest
          else Refused (str "unexpected character") rest
      end
  end.

Definition byte_order_mark : bytes := [chr 0xEF; chr 0xBB; chr 0xBF].

Definition fail_at (input msg rest : bytes) : bytes :=
  msg ++ str " at offset " ++ dec (slen input - slen rest).

(** [json::parse]; [None] would be a loop out of fuel. *)
Definition parse (input : bytes) : option (result Value bytes) :=
  if max_input_bytes lim <? slen input then
    Some (Error (fail_at input (str "input exceeds the configured maximum size") input))
  else if starts_with byte_order_mark input then
    Some (Error (fail_at input (str "leading byte-order mark is not permitted") input))
  else
    let r := skip_ws input in
    match r with
    | [] => Some (Error (fail_at input (str "input is empty") r))
    | c :: _ =>
        if negb (Ascii.eqb c "{") then
          Some (Error (fail_at input (str "top-level value must be an object") r))
        else
          match parse_value (max_depth lim) r with
          | OutOfFuel => None
          | Refused msg r1 => Some (Error (fail_at input msg r1))
          | Parsed v r1 =>
              let r2 := skip_ws r1 in
              match r2 with
              | [] => Some (Ok v)
              | _ => Some (Error (fail_at input
                             (str "unexpected trailing content after the JSON value") r2))
              end
          end
    end.
End Parser.

(** * Output *)

Definition escape_char (c : ascii) : bytes :=
  if Ascii.eqb c dq then ["\"%char; dq]
  else if Ascii.eqb c "\" then str "\\"
  else if Ascii.eqb c (chr 8) then str "\b"
  else if Ascii.eqb c (chr 12) then str "\f"
  else if Ascii.eqb c lf then str "\n"
  else if Ascii.eqb c cr then str "\r"
  else if Ascii.eqb c ht then str "\t"
  else if code c <? 0x20 then
    str "\u00" ++ [hex_char (code c / 16); hex_char (code c mod 16)]
  else [c].
Definition escape (input : bytes) : bytes := flat_map escape_char input.

(** * Specification *)

(** Unicode scalar values and their UTF-8 encoding. *)
Definition scalar (cp : Z) : Prop := 0 <= cp < 0x110000 /\ ~ (0xD800 <= cp <= 0xDFFF).

Definition utf8_encode (cp : Z) : bytes :=
  if cp <? 0x80 then [chr cp]
  else if cp <? 0x800 then [chr (0xC0 + cp / 64); chr (0x80 + cp mod 64)]
  else if cp <? 0x10000 then
    [chr (0xE0 + cp / 4096); chr (0x80 + cp / 64 mod 64); chr (0x80 + cp mod 64)]
  else
    [chr (0xF0 + cp / 262144); chr (0x80 + cp / 4096 mod 64); chr (0x80 + cp / 64 mod 64);
     chr (0x80 + cp mod 64)].

(** Text: a sequence of scalar values other than NUL. *)
Definition text (s : bytes) : Prop :=
  exists cps, Forall (fun cp => scalar cp /\ cp <> 0) cps /\ s = flat_map utf8_encode cps.

Section Wf.
Context (lim : Limits).

Definition wf_string (s : bytes) : Prop := text s /\ slen s <= max_string_bytes lim.

(** What ADR-0009 accepts, within the limits, nested at most [left] deep. *)
Fixpoint wf_value (left : nat) (v : Value) : Prop :=
  match left with
  | O => False
  | S left' =>
      match v with
      | VBool _ => True
      | VInt n => is_int64 n
      | VString s => wf_string s
      | VArray elems => (length elems <= max_elements lim)%nat /\ Forall (wf_value left') elems
      | VObject members =>
          (length members <= max_members lim)%nat /\ NoDup (map fst members) /\
          Forall (fun m => wf_string (fst m) /\ wf_value left' (snd m)) members
      end
  end.
End Wf.

(** * UTF-8 *)

Lemma lor_add k n x : 0 <= n -> 0 <= x < 2 ^ n -> Z.lor (k * 2 ^ n) x = k * 2 ^ n + x.
Proof.
  intros Hn Hx. symmetry. apply Z.add_nocarry_lor. apply Z.bits_inj'. intros i Hi.
  rewrite Z.land_spec, Z.bits_0. destruct (Z.lt_ge_cases i n).
  - by rewrite Z.mul_pow2_bits_low.
  - rewrite <- (Z.mod_small x (2 ^ n)) by lia. rewrite Z.mod_pow2_bits_high by lia. apply andb_false_r.
Qed.

Lemma land_63 x : Z.land x 0x3F = x mod 64.
Proof. change 0x3F with (Z.ones 6). by rewrite Z.land_ones. Qed.

Lemma append_utf8_encode cp : 0 <= cp < 0x110000 -> append_utf8 cp = utf8_encode cp.
Proof.
  intros H. unfold append_utf8, utf8_encode. rewrite !land_63, !Z.shiftr_div_pow2 by lia.
  change (2 ^ 6) with 64. change (2 ^ 12) with 4096. change (2 ^ 18) with 262144.
  change 0x80 with (2 * 2 ^ 6) at 2 3 4 5 6 7. change 0xC0 with (6 * 2 ^ 5) at 1.
  change 0xE0 with (14 * 2 ^ 4) at 1. change 0xF0 with (30 * 2 ^ 3) at 1.
  destruct (Z.ltb_spec cp 0x80); [done|].
  destruct (Z.ltb_spec cp 0x800).
  { rewrite !lor_add by (Z.div_mod_to_equations; lia). done. }
  destruct (Z.ltb_spec cp 0x10000);
    rewrite !lor_add by (Z.div_mod_to_equations; lia); done.
Qed.

Lemma consume_utf8_complete cp rest :
  scalar cp ->
  exists c r, utf8_encode cp ++ rest = c :: r /\
    consume_utf8 c r = Parsed (utf8_encode cp) rest /\
    (0x80 <= cp -> 0x80 <= code c) /\ (cp < 0x80 -> code c = cp).
Proof.
  intros [Hr Hs]. unfold utf8_encode.
  assert (forall n, 0 <= n < 64 -> code (chr (0x80 + n)) = 0x80 + n) as Hc
    by (intros; apply code_chr; lia).
  assert (forall n, 0 <= n < 64 -> in_range 0x80 0xBF (chr (0x80 + n)) = true) as Hin
    by (intros n Hn; unfold in_range; rewrite Hc by done; lia).
  assert (forall a, 0 <= a mod 64 < 64) as Hm by (intros; apply Z.mod_pos_bound; lia).
  destruct (Z.ltb_spec cp 0x80).
  { eexists _, _. split; [reflexivity|]. unfold consume_utf8, utf8_lead. rewrite code_chr by lia.
    rewrite (proj2 (Z.ltb_lt _ _)) by done. simpl. by rewrite drop_0. }
  destruct (Z.ltb_spec cp 0x800); [|destruct (Z.ltb_spec cp 0x10000)];
    (eexists _, _; split; [reflexivity|]); unfold consume_utf8, utf8_lead.
  - rewrite code_chr by (Z.div_mod_to_equations; lia).
    rewrite (proj2 (Z.ltb_ge _ _)) by (Z.div_mod_to_equations; lia).
    rewrite (proj2 (andb_true_iff _ _)) by (rewrite !Z.leb_le; Z.div_mod_to_equations; lia).
    simpl. rewrite drop_0, take_0. simpl. rewrite Hin by apply Hm. simpl.
    split_and!; [done| |]; Z.div_mod_to_equations; lia.
  - rewrite code_chr by (Z.div_mod_to_equations; lia).
    rewrite (proj2 (Z.ltb_ge _ _)) by (Z.div_mod_to_equations; lia).
    rewrite (proj2 (andb_false_iff _ _)) by (rewrite !Z.leb_gt; Z.div_mod_to_equations; lia).
    rewrite (proj2 (andb_true_iff _ _)) by (rewrite !Z.leb_le; Z.div_mod_to_equations; lia).
    simpl. rewrite drop_0, take_0. simpl. rewrite (Hin (cp mod 64)) by apply Hm.
    unfold in_range. rewrite Hc by apply Hm.
    destruct (Z.eqb_spec (224 + cp / 4096) 224), (Z.eqb_spec (224 + cp / 4096) 237);
      rewrite !(proj2 (Z.ltb_ge _ _)) by (Z.div_mod_to_equations; lia); simpl;
      split_and!; try done; Z.div_mod_to_equations; lia.
  - rewrite code_chr by (Z.div_mod_to_equations; lia).
    rewrite (proj2 (Z.ltb_ge _ _)) by (Z.div_mod_to_equations; lia).
    rewrite (proj2 (andb_false_iff _ _)) by (rewrite !Z.leb_gt; Z.div_mod_to_equations; lia).
    rewrite (proj2 (andb_false_iff _ _)) by (rewrite !Z.leb_gt; Z.div_mod_to_equations; lia).
    rewrite (proj2 (andb_true_iff _ _)) by (rewrite !Z.leb_le; Z.div_mod_to_equations; lia).
    simpl. rewrite drop_0, take_0. simpl. rewrite (Hin (cp mod 64)), (Hin (cp / 64 mod 64)) by apply Hm.
    unfold in_range. rewrite Hc by apply Hm.
    destruct (Z.eqb_spec (240 + cp / 262144) 240), (Z.eqb_spec (240 + cp / 262144) 244);
      rewrite !(proj2 (Z.ltb_ge _ _)) by (Z.div_mod_to_equations; lia); simpl;
      split_and!; try done; Z.div_mod_to_equations; lia.
Qed.

Lemma in_range_iff lo hi c : in_range lo hi c = true <-> lo <= code c <= hi.
Proof. unfold in_range. rewrite negb_true_iff, orb_false_iff, !Z.ltb_ge. lia. Qed.

Lemma chr_eq n c : code c = n -> c = chr n.
Proof. intros <-. symmetry. apply chr_code. Qed.

(** Evaluates [utf8_encode] at a code point assembled from bytes. *)
Ltac encode_bytes :=
  unfold utf8_encode;
  repeat first
    [ rewrite (proj2 (Z.ltb_lt _ _)) by lia
    | rewrite (proj2 (Z.ltb_ge _ _)) by lia ];
  repeat (apply f_equal2; [apply chr_eq; Z.div_mod_to_equations; lia|]); reflexivity.

(** An accepted sequence is the encoding of a scalar value. *)
Lemma consume_utf8_sound c r u r' :
  consume_utf8 c r = Parsed u r' ->
  exists cp, scalar cp /\ u = utf8_encode cp /\ c :: r = u ++ r' /\ (cp = 0 -> code c = 0).
Proof.
  unfold consume_utf8, utf8_lead, scalar. pose proof (code_bound c) as Hb.
  destruct (Z.ltb_spec (code c) 0x80).
  { simpl. rewrite drop_0. intros [= <- <-]. exists (code c). split_and!; try lia; try done. encode_bytes. }
  destruct ((0xC2 <=? code c) && (code c <=? 0xDF)) eqn:E2.
  { bool_prop. destruct r as [|c1 r]; [done|]. simpl. rewrite drop_0, take_0. simpl. rewrite andb_true_r.
    destruct (in_range 0x80 0xBF c1) eqn:R1; [|done]. apply in_range_iff in R1.
    intros [= <- <-]. exists ((code c - 0xC0) * 64 + (code c1 - 0x80)).
    split_and!; try lia; try done. encode_bytes. }
  destruct ((0xE0 <=? code c) && (code c <=? 0xEF)) eqn:E3.
  { bool_prop. destruct r as [|c1 [|c2 r]]; [done..|]. simpl. rewrite drop_0, take_0. simpl.
    rewrite andb_true_r. destruct (in_range _ _ c1 && in_range _ _ c2) eqn:R; [|done]. bool_prop.
    rewrite !in_range_iff in *. intros [= <- <-].
    exists ((code c - 0xE0) * 4096 + (code c1 - 0x80) * 64 + (code c2 - 0x80)).
    destruct (Z.eqb_spec (code c) 0xE0), (Z.eqb_spec (code c) 0xED);
      split_and!; try lia; try done; encode_bytes. }
  destruct ((0xF0 <=? code c) && (code c <=? 0xF4)) eqn:E4; [|done].
  bool_prop. destruct r as [|c1 [|c2 [|c3 r]]]; [done..|]. simpl. rewrite drop_0, take_0. simpl.
  rewrite andb_true_r. destruct (in_range _ _ c1 && (in_range _ _ c2 && in_range _ _ c3)) eqn:R; [|done].
  bool_prop. rewrite !in_range_iff in *. intros [= <- <-].
  exists ((code c - 0xF0) * 262144 + (code c1 - 0x80) * 4096 + (code c2 - 0x80) * 64 + (code c3 - 0x80)).
  destruct (Z.eqb_spec (code c) 0xF0), (Z.eqb_spec (code c) 0xF4);
    split_and!; try lia; try done; encode_bytes.
Qed.

Lemma utf8_encode_nonempty cp : utf8_encode cp <> [].
Proof. unfold utf8_encode. by repeat case_match. Qed.

Lemma text_app_encode s cp : text s -> scalar cp -> cp <> 0 -> text (s ++ utf8_encode cp).
Proof.
  intros (cps & Hf & ->) Hs Hn. exists (cps ++ [cp]). rewrite flat_map_app. simpl.
  rewrite app_nil_r. split; [|done]. apply Forall_app. split; [done|]. by apply Forall_singleton.
Qed.

Lemma text_app_ascii s c : text s -> 0 < code c < 0x80 -> text (s ++ [c]).
Proof.
  intros Hs Hc. replace [c] with (utf8_encode (code c)).
  - apply text_app_encode; [done|split; lia|lia].
  - unfold utf8_encode. rewrite (proj2 (Z.ltb_lt _ _)) by lia. by rewrite chr_code.
Qed.

Lemma text_nil : text [].
Proof. by exists []. Qed.

(** Text has no NUL byte. *)
Lemma text_no_nul s : text s -> nul ∉ s.
Proof.
  intros (cps & Hf & ->). induction Hf as [|cp cps [[Hr _] Hn] _ IH]; simpl; [set_solver|].
  rewrite not_elem_of_app. split; [|done]. intros Hin.
  assert (exists n, nul = chr n /\ 0 < n < 256) as (n & E & Hb).
  { unfold utf8_encode in Hin.
    repeat case_match; rewrite !elem_of_cons, elem_of_nil in Hin;
      repeat destruct Hin as [Hin|Hin]; try done; (eexists; split; [exact Hin|]);
      bool_prop; Z.div_mod_to_equations; lia. }
  apply (f_equal code) in E. rewrite code_chr in E by lia. change (code nul) with 0 in E. lia.
Qed.

(** * Every parser makes progress and returns well-formed data *)

(** Success consumes input and gives [P]; failure has a message and a cursor within the
    input; the fuel never runs out. *)
Definition post {A} (P : A -> Prop) (rest : bytes) (m : outcome A) : Prop :=
  match m with
  | Parsed a r => (length r < length rest)%nat /\ P a
  | Refused msg r => (length r <= length rest)%nat /\ msg <> []
  | OutOfFuel => False
  end.

Lemma post_bind {A B} (P : A -> Prop) (Q : B -> Prop) rest rest' m (k : A -> bytes -> outcome B) :
  post P rest m -> (length rest <= length rest')%nat ->
  (forall a r, (length r < length rest)%nat -> P a -> post Q rest' (k a r)) ->
  post Q rest' (obind m k).
Proof. destruct m; simpl; intros Hm Hl Hk; [by apply Hk; apply Hm| |done]. split; [lia|tauto]. Qed.

Lemma post_weaken {A} (P Q : A -> Prop) rest rest' m :
  post P rest m -> (length rest <= length rest')%nat -> (forall a, P a -> Q a) -> post Q rest' m.
Proof. destruct m; simpl; intuition (auto; lia). Qed.

Lemma skip_ws_length r : (length (skip_ws r) <= length r)%nat.
Proof.
  unfold skip_ws. destruct (drop_while_split is_ws r) as (l & E & _).
  rewrite E at 2. rewrite length_app. lia.
Qed.

Lemma consume_utf8_post c r :
  code c <> 0 -> post (fun u => exists cp, scalar cp /\ cp <> 0 /\ u = utf8_encode cp) (c :: r) (consume_utf8 c r).
Proof.
  intros Hc. destruct (consume_utf8 c r) as [u r'|msg r'|] eqn:E; simpl.
  - apply consume_utf8_sound in E as (cp & Hs & -> & E & Hz). apply (f_equal length) in E.
    rewrite length_app in E. simpl in E. pose proof (utf8_encode_nonempty cp).
    destruct (utf8_encode cp) eqn:Eu; [done|]. simpl in E. split; [lia|]. exists cp.
    rewrite Eu. split_and!; [done|tauto|done].
  - revert E. unfold consume_utf8. repeat case_match; intros [= <- <-]; done.
  - revert E. unfold consume_utf8. by repeat case_match.
Qed.

Lemma hex_value_range c : hex_value c < 16.
Proof.
  unfold hex_value. change (code "0") with 48. change (code "9") with 57.
  change (code "a") with 97. change (code "f") with 102. change (code "A") with 65.
  change (code "F") with 70. repeat case_match; lia.
Qed.

Lemma shiftl_lor v x : 0 <= v -> 0 <= x < 16 -> Z.lor (Z.shiftl v 4) x = v * 16 + x.
Proof. intros. rewrite Z.shiftl_mul_pow2 by lia. by rewrite lor_add. Qed.

Lemma parse_hex4_post rest : post (fun v => 0 <= v < 0x10000) rest (parse_hex4 rest).
Proof.
  unfold parse_hex4. destruct rest as [|a [|b [|c [|d r]]]]; [done..|].
  destruct (existsb _ _) eqn:E; [done|]. simpl in E. bool_prop.
  cbn [fold_left post length]. split; [lia|].
  pose proof (hex_value_range a). pose proof (hex_value_range b).
  pose proof (hex_value_range c). pose proof (hex_value_range d).
  rewrite !Z.ltb_ge in *. rewrite (shiftl_lor 0), (shiftl_lor _ (hex_value b)) by lia.
  rewrite (shiftl_lor _ (hex_value c)), (shiftl_lor _ (hex_value d)) by lia. lia.
Qed.

Lemma parse_unicode_post rest : post (fun cp => scalar cp /\ cp <> 0) rest (parse_unicode rest).
Proof.
  unfold parse_unicode. eapply post_bind; [apply parse_hex4_post|done|].
  intros cp r Hr Hcp. cbv beta in Hcp. destruct (Z.eqb_spec cp 0); [split; [lia|done]|].
  destruct ((0xD800 <=? cp) && (cp <=? 0xDBFF)) eqn:Eh.
  - bool_prop. destruct (starts_with (str "\u") r); [|split; [lia|done]].
    eapply post_bind; [apply parse_hex4_post|rewrite length_drop; lia|].
    intros lo r2 Hr2 Hlo. cbv beta in Hlo. rewrite length_drop in Hr2.
    destruct ((lo <? 0xDC00) || (0xDFFF <? lo)) eqn:El; [split; [lia|done]|]. bool_prop.
    split; [lia|]. unfold scalar. rewrite Z.shiftl_mul_pow2 by lia. change (2 ^ 10) with 1024. lia.
  - destruct ((0xDC00 <=? cp) && (cp <=? 0xDFFF)) eqn:El; (split; [lia|]); [done|].
    apply andb_false_iff in Eh, El. rewrite !Z.leb_gt in *. unfold scalar. lia.
Qed.

Lemma simple_escape_range e x : simple_escape e = Some x -> 0 < code x < 0x80.
Proof. unfold simple_escape. repeat case_match; intros [= <-]; by vm_compute. Qed.

Lemma existsb_Forall_false {A} (p : A -> bool) l :
  existsb p l = false -> Forall (fun x => p x = false) l.
Proof. induction l; simpl; [constructor|]. rewrite orb_false_iff. intros []. auto. Qed.

Lemma existsb_Forall_intro {A} (p : A -> bool) l :
  Forall (fun x => p x = false) l -> existsb p l = false.
Proof. induction 1; simpl; [done|]. by apply orb_false_iff. Qed.

Section Progress.
Context (lim : Limits).

Lemma string_loop_post fuel out rest :
  (length rest < fuel)%nat -> text out -> post (wf_string lim) rest (string_loop lim fuel out rest).
Proof.
  revert out rest. induction fuel as [|f IH]; intros out rest Hf Ho; [lia|].
  destruct rest as [|c r]; [done|]. simpl.
  destruct (Z.ltb_spec (max_string_bytes lim) (slen out)); [done|].
  destruct (Ascii.eqb_spec c dq) as [->|_]; [split; [simpl; lia|done]|].
  destruct (Z.ltb_spec (code c) 0x20); [done|]. simpl in Hf.
  destruct (Ascii.eqb_spec c "\") as [->|_]; simpl.
  - destruct r as [|e r1]; [split; [simpl; lia|done]|]. simpl in Hf.
    destruct (simple_escape e) as [x|] eqn:Ee.
    + eapply post_weaken; [apply IH; [lia|]|simpl; lia|done].
      apply text_app_ascii; [done|]. by apply simple_escape_range in Ee.
    + destruct (Ascii.eqb_spec e "u"); [|split; [simpl; lia|done]].
      eapply post_bind; [apply parse_unicode_post|simpl; lia|]. intros cp r2 Hr2 [Hs Hn].
      rewrite append_utf8_encode by apply Hs.
      eapply post_weaken; [apply IH; [lia|by apply text_app_encode]|simpl; lia|done].
  - eapply post_bind; [apply consume_utf8_post; lia|done|].
    intros u r2 Hr2 (cp & Hs & Hn & ->). simpl in Hr2.
    eapply post_weaken; [apply IH; [lia|by apply text_app_encode]|simpl; lia|done].
Qed.

Lemma parse_string_post rest : post (wf_string lim) rest (parse_string lim rest).
Proof. apply string_loop_post; [lia|apply text_nil]. Qed.

Lemma accumulate_spec limit digits acc :
  0 <= acc <= limit -> 9 <= limit -> Forall (fun c => is_digit c = true) digits ->
  match accumulate limit digits acc with
  | Some n => n = value_from acc digits /\ 0 <= n <= limit
  | None => limit < value_from acc digits
  end.
Proof.
  intros Ha Hl Hd. revert acc Ha. induction Hd as [|c ds Hc Hds IH]; intros acc Ha; simpl; [done|].
  apply is_digit_range in Hc. change (code "0") with 48.
  change (value_from acc (c :: ds)) with (value_from (acc * 10 + (code c - 48)) ds).
  destruct (Z.ltb_spec ((limit - (code c - 48)) / 10) acc) as [Hlt|Hge].
  - pose proof (value_from_ge (acc * 10 + (code c - 48)) ds ltac:(lia) Hds).
    assert (limit - (code c - 48) < 10 * acc); [|lia].
    apply Z.lt_nge. intros Hle. apply Z.div_le_lower_bound in Hle; lia.
  - apply IH. pose proof (Z.mul_div_le (limit - (code c - 48)) 10 ltac:(lia)). lia.
Qed.

Definition int_value (v : Value) : Prop := exists n, v = VInt n /\ is_int64 n.

Lemma number_value_post negative digits rest r :
  Forall (fun c => is_digit c = true) digits -> (length r < length rest)%nat ->
  post int_value rest (number_value negative digits r).
Proof.
  intros Hd Hr. unfold number_value. destruct (number_suffix r) as [msg|] eqn:Es.
  { split; [lia|]. revert Es. unfold number_suffix. repeat case_match; by intros [= <-]. }
  assert (0 <= 0 <= (if negative then 2 ^ 63 else INT64_MAX) /\
          9 <= (if negative then 2 ^ 63 else INT64_MAX)) as [H0 H9]
    by (unfold INT64_MAX; destruct negative; lia).
  pose proof (accumulate_spec _ digits 0 H0 H9 Hd) as Ha.
  destruct (accumulate _ digits 0) as [n|]; [|split; [lia|done]].
  split; [lia|]. eexists. split; [done|]. unfold is_int64, INT64_MIN, INT64_MAX in *.
  destruct negative; [destruct (Z.eqb_spec n 0)|]; lia.
Qed.

Lemma parse_number_post rest : post int_value rest (parse_number rest).
Proof.
  unfold parse_number.
  destruct (match rest with c :: r => if Ascii.eqb c "-" then (true, r) else (false, rest)
            | [] => (false, rest) end) as [negative r] eqn:E.
  assert (length r <= length rest)%nat as Hl.
  { destruct rest as [|c r0]; [by simplify_eq|]. destruct (Ascii.eqb c "-"); simplify_eq; simpl; lia. }
  destruct r as [|c r1]; [split; [simpl; lia|done]|].
  destruct (is_digit c) eqn:Hd; simpl; [|done]. simpl in Hl.
  destruct (Ascii.eqb_spec c "0") as [->|_].
  - assert (post int_value rest (number_value negative ["0"%char] r1)) as Hn
      by (apply number_value_post; [by apply Forall_singleton|lia]).
    destruct r1 as [|d r1]; [done|]. destruct (is_digit d); [split; [lia|done]|done].
  - destruct (span_digits r1) as [ds r2] eqn:Es. apply span_digits_spec in Es as (-> & Hds & _).
    rewrite length_app in Hl. rewrite Hd. apply number_value_post; [by constructor|lia].
Qed.

Lemma literal_post word rest : word <> [] -> post (fun _ => True) rest (literal word rest).
Proof.
  intros Hw. unfold literal. destruct (starts_with word rest) eqn:E; [|done].
  apply starts_with_length in E. simpl. rewrite length_drop. destruct word; [done|]. simpl in *.
  split; [lia|done].
Qed.

(** ** Objects and arrays, over any parser of the nested values *)

Section Nested.
Context (pv : bytes -> outcome Value) (P : Value -> Prop).
Hypothesis pv_post : forall r, post P r (pv r).

Definition object_value (v : Value) : Prop :=
  exists ms, v = VObject ms /\ (length ms <= max_members lim)%nat /\ NoDup (map fst ms) /\
    Forall (fun m => wf_string lim (fst m) /\ P (snd m)) ms.
Definition array_value (v : Value) : Prop :=
  exists es, v = VArray es /\ (length es <= max_elements lim)%nat /\ Forall P es.

Lemma members_loop_post fuel ms rest :
  (length rest < fuel)%nat -> object_value (VObject ms) ->
  post object_value rest (members_loop lim pv fuel ms rest).
Proof.
  revert ms rest. induction fuel as [|f IH]; intros ms rest Hf Hms; [lia|]. simpl.
  pose proof (skip_ws_length rest) as Hw. destruct (skip_ws rest) as [|c r1]; [done|]. simpl in Hw.
  destruct (Ascii.eqb c dq); simpl; [|done].
  eapply post_bind; [apply parse_string_post|lia|]. intros key r2 Hr2 Hkey.
  destruct (existsb _ ms) eqn:Ek; [split; [lia|done]|].
  destruct (Nat.leb_spec (max_members lim) (length ms)) as [|Hlt]; [split; [lia|done]|].
  pose proof (skip_ws_length r2). destruct (skip_ws r2) as [|c2 r4]; [split; [simpl; lia|done]|].
  simpl in *. destruct (Ascii.eqb c2 ":"); simpl; [|split; [simpl; lia|done]].
  pose proof (skip_ws_length r4).
  eapply post_bind; [apply pv_post|lia|]. intros v r5 Hr5 Hv.
  assert (object_value (VObject (ms ++ [(key, v)]))) as Hms'.
  { destruct Hms as (? & [= <-] & _ & Hn & Hall). eexists. split; [done|].
    rewrite length_app, map_app. simpl. split_and!; [lia| |].
    - apply NoDup_app. split_and!; [done| |apply NoDup_singleton].
      intros k Hk [= ->]%list_elem_of_singleton. apply list_elem_of_fmap in Hk as ([k' v'] & -> & Hin).
      apply existsb_Forall_false in Ek. rewrite Forall_forall in Ek. apply Ek in Hin. simpl in Hin.
      by rewrite beq_refl in Hin.
    - apply Forall_app. split; [done|]. by apply Forall_singleton. }
  pose proof (skip_ws_length r5). destruct (skip_ws r5) as [|c3 r7]; [split; [simpl; lia|done]|].
  simpl in *. destruct (Ascii.eqb c3 ","); [|destruct (Ascii.eqb c3 "}")].
  - eapply post_weaken; [apply IH; [lia|done]|lia|done].
  - split; [lia|done].
  - split; [simpl; lia|done].
Qed.

Lemma parse_object_post rest : post object_value rest (parse_object lim pv rest).
Proof.
  unfold parse_object. pose proof (skip_ws_length rest). destruct (skip_ws rest) as [|c r1]; [done|].
  assert (object_value (VObject [])) as H0.
  { eexists. split; [done|]. split_and!; [simpl; lia|constructor|constructor]. }
  destruct (Ascii.eqb c "}"); [split; [simpl in *; lia|done]|].
  eapply post_weaken; [apply members_loop_post; [lia|done]|done|done].
Qed.

Lemma elements_loop_post fuel es rest :
  (length rest < fuel)%nat -> array_value (VArray es) ->
  post array_value rest (elements_loop lim pv fuel es rest).
Proof.
  revert es rest. induction fuel as [|f IH]; intros es rest Hf Hes; [lia|]. simpl.
  pose proof (skip_ws_length rest) as Hw. destruct (skip_ws rest) as [|c r1] eqn:Er; [done|].
  destruct (Nat.leb_spec (max_elements lim) (length es)) as [|Hlt]; [split; [lia|done]|].
  eapply post_bind; [apply pv_post|lia|]. intros v r2 Hr2 Hv.
  assert (array_value (VArray (es ++ [v]))) as Hes'.
  { destruct Hes as (? & [= <-] & _ & Hall). eexists. split; [done|].
    rewrite length_app. simpl. split; [lia|]. apply Forall_app. split; [done|]. by apply Forall_singleton. }
  pose proof (skip_ws_length r2). destruct (skip_ws r2) as [|c3 r7]; [split; [simpl; lia|done]|].
  simpl in *. destruct (Ascii.eqb c3 ","); [|destruct (Ascii.eqb c3 "]")].
  - eapply post_weaken; [apply IH; [lia|done]|lia|done].
  - split; [lia|done].
  - split; [simpl; lia|done].
Qed.

Lemma parse_array_post rest : post array_value rest (parse_array lim pv rest).
Proof.
  unfold parse_array. pose proof (skip_ws_length rest). destruct (skip_ws rest) as [|c r1]; [done|].
  assert (array_value (VArray [])) as H0.
  { eexists. split; [done|]. split; [simpl; lia|constructor]. }
  destruct (Ascii.eqb c "]"); [split; [simpl in *; lia|done]|].
  eapply post_weaken; [apply elements_loop_post; [lia|done]|done|done].
Qed.
End Nested.

Lemma parse_value_post left rest : post (wf_value lim left) rest (parse_value lim left rest).
Proof.
  revert rest. induction left as [|l IH]; intros rest; simpl; [done|].
  destruct rest as [|c r]; [done|].
  destruct (Ascii.eqb c "{").
  { eapply post_weaken; [by apply parse_object_post|simpl; lia|]. intros v (ms & -> & ?). done. }
  destruct (Ascii.eqb c "[").
  { eapply post_weaken; [by apply parse_array_post|simpl; lia|]. intros v (es & -> & ?). done. }
  destruct (Ascii.eqb c dq).
  { eapply post_bind; [apply parse_string_post|simpl; lia|]. intros s r2 Hr2 Hs.
    split; [simpl; lia|done]. }
  destruct (Ascii.eqb c "t").
  { eapply post_bind; [by apply literal_post|done|]. intros _ r2 Hr2 _. by split. }
  destruct (Ascii.eqb c "f").
  { eapply post_bind; [by apply literal_post|done|]. intros _ r2 Hr2 _. by split. }
  destruct (Ascii.eqb c "n"); [done|].
  destruct (Ascii.eqb c "-" || is_digit c); [|done].
  eapply post_weaken; [apply parse_number_post|done|]. by intros v (n & -> & Hn).
Qed.
End Progress.

(** * Printing *)

Definition quoted (s : bytes) : bytes := dq :: escape s ++ [dq].

Fixpoint join (parts : list bytes) : bytes :=
  match parts with
  | [] => []
  | [p] => p
  | p :: ps => p ++ str "," ++ join ps
  end.

Fixpoint print (v : Value) : bytes :=
  match v with
  | VBool true => str "true"
  | VBool false => str "false"
  | VInt n => dec_signed n
  | VString s => quoted s
  | VArray elems => str "[" ++ join (map print elems) ++ str "]"
  | VObject members =>
      str "{" ++ join (map (fun m => quoted (fst m) ++ str ":" ++ print (snd m)) members) ++ str "}"
  end.

(** ** Strings are read back *)

Lemma hex_value_char d : 0 <= d < 16 -> hex_value (hex_char d) = d.
Proof.
  intros Hd. unfold hex_char, hex_value. change (code "0") with 48. change (code "9") with 57.
  change (code "a") with 97. change (code "f") with 102.
  destruct (Z.ltb_spec d 10); rewrite code_chr by lia.
  - rewrite (proj2 (andb_true_iff _ _)) by (rewrite !Z.leb_le; lia). lia.
  - rewrite (proj2 (andb_false_iff _ _)) by (rewrite !Z.leb_gt; lia).
    rewrite (proj2 (andb_true_iff _ _)) by (rewrite !Z.leb_le; lia). lia.
Qed.

Lemma parse_unicode_control n R :
  0 < n < 0x20 ->
  parse_unicode (str "00" ++ hex_char (n / 16) :: hex_char (n mod 16) :: R) = Parsed n R.
Proof.
  intros Hn. unfold parse_unicode, parse_hex4. simpl. unfold existsb. simpl.
  rewrite !hex_value_char by (Z.div_mod_to_equations; lia).
  rewrite !(proj2 (Z.ltb_ge _ _)) by (Z.div_mod_to_equations; lia). simpl.
  change (hex_value "0") with 0. change (Z.lor (Z.shiftl 0 4) 0) with 0.
  rewrite (shiftl_lor 0), shiftl_lor by (Z.div_mod_to_equations; lia).
  replace ((0 * 16 + n / 16) * 16 + n mod 16) with n by (Z.div_mod_to_equations; lia).
  rewrite (proj2 (Z.eqb_neq _ _)) by lia.
  rewrite !(proj2 (andb_false_iff _ _)) by (rewrite !Z.leb_gt; lia). done.
Qed.

Lemma escape_char_high c : 0x80 <= code c -> escape_char c = [c].
Proof.
  intros Hc. unfold escape_char.
  repeat match goal with
  | |- context [Ascii.eqb c ?d] =>
      destruct (Ascii.eqb_spec c d) as [->|_]; [by vm_compute in Hc|]
  end.
  by rewrite (proj2 (Z.ltb_ge _ _)) by lia.
Qed.

Lemma escape_app s t : escape (s ++ t) = escape s ++ escape t.
Proof. apply flat_map_app. Qed.

Lemma encode_high cp :
  0x80 <= cp < 0x110000 -> Forall (fun c => 0x80 <= code c) (utf8_encode cp).
Proof.
  intros Hc. unfold utf8_encode. rewrite (proj2 (Z.ltb_ge _ _)) by lia.
  destruct (Z.ltb_spec cp 0x800); [|destruct (Z.ltb_spec cp 0x10000)];
    repeat constructor; rewrite code_chr; Z.div_mod_to_equations; lia.
Qed.

Lemma escape_encode_high cp : 0x80 <= cp < 0x110000 -> escape (utf8_encode cp) = utf8_encode cp.
Proof.
  intros Hc. pose proof (encode_high cp Hc) as Hh. unfold escape.
  induction Hh as [|c s H _ IH]; simpl; [done|]. by rewrite escape_char_high, IH.
Qed.

Section Roundtrip.
Context (lim : Limits).

(** One character of text is one turn of the loop. *)
Lemma string_loop_step f out cp R :
  scalar cp -> cp <> 0 -> slen out <= max_string_bytes lim ->
  string_loop lim (S f) out (escape (utf8_encode cp) ++ R) = string_loop lim f (out ++ utf8_encode cp) R.
Proof.
  intros Hs Hn Hl. destruct (Z.lt_ge_cases cp 0x80) as [Hlt|Hge].
  - destruct (consume_utf8_complete cp R Hs) as (c & r & E & Hc & _ & Hcode).
    unfold utf8_encode in *. rewrite (proj2 (Z.ltb_lt _ _)) in * by lia.
    simpl in E. injection E as E1 E2. rewrite E1, E2 in *. specialize (Hcode Hlt).
    unfold escape. simpl flat_map. rewrite app_nil_r. unfold escape_char.
    repeat match goal with
    | |- context [Ascii.eqb c ?d] =>
        destruct (Ascii.eqb_spec c d) as [->|?];
          [simpl; rewrite (proj2 (Z.ltb_ge _ _)) by lia; reflexivity|]
    end.
    destruct (Z.ltb_spec (code c) 0x20).
    + simpl. rewrite (proj2 (Z.ltb_ge _ _)) by lia.
      pose proof (parse_unicode_control (code c) r ltac:(destruct Hs; lia)) as Hp. simpl in Hp.
      rewrite Hp. simpl. f_equal. f_equal. unfold append_utf8.
      rewrite (proj2 (Z.ltb_lt _ _)) by lia. by rewrite chr_code.
    + simpl. rewrite (proj2 (Z.ltb_ge _ _)) by lia.
      rewrite (proj2 (Ascii.eqb_neq c dq)), (proj2 (Ascii.eqb_neq c "\")) by done.
      rewrite (proj2 (Z.ltb_ge (code c) _)) by done. simpl. by rewrite Hc.
  - assert (0x80 <= cp < 0x110000) as Hb by (destruct Hs; lia).
    rewrite escape_encode_high by done.
    destruct (consume_utf8_complete cp R Hs) as (c & r & E & Hc & Hcode & _). rewrite E. simpl.
    rewrite (proj2 (Z.ltb_ge _ _)) by lia. specialize (Hcode ltac:(lia)).
    destruct (Ascii.eqb_spec c dq) as [->|_]; [by vm_compute in Hcode|].
    rewrite (proj2 (Z.ltb_ge _ _)) by lia.
    destruct (Ascii.eqb_spec c "\") as [->|_]; [by vm_compute in Hcode|]. simpl. by rewrite Hc.
Qed.

Lemma escape_char_nonempty c : (1 <= length (escape_char c))%nat.
Proof. unfold escape_char. repeat case_match; simpl; lia. Qed.

Lemma escape_length s : (length s <= length (escape s))%nat.
Proof.
  unfold escape. induction s as [|c s IH]; simpl; [lia|]. rewrite length_app.
  pose proof (escape_char_nonempty c). lia.
Qed.

Lemma encode_length cps : (length cps <= length (flat_map utf8_encode cps))%nat.
Proof.
  induction cps as [|cp cps IH]; simpl; [lia|]. rewrite length_app.
  pose proof (utf8_encode_nonempty cp). destruct (utf8_encode cp); [done|]. simpl. lia.
Qed.

Lemma string_loop_text cps f out R :
  Forall (fun cp => scalar cp /\ cp <> 0) cps -> (length cps < f)%nat ->
  slen (out ++ flat_map utf8_encode cps) <= max_string_bytes lim ->
  string_loop lim f out (escape (flat_map utf8_encode cps) ++ dq :: R)
  = Parsed (out ++ flat_map utf8_encode cps) R.
Proof.
  intros Hf. revert f out. induction Hf as [|cp cps [Hs Hn] _ IH]; intros f out Hlen Hmx; simpl in *.
  - destruct f as [|f]; [lia|]. rewrite app_nil_r in *. simpl. by rewrite (proj2 (Z.ltb_ge _ _)) by done.
  - destruct f as [|f]; [lia|]. rewrite escape_app, <- app_assoc.
    rewrite app_assoc in Hmx. rewrite string_loop_step; [|done|done|].
    + rewrite IH; [by rewrite <- app_assoc|lia|done].
    + rewrite !slen_app in Hmx. pose proof (slen_nonneg (utf8_encode cp)).
      pose proof (slen_nonneg (flat_map utf8_encode cps)). lia.
Qed.

Lemma parse_string_escape s R :
  wf_string lim s -> parse_string lim (escape s ++ dq :: R) = Parsed s R.
Proof.
  intros [(cps & Hf & ->) Hl]. unfold parse_string. rewrite string_loop_text; [done|done| |done].
  rewrite length_app. simpl. pose proof (encode_length cps). pose proof (escape_length (flat_map utf8_encode cps)). lia.
Qed.

(** ** Numbers are read back *)

(** What follows a value in a printed document. *)
Definition ends_value (R : bytes) : Prop :=
  match R with
  | [] => True
  | c :: _ => c = ","%char \/ c = "]"%char \/ c = "}"%char
  end.

Lemma ends_value_suffix R : ends_value R -> number_suffix R = None.
Proof. destruct R as [|c R]; [done|]. by intros [->|[->| ->]]. Qed.

Lemma ends_value_digits ds R :
  Forall (fun c => is_digit c = true) ds -> ends_value R -> span_digits (ds ++ R) = (ds, R).
Proof.
  intros Hd HR. induction Hd as [|c ds Hc _ IH]; simpl.
  - destruct R as [|c R]; [done|]. by destruct HR as [->|[->| ->]].
  - by rewrite Hc, IH.
Qed.

Lemma number_value_dec (negative : bool) n R :
  0 <= n <= (if negative then 2 ^ 63 else INT64_MAX) -> ends_value R ->
  number_value negative (dec n) R = Parsed (VInt (if negative then - n else n)) R.
Proof.
  intros Hn HR. unfold number_value. rewrite ends_value_suffix by done.
  assert (9 <= (if negative then 2 ^ 63 else INT64_MAX)) as H9
    by (unfold INT64_MAX; destruct negative; lia).
  pose proof (accumulate_spec (if negative then 2 ^ 63 else INT64_MAX) (dec n) 0 ltac:(lia) H9 (dec_digits n ltac:(lia))) as Ha.
  change (value_from 0 (dec n)) with (dec_value (dec n)) in Ha. rewrite dec_value_dec in Ha by lia.
  destruct (accumulate _ (dec n) 0) as [m|]; [|lia]. destruct Ha as [-> _].
  f_equal. f_equal. destruct negative; [destruct (Z.eqb_spec n 0)|]; lia.
Qed.

Lemma dec_cons n : 0 <= n -> exists c ds, dec n = c :: ds /\ is_digit c = true /\
  (c = "0"%char -> n = 0 /\ ds = []).
Proof.
  intros Hn. pose proof (dec_digits n Hn) as Hd. pose proof (dec_nonempty n) as Hne.
  destruct (decide (n = 0)) as [->|Hz]; [by exists "0"%char, []|].
  pose proof (dec_head n ltac:(lia)) as Hh. destruct (dec n) as [|c ds]; [done|].
  exists c, ds. apply Forall_cons in Hd as [Hc _]. split_and!; [done|done|]. by intros ->.
Qed.

Lemma parse_digits (negative : bool) n R :
  0 <= n <= (if negative then 2 ^ 63 else INT64_MAX) -> ends_value R ->
  match (dec n ++ R)%list with
  | c :: r1 =>
      if negb (is_digit c) then Refused (str "number has no digits") (dec n ++ R)
      else if Ascii.eqb c "0" then
        match r1 with
        | d :: _ => if is_digit d then Refused (str "leading zeros are not permitted") r1
                    else number_value negative [c] r1
        | [] => number_value negative [c] r1
        end
      else let '(digits, r2) := span_digits (dec n ++ R) in number_value negative digits r2
  | [] => Refused (str "number has no digits") (dec n ++ R)
  end = Parsed (VInt (if negative then - n else n)) R.
Proof.
  intros Hn HR. pose proof (number_value_dec negative n R Hn HR) as Hv.
  pose proof (ends_value_digits (dec n) R (dec_digits n ltac:(lia)) HR) as Hs.
  destruct (dec_cons n ltac:(lia)) as (c & ds & E & Hc & H0). rewrite E in *.
  change ((c :: ds) ++ R) with (c :: ds ++ R) in *. cbv beta iota. rewrite Hc.
  destruct (Ascii.eqb_spec c "0") as [->|_]; simpl negb; cbv iota.
  - destruct (H0 eq_refl) as [-> ->]. destruct R as [|d R]; [done|].
    by destruct HR as [->|[->| ->]].
  - by rewrite Hs.
Qed.

Lemma parse_number_dec n R :
  is_int64 n -> ends_value R -> parse_number (dec_signed n ++ R) = Parsed (VInt n) R.
Proof.
  unfold is_int64, INT64_MIN. intros Hn HR. unfold parse_number, dec_signed.
  destruct (Z.ltb_spec n 0).
  - pose proof (parse_digits true (- n) R ltac:(lia) HR) as Hp.
    rewrite <- app_comm_cons. cbv beta iota.
    rewrite Ascii.eqb_refl. rewrite Hp. by rewrite Z.opp_involutive.
  - pose proof (parse_digits false n R ltac:(lia) HR) as Hp.
    destruct (dec_cons n ltac:(lia)) as (c & ds & E & Hc & _). rewrite E in *.
    change ((c :: ds) ++ R) with (c :: ds ++ R) in *. cbv beta iota in Hp |- *.
    destruct (Ascii.eqb_spec c "-") as [->|_]; [done|]. exact Hp.
Qed.

(** ** Structures are read back *)

Lemma skip_ws_other c r : is_ws c = false -> skip_ws (c :: r) = c :: r.
Proof. unfold skip_ws. simpl. by intros ->. Qed.

Definition member_text (m : bytes * Value) : bytes := quoted (fst m) ++ str ":" ++ print (snd m).

Section Nested.
Context (pv : bytes -> outcome Value).

(** The nested parser reads back [v]. *)
Definition reads (v : Value) : Prop :=
  (exists c r, print v = c :: r /\ is_ws c = false /\ c <> "]"%char) /\
  forall R, ends_value R -> pv (print v ++ R) = Parsed v R.

Lemma member_step fuel acc k v R :
  wf_string lim k -> reads v -> existsb (fun x => fst x == k) acc = false ->
  (length acc < max_members lim)%nat -> ends_value R ->
  members_loop lim pv (S fuel) acc (member_text (k, v) ++ R) =
    match skip_ws R with
    | [] => Refused (str "unterminated object") (skip_ws R)
    | c :: r => if Ascii.eqb c "," then members_loop lim pv fuel (acc ++ [(k, v)]) r
                else if Ascii.eqb c "}" then Parsed (VObject (acc ++ [(k, v)])) r
                else Refused (str "expected ',' or '}' in object") (skip_ws R)
    end.
Proof.
  intros Hk [(c & r & Ec & Hws & _) Hv] Hdup Hmax HR.
  replace (member_text (k, v) ++ R) with (dq :: escape k ++ dq :: ":"%char :: print v ++ R).
  2: { unfold member_text, quoted. simpl. by rewrite <- !app_assoc. }
  cbn [members_loop]. rewrite skip_ws_other, Ascii.eqb_refl by done. cbn [negb].
  rewrite parse_string_escape by done. cbn [obind].
  rewrite Hdup, (proj2 (Nat.leb_gt _ _)) by lia.
  rewrite skip_ws_other by done. change (":" =? ":")%char with true. cbn [negb].
  assert (skip_ws (print v ++ R) = print v ++ R) as -> by (rewrite Ec; by apply skip_ws_other).
  by rewrite Hv.
Qed.

Lemma element_step fuel acc v R :
  reads v -> (length acc < max_elements lim)%nat -> ends_value R ->
  elements_loop lim pv (S fuel) acc (print v ++ R) =
    match skip_ws R with
    | [] => Refused (str "unterminated array") (skip_ws R)
    | c :: r => if Ascii.eqb c "," then elements_loop lim pv fuel (acc ++ [v]) r
                else if Ascii.eqb c "]" then Parsed (VArray (acc ++ [v])) r
                else Refused (str "expected ',' or ']' in array") (skip_ws R)
    end.
Proof.
  intros [(c & r & Ec & Hws & _) Hv] Hmax HR. cbn [elements_loop].
  assert (skip_ws (print v ++ R) = c :: r ++ R) as -> by (rewrite Ec; by apply skip_ws_other).
  rewrite (proj2 (Nat.leb_gt _ _)) by lia.
  replace (c :: r ++ R) with (print v ++ R) by by rewrite Ec. by rewrite Hv.
Qed.

Lemma members_loop_print ms : forall m fuel acc R,
  Forall (fun m => wf_string lim (fst m) /\ reads (snd m)) (m :: ms) ->
  (length (m :: ms) <= fuel)%nat -> (length acc + length (m :: ms) <= max_members lim)%nat ->
  NoDup (map fst (acc ++ m :: ms)) ->
  members_loop lim pv fuel acc (join (map member_text (m :: ms)) ++ "}"%char :: R)
  = Parsed (VObject (acc ++ m :: ms)) R.
Proof.
  induction ms as [|m' ms IH]; intros [k v] fuel acc R Hf Hfuel Hmax Hnd;
    apply Forall_cons in Hf as [[Hk Hv] Hf]; simpl in Hk, Hv, Hfuel, Hmax;
    (destruct fuel as [|fuel]; [lia|]);
    (assert (existsb (fun x => fst x == k) acc = false) as Hdup;
     [apply existsb_Forall_intro, Forall_forall; intros [k' v'] Hin; simpl; apply beq_neq; intros ->;
      rewrite map_app in Hnd; apply NoDup_app in Hnd as (_ & Hd & _);
      apply (Hd k); [apply list_elem_of_fmap; by exists (k, v')|simpl; left]|]).
  - cbn [join map]. rewrite member_step; [|done|done|done|lia|simpl; auto]. by rewrite skip_ws_other.
  - change (join (map member_text ((k, v) :: m' :: ms)))
      with (member_text (k, v) ++ ","%char :: join (map member_text (m' :: ms))).
    rewrite <- app_assoc, <- app_comm_cons.
    rewrite member_step; [|done|done|done|lia|simpl; auto]. rewrite skip_ws_other by done.
    change ("," =? ",")%char with true. cbv iota.
    rewrite IH; [by rewrite <- app_assoc|done|simpl; lia|rewrite length_app; simpl; lia|].
    by rewrite <- app_assoc.
Qed.

Lemma elements_loop_print es : forall e fuel acc R,
  Forall reads (e :: es) ->
  (length (e :: es) <= fuel)%nat -> (length acc + length (e :: es) <= max_elements lim)%nat ->
  elements_loop lim pv fuel acc (join (map print (e :: es)) ++ "]"%char :: R)
  = Parsed (VArray (acc ++ e :: es)) R.
Proof.
  induction es as [|e' es IH]; intros e fuel acc R Hf Hfuel Hmax;
    apply Forall_cons in Hf as [He Hf]; simpl in Hfuel, Hmax;
    (destruct fuel as [|fuel]; [lia|]).
  - cbn [join map]. rewrite element_step; [|done|lia|simpl; auto]. by rewrite skip_ws_other.
  - change (join (map print (e :: e' :: es))) with (print e ++ ","%char :: join (map print (e' :: es))).
    rewrite <- app_assoc, <- app_comm_cons.
    rewrite element_step; [|done|lia|simpl; auto]. rewrite skip_ws_other by done.
    change ("," =? ",")%char with true. cbv iota.
    rewrite IH; [by rewrite <- app_assoc|done|simpl; lia|rewrite length_app; simpl; lia].
Qed.
End Nested.

Lemma join_length parts : Forall (fun p => p <> []) parts -> (length parts <= length (join parts))%nat.
Proof.
  induction 1 as [|p ps Hp Hps IH]; [done|].
  destruct p as [|c p]; [done|]. destruct ps as [|q ps]; [simpl; lia|].
  change (join ((c :: p) :: q :: ps)) with ((c :: p) ++ str "," ++ join (q :: ps)).
  rewrite length_app. simpl in *. lia.
Qed.

Lemma digit_head c : is_digit c = true -> is_ws c = false /\ c <> "]"%char.
Proof.
  intros Hc. split; [|by intros ->]. unfold is_ws.
  repeat (apply orb_false_iff; split); apply Ascii.eqb_neq; intros ->; done.
Qed.

Lemma reads_object left ms :
  (forall v, wf_value lim left v -> reads (parse_value lim left) v) ->
  wf_value lim (S left) (VObject ms) -> reads (parse_value lim (S left)) (VObject ms).
Proof.
  intros IH (Hmax & Hnd & Hf). split; [by eexists _, _|]. intros R HR.
  change (print (VObject ms)) with ("{"%char :: join (map member_text ms) ++ str "}").
  rewrite <- app_comm_cons, <- app_assoc. change (str "}" ++ R) with ("}"%char :: R).
  cbn [parse_value]. change ("{" =? "{")%char with true. cbv iota. unfold parse_object.
  destruct ms as [|m ms]; [reflexivity|].
  assert (exists r, join (map member_text (m :: ms)) ++ "}"%char :: R = dq :: r) as [r Er].
  { destruct ms; eexists; reflexivity. }
  rewrite Er, skip_ws_other by done. change (dq =? "}")%char with false. cbv iota. rewrite <- Er.
  rewrite members_loop_print; [done| | |simpl in *; lia|done].
  - eapply Forall_impl; [exact Hf|]. intros x [Hk Hv]. auto.
  - assert (Forall (fun p => p <> []) (map member_text (m :: ms))) as Hne by by apply Forall_map, Forall_true.
    pose proof (join_length _ Hne) as Hj. rewrite length_map in Hj. rewrite length_app. lia.
Qed.

Lemma reads_array left es :
  (forall v, wf_value lim left v -> reads (parse_value lim left) v) ->
  wf_value lim (S left) (VArray es) -> reads (parse_value lim (S left)) (VArray es).
Proof.
  intros IH (Hmax & Hf). split; [by eexists _, _|]. intros R HR.
  change (print (VArray es)) with ("["%char :: join (map print es) ++ str "]").
  rewrite <- app_comm_cons, <- app_assoc. change (str "]" ++ R) with ("]"%char :: R).
  cbn [parse_value]. change ("[" =? "{")%char with false. change ("[" =? "[")%char with true. cbv iota.
  unfold parse_array. destruct es as [|e es]; [reflexivity|].
  assert (Forall (reads (parse_value lim left)) (e :: es)) as Hr by (eapply Forall_impl; [exact Hf|auto]).
  assert (exists c r, join (map print (e :: es)) ++ "]"%char :: R = c :: r /\ is_ws c = false /\
            c <> "]"%char) as (c & r & Er & Hws & Hb).
  { apply Forall_cons in Hr as [[(c & r & Ec & Hws & Hb) _] _].
    destruct es as [|e' es].
    - cbn [join map]. rewrite Ec. by eexists c, _.
    - change (join (map print (e :: e' :: es))) with (print e ++ ","%char :: join (map print (e' :: es))).
      rewrite Ec. by eexists c, _. }
  rewrite Er, skip_ws_other by done. rewrite (proj2 (Ascii.eqb_neq _ _) Hb). cbv iota. rewrite <- Er.
  rewrite elements_loop_print; [done|done| |simpl in *; lia].
  assert (Forall (fun p => p <> []) (map print (e :: es))) as Hne.
  { apply Forall_map. eapply Forall_impl; [exact Hr|]. intros x [(cx & rx & Ex & _) _]. simpl. by rewrite Ex. }
  pose proof (join_length _ Hne) as Hj. rewrite length_map in Hj. rewrite length_app. lia.
Qed.

Lemma parse_value_print left v : wf_value lim left v -> reads (parse_value lim left) v.
Proof.
  revert v. induction left as [|l IH]; intros v Hv; [done|].
  destruct v as [b|n|s|es|ms].
  - split; [by destruct b; eexists _, _|]. intros R _. by destruct b.
  - simpl in Hv. assert (exists c r, dec_signed n = c :: r /\ (c = "-"%char \/ is_digit c = true))
      as (c & r & Ec & Hc).
    { unfold dec_signed. destruct (Z.ltb_spec n 0); [by eexists _, _; auto|].
      destruct (dec_cons n ltac:(lia)) as (c & ds & -> & Hd & _). eauto. }
    split.
    + exists c, r. split; [done|]. destruct Hc as [-> | Hc]; [done|by apply digit_head].
    + intros R HR. pose proof (parse_number_dec n R Hv HR) as Hp. cbn [print]. rewrite Ec in *.
      rewrite <- app_comm_cons in *. cbn [parse_value]. rewrite Hp.
      repeat match goal with
      | |- (if Ascii.eqb c ?d then _ else _) = _ =>
          destruct (Ascii.eqb_spec c d) as [->|_]; [by destruct Hc|]
      end.
      assert (Ascii.eqb c "-" || is_digit c = true) as ->; [|done].
      destruct Hc as [-> | ->]; [done|apply orb_true_r].
  - split; [by eexists _, _|]. intros R _. cbn [print]. unfold quoted.
    rewrite <- app_comm_cons, <- app_assoc. cbn [parse_value].
    change (dq =? "{")%char with false. change (dq =? "[")%char with false.
    change (dq =? dq)%char with true. cbv iota. change ([dq] ++ R) with (dq :: R).
    by rewrite parse_string_escape.
  - by apply reads_array.
  - by apply reads_object.
Qed.
End Roundtrip.

(** A printed document is read back. *)
Lemma parse_print lim ms :
  wf_value lim (max_depth lim) (VObject ms) -> slen (print (VObject ms)) <= max_input_bytes lim ->
  parse lim (print (VObject ms)) = Some (Ok (VObject ms)).
Proof.
  intros Hw Hl. unfold parse. rewrite (proj2 (Z.ltb_ge _ _)) by done.
  destruct (parse_value_print lim _ _ Hw) as [_ Hp]. specialize (Hp [] I). rewrite app_nil_r in Hp.
  change (print (VObject ms)) with ("{"%char :: join (map member_text ms) ++ str "}") in *.
  change (starts_with byte_order_mark _) with false. cbv iota. rewrite skip_ws_other by done.
  change ("{" =? "{")%char with true. cbn [negb]. by rewrite Hp.
Qed.

(** Every answer of the parser. *)
Lemma parse_sound lim input :
  exists r, parse lim input = Some r /\
  match r with
  | Ok v => slen input <= max_input_bytes lim /\ wf_value lim (max_depth lim) v /\
            exists ms, v = VObject ms
  | Error e => e <> []
  end.
Proof.
  unfold parse. destruct (Z.ltb_spec (max_input_bytes lim) (slen input)); [by eexists|].
  destruct (starts_with byte_order_mark input); [by eexists|].
  destruct (skip_ws input) as [|c r]; [by eexists|].
  destruct (Ascii.eqb_spec c "{") as [->|_]; simpl negb; cbv iota; [|by eexists].
  pose proof (parse_value_post lim (max_depth lim) ("{"%char :: r)) as Hp.
  destruct (parse_value lim (max_depth lim) ("{"%char :: r)) as [v r1|msg r1|] eqn:E; simpl in Hp; [| |done].
  - destruct (skip_ws r1); eexists; (split; [done|]); [|done]. split_and!; [done|tauto|].
    destruct (max_depth lim) as [|d]; [done|]. simpl in E.
    pose proof (parse_object_post lim _ _ (parse_value_post lim d) r) as Ho. rewrite E in Ho.
    destruct Ho as (_ & ms & -> & _). by exists ms.
  - eexists. split; [done|]. unfold fail_at. by destruct msg; [destruct Hp|].
Qed.

(** * Theorems *)

(** C27. [json::parse] is total and safe on every input: it always answers, a refusal has
    a message, and an accepted document is an object of the ADR-0009 subset within every
    limit: at most [max_depth] levels, [max_members] members with distinct names,
    [max_elements] elements, strings of at most [max_string_bytes] bytes that are valid
    UTF-8 without NUL, integers of 64 bits. *)
Theorem json_parse_sound lim input :
  exists r, parse lim input = Some r /\
  match r with
  | Ok v => slen input <= max_input_bytes lim /\ wf_value lim (max_depth lim) v /\
            exists ms, v = VObject ms
  | Error e => e <> []
  end.
Proof. apply parse_sound. Qed.

(** C26. Every document of the subset has an accepted text, and it is read back exactly:
    parsing the printed form of a well-formed object, with its strings written by
    [escape], gives the object. *)
Theorem json_roundtrip lim ms :
  wf_value lim (max_depth lim) (VObject ms) -> slen (print (VObject ms)) <= max_input_bytes lim ->
  parse lim (print (VObject ms)) = Some (Ok (VObject ms)).
Proof. apply parse_print. Qed.

(** [escape] round trip, as json.hpp promises it, for text: a string of scalar
    values without NUL, of at most [max_string_bytes] bytes, is read back from its
    escaped form whatever follows the closing quote. *)
Theorem escape_roundtrip lim s rest :
  text s -> slen s <= max_string_bytes lim ->
  parse_string lim (escape s ++ dq :: rest) = Parsed s rest.
Proof. intros Ht Hl. apply parse_string_escape. by split. Qed.

(** The promise fails for a NUL, whose escape the parser refuses, and for bytes that are
    not UTF-8. *)
Example escape_not_exact :
  parse_string default_limits (escape [nul] ++ [dq])
    = Refused (str "embedded NUL is not permitted") [dq] /\
  parse_string default_limits (escape [chr 0xFF] ++ [dq])
    = Refused (str "invalid UTF-8 lead byte in string") [chr 0xFF; dq].
Proof. done. Qed.

(** ** Witnesses *)

Definition demo_members : list (bytes * Value) :=
  [(str "source", VString (str "/in/a")); (str "n", VInt (-12));
   (str "list", VArray [VBool true; VString [chr 0xC3; chr 0xA9; lf]])].

Lemma ascii_text s : forallb (fun c => (0 <? code c) && (code c <? 0x80)) s = true -> text s.
Proof.
  induction s as [|c s IH] using rev_ind; [intros _; apply text_nil|].
  rewrite forallb_app. simpl. rewrite andb_true_r. intros [Hs Hc]%andb_true_iff.
  apply text_app_ascii; [by apply IH|]. lia.
Qed.

Lemma demo_text : text [chr 0xC3; chr 0xA9; lf].
Proof. exists [0xE9; 10]. split; [repeat constructor; lia|reflexivity]. Qed.

Lemma json_roundtrip_witness :
  parse default_limits (print (VObject demo_members)) = Some (Ok (VObject demo_members)).
Proof.
  apply (json_roundtrip default_limits demo_members).
  - simpl. unfold wf_string.
    split_and!; [lia| |].
    + apply (bool_decide_unpack (NoDup [str "source"; str "n"; str "list"])). reflexivity.
    + repeat constructor; try (by apply ascii_text); try apply demo_text; vm_compute; congruence.
  - vm_compute. congruence.
Defined.

Lemma escape_roundtrip_witness :
  parse_string default_limits (escape [chr 0xC3; chr 0xA9; lf] ++ dq :: str "}")
  = Parsed [chr 0xC3; chr 0xA9; lf] (str "}").
Proof. apply (escape_roundtrip default_limits); [apply demo_text|vm_compute; congruence]. Defined.
