(* ===== verification/ApiCodec.v ===== *)
(** The REST codec: src/cpp/src/api_codec.cpp and
    src/cpp/include/filemover/api_codec.hpp. *)

From S2P Require Import Prelude Job Json.

Record SubmitRequest := mkSubmit { sub_source : bytes; sub_dest : bytes }.

Definition kMaxPathBytes : Z := 4096.
Definition submit_limits : Limits := mkLimits 2 (16 * 1024) kMaxPathBytes 8 8.

Definition require_string (object : Value) (name : bytes) : result bytes bytes :=
  match Json.find name object with
  | None => Error (qstr "missing required member '" ++ name ++ [dq])
  | Some (VString s) =>
      if s == [] then Error (qstr "member '" ++ name ++ qstr "' must not be empty")
      else if kMaxPathBytes <? slen s then
        Error (qstr "member '" ++ name ++ qstr "' exceeds the maximum path length")
      else Ok s
  | Some _ => Error (qstr "member '" ++ name ++ qstr "' must be a string")
  end.

Definition is_submit_key (key : bytes) : bool := (key == str "source") || (key == str "dest").

(** The first member that is neither [source] nor [dest]. *)
Definition unknown_member (members : list (bytes * Value)) : option bytes :=
  fst <$> List.find (fun m => negb (is_submit_key (fst m))) members.

(** The validation of a parsed body. *)
Definition decode_parsed (parsed : result Value bytes) : result SubmitRequest bytes :=
  match parsed with
  | Error e => Error e
  | Ok (VObject members as root) =>
      match unknown_member members with
      | Some key => Error (qstr "unknown member '" ++ escape key ++ [dq])
      | None =>
          match require_string root (str "source") with
          | Error e => Error e
          | Ok source =>
              match require_string root (str "dest") with
              | Error e => Error e
              | Ok dest => Ok (mkSubmit source dest)
              end
          end
      end
  | Ok _ => Error (str "request body must be a JSON object")
  end.

(** [None] would be the JSON parser out of fuel. *)
Definition decode_submit_request (body : bytes) : option (result SubmitRequest bytes) :=
  decode_parsed <$> parse submit_limits body.

(** * Encoding *)

Definition comma (trailing : bool) : bytes := if trailing then str "," else [].
Definition string_member (name value : bytes) (trailing_comma : bool) : bytes :=
  [dq] ++ name ++ qstr "':'" ++ escape value ++ [dq] ++ comma trailing_comma.
Definition int_member (name : bytes) (value : Z) (trailing_comma : bool) : bytes :=
  [dq] ++ name ++ qstr "':" ++ dec_signed value ++ comma trailing_comma.

Definition to_int64_clamped (value : Z) : Z :=
  if INT64_MAX <? value then INT64_MAX else value.

Definition encode_job (job : Job) : bytes :=
  str "{"
  ++ string_member (str "id") (id job) true
  ++ string_member (str "source") (source_path job) true
  ++ string_member (str "dest") (dest_path job) true
  ++ string_member (str "state") (to_string (state job)) true
  ++ int_member (str "created_at_ms") (created_at_ms job) true
  ++ int_member (str "updated_at_ms") (updated_at_ms job) true
  ++ int_member (str "finished_at_ms") (finished_at_ms job) true
  ++ int_member (str "bytes_total") (to_int64_clamped (bytes_total job)) true
  ++ int_member (str "bytes_moved") (to_int64_clamped (bytes_moved job)) true
  ++ string_member (str "error") (Job.error job) false
  ++ str "}".

Definition encode_job_list (jobs : list Job) : bytes :=
  qstr "{'jobs':[" ++ join (map encode_job jobs) ++ str "]}".

Definition encode_error (message : bytes) : bytes :=
  qstr "{'error':'" ++ escape message ++ qstr "'}".

(** * Decoding *)

Lemma find_member key v ms :
  NoDup (map fst ms) -> Json.find key (VObject ms) = Some v <-> (key, v) ∈ ms.
Proof.
  intros Hn. simpl. induction ms as [|[k w] ms IH]; simpl in *; [set_solver|].
  apply NoDup_cons in Hn as [Hk Hn]. destruct (k == key) eqn:E; bool_prop; simpl.
  - subst k. split; [intros [= ->]; left|].
    intros [[= ->]|Hin]%elem_of_cons; [done|]. destruct Hk. apply list_elem_of_fmap. by exists (key, v).
  - rewrite IH by done. split; [by right|]. intros [[= -> ->]|?]%elem_of_cons; done.
Qed.

Lemma require_string_Ok v name s :
  require_string v name = Ok s <->
  Json.find name v = Some (VString s) /\ s <> [] /\ slen s <= kMaxPathBytes.
Proof.
  unfold require_string. split.
  - destruct (Json.find name v) as [[]|]; try done. destruct (s0 == []) eqn:E; [done|]. bool_prop.
    destruct (Z.ltb_spec kMaxPathBytes (slen s0)); [done|]. by intros [= ->].
  - intros (-> & Hne & Hl). rewrite (proj2 (beq_neq _ _) Hne). by rewrite (proj2 (Z.ltb_ge _ _)).
Qed.

Lemma unknown_member_None ms :
  unknown_member ms = None <-> Forall (fun m => fst m = str "source" \/ fst m = str "dest") ms.
Proof.
  unfold unknown_member. induction ms as [|m ms IH]; simpl; [by split|].
  rewrite Forall_cons, <- IH. unfold is_submit_key.
  destruct (fst m == str "source") eqn:E1, (fst m == str "dest") eqn:E2; bool_prop; simpl; try tauto.
  split; [done|]. intros [[? | ?] _]; done.
Qed.

(** The two members of a submission, in either order. *)
Definition submit_members (r : SubmitRequest) : list (bytes * Value) :=
  [(str "source", VString (sub_source r)); (str "dest", VString (sub_dest r))].

Lemma submit_members_NoDup r : NoDup (map fst (submit_members r)).
Proof. apply (bool_decide_unpack (NoDup [str "source"; str "dest"])). reflexivity. Qed.

(** The value of an encoded job. *)
Definition job_value (job : Job) : Value :=
  VObject
    [(str "id", VString (id job)); (str "source", VString (source_path job));
     (str "dest", VString (dest_path job)); (str "state", VString (to_string (state job)));
     (str "created_at_ms", VInt (created_at_ms job)); (str "updated_at_ms", VInt (updated_at_ms job));
     (str "finished_at_ms", VInt (finished_at_ms job));
     (str "bytes_total", VInt (to_int64_clamped (bytes_total job)));
     (str "bytes_moved", VInt (to_int64_clamped (bytes_moved job)));
     (str "error", VString (Job.error job))].

(** The fields the wire format can carry. *)
Definition encodable (job : Job) : Prop :=
  Forall (wf_string default_limits) [id job; source_path job; dest_path job; Job.error job] /\
  Forall is_int64 [created_at_ms job; updated_at_ms job; finished_at_ms job] /\
  0 <= bytes_total job /\ 0 <= bytes_moved job.

Lemma clamped_int64 n : 0 <= n -> is_int64 (to_int64_clamped n).
Proof.
  intros Hn. unfold to_int64_clamped, is_int64, INT64_MIN. destruct (Z.ltb_spec INT64_MAX n);
    unfold INT64_MAX in *; lia.
Qed.

Lemma encode_job_print job : encode_job job = print (job_value job).
Proof.
  unfold encode_job, string_member, int_member, comma. simpl. unfold quoted.
  repeat first [rewrite <- app_assoc | progress cbn [app]]. reflexivity.
Qed.

(** * Theorems *)

(** [decode_submit_request] accepts exactly the bodies of L3-CPP-025/026: JSON objects
    whose members are [source] and [dest], in either order, both non-empty strings; it
    returns them, and answers every other body with an error. *)
Theorem decode_submit_spec body :
  exists r, decode_submit_request body = Some r /\
  match r with
  | Ok req => sub_source req <> [] /\ sub_dest req <> [] /\
      exists ms, parse submit_limits body = Some (Ok (VObject ms)) /\ ms ≡ₚ submit_members req
  | Error e => e <> [] /\
      forall ms req, parse submit_limits body = Some (Ok (VObject ms)) -> ms ≡ₚ submit_members req ->
        sub_source req = [] \/ sub_dest req = []
  end.
Proof.
  destruct (parse_sound submit_limits body) as (p & Ep & Hp).
  exists (decode_parsed p). split; [unfold decode_submit_request; by rewrite Ep|].
  unfold decode_parsed. destruct p as [v|e]; [|split; [done|]; congruence].
  destruct Hp as (_ & Hw & ms & ->). destruct Hw as (_ & Hnd & Hf).
  assert (forall ms' req, parse submit_limits body = Some (Ok (VObject ms')) ->
    ms' ≡ₚ submit_members req ->
    Forall (fun m => fst m = str "source" \/ fst m = str "dest") ms /\
    (str "source", VString (sub_source req)) ∈ ms /\ (str "dest", VString (sub_dest req)) ∈ ms) as Hperm.
  { intros ms' req E Hm. assert (ms' = ms) as -> by congruence. rewrite !Hm. split_and!.
    - apply Forall_cons_2; [by left|]. apply Forall_cons_2; [by right|apply Forall_nil_2].
    - left.
    - right. left. }
  assert (forall e : bytes, e <> [] -> (forall req, ms ≡ₚ submit_members req -> sub_source req = [] \/ sub_dest req = []) ->
    e <> [] /\ forall ms' req, parse submit_limits body = Some (Ok (VObject ms')) -> ms' ≡ₚ submit_members req ->
      sub_source req = [] \/ sub_dest req = []) as Hrefuse.
  { intros e He H. split; [done|]. intros ms' req E. assert (ms' = ms) as -> by congruence. apply H. }
  destruct (unknown_member ms) as [key|] eqn:Eu.
  { apply Hrefuse; [done|]. intros req Hm.
    destruct (Hperm ms req Ep Hm) as (Hall & _). apply unknown_member_None in Hall. congruence. }
  apply unknown_member_None in Eu. rewrite Forall_forall in Hf.
  assert (forall key s, (key, VString s) ∈ ms -> s <> [] ->
    require_string (VObject ms) key = Ok s) as Hget.
  { intros key s Hin Hne. apply require_string_Ok. split_and!; [by apply find_member|done|].
    apply Hf in Hin as [_ [_ Hl]]. exact Hl. }
  destruct (require_string (VObject ms) (str "source")) as [src|e] eqn:Es.
  2: { apply Hrefuse.
       - revert Es. unfold require_string. repeat case_match; by intros [= <-].
       - intros req Hm. destruct (Hperm ms req Ep Hm) as (_ & Hs & _).
         destruct (decide (sub_source req = [])); [by left|]. rewrite (Hget _ _ Hs) in Es; done. }
  destruct (require_string (VObject ms) (str "dest")) as [dst|e] eqn:Ed.
  2: { apply Hrefuse.
       - revert Ed. unfold require_string. repeat case_match; by intros [= <-].
       - intros req Hm. destruct (Hperm ms req Ep Hm) as (_ & _ & Hs).
         destruct (decide (sub_dest req = [])); [by right|]. rewrite (Hget _ _ Hs) in Ed; done. }
  apply require_string_Ok in Es as (Es & Hs & _), Ed as (Ed & Hd & _).
  apply find_member in Es, Ed; [|done..].
  split_and!; [done|done|]. exists ms. split; [done|].
  apply NoDup_Permutation; [by eapply NoDup_fmap_1|eapply NoDup_fmap_1, submit_members_NoDup|].
  intros [k v]. split.
  - intros Hin. rewrite Forall_forall in Eu. destruct (Eu _ Hin) as [Hk|Hk]; simpl in Hk; subst k;
      apply find_member in Hin, Es, Ed; try done; simplify_eq; [left|right; left].
  - intros [[= -> ->]|[[= -> ->]|?%elem_of_nil]%elem_of_cons]%elem_of_cons; done.
Qed.

(** An encoded job is read back field by field (L3-CPP-029/030): for a job whose
    strings are text and whose times are 64-bit, the output of [encode_job] parses to
    the object with its ten members, the byte counters clamped to 64 bits. *)
Theorem encode_job_roundtrip job :
  encodable job -> slen (encode_job job) <= max_input_bytes default_limits ->
  parse default_limits (encode_job job) = Some (Ok (job_value job)).
Proof.
  intros (Hs & Ht & Hb1 & Hb2) Hl. rewrite encode_job_print in *. apply parse_print; [|done].
  rewrite !Forall_cons in Hs. rewrite !Forall_cons in Ht. destruct Hs as (? & ? & ? & ? & _), Ht as (? & ? & ? & _).
  assert (forall s, forallb (fun c => (0 <? code c) && (code c <? 0x80)) s = true -> slen s <= 4096 ->
    wf_string default_limits s) as Hlit by (intros s Ha Hn; split; [by apply ascii_text|exact Hn]).
  split_and!; [simpl; lia| |].
  - apply (bool_decide_unpack (NoDup _)). vm_compute. reflexivity.
  - repeat apply Forall_cons_2; try apply Forall_nil_2; (split; [by apply Hlit|]); cbn [snd];
      first [done | by apply clamped_int64 | idtac].
    by destruct (state job); apply Hlit.
Qed.

(** ** Witnesses *)

Definition demo_encodable : Job := new_job (str "job-1") (str "/in/a") (str "/out/b") 100.

Lemma encode_job_roundtrip_witness :
  parse default_limits (encode_job demo_encodable) = Some (Ok (job_value demo_encodable)).
Proof.
  apply (encode_job_roundtrip demo_encodable).
  - split_and!.
    + repeat apply Forall_cons_2; try apply Forall_nil_2;
        (split; [by apply ascii_text|vm_compute; congruence]).
    + repeat apply Forall_cons_2; try apply Forall_nil_2; split; vm_compute; congruence.
    + vm_compute. congruence.
    + vm_compute. congruence.
  - vm_compute. congruence.
Defined.
