(* ===== verification/Router.v ===== *)
(** The route table and its handlers: src/cpp/src/router.cpp and
    src/cpp/include/filemover/router.hpp.

    [route_request] is the whole handler: the response, the events the commands publish,
    and the manager and store they leave.  A handler thread runs the commands of
    Manager.v one after the other, as written there. *)

From S2P Require Import Prelude Job Store Events Config Mover Manager HttpParser Json ApiCodec.

Definition make (status : Z) (body : bytes) : Response :=
  mkResponse status (content_type default_response) body (allow default_response).
Definition error_response (status : Z) (message : bytes) : Response :=
  make status (encode_error message).
Definition method_not_allowed (allow : bytes) : Response :=
  let r := error_response 405 (str "method not allowed on this route") in
  mkResponse (status r) (content_type r) (resp_body r) allow.

(** The non-empty segments between slashes; [cur] is the one being read. *)
Fixpoint segments_loop (cur path : bytes) : list bytes :=
  let done := if cur == [] then [] else [cur] in
  match path with
  | [] => done
  | c :: path' => if Ascii.eqb c "/" then done ++ segments_loop [] path'
                  else segments_loop (cur ++ [c]) path'
  end.
Definition path_segments (target : bytes) : list bytes :=
  let path := match find_char "?" target with
              | None => target
              | Some query => take query target
              end in
  segments_loop [] path.

(** The directory and the name of an absolute path. *)
Definition split_path (path : bytes) : option (bytes * bytes) :=
  match path with
  | [] => None
  | c :: _ =>
      if negb (Ascii.eqb c "/") then None
      else match rfind_char "/" path with
           | None => None
           | Some slash =>
               if (length path <=? S slash)%nat then None
               else Some (if (slash =? 0)%nat then str "/" else take slash path,
                          drop (S slash) path)
           end
  end.

Definition status_for (result : CommandResult) : Z :=
  match result with
  | CmdOk => 200 | UnknownJob => 404 | InvalidState => 409 | NotRunning => 503 | StoreError => 500
  end.

Definition status_ok : bytes := qstr "{'status':'ok'}".
Definition job_id_body (job_id : bytes) : bytes := qstr "{'job_id':'" ++ job_id ++ qstr "'}".

(** What a handler leaves: response, events, manager, store. *)
Notation handled := (Response * list emission * manager * JobStore)%type.

(** [POST /api/jobs]. *)
Definition submit_route (body : bytes) (now_ms : Z) (m : manager) (s : JobStore) : option handled :=
  match decode_submit_request body with
  | None => None
  | Some (Error e) => Some (error_response 400 e, [], m, s)
  | Some (Ok submission) =>
      match split_path (sub_source submission), split_path (sub_dest submission) with
      | Some (sdir, sname), Some (ddir, dname) =>
          let '(r, job_id, evs, m1, s1) := submit (mkRequest sdir sname ddir dname) now_ms m s in
          if bool_decide (fst r = CmdOk) then Some (make 202 (job_id_body job_id), evs, m1, s1)
          else Some (error_response (status_for (fst r)) (snd r), evs, m1, s1)
      | _, _ =>
          Some (error_response 400 (str "source and dest must be absolute paths naming a file"),
                [], m, s)
      end
  end.

(** A command of one critical section. *)
Definition simple_command (type : EventType) (id : bytes) (r : result manager refusal)
    (m : manager) : refusal * list emission * manager :=
  match r with
  | Ok m1 => ((CmdOk, []), [(type, Info, id, [])], m1)
  | Error e => (e, [], m)
  end.

(** The answer to a command: its body on success, its message on refusal. *)
Definition command_response (r : refusal) (body : bytes) : Response :=
  if bool_decide (fst r = CmdOk) then
    make (status_for (fst r)) (if body == [] then status_ok else body)
  else error_response (status_for (fst r)) (snd r).

(** [POST /api/jobs/{id}/{action}] for a known action. *)
Definition action_route (action id : bytes) (now_ms : Z) (m : manager) (s : JobStore)
    : option handled :=
  if action == str "pause" then
    let '(r, evs, m1) := simple_command JobPaused id (pause id m) m in
    Some (command_response r [], evs, m1, s)
  else if action == str "resume" then
    let '(r, evs, m1) := simple_command JobResumed id (resume id m) m in
    Some (command_response r [], evs, m1, s)
  else if action == str "cancel" then
    let '(r, evs, m1, s1) := cancel id m s in
    Some (command_response r [], evs, m1, s1)
  else
    match retry id now_ms m s with
    | None => None
    | Some (r, new_job_id, evs, m1, s1) =>
        Some (command_response r (if bool_decide (fst r = CmdOk) then job_id_body new_job_id else []),
              evs, m1, s1)
    end.

Definition is_action (action : bytes) : bool :=
  (action == str "pause") || (action == str "resume") || (action == str "cancel")
  || (action == str "retry").

Definition no_route : Response := error_response 404 (str "no such route").

(** [None] would be a loop of the parser or of the retry search out of fuel. *)
Definition route_request (request : Request) (now_ms : Z) (m : manager) (s : JobStore)
    : option handled :=
  match path_segments (target request) with
  | [a] =>
      if a == str "healthz" then
        if negb (method request == str "GET") && negb (method request == str "HEAD")
        then Some (method_not_allowed (str "GET, HEAD"), [], m, s)
        else Some (make 200 status_ok, [], m, s)
      else Some (no_route, [], m, s)
  | [a; b] =>
      if (a == str "api") && (b == str "jobs") then
        if negb (method request == str "POST") then Some (method_not_allowed (str "POST"), [], m, s)
        else submit_route (body request) now_ms m s
      else Some (no_route, [], m, s)
  | [a; b; id; action] =>
      if (a == str "api") && (b == str "jobs") then
        if negb (is_action action) then Some (no_route, [], m, s)
        else if negb (method request == str "POST") then Some (method_not_allowed (str "POST"), [], m, s)
        else if id == [] then Some (error_response 400 (str "job id is empty"), [], m, s)
        else action_route action id now_ms m s
      else Some (no_route, [], m, s)
  | _ => Some (no_route, [], m, s)
  end.

(** * Lemmas *)

(** ** Segments *)

Lemma segments_loop_chars cur path seg c :
  seg ∈ segments_loop cur path -> c ∈ seg -> c ∈ cur ++ path.
Proof.
  revert cur. induction path as [|d path IH]; intros cur; simpl.
  - destruct (cur == []); set_solver.
  - destruct (Ascii.eqb d "/").
    + intros [Hs|Hs]%elem_of_app Hc.
      * destruct (cur == []); set_solver.
      * apply (IH _ Hs) in Hc. set_solver.
    + intros Hs Hc. apply (IH _ Hs) in Hc. set_solver.
Qed.

Lemma path_segments_chars target seg c :
  seg ∈ path_segments target -> c ∈ seg -> c ∈ target.
Proof.
  unfold path_segments. intros Hs Hc. apply (segments_loop_chars _ _ _ _ Hs) in Hc. simpl in Hc.
  destruct (find_char "?" target) as [q|]; [|done].
  rewrite <- (take_drop q target). set_solver.
Qed.

Lemma valid_target_no_nul target seg :
  valid_target target = true -> seg ∈ path_segments target -> nul ∉ seg.
Proof.
  intros [_ Ht]%valid_target_spec Hs Hc. apply (path_segments_chars _ _ _ Hs) in Hc.
  revert Hc. by eapply forallb_notin.
Qed.

(** ** Commands *)

Lemma decode_total body : exists r, decode_submit_request body = Some r.
Proof.
  destruct (parse_sound submit_limits body) as (p & Ep & _). unfold decode_submit_request.
  rewrite Ep. by eexists.
Qed.

(** [retry] answers, and its refusals leave the records. *)
Lemma retry_spec id now m s :
  nul ∉ id -> exists r new evs m' s', retry id now m s = Some (r, new, evs, m', s') /\
    (fst r <> CmdOk -> view (db s') = view (db s)).
Proof.
  intros Hid. unfold retry. destruct (retry_claim id m) as [mv|e]; [|by eexists _, _, _, _, _].
  unfold retry_check. destruct (load id s) as [l s1] eqn:El. apply load_spec in El as [(Hd & _) _].
  assert (forall e : refusal, exists r new evs m' s',
    Some (e, @nil ascii, @nil emission, m, s1) = Some (r, new, evs, m', s') /\
    (fst r <> CmdOk -> view (db s') = view (db s))) as Hr
    by (intros; eexists _, _, _, _, _; rewrite Hd; done).
  destruct l as [[job|]|]; [|by apply Hr|by apply Hr].
  case_bool_decide; [|by apply Hr].
  destruct (retry_search (retry_fuel m s1) id 1 m s1) as [f s2] eqn:Es.
  pose proof (retry_search_fuel _ _ _ _ _ Hid Es) as Hf.
  apply retry_search_spec in Es as [Hd2 _]; [|done|lia].
  destruct f as [[[c m1]|e]|]; [| |done].
  - destruct (record_intent_retry _ id s2) as [w s3] eqn:Ew. apply record_intent_spec in Ew as [_ Hw].
    destruct w; eexists _, _, _, _, _; (split; [done|]); [done|]. intros _.
    destruct Hw as [-> _]. by rewrite Hd2, Hd.
  - eexists _, _, _, _, _. split; [done|]. by rewrite Hd2, Hd.
Qed.

Lemma cancel_refused id m s r evs m' s' :
  cancel id m s = (r, evs, m', s') -> fst r <> CmdOk -> view (db s') = view (db s).
Proof.
  unfold cancel. destruct (cancel_claim id m) as [[b m1]|]; [|by intros [= <- <- <- <-]].
  unfold cancel_durable. destruct (load id s) as [l s1] eqn:El. apply load_spec in El as [(Hd & _) _].
  destruct l as [[job|]|]; [|intros [= <- <- <- <-] _; by rewrite Hd..].
  case_bool_decide; simpl; [|intros [= <- <- <- <-] _; by rewrite Hd].
  destruct (update_state _ _ _ _ s1) as [u s2] eqn:Eu. apply update_state_spec in Eu as [_ Hu].
  destruct u; intros [= <- <- <- <-]; [done|]. intros _. destruct Hu as [-> _]. by rewrite Hd.
Qed.

Definition recorded_as (r : MoveRequest) (j : Job) : Prop :=
  state j = Queued /\
  source_path j = c_str (source_dir r ++ str "/" ++ source_name r) /\
  dest_path j = c_str (dest_dir r ++ str "/" ++ dest_name r).

Lemma view_table d d' : job_table d = job_table d' -> view d = view d'.
Proof. unfold view. by intros ->. Qed.

(** [submit] records the job before it queues it, or changes no record. *)
Lemma submit_spec req now m s r new evs m' s' :
  submit req now m s = (r, new, evs, m', s') ->
  (fst r = CmdOk -> nul ∉ new /\ view (db s) !! new = None /\
     (exists j, view (db s') !! new = Some j /\ recorded_as req j) /\
     runnable m' = runnable m ++ [new] /\ requests m' !! new = Some req /\
     evs = [(JobSubmitted, Info, new, [])]) /\
  (fst r <> CmdOk -> view (db s') = view (db s)).
Proof.
  unfold submit. destruct (running m); cbn [negb]; [|by intros [= <- <- <- <- <-]].
  destruct (next_sequence s) as [q s1] eqn:Eq. apply next_sequence_spec in Eq as (Ht & _ & Hq).
  apply view_table in Ht.
  destruct q as [n|e]; [|intros [= <- <- <- <- <-]; by rewrite Ht].
  destruct Hq as [_ Hn]. set (new0 := str "job-" ++ dec n).
  assert (0 <= n) as Hn0 by (subst n; apply Z.mod_pos_bound; lia).
  assert (nul ∉ new0) as Hnul.
  { unfold new0. rewrite not_elem_of_app. split; [vm_compute; set_solver|].
    intros Hin. pose proof (dec_digits n Hn0) as Hd. rewrite Forall_forall in Hd. by apply Hd in Hin. }
  unfold submit_id. destruct (submit_claim new0 m) as [m1|e] eqn:Ec.
  2: { intros [= <- <- <- <- <-]. rewrite Ht. split; [|done]. simpl. intros Hok. exfalso.
       revert Ec. unfold submit_claim. repeat case_match; intros [= <-]; done. }
  apply submit_claim_Ok in Ec as (-> & Hreq & _).
  destruct (record_intent _ s1) as [w s2] eqn:Ew. apply record_intent_spec in Ew as [_ Hw].
  destruct w as [u|e]; intros [= <- <- <- <- <-]; simpl; (split; [|try done]).
  - intros _. destruct Hw as (_ & Hnone & Hdb). simpl in Hnone. rewrite c_str_id in Hnone by done.
    split_and!; [done| | |done| |done].
    + rewrite <- Ht, view_lookup, Hnone. done.
    + rewrite Hdb. eexists. simpl. rewrite (c_str_id new0) by done. split.
      * rewrite view_lookup. simpl. rewrite lookup_insert_eq. simpl. apply row_of_job_decode.
      * done.
    + apply lookup_insert_eq.
  - done.
  - intros _. destruct Hw as [-> _]. by rewrite Ht.
Qed.

(** ** Responses *)

(** The statuses of the API, with an Allow header exactly on 405. *)
Definition api_response (r : Response) : Prop :=
  status r ∈ [200; 202; 400; 404; 405; 409; 500; 503] /\
  plain (content_type r) /\ plain (allow r) /\ (status r = 405 <-> allow r <> []).

Lemma make_api st b : st ∈ [200; 202; 400; 404; 409; 500; 503] -> api_response (make st b).
Proof.
  intros Hst. unfold api_response, make. simpl.
  split_and!; [set_solver|by apply plain_lit|by apply plain_lit|].
  split; [|done]. intros ->. set_solver by lia.
Qed.

Lemma status_for_api r : status_for r ∈ [200; 202; 400; 404; 409; 500; 503].
Proof. destruct r; simpl; set_solver. Qed.

Lemma not_allowed_api a : a <> [] -> plain a -> api_response (method_not_allowed a).
Proof. intros Hne Ha. split_and!; simpl; [set_solver|by apply plain_lit|done|done]. Qed.

Lemma command_response_api r b : api_response (command_response r b).
Proof. unfold command_response. case_bool_decide; apply make_api, status_for_api. Qed.

(** What holds of a handler's result: an API response; an error answer keeps every
    record; a 202 has recorded and queued one new job. *)
Definition handled_ok (m : manager) (s : JobStore) (h : handled) : Prop :=
  let '(resp, evs, m', s') := h in
  api_response resp /\
  (400 <= status resp -> view (db s') = view (db s)) /\
  (status resp = 202 -> exists new j, resp_body resp = job_id_body new /\
     view (db s) !! new = None /\ view (db s') !! new = Some j /\ state j = Queued /\
     runnable m' = runnable m ++ [new] /\ evs = [(JobSubmitted, Info, new, [])]).

Lemma unchanged_ok m s resp :
  api_response resp -> status resp <> 202 -> handled_ok m s (resp, [], m, s).
Proof. intros Ha Hs. split_and!; [done|done|]. by intros. Qed.

Lemma command_ok m s m' s' evs r b :
  (fst r <> CmdOk -> view (db s') = view (db s)) ->
  handled_ok m s (command_response r b, evs, m', s').
Proof.
  intros Hr. split_and!; [apply command_response_api| |].
  - unfold command_response. case_bool_decide as Ho; [|by intros; apply Hr].
    rewrite Ho. simpl. lia.
  - unfold command_response. case_bool_decide as Ho; [by rewrite Ho|].
    intros H. exfalso. destruct (fst r); simpl in H; done.
Qed.

Lemma submit_route_ok b now m s :
  exists h, submit_route b now m s = Some h /\ handled_ok m s h.
Proof.
  unfold submit_route. destruct (decode_total b) as [d ->].
  destruct d as [sub|e].
  2: { eexists. split; [done|]. apply unchanged_ok; [apply make_api; set_solver|done]. }
  assert (forall e, exists h, Some (error_response 400 e, [], m, s) = Some h /\ handled_ok m s h) as Hbad.
  { intros e. eexists. split; [done|]. apply unchanged_ok; [apply make_api; set_solver|done]. }
  destruct (split_path (sub_source sub)) as [[sd sn]|]; [|apply Hbad].
  destruct (split_path (sub_dest sub)) as [[dd dn]|]; [|apply Hbad].
  destruct (submit _ now m s) as [[[[r new] evs] m'] s'] eqn:Es. apply submit_spec in Es as [Hok Hno].
  case_bool_decide as Hr.
  - eexists. split; [done|]. destruct (Hok Hr) as (_ & Hnone & (j & Hj & Hst & _) & Hq & _ & He).
    split_and!; [apply make_api; set_solver|simpl; lia|]. intros _. by exists new, j.
  - eexists. split; [done|]. split_and!; [apply make_api, status_for_api|by intros; apply Hno|].
    simpl. intros H. exfalso. destruct (fst r); done.
Qed.

Lemma action_route_ok action id now m s :
  nul ∉ id -> exists h, action_route action id now m s = Some h /\ handled_ok m s h.
Proof.
  intros Hid. unfold action_route.
  destruct (action == str "pause").
  { unfold simple_command. destruct (pause id m); eexists; (split; [done|]); by apply command_ok. }
  destruct (action == str "resume").
  { unfold simple_command. destruct (resume id m); eexists; (split; [done|]); by apply command_ok. }
  destruct (action == str "cancel").
  { destruct (cancel id m s) as [[[r evs] m'] s'] eqn:Ec. eexists. split; [done|].
    apply command_ok. by eapply cancel_refused. }
  destruct (retry_spec id now m s Hid) as (r & new & evs & m' & s' & -> & Hr).
  eexists. split; [done|]. by apply command_ok.
Qed.

Lemma route_ok request now m s :
  valid_target (target request) = true ->
  exists h, route_request request now m s = Some h /\ handled_ok m s h.
Proof.
  intros Ht. assert (forall seg, seg ∈ path_segments (target request) -> nul ∉ seg) as Hn
    by (intros seg; by apply valid_target_no_nul).
  unfold route_request.
  assert (forall resp, api_response resp -> status resp <> 202 ->
    exists h, Some (resp, [], m, s) = Some h /\ handled_ok m s h) as Hu.
  { intros resp Ha Hs. eexists. split; [done|]. by apply unchanged_ok. }
  assert (api_response no_route) as Hno by (apply make_api; set_solver).
  assert (api_response (method_not_allowed (str "POST"))) as Hpost
    by (apply not_allowed_api; [done|by apply plain_lit]).
  destruct (path_segments (target request)) as [|a [|b [|id [|action [|x l]]]]];
    try (by apply Hu).
  - destruct (a == str "healthz"); [|by apply Hu].
    destruct (negb _ && negb _); apply Hu; try done;
      [apply not_allowed_api; [done|by apply plain_lit]|apply make_api; set_solver].
  - destruct ((a == str "api") && (b == str "jobs")); [|by apply Hu].
    destruct (negb _); [by apply Hu|]. apply submit_route_ok.
  - destruct ((a == str "api") && (b == str "jobs")); [|by apply Hu].
    destruct (negb (is_action action)); [by apply Hu|].
    destruct (negb (method request == str "POST")); [by apply Hu|].
    destruct (id == []); [apply Hu; [apply make_api; set_solver|done]|].
    apply action_route_ok, Hn. right. right. left.
Qed.

(** * Theorems *)

(** C17. Every well-formed request is answered, whatever the manager's state and whatever
    fails in the store: with one of the statuses of the API, an Allow header exactly on
    405; an error status means that no job record changed; and 202 means that exactly
    the named job has been recorded as QUEUED, was not there before, is at the end of
    the run queue and has been announced. *)
Theorem route_request_answers request now_ms m s :
  valid_target (target request) = true ->
  exists resp evs m' s', route_request request now_ms m s = Some (resp, evs, m', s') /\
    status resp ∈ [200; 202; 400; 404; 405; 409; 500; 503] /\
    (status resp = 405 <-> allow resp <> []) /\
    (400 <= status resp -> view (db s') = view (db s)) /\
    (status resp = 202 -> exists new j, resp_body resp = job_id_body new /\
       view (db s) !! new = None /\ view (db s') !! new = Some j /\ state j = Queued /\
       runnable m' = runnable m ++ [new] /\ evs = [(JobSubmitted, Info, new, [])]).
Proof.
  intros Ht. destruct (route_ok request now_ms m s Ht) as ([[[resp evs] m'] s'] & E & Ha & Hv & Hs).
  destruct Ha as (Hst & _ & _ & Hal). by exists resp, evs, m', s'.
Qed.

(** Only POST changes anything: a request with another method leaves the manager,
    the store and the event stream as they are. *)
Theorem non_post_is_readonly request now_ms m s resp evs m' s' :
  method request <> str "POST" ->
  route_request request now_ms m s = Some (resp, evs, m', s') -> evs = [] /\ m' = m /\ s' = s.
Proof.
  intros Hm. apply beq_neq in Hm. unfold route_request. rewrite Hm. cbn [negb].
  repeat case_match; by intros [= <- <- <- <-].
Qed.

(** A job path is split at its last slash: an accepted path is absolute, and the
    directory and the name recompose it, with no slash in the name. *)
Theorem split_path_spec path dir name :
  split_path path = Some (dir, name) <->
  name <> [] /\ "/"%char ∉ name /\
  (dir = str "/" /\ path = str "/" ++ name \/
   exists rest, dir = "/"%char :: rest /\ path = dir ++ str "/" ++ name).
Proof.
  unfold split_path. split.
  - destruct path as [|c p]; [done|]. destruct (Ascii.eqb_spec c "/") as [->|]; simpl negb; [|done]. cbv iota.
    destruct (rfind_char "/" ("/"%char :: p)) as [i|] eqn:E; [|done].
    apply rfind_char_Some in E as (pre & post & E & <- & Hn). rewrite E.
    rewrite drop_S_app, take_app_length.
    destruct (Nat.leb_spec (length (pre ++ "/"%char :: post)) (S (length pre))) as [|Hl]; [done|].
    rewrite length_app in Hl. simpl in Hl.
    destruct pre as [|c pre]; simpl; intros [= <- <-].
    + split_and!; [by destruct post; [simpl in Hl; lia|]|done|by left].
    + simpl in E. injection E as <- E. split_and!; [by destruct post; [simpl in Hl; lia|]|done|].
      right. by exists pre.
  - intros (Hne & Hn & Hp).
    assert (exists pre, path = pre ++ "/"%char :: name /\
      dir = (if (length pre =? 0)%nat then str "/" else pre) /\ head path = Some "/"%char)
      as (pre & -> & -> & Hh).
    { destruct Hp as [[-> ->]|(rest & -> & ->)]; [by exists []|]. by exists ("/"%char :: rest). }
    destruct (pre ++ "/"%char :: name) as [|c p] eqn:E; [done|]. simpl in Hh. injection Hh as ->.
    rewrite Ascii.eqb_refl. cbn [negb]. rewrite <- E.
    rewrite rfind_char_app by done. rewrite drop_S_app, take_app_length, (proj2 (Nat.leb_gt _ _)); [done|].
    rewrite length_app. destruct name; [done|]. simpl. lia.
Qed.

(** ** Witnesses *)

Definition demo_submit : Request :=
  mkHttpRequest (str "POST") (str "/api/jobs") (str "HTTP/1.1") ∅
    (qstr "{'source':'/in/a','dest':'/out/b'}").
Definition demo_probe : Request :=
  mkHttpRequest (str "GET") (str "/healthz?verbose") (str "HTTP/1.1") ∅ [].
Definition demo_manager : manager := mark_started (new_manager demo_cfg).

Lemma route_request_answers_witness :
  exists resp evs m' s',
    route_request demo_submit 100 demo_manager empty_store = Some (resp, evs, m', s') /\
    status resp = 202 /\ runnable m' = [str "job-1"].
Proof.
  destruct (route_request_answers demo_submit 100 demo_manager empty_store)
    as (resp & evs & m' & s' & E & _ & _ & _ & _); [reflexivity|].
  exists resp, evs, m', s'. split; [exact E|].
  assert ((fun h : option handled => match h with
           | Some (r, _, m, _) => (status r, runnable m) | None => (0, []) end)
          (route_request demo_submit 100 demo_manager empty_store) = (202, [str "job-1"])) as H
    by (vm_compute; reflexivity).
  rewrite E in H. split; [exact (f_equal fst H)|exact (f_equal snd H)].
Defined.

Lemma non_post_is_readonly_witness :
  exists resp, route_request demo_probe 100 demo_manager empty_store
    = Some (resp, [], demo_manager, empty_store).
Proof.
  destruct (route_request demo_probe 100 demo_manager empty_store) as [[[[resp evs] m'] s']|] eqn:E;
    [|vm_compute in E; discriminate].
  destruct (non_post_is_readonly demo_probe 100 demo_manager empty_store resp evs m' s')
    as (-> & -> & ->); [vm_compute; discriminate|exact E|]. by exists resp.
Defined.
