(* ===== verification/Server.v ===== *)
(** The socket layer: src/cpp/src/server.cpp and src/cpp/include/filemover/server.hpp.

    - [listen_open] is [ListenSocket::open]; the answers of the system calls are its
      argument, and it returns the descriptors it closed.
    - [read_some] and [write_all] are the bounded I/O, over the sequence of answers the
      kernel will give.
    - [pool_step] is the accept loop and the handler pool, one rule per turn, critical
      section or close of a thread.  The condition variable only decides who runs next:
      Pool.v has it, and shows that every run of the threads is one of these; the wake pipe is the second half of [polled].
    - [server_start] and [shutdown_finish] are the two ends of a [ConnectionServer]'s
      life, with the descriptors each of them closes. *)

From S2P Require Import Prelude HttpParser.

(** * The listening socket *)

Record ListenSocket := mkListen { l_fd : Z; l_port : Z }.
Definition closed_socket : ListenSocket := mkListen (-1) 0.
Definition listen_is_open (l : ListenSocket) : bool := 0 <=? l_fd l.

(** A bound address: its family, and the two bytes of the port in network order, which the
    IPv4 and the IPv6 structure keep at the same place. *)
Record sockaddr := mkSockaddr { ss_family : Z; ss_port : Z * Z }.
Definition AF_INET : Z := 2.
Definition AF_INET6 : Z := 10.

Definition ntohs (b : Z * Z) : Z := fst b * 256 + snd b.
Definition port_from (ss : sockaddr) : option Z :=
  if ss_family ss =? AF_INET then Some (ntohs (ss_port ss))
  else if ss_family ss =? AF_INET6 then Some (ntohs (ss_port ss))
  else None.

(** What the kernel answers: success, or an errno. *)
Record listen_answers := mkAnswers {
  numeric_v4 : bool;
  numeric_v6 : bool;
  ans_socket : result Z Z;
  ans_setsockopt : result unit Z;
  ans_bind : result unit Z;
  ans_listen : result unit Z;
  ans_getsockname : result sockaddr Z
}.

(** The descriptor closed, if any, and the new state. *)
Definition listen_close (l : ListenSocket) : list Z * ListenSocket :=
  (if 0 <=? l_fd l then [l_fd l] else [], closed_socket).

Section Listen.
Context (strerror : Z -> bytes).

Definition server_errno_text (what : bytes) (err : Z) : bytes := what ++ str ": " ++ strerror err.
Definition endpoint_text (what bind_address : bytes) (port err : Z) : bytes :=
  what ++ bind_address ++ str ":" ++ dec port ++ str ": " ++ strerror err.

Definition not_numeric (bind_address : bytes) : bytes :=
  str "server: bind address '" ++ bind_address
  ++ str "' is not a numeric IPv4 or IPv6 address. Names are not resolved: a service that resolves its own bind address can be moved to another interface by whoever controls the name, and the bind still succeeds.".

(** The error or nothing, the descriptors closed, and the socket. *)
Definition listen_open (bind_address : bytes) (port backlog : Z) (a : listen_answers)
    (l : ListenSocket) : result unit bytes * list Z * ListenSocket :=
  if listen_is_open l then (Error (str "server: listen socket is already open"), [], l)
  else if bind_address == [] then (Error (str "server: bind address is empty"), [], l)
  else if backlog <=? 0 then (Error (str "server: backlog must be positive"), [], l)
  else if negb (numeric_v4 a || numeric_v6 a) then (Error (not_numeric bind_address), [], l)
  else
    match ans_socket a with
    | Error err => (Error (server_errno_text (str "server: socket") err), [], l)
    | Ok sock =>
        match ans_setsockopt a with
        | Error err =>
            (Error (server_errno_text (str "server: setsockopt SO_REUSEADDR") err), [sock], l)
        | Ok _ =>
            match ans_bind a with
            | Error err =>
                (Error (endpoint_text (str "server: cannot bind ") bind_address port err), [sock], l)
            | Ok _ =>
                match ans_listen a with
                | Error err =>
                    (Error (endpoint_text (str "server: cannot listen on ") bind_address port err),
                     [sock], l)
                | Ok _ =>
                    match ans_getsockname a with
                    | Error err => (Error (server_errno_text (str "server: getsockname") err), [sock], l)
                    | Ok bound =>
                        match port_from bound with
                        | None =>
                            (Error (str "server: bound socket has an unexpected address family"), [sock], l)
                        | Some actual => (Ok tt, [], mkListen sock actual)
                        end
                    end
                end
            end
        end
    end.
End Listen.

(** * Bounded I/O *)

Inductive IoResult := IoOk | PeerClosed | TimedOut | IoError.

#[export] Instance IoResult_eq_dec : EqDecision IoResult.
Proof. solve_decision. Defined.

(** The next things that happen on a connection, as [recv] reports them: bytes that have
    arrived (none: the peer has closed), a signal, an expired deadline, a failure.  When
    nothing more happens the deadline expires. *)
Inductive incoming := Arrived (data : bytes) | Interrupted | Expired | Broken.
Notation socket := (list incoming).

(** At most [capacity] bytes are taken from what has arrived. *)
Fixpoint read_some (capacity : nat) (net : socket) : IoResult * bytes * socket :=
  match capacity with
  | O => (IoError, [], net)
  | S _ =>
      match net with
      | [] => (TimedOut, [], [])
      | Interrupted :: net' => read_some capacity net'
      | Expired :: net' => (TimedOut, [], net')
      | Broken :: net' => (IoError, [], net')
      | Arrived [] :: _ => (PeerClosed, [], net)
      | Arrived data :: net' =>
          (IoOk, take capacity data,
           match drop capacity data with [] => net' | rest => Arrived rest :: net' end)
      end
  end.

(** What [send] answers: how many bytes it took (a count above what was offered is not
    possible and is cut), a signal, an expired deadline, another failure. *)
Inductive outgoing := Took (n : nat) | SendInterrupted | SendExpired | SendBroken.

(** The result and the bytes that went out. *)
Fixpoint write_all (data : bytes) (answers : list outgoing) : IoResult * bytes :=
  match data with
  | [] => (IoOk, [])
  | _ =>
      match answers with
      | [] => (TimedOut, [])
      | Took O :: _ => (IoError, [])
      | Took n :: answers' =>
          let '(r, out) := write_all (drop n data) answers' in (r, take n data ++ out)
      | SendInterrupted :: answers' => write_all data answers'
      | SendExpired :: _ => (TimedOut, [])
      | SendBroken :: _ => (IoError, [])
      end
  end.

(** The response of a saturated server. *)
Definition kServiceUnavailable : bytes :=
  str "HTTP/1.1 503 Service Unavailable" ++ crlf
  ++ str "Content-Type: application/json" ++ crlf
  ++ str "Content-Length: 58" ++ crlf
  ++ str "Connection: close" ++ crlf
  ++ crlf
  ++ qstr "{'error':'all connection handlers are busy; retry shortly'}".

(** * The accept loop and the handler pool *)

Record ServerOptions := mkServerOptions {
  handlers : nat;
  recv_timeout_ms : Z;
  send_timeout_ms : Z
}.
Definition default_server_options : ServerOptions := mkServerOptions 4 5000 5000.

(** Where a handler thread is. *)
Inductive handler :=
| Waiting                 (* at the condition variable *)
| Serving (conn : Z)      (* in the connection handler *)
| Releasing               (* connection closed, slot not yet given back *)
| Exited.

#[export] Instance handler_eq_dec : EqDecision handler.
Proof. solve_decision. Defined.

Record pool := mkPool {
  p_queued : list Z;
  p_idle : nat;
  p_stopping : bool;
  p_running : bool;
  p_served : nat;
  p_rejected : nat;
  p_handlers : list handler;
  p_accepting : bool;
  p_open : gset Z
}.

(** The checks of [ConnectionServer::start] that come before the socket. *)
Definition start_check (opts : ServerOptions) (running has_handler : bool) : result unit bytes :=
  if running then Error (str "server: already running")
  else if (handlers opts =? 0)%nat then Error (str "server: handler count must be at least 1")
  else if (recv_timeout_ms opts <=? 0) || (send_timeout_ms opts <=? 0) then
    Error (str "server: receive and send timeouts must be positive")
  else if negb has_handler then Error (str "server: no connection handler supplied")
  else Ok tt.

(** The pool of a new [ConnectionServer], and what [start] makes of a pool: the counters
    reset under the lock, then the threads. *)
Definition idle_pool : pool := mkPool [] 0 false false 0 0 [] false ∅.
Definition start_pool (opts : ServerOptions) (p : pool) : pool :=
  mkPool (p_queued p) (handlers opts) false true 0 0
    (p_handlers p ++ replicate (handlers opts) Waiting) true (p_open p).
Definition started_pool (opts : ServerOptions) : pool := start_pool opts idle_pool.

(** Deadlines: a [timeval] per direction, set on every accepted descriptor. *)
Record timeval := mkTimeval { tv_sec : Z; tv_usec : Z }.
Definition set_deadline (milliseconds : Z) : timeval :=
  mkTimeval (Z.quot milliseconds 1000) (Z.rem milliseconds 1000 * 1000).

(** The calls the accept thread makes on a connection. *)
Inductive conn_call :=
| SetRecvTimeout (conn : Z) (tv : timeval)
| SetSendTimeout (conn : Z) (tv : timeval)
| SendBytes (conn : Z) (data : bytes)
| CloseConn (conn : Z).

Definition set_deadlines (conn recv_ms send_ms : Z) : list conn_call :=
  [SetRecvTimeout conn (set_deadline recv_ms); SetSendTimeout conn (set_deadline send_ms)].

(** The critical section of the accept loop: whether the connection is accepted. *)
Definition admit_conn (conn : Z) (p : pool) : bool * pool :=
  if negb (p_stopping p) && (0 <? p_idle p)%nat then
    (true, mkPool (p_queued p ++ [conn]) (p_idle p - 1) (p_stopping p) (p_running p)
             (S (p_served p)) (p_rejected p) (p_handlers p) (p_accepting p) ({[conn]} ∪ p_open p))
  else
    (false, mkPool (p_queued p) (p_idle p) (p_stopping p) (p_running p) (p_served p)
              (S (p_rejected p)) (p_handlers p) (p_accepting p) (p_open p)).

Definition set_handler (i : nat) (h : handler) (p : pool) : pool :=
  mkPool (p_queued p) (p_idle p) (p_stopping p) (p_running p) (p_served p) (p_rejected p)
    (<[i := h]> (p_handlers p)) (p_accepting p) (p_open p).

(** The first critical section of a handler: take the oldest connection. *)
Definition handler_take (i : nat) (conn : Z) (rest : list Z) (p : pool) : pool :=
  mkPool rest (p_idle p) (p_stopping p) (p_running p) (p_served p) (p_rejected p)
    (<[i := Serving conn]> (p_handlers p)) (p_accepting p) (p_open p).

(** The handler returns and the connection is closed. *)
Definition handler_close (i : nat) (conn : Z) (p : pool) : pool :=
  mkPool (p_queued p) (p_idle p) (p_stopping p) (p_running p) (p_served p) (p_rejected p)
    (<[i := Releasing]> (p_handlers p)) (p_accepting p) (p_open p ∖ {[conn]}).

(** The last critical section of a handler: the slot is free again. *)
Definition handler_release (i : nat) (p : pool) : pool :=
  mkPool (p_queued p) (S (p_idle p)) (p_stopping p) (p_running p) (p_served p) (p_rejected p)
    (<[i := Waiting]> (p_handlers p)) (p_accepting p) (p_open p).

(** The critical section of [shutdown]. *)
Definition shutdown_pool (p : pool) : option pool :=
  if negb (p_running p) then None
  else Some (mkPool (p_queued p) (p_idle p) true false (p_served p) (p_rejected p)
               (p_handlers p) (p_accepting p) (p_open p)).

Definition stop_accepting (p : pool) : pool :=
  mkPool (p_queued p) (p_idle p) (p_stopping p) (p_running p) (p_served p) (p_rejected p)
    (p_handlers p) false (p_open p).

(** After the joins, [shutdown] closes what is still queued. *)
Definition close_queued (p : pool) : pool :=
  mkPool [] (p_idle p) (p_stopping p) (p_running p) (p_served p) (p_rejected p)
    (p_handlers p) (p_accepting p) (p_open p ∖ list_to_set (p_queued p)).

(** What [poll] answers: a signal, another failure, or which of the listener and the wake
    descriptor is readable. *)
Inductive polled := PollInterrupted | PollFailed | PollReady (listener wake : bool).

(** One turn of [run_acceptor]: whether the loop goes on, the calls made on a connection,
    and the pool.  [accepted] is what [accept4] gives. *)
Definition acceptor_turn (opts : ServerOptions) (ready : polled) (accepted : option Z) (p : pool)
    : bool * list conn_call * pool :=
  match ready with
  | PollInterrupted => (true, [], p)
  | PollFailed => (false, [], p)
  | PollReady listener wake =>
      if wake then (false, [], p)
      else if negb listener then (true, [], p)
      else
        match accepted with
        | None => (true, [], p)
        | Some conn =>
            let deadlines := set_deadlines conn (recv_timeout_ms opts) (send_timeout_ms opts) in
            let '(taken, p1) := admit_conn conn p in
            if taken then (true, deadlines, p1)
            else (true, deadlines ++ [SendBytes conn kServiceUnavailable; CloseConn conn], p1)
        end
  end.

(** Steps of the accept thread and of the owner.  The kernel gives [accept4] a descriptor
    that is not open, and the wake descriptor is readable only once [shutdown] has
    written to it. *)
Inductive control_step (opts : ServerOptions) : pool -> pool -> Prop :=
| c_turn ready accepted goes_on calls p p' :
    p_accepting p = true ->
    (forall conn, accepted = Some conn -> conn ∉ p_open p) ->
    (forall listener, ready = PollReady listener true -> p_stopping p = true) ->
    acceptor_turn opts ready accepted p = (goes_on, calls, p') ->
    control_step opts p (if goes_on : bool then p' else stop_accepting p')
| c_shutdown p p' : shutdown_pool p = Some p' -> control_step opts p p'.

(** Steps of the handlers. *)
Inductive handler_step : pool -> pool -> Prop :=
| h_take i conn rest p :
    p_handlers p !! i = Some Waiting -> p_queued p = conn :: rest ->
    handler_step p (handler_take i conn rest p)
| h_close i conn p :
    p_handlers p !! i = Some (Serving conn) -> handler_step p (handler_close i conn p)
| h_release i p :
    p_handlers p !! i = Some Releasing -> handler_step p (handler_release i p)
| h_exit i p :
    p_handlers p !! i = Some Waiting -> p_queued p = [] -> p_stopping p = true ->
    handler_step p (set_handler i Exited p).

Definition pool_step (opts : ServerOptions) (p p' : pool) : Prop :=
  control_step opts p p' \/ handler_step p p'.

(** * The server *)

Record server := mkServer { srv_listener : ListenSocket; srv_wake : Z * Z; srv_pool : pool }.
Definition new_server : server := mkServer closed_socket (-1, -1) idle_pool.
Definition kDefaultBacklog : Z := 64.

(** The result, the descriptors closed, and the server; [wake] is what [socketpair] gives. *)
Definition server_start (strerror : Z -> bytes) (bind_address : bytes) (port : Z)
    (opts : ServerOptions) (has_handler : bool) (a : listen_answers) (wake : result (Z * Z) Z)
    (srv : server) : result unit bytes * list Z * server :=
  match start_check opts (p_running (srv_pool srv)) has_handler with
  | Error e => (Error e, [], srv)
  | Ok _ =>
      match listen_open strerror bind_address port kDefaultBacklog a (srv_listener srv) with
      | (Error e, closed, l) => (Error e, closed, mkServer l (srv_wake srv) (srv_pool srv))
      | (Ok _, closed, l) =>
          match wake with
          | Error err =>
              let '(closed', l') := listen_close l in
              (Error (server_errno_text strerror (str "server: socketpair") err), closed ++ closed',
               mkServer l' (srv_wake srv) (srv_pool srv))
          | Ok w => (Ok tt, closed, mkServer l w (start_pool opts (srv_pool srv)))
          end
      end
  end.

Definition close_wake (w : Z * Z) : list Z * (Z * Z) :=
  ((if 0 <=? fst w then [fst w] else []) ++ (if 0 <=? snd w then [snd w] else []),
   (if 0 <=? fst w then -1 else fst w, if 0 <=? snd w then -1 else snd w)).

(** The end of [shutdown], once the threads have been joined; the vector of threads has
    been swapped out. *)
Definition shutdown_finish (srv : server) : list Z * server :=
  let '(closed, l) := listen_close (srv_listener srv) in
  let '(closed', w) := close_wake (srv_wake srv) in
  let p := close_queued (srv_pool srv) in
  (closed ++ closed' ++ p_queued (srv_pool srv),
   mkServer l w (mkPool (p_queued p) (p_idle p) (p_stopping p) (p_running p) (p_served p)
                   (p_rejected p) [] (p_accepting p) (p_open p))).

Definition with_pool (srv : server) (p : pool) : server :=
  mkServer (srv_listener srv) (srv_wake srv) p.

(** * Lemmas *)

(** ** I/O *)

(** The bytes that will arrive before the connection ends or stalls. *)
Fixpoint stream (net : socket) : bytes :=
  match net with
  | Arrived [] :: _ | Expired :: _ | Broken :: _ | [] => []
  | Arrived data :: net' => data ++ stream net'
  | Interrupted :: net' => stream net'
  end.

(** One read takes a non-empty prefix of the stream, or the stream is over. *)
Lemma read_some_spec capacity net r got net' :
  (0 < capacity)%nat -> read_some capacity net = (r, got, net') ->
  match r with
  | IoOk => stream net = got ++ stream net' /\ got <> [] /\ (length got <= capacity)%nat
  | _ => stream net = [] /\ got = []
  end.
Proof.
  intros Hc. destruct capacity as [|k]; [lia|]. revert r got net'.
  induction net as [|e net IH]; intros r got net'; [by intros [= <- <- <-]|].
  destruct e as [data| | |].
  - destruct data as [|c data]; [by intros [= <- <- <-]|]. simpl. intros [= <- <- <-].
    split_and!; [|done|simpl; rewrite length_take; lia]. simpl. f_equal.
    rewrite <- (take_drop k data) at 1. destruct (drop k data) eqn:E; [by rewrite app_nil_r|].
    by rewrite <- app_assoc.
  - apply IH.
  - by intros [= <- <- <-].
  - by intros [= <- <- <-].
Qed.

(** What remains after a read is smaller: the fuel of the loops that read. *)
Definition volume (net : socket) : nat :=
  sum_list_with (fun e => match e with Arrived d => S (length d) | _ => 1%nat end) net.

Lemma read_some_volume capacity net got net' :
  (0 < capacity)%nat -> read_some capacity net = (IoOk, got, net') -> (volume net' < volume net)%nat.
Proof.
  intros Hc. destruct capacity as [|k]; [lia|].
  induction net as [|e net IH]; [done|]. destruct e as [data| | |]; try done.
  - destruct data as [|c data]; [done|]. simpl. intros [= <- <-].
    pose proof (length_drop data k). destruct (drop k data) eqn:E; simpl in *; unfold volume; simpl; lia.
  - intros H%IH. unfold volume in *. simpl. lia.
Qed.

(** [write_all] reports success exactly when everything went out, and never sends anything
    but a prefix of the data. *)
Lemma write_all_spec data answers r out :
  write_all data answers = (r, out) -> out `prefix_of` data /\ (r = IoOk <-> out = data).
Proof.
  revert data r out. induction answers as [|a answers IH]; intros data r out;
    (destruct data as [|c data]; [intros [= <- <-]; done|]); simpl.
  - intros [= <- <-]. split; [apply prefix_nil|done].
  - destruct a as [n| | |].
    + destruct n as [|n]; [intros [= <- <-]; split; [apply prefix_nil|done]|]. simpl.
      destruct (write_all (drop n data) answers) as [r' out'] eqn:E.
      apply IH in E as [[k Hk] Hr]. intros [= <- <-].
      rewrite Hr. split.
      * exists k. simpl. rewrite <- app_assoc, <- Hk. by rewrite take_drop.
      * split; [intros ->; f_equal; apply take_drop|]. intros [= H].
        rewrite <- (take_drop n data) in H at 2. by apply app_inv_head in H.
    + apply IH.
    + intros [= <- <-]. split; [apply prefix_nil|done].
    + intros [= <- <-]. split; [apply prefix_nil|done].
Qed.

(** A failed open leaves the socket closed and no descriptor behind. *)
Lemma listen_open_spec strerror addr port backlog a l r closed l' :
  listen_open strerror addr port backlog a l = (r, closed, l') ->
  match r with
  | Ok _ => exists sock, ans_socket a = Ok sock /\ l_fd l' = sock /\ closed = [] /\
              (exists ss, ans_getsockname a = Ok ss /\ port_from ss = Some (l_port l')) /\
              listen_is_open l = false
  | Error e => l' = l /\ e <> [] /\
      (closed = [] \/ exists sock, ans_socket a = Ok sock /\ closed = [sock])
  end.
Proof.
  unfold listen_open. repeat case_match; intros [= <- <- <-]; try (split_and!; [done|done|by left]);
    try (split_and!; [done|done|right; by eexists]).
  eexists. split_and!; try done. by eexists.
Qed.

(** ** Counting handlers *)

Lemma insert_split {A} (l : list A) i x :
  l !! i = Some x -> exists l1 l2, l = l1 ++ x :: l2 /\ forall y, <[i := y]> l = l1 ++ y :: l2.
Proof.
  intros H. exists (take i l), (drop (S i) l). split; [symmetry; by apply take_drop_middle|].
  intros y. pose proof (lookup_lt_Some _ _ _ H) as Hl.
  rewrite <- (take_drop_middle l i x H) at 1. rewrite insert_app_r_alt by (rewrite length_take; lia).
  rewrite length_take, Nat.min_l, Nat.sub_diag by lia. done.
Qed.

Definition is_busy (h : handler) : nat := match h with Serving _ | Releasing => 1 | _ => 0 end%nat.
Definition is_waiting (h : handler) : nat := match h with Waiting => 1 | _ => 0 end%nat.
Definition is_exited (h : handler) : nat := match h with Exited => 1 | _ => 0 end%nat.
Definition conn_of (h : handler) : option Z := match h with Serving c => Some c | _ => None end.

(** The connections the pool holds. *)
Definition held_conns (p : pool) : list Z := p_queued p ++ omap conn_of (p_handlers p).

Record pool_inv (n : nat) (p : pool) : Prop := {
  i_slots : (p_idle p + length (p_queued p) + sum_list_with is_busy (p_handlers p) = n)%nat;
  i_threads : (sum_list_with is_waiting (p_handlers p) + sum_list_with is_busy (p_handlers p)
               + sum_list_with is_exited (p_handlers p) = n)%nat;
  i_once : NoDup (held_conns p);
  i_open c : c ∈ p_open p <-> c ∈ held_conns p;
  i_exited : (0 < sum_list_with is_exited (p_handlers p))%nat ->
             p_stopping p = true /\ p_queued p = [];
  i_running : p_running p = negb (p_stopping p)
}.

Lemma sum_replicate n (w : handler -> nat) h : sum_list_with w (replicate n h) = (n * w h)%nat.
Proof. induction n; simpl; lia. Qed.

Lemma omap_replicate n : omap conn_of (replicate n Waiting) = [].
Proof. by induction n. Qed.

Lemma started_inv opts : pool_inv (handlers opts) (started_pool opts).
Proof.
  split; unfold held_conns; simpl; rewrite ?sum_replicate, ?omap_replicate; simpl;
    try lia; try done; [constructor|set_solver].
Qed.

(** Rewrites the counts and the held connections after handler [i] changed. *)
Ltac handler_counts H :=
  let l1 := fresh "l1" in let l2 := fresh "l2" in let E := fresh "E" in let Hi := fresh "Hi" in
  destruct (insert_split _ _ _ H) as (l1 & l2 & E & Hi);
  unfold held_conns in *; simpl in *; rewrite ?Hi in *; rewrite ?E in *;
  rewrite ?sum_list_with_app, ?omap_app in *; simpl in *.

Lemma admit_inv n conn p :
  pool_inv n p -> conn ∉ p_open p -> pool_inv n (snd (admit_conn conn p)).
Proof.
  intros [Hs Ht Ho Hop He Hr] Hc. unfold admit_conn.
  destruct (negb (p_stopping p) && (0 <? p_idle p)%nat) eqn:E; [|by split].
  bool_prop. match goal with H : (0 <? _)%nat = true |- _ => apply Nat.ltb_lt in H end.
  split; unfold held_conns in *; simpl in *; try done.
  - rewrite length_app. simpl. lia.
  - rewrite <- app_assoc. simpl. rewrite <- Permutation_middle. constructor; [|done].
    by rewrite <- Hop.
  - intros c. rewrite elem_of_union, elem_of_singleton, Hop. set_solver.
  - intros Hx. destruct (He Hx). congruence.
Qed.

(** A turn changes the pool by at most one admission. *)
Lemma turn_pool opts ready accepted p goes_on calls p' :
  acceptor_turn opts ready accepted p = (goes_on, calls, p') ->
  p' = p \/ exists conn, accepted = Some conn /\ p' = snd (admit_conn conn p).
Proof.
  unfold acceptor_turn. destruct ready as [| |l w]; [by intros [= <- <- <-]; left..|].
  destruct w; [by intros [= <- <- <-]; left|]. destruct l; [|by intros [= <- <- <-]; left].
  destruct accepted as [conn|]; [|by intros [= <- <- <-]; left]. cbn [negb].
  destruct (admit_conn conn p) as [taken p1] eqn:E.
  destruct taken; intros [= <- <- <-]; right; exists conn; by rewrite E.
Qed.

Lemma control_step_inv opts n p p' : pool_inv n p -> control_step opts p p' -> pool_inv n p'.
Proof.
  intros Hi Hst. inversion Hst as [ready acc goes_on calls ? p1 Hacc Hf Hw Ht|? ? Hd]; subst; clear Hst.
  - assert (pool_inv n p1) as Hp1.
    { apply turn_pool in Ht as [->|(conn & -> & ->)]; [done|]. apply admit_inv; auto. }
    destruct goes_on; [done|]. by destruct Hp1; split.
  - destruct Hi as [Hs Ht Ho Hop He Hr]. unfold shutdown_pool in Hd.
    destruct (p_running p); simpl in Hd; [|done]. simplify_eq.
    split; try done. simpl. intros Hx. by destruct (He Hx).
Qed.

Lemma handler_step_inv n p p' : pool_inv n p -> handler_step p p' -> pool_inv n p'.
Proof.
  intros [Hs Ht Ho Hop He Hr] Hst. inversion Hst; subst; clear Hst.
  - assert (forall b : Prop, (0 < sum_list_with is_exited (p_handlers p))%nat -> b) as Hne.
    { intros b Hx. destruct (He Hx) as [_ Hq]. congruence. }
    handler_counts H. rewrite H0 in *. simpl in *.
    assert (conn :: rest ++ omap conn_of l1 ++ omap conn_of l2 ≡ₚ
            rest ++ omap conn_of l1 ++ conn :: omap conn_of l2) as Hp by solve_Permutation.
    split; unfold held_conns; simpl; rewrite ?E, ?Hi, ?sum_list_with_app, ?omap_app; simpl; try lia; try done.
    + by rewrite <- Hp.
    + intros c. by rewrite <- Hp.
    + intros Hx. by apply Hne.
  - handler_counts H.
    assert (p_queued p ++ omap conn_of l1 ++ conn :: omap conn_of l2 ≡ₚ
            conn :: p_queued p ++ omap conn_of l1 ++ omap conn_of l2) as Hp by solve_Permutation.
    rewrite Hp in Ho. setoid_rewrite Hp in Hop. apply NoDup_cons in Ho as [Hn Ho].
    split; unfold held_conns; simpl; rewrite ?E, ?Hi, ?sum_list_with_app, ?omap_app; simpl; try lia; try done.
    intros c. rewrite elem_of_difference, elem_of_singleton, Hop. set_solver.
  - handler_counts H. split; unfold held_conns; simpl; rewrite ?E, ?Hi, ?sum_list_with_app, ?omap_app; simpl;
      try lia; try done.
  - handler_counts H. split; unfold held_conns; simpl; rewrite ?E, ?Hi, ?sum_list_with_app, ?omap_app; simpl;
      try lia; try done.
Qed.

Lemma pool_reachable_inv opts p : star (pool_step opts) (started_pool opts) p -> pool_inv (handlers opts) p.
Proof.
  intros Hs. eapply star_invariant; [|exact Hs|apply started_inv].
  intros s t Hi [H|H]; [by eapply control_step_inv|by eapply handler_step_inv].
Qed.

(** Every queued connection has a handler of its own to take it. *)
Lemma queued_waited n p : pool_inv n p -> (length (p_queued p) <= sum_list_with is_waiting (p_handlers p))%nat.
Proof.
  intros [Hs Ht _ _ He _]. destruct (Nat.eq_dec (sum_list_with is_exited (p_handlers p)) O) as [Hz|Hz]; [lia|].
  destruct He as [_ ->]; [lia|]. simpl. lia.
Qed.

(** ** Draining *)

Definition all_exited (p : pool) : Prop := Forall (fun h => h = Exited) (p_handlers p).

(** Every handler step gets closer to the end. *)
Definition distance (p : pool) : nat :=
  (3 * length (p_queued p)
   + sum_list_with (fun h => match h with Serving _ => 3 | Releasing => 2 | Waiting => 1 | Exited => 0 end)
       (p_handlers p))%nat.

Lemma handler_step_closer p p' : handler_step p p' -> (distance p' < distance p)%nat.
Proof.
  intros Hst. inversion Hst; subst; clear Hst; unfold distance; simpl;
    destruct (insert_split _ _ _ H) as (l1 & l2 & E & Hi); rewrite Hi, E;
    rewrite !sum_list_with_app; simpl; try lia.
  rewrite H0. simpl. lia.
Qed.

Lemma handler_step_stopping p p' : handler_step p p' -> p_stopping p' = p_stopping p.
Proof. by destruct 1. Qed.

Lemma pool_step_stopping opts p p' :
  pool_step opts p p' -> p_stopping p = true -> p_stopping p' = true.
Proof.
  intros [Hc|Hh] Hs; [|by rewrite (handler_step_stopping _ _ Hh)].
  inversion Hc as [ready acc goes_on calls ? p1 Hacc Hf Hw Ht|? ? Hd]; subst.
  - assert (p_stopping p1 = true) as H1.
    { apply turn_pool in Ht as [->|(conn & _ & ->)]; [done|]. unfold admit_conn. by destruct (_ && _). }
    by destruct goes_on.
  - unfold shutdown_pool in Hd. case_match; by simplify_eq.
Qed.

(** A stopping pool with a live handler can go on. *)
Lemma handler_progress p :
  p_stopping p = true -> all_exited p \/ exists p', handler_step p p'.
Proof.
  intros Hs. unfold all_exited. destruct (decide (Forall (fun h => h = Exited) (p_handlers p))) as [|Hn]; [by left|].
  right. apply not_Forall_Exists in Hn; [|apply _]. apply Exists_exists in Hn as (h & Hin & Hh).
  apply list_elem_of_lookup_1 in Hin as [i Hi]. destruct h as [|conn| |]; [| | |by destruct Hh].
  - destruct (p_queued p) as [|c q] eqn:Hq; eexists; [by eapply h_exit|by eapply h_take].
  - eexists. by eapply h_close.
  - eexists. by eapply h_release.
Qed.

Lemma handler_terminates p : Acc (fun p' p => handler_step p p') p.
Proof.
  remember (distance p) as d eqn:Hd. revert p Hd.
  induction d as [d IH] using lt_wf_ind; intros p ->. constructor. intros p' Hst.
  eapply IH; [|done]. by apply handler_step_closer.
Qed.

Lemma handlers_drain p :
  p_stopping p = true -> exists p', star handler_step p p' /\ all_exited p'.
Proof.
  induction (handler_terminates p) as [p _ IH]. intros Hs.
  destruct (handler_progress p Hs) as [Ha|[p' Hst]]; [by exists p|].
  destruct (IH p' Hst) as (p'' & Hrun & Ha); [by rewrite (handler_step_stopping _ _ Hst)|].
  exists p''. by split; [econstructor|].
Qed.

Lemma exited_empty n p : (0 < n)%nat -> pool_inv n p -> all_exited p ->
  p_queued p = [] /\ p_open p = ∅ /\ p_idle p = n.
Proof.
  intros Hn [Hs Ht Ho Hop He Hr] Ha.
  assert (p_handlers p = replicate (length (p_handlers p)) Exited) as E.
  { symmetry. apply replicate_as_Forall. split; [done|]. by eapply Forall_impl; [exact Ha|]. }
  set (k := length (p_handlers p)) in *. clearbody k.
  unfold held_conns in *. rewrite E in *. rewrite !sum_replicate in *. simpl in *.
  destruct He as [_ Hq]; [lia|]. rewrite Hq in *. simpl in *. split_and!; [done| |lia].
  apply set_eq. intros c. rewrite Hop. assert (omap conn_of (replicate k Exited) = []) as ->
    by (clear; by induction k). set_solver.
Qed.

(** ** The server's life *)

(** A server that holds nothing: new, or shut down. *)
Definition at_rest (srv : server) : Prop :=
  srv_listener srv = closed_socket /\ srv_wake srv = (-1, -1) /\
  p_queued (srv_pool srv) = [] /\ p_handlers (srv_pool srv) = [] /\
  p_open (srv_pool srv) = ∅ /\ p_running (srv_pool srv) = false.

Lemma new_server_at_rest : at_rest new_server.
Proof. done. Qed.

(** [start] of a server at rest either fails, leaves the server as it was and has closed
    the listening socket it opened, or has the socket, the wake pair and a fresh pool. *)
Lemma server_start_spec strerror addr port opts h a wake srv r closed srv' :
  at_rest srv -> server_start strerror addr port opts h a wake srv = (r, closed, srv') ->
  match r with
  | Ok _ => closed = [] /\ srv_pool srv' = started_pool opts /\ start_check opts false h = Ok tt /\
      wake = Ok (srv_wake srv') /\ ans_socket a = Ok (l_fd (srv_listener srv')) /\
      exists ss, ans_getsockname a = Ok ss /\ port_from ss = Some (l_port (srv_listener srv'))
  | Error e => srv' = srv /\ e <> [] /\
      (closed = [] \/ exists sock, ans_socket a = Ok sock /\ (closed = [sock] \/ sock < 0))
  end.
Proof.
  destruct srv as [l w p]. intros (Hl & Hw & Hq & Hh & Ho & Hr). simpl in *. subst l w.
  unfold server_start. simpl. rewrite Hr.
  destruct (start_check opts false h) as [[]|e] eqn:Ec.
  2: { intros [= <- <- <-]. split_and!; [done| |by left]. revert Ec. unfold start_check.
       repeat case_match; intros [= <-]; done. }
  destruct (listen_open _ _ _ _ _ _) as [[r1 c1] l1] eqn:El. apply listen_open_spec in El.
  destruct r1 as [[]|e].
  - destruct El as (sock & Hs & <- & -> & Hp & _). destruct wake as [w|err]; intros [= <- <- <-]; simpl.
    + split_and!; try done. unfold started_pool, start_pool. by rewrite Hq, Hh, Ho.
    + split_and!; [done|by destruct (strerror err)|]. right. exists (l_fd l1). split; [done|].
      destruct (Z.leb_spec 0 (l_fd l1)); [by left|by right].
  - destruct El as (-> & He & Hc). intros [= <- <- <-]. split_and!; [done|done|].
    destruct Hc as [->|(sock & ? & ->)]; [by left|]. right. exists sock. by split; [|left].
Qed.

(** Deadlines are exact and never the zero that means no deadline. *)
Lemma set_deadline_exact ms :
  0 < ms -> let tv := set_deadline ms in
  0 <= tv_sec tv /\ 0 <= tv_usec tv < 1000000 /\ tv_sec tv * 1000000 + tv_usec tv = ms * 1000.
Proof.
  intros H. unfold set_deadline. simpl. rewrite Z.quot_div_nonneg, Z.rem_mod_nonneg by lia.
  pose proof (Z.div_mod ms 1000 ltac:(lia)). pose proof (Z.mod_pos_bound ms 1000 ltac:(lia)).
  pose proof (Z.div_pos ms 1000 ltac:(lia) ltac:(lia)). lia.
Qed.

Lemma restart_same strerror addr port opts h a wake srv :
  at_rest srv ->
  server_start strerror addr port opts h a wake srv =
  let '(r, c, s) := server_start strerror addr port opts h a wake new_server in
  (r, c, match r with Ok _ => s | Error _ => srv end).
Proof.
  intros Hrest. assert (srv_listener srv = closed_socket) as Hl by apply Hrest.
  assert (p_running (srv_pool srv) = false) as Hr by apply Hrest.
  destruct (server_start _ _ _ _ _ _ _ srv) as [[r c] s] eqn:E.
  destruct (server_start _ _ _ _ _ _ _ new_server) as [[r' c'] s'] eqn:E'.
  assert (r = r' /\ c = c' /\ srv_listener s = srv_listener s') as (<- & <- & Hls).
  { revert E E'. unfold server_start. rewrite Hl, Hr. simpl.
    repeat case_match; intros; simplify_eq/=; done. }
  pose proof (server_start_spec _ _ _ _ _ _ _ _ _ _ _ Hrest E) as H1.
  pose proof (server_start_spec _ _ _ _ _ _ _ _ _ _ _ new_server_at_rest E') as H2.
  destruct r as [[]|e]; [|by destruct H1 as [-> _]].
  destruct H1 as (-> & Hp & _ & Hw & _), H2 as (_ & Hp' & _ & Hw' & _).
  do 2 f_equal. destruct s as [l w p], s' as [l' w' p']. simpl in *. congruence.
Qed.

(** * Theorems *)

(** C23. The pool is bounded and accounts for every connection (ADR-0013): at any moment
    the connections accepted and not yet released fit the configured handlers, an open
    connection is held in exactly one place, queued or by one handler, and every queued
    connection has a handler of its own waiting for it. *)
Theorem pool_accounts opts p :
  star (pool_step opts) (started_pool opts) p ->
  (length (p_queued p) + sum_list_with is_busy (p_handlers p) <= handlers opts)%nat /\
  NoDup (held_conns p) /\ (forall c, c ∈ p_open p <-> c ∈ held_conns p) /\
  (length (p_queued p) <= sum_list_with is_waiting (p_handlers p))%nat.
Proof.
  intros Hp%pool_reachable_inv. pose proof (queued_waited _ _ Hp). destruct Hp as [Hs Ht Ho Hop He _].
  split_and!; [lia|done..].
Qed.

(** Shutdown drains: once it has begun, the handlers cannot run for ever, none of them
    is ever stuck before it has exited, and when all have exited every accepted
    connection has been served and closed. *)
Theorem shutdown_drains opts p :
  (0 < handlers opts)%nat -> star (pool_step opts) (started_pool opts) p -> p_stopping p = true ->
  Acc (fun q' q => handler_step q q') p /\
  (all_exited p \/ exists p', handler_step p p') /\
  exists p', star handler_step p p' /\ all_exited p' /\ p_queued p' = [] /\ p_open p' = ∅.
Proof.
  intros Hn Hr Hs. split_and!; [apply handler_terminates|by apply handler_progress|].
  destruct (handlers_drain p Hs) as (p' & Hrun & Ha). exists p'. split; [done|]. split; [done|].
  assert (pool_inv (handlers opts) p') as Hi.
  { eapply star_invariant; [|exact Hrun|by apply pool_reachable_inv]. intros a b. apply handler_step_inv. }
  destruct (exited_empty _ _ Hn Hi Ha) as (? & ? & _). done.
Qed.

(** A server can be restarted: after a shutdown whose threads have ended, every descriptor
    the start opened has been closed exactly once, no connection is left open, and the
    server answers a further start exactly as a new one does. *)
Theorem shutdown_restores strerror addr port opts h a wake srv p closed srv' :
  0 <= l_fd (srv_listener srv) -> 0 <= fst (srv_wake srv) -> 0 <= snd (srv_wake srv) ->
  server_start strerror addr port opts h a wake new_server = (Ok tt, [], srv) ->
  star (pool_step opts) (srv_pool srv) p -> p_stopping p = true -> all_exited p ->
  shutdown_finish (with_pool srv p) = (closed, srv') ->
  closed = [l_fd (srv_listener srv); fst (srv_wake srv); snd (srv_wake srv)] /\
  p_open (srv_pool srv') = ∅ /\
  forall strerror addr port opts h a wake,
    server_start strerror addr port opts h a wake srv' =
    let '(r, c, s) := server_start strerror addr port opts h a wake new_server in
    (r, c, match r with Ok _ => s | Error _ => srv' end).
Proof.
  intros H1 H2 H3 Hst Hrun Hs Ha Hf.
  apply server_start_spec in Hst as (_ & Hp & Hc & _); [|apply new_server_at_rest].
  rewrite Hp in Hrun. apply pool_reachable_inv in Hrun as Hi.
  assert (0 < handlers opts)%nat as Hn
    by (revert Hc; unfold start_check; destruct (Nat.eqb_spec (handlers opts) 0); [done|lia]).
  destruct (exited_empty _ _ Hn Hi Ha) as (Hq & Ho & _).
  assert (p_running p = false) as Hr by (rewrite (i_running _ _ Hi), Hs; done).
  unfold shutdown_finish, listen_close, close_wake, close_queued, with_pool in Hf. simpl in Hf.
  rewrite (proj2 (Z.leb_le _ _) H1), (proj2 (Z.leb_le _ _) H2), (proj2 (Z.leb_le _ _) H3), Hq, Ho in Hf.
  simplify_eq/=. split_and!; [done|set_solver|]. clear -Hr.
  intros strerror addr port opts h a wake. apply restart_same.
  by split_and!.
Qed.

(** The saturation response mis-declares its body: the bytes after its blank line are
    fifty-nine and its Content-Length says fifty-eight. *)
Theorem unavailable_body_misdeclared :
  exists head body, kServiceUnavailable = head ++ crlf2 ++ body /\
    find_sub crlf2 kServiceUnavailable = Some (length head) /\
    (exists pre post, head = pre ++ str "Content-Length: 58" ++ post) /\ slen body = 59.
Proof.
  exists (take (length kServiceUnavailable - 63) kServiceUnavailable),
    (drop (length kServiceUnavailable - 59) kServiceUnavailable).
  split_and!; [reflexivity|reflexivity| |reflexivity].
  exists (str "HTTP/1.1 503 Service Unavailable" ++ crlf ++ str "Content-Type: application/json" ++ crlf),
    (crlf ++ str "Connection: close"). reflexivity.
Qed.

(** ** Witnesses *)

Definition demo_options : ServerOptions := mkServerOptions 1 5000 5000.
Definition demo_accepted : pool := snd (admit_conn 7 (started_pool demo_options)).
Definition demo_serving : pool := handler_take 0 7 [] demo_accepted.
Definition demo_stopping : pool :=
  mkPool [] 0 true false 1 0 [Serving 7] true ({[7]} ∪ ∅).

Lemma demo_pool_run : star (pool_step demo_options) (started_pool demo_options) demo_stopping.
Proof.
  apply (star_step _ _ demo_accepted).
  { left. eapply (c_turn _ (PollReady true false) (Some 7) true); [done|set_solver|done|reflexivity]. }
  apply (star_step _ _ demo_serving); [right; apply h_take; done|].
  apply (star_step _ _ demo_stopping); [left; by apply c_shutdown|]. constructor.
Qed.

Lemma pool_accounts_witness : (length (p_queued demo_stopping) <= 1)%nat.
Proof.
  destruct (pool_accounts demo_options demo_stopping demo_pool_run) as (H & _).
  vm_compute in H |- *. lia.
Defined.

Lemma shutdown_drains_witness :
  exists p', star handler_step demo_stopping p' /\ p_open p' = ∅.
Proof.
  destruct (shutdown_drains demo_options demo_stopping) as (_ & _ & p' & H1 & _ & _ & H2);
    [simpl; lia|exact demo_pool_run|reflexivity|]. exists p'. split; [exact H1|exact H2].
Defined.

Lemma shutdown_restores_witness :
  exists srv', shutdown_finish (mkServer (mkListen 5 8080) (3, 4)
                   (mkPool [] 1 true false 0 0 [Exited] false ∅)) = ([5; 3; 4], srv') /\
    p_open (srv_pool srv') = ∅.
Proof.
  set (answers := mkAnswers true false (Ok 5) (Ok tt) (Ok tt) (Ok tt) (Ok (mkSockaddr AF_INET (31, 144)))).
  set (srv := mkServer (mkListen 5 8080) (3, 4) (started_pool demo_options)).
  set (p := mkPool [] 1 true false 0 0 [Exited] false ∅).
  destruct (shutdown_finish (with_pool srv p)) as [closed srv'] eqn:E.
  destruct (shutdown_restores (fun _ => []) (str "127.0.0.1") 8080 demo_options true answers (Ok (3, 4))
              srv p closed srv') as (Hc & Ho & _);
    [simpl; lia|simpl; lia|simpl; lia|reflexivity| |reflexivity|by repeat constructor|exact E|].
  - apply (star_step _ _ (mkPool [] 1 true false 0 0 [Waiting] true ∅)); [left; by apply c_shutdown|].
    apply (star_step _ _ (mkPool [] 1 true false 0 0 [Waiting] false ∅)).
    { left. set (q := mkPool [] 1 true false 0 0 [Waiting] true ∅).
      by refine (c_turn demo_options (PollReady false true) None false [] q q _ _ _ _). }
    apply (star_step _ _ p); [right; by apply (h_exit 0)|constructor].
  - rewrite Hc in E. exists srv'. split; [exact E|exact Ho].
Defined.
