(* ===== verification/Pool.v ===== *)
(** The threads of the connection server: src/cpp/src/server.cpp.

    [run_handler], [run_acceptor] and [shutdown] statement by statement, over the pool of
    Server.v: the mutex, the condition variable [work_ready] with its waits, [notify_one] after
    the lock is released, [notify_all] under it, spurious wake-ups, and the joins.

    [pool_threads_refine]: every run of the threads is a run of [Server.pool_step], so what
    Server.v shows of the critical sections holds of the program.
    [no_connection_left_behind]: no wake-up is ever lost; the threads cannot run for ever
    without news from outside, and they come to rest only when every accepted connection
    has been served, and, after [shutdown], only when it has joined every thread. *)

From S2P Require Import Prelude Server.

(** * The threads *)

(** Where a handler thread is. *)
Inductive hcode :=
| HLocking               (* about to lock: at the top of the loop, or woken *)
| HTesting               (* holds the mutex; the predicate of the wait is next *)
| HAsleep                (* in [wait], mutex released *)
| HTaken (conn : Z)      (* a connection in hand, the mutex still held *)
| HServing (conn : Z)    (* in the connection handler *)
| HReleasing             (* connection closed, about to lock *)
| HFreeing               (* holds the mutex; the slot is not yet free *)
| HFreed                 (* the slot is free, the mutex still held *)
| HLeaving               (* returning, the mutex still held *)
| HEnded.

(** Where the accept thread is. *)
Inductive acode :=
| APolling
| ALocking (conn : Z)    (* accepted, deadlines set, about to lock *)
| ADeciding (conn : Z)   (* holds the mutex *)
| AAccepted              (* queued, the mutex still held *)
| ANotifying             (* mutex released, [notify_one] is next *)
| ARefused (conn : Z)    (* counted as rejected, the mutex still held *)
| ASending (conn : Z)    (* mutex released, the refusal is next *)
| AEnded.

(** Where the thread that calls [shutdown] is. *)
Inductive ocode :=
| OAway                  (* has not called it *)
| OLocking
| OChecking              (* holds the mutex *)
| OIgnored               (* not running: returning, the mutex still held *)
| OStopped               (* [stopping] set, wake byte written, the mutex still held *)
| ONotified              (* [notify_all] done, the mutex still held *)
| OJoinAcceptor
| OJoin (i : nat)        (* joining handler [i] *)
| OJoined.

#[export] Instance hcode_eq_dec : EqDecision hcode.
Proof. solve_decision. Defined.
#[export] Instance acode_eq_dec : EqDecision acode.
Proof. solve_decision. Defined.

Inductive who := WHandler (i : nat) | WAcceptor | WOwner.
#[export] Instance who_eq_dec : EqDecision who.
Proof. solve_decision. Defined.

Record net := mkNet {
  w_pool : pool;
  w_lock : option who;
  w_handlers : list hcode;
  w_acceptor : acode;
  w_owner : ocode
}.

(** A thread goes on at another place, with the mutex and the pool as given. *)
Definition handler_at (i : nat) (c : hcode) (lock : option who) (p : pool) (w : net) : net :=
  mkNet p lock (<[i := c]> (w_handlers w)) (w_acceptor w) (w_owner w).
Definition acceptor_at (c : acode) (lock : option who) (p : pool) (w : net) : net :=
  mkNet p lock (w_handlers w) c (w_owner w).
Definition owner_at (c : ocode) (lock : option who) (p : pool) (w : net) : net :=
  mkNet p lock (w_handlers w) (w_acceptor w) c.

(** ** run_handler *)
Definition handler_turn (i : nat) (w : net) : option net :=
  let p := w_pool w in
  match w_handlers w !! i with
  | Some HLocking =>
      if decide (w_lock w = None) then Some (handler_at i HTesting (Some (WHandler i)) p w) else None
  | Some HTesting =>
      match p_queued p with
      | conn :: rest => Some (handler_at i (HTaken conn) (w_lock w) (handler_take i conn rest p) w)
      | [] =>
          if p_stopping p then Some (handler_at i HLeaving (w_lock w) (set_handler i Exited p) w)
          else Some (handler_at i HAsleep None p w)
      end
  | Some (HTaken conn) => Some (handler_at i (HServing conn) None p w)
  | Some (HServing conn) => Some (handler_at i HReleasing (w_lock w) (handler_close i conn p) w)
  | Some HReleasing =>
      if decide (w_lock w = None) then Some (handler_at i HFreeing (Some (WHandler i)) p w) else None
  | Some HFreeing => Some (handler_at i HFreed (w_lock w) (handler_release i p) w)
  | Some HFreed => Some (handler_at i HLocking None p w)
  | Some HLeaving => Some (handler_at i HEnded None p w)
  | Some HAsleep | Some HEnded | None => None
  end.

(** ** run_acceptor *)

Definition wake_up (c : hcode) : hcode := match c with HAsleep => HLocking | _ => c end.

(** [notify_one] wakes one of the sleepers, [i], if there is any. *)
Definition notify_one (i : nat) (cs : list hcode) : option (list hcode) :=
  if decide (HAsleep ∈ cs) then
    if decide (cs !! i = Some HAsleep) then Some (<[i := HLocking]> cs) else None
  else Some cs.

(** The accept thread from [poll] reporting a connection to the next [poll]; [i] is the
    sleeper that is woken. *)
Definition acceptor_code_turn (i : nat) (w : net) : option net :=
  let p := w_pool w in
  match w_acceptor w with
  | APolling => if p_stopping p then Some (acceptor_at AEnded (w_lock w) (stop_accepting p) w) else None
  | ALocking conn =>
      if decide (w_lock w = None) then Some (acceptor_at (ADeciding conn) (Some WAcceptor) p w) else None
  | ADeciding conn =>
      let '(accepted, p1) := admit_conn conn p in
      Some (acceptor_at (if accepted then AAccepted else ARefused conn) (w_lock w) p1 w)
  | AAccepted => Some (acceptor_at ANotifying None p w)
  | ANotifying =>
      match notify_one i (w_handlers w) with
      | Some cs => Some (mkNet p (w_lock w) cs APolling (w_owner w))
      | None => None
      end
  | ARefused conn => Some (acceptor_at (ASending conn) None p w)
  | ASending conn => Some (acceptor_at APolling (w_lock w) p w)
  | AEnded => None
  end.

(** ** shutdown *)
Definition owner_turn (w : net) : option net :=
  let p := w_pool w in
  match w_owner w with
  | OAway => None
  | OLocking => if decide (w_lock w = None) then Some (owner_at OChecking (Some WOwner) p w) else None
  | OChecking =>
      match shutdown_pool p with
      | None => Some (owner_at OIgnored (w_lock w) p w)
      | Some p1 => Some (owner_at OStopped (w_lock w) p1 w)
      end
  | OIgnored => Some (owner_at OJoined None p w)
  | OStopped => Some (mkNet p (w_lock w) (wake_up <$> w_handlers w) (w_acceptor w) ONotified)
  | ONotified => Some (owner_at OJoinAcceptor None p w)
  | OJoinAcceptor => if decide (w_acceptor w = AEnded) then Some (owner_at (OJoin 0) (w_lock w) p w) else None
  | OJoin i =>
      match w_handlers w !! i with
      | None => Some (owner_at OJoined (w_lock w) p w)
      | Some HEnded => Some (owner_at (OJoin (S i)) (w_lock w) p w)
      | Some _ => None
      end
  | OJoined => None
  end.

(** ** The system *)

(** A turn of one of the threads. *)
Inductive net_turn : net -> net -> Prop :=
| n_handler i w w' : handler_turn i w = Some w' -> net_turn w w'
| n_acceptor i w w' : acceptor_code_turn i w = Some w' -> net_turn w w'
| n_owner w w' : owner_turn w = Some w' -> net_turn w w'.

(** What comes from outside: a connection, on a descriptor that is not open; [poll] failing for
    good; a spurious wake-up; the call of [shutdown]. *)
Inductive net_news : net -> net -> Prop :=
| n_connection conn w : w_acceptor w = APolling -> conn ∉ p_open (w_pool w) ->
    net_news w (acceptor_at (ALocking conn) (w_lock w) (w_pool w) w)
| n_poll_fails w : w_acceptor w = APolling ->
    net_news w (acceptor_at AEnded (w_lock w) (stop_accepting (w_pool w)) w)
| n_spurious i w : w_handlers w !! i = Some HAsleep ->
    net_news w (handler_at i HLocking (w_lock w) (w_pool w) w)
| n_shutdown w : w_owner w = OAway -> net_news w (owner_at OLocking (w_lock w) (w_pool w) w).

Definition net_step (w w' : net) : Prop := net_turn w w' \/ net_news w w'.

(** The threads that [start] has spawned. *)
Definition started_net (opts : ServerOptions) : net :=
  mkNet (started_pool opts) None (replicate (handlers opts) HLocking) APolling OAway.

(** * The invariant *)

(** What the pool of Server.v sees of a handler. *)
Definition place (c : hcode) : handler :=
  match c with
  | HLocking | HTesting | HAsleep | HFreed => Waiting
  | HTaken conn | HServing conn => Serving conn
  | HReleasing | HFreeing => Releasing
  | HLeaving | HEnded => Exited
  end.

(** It will look at the queue before it sleeps. *)
Definition attentive (c : hcode) : nat := match c with HLocking | HTesting | HFreed => 1 | _ => 0 end%nat.
(** A notification on its way. *)
Definition notifying (a : acode) : nat := match a with AAccepted | ANotifying => 1 | _ => 0 end%nat.

Definition h_holds (c : hcode) : bool :=
  match c with HTesting | HTaken _ | HFreeing | HFreed | HLeaving => true | _ => false end.
Definition a_holds (a : acode) : bool := match a with ADeciding _ | AAccepted | ARefused _ => true | _ => false end.
Definition o_holds (o : ocode) : bool := match o with OChecking | OIgnored | OStopped | ONotified => true | _ => false end.
Definition holds (w : net) (t : who) : bool :=
  match t with
  | WHandler i => match w_handlers w !! i with Some c => h_holds c | None => false end
  | WAcceptor => a_holds (w_acceptor w)
  | WOwner => o_holds (w_owner w)
  end.

Definition o_stopping (o : ocode) : bool := match o with OAway | OLocking | OChecking => false | _ => true end.
Definition o_notified (o : ocode) : bool := match o with ONotified | OJoinAcceptor | OJoin _ | OJoined => true | _ => false end.
(** Whom [shutdown] has joined. *)
Definition o_joined (o : ocode) (a : acode) (cs : list hcode) : Prop :=
  match o with
  | OJoin i => a = AEnded /\ Forall (fun c => c = HEnded) (take i cs)
  | OJoined => a = AEnded /\ Forall (fun c => c = HEnded) cs
  | OIgnored => False
  | _ => True
  end.

Record net_inv (n : nat) (w : net) : Prop := {
  ni_pool : pool_inv n (w_pool w);
  ni_places : p_handlers (w_pool w) = place <$> w_handlers w;
  ni_accepting : p_accepting (w_pool w) = bool_decide (w_acceptor w <> AEnded);
  ni_fresh conn : w_acceptor w = ALocking conn \/ w_acceptor w = ADeciding conn -> conn ∉ p_open (w_pool w);
  ni_lock t : bool_decide (w_lock w = Some t) = holds w t;
  ni_count : (length (p_queued (w_pool w)) <= sum_list_with attentive (w_handlers w) + notifying (w_acceptor w))%nat;
  ni_stopping : p_stopping (w_pool w) = o_stopping (w_owner w);
  ni_woken : o_notified (w_owner w) = true -> HAsleep ∉ w_handlers w;
  ni_joined : o_joined (w_owner w) (w_acceptor w) (w_handlers w)
}.

Lemma sum_insert {A} (f : A -> nat) (l : list A) i x y :
  l !! i = Some x -> (sum_list_with f (<[i := y]> l) + f x = sum_list_with f l + f y)%nat.
Proof.
  intros Hi. destruct (insert_split _ _ _ Hi) as (l1 & l2 & -> & ->). rewrite !sum_list_with_app. simpl. lia.
Qed.

(** The mutex changes hands only through thread [t]. *)
Lemma lock_turn w w' t :
  (forall t, bool_decide (w_lock w = Some t) = holds w t) ->
  (forall t', t' <> t -> holds w' t' = holds w t') -> holds w' t = bool_decide (w_lock w' = Some t) ->
  w_lock w' = w_lock w \/
    ((w_lock w = None \/ w_lock w = Some t) /\ (w_lock w' = None \/ w_lock w' = Some t)) ->
  forall t, bool_decide (w_lock w' = Some t) = holds w' t.
Proof.
  intros Hl Ho Ht Hm t'. destruct (decide (t' = t)) as [->|Hne]; [done|]. rewrite Ho, <- Hl by done.
  destruct Hm as [->|[[H1|H1] [H2|H2]]]; [done|..]; rewrite H1, H2; repeat case_bool_decide; congruence.
Qed.

Lemma holder_locked w t : (forall t, bool_decide (w_lock w = Some t) = holds w t) -> holds w t = true -> w_lock w = Some t.
Proof. intros Hl H. rewrite <- Hl in H. by bool_prop. Qed.

Lemma handler_holds_other i c lock p w t :
  t <> WHandler i -> holds (handler_at i c lock p w) t = holds w t.
Proof. intros Hne. destruct t as [j| |]; simpl; [|done|done]. rewrite list_lookup_insert_ne by congruence. done. Qed.
Lemma handler_holds_same i c0 c lock p w :
  w_handlers w !! i = Some c0 -> holds (handler_at i c lock p w) (WHandler i) = h_holds c.
Proof. intros Hi. simpl. rewrite list_lookup_insert_eq; [done|by eapply lookup_lt_Some]. Qed.

(** ** Turns of a handler *)

(** What a handler's move must respect. *)
Lemma handler_inv n w i c0 c lock p :
  net_inv n w -> w_handlers w !! i = Some c0 ->
  (p_handlers p = <[i := place c]> (p_handlers (w_pool w)) /\ pool_inv n p /\
   p_accepting p = p_accepting (w_pool w) /\ p_open p ⊆ p_open (w_pool w) /\ p_stopping p = p_stopping (w_pool w)) ->
  (length (p_queued p) + attentive c0 <= length (p_queued (w_pool w)) + attentive c \/ p_queued p = [])%nat ->
  lock = w_lock w \/ ((w_lock w = None \/ w_lock w = Some (WHandler i)) /\ (lock = None \/ lock = Some (WHandler i))) ->
  h_holds c = bool_decide (lock = Some (WHandler i)) ->
  (c = HAsleep -> p_stopping p = false) -> c0 <> HEnded ->
  net_inv n (handler_at i c lock p w).
Proof.
  intros [Hp Hpl Ha Hf Hl Hc Hs Hw Hj] Hi (Hh & Hinv & Hacc & Hop & Hst) Hq Hlk Hh2 Hsl Hne.
  pose proof (sum_insert attentive _ _ _ c Hi) as Hsum.
  split; simpl; try done.
  - rewrite Hh, Hpl, list_fmap_insert. done.
  - by rewrite Hacc.
  - intros conn H. specialize (Hf conn H). set_solver.
  - apply (lock_turn w (handler_at i c lock p w) (WHandler i)); try done.
    + intros t' Ht'. by apply handler_holds_other.
    + by erewrite handler_holds_same.
  - destruct Hq as [Hq|Hq]; [|rewrite Hq; simpl; lia]. lia.
  - by rewrite Hst.
  - intros Hn Hin. specialize (Hw Hn). rewrite Hst in Hsl.
    assert (o_stopping (w_owner w) = true) as Ho by (by destruct (w_owner w)).
    apply list_elem_of_lookup in Hin as [j Hj2]. apply list_lookup_insert_Some in Hj2 as [(<- & E & _)|[_ Hj2]].
    + rewrite Hs, Ho in Hsl. by specialize (Hsl E).
    + apply Hw, list_elem_of_lookup. eauto.
  - destruct (w_owner w) as [| | | | | | |k|]; simpl in *; try done.
    + destruct Hj as [-> Hj]. split; [done|]. destruct (decide (i < k)%nat) as [Hk|Hk].
      * exfalso. rewrite Forall_forall in Hj. apply Hne, Hj, list_elem_of_lookup. exists i. by rewrite lookup_take_lt.
      * rewrite take_insert_ge by lia. done.
    + destruct Hj as [-> Hj]. exfalso. rewrite Forall_forall in Hj. apply Hne, Hj, list_elem_of_lookup. eauto.
Qed.

Lemma handler_place n w i c : net_inv n w -> w_handlers w !! i = Some c -> p_handlers (w_pool w) !! i = Some (place c).
Proof. intros Hi Hc. rewrite (ni_places _ _ Hi), list_lookup_fmap, Hc. done. Qed.

Lemma insert_same_place n w i c0 c : net_inv n w -> w_handlers w !! i = Some c0 -> place c = place c0 ->
  p_handlers (w_pool w) = <[i := place c]> (p_handlers (w_pool w)).
Proof. intros Hi Hc ->. symmetry. by apply list_insert_id, (handler_place n). Qed.

(** The same when the pool does not see the move. *)
Lemma handler_inv_quiet n w i c0 c lock :
  net_inv n w -> w_handlers w !! i = Some c0 -> place c = place c0 ->
  (attentive c0 <= attentive c \/ p_queued (w_pool w) = [])%nat ->
  lock = w_lock w \/ ((w_lock w = None \/ w_lock w = Some (WHandler i)) /\ (lock = None \/ lock = Some (WHandler i))) ->
  h_holds c = bool_decide (lock = Some (WHandler i)) ->
  (c = HAsleep -> p_stopping (w_pool w) = false) -> c0 <> HEnded ->
  net_inv n (handler_at i c lock (w_pool w) w).
Proof.
  intros Hi Hc Hp Ha Hl Hh Hs Hn. eapply handler_inv; try done.
  - split_and!; try done; [by eapply insert_same_place|by apply ni_pool].
  - destruct Ha; [left; lia|by right].
Qed.

Lemma handler_turn_spec n i w w' : net_inv n w -> handler_turn i w = Some w' ->
  net_inv n w' /\ (w_pool w' = w_pool w \/ handler_step (w_pool w) (w_pool w')).
Proof.
  intros Hi Ht. unfold handler_turn in Ht. destruct (w_handlers w !! i) as [c|] eqn:Ec; [|done].
  pose proof (handler_place _ _ _ _ Hi Ec) as Hpl. pose proof (ni_lock _ _ Hi) as Hl.
  assert (h_holds c = true -> w_lock w = Some (WHandler i)) as Hh
    by (intros H; apply holder_locked; [done|]; simpl; by rewrite Ec).
  assert (forall p, handler_step (w_pool w) p -> pool_inv n p) as Hstep
    by (intros p; apply handler_step_inv, ni_pool, Hi).
  assert (w_lock w = Some (WHandler i) -> true = bool_decide (w_lock w = Some (WHandler i))) as Hmine
    by (intros ->; by rewrite bool_decide_eq_true_2).
  destruct c; simpl in Hpl, Hh; try discriminate Ht; try specialize (Hh eq_refl).
  - case_decide as Hn; [|done]. simplify_eq. split; [|by left]. eapply handler_inv_quiet; try done; auto.
    by rewrite bool_decide_eq_true_2.
  - destruct (p_queued (w_pool w)) as [|conn rest] eqn:Eq.
    + destruct (p_stopping (w_pool w)) eqn:Es; simplify_eq.
      * assert (handler_step (w_pool w) (set_handler i Exited (w_pool w))) as Hx by (by apply h_exit).
        split; [|by right]. eapply handler_inv; try done; [by auto 10|by auto..].
      * split; [|by left]. eapply handler_inv_quiet; try done; auto.
    + simplify_eq. assert (handler_step (w_pool w) (handler_take i conn rest (w_pool w))) as Hx by (by apply h_take).
      split; [|by right]. eapply handler_inv; try done; [by auto 10| |by auto..].
      left. rewrite Eq. simpl. lia.
  - simplify_eq. split; [|by left]. eapply handler_inv_quiet; try done; auto.
  - simplify_eq. assert (handler_step (w_pool w) (handler_close i conn (w_pool w))) as Hx by (by apply h_close).
    split; [|by right]. eapply handler_inv; try done; [|by auto..|].
    + split_and!; try done; [by auto|]. simpl. set_solver.
    + simpl. rewrite Hl. simpl. by rewrite Ec.
  - case_decide as Hn; [|done]. simplify_eq. split; [|by left]. eapply handler_inv_quiet; try done; auto.
    by rewrite bool_decide_eq_true_2.
  - simplify_eq. assert (handler_step (w_pool w) (handler_release i (w_pool w))) as Hx by (by apply h_release).
    split; [|by right]. eapply handler_inv; try done; [by auto 10| |by auto..].
    left. simpl. lia.
  - simplify_eq. split; [|by left]. eapply handler_inv_quiet; try done; auto.
  - simplify_eq. split; [|by left]. eapply handler_inv_quiet; try done; auto.
Qed.

(** ** Turns of the accept thread *)

Lemma acceptor_inv n w a lock p :
  net_inv n w -> w_acceptor w <> AEnded ->
  (p_handlers p = p_handlers (w_pool w) /\ pool_inv n p /\ p_accepting p = bool_decide (a <> AEnded) /\
   p_stopping p = p_stopping (w_pool w)) ->
  (forall conn, a = ALocking conn \/ a = ADeciding conn -> conn ∉ p_open p) ->
  (length (p_queued p) + notifying (w_acceptor w) <= length (p_queued (w_pool w)) + notifying a)%nat ->
  lock = w_lock w \/ ((w_lock w = None \/ w_lock w = Some WAcceptor) /\ (lock = None \/ lock = Some WAcceptor)) ->
  a_holds a = bool_decide (lock = Some WAcceptor) ->
  net_inv n (acceptor_at a lock p w).
Proof.
  intros [Hp Hpl Ha Hf Hl Hc Hs Hw Hj] Hne (Hh & Hinv & Hacc & Hst) Hfr Hq Hlk Hah. split; simpl; try done.
  - by rewrite Hh.
  - apply (lock_turn w (acceptor_at a lock p w) WAcceptor); try done. by intros [] ?.
  - lia.
  - by rewrite Hst.
  - destruct (w_owner w); simpl in *; try done; by destruct Hj.
Qed.

Lemma acceptor_inv_quiet n w a lock :
  net_inv n w -> w_acceptor w <> AEnded -> a <> AEnded ->
  (forall conn, a = ALocking conn \/ a = ADeciding conn -> conn ∉ p_open (w_pool w)) ->
  (notifying (w_acceptor w) <= notifying a)%nat ->
  lock = w_lock w \/ ((w_lock w = None \/ w_lock w = Some WAcceptor) /\ (lock = None \/ lock = Some WAcceptor)) ->
  a_holds a = bool_decide (lock = Some WAcceptor) ->
  net_inv n (acceptor_at a lock (w_pool w) w).
Proof.
  intros Hi Hne Ha Hf Hn Hl Hh. apply acceptor_inv; try done; [|lia]. split_and!; try done; [by apply ni_pool|].
  rewrite (ni_accepting _ _ Hi). by rewrite !bool_decide_eq_true_2.
Qed.

(** Sleepers that are woken. *)
Lemma woken_inv n w cs a o :
  net_inv n w -> place <$> cs = place <$> w_handlers w ->
  (forall i, match cs !! i with Some c => h_holds c | None => false end =
             match w_handlers w !! i with Some c => h_holds c | None => false end) ->
  (sum_list_with attentive (w_handlers w) + notifying (w_acceptor w) <= sum_list_with attentive cs + notifying a
   \/ length (p_queued (w_pool w)) <= sum_list_with attentive cs)%nat ->
  (HAsleep ∉ w_handlers w -> HAsleep ∉ cs) -> (o_notified o = true -> o_notified (w_owner w) = true \/ HAsleep ∉ cs) ->
  p_accepting (w_pool w) = bool_decide (a <> AEnded) -> a_holds a = a_holds (w_acceptor w) ->
  (forall conn, a = ALocking conn \/ a = ADeciding conn -> conn ∉ p_open (w_pool w)) ->
  o_holds o = o_holds (w_owner w) -> o_stopping o = o_stopping (w_owner w) -> o_joined o a cs ->
  net_inv n (mkNet (w_pool w) (w_lock w) cs a o).
Proof.
  intros [Hp Hpl Ha Hf Hl Hc Hs Hw Hj] Hcs Hho Hsum Hsl Hno Hac Hah Hfr Hoh Hos Hjo. split; simpl; try done.
  - by rewrite Hcs.
  - intros t. rewrite Hl. destruct t; simpl; [by rewrite Hho|by rewrite Hah|by rewrite Hoh].
  - lia.
  - by rewrite Hos.
  - intros H. destruct (Hno H); auto.
Qed.

Lemma waking_same (i : nat) (cs : list hcode) :
  cs !! i = Some HAsleep ->
  place <$> <[i := HLocking]> cs = place <$> cs /\
  (forall j, match (<[i := HLocking]> cs) !! j with Some c => h_holds c | None => false end =
             match cs !! j with Some c => h_holds c | None => false end) /\
  (sum_list_with attentive (<[i := HLocking]> cs) = S (sum_list_with attentive cs)) /\
  forall P : hcode -> Prop, ~ P HAsleep -> forall k, Forall P (take k cs) -> Forall P (take k (<[i := HLocking]> cs)).
Proof.
  intros Hi. split_and!.
  - rewrite list_fmap_insert. apply list_insert_id. by rewrite list_lookup_fmap, Hi.
  - intros j. destruct (decide (i = j)) as [<-|Hne]; [|by rewrite list_lookup_insert_ne].
    rewrite list_lookup_insert_eq by (by eapply lookup_lt_Some). by rewrite Hi.
  - pose proof (sum_insert attentive _ _ _ HLocking Hi). simpl in *. lia.
  - intros P HP k Hk. destruct (decide (i < k)%nat) as [Hlt|Hge]; [|by rewrite take_insert_ge by lia].
    exfalso. rewrite Forall_forall in Hk. apply HP, Hk, list_elem_of_lookup. exists i. by rewrite lookup_take_lt.
Qed.

Lemma waking_joined i cs o a : cs !! i = Some HAsleep -> o_joined o a cs -> o_joined o a (<[i := HLocking]> cs).
Proof.
  intros Hi. destruct (waking_same i cs Hi) as (_ & _ & _ & HP).
  destruct o as [| | | | | | |k|]; simpl; try done; intros [-> Hj]; split; try done; [by apply HP|].
  exfalso. rewrite Forall_forall in Hj. specialize (Hj HAsleep). apply list_elem_of_lookup_2 in Hi. by apply Hj in Hi.
Qed.

Lemma attentive_waiting cs : HAsleep ∉ cs -> sum_list_with is_waiting (place <$> cs) = sum_list_with attentive cs.
Proof.
  induction cs as [|c cs IH]; [done|]. intros H. rewrite fmap_cons. cbn [sum_list_with]. rewrite IH by set_solver.
  destruct c; try done. set_solver.
Qed.

(** The pool does not see the turn, or it is a step of the pool. *)
Definition pool_turn (opts : ServerOptions) (p p' : pool) : Prop := p' = p \/ pool_step opts p p'.

Lemma pool_turn_inv opts n p p' : pool_inv n p -> pool_turn opts p p' -> pool_inv n p'.
Proof. intros Hi [->|[H|H]]; [done|by eapply control_step_inv|by eapply handler_step_inv]. Qed.

Lemma stop_accepting_spec opts n w ready : net_inv n w -> w_acceptor w = APolling ->
  acceptor_turn opts ready None (w_pool w) = (false, [], w_pool w) ->
  (forall listener, ready = PollReady listener true -> p_stopping (w_pool w) = true) ->
  net_inv n (acceptor_at AEnded (w_lock w) (stop_accepting (w_pool w)) w) /\
  pool_turn opts (w_pool w) (stop_accepting (w_pool w)).
Proof.
  intros Hi Ha Ht Hr. pose proof (ni_lock _ _ Hi WAcceptor) as Hl. simpl in Hl. rewrite Ha in Hl.
  assert (pool_turn opts (w_pool w) (stop_accepting (w_pool w))) as Hp.
  { right. left. eapply (c_turn opts ready None false); try done. rewrite (ni_accepting _ _ Hi), Ha. done. }
  split; [|done]. apply acceptor_inv; rewrite ?Ha; simpl; try done; [|by intros conn []|by left].
  split_and!; try done. eapply pool_turn_inv; [by apply ni_pool|exact Hp].
Qed.

Lemma decided_spec opts n w conn accepted p1 : net_inv n w -> w_acceptor w = ADeciding conn ->
  admit_conn conn (w_pool w) = (accepted, p1) ->
  net_inv n (acceptor_at (if accepted then AAccepted else ARefused conn) (w_lock w) p1 w) /\
  pool_turn opts (w_pool w) p1.
Proof.
  intros Hi Ha Hc. pose proof (ni_lock _ _ Hi WAcceptor) as Hl. simpl in Hl. rewrite Ha in Hl. simpl in Hl. bool_prop.
  assert (pool_turn opts (w_pool w) p1) as Hp.
  { assert (exists calls, acceptor_turn opts (PollReady true false) (Some conn) (w_pool w) = (true, calls, p1)) as [calls Ht]
      by (simpl; rewrite Hc; destruct accepted; eauto).
    right. left. eapply (c_turn opts (PollReady true false) (Some conn) true calls _ p1); try done.
    - rewrite (ni_accepting _ _ Hi), Ha. done.
    - intros c [= <-]. apply (ni_fresh _ _ Hi). auto. }
  pose proof (pool_turn_inv _ _ _ _ (ni_pool _ _ Hi) Hp) as Hp1. pose proof (ni_accepting _ _ Hi) as Hac. rewrite Ha in Hac.
  split; [|done]. unfold admit_conn in Hc. apply acceptor_inv; rewrite ?Ha; try done; [| | |by left|].
  - case_match; simplify_eq; done.
  - destruct accepted; by intros c [].
  - case_match; simplify_eq; simpl; rewrite ?length_app; simpl; lia.
  - destruct accepted; simpl; by rewrite bool_decide_eq_true_2.
Qed.

Lemma notified_spec n i w cs : net_inv n w -> w_acceptor w = ANotifying -> notify_one i (w_handlers w) = Some cs ->
  net_inv n (mkNet (w_pool w) (w_lock w) cs APolling (w_owner w)).
Proof.
  intros Hi Ha Hn. pose proof (ni_accepting _ _ Hi) as Hac. rewrite Ha in Hac.
  assert (o_joined (w_owner w) APolling (w_handlers w)) as Hj.
  { pose proof (ni_joined _ _ Hi) as Hj. rewrite Ha in Hj. destruct (w_owner w); simpl in *; try done; by destruct Hj. }
  unfold notify_one in Hn. case_decide as Hin.
  - case_decide as Hs; [|done]. simplify_eq. destruct (waking_same _ _ Hs) as (H1 & H2 & H3 & _).
    apply woken_inv; rewrite ?Ha; try done; [left; rewrite H3; simpl; lia|by auto|by intros c []|by apply waking_joined].
  - simplify_eq. apply woken_inv; rewrite ?Ha; try done; [|by auto|by intros c []].
    right. rewrite <- attentive_waiting, <- (ni_places _ _ Hi) by done. by eapply queued_waited, ni_pool.
Qed.

Lemma acceptor_turn_spec opts n i w w' : net_inv n w -> acceptor_code_turn i w = Some w' ->
  net_inv n w' /\ pool_turn opts (w_pool w) (w_pool w').
Proof.
  intros Hi Ht. unfold acceptor_code_turn in Ht. pose proof (ni_lock _ _ Hi WAcceptor) as Hl. simpl in Hl.
  pose proof (ni_fresh _ _ Hi) as Hf. destruct (w_acceptor w) eqn:Ha; simpl in Hl.
  - destruct (p_stopping (w_pool w)) eqn:Es; [|done]. simplify_eq.
    by apply (stop_accepting_spec opts n w (PollReady false true)).
  - case_decide as Hn; [|done]. simplify_eq. split; [|by left].
    apply acceptor_inv_quiet; rewrite ?Ha; try done; [naive_solver|by auto].
  - destruct (admit_conn conn (w_pool w)) as [accepted p1] eqn:Hc. simplify_eq. by apply decided_spec.
  - simplify_eq. split; [|by left]. bool_prop. apply acceptor_inv_quiet; rewrite ?Ha; try done; [by intros c []|by auto].
  - destruct (notify_one i (w_handlers w)) as [cs|] eqn:Hn; [|done]. simplify_eq.
    split; [by eapply notified_spec|by left].
  - simplify_eq. split; [|by left]. bool_prop. apply acceptor_inv_quiet; rewrite ?Ha; try done; [by intros c []|by auto].
  - simplify_eq. split; [|by left]. apply acceptor_inv_quiet; rewrite ?Ha; try done; [by intros c []|by auto].
  - done.
Qed.

(** ** Turns of the thread that shuts down *)

Lemma owner_inv n w o lock p :
  net_inv n w -> (p_handlers p = p_handlers (w_pool w) /\ pool_inv n p /\ p_accepting p = p_accepting (w_pool w) /\
    p_open p = p_open (w_pool w) /\ p_queued p = p_queued (w_pool w)) ->
  p_stopping p = o_stopping o ->
  lock = w_lock w \/ ((w_lock w = None \/ w_lock w = Some WOwner) /\ (lock = None \/ lock = Some WOwner)) ->
  o_holds o = bool_decide (lock = Some WOwner) ->
  (o_notified o = true -> o_notified (w_owner w) = true) -> o_joined o (w_acceptor w) (w_handlers w) ->
  net_inv n (owner_at o lock p w).
Proof.
  intros [Hp Hpl Ha Hf Hl Hc Hs Hw Hj] (Hh & Hinv & Hacc & Hop & Hq) Hst Hlk Hoh Hno Hjo. split; simpl; try done.
  - by rewrite Hh.
  - by rewrite Hacc.
  - by rewrite Hop.
  - apply (lock_turn w (owner_at o lock p w) WOwner); try done. by intros [] ?.
  - by rewrite Hq.
  - auto.
Qed.

Lemma owner_inv_quiet n w o lock :
  net_inv n w -> o_stopping o = o_stopping (w_owner w) ->
  lock = w_lock w \/ ((w_lock w = None \/ w_lock w = Some WOwner) /\ (lock = None \/ lock = Some WOwner)) ->
  o_holds o = bool_decide (lock = Some WOwner) ->
  (o_notified o = true -> o_notified (w_owner w) = true) -> o_joined o (w_acceptor w) (w_handlers w) ->
  net_inv n (owner_at o lock (w_pool w) w).
Proof.
  intros Hi Ho Hl Hh Hn Hj. apply owner_inv; try done; [|by rewrite Ho; apply ni_stopping with n].
  split_and!; try done. by apply ni_pool.
Qed.

Lemma waking_all (cs : list hcode) :
  place <$> (wake_up <$> cs) = place <$> cs /\
  (forall j, match (wake_up <$> cs) !! j with Some c => h_holds c | None => false end =
             match cs !! j with Some c => h_holds c | None => false end) /\
  (sum_list_with attentive cs <= sum_list_with attentive (wake_up <$> cs))%nat /\ HAsleep ∉ wake_up <$> cs.
Proof.
  split_and!.
  - rewrite <- list_fmap_compose. apply list_fmap_ext. intros i c _. by destruct c.
  - intros j. rewrite list_lookup_fmap. destruct (cs !! j) as [c|]; [|done]. by destruct c.
  - induction cs as [|c cs IH]; [done|]. rewrite fmap_cons. cbn [sum_list_with]. destruct c; simpl in *; lia.
  - intros (c & H & _)%list_elem_of_fmap. by destruct c.
Qed.

Lemma owner_turn_spec opts n w w' : net_inv n w -> owner_turn w = Some w' ->
  net_inv n w' /\ pool_turn opts (w_pool w) (w_pool w').
Proof.
  intros Hi Ht. unfold owner_turn in Ht. pose proof (ni_lock _ _ Hi WOwner) as Hl. simpl in Hl.
  pose proof (ni_stopping _ _ Hi) as Hs. pose proof (ni_joined _ _ Hi) as Hj.
  destruct (w_owner w) as [| | | | | | |k|] eqn:Ho; simpl in Hl, Hs, Hj; try done.
  - case_decide as Hn; [|done]. simplify_eq. split; [|by left].
    apply owner_inv_quiet; rewrite ?Ho; try done; by auto.
  - assert (p_running (w_pool w) = true) as Hr by (rewrite (i_running _ _ (ni_pool _ _ Hi)); by rewrite Hs).
    destruct (shutdown_pool (w_pool w)) as [p1|] eqn:Ed; [|unfold shutdown_pool in Ed; by rewrite Hr in Ed].
    simplify_eq. assert (pool_turn opts (w_pool w) p1) as Hp by (right; left; by apply c_shutdown).
    split; [|done]. pose proof (pool_turn_inv _ _ _ _ (ni_pool _ _ Hi) Hp) as Hp1.
    unfold shutdown_pool in Ed. rewrite Hr in Ed. bool_prop. simplify_eq/=.
    apply owner_inv; rewrite ?Ho; try done; [by left|..]; by rewrite bool_decide_eq_true_2.
  - simplify_eq. split; [|by left]. destruct (waking_all (w_handlers w)) as (H1 & H2 & H3 & H4).
    apply woken_inv; rewrite ?Ho; try done; [left; lia|by auto|by apply ni_accepting with n|by apply (ni_fresh _ _ Hi)].
  - simplify_eq. split; [|by left]. bool_prop. apply owner_inv_quiet; rewrite ?Ho; try done. auto.
  - case_decide as Ha; [|done]. simplify_eq. split; [|by left].
    apply owner_inv_quiet; rewrite ?Ho; try done. by left.
  - destruct Hj as [Ha Hj]. destruct (w_handlers w !! k) as [c|] eqn:Ek.
    + destruct c; try discriminate Ht. simplify_eq. split; [|by left].
      apply owner_inv_quiet; rewrite ?Ho; try done; [by left|]. split; [done|].
      rewrite (take_S_r _ _ _ Ek). apply Forall_app. by split; [|constructor].
    + simplify_eq. split; [|by left]. apply owner_inv_quiet; rewrite ?Ho; try done; [by left|]. split; [done|].
      rewrite take_ge in Hj by (by apply lookup_ge_None). done.
Qed.

(** ** The whole system *)

Lemma news_spec opts n w w' : net_inv n w -> net_news w w' -> net_inv n w' /\ pool_turn opts (w_pool w) (w_pool w').
Proof.
  intros Hi Hn. destruct Hn as [conn w Ha Hf|w Ha|i w Hs|w Ho].
  - pose proof (ni_lock _ _ Hi WAcceptor) as Hl. simpl in Hl. rewrite Ha in Hl.
    split; [|by left]. apply acceptor_inv_quiet; rewrite ?Ha; try done; [|by left]. naive_solver.
  - by apply (stop_accepting_spec opts n w PollFailed).
  - pose proof (ni_lock _ _ Hi (WHandler i)) as Hl. simpl in Hl. rewrite Hs in Hl.
    split; [|by left]. eapply handler_inv_quiet; try done; [by left; simpl; lia|by left].
  - pose proof (ni_lock _ _ Hi WOwner) as Hl. simpl in Hl. rewrite Ho in Hl.
    split; [|by left]. apply owner_inv_quiet; rewrite ?Ho; try done. by left.
Qed.

Lemma net_step_spec opts n w w' : net_inv n w -> net_step w w' -> net_inv n w' /\ pool_turn opts (w_pool w) (w_pool w').
Proof.
  intros Hi [Ht|Hn]; [destruct Ht as [i w w' Ht|i w w' Ht|w w' Ht]|]; [|by apply (acceptor_turn_spec opts n i)|by apply owner_turn_spec|by apply news_spec].
  destruct (handler_turn_spec _ _ _ _ Hi Ht) as [H [Hp|Hp]]; split; try done; [by left|by right; right].
Qed.

Lemma started_net_inv opts : net_inv (handlers opts) (started_net opts).
Proof.
  split; simpl; try done.
  - apply started_inv.
  - by rewrite fmap_replicate.
  - intros t. destruct t as [i| |]; try done. simpl.
    destruct (replicate _ _ !! i) as [c|] eqn:E; [|done]. by apply lookup_replicate in E as [-> _].
  - lia.
Qed.

(** * No lost wake-ups *)

(** ** The threads come to rest *)

Definition h_left (c : hcode) : nat :=
  match c with
  | HTaken _ => 8 | HServing _ => 7 | HReleasing => 6 | HFreeing => 5 | HFreed => 4
  | HLocking => 3 | HTesting => 2 | HAsleep | HLeaving => 1 | HEnded => 0
  end%nat.
Definition a_left (a : acode) : nat :=
  match a with
  | ALocking _ => 14 | ADeciding _ => 13 | AAccepted => 5 | ANotifying => 4 | ARefused _ => 3 | ASending _ => 2
  | APolling => 1 | AEnded => 0
  end%nat.
Definition o_left (n : nat) (o : ocode) : nat :=
  match o with
  | OLocking => 3 * n + 6 | OChecking => 3 * n + 5 | OStopped => 3 * n + 4 | ONotified => n + 3 | OJoinAcceptor => n + 2
  | OJoin i => S (n - i) | OIgnored => 1 | OAway | OJoined => 0
  end%nat.

(** What is left to do before news arrives. *)
Definition left_to_do (w : net) : nat :=
  (7 * length (p_queued (w_pool w)) + sum_list_with h_left (w_handlers w) + a_left (w_acceptor w)
   + o_left (length (w_handlers w)) (w_owner w))%nat.

Lemma waking_all_left cs : (sum_list_with h_left (wake_up <$> cs) <= sum_list_with h_left cs + 2 * length cs)%nat.
Proof. induction cs as [|c cs IH]; [done|]. rewrite fmap_cons. cbn [sum_list_with length]. destruct c; simpl in *; lia. Qed.

Lemma turn_closer w w' : net_turn w w' -> (left_to_do w' < left_to_do w)%nat.
Proof.
  intros Ht. destruct Ht as [i w w' Ht|i w w' Ht|w w' Ht]; unfold left_to_do.
  - unfold handler_turn in Ht. destruct (w_handlers w !! i) as [c|] eqn:Ec; [|done].
    assert (forall c', sum_list_with h_left (<[i := c']> (w_handlers w)) + h_left c =
      sum_list_with h_left (w_handlers w) + h_left c')%nat as Hsum by (intros c'; by apply sum_insert).
    destruct c; try discriminate Ht; repeat case_match; simplify_eq; simpl; rewrite length_insert;
      match goal with |- context [<[i := ?c']> _] => specialize (Hsum c') end;
      try match goal with Hq : p_queued _ = _ |- _ => rewrite Hq end; simpl in *; lia.
  - unfold acceptor_code_turn, notify_one in Ht. destruct (w_acceptor w) eqn:Ea; try discriminate Ht; simpl in *.
    all: repeat case_match; simplify_eq; simpl; rewrite ?length_insert; try lia.
    + unfold admit_conn in *. repeat case_match; simplify_eq; simpl; rewrite ?length_app; simpl; lia.
    + unfold admit_conn in *. repeat case_match; simplify_eq; simpl; rewrite ?length_app; simpl; lia.
    + pose proof (sum_insert h_left (w_handlers w) i HAsleep HLocking ltac:(done)). simpl in *. lia.
  - unfold owner_turn in Ht. destruct (w_owner w) as [| | | | | | |k|] eqn:Eo; try discriminate Ht; simpl in *.
    all: repeat case_match; simplify_eq; simpl; rewrite ?length_fmap; try lia.
    + unfold shutdown_pool in *. repeat case_match; simplify_eq; simpl; lia.
    + pose proof (waking_all_left (w_handlers w)). lia.
    + assert (k < length (w_handlers w))%nat by (by eapply lookup_lt_Some). lia.
Qed.

Lemma turns_terminate w : Acc (fun w' w => net_turn w w') w.
Proof. apply (Wf_nat.well_founded_lt_compat _ left_to_do). intros w' w0. apply turn_closer. Qed.

(** ** Where they rest *)

Definition dozing (c : hcode) : bool := match c with HAsleep | HEnded => true | _ => false end.

(** Nobody has anything to do. *)
Record resting (w : net) : Prop := {
  re_lock : w_lock w = None;
  re_handlers : Forall (fun c => dozing c = true) (w_handlers w);
  re_acceptor : w_acceptor w = APolling \/ w_acceptor w = AEnded;
  re_stopped : p_stopping (w_pool w) = true ->
    w_owner w = OJoined /\ w_acceptor w = AEnded /\ Forall (fun c => c = HEnded) (w_handlers w)
}.

(** The holder of the mutex can go on. *)
Lemma holder_goes_on w t : holds w t = true -> exists w', net_turn w w'.
Proof.
  destruct t as [i| |]; simpl.
  - destruct (w_handlers w !! i) as [c|] eqn:Ec; [|done]. intros Hc.
    assert (exists w', handler_turn i w = Some w') as [w' Hw]; [|exists w'; by eapply n_handler].
    unfold handler_turn. rewrite Ec. destruct c; try discriminate Hc; repeat case_match; eauto.
  - intros Ha. assert (exists w', acceptor_code_turn 0 w = Some w') as [w' Hw]; [|exists w'; by eapply n_acceptor].
    unfold acceptor_code_turn. destruct (w_acceptor w); try discriminate Ha; repeat case_match; eauto.
  - intros Ho. assert (exists w', owner_turn w = Some w') as [w' Hw]; [|exists w'; by eapply n_owner].
    unfold owner_turn. destruct (w_owner w); try discriminate Ho; repeat case_match; eauto.
Qed.

Lemma handler_dozes w i c : w_lock w = None -> w_handlers w !! i = Some c -> (forall w', ~ net_turn w w') -> dozing c = true.
Proof.
  intros Hl Hc Hno. destruct (handler_turn i w) as [w'|] eqn:Ht; [by destruct (Hno w'); eapply n_handler|].
  unfold handler_turn in Ht. rewrite Hc, Hl in Ht. destruct c; try done; repeat case_match; done.
Qed.

Lemma acceptor_rests w : w_lock w = None -> (forall w', ~ net_turn w w') ->
  w_acceptor w = AEnded \/ w_acceptor w = APolling /\ p_stopping (w_pool w) = false.
Proof.
  intros Hl Hno. assert (forall i, acceptor_code_turn i w = None) as Ht.
  { intros i. destruct (acceptor_code_turn i w) as [w'|] eqn:E; [|done]. destruct (Hno w'). by eapply n_acceptor. }
  unfold acceptor_code_turn in Ht. destruct (w_acceptor w); auto.
  - right. specialize (Ht 0%nat). by destruct (p_stopping (w_pool w)).
  - specialize (Ht 0%nat). by rewrite Hl in Ht.
  - specialize (Ht 0%nat). by destruct (admit_conn _ _).
  - by specialize (Ht 0%nat).
  - exfalso. unfold notify_one in Ht. case_decide as Hin; [|by specialize (Ht 0%nat)].
    apply list_elem_of_lookup in Hin as [i Hi]. specialize (Ht i). by rewrite decide_True in Ht.
  - by specialize (Ht 0%nat).
  - by specialize (Ht 0%nat).
Qed.

Lemma stuck_resting n w : net_inv n w -> (forall w', ~ net_turn w w') -> resting w.
Proof.
  intros Hi Hno.
  assert (w_lock w = None) as Hl.
  { destruct (w_lock w) as [t|] eqn:E; [|done]. destruct (holder_goes_on w t) as [w' Hw]; [|by destruct (Hno w')].
    rewrite <- (ni_lock _ _ Hi), E. by rewrite bool_decide_eq_true_2. }
  assert (Forall (fun c => dozing c = true) (w_handlers w)) as Hd.
  { apply Forall_lookup. intros i c Hc. by eapply handler_dozes. }
  pose proof (acceptor_rests w Hl Hno) as Ha.
  split; [done|done|naive_solver|]. intros Hs.
  destruct Ha as [Ha|[_ Ha]]; [|congruence].
  assert (owner_turn w = None) as Ht.
  { destruct (owner_turn w) as [w'|] eqn:E; [|done]. destruct (Hno w'). by eapply n_owner. }
  pose proof (ni_stopping _ _ Hi) as Hso. rewrite Hs in Hso.
  assert (HAsleep ∉ w_handlers w) as Hw.
  { apply (ni_woken _ _ Hi). unfold owner_turn in Ht. destruct (w_owner w); try done; repeat case_match; done. }
  assert (Forall (fun c => c = HEnded) (w_handlers w)) as He.
  { rewrite Forall_forall in Hd |- *. intros c Hc. specialize (Hd c Hc). by destruct c. }
  split_and!; [|done|done]. unfold owner_turn in Ht. rewrite Hl, Ha in Ht. simpl in Ht.
  destruct (w_owner w) as [| | | | | | |k|] eqn:Eo; try done.
  destruct (w_handlers w !! k) as [c|] eqn:Ek; [|done].
  rewrite Forall_lookup in He. by rewrite (He k c Ek) in Ht.
Qed.

(** At rest nothing is queued and no connection is open. *)
Lemma resting_served n w : net_inv n w -> resting w -> p_queued (w_pool w) = [] /\ p_open (w_pool w) = ∅.
Proof.
  intros Hi [Hl Hd Ha _].
  assert (sum_list_with attentive (w_handlers w) = 0%nat) as Hz.
  { clear -Hd. induction Hd as [|c cs Hc _ IH]; [done|]. simpl. rewrite IH. by destruct c. }
  assert (p_queued (w_pool w) = []) as Hq.
  { pose proof (ni_count _ _ Hi) as Hc. rewrite Hz in Hc. destruct (p_queued (w_pool w)); [done|].
    destruct Ha as [Ha|Ha]; rewrite Ha in Hc; simpl in Hc; lia. }
  split; [done|]. apply set_eq. intros c. rewrite (i_open _ _ (ni_pool _ _ Hi)). unfold held_conns.
  rewrite Hq, (ni_places _ _ Hi). assert (omap conn_of (place <$> w_handlers w) = []) as ->; [|set_solver].
  clear -Hd. induction Hd as [|h cs Hc _ IH]; [done|]. rewrite fmap_cons. by destruct h; try done; simpl in *.
Qed.

(** ** Schedules that compute *)

Inductive net_choice := TakeTurn (t : who) | Connect (conn : Z) | CallShutdown.

(** Handler 0 is the one that [notify_one] wakes. *)
Definition net_choose (c : net_choice) (w : net) : option net :=
  match c with
  | TakeTurn (WHandler i) => handler_turn i w
  | TakeTurn WAcceptor => acceptor_code_turn 0 w
  | TakeTurn WOwner => owner_turn w
  | Connect conn =>
      if decide (w_acceptor w = APolling) then
        if decide (conn ∈ p_open (w_pool w)) then None
        else Some (acceptor_at (ALocking conn) (w_lock w) (w_pool w) w)
      else None
  | CallShutdown => match w_owner w with OAway => Some (owner_at OLocking (w_lock w) (w_pool w) w) | _ => None end
  end.

Fixpoint net_schedule (cs : list net_choice) (w : net) : option net :=
  match cs with [] => Some w | c :: cs' => w' ← net_choose c w; net_schedule cs' w' end.

Lemma net_choose_sound c w w' : net_choose c w = Some w' -> net_step w w'.
Proof.
  destruct c as [[i| |]|conn|]; simpl; intros Hc; [left; by eapply n_handler|left; by eapply n_acceptor|left; by eapply n_owner|..].
  - repeat case_decide; simplify_eq. right. by apply n_connection.
  - destruct (w_owner w) eqn:Eo; simplify_eq. right. by apply n_shutdown.
Qed.

Lemma net_schedule_sound cs w w' : net_schedule cs w = Some w' -> star net_step w w'.
Proof.
  revert w. induction cs as [|c cs IH]; intros w; simpl; [intros [= <-]; constructor|].
  destruct (net_choose c w) as [w1|] eqn:E; [|done]. simpl. intros Hw.
  eapply star_step; [by eapply net_choose_sound|by apply IH].
Qed.

(** * Theorems *)

Lemma net_reachable_inv opts w : star net_step (started_net opts) w -> net_inv (handlers opts) w.
Proof.
  intros Hw. eapply (star_invariant net_step (net_inv (handlers opts))); [|exact Hw|apply started_net_inv].
  intros w1 w2 Hi Hs. by apply (net_step_spec opts _ _ _ Hi Hs).
Qed.

Lemma net_turns_steps w w' : star net_turn w w' -> star net_step w w'.
Proof. induction 1; [constructor|]. eapply star_step; [by left|done]. Qed.

(** C21. The threads of the connection server implement its critical sections: every run of
    the accept thread, the handlers and the shutdown, with the mutex, the condition
    variable, early, late and spurious wake-ups and the joins, is a run of the pool of
    Server.v, in which each handler is where its thread is. *)
Theorem pool_threads_refine opts w :
  star net_step (started_net opts) w ->
  star (pool_step opts) (started_pool opts) (w_pool w) /\ p_handlers (w_pool w) = place <$> w_handlers w.
Proof.
  intros Hw. split; [|by eapply ni_places, net_reachable_inv].
  assert (forall w0, star net_step w0 w -> net_inv (handlers opts) w0 -> star (pool_step opts) (w_pool w0) (w_pool w)) as H.
  { induction 1 as [|w0 w1 w2 H1 _ IH]; [constructor|]. intros Hi.
    destruct (net_step_spec opts _ _ _ Hi H1) as [Hi1 [Hp|Hp]]; [rewrite <- Hp; auto|].
    eapply star_step; [exact Hp|auto]. }
  apply (H _ Hw), started_net_inv.
Qed.

(** C22. No connection is left behind.  Whatever the threads have done, when nothing more
    comes from outside they come to rest, however the scheduler chooses among them and
    whichever sleeper a notification wakes; and at rest every accepted connection has been
    served and closed, none is queued and no descriptor is open.  If [shutdown] has begun, it
    has then joined the accept thread and every handler. *)
Theorem no_connection_left_behind opts w :
  star net_step (started_net opts) w ->
  Acc (fun w' w => net_turn w w') w /\
  forall w', star net_turn w w' -> (forall w'', ~ net_turn w' w'') ->
    p_queued (w_pool w') = [] /\ p_open (w_pool w') = ∅ /\
    (p_stopping (w_pool w') = true -> w_owner w' = OJoined /\ w_acceptor w' = AEnded /\ all_exited (w_pool w')).
Proof.
  intros Hw. split; [apply turns_terminate|]. intros w' Hs Hno.
  assert (net_inv (handlers opts) w') as Hi by (apply net_reachable_inv; by eapply star_trans, net_turns_steps).
  pose proof (stuck_resting _ _ Hi Hno) as Hr. destruct (resting_served _ _ Hi Hr) as [Hq Ho].
  split_and!; [done|done|]. intros Hst. destruct (re_stopped _ Hr Hst) as (H1 & H2 & H3). split_and!; [done|done|].
  unfold all_exited. rewrite (ni_places _ _ Hi). apply Forall_fmap. eapply Forall_impl; [exact H3|]. by intros c ->.
Qed.

(** ** Witnesses *)

(** Connection 7 is queued and the only handler asleep: the notification is on its way. *)
Definition demo_queued : list net_choice :=
  [TakeTurn (WHandler 0); TakeTurn (WHandler 0); Connect 7; TakeTurn WAcceptor; TakeTurn WAcceptor; TakeTurn WAcceptor].
Definition demo_net (cs : list net_choice) : net := default (started_net demo_options) (net_schedule cs (started_net demo_options)).
(** It is served, and the handler sleeps again. *)
Definition demo_rest : list net_choice :=
  TakeTurn WAcceptor :: replicate 9 (TakeTurn (WHandler 0)).

Lemma demo_net_reached cs :
  (if net_schedule cs (started_net demo_options) then true else false) = true ->
  star net_step (started_net demo_options) (demo_net cs).
Proof.
  unfold demo_net. destruct (net_schedule cs _) as [w|] eqn:E; [|done]. intros _. by apply net_schedule_sound with cs.
Qed.

Lemma pool_threads_refine_witness :
  p_queued (w_pool (demo_net demo_queued)) = [7] /\
  star (pool_step demo_options) (started_pool demo_options) (w_pool (demo_net demo_queued)).
Proof.
  split; [reflexivity|]. apply (pool_threads_refine demo_options (demo_net demo_queued)).
  apply demo_net_reached. reflexivity.
Defined.

Lemma demo_served : star net_turn (demo_net demo_queued) (demo_net (demo_queued ++ demo_rest)).
Proof.
  assert (forall ts w w', net_schedule (TakeTurn <$> ts) w = Some w' -> star net_turn w w') as Hts.
  { induction ts as [|t ts IH]; intros w w'; simpl; [intros [= <-]; constructor|].
    destruct (net_choose (TakeTurn t) w) as [w1|] eqn:E; simpl in E; rewrite E; [|done]. simpl. intros Hw.
    eapply star_step; [|by apply IH]. destruct t; [by eapply n_handler|by eapply n_acceptor|by eapply n_owner]. }
  apply (Hts (WAcceptor :: replicate 9 (WHandler 0))). vm_compute. reflexivity.
Qed.

Lemma no_connection_left_behind_witness :
  p_queued (w_pool (demo_net demo_queued)) = [7] /\ p_queued (w_pool (demo_net (demo_queued ++ demo_rest))) = [].
Proof.
  split; [reflexivity|].
  refine (proj1 (proj2 (no_connection_left_behind demo_options (demo_net demo_queued) _) _ demo_served _)).
  - apply demo_net_reached. reflexivity.
  - intros w'' Ht. inversion Ht as [i w w' H|i w w' H|w w' H]; subst; [destruct i|..]; vm_compute in H; discriminate.
Defined.
