(* ===== verification/HttpService.v ===== *)
(** One connection, from bytes to reply: src/cpp/src/http_service.cpp and
    src/cpp/include/filemover/http_service.hpp.

    [receive] is the reading half of [serve_connection]: it ends with a request for the
    router, a refusal, or nothing to answer.  [serve_connection] composes it with
    [route_request] and [write_all].  The loops carry fuel bounded by what can still be
    read from the socket; [receive_total] shows that it is enough. *)

From S2P Require Import Prelude Store Events Config Manager HttpParser Json ApiCodec Router Server.

Record HttpServiceOptions := mkHttpOptions { max_head_bytes : Z; max_body_bytes : Z }.
Definition default_http_options : HttpServiceOptions := mkHttpOptions (8 * 1024) (64 * 1024).

Definition http_refusal (status : Z) (message : bytes) : Response :=
  mkResponse status (content_type default_response) (encode_error message) [].

(** How the reading ends, with the bytes read from the socket. *)
Inductive reception :=
| Routed (request : Request) (bytes_read : Z)
| Answered (response : Response) (bytes_read : Z)
| Gone (bytes_read : Z).

(** The head loop: an outcome, or the request, the head length, the buffer and the rest
    of the socket. *)
Inductive head_state :=
| HeadRead (request : Request) (head_len : nat) (buffer : bytes) (net : socket)
| HeadEnded (r : reception).

Fixpoint head_loop (fuel : nat) (max_head : Z) (buffer : bytes) (net : socket)
    : option head_state :=
  match fuel with
  | O => None
  | S f =>
      match parse_request_head buffer max_head with
      | HeadOk request head_len => Some (HeadRead request head_len buffer net)
      | Bad e => Some (HeadEnded (Answered (http_refusal 400 e) (slen buffer)))
      | TooLarge _ =>
          Some (HeadEnded (Answered
            (http_refusal 431 (str "request head exceeds the permitted size")) (slen buffer)))
      | NeedMore =>
          let '(r, got, net') := read_some 2048 net in
          if bool_decide (r = IoOk) then head_loop f max_head (buffer ++ got) net'
          else Some (HeadEnded (Gone (slen buffer)))
      end
  end.

(** The body loop; [None] in the result when the peer stopped early. *)
Fixpoint body_loop (fuel : nat) (remaining : nat) (buffer : bytes) (net : socket)
    : option (option bytes * Z) :=
  match fuel with
  | O => None
  | S f =>
      if (remaining =? 0)%nat then Some (Some buffer, slen buffer)
      else
        let want := if (remaining <? 4096)%nat then remaining else 4096%nat in
        let '(r, got, net') := read_some want net in
        if bool_decide (r = IoOk) then body_loop f (remaining - length got) (buffer ++ got) net'
        else Some (None, slen buffer)
  end.

Definition with_body (request : Request) (b : bytes) : Request :=
  mkHttpRequest (method request) (target request) (version request) (headers request) b.

Definition receive (options : HttpServiceOptions) (net : socket) : option reception :=
  match head_loop (S (volume net)) (max_head_bytes options) [] net with
  | None => None
  | Some (HeadEnded r) => Some r
  | Some (HeadRead request head_len buffer net1) =>
      match content_length_for request (max_body_bytes options) with
      | Error (status, e) => Some (Answered (http_refusal status e) (slen buffer))
      | Ok declared =>
          let have := slen buffer - Z.of_nat head_len in
          if declared <? have then
            Some (Answered (http_refusal 400 (str "unexpected bytes after the declared body"))
                    (slen buffer))
          else
            match body_loop (S (volume net1)) (Z.to_nat (declared - have)) buffer net1 with
            | None => None
            | Some (None, n) =>
                Some (Answered (http_refusal 400 (str "body shorter than the declared length")) n)
            | Some (Some buffer2, n) =>
                Some (Routed (with_body request (take (Z.to_nat declared) (drop head_len buffer2))) n)
            end
      end
  end.

(** The reply on the wire is what [write_all] is given; its result is not looked at. *)
Definition reply (response : Response) (answers : list outgoing) : bytes :=
  snd (write_all (serialize_response response) answers).

(** What the peer gets, the bytes read, and what the router left. *)
Definition serve_connection (options : HttpServiceOptions) (net : socket)
    (answers : list outgoing) (now_ms : Z) (m : manager) (s : JobStore)
    : option (bytes * Z * list emission * manager * JobStore) :=
  match receive options net with
  | None => None
  | Some (Gone n) => Some ([], n, [], m, s)
  | Some (Answered r n) => Some (reply r answers, n, [], m, s)
  | Some (Routed request n) =>
      match route_request request now_ms m s with
      | None => None
      | Some (r, evs, m1, s1) => Some (reply r answers, n, evs, m1, s1)
      end
  end.

(** * Lemmas *)

(** A reading loop has consumed a prefix of the stream. *)
Definition consumed (stream0 buffer : bytes) (net : socket) : Prop := stream0 = buffer ++ stream net.

Lemma head_loop_spec fuel mx buffer net st :
  0 <= mx -> (volume net < fuel)%nat -> consumed st buffer net ->
  slen buffer <= mx + 2048 ->
  exists h, head_loop fuel mx buffer net = Some h /\
  match h with
  | HeadRead req n buf net' =>
      consumed st buf net' /\ slen buf <= mx + 2048 /\ parse_request_head buf mx = HeadOk req n
  | HeadEnded (Gone k) => k <= mx + 2048 /\ parse_request_head st mx = NeedMore
  | HeadEnded (Answered r k) => k <= mx + 2048 /\ (status r = 400 \/ status r = 431) /\
      exists buf net', consumed st buf net' /\
        match parse_request_head buf mx with Bad _ | TooLarge _ => True | _ => False end
  | HeadEnded (Routed _ _) => False
  end.
Proof.
  intros Hmx. revert buffer net. induction fuel as [|f IH]; intros buffer net Hf Hst Hb; [lia|]. simpl.
  destruct (parse_request_head buffer mx) as [req n| |e|e] eqn:Ep.
  - by eexists.
  - destruct (read_some 2048 net) as [[r got] net'] eqn:Er.
    pose proof (read_some_spec 2048 net r got net' ltac:(lia) Er) as Hr.
    case_bool_decide as Hok; [subst r|].
    + destruct Hr as (Hs & Hne & Hl). apply IH.
      * apply read_some_volume in Er; [|lia]. lia.
      * unfold consumed in *. by rewrite Hst, Hs, app_assoc.
      * assert (slen buffer <= mx).
        { unfold parse_request_head in Ep. destruct (find_sub crlf2 buffer); [by repeat case_match|].
          destruct (Z.ltb_spec mx (slen buffer)); [done|lia]. }
        rewrite slen_app. unfold slen at 2. lia.
    + eexists. split; [done|]. split; [done|].
      assert (stream net = []) as Hn by (destruct r; [done|tauto..]).
      unfold consumed in Hst. by rewrite Hst, Hn, app_nil_r.
  - eexists. split; [done|]. split_and!; [done|by left|]. exists buffer, net. by rewrite Ep.
  - eexists. split; [done|]. split_and!; [done|by right|]. exists buffer, net. by rewrite Ep.
Qed.

Lemma body_loop_spec fuel remaining buffer net st :
  (volume net < fuel)%nat -> consumed st buffer net ->
  exists r, body_loop fuel remaining buffer net = Some r /\
  match r with
  | (Some buf, k) => k = slen buf /\ (length buffer + remaining <= length st)%nat /\
                     buf = take (length buffer + remaining) st
  | (None, k) => k <= slen st /\ (length st < length buffer + remaining)%nat
  end.
Proof.
  revert remaining buffer net. induction fuel as [|f IH]; intros remaining buffer net Hf Hst; [lia|]. simpl.
  unfold consumed in Hst. destruct (Nat.eqb_spec remaining 0) as [->|Hr0].
  { eexists. split; [done|]. split; [done|]. rewrite Nat.add_0_r, Hst, length_app, take_app_length.
    split; [lia|done]. }
  set (want := if (remaining <? 4096)%nat then remaining else 4096%nat).
  assert (0 < want /\ want <= remaining)%nat as [Hw1 Hw2]
    by (unfold want; destruct (Nat.ltb_spec remaining 4096); lia).
  destruct (read_some want net) as [[r got] net'] eqn:Er.
  pose proof (read_some_spec want net r got net' Hw1 Er) as Hr.
  case_bool_decide as Hok; [subst r|].
  - destruct Hr as (Hs & Hne & Hl). apply read_some_volume in Er; [|lia].
    destruct (IH (remaining - length got)%nat (buffer ++ got) net') as (r & Eb & Hr); [lia| |].
    { unfold consumed. by rewrite Hst, Hs, app_assoc. }
    exists r. split; [done|]. rewrite length_app in Hr.
    replace (length buffer + length got + (remaining - length got))%nat
      with (length buffer + remaining)%nat in Hr by lia. done.
  - eexists. split; [done|]. assert (stream net = []) as Hn by (destruct r; [done|tauto..]).
    rewrite Hst, Hn, app_nil_r. split; [done|lia].
Qed.

Lemma content_length_range request mx n :
  content_length_for request mx = Ok n -> 0 <= mx -> 0 <= n <= mx.
Proof.
  unfold content_length_for. repeat case_match; intros [= <-] Hmx; [|lia].
  match goal with H : length_loop ?v 0 = Ok _ |- _ => pose proof (length_loop_spec v 0 ltac:(lia)) as Hl;
    rewrite H in Hl; destruct Hl as (Hd & -> & _); pose proof (value_from_ge 0 v ltac:(lia) Hd) end. lia.
Qed.

Lemma content_length_status request mx st e :
  content_length_for request mx = Error (st, e) -> st = 400 \/ st = 413.
Proof.
  unfold content_length_for. case_bool_decide; [intros [= <- _]; by left|].
  destruct (headers request !! str "content-length") as [[|c v]|]; [intros [= <- _]; by left| |done].
  pose proof (length_loop_spec (c :: v) 0 ltac:(lia)) as Hl.
  destruct (length_loop (c :: v) 0) as [n|[st' e']].
  - destruct (mx <? n); [|done]. intros [= <- _]. by right.
  - intros [= -> _]. destruct Hl as [[? _]|[? _]]; auto.
Qed.

(** Everything about the reading half. *)
Lemma receive_spec options net :
  0 <= max_head_bytes options -> 0 <= max_body_bytes options ->
  exists r, receive options net = Some r /\
  match r with
  | Routed req k => exists req0 n len,
      parse_request_head (stream net) (max_head_bytes options) = HeadOk req0 n /\
      content_length_for req0 (max_body_bytes options) = Ok len /\
      Z.of_nat n + len <= slen (stream net) /\
      req = with_body req0 (take (Z.to_nat len) (drop n (stream net))) /\
      k <= max_head_bytes options + max_body_bytes options
  | Answered resp k =>
      k <= max_head_bytes options + Z.max 2048 (max_body_bytes options) /\
      (status resp = 400 \/ status resp = 413 \/ status resp = 431) /\
      (forall req0 n len, parse_request_head (stream net) (max_head_bytes options) = HeadOk req0 n ->
         content_length_for req0 (max_body_bytes options) = Ok len ->
         slen (stream net) <> Z.of_nat n + len)
  | Gone k => k <= max_head_bytes options + 2048 /\
      parse_request_head (stream net) (max_head_bytes options) = NeedMore
  end.
Proof.
  intros Hmx Hmb. unfold receive. set (mx := max_head_bytes options) in *.
  destruct (head_loop_spec (S (volume net)) mx [] net (stream net) Hmx ltac:(lia) eq_refl) as (h & -> & Hh).
  { rewrite slen_nil. lia. }
  destruct h as [req n buf net1|[| |]]; [|done| |].
  2: { eexists. split; [done|]. destruct Hh as (Hk & Hst & buf & net' & Hc & Hp). split; [lia|]. split; [tauto|].
       intros req0 n len Hok _. unfold consumed in Hc. rewrite Hc in Hok.
       apply parse_head_part in Hok as [Hx|Hx]; rewrite Hx in Hp; done. }
  2: by eexists.
  destruct Hh as (Hc & Hb & Hp). pose proof Hc as Hc'. unfold consumed in Hc'.
  pose proof (parse_head_extend buf (stream net1) mx req n Hp) as [Hfull Hn]. rewrite <- Hc' in Hfull.
  assert (Z.of_nat n <= mx) as Hnm.
  { apply parse_head_sound in Hp as (? & ? & ? & ? & ? & _ & _ & ? & _). done. }
  destruct (content_length_for req (max_body_bytes options)) as [len|[st e]] eqn:Ecl.
  2: { eexists. split; [done|]. split; [lia|]. apply content_length_status in Ecl as Hst.
       split; [simpl; tauto|]. intros req0 n0 len Hok Hl. congruence. }
  pose proof (content_length_range _ _ _ Ecl Hmb) as Hlen.
  destruct (Z.ltb_spec len (slen buf - Z.of_nat n)).
  { eexists. split; [done|]. split; [lia|]. split; [by left|]. intros req0 n0 len0 Hok Hl. rewrite Hok in Hfull.
    injection Hfull as -> ->. assert (len0 = len) as -> by congruence.
    rewrite Hc', slen_app. pose proof (slen_nonneg (stream net1)). lia. }
  assert (length buf + Z.to_nat (len - (slen buf - Z.of_nat n)) = n + Z.to_nat len)%nat as Esum
    by (unfold slen in *; lia).
  destruct (body_loop_spec (S (volume net1)) (Z.to_nat (len - (slen buf - Z.of_nat n))) buf net1 (stream net))
    as (r & -> & Hr); [lia|done|]. rewrite Esum in Hr.
  destruct r as [[buf2|] k].
  - eexists. split; [done|]. destruct Hr as (-> & Hlt & ->). exists req, n, len.
    assert (Z.of_nat n + len <= slen (stream net)) by (unfold slen in *; lia).
    split_and!; [done|done|done| |].
    + f_equal. rewrite <- take_drop_commute. by rewrite take_take, Nat.min_id.
    + unfold slen. rewrite length_take. lia.
  - eexists. split; [done|]. destruct Hr as (Hk & Hlt). split; [unfold slen in *; lia|]. split; [by left|].
    intros req0 n0 len0 Hok Hl. rewrite Hok in Hfull. injection Hfull as -> ->.
    assert (len0 = len) as -> by congruence. unfold slen. lia.
Qed.

(** * Theorems *)

(** C18. No desynchronisation: whatever way the network cuts the bytes and whatever signals
    arrive, a request that reaches the router is the one the byte stream spells: the head
    at its beginning, and as body exactly the declared number of bytes after it. *)
Theorem routed_request_determined options net request n :
  0 <= max_head_bytes options -> 0 <= max_body_bytes options ->
  receive options net = Some (Routed request n) ->
  exists head head_len len,
    parse_request_head (stream net) (max_head_bytes options) = HeadOk head head_len /\
    content_length_for head (max_body_bytes options) = Ok len /\
    Z.of_nat head_len + len <= slen (stream net) /\
    request = with_body head (take (Z.to_nat len) (drop head_len (stream net))).
Proof.
  intros H1 H2 E. destruct (receive_spec options net H1 H2) as (r & Er & Hr).
  rewrite E in Er. injection Er as <-. destruct Hr as (head & k & len & ? & ? & ? & ? & _). eauto 10.
Qed.

(** C32. Every complete request is served: a stream that is a well-formed head and exactly the
    body it declares, within the limits, reaches the router, however it is cut into
    reads. *)
Theorem complete_request_routed options net head head_len len :
  0 <= max_head_bytes options -> 0 <= max_body_bytes options ->
  parse_request_head (stream net) (max_head_bytes options) = HeadOk head head_len ->
  content_length_for head (max_body_bytes options) = Ok len ->
  slen (stream net) = Z.of_nat head_len + len ->
  exists n, receive options net = Some (Routed (with_body head (drop head_len (stream net))) n).
Proof.
  intros H1 H2 Hp Hl Hs. pose proof (content_length_range _ _ _ Hl H2) as Hlen.
  destruct (receive_spec options net H1 H2) as (r & Er & Hr).
  rewrite Er. destruct r as [req k|resp k|k].
  - destruct Hr as (req0 & n & len0 & Hp0 & Hl0 & _ & -> & _). rewrite Hp in Hp0. injection Hp0 as <- <-.
    assert (len0 = len) as -> by congruence. exists k. f_equal. f_equal. f_equal.
    apply take_ge. rewrite length_drop. unfold slen in Hs. lia.
  - destruct Hr as (_ & _ & Hr). by destruct (Hr _ _ _ Hp Hl).
  - destruct Hr as [_ Hr]. congruence.
Qed.

(** C31. One connection is bounded and always ends: for any peer, any store failures and any
    state of the manager, [serve_connection] returns, having read at most the head limit
    plus the larger of one chunk and the body limit.  It has sent nothing, because no complete
    head arrived, or one response with a status of the API, cut short only if a send
    failed. *)
Theorem connection_always_served options net answers now_ms m s :
  0 <= max_head_bytes options -> 0 <= max_body_bytes options ->
  exists wire n evs m' s',
    serve_connection options net answers now_ms m s = Some (wire, n, evs, m', s') /\
    n <= max_head_bytes options + Z.max 2048 (max_body_bytes options) /\
    (wire = [] /\ parse_request_head (stream net) (max_head_bytes options) = NeedMore \/
     exists r, status r ∈ [200; 202; 400; 404; 405; 409; 413; 431; 500; 503] /\
       wire `prefix_of` serialize_response r /\
       (fst (write_all (serialize_response r) answers) = IoOk -> wire = serialize_response r)).
Proof.
  intros H1 H2. unfold serve_connection. destruct (receive_spec options net H1 H2) as (r & -> & Hr).
  assert (forall resp, reply resp answers `prefix_of` serialize_response resp /\
            (fst (write_all (serialize_response resp) answers) = IoOk ->
             reply resp answers = serialize_response resp)) as Hw.
  { intros resp. unfold reply. destruct (write_all _ answers) as [w out] eqn:E.
    apply write_all_spec in E as [? Hok]. split; [done|]. by intros ->%Hok. }
  destruct r as [req k|resp k|k].
  - destruct Hr as (req0 & n & len & Hp & _ & _ & -> & Hk).
    assert (valid_target (target (with_body req0 (take (Z.to_nat len) (drop n (stream net))))) = true) as Ht
      by exact (parse_head_target _ _ _ _ Hp).
    destruct (route_ok _ now_ms m s Ht) as ([[[resp evs] m'] s'] & -> & (Hst & _) & _).
    eexists _, _, _, _, _. split; [done|]. split; [lia|]. right. exists resp.
    split; [set_solver|apply Hw].
  - eexists _, _, _, _, _. split; [done|]. split; [lia|]. right. exists resp.
    split; [|apply Hw]. destruct Hr as (_ & [-> | [-> | ->]] & _); set_solver.
  - eexists _, _, _, _, _. split; [done|]. split; [lia|]. left. by destruct Hr.
Qed.

(** ** Witnesses *)

(** A submission in three pieces, with a signal in between. *)
Definition demo_wire : bytes := demo_head ++ str "{}".
Definition demo_net : socket :=
  [Arrived (take 30 demo_wire); Interrupted; Arrived (drop 30 demo_wire)].

Lemma routed_request_determined_witness :
  exists request n, receive default_http_options demo_net = Some (Routed request n) /\
    body request = str "{}".
Proof.
  destruct (receive default_http_options demo_net) as [[request n|?|?]|] eqn:E;
    try (vm_compute in E; discriminate).
  destruct (routed_request_determined default_http_options demo_net request n)
    as (head & k & len & Hp & Hl & _ & Hr); [simpl; lia|simpl; lia|exact E|].
  exists request, n. split; [reflexivity|]. vm_compute in E. injection E as <- _. reflexivity.
Defined.

Lemma complete_request_routed_witness :
  exists n, receive default_http_options demo_net
    = Some (Routed (with_body demo_parsed (str "{}")) n).
Proof.
  destruct (complete_request_routed default_http_options demo_net demo_parsed (length demo_head) 2)
    as (n & H); [simpl; lia|simpl; lia|vm_compute; reflexivity|vm_compute; reflexivity|reflexivity|].
  exists n. exact H.
Defined.

Lemma connection_always_served_witness :
  exists wire n evs m' s',
    serve_connection default_http_options demo_net [Took 4096] 100 demo_manager empty_store
      = Some (wire, n, evs, m', s') /\ n <= 73728.
Proof.
  destruct (connection_always_served default_http_options demo_net [Took 4096] 100 demo_manager empty_store)
    as (wire & n & evs & m' & s' & H & Hn & _); [simpl; lia|simpl; lia|].
  exists wire, n, evs, m', s'. split; [exact H|exact Hn].
Defined.
