(* ===== verification/Singleton.v ===== *)
(** The singleton lock: src/cpp/src/singleton.cpp and src/cpp/include/filemover/singleton.hpp.

    Several processes run [acquire] at the same time, so it is written as a [script]: the
    system calls it makes, one after the other, with what it does on each answer.  [play]
    runs a script alone, as a program of the filesystem layer; [sched_step] lets any number
    of processes take turns, one system call at a time, and lets any of them die at any
    point.

    flock(2), ftruncate(2) and write(2) are the kernel's: [LockLaws] states what the
    manual pages say of them.  A descriptor stands for an open file description, which is
    what owns a flock. *)

From S2P Require Import Prelude Crash Kernel FsOps.

(** * The path of the lock file *)

Definition lock_path_for_database (database_path : bytes) : result (bytes * bytes) bytes :=
  if database_path == [] then Error (str "singleton: database path is empty")
  else
    let '(directory, name) :=
      match rfind_char "/" database_path with
      | None => (str ".", database_path)
      | Some slash =>
          (if (slash =? 0)%nat then str "/" else take slash database_path,
           drop (S slash) database_path)
      end in
    if name == [] then
      Error (str "singleton: database path '" ++ database_path
             ++ str "' names a directory, not a file")
    else Ok (directory, name ++ str ".lock").

(** * Scripts of system calls *)

Inductive act :=
| OpenDir (path : bytes)
| OpenLock (dir : Z) (name : bytes)
| Flock (fd : Z)
| Ftruncate (fd : Z)
| WriteFd (fd : Z) (data : bytes)
| CloseFd (fd : Z).

(** The answer of a call: a value (a descriptor for an open), or an errno. *)
Inductive script (A : Type) :=
| Done (a : A)
| Do (a : act) (k : result Z Z -> script A).
Arguments Done {A} _.
Arguments Do {A} _ _.

Fixpoint script_bind {A B} (m : script A) (f : A -> script B) : script B :=
  match m with
  | Done a => f a
  | Do a k => Do a (fun r => script_bind (k r) f)
  end.

Notation "x <~ m ; k" := (script_bind m (fun x => k))
  (at level 100, m at next level, right associativity).
Notation "r <- 'do' a ; k" := (Do a (fun r => k))
  (at level 100, a at next level, right associativity).

(** What [acquire] needs of the kernel beyond the filesystem layer. *)
Class LockKernel (fs : Type) := {
  (** flock(fd, LOCK_EX | LOCK_NB) *)
  sys_flock : Z -> fs -> result unit Z * fs;
  (** ftruncate(fd, 0) *)
  sys_ftruncate : Z -> fs -> result unit Z * fs;
  sys_write : Z -> bytes -> fs -> result Z Z * fs
}.

Class LockLaws (fs : Type) `{KernelLaws fs} `{!LockKernel fs} := {
  (** Which descriptor holds the lock on an object. *)
  locks : fs -> gmap Z Z;
  open_dir_locks p s r s' : sys_open_dir p s = (r, s') -> locks s' = locks s;
  (** open(2), O_CREAT: the named file is opened, and created if it does not exist. *)
  openat_lock_law dfd n s r s' : sys_openat_lock dfd n s = (r, s') ->
    locks s' = locks s /\
    match r with
    | Ok fd => 0 <= fd /\ fds s !! fd = None /\
        exists d o, fds s !! dfd = Some d /\ fds s' = <[fd := o]> (fds s) /\
          (entries s !! (d, n) = Some o /\ entries s' = entries s \/
           entries s !! (d, n) = None /\ entries s' = <[(d, n) := o]> (entries s))
    | Error _ => fds s' = fds s /\ entries s' = entries s
    end;
  (** flock(2): an exclusive lock is granted unless another open file description holds
      one; with LOCK_NB the call then fails with EWOULDBLOCK. *)
  flock_law fd s r s' : sys_flock fd s = (r, s') ->
    fds s' = fds s /\ entries s' = entries s /\
    match r with
    | Ok _ => exists o, fds s !! fd = Some o /\
        (locks s !! o = None \/ locks s !! o = Some fd) /\ locks s' = <[o := fd]> (locks s)
    | Error _ => locks s' = locks s
    end;
  ftruncate_law fd s r s' : sys_ftruncate fd s = (r, s') ->
    fds s' = fds s /\ entries s' = entries s /\ locks s' = locks s;
  write_law fd data s r s' : sys_write fd data s = (r, s') ->
    fds s' = fds s /\ entries s' = entries s /\ locks s' = locks s;
  (** Closing the last descriptor of an open file description releases its lock. *)
  close_locks fd s u s' : sys_close fd s = (u, s') ->
    forall o h, locks s' !! o = Some h <-> locks s !! o = Some h /\ h <> fd
}.

(** * The lock *)

Section Singleton.
Context {fs : Type} `{!Kernel fs} `{!LockKernel fs}.

Definition s_open_root (path : bytes) : script (result Z bytes) :=
  r <- do OpenDir (c_str path);
  match r with
  | Error e => Done (Error (errno_message (str "cannot open root directory '" ++ path ++ str "'") e))
  | Ok fd => Done (Ok fd)
  end.

Definition s_open_lock_file (dir : Z) (name : bytes) : script (result Z bytes) :=
  if negb (dir_is_open dir) then
    Done (Error (str "cannot open lock file '" ++ name ++ str "': directory is not open"))
  else
    r <- do OpenLock dir (c_str name);
    match r with
    | Error e => Done (Error (errno_message (str "cannot open lock file '" ++ name ++ str "'") e))
    | Ok fd => Done (Ok fd)
    end.

(** The destructor of the [DirHandle]. *)
Definition s_close_dir (dir : Z) : script unit :=
  if dir_is_open dir then (_ <- do CloseFd dir; Done tt) else Done tt.

Definition flock_refused (display : bytes) (err : Z) : bytes :=
  if err =? EAGAIN then
    str "another instance is already running (lock held on " ++ display ++ str ")"
  else str "singleton: cannot lock '" ++ display ++ str "': " ++ strerror err.

(** The pid in the file is for the operator and best-effort. *)
Definition write_pid (fd pid : Z) : script unit :=
  r <- do Ftruncate fd;
  match r with
  | Error _ => Done tt
  | Ok _ =>
      let text := dec pid ++ [lf] in
      if slen text <? 32 then (_ <- do WriteFd fd text; Done tt) else Done tt
  end.

(** [held] is the member [fd_]; the new value of it, or the error. *)
Definition acquire (held : Z) (database_path : bytes) (pid : Z) : script (result Z bytes) :=
  if 0 <=? held then Done (Error (str "singleton: lock is already held by this instance"))
  else
    match lock_path_for_database database_path with
    | Error e => Done (Error e)
    | Ok (directory, name) =>
        let display := directory ++ str "/" ++ name in
        d <~ s_open_root directory;
        match d with
        | Error e => Done (Error (str "singleton: " ++ e))
        | Ok dir =>
            f <~ s_open_lock_file dir name;
            match f with
            | Error e => (_ <~ s_close_dir dir; Done (Error (str "singleton: " ++ e)))
            | Ok fd =>
                l <- do Flock fd;
                match l with
                | Error err =>
                    _ <- do CloseFd fd;
                    _ <~ s_close_dir dir;
                    Done (Error (flock_refused display err))
                | Ok _ =>
                    _ <~ write_pid fd pid;
                    _ <~ s_close_dir dir;
                    Done (Ok fd)
                end
            end
        end
    end.

Definition release (held : Z) : script Z :=
  if held <? 0 then Done held else (_ <- do CloseFd held; Done (-1)).

Definition is_held (held : Z) : bool := 0 <=? held.

(** * Running scripts *)

Definition unit_answer (r : result unit Z) : result Z Z :=
  match r with Ok _ => Ok 0 | Error e => Error e end.

Definition perform (a : act) (s : fs) : result Z Z * fs :=
  match a with
  | OpenDir path => sys_open_dir path s
  | OpenLock dir name => sys_openat_lock dir name s
  | Flock fd => let '(r, s') := sys_flock fd s in (unit_answer r, s')
  | Ftruncate fd => let '(r, s') := sys_ftruncate fd s in (unit_answer r, s')
  | WriteFd fd data => sys_write fd data s
  | CloseFd fd => let '(_, s') := sys_close fd s in (Ok 0, s')
  end.

(** Alone: a program of the filesystem layer. *)
Fixpoint play {X A} (sc : script A) : prog fs X A :=
  match sc with
  | Done a => ret a
  | Do a k => bind (syscall (perform a)) (fun r => play (k r))
  end.

Fixpoint run_script {A} (sc : script A) (s : fs) : A * fs :=
  match sc with
  | Done a => (a, s)
  | Do a k => let '(r, s') := perform a s in run_script (k r) s'
  end.

(** ** Processes taking turns *)

(** One process: the database it was configured with, its pid, the member [fd_], the
    descriptors it has open (which the kernel closes if it dies), and where it is in
    [acquire]. *)
Record proc := mkProc {
  pr_db : bytes;
  pr_pid : Z;
  pr_fd : Z;
  pr_open : gset Z;
  pr_run : option (script (result Z bytes))
}.
Record system := mkSystem { sys_state : fs; sys_procs : list proc }.

(** The descriptors open after a call. *)
Definition open_after (a : act) (r : result Z Z) (open : gset Z) : gset Z :=
  match a, r with
  | OpenDir _, Ok fd | OpenLock _ _, Ok fd => {[fd]} ∪ open
  | CloseFd fd, _ => open ∖ {[fd]}
  | _, _ => open
  end.

Definition close_all (open : gset Z) (s : fs) : fs :=
  foldr (fun fd s => snd (sys_close fd s)) s (elements open).

Inductive sched :=
| Begin (i : nat)     (* the process calls acquire *)
| Turn (i : nat)      (* its next system call *)
| Return (i : nat)    (* acquire returns *)
| Release (i : nat)
| Die (i : nat).      (* killed; a new process takes its place *)

Definition set_proc (i : nat) (p : proc) (s : fs) (st : system) : system :=
  mkSystem s (<[i := p]> (sys_procs st)).

Definition proc_step (e : sched) (p : proc) (s : fs) : option (proc * fs) :=
  match e, pr_run p with
  | Begin _, None =>
      Some (mkProc (pr_db p) (pr_pid p) (pr_fd p) (pr_open p)
              (Some (acquire (pr_fd p) (pr_db p) (pr_pid p))), s)
  | Turn _, Some (Do a k) =>
      let '(r, s') := perform a s in
      Some (mkProc (pr_db p) (pr_pid p) (pr_fd p) (open_after a r (pr_open p)) (Some (k r)), s')
  | Return _, Some (Done r) =>
      Some (mkProc (pr_db p) (pr_pid p) (match r with Ok fd => fd | Error _ => pr_fd p end)
              (pr_open p) None, s)
  | Release _, None =>
      if pr_fd p <? 0 then Some (p, s)
      else
        let '(r, s') := perform (CloseFd (pr_fd p)) s in
        Some (mkProc (pr_db p) (pr_pid p) (-1) (open_after (CloseFd (pr_fd p)) r (pr_open p)) None, s')
  | Die _, _ => Some (mkProc (pr_db p) (pr_pid p) (-1) ∅ None, close_all (pr_open p) s)
  | _, _ => None
  end.

Definition who (e : sched) : nat :=
  match e with Begin i | Turn i | Return i | Release i | Die i => i end.

Definition sched_step (e : sched) (st : system) : option system :=
  match sys_procs st !! who e with
  | None => None
  | Some p =>
      match proc_step e p (sys_state st) with
      | None => None
      | Some (p', s') => Some (set_proc (who e) p' s' st)
      end
  end.

Fixpoint run_sched (es : list sched) (st : system) : option system :=
  match es with
  | [] => Some st
  | e :: es' => match sched_step e st with None => None | Some st' => run_sched es' st' end
  end.

(** Processes that have not yet called [acquire]. *)
Definition boot (s : fs) (dbs : list (bytes * Z)) : system :=
  mkSystem s ((fun '(db, pid) => mkProc db pid (-1) ∅ None) <$> dbs).
End Singleton.
Arguments proc : clear implicits.
Arguments system : clear implicits.

(** * Lemmas *)

Section Laws.
Context {fs : Type} `{LockLaws fs}.
Local Abbreviation system := (system fs).

(** The scripts of the filesystem layer are its programs. *)
Lemma play_open_root {X} path (w : world fs X) :
  play (s_open_root path) w = open_root (-1) path w.
Proof.
  unfold open_root, dir_close, s_open_root. simpl.
  destruct (tick w) as [w1|]; [|done]. by destruct (sys_open_dir _ _) as [[r|e] s].
Qed.

Lemma play_open_lock_file {X} dir name (w : world fs X) :
  play (s_open_lock_file dir name) w = open_lock_file dir name w.
Proof.
  unfold open_lock_file, s_open_lock_file. destruct (negb _); [done|]. simpl.
  destruct (tick w) as [w1|]; [|done]. by destruct (sys_openat_lock _ _ _) as [[r|e] s].
Qed.

Lemma play_bind {X A B} (m : script A) (f : A -> script B) (w : world fs X) :
  play (script_bind m f) w = bind (play m) (fun a => play (f a)) w.
Proof.
  revert w. induction m as [a|a k IH]; intros w; [done|]. simpl.
  destruct (tick w) as [w1|]; [|done]. destruct (perform a (w_fs w1)) as [r s]. apply IH.
Qed.

(** ** What a process knows

    A [claims] map says of each descriptor of a process which object it has open, by which
    name it was opened if it is the lock file, and whether it holds the lock. *)

Record claim := mkClaim { c_obj : Z; c_name : option entry; c_locked : bool }.
Notation claims := (gmap Z claim).

(** The names of lock files. *)
Definition lock_file (n : bytes) : Prop := exists m, n = c_str (m ++ str ".lock").

Record claim_true (s : fs) (fd : Z) (c : claim) : Prop := {
  ct_fd : fds s !! fd = Some (c_obj c);
  ct_name d n : c_name c = Some (d, n) -> lock_file n /\ entries s !! (d, n) = Some (c_obj c);
  ct_lock : c_locked c = true -> locks s !! c_obj c = Some fd
}.
Definition known (s : fs) (v : claims) : Prop := forall fd c, v !! fd = Some c -> claim_true s fd c.

(** The namespace keeps the names it has: nobody removes or replaces a lock file. *)
Definition keeps_names (s s' : fs) : Prop :=
  forall e o, entries s !! e = Some o -> entries s' !! e = Some o.

(** ** Assertions over scripts

    [wp sc v Q]: whatever the kernel answers, and whatever other processes do between the
    calls, the script only touches its own descriptors and ends with claims in [Q]. *)
Fixpoint wp {A} (sc : script A) (v : claims) (Q : A -> claims -> Prop) : Prop :=
  match sc with
  | Done a => Q a v
  | Do a k =>
      match a with
      | OpenDir path =>
          (forall e, wp (k (Error e)) v Q) /\
          (forall fd d, 0 <= fd -> v !! fd = None -> resolve path = Some d ->
             wp (k (Ok fd)) (<[fd := mkClaim d None false]> v) Q)
      | OpenLock dir n =>
          exists c, v !! dir = Some c /\ lock_file n /\ (forall e, wp (k (Error e)) v Q) /\
          (forall fd o, 0 <= fd -> v !! fd = None ->
             wp (k (Ok fd)) (<[fd := mkClaim o (Some (c_obj c, n)) false]> v) Q)
      | Flock fd =>
          exists c, v !! fd = Some c /\ (forall e, wp (k (Error e)) v Q) /\
          (forall u, wp (k (Ok u)) (<[fd := mkClaim (c_obj c) (c_name c) true]> v) Q)
      | Ftruncate fd | WriteFd fd _ => is_Some (v !! fd) /\ forall r, wp (k r) v Q
      | CloseFd fd => is_Some (v !! fd) /\ forall r, wp (k r) (delete fd v) Q
      end
  end.

Lemma wp_bind {A B} (m : script A) (f : A -> script B) v Q :
  wp m v (fun a v' => wp (f a) v' Q) -> wp (script_bind m f) v Q.
Proof.
  revert v. induction m as [a|a k IH]; intros v; [done|].
  destruct a; simpl; naive_solver.
Qed.

(** Every call keeps the names. *)
Lemma perform_names a s r s' : perform a s = (r, s') -> keeps_names s s'.
Proof.
  intros E e o Ho. destruct a; simpl in E.
  - apply open_dir_law in E as [-> _]. done.
  - apply openat_lock_law in E as [_ Hr]. destruct r; [|by destruct Hr as [_ ->]].
    destruct Hr as (_ & _ & d & o' & _ & _ & [[_ ->]|[Hn ->]]); [done|].
    rewrite lookup_insert_ne; [done|]. congruence.
  - destruct (sys_flock fd s) as [q s1] eqn:E1. simplify_eq. by apply flock_law in E1 as (_ & -> & _).
  - destruct (sys_ftruncate fd s) as [q s1] eqn:E1. simplify_eq. by apply ftruncate_law in E1 as (_ & -> & _).
  - by apply write_law in E as (_ & -> & _).
  - destruct (sys_close fd s) as [q s1] eqn:E1. simplify_eq. by apply close_law in E1 as (-> & _).
Qed.

(** What is known of a descriptor survives every call but its own close. *)
Lemma perform_stable a s r s' fd c :
  perform a s = (r, s') -> a <> CloseFd fd -> claim_true s fd c -> claim_true s' fd c.
Proof.
  intros E Hne [Hf Hn Hl]. pose proof (perform_names _ _ _ _ E) as Hk.
  split; [|intros d n He; destruct (Hn d n He); auto|]; destruct a as [p|dir n|f|f|f data|f]; simpl in E.
  - apply open_dir_law in E as [_ Hr]. destruct r as [f|e]; [|by rewrite Hr].
    destruct Hr as (_ & Hfr & d & _ & ->). rewrite lookup_insert_ne; [done|]. congruence.
  - apply openat_lock_law in E as [_ Hr]. destruct r as [f|e]; [|by destruct Hr as [-> _]].
    destruct Hr as (_ & Hfr & d & o & _ & -> & _). rewrite lookup_insert_ne; [done|]. congruence.
  - destruct (sys_flock f s) as [q s1] eqn:E1. simplify_eq. by apply flock_law in E1 as (-> & _).
  - destruct (sys_ftruncate f s) as [q s1] eqn:E1. simplify_eq. by apply ftruncate_law in E1 as (-> & _).
  - by apply write_law in E as (-> & _).
  - destruct (sys_close f s) as [q s1] eqn:E1. simplify_eq. apply close_law in E1 as (_ & ->).
    rewrite lookup_delete_ne; [done|]. congruence.
  - by rewrite (open_dir_locks _ _ _ _ E).
  - apply openat_lock_law in E as [-> _]. done.
  - destruct (sys_flock f s) as [q s1] eqn:E1. simplify_eq. apply flock_law in E1 as (_ & _ & Hq).
    destruct q as [[]|e]; [|by rewrite Hq]. destruct Hq as (o & Ho & Hlo & ->). intros Hb.
    specialize (Hl Hb). destruct (decide (o = c_obj c)) as [->|Ho']; [|by rewrite lookup_insert_ne].
    rewrite lookup_insert_eq. destruct Hlo; congruence.
  - destruct (sys_ftruncate f s) as [q s1] eqn:E1. simplify_eq. by apply ftruncate_law in E1 as (_ & _ & ->).
  - by apply write_law in E as (_ & _ & ->).
  - destruct (sys_close f s) as [q s1] eqn:E1. simplify_eq. intros Hb.
    apply (close_locks _ _ _ _ E1). split; [by apply Hl|]. congruence.
Qed.

Lemma known_insert s v fd c : known s v -> claim_true s fd c -> known s (<[fd := c]> v).
Proof.
  intros Hv Hc f c'. destruct (decide (f = fd)) as [->|].
  - rewrite lookup_insert_eq. by intros [= <-].
  - rewrite lookup_insert_ne by done. apply Hv.
Qed.

(** A call of the script itself: the claims follow. *)
Lemma wp_perform {A} a (k : result Z Z -> script A) v Q s r s' :
  wp (Do a k) v Q -> known s v -> perform a s = (r, s') ->
  exists v', known s' v' /\ wp (k r) v' Q /\ dom v' = open_after a r (dom v) /\
    (forall fd, fd ∈ dom v' -> fd ∈ dom v \/ fds s !! fd = None).
Proof.
  intros Hwp Hv E.
  assert (forall fd c, v !! fd = Some c -> a <> CloseFd fd -> claim_true s' fd c) as Hst
    by (intros fd c Hc Hne; eapply perform_stable; [exact E|done|by apply Hv]).
  assert (forall fd, fds s !! fd = None -> v !! fd = None) as Hfresh.
  { intros fd Hfd. destruct (v !! fd) as [c|] eqn:Hc; [|done]. destruct (Hv _ _ Hc). congruence. }
  destruct a as [p|dir n|fd|fd|fd data|fd]; simpl in Hwp, E.
  - destruct Hwp as [He Ho]. destruct r as [fd|e]; [|exists v; split_and!; [intros ???; by apply Hst|done|done|auto]].
    apply open_dir_law in E as (Hen & Hp & Hfr & d & Hd & Hf).
    exists (<[fd := mkClaim d None false]> v). split_and!; [|by apply Ho; auto|set_solver|set_solver].
    apply known_insert; [intros f c Hc; by apply Hst|]. split; simpl; [by rewrite Hf, lookup_insert_eq|done|done].
  - destruct Hwp as (c & Hc & Hln & He & Ho).
    destruct r as [fd|e]; [|exists v; split_and!; [intros ???; by apply Hst|done|done|auto]].
    apply openat_lock_law in E as (_ & Hp & Hfr & d & o & Hd & Hf & Hen).
    rewrite (ct_fd _ _ _ (Hv _ _ Hc)) in Hd. simplify_eq.
    exists (<[fd := mkClaim o (Some (c_obj c, n)) false]> v). split_and!; [|by apply Ho; auto|set_solver|set_solver].
    apply known_insert; [intros f c' Hc'; by apply Hst|].
    split; simpl; [by rewrite Hf, lookup_insert_eq| |done]. intros ? ? [= <- <-]. split; [done|].
    destruct Hen as [[Ho' ->]|[_ ->]]; [done|apply lookup_insert_eq].
  - destruct Hwp as (c & Hc & He & Ho). destruct (sys_flock fd s) as [q s1] eqn:E1. simplify_eq.
    apply flock_law in E1 as (Hf & Hen & Hq).
    destruct q as [[]|e]; simpl; [|exists v; split_and!; [intros ???; by apply Hst|done|done|auto]].
    exists (<[fd := mkClaim (c_obj c) (c_name c) true]> v).
    assert (dom (<[fd:=mkClaim (c_obj c) (c_name c) true]> v) = dom v) as Hdom
      by (rewrite dom_insert_L; apply elem_of_dom_2 in Hc; set_solver).
    split_and!; [|done|done|rewrite Hdom; auto].
    apply known_insert; [intros f c' Hc'; by apply Hst|].
    destruct (Hst _ _ Hc) as [Hc1 Hc2 Hc3]; [done|]. split; simpl; [done|done|]. intros _.
    destruct Hq as (o & Hofd & _ & ->). destruct (Hv _ _ Hc). rewrite Hofd in *. simplify_eq.
    apply lookup_insert_eq.
  - exists v. destruct Hwp. split_and!; [intros ???; by apply Hst|done|done|auto].
  - exists v. destruct Hwp. split_and!; [intros ???; by apply Hst|done|done|auto].
  - exists (delete fd v). destruct Hwp as [_ Hk]. split_and!; [|done|set_solver|set_solver].
    intros f c. rewrite lookup_delete_Some. intros [Hne Hc]. apply Hst; [done|congruence].
Qed.

(** ** [acquire] *)

(** The name a configuration locks. *)
Definition lock_key (db : bytes) : option entry :=
  match lock_path_for_database db with
  | Ok (directory, name) => d ← resolve (c_str directory); Some (d, c_str name)
  | Error _ => None
  end.

(** Between calls of [acquire] and [release]: the lock is held through [fd_], which is the
    only descriptor, or [fd_] is closed and there is none. *)
Definition at_rest_with (db : bytes) (held : Z) (v : claims) : Prop :=
  if 0 <=? held then
    exists o key, lock_key db = Some key /\ v = {[held := mkClaim o (Some key) true]}
  else v = ∅.

Definition acquired (db : bytes) (held : Z) (r : result Z bytes) (v : claims) : Prop :=
  at_rest_with db (match r with Ok fd => fd | Error _ => held end) v.

Lemma acquire_wp db held pid v :
  at_rest_with db held v -> wp (acquire held db pid) v (acquired db held).
Proof.
  intros Hr. unfold acquire. destruct (Z.leb_spec 0 held) as [|Hneg]; [done|].
  unfold at_rest_with in Hr. rewrite (proj2 (Z.leb_gt _ _) Hneg) in Hr. subst v.
  assert (forall e, acquired db held (Error e) ∅) as Herr
    by (intros e; unfold acquired, at_rest_with; by rewrite (proj2 (Z.leb_gt _ _) Hneg)).
  destruct (lock_path_for_database db) as [[directory name]|e] eqn:Hp; [|apply Herr].
  simpl. split; [intros e; apply Herr|]. intros dir d Hdir _ Hd.
  unfold s_open_lock_file, s_close_dir, dir_is_open. rewrite (proj2 (Z.leb_le _ _) Hdir). simpl.
  assert (lock_file (c_str name)) as Hln.
  { revert Hp. unfold lock_path_for_database. repeat case_match; intros [= <- <-]; by eexists. }
  exists (mkClaim d None false). rewrite lookup_insert_eq. split_and!; [done|done| |].
  { intros e. split; [by eexists|]. intros _. rewrite delete_insert_eq, delete_empty. apply Herr. }
  intros fd o Hfd Hne%lookup_insert_None. destruct Hne as [_ Hne].
  eexists. rewrite lookup_insert_eq. split_and!; [done| |].
  { intros e. split; [by eexists|]. intros _.
    rewrite delete_insert_eq, delete_insert_ne, delete_empty, lookup_insert_eq by done.
    split; [by eexists|]. intros _. rewrite delete_insert_eq, delete_empty. apply Herr. }
  intros _. simpl. rewrite insert_insert_eq.
  set (v := <[fd := _]> _). assert (v !! dir = Some (mkClaim d None false)) as Hvd
    by (unfold v; rewrite lookup_insert_ne, lookup_insert_eq; done).
  assert (is_Some (v !! fd)) as Hvf by (unfold v; rewrite lookup_insert_eq; by eexists).
  assert (acquired db held (Ok fd) (delete dir v)) as Hok.
  { unfold acquired, at_rest_with, v. rewrite (proj2 (Z.leb_le _ _) Hfd).
    exists o, (d, c_str name). unfold lock_key. rewrite Hp, Hd. split; [done|].
    rewrite delete_insert_ne, delete_insert_eq, delete_empty by done. done. }
  split; [done|]. intros [u|e]; simpl; [|split; [by eexists|done]].
  destruct (slen _ <? 32); simpl; [|split; [by eexists|done]].
  split; [done|]. intros _. split; [by eexists|done].
Qed.

(** ** [acquire] alone *)

(** A lock belongs to an open descriptor. *)
Definition locks_open (s : fs) : Prop := forall o h, locks s !! o = Some h -> is_Some (fds s !! h).

Lemma play_run {X A} (sc : script A) (w : world fs X) :
  w_budget w = None ->
  play sc w = (Some (fst (run_script sc (w_fs w))),
               mkWorld (snd (run_script sc (w_fs w))) (w_ext w) None).
Proof.
  revert w. induction sc as [a|a k IH]; intros w Hb; simpl.
  - destruct w. simpl in *. by subst.
  - unfold bind, syscall. simpl. unfold tick. rewrite Hb. destruct (perform a (w_fs w)) as [r s'].
    rewrite IH; [done|]. done.
Qed.

Lemma run_script_bind {A B} (m : script A) (f : A -> script B) (s : fs) :
  run_script (script_bind m f) s = run_script (f (fst (run_script m s))) (snd (run_script m s)).
Proof. revert s. induction m as [a|a k IH]; intros s; simpl; [done|]. by destruct (perform a s). Qed.

Lemma run_close s fd :
  locks_open s -> let s' := snd (perform (CloseFd fd) s) in
  fds s' = delete fd (fds s) /\ entries s' = entries s /\ locks_open s' /\
  forall o h, locks s' !! o = Some h <-> locks s !! o = Some h /\ h <> fd.
Proof.
  intros Hw. simpl. destruct (sys_close fd s) as [u s'] eqn:E. simpl.
  pose proof (close_locks _ _ _ _ E) as Hl. apply close_law in E as [He Hf].
  split_and!; [done|done| |done]. intros o h [Hh Hne]%Hl. rewrite Hf, lookup_delete_ne by done. eauto.
Qed.

(** Closing a descriptor that holds no lock releases none. *)
Lemma locks_minus_none (s s' : fs) fd :
  (forall o, locks s !! o <> Some fd) ->
  (forall o h, locks s' !! o = Some h <-> locks s !! o = Some h /\ h <> fd) -> locks s' = locks s.
Proof.
  intros Hn Hl. apply map_eq. intros o. destruct (locks s !! o) as [h|] eqn:E.
  - apply Hl. split; [done|]. intros ->. by destruct (Hn o).
  - destruct (locks s' !! o) as [h|] eqn:E'; [|done]. apply Hl in E' as [E' _]. congruence.
Qed.

Lemma locks_fresh s fd : locks_open s -> fds s !! fd = None -> forall o, locks s !! o <> Some fd.
Proof. intros Hw Hf o Ho. destruct (Hw _ _ Ho). congruence. Qed.

Lemma run_s_close_dir dir s :
  0 <= dir -> run_script (s_close_dir dir) s = (tt, snd (sys_close dir s)).
Proof.
  intros Hd. unfold s_close_dir, dir_is_open. rewrite (proj2 (Z.leb_le _ _) Hd). simpl.
  by destruct (sys_close dir s).
Qed.

Lemma run_close_dir s s0 dir d :
  0 <= dir -> locks_open s0 -> fds s0 !! dir = None ->
  fds s = <[dir := d]> (fds s0) -> locks s = locks s0 ->
  let s' := snd (run_script (s_close_dir dir) s) in fds s' = fds s0 /\ locks s' = locks s0.
Proof.
  intros Hd Hw Hfr Hf Hl. unfold s_close_dir, dir_is_open. rewrite (proj2 (Z.leb_le _ _) Hd).
  assert (locks_open s) as Hws.
  { intros o h. rewrite Hl. intros Hh. rewrite Hf. destruct (Hw _ _ Hh) as [x Hx].
    destruct (decide (h = dir)) as [->|]; [congruence|]. rewrite lookup_insert_ne by done. eauto. }
  destruct (run_close s dir Hws) as (Hf' & _ & _ & Hl'). simpl in *.
  destruct (sys_close dir s) as [u s']. simpl in *. rewrite Hf', Hf, delete_insert_id by done.
  split; [done|]. rewrite <- Hl. apply (locks_minus_none s s' dir); [|done].
  rewrite Hl. by apply locks_fresh.
Qed.

Lemma run_write_pid fd pid s :
  let s' := snd (run_script (write_pid fd pid) s) in
  fds s' = fds s /\ locks s' = locks s.
Proof.
  unfold write_pid. simpl. destruct (sys_ftruncate fd s) as [r s1] eqn:E1.
  apply ftruncate_law in E1 as (F1 & _ & L1). destruct r as [[]|]; simpl; [|by rewrite F1, L1].
  destruct (slen _ <? 32); simpl; [|by rewrite F1, L1].
  destruct (sys_write fd _ s1) as [r2 s2] eqn:E2. apply write_law in E2 as (F2 & _ & L2).
  simpl. by rewrite F2, L2, F1, L1.
Qed.

#[local] Opaque write_pid s_close_dir.

(** [acquire] without interference: it holds the lock through one new descriptor, or has
    left descriptors and locks as they were. *)
Lemma acquire_run held db pid s r s' :
  held < 0 -> locks_open s -> run_script (acquire held db pid) s = (r, s') ->
  match r with
  | Ok fd => 0 <= fd /\ fds s !! fd = None /\
      exists o, fds s' = <[fd := o]> (fds s) /\ locks s !! o = None /\
        locks s' = <[o := fd]> (locks s)
  | Error e => fds s' = fds s /\ locks s' = locks s
  end.
Proof.
  intros Hneg Hw. unfold acquire. rewrite (proj2 (Z.leb_gt _ _) Hneg).
  destruct (lock_path_for_database db) as [[directory name]|e]; [|by intros [= <- <-]].
  simpl. destruct (sys_open_dir (c_str directory) s) as [r1 s1] eqn:E1.
  pose proof (open_dir_locks _ _ _ _ E1) as L1. apply open_dir_law in E1 as [_ F1].
  destruct r1 as [dir|e]; simpl; [|by intros [= <- <-]].
  destruct F1 as (Hdir & Fr1 & d & _ & F1).
  unfold s_open_lock_file, dir_is_open. rewrite (proj2 (Z.leb_le _ _) Hdir). simpl.
  destruct (sys_openat_lock dir (c_str name) s1) as [r2 s2] eqn:E2.
  apply openat_lock_law in E2 as [L2 F2]. destruct r2 as [fd|e]; simpl.
  2: { rewrite run_script_bind. simpl. intros [= <- <-]. destruct F2 as [F2 _].
       apply (run_close_dir s2 s dir d); [done..|by rewrite F2|by rewrite L2]. }
  destruct F2 as (Hfd & Fr2 & d' & o & _ & F2 & _).
  assert (fd <> dir) as Hne by (intros ->; by rewrite F1, lookup_insert_eq in Fr2).
  assert (fds s !! fd = None) as Fr by (by rewrite F1, lookup_insert_ne in Fr2).
  pose proof (locks_fresh _ _ Hw Fr) as Hfl. rewrite F1 in F2. rewrite L1 in L2.
  destruct (sys_flock fd s2) as [r3 s3] eqn:E3. apply flock_law in E3 as (F3 & _ & L3).
  rewrite F2 in *. rewrite L2 in L3. destruct r3 as [[]|err]; simpl.
  - destruct L3 as (o' & Ho' & Hlo & L3). rewrite lookup_insert_eq in Ho'. injection Ho' as <-.
    destruct Hlo as [Hlo|Hlo]; [|by destruct (Hfl _ Hlo)].
    rewrite run_script_bind. destruct (run_write_pid fd pid s3) as [F4 L4].
    set (s4 := snd (run_script (write_pid fd pid) s3)) in *. clearbody s4. rewrite run_script_bind. simpl.
    intros [= <- <-]. split_and!; [done|done|]. exists o. rewrite F3 in F4. rewrite L3 in L4.
    pose proof (locks_fresh _ _ Hw Fr1) as Hdl.
    rewrite run_s_close_dir by done. simpl.
    destruct (sys_close dir s4) as [u s5] eqn:E5. simpl. pose proof (close_locks _ _ _ _ E5) as L5.
    apply close_law in E5 as [_ F5]. split_and!; [|done|].
    + by rewrite F5, F4, delete_insert_ne, delete_insert_id by done.
    + rewrite <- L4. apply (locks_minus_none s4 s5 dir); [|done]. intros x. rewrite L4.
      rewrite lookup_insert_Some. intros [[_ ?]|[_ ?]]; [done|by apply (Hdl x)].
  - destruct (sys_close fd s3) as [u s4] eqn:E4. pose proof (close_locks _ _ _ _ E4) as L4.
    apply close_law in E4 as [_ F4]. simpl. rewrite run_script_bind. simpl. intros [= <- <-].
    apply (run_close_dir s4 s dir d); [done..| |].
    + by rewrite F4, F3, delete_insert_id by (by rewrite lookup_insert_ne).
    + rewrite <- L3. apply (locks_minus_none s3 s4 fd); [by rewrite L3|done].
Qed.

#[local] Transparent write_pid s_close_dir.

Lemma release_run fd s s' held :
  0 <= fd -> run_script (release fd) s = (held, s') ->
  held = -1 /\ fds s' = delete fd (fds s) /\
  forall o h, locks s' !! o = Some h <-> locks s !! o = Some h /\ h <> fd.
Proof.
  intros Hfd. unfold release. rewrite (proj2 (Z.ltb_ge _ _)) by lia. simpl.
  destruct (sys_close fd s) as [u s1] eqn:E. intros [= <- <-]. split; [done|].
  pose proof (close_locks _ _ _ _ E). by apply close_law in E as [_ ?].
Qed.

(** Taking and giving back the lock leaves no trace. *)
Lemma acquire_release held db pid s fd s1 held' s2 :
  held < 0 -> locks_open s -> run_script (acquire held db pid) s = (Ok fd, s1) ->
  run_script (release fd) s1 = (held', s2) ->
  held' = -1 /\ fds s2 = fds s /\ locks s2 = locks s.
Proof.
  intros Hn Hw Ha Hr. apply acquire_run in Ha as (Hfd & Fr & o & F & L0 & L); [|done|done].
  apply release_run in Hr as (-> & F2 & L2); [|done]. split_and!; [done| |].
  - by rewrite F2, F, delete_insert_id.
  - pose proof (locks_fresh _ _ Hw Fr) as Hfl. apply map_eq. intros x.
    destruct (locks s !! x) as [h|] eqn:E.
    + apply L2. rewrite L, lookup_insert_ne by congruence. split; [done|]. intros ->. by apply (Hfl x).
    + destruct (locks s2 !! x) as [h|] eqn:E2; [|done]. apply L2 in E2 as [E2 Hne].
      rewrite L, lookup_insert_Some in E2. destruct E2 as [[_ <-]|[_ E2]]; [done|congruence].
Qed.

(** ** The system *)

Inductive sys_step : system -> system -> Prop :=
| s_sched e st st' : sched_step e st = Some st' -> sys_step st st'
(** Anybody else: any change of the filesystem that leaves lock files where they are. *)
| s_other st s' :
    fds s' = fds (sys_state st) -> locks s' = locks (sys_state st) ->
    (forall d n o, lock_file n -> entries (sys_state st) !! (d, n) = Some o ->
       entries s' !! (d, n) = Some o) ->
    sys_step st (mkSystem s' (sys_procs st)).

Definition proc_at (p : proc) (v : claims) : Prop :=
  match pr_run p with
  | None => at_rest_with (pr_db p) (pr_fd p) v
  | Some sc => (0 <= pr_fd p -> exists e, sc = Done (Error e)) /\ wp sc v (acquired (pr_db p) (pr_fd p))
  end.

Record proc_ok (s : fs) (p : proc) (v : claims) : Prop := {
  ok_open : dom v = pr_open p;
  ok_known : known s v;
  ok_at : proc_at p v
}.

Lemma close_all_stable open s fd c :
  fd ∉ open -> claim_true s fd c -> claim_true (close_all open s) fd c.
Proof.
  intros Hn. unfold close_all. assert (fd ∉ elements open) as Hn' by (by rewrite elem_of_elements).
  clear Hn. induction (elements open) as [|f l IH]; [done|]. intros Hc. simpl.
  apply not_elem_of_cons in Hn' as [Hne Hl].
  destruct (sys_close f _) as [u s1] eqn:E.
  eapply (perform_stable (CloseFd f)); [simpl; by rewrite E|congruence|by apply IH].
Qed.

Lemma close_all_locks open s o h :
  locks (close_all open s) !! o = Some h -> locks s !! o = Some h /\ h ∉ open.
Proof.
  unfold close_all. rewrite <- (elem_of_elements open h).
  induction (elements open) as [|f l IH]; simpl; [by split; [|apply not_elem_of_nil]|].
  destruct (sys_close f _) as [u s1] eqn:E. simpl. rewrite (close_locks _ _ _ _ E).
  intros [[Hl Hn]%IH Hne]. split; [done|]. by rewrite not_elem_of_cons.
Qed.

(** One step of one process: it stays in order, what others know stays true, and its new
    descriptors were not in use. *)
Lemma proc_step_ok e p s p' s' v :
  proc_step e p s = Some (p', s') -> proc_ok s p v ->
  (exists v', proc_ok s' p' v') /\
  (forall fd c, fd ∉ pr_open p -> claim_true s fd c -> claim_true s' fd c) /\
  (forall fd, fd ∈ pr_open p' -> fd ∈ pr_open p \/ fds s !! fd = None).
Proof.
  intros E [Ho Hk Ha]. unfold proc_at in Ha. unfold proc_step in E.
  destruct e as [i|i|i|i|i]; destruct (pr_run p) as [[r|a k]|] eqn:Hr; simplify_eq; simpl; (try by auto).
  - split_and!; [exists v; split; [done..|]|done|auto]. unfold proc_at. simpl. split; [|by apply acquire_wp].
    intros Hp. unfold acquire. rewrite (proj2 (Z.leb_le _ _) Hp). by eexists.
  - destruct (perform a s) as [r s1] eqn:Ep. simplify_eq. destruct Ha as [Hh Hwp].
    destruct (wp_perform _ _ _ _ _ _ _ Hwp Hk Ep) as (v' & Hk' & Hw' & Hd & Hf). split_and!.
    + exists v'. split; simpl; [by rewrite Hd, Ho|done|]. split; [|done]. simpl.
      intros Hp. by destruct (Hh Hp).
    + intros fd c Hn. apply (perform_stable _ _ _ _ _ _ Ep). intros ->. simpl in Hwp.
      destruct Hwp as [Hs%elem_of_dom _]. congruence.
    + simpl. rewrite <- Ho, <- Hd. done.
  - split_and!; [exists v; split; [done..|]|done|auto]. unfold proc_at. simpl. apply Ha.
  - destruct (Z.ltb_spec (pr_fd p) 0) as [Hn|Hp].
    { simplify_eq. split_and!; [exists v; split; [done..|]|done|auto]. unfold proc_at. by rewrite Hr. }
    destruct (perform (CloseFd (pr_fd p)) s) as [r s1] eqn:Ep. simplify_eq. simpl.
    unfold at_rest_with in Ha. rewrite (proj2 (Z.leb_le _ _) Hp) in Ha. destruct Ha as (o & key & _ & ->).
    split_and!; [exists ∅; split; simpl; [|done|done]|..|set_solver].
    + rewrite <- Ho. set_solver.
    + intros fd c Hn. apply (perform_stable _ _ _ _ _ _ Ep). intros [= <-]. set_solver.
  - split_and!; [exists ∅; by split|intros; by apply close_all_stable|set_solver].
  - split_and!; [exists ∅; by split|intros; by apply close_all_stable|set_solver].
  - split_and!; [exists ∅; by split|intros; by apply close_all_stable|set_solver].
Qed.

(** Every process is in order and no descriptor belongs to two of them. *)
Record sys_inv (st : system) : Prop := {
  si_proc i p : sys_procs st !! i = Some p -> exists v, proc_ok (sys_state st) p v;
  si_disjoint i j p q : i <> j -> sys_procs st !! i = Some p -> sys_procs st !! j = Some q ->
    pr_open p ## pr_open q
}.

Lemma boot_inv s dbs : sys_inv (boot s dbs).
Proof.
  assert (forall i p, sys_procs (boot s dbs) !! i = Some p -> pr_open p = ∅ /\ proc_ok s p ∅) as Hb.
  { intros i p. simpl. rewrite list_lookup_fmap. destruct (dbs !! i) as [[db pid]|]; [|done].
    intros [= <-]. split; [done|]. by split. }
  split; [intros i p Hp; exists ∅; by apply (Hb i)|].
  intros i j p q _ Hp Hq. destruct (Hb _ _ Hp) as [-> _]. set_solver.
Qed.

Lemma claims_in_use s p v fd : proc_ok s p v -> fd ∈ pr_open p -> is_Some (fds s !! fd).
Proof.
  intros [Ho Hk _]. rewrite <- Ho, elem_of_dom. intros [c Hc]. rewrite (ct_fd _ _ _ (Hk _ _ Hc)). by eexists.
Qed.

Lemma sched_step_inv e st st' : sys_inv st -> sched_step e st = Some st' -> sys_inv st'.
Proof.
  intros [Hp Hd]. unfold sched_step. destruct (sys_procs st !! who e) as [p|] eqn:Hi; [|done].
  destruct (proc_step e p (sys_state st)) as [[p' s']|] eqn:E; [|done]. intros [= <-].
  destruct (Hp _ _ Hi) as [v Hv]. destruct (proc_step_ok _ _ _ _ _ _ E Hv) as (Hv' & Hst & Hnew).
  pose proof (lookup_lt_Some _ _ _ Hi) as Hlt.
  assert (forall j q, j <> who e -> sys_procs st !! j = Some q -> pr_open p' ## pr_open q) as Hdis.
  { intros j q Hne Hq fd Hfd Hfq. destruct (Hnew fd Hfd) as [Hin|Hnone].
    - exact (Hd _ _ _ _ (not_eq_sym Hne) Hi Hq fd Hin Hfq).
    - destruct (Hp _ _ Hq) as [w Hw]. destruct (claims_in_use _ _ _ _ Hw Hfq). congruence. }
  split; simpl.
  - intros j q. destruct (decide (j = who e)) as [->|Hne].
    + rewrite list_lookup_insert_eq by done. by intros [= <-].
    + rewrite list_lookup_insert_ne by done. intros Hq. destruct (Hp _ _ Hq) as [w [Ho Hk Ha]].
      exists w. split; [done| |done]. intros fd c Hc. apply Hst; [|by apply Hk].
      intros Hin. apply elem_of_dom_2 in Hc. rewrite Ho in Hc.
      exact (Hd _ _ _ _ (not_eq_sym Hne) Hi Hq fd Hin Hc).
  - intros j1 j2 q1 q2 Hne. rewrite !list_lookup_insert_Some.
    intros [(<- & <- & _)|[N1 Hq1]] [(<- & <- & _)|[N2 Hq2]]; try done; [by eapply Hdis|symmetry; by eapply Hdis|].
    exact (Hd _ _ _ _ Hne Hq1 Hq2).
Qed.

Lemma sys_step_inv st st' : sys_inv st -> sys_step st st' -> sys_inv st'.
Proof.
  intros Hi Hs. destruct Hs as [e st st' Hs|st s' Hf Hl He]; [by eapply sched_step_inv|].
  destruct Hi as [Hp Hd]. split; [|done]. intros i p Hpi. destruct (Hp _ _ Hpi) as [v [Ho Hk Ha]].
  exists v. split; [done| |done]. intros fd c Hc. destruct (Hk _ _ Hc) as [K1 K2 K3]. simpl.
  split; rewrite ?Hf, ?Hl; [done| |done]. intros d n Hn. destruct (K2 _ _ Hn). auto.
Qed.

Lemma sys_reachable_inv s dbs st : star sys_step (boot s dbs) st -> sys_inv st.
Proof. intros Hs. eapply star_invariant; [apply sys_step_inv|exact Hs|apply boot_inv]. Qed.

Lemma held_claim s p v :
  proc_ok s p v -> is_held (pr_fd p) = true ->
  exists o key, lock_key (pr_db p) = Some key /\ pr_fd p ∈ pr_open p /\
    entries s !! key = Some o /\ locks s !! o = Some (pr_fd p).
Proof.
  intros [Ho Hk Ha] Hh. unfold is_held in Hh.
  assert (at_rest_with (pr_db p) (pr_fd p) v) as Hr.
  { unfold proc_at in Ha. destruct (pr_run p) as [sc|]; [|done]. destruct Ha as [Hd Hw].
    by destruct Hd as [e ->]; [apply Z.leb_le|]. }
  unfold at_rest_with in Hr. rewrite Hh in Hr. destruct Hr as (o & key & Hkey & ->).
  destruct (Hk (pr_fd p) (mkClaim o (Some key) true)) as [Hfd Hn Hl]; [apply lookup_insert_eq|].
  destruct key as [d n]. exists o, (d, n). split_and!; [done|rewrite <- Ho; set_solver| |by apply Hl].
  by destruct (Hn d n).
Qed.
End Laws.

(** * Theorems *)

Section Theorems.
Context {fs : Type} `{LockLaws fs}.

(** C12. One instance per database: however the processes interleave, whatever fails, whichever
    of them are killed and restarted, and whatever other programs do to the filesystem
    short of removing lock files, no two processes hold the lock of the same database
    file at once. *)
Theorem singleton_exclusive s dbs st i j p q key :
  star sys_step (boot s dbs) st ->
  sys_procs st !! i = Some p -> sys_procs st !! j = Some q ->
  is_held (pr_fd p) = true -> is_held (pr_fd q) = true ->
  lock_key (pr_db p) = Some key -> lock_key (pr_db q) = Some key -> i = j.
Proof.
  intros [Hp Hd]%sys_reachable_inv Hi Hj Hhp Hhq Hkp Hkq.
  destruct (decide (i = j)) as [|Hne]; [done|]. exfalso.
  destruct (Hp _ _ Hi) as [v Hv], (Hp _ _ Hj) as [w Hw].
  destruct (held_claim _ _ _ Hv Hhp) as (o & k & Hk & Hin & He & Hl).
  destruct (held_claim _ _ _ Hw Hhq) as (o' & k' & Hk' & Hin' & He' & Hl').
  assert (pr_fd p = pr_fd q) as Heq by congruence.
  apply (Hd _ _ _ _ Hne Hi Hj (pr_fd p)); [done|by rewrite Heq].
Qed.

(** C34. The lock is never leaked nor left stale: between calls a process has exactly the lock
    descriptor open while it holds the lock and none otherwise, and a process that is
    killed, at any point of [acquire] or while it holds the lock, leaves no lock behind. *)
Theorem singleton_no_stale s dbs st i p :
  star sys_step (boot s dbs) st -> sys_procs st !! i = Some p ->
  (pr_run p = None -> pr_open p = if is_held (pr_fd p) then {[pr_fd p]} else ∅) /\
  (forall st', sched_step (Die i) st = Some st' ->
     forall o h, locks (sys_state st') !! o = Some h ->
       locks (sys_state st) !! o = Some h /\ h ∉ pr_open p).
Proof.
  intros [Hp _]%sys_reachable_inv Hi. destruct (Hp _ _ Hi) as [v [Ho Hk Ha]]. split.
  - intros Hr. unfold proc_at, at_rest_with in Ha. rewrite Hr in Ha. unfold is_held.
    rewrite <- Ho. destruct (0 <=? pr_fd p).
    + destruct Ha as (o & key & _ & ->). by rewrite dom_singleton_L.
    + subst v. apply dom_empty_L.
  - intros st'. unfold sched_step. simpl. rewrite Hi. intros [= <-] o h. simpl.
    apply close_all_locks.
Qed.

(** The lock file is the database file's sibling: an accepted path ends in a name without
    slashes, the lock is that name with the suffix .lock, and the directory is everything
    before it (the root for a path at the root, the working directory for a bare name). *)
Theorem lock_path_for_database_spec db dir name :
  lock_path_for_database db = Ok (dir, name) <->
  exists base, base <> [] /\ "/"%char ∉ base /\ name = base ++ str ".lock" /\
    (dir = str "." /\ db = base \/ dir = str "/" /\ db = str "/" ++ base \/
     dir <> [] /\ db = dir ++ str "/" ++ base).
Proof.
  unfold lock_path_for_database. split.
  - destruct (db == []) eqn:Hdb; [done|]. apply beq_neq in Hdb.
    destruct (rfind_char "/" db) as [i|] eqn:E.
    + apply rfind_char_Some in E as (pre & base & -> & <- & Hn). rewrite drop_S_app, take_app_length.
      destruct (base == []) eqn:Hb; [done|]. apply beq_neq in Hb. intros [= <- <-].
      exists base. split_and!; try done. right. destruct pre; [by left|]. right. done.
    + apply rfind_char_None in E. destruct (db == []) eqn:Hb; [done|]. apply beq_neq in Hb.
      intros [= <- <-]. exists db. split_and!; try done. by left.
  - intros (base & Hb & Hn & -> & Hdir). apply beq_neq in Hb as Hb'.
    assert (db = base /\ dir = str "." \/ exists pre, db = pre ++ "/"%char :: base /\
      dir = if (length pre =? 0)%nat then str "/" else pre) as [[-> ->]|(pre & -> & ->)].
    { destruct Hdir as [[-> ->]|[[-> ->]|[Hd ->]]]; [by left|right; by exists []|right].
      exists dir. split; [done|]. by destruct dir. }
    + rewrite Hb', (proj2 (rfind_char_None _ _) Hn), Hb'. done.
    + rewrite (proj2 (beq_neq _ _)) by (by destruct pre).
      rewrite rfind_char_app, drop_S_app, take_app_length, Hb' by done. by destruct pre.
Qed.
End Theorems.

(** * An in-memory kernel with locks *)

(** Object to holder; closing a descriptor drops its locks. *)
Definition drop_locks (fd : Z) (l : gmap Z Z) : gmap Z Z := filter (fun x => snd x <> fd) l.
Notation lockfs rs so := (memplus rs so (gmap Z Z) drop_locks).

Section MemLock.
Context {rs : bytes -> option Z} {so : Z -> stat}.
Local Abbreviation lfs := (lockfs rs so).

Definition mem_flock (fd : Z) (s : lfs) : result unit Z * lfs :=
  match m_fds (mp_mem s) !! fd with
  | None => (Error EBADF, s)
  | Some o =>
      match mp_data s !! o with
      | Some h => if h =? fd then (Ok tt, s) else (Error EAGAIN, s)
      | None => (Ok tt, mkPlus (mp_mem s) (<[o := fd]> (mp_data s)))
      end
  end.

#[export] Instance MemLockKernel : LockKernel lfs := {
  sys_flock := mem_flock;
  sys_ftruncate _ s := (Ok tt, s);
  sys_write _ data s := (Ok (slen data), s)
}.

#[export] Instance MemLockLaws : LockLaws lfs.
Proof.
  refine {| locks := mp_data |}.
  - intros ? ? ? ? [_ E]%lift_inv. exact E.
  - intros dfd n s r s' [Eo Hl]%lift_inv. split; [exact Hl|]. simpl in *. clear Hl.
    generalize dependent (mp_mem s'). intros m Eo. unfold mem_openat_lock in Eo.
    apply mem_fault_spec in Eo as [(e & -> & _ & ? & ?)|(s1 & He & Hf & Eo)]; [done|].
    rewrite <- He, <- Hf. destruct (next_fd_fresh (m_fds s1)) as [H0 H1]. unfold mem_install in Eo.
    destruct (m_fds s1 !! dfd) as [d|] eqn:Hd; [|by simplify_eq].
    destruct (m_entries s1 !! (d, n)) as [o|] eqn:Hn; simplify_eq/=; split_and!; try done;
      eexists d, _; split_and!; try done; auto.
  - simpl. unfold mem_flock. intros fd s r s' E. split_and!; [by repeat case_match; simplify_eq|
      by repeat case_match; simplify_eq|].
    destruct (m_fds (mp_mem s) !! fd) as [o|] eqn:Ho; [|by simplify_eq].
    destruct (mp_data s !! o) as [h|] eqn:Hl.
    + destruct (Z.eqb_spec h fd) as [->|]; simplify_eq; [|done]. exists o. split_and!; [done|by right|].
      by rewrite insert_id.
    + simplify_eq. exists o. split_and!; [done|by left|done].
  - simpl. intros fd s r s' E. by simplify_eq.
  - simpl. intros fd data s r s' E. by simplify_eq.
  - simpl. unfold plus_close, drop_locks. intros fd s u s' E o h. simplify_eq/=.
    by rewrite map_lookup_filter_Some.
Defined.
End MemLock.

(** ** Witnesses *)

(** Two daemons configured with the same database. *)
Definition lock_root (p : bytes) : option Z := if p == str "/var/fm" then Some 1 else None.
Definition lock_disk : lockfs lock_root (fun o => mkStat 1 o 0 0) :=
  mkPlus (mkMem ∅ ∅ []) ∅.
Definition lock_db : bytes := str "/var/fm/jobs.db".
Definition two_daemons : system (lockfs lock_root (fun o => mkStat 1 o 0 0)) :=
  boot lock_disk [(lock_db, 41); (lock_db, 42)].

(** The first daemon runs [acquire] to its end, the second starts in the middle of it. *)
Definition first_wins : list sched :=
  [Begin 0; Turn 0; Begin 1; Turn 1; Turn 1; Turn 0; Turn 0; Turn 0; Turn 0; Turn 0; Return 0;
   Turn 1; Turn 1; Turn 1].
Definition answer_of (p : proc) : option (result Z bytes) :=
  match pr_run p with Some (Done r) => Some r | _ => None end.

(** A race and a handover: the second daemon is refused by name while the first runs, and
    gets the lock once the first has been killed. *)
Example lock_handover :
  ((fun st => (pr_fd <$> sys_procs st, answer_of <$> sys_procs st)) <$> run_sched first_wins two_daemons
   = Some ([6; -1], [None; Some (Error
       (str "another instance is already running (lock held on /var/fm/jobs.db.lock)"))])) /\
  ((fun st => pr_fd <$> sys_procs st) <$>
     run_sched (first_wins ++ [Return 1; Die 0; Begin 1; Turn 1; Turn 1; Turn 1; Turn 1; Turn 1; Turn 1;
                               Return 1]) two_daemons = Some [-1; 4]).
Proof. split; vm_compute; reflexivity. Qed.

Lemma run_sched_star {fs} `{LockLaws fs} es (st st' : system fs) :
  run_sched es st = Some st' -> star sys_step st st'.
Proof.
  revert st. induction es as [|e es IH]; intros st; simpl; [intros [= <-]; constructor|].
  destruct (sched_step e st) as [st1|] eqn:E; [|done]. intros Hr%IH.
  eapply star_step; [by eapply s_sched|done].
Qed.

Definition after_race := run_sched first_wins two_daemons.

Lemma after_race_state : exists st p q, after_race = Some st /\ sys_procs st = [p; q] /\
  pr_fd p = 6 /\ pr_run p = None /\ pr_db p = lock_db /\ pr_db q = lock_db.
Proof.
  assert ((fun st => (fun p => (pr_fd p, pr_db p, match pr_run p with None => true | _ => false end))
             <$> sys_procs st) <$> after_race = Some [(6, lock_db, true); (-1, lock_db, false)]) as Hf
    by (vm_compute; reflexivity).
  apply fmap_Some in Hf as (st & E & Hf). destruct (sys_procs st) as [|p [|q [|]]] eqn:Ep; try discriminate Hf.
  exists st, p, q. simpl in Hf. injection Hf as H1 H2 H3 _ H5 _.
  repeat match goal with |- _ /\ _ => split end;
    [exact E|exact Ep|by symmetry|by destruct (pr_run p)|by symmetry|by symmetry].
Qed.

Lemma singleton_exclusive_witness :
  exists st p q, after_race = Some st /\ sys_procs st = [p; q] /\ is_held (pr_fd p) = true /\
    is_held (pr_fd q) = false.
Proof.
  destruct after_race_state as (st & p & q & E & Ep & Hp & _ & Hdp & Hdq).
  exists st, p, q. split; [exact E|]. split; [exact Ep|]. rewrite Hp. split; [reflexivity|].
  destruct (is_held (pr_fd q)) eqn:Hh; [|reflexivity].
  pose proof (singleton_exclusive lock_disk [(lock_db, 41); (lock_db, 42)] st 0 1 p q
    (1, str "jobs.db.lock") (run_sched_star _ _ _ E)) as Hx.
  rewrite Ep, Hp, Hdp, Hdq in Hx. discriminate Hx; [reflexivity|reflexivity|reflexivity|exact Hh| |];
    vm_compute; reflexivity.
Defined.

Lemma singleton_no_stale_witness :
  exists st p q, after_race = Some st /\ sys_procs st = [p; q] /\ pr_open p = {[6]}.
Proof.
  destruct after_race_state as (st & p & q & E & Ep & Hp & Hr & _).
  destruct (singleton_no_stale lock_disk [(lock_db, 41); (lock_db, 42)] st 0 p) as [Ho _];
    [exact (run_sched_star _ _ _ E)|by rewrite Ep|].
  exists st, p, q. split; [exact E|]. split; [exact Ep|]. rewrite (Ho Hr), Hp. reflexivity.
Defined.
