(* ===== verification/Supervision.v ===== *)
(** The daemon's dealings with its supervisor: the first half of src/cpp/src/service.cpp.

    - [watchdog_interval_ms] and [strtol]: the interval systemd asks for.
    - [run_watchdog]: the pinging thread, slice by slice.
    - [notify_address]: where a notification datagram goes.
    - [sig_step]: the stop signals, with the mask that [install_signal_handlers] leaves and
      the wait of [wait_for_stop_signal]. *)

From S2P Require Import Prelude.

(** * strtol *)

Definition LONG_MAX : Z := 2 ^ 63 - 1.
Definition LONG_MIN : Z := -2 ^ 63.

(** [isspace] in the C locale. *)
Definition c_isspace (c : ascii) : bool :=
  Ascii.eqb c " " || ((9 <=? code c) && (code c <=? 13)).

(** [strtol(s, &end, 10)] of a C string: the value, whether errno is ERANGE, and what [end]
    points at, or [None] when no digit was found and [end] is [s]. *)
Definition strtol (s : bytes) : option (Z * bool * bytes) :=
  let s1 := drop_while c_isspace s in
  let '(negative, s2) :=
    match s1 with
    | c :: s' => if Ascii.eqb c "-" then (true, s')
                 else if Ascii.eqb c "+" then (false, s') else (false, s1)
    | [] => (false, s1)
    end in
  let '(digits, rest) := span_digits s2 in
  match digits with
  | [] => None
  | _ =>
      let n := if negative : bool then - dec_value digits else dec_value digits in
      if n <? LONG_MIN then Some (LONG_MIN, true, rest)
      else if LONG_MAX <? n then Some (LONG_MAX, true, rest)
      else Some (n, false, rest)
  end.

(** The reading both variables get: the whole text is one number in range. *)
Definition whole_long (s : bytes) : option Z :=
  match strtol s with
  | Some (n, false, []) => Some n
  | _ => None
  end.

(** * The watchdog interval *)

(** An environment variable: [None] when it is unset; its value has no NUL. *)
Definition set_and_nonempty (v : option bytes) : option bytes :=
  match v with Some [] | None => None | Some s => Some s end.

Definition watchdog_interval_ms (usec pid_var : option bytes) (getpid : Z) : Z :=
  match set_and_nonempty usec with
  | None => 0
  | Some usec =>
      let ours :=
        match set_and_nonempty pid_var with
        | None => true
        | Some pid => match whole_long pid with Some owner => owner =? getpid | None => false end
        end in
      if negb ours then 0
      else
        match whole_long usec with
        | None => 0
        | Some value =>
            if value <=? 0 then 0
            else
              let half_ms := Z.quot (Z.quot value 1000) 2 in
              if half_ms <=? 0 then 1 else half_ms mod 2 ^ 32
        end
  end.

(** The pinging thread: [slices] turns of 100 ms, and whether each ended with a ping. *)
Definition kSliceMs : Z := 100.
Fixpoint run_watchdog (slices : nat) (interval_ms waited : Z) : list bool :=
  match slices with
  | O => []
  | S n =>
      let waited' := (waited + kSliceMs) mod 2 ^ 32 in
      if interval_ms <=? waited' then true :: run_watchdog n interval_ms 0
      else false :: run_watchdog n interval_ms waited'
  end.

(** * Notification datagrams *)

Definition sun_path_size : Z := 108.

(** The address, [sun_path] up to [addr_len]; [None]: nothing is sent. *)
Definition notify_address (notify_socket : option bytes) : option bytes :=
  match set_and_nonempty notify_socket with
  | None => None
  | Some path =>
      if (slen path =? 0) || (sun_path_size <=? slen path) then None
      else
        match path with
        | c :: rest => if Ascii.eqb c "@" then Some (nul :: rest) else Some (path ++ [nul])
        | [] => Some (path ++ [nul])
        end
  end.

(** The answer to the caller, and the datagram: address and payload.  [socket_ok]: whether
    a socket could be made. *)
Definition notify_service_manager (state : bytes) (notify_socket : option bytes) (socket_ok : bool)
    : result unit bytes * option (bytes * bytes) :=
  if state == [] then (Error (str "service: notification state is empty"), None)
  else
    match set_and_nonempty notify_socket with
    | None => (Ok tt, None)
    | Some _ =>
        if negb socket_ok then (Ok tt, None)
        else (Ok tt, (fun addr => (addr, state)) <$> notify_address notify_socket)
    end.

(** * Stop signals *)

(** Where the main thread is in [wait_for_stop_signal]. *)
Inductive waiter := Testing | Suspending | Suspended | Stopped.

Record signals := mkSignals {
  g_stop_requested : bool;
  sig_blocked : bool;      (* SIGINT and SIGTERM in the main thread's mask *)
  sig_pending : bool;      (* raised while blocked *)
  sig_main : waiter
}.

(** [install_signal_handlers]: the answers of the three [sigaction] calls and of
    [pthread_sigmask] (an errno or success); what is in force afterwards. *)
Record dispositions := mkDispositions {
  pipe_ignored : bool;
  int_handled : bool;
  term_handled : bool;
  stops_blocked : bool
}.
Definition install_signal_handlers (strerror : Z -> bytes)
    (pipe int_ term mask : result unit Z) : result unit bytes * dispositions :=
  match pipe with
  | Error err =>
      (Error (str "service: cannot ignore SIGPIPE: " ++ strerror err), mkDispositions false false false false)
  | Ok _ =>
      match int_ with
      | Error err =>
          (Error (str "service: cannot install stop handlers: " ++ strerror err),
           mkDispositions true false false false)
      | Ok _ =>
          match term with
          | Error err =>
              (Error (str "service: cannot install stop handlers: " ++ strerror err),
               mkDispositions true true false false)
          | Ok _ =>
              match mask with
              | Error _ => (Error (str "service: cannot block stop signals"), mkDispositions true true true false)
              | Ok _ => (Ok tt, mkDispositions true true true true)
              end
          end
      end
  end.

(** The main thread when the wait begins, after a successful installation. *)
Definition installed : signals := mkSignals false true false Testing.

(** A stop signal arrives: delivered at once, or left pending while blocked.  The handler
    sets the flag; a suspended thread wakes and its mask is restored. *)
Definition raise_stop (g : signals) : signals :=
  match sig_main g with
  | Suspended => mkSignals true (sig_blocked g) false Testing
  | _ => if sig_blocked g then mkSignals (g_stop_requested g) true true (sig_main g)
         else mkSignals true false false (sig_main g)
  end.

(** The loop of [wait_for_stop_signal]; [sigsuspend] installs the empty mask and sleeps in
    one step, so a pending signal is delivered by it and it returns. *)
Definition wait_turn (g : signals) : option signals :=
  match sig_main g with
  | Testing =>
      Some (mkSignals (g_stop_requested g) (sig_blocked g) (sig_pending g)
              (if g_stop_requested g then Stopped else Suspending))
  | Suspending =>
      Some (if sig_pending g then mkSignals true (sig_blocked g) false Testing
            else mkSignals (g_stop_requested g) (sig_blocked g) false Suspended)
  | Suspended | Stopped => None
  end.

Inductive sig_step : signals -> signals -> Prop :=
| g_raise g : sig_step g (raise_stop g)
| g_turn g g' : wait_turn g = Some g' -> sig_step g g'.

Definition main_step (g g' : signals) : Prop := wait_turn g = Some g'.

(** * Lemmas *)

Lemma whole_long_dec n : 0 <= n <= LONG_MAX -> whole_long (dec n) = Some n.
Proof.
  intros Hn. pose proof (dec_digits n ltac:(lia)) as Hd. pose proof (dec_nonempty n) as Hne.
  unfold whole_long, strtol. destruct (dec n) as [|c s] eqn:E; [done|]. rewrite <- E in *. clear Hne.
  assert (drop_while c_isspace (dec n) = dec n) as ->.
  { rewrite E in *. apply Forall_cons in Hd as [Hc _]. apply is_digit_range in Hc. simpl.
    unfold c_isspace. destruct (Ascii.eqb_spec c " ") as [->|]; [by destruct Hc as [Hc _]|].
    destruct (Z.leb_spec (code c) 13); [lia|]. by rewrite andb_false_r. }
  rewrite E. assert (is_digit c = true) as Hc by (rewrite E in Hd; by inversion Hd).
  apply is_digit_range in Hc.
  destruct (Ascii.eqb_spec c "-") as [->|]; [by destruct Hc as [Hc _]|].
  destruct (Ascii.eqb_spec c "+") as [->|]; [by destruct Hc as [Hc _]|].
  rewrite <- E, span_digits_all by done. rewrite E, <- E, dec_value_dec by lia.
  unfold LONG_MIN. rewrite (proj2 (Z.ltb_ge _ _)), (proj2 (Z.ltb_ge _ _)) by lia. done.
Qed.

(** A number of slices that reaches the interval. *)
Definition slices_for (interval_ms : Z) : Z := (interval_ms + kSliceMs - 1) / kSliceMs.

Lemma slices_for_spec interval_ms : 0 < interval_ms ->
  0 < slices_for interval_ms /\
  interval_ms <= slices_for interval_ms * kSliceMs < interval_ms + kSliceMs.
Proof.
  intros H. unfold slices_for, kSliceMs.
  pose proof (Z.div_mod (interval_ms + 100 - 1) 100 ltac:(lia)).
  pose proof (Z.mod_pos_bound (interval_ms + 100 - 1) 100 ltac:(lia)). lia.
Qed.

(** From [j] waited slices on, the next pings come at the multiples of [slices_for]. *)
Lemma run_watchdog_from n interval_ms j i b :
  0 < interval_ms <= 2 ^ 32 - kSliceMs -> 0 <= j < slices_for interval_ms ->
  run_watchdog n interval_ms (j * kSliceMs) !! i = Some b ->
  b = ((j + Z.of_nat i + 1) mod slices_for interval_ms =? 0).
Proof.
  intros Hi. destruct (slices_for_spec interval_ms ltac:(lia)) as [Hk0 Hk].
  set (k := slices_for interval_ms) in *. revert j i.
  induction n as [|n IH]; intros j i Hj; [done|]. simpl.
  assert ((j * kSliceMs + kSliceMs) mod 2 ^ 32 = (j + 1) * kSliceMs) as ->
    by (rewrite Z.mod_small; unfold kSliceMs in *; lia).
  assert (interval_ms <= (j + 1) * kSliceMs <-> j + 1 = k) as Hiff by (unfold kSliceMs in *; lia).
  destruct (Z.leb_spec interval_ms ((j + 1) * kSliceMs)) as [Hle|Hgt]; destruct i as [|i]; simpl.
  - intros [= <-]. apply Hiff in Hle. rewrite Z.add_0_r, Hle, Z.mod_same by lia. done.
  - apply Hiff in Hle. change 0 with (0 * kSliceMs) at 1. intros ->%IH; [|lia].
    replace (j + Z.of_nat (S i) + 1) with (0 + Z.of_nat i + 1 + 1 * k) by lia. by rewrite Z.mod_add by lia.
  - intros [= <-]. symmetry. apply Z.eqb_neq. rewrite Z.add_0_r, Z.mod_small; lia.
  - intros ->%IH; [|lia]. do 2 f_equal. lia.
Qed.

(** What holds of the stop signals as the program runs. *)
Definition sig_inv (g : signals) : Prop :=
  sig_blocked g = true /\
  (sig_main g = Stopped -> g_stop_requested g = true) /\
  (sig_main g = Suspended -> g_stop_requested g = false /\ sig_pending g = false) /\
  (sig_main g = Suspending -> g_stop_requested g = false).

Lemma sig_step_inv g g' : sig_inv g -> sig_step g g' -> sig_inv g'.
Proof.
  destruct g as [flag bl pend mn]. intros (Hb & Hs & Hw & Hi) Hst. simpl in *. subst bl.
  inversion Hst as [|? ? Ht]; subst; clear Hst; unfold sig_inv.
  - unfold raise_stop. simpl. destruct mn; simpl; split_and!; try done; naive_solver.
  - unfold wait_turn in Ht. simpl in Ht. destruct mn; simplify_eq/=.
    + destruct flag; by split_and!.
    + specialize (Hi eq_refl). subst flag. destruct pend; by split_and!.
Qed.

(** A raised signal stops the main thread within four of its own turns. *)
Lemma raised_stops g :
  sig_inv g -> g_stop_requested g = true \/ sig_pending g = true ->
  exists g', star main_step g g' /\ sig_main g' = Stopped.
Proof.
  destruct g as [flag bl pend mn]. intros (Hb & Hs & Hw & Hi) Hr. simpl in *. subst bl.
  assert (forall p, exists g', star main_step (mkSignals true true p Testing) g' /\ sig_main g' = Stopped) as Ht.
  { intros p. eexists. split; [eapply star_step; [reflexivity|constructor]|done]. }
  assert (forall f, exists g', star main_step (mkSignals f true true Suspending) g' /\ sig_main g' = Stopped) as Hu.
  { intros f. destruct (Ht false) as (g' & Hg & Hm). exists g'. split; [|done].
    eapply star_step; [reflexivity|done]. }
  destruct mn.
  - destruct flag; [apply Ht|]. destruct Hr as [Hr|Hr]; [done|subst pend].
    destruct (Hu false) as (g' & Hg & Hm). exists g'. split; [|done]. eapply star_step; [reflexivity|done].
  - destruct Hr as [Hr|Hr]; subst; [by specialize (Hi eq_refl)|apply Hu].
  - destruct (Hw eq_refl) as [-> ->]. by destruct Hr.
  - eexists. split; [constructor|done].
Qed.

(** * Theorems *)

(** The pings arrive in time: when systemd asks for a deadline of [n] microseconds, from
    two hundred milliseconds up to ninety-nine days, the interval is read exactly and the
    watchdog thread pings at every [k]-th slice and at no other, where [k] slices are within
    the deadline. *)
Theorem watchdog_in_time n pid_var getpid :
  200000 <= n < 2000 * (2 ^ 32 - 100) ->
  set_and_nonempty pid_var = None \/ pid_var = Some (dec getpid) /\ 0 <= getpid <= LONG_MAX ->
  let interval := watchdog_interval_ms (Some (dec n)) pid_var getpid in
  exists k, 0 < k /\ k * kSliceMs * 1000 <= n /\
    forall slices i b, run_watchdog slices interval 0 !! i = Some b ->
      b = ((Z.of_nat i + 1) mod k =? 0).
Proof.
  intros Hn Hp interval. assert (interval = n / 2000) as Hi.
  { subst interval. unfold watchdog_interval_ms.
    assert (set_and_nonempty (Some (dec n)) = Some (dec n)) as ->
      by (pose proof (dec_nonempty n); unfold set_and_nonempty; by destruct (dec n)).
    assert (match set_and_nonempty pid_var with
            | None => true
            | Some pid => match whole_long pid with Some owner => owner =? getpid | None => false end
            end = true) as ->.
    { destruct Hp as [->|[-> Hg]]; [done|].
      assert (set_and_nonempty (Some (dec getpid)) = Some (dec getpid)) as ->
        by (pose proof (dec_nonempty getpid); unfold set_and_nonempty; by destruct (dec getpid)).
      rewrite whole_long_dec by done. apply Z.eqb_refl. }
    cbn [negb]. rewrite whole_long_dec by (unfold LONG_MAX; lia).
    rewrite (proj2 (Z.leb_gt _ _)) by lia.
    rewrite (Z.quot_div_nonneg n 1000), Z.quot_div_nonneg, Z.div_div by (try apply Z.div_pos; lia).
    change (1000 * 2) with 2000.
    assert (100 <= n / 2000 < 2 ^ 32 - 100) by (split; [apply Z.div_le_lower_bound|apply Z.div_lt_upper_bound]; lia).
    rewrite (proj2 (Z.leb_gt _ _)) by lia. by rewrite Z.mod_small by lia. }
  clearbody interval. subst interval.
  assert (100 <= n / 2000 < 2 ^ 32 - 100) by (split; [apply Z.div_le_lower_bound|apply Z.div_lt_upper_bound]; lia).
  destruct (slices_for_spec (n / 2000)) as [Hk0 Hk]; [lia|]. exists (slices_for (n / 2000)).
  split_and!; [done| |].
  - pose proof (Z.mul_div_le n 2000 ltac:(lia)). unfold kSliceMs in *. lia.
  - intros slices i b Hb. apply (run_watchdog_from slices _ 0 i b); [unfold kSliceMs; lia|lia|done].
Qed.

(** A deadline of 2000 times 2^32 microseconds switches the watchdog off: the cast of the
    interval to an unsigned wraps to the zero that means no watchdog was asked for. *)
Theorem watchdog_wraps_to_zero :
  watchdog_interval_ms (Some (str "8589934592000")) None 1 = 0 /\
  watchdog_interval_ms (Some (str "8589934590000")) None 1 = 4294967295.
Proof. split; vm_compute; reflexivity. Qed.


(** Without the mask the signal can be lost between the test and the suspension. *)
Example unblocked_signal_lost :
  star sig_step (mkSignals false false false Testing) (mkSignals true false false Suspended).
Proof.
  apply (star_step _ _ (mkSignals false false false Suspending)); [by constructor 2|].
  apply (star_step _ _ (mkSignals true false false Suspending)); [exact (g_raise (mkSignals false false false Suspending))|].
  apply (star_step _ _ (mkSignals true false false Suspended)); [by constructor 2|constructor].
Qed.

(** ** Witnesses *)

(** WatchdogSec=30: the ping comes every fifteen seconds. *)
Lemma watchdog_in_time_witness :
  watchdog_interval_ms (Some (str "30000000")) None 7 = 15000 /\
  exists k, 0 < k /\ k * kSliceMs * 1000 <= 30000000.
Proof.
  split; [vm_compute; reflexivity|].
  destruct (watchdog_in_time 30000000 None 7) as (k & H0 & H1 & _); [lia|left; reflexivity|].
  exists k. split; [exact H0|exact H1].
Defined.

