(* ===== verification/Service.v ===== *)
(** The daemon: src/cpp/src/service.cpp and src/cpp/src/main.cpp.

    [service_start] and [service_stop] compose the components the way [Service::start] and
    [Service::stop] do: the singleton lock, the event sink, the manager with its store, and
    the connection server.  Both return every state of the [Service] object they go through,
    since what they promise is an order.  What the operating system answers is an
    [environment]; the lock runs on a kernel state [fs].

    [daemon] is [main] from its arguments to the start of the wait. *)

From S2P Require Import Prelude Kernel FsOps Store Events EventLog Config Manager Singleton HttpParser Server HttpService Supervision.

(** * check_config *)

Definition check_config (config : Config) (statfs : bytes -> result Z bytes) : result unit bytes :=
  let path := storage_database_path config in
  if path == [] then Error (str "storage.database_path is required")
  else
    let directory :=
      match rfind_char "/" path with
      | None => str "."
      | Some slash => if (slash =? 0)%nat then str "/" else take slash path
      end in
    match storage_path_is_local directory (statfs directory) with
    | Error reason => Error reason
    | Ok _ =>
        if jobs_workers config =? 0 then Error (str "jobs.workers must be at least 1") else Ok tt
    end.

(** * The service object *)

(** [v_manager] is the heap object with the store it owns; [v_dispatch] is whether the
    global [g_dispatch] points at the manager and the options; [v_watchdog] is the interval
    of the watchdog thread, if there is one. *)
Record service := mkService {
  v_running : bool;
  v_events : publisher;
  v_log : EventLogOptions;
  v_lock : Z;
  v_manager : option (manager * JobStore);
  v_server : server;
  v_http : HttpServiceOptions;
  v_dispatch : bool;
  v_watchdog : option Z
}.

Definition new_service : service :=
  mkService false new_publisher (mkLogOptions Info true) (-1) None new_server default_http_options
    false None.

Definition set_running (b : bool) (v : service) : service :=
  mkService b (v_events v) (v_log v) (v_lock v) (v_manager v) (v_server v) (v_http v)
    (v_dispatch v) (v_watchdog v).
Definition set_events (p : publisher) (v : service) : service :=
  mkService (v_running v) p (v_log v) (v_lock v) (v_manager v) (v_server v) (v_http v)
    (v_dispatch v) (v_watchdog v).
Definition set_log (o : EventLogOptions) (v : service) : service :=
  mkService (v_running v) (v_events v) o (v_lock v) (v_manager v) (v_server v) (v_http v)
    (v_dispatch v) (v_watchdog v).
Definition set_lock (fd : Z) (v : service) : service :=
  mkService (v_running v) (v_events v) (v_log v) fd (v_manager v) (v_server v) (v_http v)
    (v_dispatch v) (v_watchdog v).
Definition set_manager (m : option (manager * JobStore)) (v : service) : service :=
  mkService (v_running v) (v_events v) (v_log v) (v_lock v) m (v_server v) (v_http v)
    (v_dispatch v) (v_watchdog v).
Definition set_server (s : server) (v : service) : service :=
  mkService (v_running v) (v_events v) (v_log v) (v_lock v) (v_manager v) s (v_http v)
    (v_dispatch v) (v_watchdog v).
Definition set_dispatch (http : HttpServiceOptions) (b : bool) (v : service) : service :=
  mkService (v_running v) (v_events v) (v_log v) (v_lock v) (v_manager v) (v_server v) http
    b (v_watchdog v).
Definition set_watchdog (w : option Z) (v : service) : service :=
  mkService (v_running v) (v_events v) (v_log v) (v_lock v) (v_manager v) (v_server v) (v_http v)
    (v_dispatch v) w.

(** What the operating system answers during a start or a stop. *)
Record environment := mkEnv {
  e_statfs : bytes -> result Z bytes;
  e_store : Store.open_answers;
  e_listen : listen_answers;
  e_wake : result (Z * Z) Z;
  e_pid : Z;
  e_notify : option bytes;
  e_notify_ok : bool;
  e_watchdog_usec : option bytes;
  e_watchdog_pid : option bytes;
  e_now : Z;
  (* what the workers do between the notification and their join: they run the queue dry *)
  e_drain : manager * JobStore -> manager * JobStore
}.

(** What leaves the service: datagrams to the supervisor and published events. *)
Inductive effect :=
| Notified (address payload : bytes)
| Published (e : Event).

Definition notify (env : environment) (state : bytes) : list effect :=
  match snd (notify_service_manager state (e_notify env) (e_notify_ok env)) with
  | Some (address, payload) => [Notified address payload]
  | None => []
  end.

(** The sink's registration: the addresses of [log_event] and of [log_options]. *)
Definition log_sink : Subscriber := (1, 1).

Definition unsubscribe_sink (v : service) : service :=
  set_events (mkPublisher (fst (erase_first log_sink (subscribers (v_events v))))
                (in_flight (v_events v)) (pthreads (v_events v))) v.

(** The store of a [JobManager] that has not been started. *)
Definition unopened_store : JobStore := mkStore false false 1073741823 (mkDatabase ∅ 0 0) [].

(** [JobManager::shutdown]: stop the intake, join the workers, close the store. The joined
    workers' turns are steps of [Manager.step]; [drain] is what these make of the queues and
    of the store, and nothing is assumed about it. The files they move are not part of this
    state: the kernel here is what the service's own calls see of it, locks and descriptors. *)
Definition manager_shutdown (drain : manager * JobStore -> manager * JobStore)
    (ms : manager * JobStore) : manager * JobStore :=
  match shutdown_begin (fst ms) with
  | None => ms
  | Some m => let '(m', s) := drain (m, snd ms) in (m', Store.close s)
  end.

Section Service.
Context {fs : Type} `{!Kernel fs} `{!LockKernel fs}.

(** The unwinding of a start that failed after the sink was subscribed. *)
Definition unwind (v : service) (k : fs) : list service * fs :=
  let v1 := unsubscribe_sink v in
  let '(fd, k1) := run_script (release (v_lock v1)) k in
  ([v1; set_lock fd v1], k1).

(** Steps 4 and 5: the socket and the readiness, with the manager running. *)
Definition start_server (env : environment) (config : Config) (v : service) (k : fs)
    : result unit bytes * list service * list effect * fs :=
  let v1 := set_dispatch (mkHttpOptions (max_head_bytes (v_http v)) (http_max_body_bytes config)) true v in
  let options := mkServerOptions (Z.to_nat (jobs_workers config)) 5000 5000 in
  match server_start strerror (http_bind config) (http_port config) options true
          (e_listen env) (e_wake env) (v_server v1) with
  | (Error e, _, srv) =>
      let v2 := set_server srv v1 in
      let v3 := set_manager (manager_shutdown (e_drain env) <$> v_manager v2) v2 in
      let v4 := set_manager None v3 in
      let v5 := set_dispatch (v_http v4) false v4 in
      let '(vs, k1) := unwind v5 k in
      (Error e, [v1; v2; v3; v4; v5] ++ vs, [], k1)
  | (Ok _, _, srv) =>
      let v2 := set_server srv v1 in
      let v3 := set_running true v2 in
      let interval := watchdog_interval_ms (e_watchdog_usec env) (e_watchdog_pid env) (e_pid env) in
      let v4 := if 0 <? interval then set_watchdog (Some interval) v3 else v3 in
      let detail := str "port=" ++ dec (l_port (srv_listener srv))
                    ++ str " workers=" ++ dec (jobs_workers config) in
      (Ok tt, [v1; v2; v3; v4],
       notify env (str "READY=1")
       ++ [Published (mkEvent ServiceStarted Info (e_now env) [] [] detail)], k)
  end.

(** [Service::start]: the result, the states gone through, what was sent, the kernel. *)
Definition service_start (env : environment) (config : Config) (v : service) (k : fs)
    : result unit bytes * list service * list effect * fs :=
  if v_running v then (Error (str "service: already running"), [], [], k)
  else
    match check_config config (e_statfs env) with
    | Error e => (Error e, [], [], k)
    | Ok _ =>
        match run_script (acquire (v_lock v) (storage_database_path config) (e_pid env)) k with
        | (Error e, k1) => (Error e, [], [], k1)
        | (Ok fd, k1) =>
            let v1 := set_lock fd v in
            let v2 := set_log (mkLogOptions (logging_level config) (logging_enabled config)) v1 in
            match subscribe (fst log_sink) (snd log_sink) (v_events v2) with
            | Error e =>
                let '(fd', k2) := run_script (release fd) k1 in
                (Error e, [v1; v2; set_lock fd' v2], [], k2)
            | Ok events =>
                let v3 := set_events events v2 in
                let v4 := set_manager (Some (new_manager config, unopened_store)) v3 in
                match Manager.start (storage_database_path config) (e_store env)
                        (new_manager config) unopened_store with
                | (Error e, m1, s1) =>
                    let v5 := set_manager None v4 in
                    let '(vs, k2) := unwind v5 k1 in
                    (Error e, [v1; v2; v3; v4; v5] ++ vs, [], k2)
                | (Ok _, m1, s1) =>
                    let v5 := set_manager (Some (m1, s1)) v4 in
                    let '(r, vs, effects, k2) := start_server env config v5 k1 in
                    (r, [v1; v2; v3; v4; v5] ++ vs, effects, k2)
                end
            end
        end
    end.

(** [Service::stop]; [drained] is the pool once the server's threads have been joined. *)
Definition service_stop (env : environment) (drained : pool) (v : service) (k : fs)
    : list service * list effect * fs :=
  if negb (v_running v) then ([], [], k)
  else
    let v1 := set_running false v in
    let effects := Published (mkEvent ServiceStopping Info (e_now env) [] [] [])
                   :: notify env (str "STOPPING=1") in
    let v2 := set_watchdog None v1 in
    let joined :=
      match shutdown_pool (srv_pool (v_server v2)) with
      | None => [v2]
      | Some p =>
          let v3 := set_server (with_pool (v_server v2) p) v2 in
          [v2; v3; set_server (snd (shutdown_finish (with_pool (v_server v3) drained))) v3]
      end in
    let v4 := default v2 (last joined) in
    let v5 := set_dispatch (v_http v4) false v4 in
    let v6 := set_manager (manager_shutdown (e_drain env) <$> v_manager v5) v5 in
    let v7 := set_manager None v6 in
    let v8 := unsubscribe_sink v7 in
    let '(fd, k1) := run_script (release (v_lock v8)) k in
    ([v1] ++ joined ++ [v5; v6; v7; v8; set_lock fd v8], effects, k1).
End Service.

(** The state after a list of states. *)
Definition final (v : service) (vs : list service) : service := default v (last vs).

(** * main *)

Fixpoint parse_args (args : list bytes) (config_path : bytes) (check_only : bool)
    : option (bytes * bool) :=
  match args with
  | [] => Some (config_path, check_only)
  | arg :: rest =>
      if arg == str "--check" then parse_args rest config_path true
      else if arg == str "--config" then
        match rest with
        | path :: rest' => parse_args rest' path check_only
        | [] => None
        end
      else None
  end.

Definition usage (argv0 : bytes) : bytes :=
  str "usage: " ++ argv0 ++ str " --config <path> [--check]" ++ [lf]
  ++ str "  --check   validate the configuration and exit; creates nothing" ++ [lf].

(** Where [main] is when it has got as far as it can without a signal: it has exited with a
    code, or it waits in [wait_for_stop_signal]. *)
Inductive standing := Exits (code : Z) | Waits.

Section Main.
Context {fs : Type} `{!Kernel fs} `{!LockKernel fs}.

Record daemon_run := mkRun {
  d_standing : standing;
  d_output : list (EventLog.stream * bytes);
  d_service : service;
  d_effects : list effect;
  d_kernel : fs
}.

Definition exits (code : Z) (where_ : EventLog.stream) (text : bytes) (v : service) (k : fs) : daemon_run :=
  mkRun (Exits code) [(where_, text)] v [] k.
Definition complains (error : bytes) (v : service) (k : fs) : daemon_run :=
  exits 1 Stderr (c_str error ++ [lf]) v k.

Definition daemon (argv0 : bytes) (args : list bytes) (read_file : bytes -> result bytes bytes)
    (signals : result unit bytes) (env : environment) (k : fs) : daemon_run :=
  match parse_args args [] false with
  | None => exits 2 Stderr (usage argv0) new_service k
  | Some (path, check_only) =>
      if path == [] then exits 2 Stderr (usage argv0) new_service k
      else
        match load_config_file path (read_file path) with
        | Error e => complains e new_service k
        | Ok config =>
            match check_config config (e_statfs env) with
            | Error e => complains e new_service k
            | Ok _ =>
                if check_only then
                  exits 0 Stdout (str "configuration is valid" ++ [lf]) new_service k
                else
                  match signals with
                  | Error e => complains e new_service k
                  | Ok _ =>
                      match service_start env config new_service k with
                      | (Error e, vs, _, k1) => complains e (final new_service vs) k1
                      | (Ok _, vs, effects, k1) =>
                          let v := final new_service vs in
                          mkRun Waits
                            [(Stdout, str "listening on " ++ c_str (http_bind config) ++ str ":"
                                      ++ dec (l_port (srv_listener (v_server v))) ++ [lf])]
                            v effects k1
                      end
                  end
            end
        end
  end.

(** After the wait. *)
Definition daemon_stop (env : environment) (drained : pool) (d : daemon_run) : daemon_run :=
  let '(vs, effects, k1) := service_stop env drained (d_service d) (d_kernel d) in
  mkRun (Exits 0) (d_output d ++ [(Stdout, str "stopping" ++ [lf])]) (final (d_service d) vs)
    (d_effects d ++ effects) k1.
End Main.
Arguments daemon_run : clear implicits.

(** * Lemmas *)

(** A service that holds nothing: new, refused, or stopped. *)
Record resting (v : service) : Prop := {
  r_running : v_running v = false;
  r_sink : subscribers (v_events v) = [];
  r_lock : v_lock v < 0;
  r_manager : v_manager v = None;
  r_server : at_rest (v_server v);
  r_dispatch : v_dispatch v = false;
  r_watchdog : v_watchdog v = None
}.

(** The manager that handlers are sent to is there and running. *)
Definition managed (v : service) : Prop :=
  v_dispatch v = true /\ exists m s, v_manager v = Some (m, s) /\ Manager.running m = true.

(** Every layer stands on the one below: nothing listens or serves without a running
    manager, and no manager exists without the lock and the log sink. *)
Definition layered (v : service) : Prop :=
  (listen_is_open (srv_listener (v_server v)) = true \/ p_handlers (srv_pool (v_server v)) <> [] ->
   managed v) /\
  (is_Some (v_manager v) -> 0 <= v_lock v /\ log_sink ∈ subscribers (v_events v)).

(** A service that has started and whose pool has run. *)
Record up (opts : ServerOptions) (v : service) : Prop := {
  u_running : v_running v = true;
  u_sink : subscribers (v_events v) = [log_sink];
  u_lock : 0 <= v_lock v;
  u_managed : managed v;
  u_pool : star (pool_step opts) (started_pool opts) (srv_pool (v_server v));
  u_serving : p_running (srv_pool (v_server v)) = true;
  u_handlers : (0 < handlers opts)%nat;
  u_fds : 0 <= l_fd (srv_listener (v_server v)) /\ 0 <= fst (srv_wake (v_server v)) /\
          0 <= snd (srv_wake (v_server v))
}.

(** The kernel gives out descriptors that are not negative. *)
Definition env_ok (env : environment) : Prop :=
  (forall fd, ans_socket (e_listen env) = Ok fd -> 0 <= fd) /\
  (forall w, e_wake env = Ok w -> 0 <= fst w /\ 0 <= snd w).

Lemma new_service_resting : resting new_service.
Proof. by split. Qed.

Lemma not_serving srv : at_rest srv ->
  ~ (listen_is_open (srv_listener srv) = true \/ p_handlers (srv_pool srv) <> []).
Proof. intros (Hl & _ & _ & Hh & _). rewrite Hl, Hh. by intros [|]. Qed.

(** A layered state with nothing serving. *)
Lemma layered_quiet v :
  at_rest (v_server v) ->
  (is_Some (v_manager v) -> 0 <= v_lock v /\ log_sink ∈ subscribers (v_events v)) -> layered v.
Proof. intros Hs Hm. split; [|done]. intros H. by destruct (not_serving _ Hs). Qed.

Lemma store_open_Ok path a s r s' : Store.open path a s = (Ok r, s') -> is_open s' = true.
Proof.
  unfold Store.open. destruct (open_error a); [done|].
  destruct (check_integrity _ _ _) as [[?|?] ?]; [|done]. destruct (apply_pragmas _ _) as [[?|?] ?]; [|done].
  destruct (ensure_schema _) as [[?|?] ?]; [|done]. by intros [= <- <-].
Qed.

Lemma final_app v vs u us : final v (vs ++ [u] ++ us) = final u us.
Proof.
  unfold final. rewrite last_app. destruct us as [|x us]; [done|]. simpl.
  destruct (last_is_Some (x :: us)) as [_ Hl]. destruct Hl as [y Hy]; [done|]. simpl in Hy. by rewrite Hy.
Qed.

(** One goal per state gone through. *)
Ltac each_state := repeat first [apply Forall_nil_2 | apply Forall_cons_2].

Section Laws.
Context {fs : Type} `{LockLaws fs}.

(** Unwinding from a state without manager gives a service at rest. *)
Lemma unwind_spec v (k : fs) vs k' :
  v_running v = false -> subscribers (v_events v) = [log_sink] -> 0 <= v_lock v ->
  v_manager v = None -> at_rest (v_server v) -> v_dispatch v = false -> v_watchdog v = None ->
  unwind v k = (vs, k') ->
  Forall layered vs /\ resting (final v vs) /\ run_script (release (v_lock v)) k = (-1, k').
Proof.
  intros Hr Hs Hl Hm Hsrv Hd Hw. unfold unwind. simpl.
  destruct (run_script (release (v_lock v)) k) as [fd k1] eqn:E.
  pose proof (release_run _ _ _ _ Hl E) as (-> & _). intros [= <- <-].
  split_and!; [|split; simpl; try done|done].
  - each_state; apply layered_quiet; simpl; rewrite ?Hm; try done; by intros [? ?].
  - by rewrite Hs.
Qed.

Lemma start_server_spec env config v (k : fs) r vs eff k' :
  env_ok env -> v_running v = false -> subscribers (v_events v) = [log_sink] -> 0 <= v_lock v ->
  (exists m s, v_manager v = Some (m, s) /\ Manager.running m = true) ->
  at_rest (v_server v) -> v_watchdog v = None ->
  start_server env config v k = (r, vs, eff, k') ->
  Forall layered vs /\
  match r with
  | Ok _ =>
      let opts := mkServerOptions (Z.to_nat (jobs_workers config)) 5000 5000 in
      up opts (final v vs) /\ srv_pool (v_server (final v vs)) = started_pool opts /\
      v_manager (final v vs) = v_manager v /\ v_lock (final v vs) = v_lock v /\ k' = k
  | Error e => resting (final v vs) /\ eff = [] /\ run_script (release (v_lock v)) k = (-1, k')
  end.
Proof.
  intros [Hsock Hwake] Hr Hs Hl (m & s & Hm & Hmr) Hsrv Hw. unfold start_server. simpl.
  set (opts := mkServerOptions (Z.to_nat (jobs_workers config)) 5000 5000).
  set (v1 := set_dispatch (mkHttpOptions (max_head_bytes (v_http v)) (http_max_body_bytes config)) true v).
  assert (layered v1) as L1.
  { apply layered_quiet; [done|]. simpl. intros _. rewrite Hs. set_solver. }
  destruct (server_start _ _ _ _ _ _ _ (v_server v)) as [[q c] srv] eqn:E.
  pose proof (server_start_spec _ _ _ _ _ _ _ _ _ _ _ Hsrv E) as Hq. destruct q as [[]|e].
  - destruct Hq as (_ & Hp & Hc & Hwk & Hsk & _). intros [= <- <- <- <-].
    assert (0 < handlers opts)%nat as Hh.
    { revert Hc. unfold start_check. simpl. by destruct (Z.to_nat (jobs_workers config)); [|lia]. }
    set (v2 := set_server srv v1). set (interval := watchdog_interval_ms _ _ _).
    assert (managed v2) as Hmg by (split; [done|]; simpl; eauto).
    assert (forall b w, layered (set_watchdog w (set_running b v2))) as L2.
    { intros b w. split; [intros _; exact Hmg|]. simpl. rewrite Hs. intros _. set_solver. }
    assert (exists w, (if 0 <? interval then set_watchdog (Some interval) (set_running true v2)
                       else set_running true v2) = set_watchdog w (set_running true v2)) as [w Hlast].
    { destruct (0 <? interval); [by eexists|]. exists None. unfold v2, v1. simpl. destruct v. simpl in *. by subst. }
    rewrite Hlast. unfold final. simpl. split; [each_state; [done|..|apply L2]|].
    + replace v2 with (set_watchdog None (set_running false v2)); [apply L2|].
      unfold v2, v1. destruct v. simpl in *. by subst.
    + replace (set_running true v2) with (set_watchdog None (set_running true v2)); [apply L2|].
      unfold v2, v1. destruct v. simpl in *. by subst.
    + split_and!; try done. split; simpl; try done; rewrite ?Hp; [constructor|done|].
      split; [by apply Hsock|]. by apply Hwake.
  - destruct Hq as (-> & _).
    set (v2 := set_server (v_server v) v1). set (v3 := set_manager (manager_shutdown (e_drain env) <$> v_manager v) v2).
    set (v4 := set_manager None v3). set (v5 := set_dispatch _ false v4).
    destruct (unwind v5 k) as [us k1] eqn:Eu. intros [= <- <- <- <-].
    destruct (unwind_spec v5 k us k1) as (Lu & Ru & Hrel); try done.
    pose proof (final_app v [v1; v2; v3; v4] v5 us) as Hfin. simpl in Hfin. rewrite Hfin.
    split_and!; try done. change (Forall layered ([v1; v2; v3; v4; v5] ++ us)).
    apply Forall_app. split; [|done]. each_state; try done;
      (apply layered_quiet; [done|]; simpl; intros _; rewrite Hs; set_solver).
Qed.

(** A manager that starts is running on an open store. *)
Lemma manager_start_spec path answers config r m s :
  Manager.start path answers (new_manager config) unopened_store = (Ok r, m, s) ->
  Manager.running m = true /\ is_open s = true.
Proof.
  unfold Manager.start. simpl. destruct (Store.open path answers unopened_store) as [[o|e] s1] eqn:E; [|done].
  intros [= _ <- <-]. split; [done|]. by eapply store_open_Ok.
Qed.

Lemma drained_rest opts srv p :
  star (pool_step opts) (started_pool opts) p -> (0 < handlers opts)%nat ->
  p_stopping p = true -> all_exited p ->
  0 <= fst (srv_wake srv) -> 0 <= snd (srv_wake srv) ->
  at_rest (snd (shutdown_finish (with_pool srv p))).
Proof.
  intros Hrun Hn Hs Ha H2 H3. apply pool_reachable_inv in Hrun as Hi.
  destruct (exited_empty _ _ Hn Hi Ha) as (Hq & Ho & _).
  unfold shutdown_finish, close_wake, with_pool, listen_close. simpl.
  rewrite (proj2 (Z.leb_le _ _) H2), (proj2 (Z.leb_le _ _) H3), Hq, Ho.
  split_and!; try done. simpl. rewrite (i_running _ _ Hi), Hs. done.
Qed.

(** Every way a start can end. *)
Lemma service_start_cases env config v (k : fs) r vs eff k' :
  env_ok env -> resting v -> locks_open k ->
  service_start env config v k = (r, vs, eff, k') ->
  Forall layered vs /\
  match r with
  | Ok _ =>
      let opts := mkServerOptions (Z.to_nat (jobs_workers config)) 5000 5000 in
      up opts (final v vs) /\ srv_pool (v_server (final v vs)) = started_pool opts /\
      (exists m s, v_manager (final v vs) = Some (m, s) /\ is_open s = true) /\
      exists o, locks k !! o = None /\ locks k' !! o = Some (v_lock (final v vs))
  | Error e => resting (final v vs) /\ eff = [] /\ fds k' = fds k /\ locks k' = locks k
  end.
Proof.
  intros Henv Hv Hk. unfold service_start. rewrite (r_running _ Hv).
  destruct (check_config config (e_statfs env)) as [[]|e]; [|by intros [= <- <- <- <-]].
  destruct (run_script (acquire _ _ _) k) as [a k1] eqn:Ea.
  pose proof (acquire_run _ _ _ _ _ _ (r_lock _ Hv) Hk Ea) as Ha.
  destruct a as [fd|e]; [|by intros [= <- <- <- <-]]. destruct Ha as (Hfd & _ & o & _ & Ho & Hl).
  assert (forall k2 h, run_script (release fd) k1 = (h, k2) -> h = -1 /\ fds k2 = fds k /\ locks k2 = locks k) as Hrel
    by (intros k2 h Hr; eapply acquire_release; [apply Hv|exact Hk|exact Ea|exact Hr]).
  simpl. unfold subscribe. simpl. rewrite (r_sink _ Hv). simpl.
  set (v1 := set_lock fd v). set (v2 := set_log _ v1). set (v3 := set_events _ v2).
  set (v4 := set_manager (Some _) v3).
  assert (Forall layered [v1; v2; v3; v4]) as L.
  { destruct Hv. each_state; apply layered_quiet; simpl; try done; rewrite ?r_manager0; try (by intros [? ?]).
    intros _. split; [done|]. set_solver. }
  destruct (Manager.start _ _ _ _) as [[ms m1] s1] eqn:Em. destruct ms as [n|e].
  - apply manager_start_spec in Em as [Hmr Hso]. set (v5 := set_manager (Some (m1, s1)) v4).
    destruct (start_server env config v5 k1) as [[[r0 us] eff0] k2] eqn:Es. intros [= <- <- <- <-].
    apply start_server_spec in Es as [Lu Hr]; [|done|by destruct Hv|done|done|simpl; eauto|by destruct Hv|by destruct Hv].
    pose proof (final_app v [v1; v2; v3; v4] v5 us) as Hfin. simpl in Hfin.
    assert (final v (v1 :: v2 :: v3 :: v4 :: v5 :: us) = final v5 us) as -> by exact Hfin.
    split.
    { change (Forall layered ([v1; v2; v3; v4] ++ [v5] ++ us)). rewrite !Forall_app. split_and!; try done.
      each_state. apply layered_quiet; [by destruct Hv|]. intros _. simpl. split; [done|set_solver]. }
    destruct r0 as [[]|e].
    + destruct Hr as (Hup & Hp & Hm & Hlk & ->). split_and!; try done; [rewrite Hm; simpl; eauto|].
      exists o. rewrite Hlk, Hl. simpl. by rewrite lookup_insert_eq.
    + destruct Hr as (Hrest & -> & Hr). split_and!; try done; by apply Hrel in Hr as (_ & ? & ?).
  - set (v5 := set_manager None v4). destruct (unwind v5 k1) as [us k2] eqn:Eu. intros [= <- <- <- <-].
    apply unwind_spec in Eu as (Lu & Hrest & Hr); [|by destruct Hv..].
    pose proof (final_app v [v1; v2; v3; v4] v5 us) as Hfin. simpl in Hfin. rewrite Hfin.
    apply Hrel in Hr as (_ & ? & ?). split_and!; try done.
    change (Forall layered ([v1; v2; v3; v4] ++ [v5] ++ us)). rewrite !Forall_app. split_and!; try done.
    each_state. apply layered_quiet; [by destruct Hv|]. by intros [? ?].
Qed.

(** ** Theorems *)




End Laws.

(** ** Witnesses *)

Definition svc_config : Config :=
  mkConfig (str "127.0.0.1") 8080 65536 1 lock_db 3 1000 60000 Info true.
Definition svc_env (bind_answer : result unit Z) : environment :=
  mkEnv (fun _ => Ok 0xEF53) (Store.mkAnswers true None (str "ok") (str "wal") 2 1 (mkDatabase ∅ 7 1))
    (mkAnswers true false (Ok 5) (Ok tt) bind_answer (Ok tt) (Ok (mkSockaddr AF_INET (31, 144)))) (Ok (7, 8)) 41
    (Some (str "@fm")) true (Some (str "30000000")) None 1000 id.
Definition svc_opts : ServerOptions := mkServerOptions 1 5000 5000.

Lemma svc_env_ok b : env_ok (svc_env b).
Proof. split; [intros fd [= <-]; lia|intros w [= <-]; simpl; lia]. Qed.
Lemma lock_disk_open : locks_open lock_disk.
Proof. intros o h. simpl. by rewrite lookup_empty. Qed.

Definition svc_up := service_start (svc_env (Ok tt)) svc_config new_service lock_disk.

(** What can be read off a run without its maps. *)
Definition svc_result (x : result unit bytes * list service * list effect * lockfs lock_root (fun o => mkStat 1 o 0 0)) :=
  let '(r, vs, eff, _) := x in (r, length vs, eff).

Lemma svc_up_result : exists vs eff k, svc_up = (Ok tt, vs, eff, k).
Proof.
  assert (fst (fst (svc_result svc_up)) = Ok tt) as Hr by (vm_compute; reflexivity).
  destruct svc_up as [[[r vs] eff] k]. simpl in Hr. subst r. eauto.
Qed.

(** READY is announced to the abstract socket, after the nine states of the start. *)
Example svc_up_effects : svc_result svc_up =
  (Ok tt, 9%nat, [Notified (nul :: str "fm") (str "READY=1");
                  Published (mkEvent ServiceStarted Info 1000 [] [] (str "port=8080 workers=1"))]).
Proof. vm_compute. reflexivity. Qed.


(** The pool of the started service, drained. *)
Definition svc_drained : pool := mkPool [] 1 true false 0 0 [Exited] true ∅.



Definition svc_files (path : bytes) : result bytes bytes :=
  Ok (str "[storage]" ++ [lf] ++ str "database_path = /var/fm/jobs.db" ++ [lf]).

